(* ===== verification/_CoqProject ===== *)
-Q . S2P
Prelude.v
RustStr.v
Utf8.v
RustNum.v
ErrorModel.v
Options.v
DirectedRead.v
Staleness.v
Config.v
ConfigFacts.v
Sql.v
SqlLex.v
SqlFacts.v
Runtime.v
Stream.v
Txn.v
Client.v
Wp.v
Metadata.v
Connection.v
TxnSystem.v
StatementState.v
Ingest.v
Statement.v
IngestFacts.v
StatementFacts.v
QueryRead.v
Uri.v
Driver.v
DriverFacts.v
Arrow.v
Decode.v
Partitions.v
Calendar.v
Bind.v
DecodeFacts.v
BindFacts.v
DdlFacts.v
Nested.v
Objects.v
ObjectsFacts.v
ObjectsTree.v
Statistics.v
StatisticsFacts.v
Bridge.v
Introspect.v
IntrospectFacts.v
FfiGuard.v
FfiError.v
FfiHandle.v
FfiOptions.v
FfiStream.v
FfiImport.v
FfiEntry.v
FfiEntryFacts.v
FfiDriver.v
ObjectsExact.v
QueryExact.v
IngestExact.v
FuzzTargets.v
FuzzOptions.v
Conformance.v
