(* ===== verification/Prelude.v ===== *)
(** * Verification of the Spanner ADBC driver

    The program (crate [adbc-spanner], under [src/]) is an ADBC driver: a database
    handle yields connections, a connection yields statements, a statement takes
    SQL text or bound Arrow data and runs it against Cloud Spanner through the
    google-cloud client; a C ABI exports the same objects to other languages.  Its
    parts interact as follows.

    - Databases.  A database is its options, some of them expanded from a
      connection URI; connecting resolves the endpoint and the credentials and
      caches the client stack ([src/driver.rs], [src/driver/]).
    - Text and options.  SQL text is lexed, split and classified to choose a path
      ([src/sql.rs]); options are parsed into a configuration shared by a
      connection and, by inheritance, its statements ([src/options.rs] and the
      per-option modules).
    - Transactions.  A connection in manual mode shares one [TxnState] with its
      statements; statements buffer DML and mutations into it or pin it to one
      read snapshot, [commit] and the autocommit toggle apply and clear it
      ([src/connection.rs], [src/connection/txn.rs], [src/connection/exec.rs]).
    - Execution.  A statement routes to DDL, DML, queries, partitions or bulk
      ingest ([src/statement.rs], [src/statement/ingest.rs]).
    - Data.  Results are decoded into Arrow batches ([src/conversion.rs]), bound
      batches are encoded as parameters and mutations ([src/bind.rs]).
    - Runtime.  Every call waits on a sticky per-operation cancel signal and an
      optional deadline; query results stream through a prefetch task
      ([src/runtime.rs], [src/timeout.rs], [src/conversion.rs]).
    - Metadata.  Introspection runs queries on one snapshot and regroups their rows
      into nested batches ([src/metadata.rs], [src/objects.rs],
      [src/statistics.rs], [src/info.rs], [src/nested.rs]).
    - C ABI.  Every entry point contains panics, converts its arguments, takes the
      object's lock and exports errors and streams ([src/ffi]).

    ** Files

    - [Prelude] (this file): strings, errors with their message pieces, the
      [Result] monad, tactics and hints of the development, lemmas on lists.
    - [RustStr], [Utf8], [RustNum]: what the sources use of Rust's strings and
      bytes, machine integers (with wrap-around), binary64 (over [SpecFloat]) and
      durations.
    - [ErrorModel]: [src/error.rs].  The client's status type is [RpcStatus].
    - [Options], [DirectedRead], [Staleness], [Config]: [src/options.rs], the
      option keys of [src/lib.rs], [src/directed_read.rs], [src/staleness.rs],
      [src/request.rs], [src/retry.rs], [src/timeout.rs], [src/query_options.rs];
      [ConfigFacts] has the theorems on configurations.  The flags a connection
      shares with its statements are cells of a store, so aliasing is explicit.
    - [Sql]: [src/sql.rs]; [SqlLex] and [SqlFacts] have its theory.
    - [Runtime]: cancel signals and slots, and the wakeup protocol.  [Stream]:
      chunking of result sets, and the prefetch task, channel and reader as a
      step relation.
    - [Txn]: [src/connection/txn.rs].  [Client]: the client as an interface
      ([SpannerClient], the typed calls [Call], an environment [Env] that answers
      them), the request builders, and the handler monad [M] over a [World] (cancel
      slots, cells, transaction state, trace of calls).  [Wp]: its reasoning rules.
      [Connection]: [src/connection.rs] (transactions and options) with
      [src/connection/exec.rs] and the probe of [src/metadata.rs].  [TxnSystem]:
      the interleavings of the critical sections, and the transaction theorems.
    - [StatementState], [Ingest], [Statement]: [src/statement.rs] and
      [src/statement/ingest.rs].  [IngestFacts], [StatementFacts]: their theorems.
      [QueryRead]: a caller that reads a query to its end.
    - [Uri], [Driver], [DriverFacts]: [src/driver/uri.rs], [src/driver.rs] and
      [src/driver/credentials.rs].
    - [Arrow], [Decode], [Bind]: the Arrow and Spanner types with the schema of a
      result, the array builders of [src/conversion.rs], and [src/bind.rs];
      [Calendar] is a concrete calendar; [DecodeFacts], [BindFacts], [DdlFacts]
      have their theorems.  [Partitions]: partition descriptors.
    - [Metadata]: the LIKE matcher.  [Nested], [Objects], [Statistics]:
      [src/nested.rs], [src/objects.rs], [src/statistics.rs] and [src/info.rs];
      [ObjectsFacts], [ObjectsTree], [StatisticsFacts]: their theorems.
      [Bridge]: decoding and binding as the instances of the interfaces [Batches]
      and [Formats] the statement is written over.  [Introspect],
      [IntrospectFacts]: the connection's metadata handlers.
    - [FfiGuard], [FfiError], [FfiHandle], [FfiOptions], [FfiStream], [FfiImport],
      [FfiEntry], [FfiEntryFacts], [FfiDriver]: [src/ffi], one file per file of it;
      [FfiOptions] has [database.rs] too, [FfiEntry] is [connection.rs] and
      [statement.rs], [FfiDriver] is [mod.rs] and the table of [abi.rs].
    - [ObjectsExact], [QueryExact], [IngestExact]: whole paths, from the client's
      replies to the batches a caller reads, and from the batches bound to an ingest
      to those a query of the table returns.
    - [FuzzTargets], [FuzzOptions]: [fuzz/fuzz_targets] and the [fuzzing] module of
      [src/lib.rs], their assertions proved for every input.  [Conformance]: unit
      tests of the repository evaluated on the definitions.

    ** How the state corresponds

    A handler is a function of the whole [World]; it survives an error, and [None]
    is a panic (or, where a definition takes [fuel], the end of the fuel).  A
    critical section under the transaction mutex is one [locked] step; between two
    sections other statements may run, which [TxnSystem.sys_step] makes explicit.
    A remote call is one event of the trace with the environment's reply: its
    eventual outcome and whether the deadline or a cancel came first.  Theorems
    hold for every environment, so for every behaviour of the server.  The queries
    that introspection joins or runs a few at a time are made in the order it lists
    them; they read one snapshot.

    In the C ABI [None] is undefined behaviour or a panic that leaves the boundary.
    Errors and the private data of streams are blocks of an explicit [Heap]; a
    caller's struct is the words it allocated; an exported object is the shared
    state of its [Arc], its state mutex, its cancel mutex and its poison flag, under
    every interleaving of the caller's threads.

    ** Interfaces

    Code outside the repository is a class, with its documented behaviour as a
    class of laws where a theorem needs it, and an instance that satisfies them:
    [SpannerClient] and [RpcStatus] (the client), [Chrono] with [ChronoLaws]
    ([Calendar] implements it), [Codec] (base64 and JSON text), [Wire] with
    [WireLaws] (the client's value conversions), [Serde] with [SerdeLaws],
    [ArrowHost], [Outside] (credentials, environment, files), [StatisticKeys],
    [InfoConstants] and the result schemas of [adbc_core] (constants),
    [Foreign] with [ForeignLaws] (release callbacks of other libraries), [Producer]
    (bound C streams), [Unwind], [RegexCrate] with [RegexLaws].  Inside the
    repository, [Batches] and [Formats] separate the statement from the Arrow code,
    [Optionable] and [OptionTarget] are the traits the option entry points are
    written over, [StreamReader] is what an exported stream needs of a reader, and
    [ConnectionAbi] and [BindAbi] are what the C entry points need of the driver.

    ** What the theorems show

    - Transactions ([TxnSystem]): buffered work is settled exactly once under any
      interleaving; [commit] and the autocommit setter are all or nothing and
      refine the interleaving system; a query transaction keeps one snapshot.
    - Execution ([StatementFacts]): calls match the statement's kind and a read-only
      connection never writes; plain DML (neither partitioned nor [THEN RETURN]) is
      one atomic batch; a statement has one destination; lazy and eager binding
      agree; draining terminates.
    - Ingest ([IngestFacts], [DdlFacts]): over write-only commits every row is
      written once and in order, or the error says exactly how many were; over
      BatchWrite every row is sent at most once, in order, nothing after a call that
      failed, and a success means every group applied; chunks respect the budgets;
      what is left behind in each transaction mode; the table is created by one
      statement whatever the names in it.
    - SQL text ([SqlFacts], [FuzzTargets]): lexing is a partition and local,
      splitting is exact, quoting is inert, classification ignores trivia,
      parameters are distinct and paired as promised.
    - Streams and cancellation ([Stream], [Runtime]): no silent truncation, no
      deadlock, no lost wakeup, cancels are sticky and scoped.
    - Options ([ConfigFacts], [DirectedRead], [Staleness]): reachable
      configurations are usable, rejected options change nothing, values round
      trip, read bounds are pinned soundly.
    - Data ([DecodeFacts], [BindFacts], [FuzzTargets]): decoding by columns is
      decoding cell by cell and well typed; what is bound reads back; the scanners
      read back canonical text; partition descriptors round trip.
    - Queries, end to end ([QueryExact]): what the caller reads is the server's
      result sets, all of them and decoded exactly, or an error; the driver's own
      errors on a good result are list offsets beyond 32 bits and struct types
      without fields.
    - Ingests, end to end ([IngestExact]): what was bound is what a query of the
      table reads back, every row once and every cell as it reads.
    - Databases ([DriverFacts], [Uri]): a connection uses the credentials its
      options ask for, and which options it then ignores; reads, [Debug] and checks
      do not depend on a secret, and the errors of building credentials show of a
      key its [type] or the text of its parse error only; the URI grammar round
      trips.
    - Metadata ([ObjectsFacts], [ObjectsTree], [ObjectsExact], [StatisticsFacts],
      [IntrospectFacts]): pushed-down filters change nothing and are never spliced
      into SQL, nested batches are the trees they encode, one snapshot is read,
      [get_objects] returns the filtered rows of the schema tables exactly.
    - C ABI: buffers are never overrun ([FfiGuard]); errors and streams are memory
      safe and say what they should ([FfiError], [FfiStream]); objects live exactly
      as long as they are reachable, and a cancel ends while a call runs, waiting at
      most for other cancels and for the store of the handle ([FfiHandle]); buffered
      options mean what live ones would when no URI is among them or no key is
      repeated, and what a repeated one means otherwise ([FfiOptions]); imported
      batches are checked ([FfiImport]); outputs are written on success only, and
      then all of them ([FfiEntryFacts]); loading respects the caller's revision
      ([FfiDriver]).

    ** Fuel and bounds

    [write_mutation_range] is given one more than the number of rows of its range,
    and a bisection at least halves it; [next_statement] one more than the number
    of batches; [bound_chunk] two more than the statements left; [like_match] the
    bound [like_match_exact] proves; [lossy_chunks] the number of bytes: the
    theorems show these are enough.  [execute_update] takes the fuel of its drain
    loop, for which [drain_terminates] gives a sufficient value in every
    environment; [statement_bind_stream] takes the number of items it may collect
    from a producer, whose stream need not end.  [read_source] takes the pulls of
    a reading caller; [QueryRead] shows that enough of it always exists.  Row counts
    and index arithmetic are unbounded ([nat], [Z]) where the code's [usize] and
    [i64] count rows in memory; affected-row sums wrap at 64 bits, and integers of
    the data (dates, timestamps, decimals, offsets the code checks) keep their width.

    ** Not modelled

    The Tokio runtime, gRPC, the client's internal retries and the server are the
    environment.  Of the C ABI: callback signatures, [get_cancel_handle] of the Rust
    API, the allocations Rust's ownership frees by itself (a stream's messages), and
    the containment of a release callback of another library that unwinds.
    [src/asan_canary.rs], [build.rs] and the benchmark are not part of the driver.

    ** Plan

    Every component of the driver is modelled and the main paths are composed end to
    end.  What could still be added is the refinement of the C entry points to the
    Rust handlers stated once for all of them, and more of the repository's unit
    tests in [Conformance]. *)

From stdpp Require Export base tactics list option numbers strings gmap.

(** ** Characters and strings

    A Rust [char] is a Unicode scalar value; a Rust [&str]/[String] is the
    sequence of its chars.  Byte offsets (which the source uses to slice
    strings) are recovered from [len_utf8] in [RustStr]. *)

Abbreviation char := N (only parsing).
Abbreviation rstr := (list N) (only parsing).

(** The code points of an ASCII literal. *)
Definition str (s : String.string) : rstr :=
  map Ascii.N_of_ascii (String.list_ascii_of_string s).

Arguments str _%_string_scope : simpl never.

(** ASCII characters the source names in its patterns. *)
Abbreviation cNL := 10%N (only parsing).
Abbreviation cSPACE := 32%N (only parsing).
Abbreviation cDQ := 34%N (only parsing).
Abbreviation cHASH := 35%N (only parsing).
Abbreviation cPERCENT := 37%N (only parsing).
Abbreviation cAMP := 38%N (only parsing).
Abbreviation cSQ := 39%N (only parsing).
Abbreviation cSTAR := 42%N (only parsing).
Abbreviation cPLUS := 43%N (only parsing).
Abbreviation cCOMMA := 44%N (only parsing).
Abbreviation cDASH := 45%N (only parsing).
Abbreviation cDOT := 46%N (only parsing).
Abbreviation cSLASH := 47%N (only parsing).
Abbreviation cZERO := 48%N (only parsing).
Abbreviation cCOLON := 58%N (only parsing).
Abbreviation cSEMI := 59%N (only parsing).
Abbreviation cEQ := 61%N (only parsing).
Abbreviation cQUESTION := 63%N (only parsing).
Abbreviation cAT := 64%N (only parsing).
Abbreviation cBSLASH := 92%N (only parsing).
Abbreviation cUNDERSCORE := 95%N (only parsing).
Abbreviation cBTICK := 96%N (only parsing).
Abbreviation cLBRACE := 123%N (only parsing).
Abbreviation cRBRACE := 125%N (only parsing).

(** ** Errors as values

    [adbc_core::error::Status], with the variants the driver's sources name. *)
Inductive Status :=
  | NotImplemented
  | NotFound
  | AlreadyExists
  | InvalidArguments
  | InvalidState
  | InvalidData
  | Integrity
  | Internal
  | IO
  | Cancelled
  | Timeout
  | Unauthenticated
  | Unauthorized
  | Unknown.

#[export] Instance Status_eq_dec : EqDecision Status.
Proof. solve_decision. Defined.

(** An error message is the list of the pieces its [format!] call is given, in
    order: literal text, a double-quoted literal, and the arguments shown with
    [{}] or [{:?}].  The escaping that [{:?}] performs is not expanded, so what
    a message can reveal is exactly what its fragments carry. *)
Inductive frag :=
  | Lit (s : String.string)
  | Quo (s : String.string)
  | Disp (s : rstr)
  | Dbg (s : rstr)
  | DbgL (l : list rstr)
  | DispZ (n : Z).

Arguments Lit _%_string_scope.
Arguments Quo _%_string_scope.

Abbreviation Message := (list frag) (only parsing).

(** [adbc_core::error::Error], with the fields the driver reads and writes. *)
Record Error := mkError {
  message : Message;
  status : Status;
  vendor_code : Z;
  details : option (list (rstr * list N));
}.

(** [adbc_core::error::Result]. *)
Inductive Result (A : Type) :=
  | Ok (a : A)
  | Err (e : Error).

Arguments Ok {_} _.
Arguments Err {_} _.

(** The [?] operator: bind of the error sum, with stdpp's [x ← c; k]. *)
#[export] Instance Result_mret : MRet Result := fun A a => Ok a.
#[export] Instance Result_mbind : MBind Result :=
  fun A B f r => match r with Ok a => f a | Err e => Err e end.
#[export] Instance Result_fmap : FMap Result :=
  fun A B f r => match r with Ok a => Ok (f a) | Err e => Err e end.

(** [Option::ok_or_else]. *)
Definition ok_or {A} (o : option A) (e : Error) : Result A :=
  match o with Some a => Ok a | None => Err e end.

(** [Result::is_ok] as a proposition. *)
Definition is_Ok {A} (r : Result A) : Prop := exists a, r = Ok a.

(** Every error of [r] carries the status [st]. *)
Definition errs_with {A} (st : Status) (r : Result A) : Prop :=
  match r with Ok _ => True | Err e => status e = st end.

(** [iter.map(f).collect::<Result<Vec<_>>>()]: the first error wins. *)
Fixpoint try_map {A B} (f : A -> Result B) (l : list A) : Result (list B) :=
  match l with
  | [] => Ok []
  | a :: l => b ← f a; bs ← try_map f l; Ok (b :: bs)
  end.

(** ** Tactics of the development *)

(** Split the matches and conditionals of the goal or of a hypothesis, and
    discard the branches the context contradicts. *)
Ltac split_match :=
  match goal with
  | |- context [match ?x with _ => _ end] => destruct x eqn:?
  | H : context [match ?x with _ => _ end] |- _ => destruct x eqn:?
  end.

Ltac crush := repeat (simplify_eq/=; try done; try split_match); simplify_eq/=; try done.

(** Resolve the [decide]s whose answer the context already has. *)
Ltac dec_simpl := repeat first [rewrite decide_True by done | rewrite decide_False by done].

(** Case analysis of an [x ← c; k = Ok v] hypothesis. *)
Ltac inv_bind H :=
  unfold mbind, Result_mbind in H; cbn beta iota in H;
  repeat match type of H with
  | match ?c with Ok _ => _ | Err _ => _ end = Ok _ =>
      let E := fresh "E" in destruct c eqn:E; [ cbn beta iota in H | discriminate H ]
  end.

(** ** Generic lemmas *)

Create HintDb driver discriminated.

Section Generic.
Context {A B : Type}.

Lemma Ok_inj (a b : A) : Ok a = Ok b -> a = b.
Proof. congruence. Qed.

Lemma try_map_Ok_Forall2 (f : A -> Result B) l bs :
  try_map f l = Ok bs <-> Forall2 (fun a b => f a = Ok b) l bs.
Proof.
  split.
  - revert bs. induction l as [|a l IH]; intros bs H; cbn in H; [by simplify_eq|].
    inv_bind H. simplify_eq. constructor; [done | by apply IH].
  - induction 1 as [|a b l bs Hab _ IH]; cbn; [done|].
    rewrite Hab. cbn. by rewrite IH.
Qed.

Lemma try_map_length (f : A -> Result B) l bs :
  try_map f l = Ok bs -> length bs = length l.
Proof. intros H%try_map_Ok_Forall2. symmetry. by eapply Forall2_length. Qed.

Lemma try_map_app (f : A -> Result B) l k :
  try_map f (l ++ k) = (x ← try_map f l; y ← try_map f k; Ok (x ++ y)).
Proof.
  induction l as [|a l IH]; cbn; [by destruct (try_map f k)|].
  unfold mbind, Result_mbind in *. destruct (f a); [|done]. rewrite IH.
  destruct (try_map f l); [|done]. by destruct (try_map f k).
Qed.

Lemma try_map_app_Ok (f : A -> Result B) l k x y :
  try_map f l = Ok x -> try_map f k = Ok y -> try_map f (l ++ k) = Ok (x ++ y).
Proof. intros H1 H2. rewrite try_map_app, H1. cbn. by rewrite H2. Qed.

Lemma try_map_map {C} (g : A -> C) (f : C -> Result B) l :
  try_map f (map g l) = try_map (fun a => f (g a)) l.
Proof. induction l as [|a l IH]; [done|]. cbn. by rewrite IH. Qed.

Lemma try_map_ext (f g : A -> Result B) l : (forall a, f a = g a) -> try_map f l = try_map g l.
Proof. intros H. induction l as [|a l IH]; [done|]. cbn. by rewrite H, IH. Qed.

Lemma errs_with_bind st (r : Result A) (f : A -> Result B) :
  errs_with st r -> (forall a, errs_with st (f a)) -> errs_with st (r ≫= f).
Proof. destruct r; cbn; auto. Qed.

Lemma errs_with_ok_or st (o : option A) e : status e = st -> errs_with st (ok_or o e).
Proof. by destruct o. Qed.

Lemma errs_with_try_map st (f : A -> Result B) l :
  (forall a, errs_with st (f a)) -> errs_with st (try_map f l).
Proof.
  intros Hf. induction l as [|a l IH]; [done|].
  cbn [try_map]. unfold mbind, Result_mbind. specialize (Hf a).
  destruct (f a); [|done]. by destruct (try_map f l).
Qed.

Lemma last_app_nonnil (l k : list A) : k <> [] -> last (l ++ k) = last k.
Proof.
  intros Hk. destruct k as [|x k _] using rev_ind; [done|].
  by rewrite app_assoc, !last_snoc.
Qed.

Lemma head_app_nonnil (l k : list A) : l <> [] -> head (l ++ k) = head l.
Proof. by destruct l. Qed.

(** Two ways to cut one list: one of the cuts is inside the other. *)
Lemma app_split_cases (a b c d : list A) :
  a ++ b = c ++ d ->
  (exists m, c = a ++ m /\ b = m ++ d) \/ (exists m, m <> [] /\ a = c ++ m /\ d = m ++ b).
Proof.
  revert c. induction a as [|x a IH]; intros c H; cbn in *.
  - left. by exists c.
  - destruct c as [|y c]; cbn in *.
    + right. exists (x :: a). by split_and!.
    + injection H as -> H. destruct (IH _ H) as [(m & -> & ->)|(m & ? & -> & ->)].
      * left. by exists m.
      * right. by exists m.
Qed.

End Generic.

(** A concatenation is mapped group by group. *)
Lemma try_map_concat {A B} (f : A -> Result B) groups cells :
  try_map f (concat groups) = Ok cells <->
  exists chunks, cells = concat chunks /\ Forall2 (fun g c => try_map f g = Ok c) groups chunks.
Proof.
  revert cells. induction groups as [|g groups IH]; intros cells; cbn [concat].
  - split; [intros [= <-]; by exists []|]. by intros (chunks & -> & ->%Forall2_nil_inv_l).
  - rewrite try_map_app. unfold mbind, Result_mbind. split.
    + destruct (try_map f g) as [c|] eqn:Eg; [|done].
      destruct (try_map f (concat groups)) as [cs|] eqn:Ec; [|done]. intros [= <-].
      destruct (proj1 (IH cs) eq_refl) as (chunks & -> & H). exists (c :: chunks). by split; [|constructor].
    + intros (chunks & -> & (c & cs & Hc & Hcs & ->)%Forall2_cons_inv_l). rewrite Hc.
      by rewrite (proj2 (IH (concat cs))) by by exists cs.
Qed.

#[export] Hint Resolve Ok_inj : driver.

Arguments errs_with : simpl never.

(** Show that every error of an expression built from binds, conditionals and
    matches carries one status; the leaves are closed with the [errs] hints. *)
Create HintDb errs discriminated.
#[export] Hint Extern 1 (errs_with _ (Ok _)) => exact I : errs.
#[export] Hint Extern 1 (errs_with _ (Err _)) => reflexivity : errs.
#[export] Hint Extern 1 (errs_with _ (mret _)) => exact I : errs.
#[export] Hint Extern 1 (errs_with _ (ok_or _ _)) => (apply errs_with_ok_or; reflexivity) : errs.

Ltac errs_step :=
  match goal with
  | |- errs_with _ (?r ≫= _) => apply errs_with_bind; [|intro]
  | |- errs_with _ (try_map _ _) => apply errs_with_try_map; intro
  | |- errs_with _ (match ?x with _ => _ end) => destruct x
  | |- errs_with _ _ => solve [auto with errs]
  end.
Ltac errs := repeat errs_step.
