(* ===== verification/RustStr.v ===== *)
(** * Rust string and character operations

    The operations of [str], [char] and [Iterator] the driver's text handling is
    written with, over strings as lists of chars.  Offsets are byte offsets in
    the UTF-8 encoding, as in Rust: [slice] is [&s[a..b]], and its [None] is the
    panic of an offset that is out of range or inside a char. *)

From S2P Require Import Prelude.

(** ** Characters *)

(** [char::len_utf8]. *)
Definition len_utf8 (c : char) : nat :=
  if decide (c < 128)%N then 1
  else if decide (c < 2048)%N then 2
  else if decide (c < 65536)%N then 3
  else 4.

Arguments len_utf8 : simpl never.

Definition is_ascii_uppercase (c : char) : bool := bool_decide (65 <= c <= 90)%N.
Definition is_ascii_lowercase (c : char) : bool := bool_decide (97 <= c <= 122)%N.
Definition is_ascii_digit (c : char) : bool := bool_decide (48 <= c <= 57)%N.
Definition is_ascii_alphabetic (c : char) : bool :=
  is_ascii_uppercase c || is_ascii_lowercase c.
Definition is_ascii_alphanumeric (c : char) : bool :=
  is_ascii_alphabetic c || is_ascii_digit c.
Definition is_ascii_hexdigit (c : char) : bool :=
  is_ascii_digit c || bool_decide (65 <= c <= 70)%N || bool_decide (97 <= c <= 102)%N.

(** [char::is_whitespace]: the Unicode [White_Space] property. *)
Definition is_whitespace (c : char) : bool :=
  bool_decide (9 <= c <= 13)%N || bool_decide (c = 32)%N || bool_decide (c = 133)%N
  || bool_decide (c = 160)%N || bool_decide (c = 5760)%N
  || bool_decide (8192 <= c <= 8202)%N || bool_decide (c = 8232)%N
  || bool_decide (c = 8233)%N || bool_decide (c = 8239)%N
  || bool_decide (c = 8287)%N || bool_decide (c = 12288)%N.

(** [char::is_control]: the Unicode general category [Cc]. *)
Definition is_control (c : char) : bool :=
  bool_decide (c <= 31)%N || bool_decide (127 <= c <= 159)%N.

Definition to_ascii_lowercase_char (c : char) : char :=
  if is_ascii_uppercase c then (c + 32)%N else c.

(** ** Strings *)

(** [str::len]: the length in bytes. *)
Definition utf8_len (s : rstr) : nat := sum_list_with len_utf8 s.

Arguments utf8_len : simpl never.

Definition to_ascii_lowercase (s : rstr) : rstr := map to_ascii_lowercase_char s.

Definition eq_ignore_ascii_case (a b : rstr) : bool :=
  bool_decide (to_ascii_lowercase a = to_ascii_lowercase b).

(** Drop [n] bytes; [None] unless [n] is a char boundary. *)
Fixpoint byte_skip (n : nat) (s : rstr) : option rstr :=
  match n with
  | O => Some s
  | _ => match s with
         | [] => None
         | c :: s' => if decide (len_utf8 c <= n) then byte_skip (n - len_utf8 c) s' else None
         end
  end.

(** The first [n] bytes; [None] unless [n] is a char boundary. *)
Fixpoint byte_take (n : nat) (s : rstr) : option rstr :=
  match n with
  | O => Some []
  | _ => match s with
         | [] => None
         | c :: s' => if decide (len_utf8 c <= n)
                      then t ← byte_take (n - len_utf8 c) s'; Some (c :: t) else None
         end
  end.

(** [&s[a..b]]. *)
Definition slice (s : rstr) (a b : nat) : option rstr :=
  if decide (a <= b) then r ← byte_skip a s; byte_take (b - a) r else None.

(** [Iterator::take_while] / the rest. *)
Fixpoint take_while (p : char -> bool) (s : rstr) : rstr :=
  match s with
  | [] => []
  | c :: s' => if p c then c :: take_while p s' else []
  end.

Fixpoint drop_while (p : char -> bool) (s : rstr) : rstr :=
  match s with
  | [] => []
  | c :: s' => if p c then drop_while p s' else s
  end.

Definition trim_start (s : rstr) : rstr := drop_while is_whitespace s.

Fixpoint trim_end (s : rstr) : rstr :=
  match s with
  | [] => []
  | c :: s' => match trim_end s' with
               | [] => if is_whitespace c then [] else [c]
               | t => c :: t
               end
  end.

Definition trim (s : rstr) : rstr := trim_end (trim_start s).

(** [str::split_once(c)]. *)
Fixpoint split_once (d : char) (s : rstr) : option (rstr * rstr) :=
  match s with
  | [] => None
  | c :: s' => if decide (c = d) then Some ([], s')
               else '(a, b) ← split_once d s'; Some (c :: a, b)
  end.

(** [str::rsplit_once(c)]. *)
Fixpoint rsplit_once (d : char) (s : rstr) : option (rstr * rstr) :=
  match s with
  | [] => None
  | c :: s' => match rsplit_once d s' with
               | Some (a, b) => Some (c :: a, b)
               | None => if decide (c = d) then Some ([], s') else None
               end
  end.

(** [str::split(c)]: always at least one piece. *)
Fixpoint split_on (d : char) (s : rstr) : list rstr :=
  match s with
  | [] => [[]]
  | c :: s' => if decide (c = d) then [] :: split_on d s'
               else match split_on d s' with
                    | [] => [[c]]
                    | p :: ps => (c :: p) :: ps
                    end
  end.

Fixpoint strip_prefix (p s : rstr) : option rstr :=
  match p, s with
  | [], _ => Some s
  | a :: p', b :: s' => if decide (a = b) then strip_prefix p' s' else None
  | _ :: _, [] => None
  end.

Definition starts_with (p s : rstr) : bool := bool_decide (is_Some (strip_prefix p s)).

Definition strip_suffix (p s : rstr) : option rstr :=
  r ← strip_prefix (reverse p) (reverse s); Some (reverse r).

Arguments strip_suffix : simpl never.

Definition contains_char (d : char) (s : rstr) : bool := bool_decide (d ∈ s).

(** [[&str]::join]. *)
Fixpoint join (sep : rstr) (l : list rstr) : rstr :=
  match l with
  | [] => []
  | [s] => s
  | s :: l => s ++ sep ++ join sep l
  end.

(** ** Lemmas: bytes and slices *)

Lemma len_utf8_pos c : 1 <= len_utf8 c <= 4.
Proof. unfold len_utf8. repeat case_decide; lia. Qed.

Lemma utf8_len_app a b : utf8_len (a ++ b) = utf8_len a + utf8_len b.
Proof. unfold utf8_len. by rewrite sum_list_with_app. Qed.

Lemma utf8_len_cons c s : utf8_len (c :: s) = len_utf8 c + utf8_len s.
Proof. done. Qed.

Lemma utf8_len_nil : utf8_len [] = 0.
Proof. done. Qed.

Lemma utf8_len_0 s : utf8_len s = 0 -> s = [].
Proof. destruct s as [|c s]; [done|]. rewrite utf8_len_cons. pose proof (len_utf8_pos c). lia. Qed.

Lemma byte_skip_app a b : byte_skip (utf8_len a) (a ++ b) = Some b.
Proof.
  induction a as [|c a IH]; [by destruct b|]. rewrite utf8_len_cons.
  pose proof (len_utf8_pos c). cbn. destruct (len_utf8 c + utf8_len a) eqn:E; [lia|].
  rewrite decide_True by lia. rewrite <- E.
  by replace (len_utf8 c + utf8_len a - len_utf8 c) with (utf8_len a) by lia.
Qed.

Lemma byte_take_app a b : byte_take (utf8_len a) (a ++ b) = Some a.
Proof.
  induction a as [|c a IH]; [by destruct b|]. rewrite utf8_len_cons.
  pose proof (len_utf8_pos c). cbn. destruct (len_utf8 c + utf8_len a) eqn:E; [lia|].
  rewrite decide_True by lia. rewrite <- E.
  replace (len_utf8 c + utf8_len a - len_utf8 c) with (utf8_len a) by lia. by rewrite IH.
Qed.

(** A slice between two char boundaries is the text between them. *)
Lemma slice_middle a m b :
  slice (a ++ m ++ b) (utf8_len a) (utf8_len a + utf8_len m) = Some m.
Proof.
  unfold slice. rewrite decide_True by lia. rewrite byte_skip_app. cbn.
  replace (utf8_len a + utf8_len m - utf8_len a) with (utf8_len m) by lia.
  apply byte_take_app.
Qed.

Lemma byte_skip_inv n s r :
  byte_skip n s = Some r -> exists p, s = p ++ r /\ utf8_len p = n.
Proof.
  revert n. induction s as [|c s IH]; intros [|n] H; cbn in H; simplify_eq.
  - by exists [].
  - by exists [].
  - case_decide; [|done]. destruct (IH _ H) as (p & -> & Hp).
    exists (c :: p). split; [done|]. rewrite utf8_len_cons. lia.
Qed.

(** ** Lemmas: scanning and trimming *)

Section Scan.
Variable p : char -> bool.

Lemma take_drop_while s : take_while p s ++ drop_while p s = s.
Proof. induction s as [|c s IH]; cbn; [done|]. destruct (p c); cbn; congruence. Qed.

Lemma take_while_all s : Forall (fun c => p c = true) (take_while p s).
Proof. induction s as [|c s IH]; cbn; [done|]. destruct (p c) eqn:E; by constructor. Qed.

Lemma drop_while_head s c : head (drop_while p s) = Some c -> p c = false.
Proof. induction s as [|d s IH]; cbn; [done|]. destruct (p d) eqn:E; [done|]. cbn. congruence. Qed.

Lemma take_while_id s : Forall (fun c => p c = true) s -> take_while p s = s.
Proof. induction 1 as [|c s Hc _ IH]; cbn; [done|]. by rewrite Hc, IH. Qed.

Lemma drop_while_id s : (forall c, head s = Some c -> p c = false) -> drop_while p s = s.
Proof. destruct s as [|c s]; cbn; [done|]. intros H. by rewrite (H c). Qed.

(** A maximal run followed by a char outside the class. *)
Lemma take_while_app k r :
  Forall (fun c => p c = true) k -> (forall c, head r = Some c -> p c = false) ->
  take_while p (k ++ r) = k /\ drop_while p (k ++ r) = r.
Proof.
  intros Hk Hr. induction Hk as [|c k Hc _ [IH1 IH2]]; cbn.
  - split; [destruct r as [|c r]; cbn; [done|]; by rewrite Hr | by apply drop_while_id].
  - by rewrite Hc, IH1, IH2.
Qed.

End Scan.

Definition all_ws (s : rstr) : Prop := Forall (fun c => is_whitespace c = true) s.
Definition ends_ws (s : rstr) : Prop := exists c, last s = Some c /\ is_whitespace c = true.
Definition starts_ws (s : rstr) : Prop := exists c, head s = Some c /\ is_whitespace c = true.

Lemma trim_end_nil s : trim_end s = [] <-> all_ws s.
Proof.
  unfold all_ws. induction s as [|c s IH]; cbn; [by split|]. rewrite Forall_cons, <- IH.
  destruct (trim_end s) as [|d t]; [destruct (is_whitespace c)|]; naive_solver.
Qed.

(** [trim_end] removes a whitespace suffix and leaves none. *)
Lemma trim_end_spec s : exists w, s = trim_end s ++ w /\ all_ws w.
Proof.
  induction s as [|c s (w & IH & Hw)]; [exists []; by repeat constructor|]. cbn.
  destruct (trim_end s) as [|d t] eqn:E.
  - cbn in IH. subst w. destruct (is_whitespace c) eqn:W.
    + exists (c :: s). split; [done|]. by apply Forall_cons.
    + exists s. by split.
  - exists w. split; [|done]. cbn in *. by f_equal.
Qed.

Lemma trim_end_not_ends_ws s : ~ ends_ws (trim_end s).
Proof.
  induction s as [|c s IH]; cbn; [by intros (? & ? & _)|].
  destruct (trim_end s) as [|d t] eqn:E.
  - destruct (is_whitespace c) eqn:W; intros (e & He & We); cbn in He; [done|].
    simplify_eq. congruence.
  - intros (e & He & We). apply IH. exists e. split; [|done]. by rewrite last_cons_cons in He.
Qed.

Lemma trim_end_id s : ~ ends_ws s -> trim_end s = s.
Proof.
  intros H. destruct (trim_end_spec s) as (w & Hs & Hw).
  destruct w as [|c w _] using rev_ind; [by rewrite app_nil_r in Hs|].
  exfalso. apply H. exists c. split.
  - rewrite Hs, app_assoc. by rewrite last_snoc.
  - unfold all_ws in Hw. rewrite Forall_app, Forall_singleton in Hw. tauto.
Qed.

Lemma trim_start_spec s : exists w, s = w ++ trim_start s /\ all_ws w.
Proof.
  exists (take_while is_whitespace s). split.
  - by rewrite take_drop_while.
  - apply take_while_all.
Qed.

Lemma trim_start_not_starts_ws s : ~ starts_ws (trim_start s).
Proof. intros (c & Hc & W). apply drop_while_head in Hc. congruence. Qed.

Lemma trim_start_id s : ~ starts_ws s -> trim_start s = s.
Proof.
  intros H. apply drop_while_id. intros c Hc. destruct (is_whitespace c) eqn:W; [|done].
  exfalso. apply H. by exists c.
Qed.

Lemma trim_end_starts s : starts_ws (trim_end s) -> starts_ws s.
Proof.
  intros (c & Hc & W). destruct (trim_end_spec s) as (w & Hs & _). exists c. split; [|done].
  rewrite Hs. by destruct (trim_end s).
Qed.

Lemma trim_not_ws s : ~ starts_ws (trim s) /\ ~ ends_ws (trim s).
Proof.
  split.
  - intros H%trim_end_starts. by apply trim_start_not_starts_ws in H.
  - apply trim_end_not_ends_ws.
Qed.

Lemma trim_id s : ~ starts_ws s -> ~ ends_ws s -> trim s = s.
Proof. intros ??. unfold trim. rewrite trim_start_id by done. by apply trim_end_id. Qed.

(** [trim] is idempotent. *)
Lemma trim_trim s : trim (trim s) = trim s.
Proof. destruct (trim_not_ws s). by apply trim_id. Qed.

(** [trim] keeps a contiguous part of its input. *)
Lemma trim_spec s : exists w1 w2, s = w1 ++ trim s ++ w2 /\ all_ws w1 /\ all_ws w2.
Proof.
  destruct (trim_start_spec s) as (w1 & H1 & ?), (trim_end_spec (trim_start s)) as (w2 & H2 & ?).
  exists w1, w2. unfold trim. split; [|done]. by rewrite <- H2.
Qed.

(** A string that [trim] leaves alone. *)
Definition clean (s : rstr) : Prop := ~ starts_ws s /\ ~ ends_ws s.

Lemma clean_trim s : trim s = s <-> clean s.
Proof.
  split; [|by intros []; apply trim_id]. intros <-. apply trim_not_ws.
Qed.

Lemma clean_nil : clean [].
Proof. by split; intros (c & ? & ?). Qed.

Lemma clean_app a b : clean a -> clean b -> a <> [] -> b <> [] -> clean (a ++ b).
Proof.
  intros [Ha _] [_ Hb] Hna Hnb. split.
  - intros (c & H & ?). rewrite head_app_nonnil in H by done. apply Ha. by exists c.
  - intros (c & H & ?). rewrite last_app_nonnil in H by done. apply Hb. by exists c.
Qed.

Lemma clean_single c : is_whitespace c = false -> clean [c].
Proof. intros Hc. split; intros (x & ? & ?); simplify_eq/=; congruence. Qed.

Lemma clean_no_ws s : Forall (fun c => is_whitespace c = false) s -> clean s.
Proof.
  intros H. rewrite Forall_forall in H. split; intros (c & Hc & Hw).
  - destruct s; simplify_eq/=. rewrite H in Hw; [done | set_solver].
  - apply last_Some_elem_of in Hc. by rewrite (H c Hc) in Hw.
Qed.

(** Clean pieces joined by a separator that is not whitespace are clean. *)
Lemma clean_sep a c b : clean a -> clean b -> is_whitespace c = false -> clean (a ++ c :: b).
Proof.
  intros Ha Hb Hc. assert (clean (c :: b)) as Hcb.
  { destruct (decide (b = [])) as [->|]; [by apply clean_single|].
    by apply (clean_app [c] b); [apply clean_single| | |]. }
  destruct (decide (a = [])) as [->|]; [done|]. by apply clean_app.
Qed.

Lemma clean_join c l :
  is_whitespace c = false -> Forall clean l -> clean (join [c] l).
Proof.
  intros Hc H. induction H as [|a l Ha Hl IH]; [apply clean_nil|].
  destruct l as [|b l]; [done|].
  change (join [c] (a :: b :: l)) with (a ++ c :: join [c] (b :: l)). by apply clean_sep.
Qed.

(** ** Lemmas: splitting *)

Lemma split_once_Some d s a b :
  split_once d s = Some (a, b) <-> s = a ++ d :: b /\ d ∉ a.
Proof.
  revert a. induction s as [|c s IH]; intros a; cbn.
  - split; [done|]. intros [H _]. by destruct a.
  - case_decide as Hc; subst.
    + split.
      * intros ?; simplify_eq. split; [done | set_solver].
      * intros [H Ha]. destruct a as [|x a]; cbn in H; simplify_eq; [done | set_solver].
    + destruct (split_once d s) as [[a' b']|] eqn:E; cbn.
      * split.
        -- intros ?; simplify_eq. destruct (proj1 (IH a') eq_refl) as [-> ?].
           split; [done | set_solver].
        -- intros [H Ha]. destruct a as [|x a]; cbn in H; simplify_eq.
           assert (d ∉ a) by set_solver.
           naive_solver.
      * split; [done|]. intros [H Ha]. destruct a as [|x a]; cbn in H; simplify_eq.
        assert (d ∉ a) by set_solver. naive_solver.
Qed.

Lemma split_once_None d s : split_once d s = None <-> d ∉ s.
Proof.
  induction s as [|c s IH]; cbn; [set_solver|].
  case_decide as Hc; subst; [set_solver|].
  destruct (split_once d s) as [[a b]|]; cbn; set_solver.
Qed.

Lemma split_on_nonnil d s : split_on d s <> [].
Proof. destruct s as [|c s]; cbn; [done|]. case_decide; [done|]. by destruct (split_on d s). Qed.

Lemma split_on_join d s : join [d] (split_on d s) = s.
Proof.
  induction s as [|c s IH]; cbn; [done|]. pose proof (split_on_nonnil d s).
  case_decide as Hc; subst.
  - destruct (split_on d s) eqn:E; [done|]. cbn in *. by rewrite IH.
  - destruct (split_on d s) as [|p ps]; [done|]. destruct ps; cbn in *; by rewrite IH.
Qed.

Lemma split_on_notin d s : Forall (fun p => d ∉ p) (split_on d s).
Proof.
  induction s as [|c s IH]; cbn; [repeat constructor; set_solver|].
  case_decide; subst; [by constructor; [set_solver|]|].
  destruct (split_on d s) as [|p ps]; [repeat constructor; set_solver|].
  inversion IH; subst. constructor; set_solver.
Qed.

Lemma split_on_app d a b : d ∉ a -> split_on d (a ++ d :: b) = a :: split_on d b.
Proof.
  induction a as [|c a IH]; cbn; intros H.
  - by rewrite decide_True.
  - rewrite decide_False by set_solver. rewrite IH by set_solver. done.
Qed.

Lemma split_on_single d a : d ∉ a -> split_on d a = [a].
Proof.
  induction a as [|c a IH]; cbn; intros H; [done|].
  rewrite decide_False by set_solver. by rewrite IH by set_solver.
Qed.

Lemma split_on_join_inv d l :
  l <> [] -> Forall (fun p => d ∉ p) l -> split_on d (join [d] l) = l.
Proof.
  intros Hne H. induction H as [|p l Hp _ IH]; [done|].
  destruct l as [|q l]; [by apply split_on_single|].
  change (join [d] (p :: q :: l)) with (p ++ d :: join [d] (q :: l)).
  rewrite split_on_app by done. by rewrite IH.
Qed.

Lemma strip_prefix_Some p s r : strip_prefix p s = Some r <-> s = p ++ r.
Proof.
  revert s. induction p as [|a p IH]; intros s; cbn.
  - split; intros H; congruence.
  - destruct s as [|b s]; [by split|]. case_decide; subst.
    + rewrite IH. split; intros; congruence.
    + split; [done|]. intros; congruence.
Qed.

Lemma strip_suffix_Some p s r : strip_suffix p s = Some r <-> s = r ++ p.
Proof.
  unfold strip_suffix. destruct (strip_prefix (reverse p) (reverse s)) as [q|] eqn:E; cbn.
  - apply strip_prefix_Some in E. apply (f_equal reverse) in E.
    rewrite reverse_involutive, reverse_app, reverse_involutive in E. subst s. split.
    + by intros [= <-].
    + intros H%app_inv_tail. by subst.
  - split; [done|]. intros ->. rewrite reverse_app in E.
    by rewrite (proj2 (strip_prefix_Some _ _ _) eq_refl) in E.
Qed.

(** ** Lemmas: ASCII case *)

Lemma to_ascii_lowercase_char_idem c :
  to_ascii_lowercase_char (to_ascii_lowercase_char c) = to_ascii_lowercase_char c.
Proof.
  unfold to_ascii_lowercase_char, is_ascii_uppercase.
  repeat case_bool_decide; try done; lia.
Qed.

Lemma to_ascii_lowercase_idem s :
  to_ascii_lowercase (to_ascii_lowercase s) = to_ascii_lowercase s.
Proof.
  unfold to_ascii_lowercase. rewrite map_map. apply map_ext, to_ascii_lowercase_char_idem.
Qed.

Lemma eq_ignore_ascii_case_refl s : eq_ignore_ascii_case s s = true.
Proof. by apply bool_decide_eq_true_2. Qed.

Lemma eq_ignore_ascii_case_spec a b :
  eq_ignore_ascii_case a b = true <-> to_ascii_lowercase a = to_ascii_lowercase b.
Proof. apply bool_decide_eq_true. Qed.

Lemma digit_not_whitespace c : is_ascii_digit c = true -> is_whitespace c = false.
Proof.
  unfold is_ascii_digit, is_whitespace. rewrite bool_decide_eq_true. intros.
  rewrite !orb_false_iff, !bool_decide_eq_false. lia.
Qed.

#[export] Hint Resolve eq_ignore_ascii_case_refl trim_trim : driver.
