(* ===== verification/Utf8.v ===== *)
(** * UTF-8, hexadecimal and percent-encoding

    The bytes of a Rust string, [String::from_utf8] with its strict validation,
    and hexadecimal digits.  A byte is an [N] below 256. *)

From S2P Require Import Prelude RustStr.

Open Scope N_scope.

Abbreviation byte := N (only parsing).

(** A Unicode scalar value, which is what a Rust [char] is. *)
Definition is_scalar (c : char) : Prop := c < 0xD800 \/ 0xE000 <= c <= 0x10FFFF.

#[export] Instance is_scalar_dec c : Decision (is_scalar c).
Proof. unfold is_scalar. apply _. Defined.

Definition scalars (s : rstr) : Prop := Forall is_scalar s.

(** [char::encode_utf8]. *)
Definition encode_char (c : char) : list byte :=
  if decide (c < 0x80) then [c]
  else if decide (c < 0x800) then [0xC0 + c / 64; 0x80 + c mod 64]
  else if decide (c < 0x10000) then
    [0xE0 + c / 4096; 0x80 + (c / 64) mod 64; 0x80 + c mod 64]
  else [0xF0 + c / 262144; 0x80 + (c / 4096) mod 64; 0x80 + (c / 64) mod 64; 0x80 + c mod 64].

(** [str::as_bytes]. *)
Definition as_bytes (s : rstr) : list byte := concat (map encode_char s).

Definition is_cont (b : byte) : bool := bool_decide (0x80 <= b < 0xC0).

(** [String::from_utf8]: continuation bytes must be there, and the value they
    spell must be a scalar that needs that many bytes. *)
Fixpoint from_utf8 (bs : list byte) : option rstr :=
  match bs with
  | [] => Some []
  | b0 :: r0 =>
      if decide (b0 < 0x80) then cons b0 <$> from_utf8 r0
      else match r0 with
      | [] => None
      | b1 :: r1 =>
          if negb (is_cont b1) then None
          else if decide (0xC0 <= b0 < 0xE0) then
            let c := (b0 - 0xC0) * 64 + (b1 - 0x80) in
            if decide (0x80 <= c) then cons c <$> from_utf8 r1 else None
          else match r1 with
          | [] => None
          | b2 :: r2 =>
              if negb (is_cont b2) then None
              else if decide (0xE0 <= b0 < 0xF0) then
                let c := (b0 - 0xE0) * 4096 + (b1 - 0x80) * 64 + (b2 - 0x80) in
                if decide (0x800 <= c /\ is_scalar c) then cons c <$> from_utf8 r2 else None
              else match r2 with
              | [] => None
              | b3 :: r3 =>
                  if negb (is_cont b3) then None
                  else if decide (0xF0 <= b0) then
                    let c := (b0 - 0xF0) * 262144 + (b1 - 0x80) * 4096 + (b2 - 0x80) * 64 + (b3 - 0x80) in
                    if decide (0x10000 <= c /\ is_scalar c) then cons c <$> from_utf8 r3 else None
                  else None
              end
          end
      end
  end.

(** ** Round trips *)

Ltac Zify.zify_post_hook ::= Z.to_euclidean_division_equations.

Lemma as_bytes_cons c s : as_bytes (c :: s) = encode_char c ++ as_bytes s.
Proof. done. Qed.

Lemma as_bytes_app s t : as_bytes (s ++ t) = as_bytes s ++ as_bytes t.
Proof. unfold as_bytes. by rewrite map_app, concat_app. Qed.

Lemma is_cont_mod n : is_cont (0x80 + n mod 64) = true.
Proof. unfold is_cont. apply bool_decide_eq_true. lia. Qed.

(** One encoded character is decoded off the front. *)
Lemma from_utf8_char c bs : is_scalar c -> from_utf8 (encode_char c ++ bs) = cons c <$> from_utf8 bs.
Proof.
  intros Hs. unfold encode_char. case_decide; [cbn; by rewrite decide_True|].
  case_decide; [|case_decide]; cbn [app from_utf8]; rewrite ?is_cont_mod; cbn [negb].
  - rewrite decide_False, decide_True by lia.
    replace ((0xC0 + c / 64 - 0xC0) * 64 + (0x80 + c mod 64 - 0x80)) with c by lia.
    by rewrite decide_True by lia.
  - rewrite decide_False, decide_False, decide_True by lia.
    replace ((0xE0 + c / 4096 - 0xE0) * 4096 + (0x80 + (c / 64) mod 64 - 0x80) * 64 + (0x80 + c mod 64 - 0x80))
      with c by lia.
    by rewrite decide_True by (split; [lia|done]).
  - unfold is_scalar in Hs. rewrite decide_False, decide_False, decide_False, decide_True by lia.
    replace ((0xF0 + c / 262144 - 0xF0) * 262144 + (0x80 + (c / 4096) mod 64 - 0x80) * 4096 +
      (0x80 + (c / 64) mod 64 - 0x80) * 64 + (0x80 + c mod 64 - 0x80)) with c by lia.
    by rewrite decide_True by (split; [lia|by right; lia]).
Qed.

Lemma from_utf8_as_bytes s : scalars s -> from_utf8 (as_bytes s) = Some s.
Proof.
  induction 1 as [|c s Hc _ IH]; [done|]. by rewrite as_bytes_cons, from_utf8_char, IH.
Qed.

(** Decoding accepts only encodings of scalars. *)
Lemma from_utf8_inv bs s : from_utf8 bs = Some s -> as_bytes s = bs /\ scalars s.
Proof.
  revert s. remember (length bs) as n eqn:En. revert bs En.
  induction n as [n IH'] using lt_wf_ind. intros bs En.
  assert (forall r, (length r < length bs)%nat -> forall s, from_utf8 r = Some s -> as_bytes s = r /\ scalars s)
    as IH by (intros r Hr; eapply IH'; [subst; exact Hr|done]).
  assert (forall c r s, (length r < length bs)%nat -> is_scalar c -> encode_char c ++ r = bs ->
    cons c <$> from_utf8 r = Some s -> as_bytes s = bs /\ scalars s) as Hstep.
  { intros c r s Hl Hc Hr Hs. destruct (from_utf8 r) as [s'|] eqn:E; [|done]. injection Hs as <-.
    destruct (IH r Hl s' E) as [Hb Hsc]. rewrite as_bytes_cons, Hb. split; [done|by constructor]. }
  intros s. destruct bs as [|b0 r0]; cbn [from_utf8]; [intros [= <-]; split; [done|constructor]|].
  case_decide; [apply Hstep; [cbn; lia|left; lia|unfold encode_char; by rewrite decide_True]|].
  destruct r0 as [|b1 r1]; [done|]. destruct (is_cont b1) eqn:E1; [|done]. cbn [negb].
  apply bool_decide_eq_true in E1.
  case_decide.
  { case_decide; [|done]. apply Hstep; [cbn; lia|left; lia|].
    unfold encode_char. rewrite decide_False, decide_True by lia. cbn [app]. f_equal; [lia|]. f_equal. lia. }
  destruct r1 as [|b2 r2]; [done|]. destruct (is_cont b2) eqn:E2; [|done]. cbn [negb].
  apply bool_decide_eq_true in E2.
  case_decide.
  { case_decide as Hd; [|done]. destruct Hd as [Hd Hsc]. apply Hstep; [cbn; lia|done|].
    unfold encode_char. rewrite decide_False, decide_False, decide_True by lia.
    cbn [app]. f_equal; [lia|]. f_equal; [lia|]. f_equal. lia. }
  destruct r2 as [|b3 r3]; [done|]. destruct (is_cont b3) eqn:E3; [|done]. cbn [negb].
  apply bool_decide_eq_true in E3.
  case_decide; [|done]. case_decide as Hd; [|done]. destruct Hd as [Hd Hsc].
  apply Hstep; [cbn; lia|done|].
  unfold encode_char. rewrite decide_False, decide_False, decide_False by lia.
  cbn [app]. f_equal; [lia|]. f_equal; [lia|]. f_equal; [lia|]. f_equal. lia.
Qed.

(** ** Hexadecimal *)

(** The value of an ASCII hexadecimal digit. *)
Definition hex_val (c : byte) : option N :=
  if decide (48 <= c <= 57) then Some (c - 48)
  else if decide (65 <= c <= 70) then Some (c - 55)
  else if decide (97 <= c <= 102) then Some (c - 87)
  else None.

(** [u8::from_str_radix(hex, 16)] on two hexadecimal digits. *)
Definition hex_byte (hi lo : byte) : option byte :=
  h ← hex_val hi; l ← hex_val lo; Some (16 * h + l).

Definition hex_digit (n : N) : char := if decide (n < 10) then 48 + n else 55 + n.

Lemma hex_val_digit n : n < 16 -> hex_val (hex_digit n) = Some n.
Proof.
  intros H. unfold hex_val, hex_digit. destruct (decide (n < 10)).
  - rewrite decide_True by lia. f_equal. lia.
  - rewrite decide_False, decide_True by lia. f_equal. lia.
Qed.

Lemma hex_byte_digits b : b < 256 -> hex_byte (hex_digit (b / 16)) (hex_digit (b mod 16)) = Some b.
Proof.
  intros H. unfold hex_byte. rewrite !hex_val_digit by lia. cbn. f_equal. lia.
Qed.

Lemma encode_char_bytes c : is_scalar c -> Forall (fun b => b < 256) (encode_char c).
Proof.
  intros Hc. unfold is_scalar in Hc. unfold encode_char. repeat case_decide; repeat constructor; lia.
Qed.

Lemma as_bytes_bytes s : scalars s -> Forall (fun b => b < 256) (as_bytes s).
Proof.
  induction 1 as [|c s Hc _ IH]; [constructor|]. rewrite as_bytes_cons. apply Forall_app.
  split; [by apply encode_char_bytes|done].
Qed.

(** ASCII text is its own bytes. *)
Lemma as_bytes_ascii s : Forall (fun c => c < 0x80) s -> as_bytes s = s.
Proof.
  induction 1 as [|c s Hc _ IH]; [done|]. rewrite as_bytes_cons, IH. unfold encode_char. by rewrite decide_True.
Qed.

Ltac Zify.zify_post_hook ::= idtac.

Close Scope N_scope.
