(* ===== verification/RustNum.v ===== *)
(** * Rust numbers: parsing, printing and durations

    Machine integers are [Z] with their ranges written out; [f64] is the
    binary64 format of [SpecFloat] (53-bit significand, exponent bound 1024), so
    comparisons, products and decimal parsing round exactly as IEEE 754 does.
    A [Duration] is its number of nanoseconds. *)

From Stdlib Require Import SpecFloat.
From S2P Require Import Prelude RustStr.
Open Scope Z_scope.

(** ** Integer ranges *)

Definition i64_min : Z := - 2 ^ 63.
Definition i64_max : Z := 2 ^ 63 - 1.
Definition u32_max : Z := 2 ^ 32 - 1.
Definition u64_max : Z := 2 ^ 64 - 1.
Definition usize_max : Z := u64_max.

Definition is_i64 (z : Z) : bool := bool_decide (i64_min <= z <= i64_max).

(** Two's-complement reduction to [i64]. *)
Definition wrap_i64 (z : Z) : Z := (z + 2 ^ 63) `mod` 2 ^ 64 - 2 ^ 63.

(** ** [str::parse] for integers *)

Definition digit_val (c : char) : option Z :=
  if is_ascii_digit c then Some (Z.of_N c - 48) else None.

Fixpoint digits_val (acc : Z) (s : rstr) : option Z :=
  match s with
  | [] => Some acc
  | c :: s => d ← digit_val c; digits_val (acc * 10 + d) s
  end.

Definition parse_digits (s : rstr) : option Z :=
  match s with [] => None | _ => digits_val 0 s end.

(** [str::parse::<i64>]: an optional sign, then at least one digit; [None] for
    anything else and for a value out of range. *)
Definition parse_i64 (s : rstr) : option Z :=
  n ← match s with
      | [] => None
      | c :: r => if decide (c = cPLUS) then parse_digits r
                  else if decide (c = cDASH) then Z.opp <$> parse_digits r
                  else parse_digits s
      end;
  if is_i64 n then Some n else None.

(** ** [Display] for integers *)

Fixpoint show_digits (fuel : nat) (n : N) : rstr :=
  match fuel with
  | O => []
  | S f => if decide (n < 10)%N then [(48 + n)%N]
           else show_digits f (n / 10)%N ++ [(48 + n mod 10)%N]
  end.

Definition show_N (n : N) : rstr := show_digits (S (N.to_nat (N.log2 n))) n.

Definition show_Z (z : Z) : rstr :=
  if decide (z < 0) then cDASH :: show_N (Z.to_N (- z)) else show_N (Z.to_N z).

(** [bool::to_string]. *)
Definition show_bool (b : bool) : rstr := if b then str "true" else str "false".

(** ** [f64] *)

Abbreviation f64 := spec_float (only parsing).
Abbreviation prec64 := 53 (only parsing).
Abbreviation emax64 := 1024 (only parsing).

Definition f64_of_Z (z : Z) : f64 := binary_normalize prec64 emax64 z 0 false.

Definition f64_ltb (x y : f64) : bool := SFltb x y.
Definition f64_leb (x y : f64) : bool := SFleb x y.
Definition f64_mul (x y : f64) : f64 := SFmul prec64 emax64 x y.

Definition f64_is_finite (x : f64) : bool :=
  match x with S754_zero _ | S754_finite _ _ _ => true | _ => false end.

(** [x.fract() == 0.0] for a finite [x]. *)
Definition f64_is_whole (x : f64) : bool :=
  match x with
  | S754_zero _ => true
  | S754_finite _ m e => bool_decide (0 <= e \/ Zpos m `mod` 2 ^ (- e) = 0)
  | _ => false
  end.

(** [x as i64]: truncation towards zero, saturating; NaN is 0. *)
Definition f64_as_i64 (x : f64) : Z :=
  let clamp z := Z.max i64_min (Z.min i64_max z) in
  match x with
  | S754_zero _ | S754_nan => 0
  | S754_infinity neg => if neg then i64_min else i64_max
  | S754_finite neg m e =>
      let a := if decide (0 <= e) then Zpos m * 2 ^ e else Zpos m / 2 ^ (- e) in
      clamp (if neg then - a else a)
  end.

(** The nearest binary64 to [± n / d], ties to even. *)
Definition f64_of_ratio (neg : bool) (n d : positive) : f64 :=
  let '(q, e, l) := SFdiv_core_binary prec64 emax64 (Zpos n) 0 (Zpos d) 0 in
  binary_round_aux prec64 emax64 neg q e l.

(** The nearest binary64 to [± m * 10^e]. *)
Definition f64_of_decimal (neg : bool) (m : Z) (e : Z) : f64 :=
  match m with
  | Zpos p => if decide (0 <= e) then f64_of_ratio neg (p * Z.to_pos (10 ^ e)) 1
              else f64_of_ratio neg p (Z.to_pos (10 ^ (- e)))
  | _ => S754_zero neg
  end.

(** The decimal digits at the head of [s], and what follows them. *)
Definition span_digits (s : rstr) : rstr * rstr :=
  (take_while is_ascii_digit s, drop_while is_ascii_digit s).

(** An exponent part: [e] or [E], an optional sign, at least one digit, and
    nothing after; no exponent part at all is exponent 0. *)
Definition parse_exponent (s : rstr) : option Z :=
  match s with
  | [] => Some 0
  | c :: r =>
      if decide (to_ascii_lowercase_char c = 101%N) then
        match r with
        | [] => None
        | d :: r' => if decide (d = cPLUS) then parse_digits r'
                     else if decide (d = cDASH) then Z.opp <$> parse_digits r'
                     else parse_digits r
        end
      else None
  end.

(** [str::parse::<f64>]: an optional sign, then [inf], [infinity] or [nan] in
    any case, or digits with at most one point (at least one digit in all) and
    an optional exponent. *)
Definition parse_f64 (s : rstr) : option f64 :=
  let '(neg, body) :=
    match s with
    | c :: r => if decide (c = cDASH) then (true, r)
                else if decide (c = cPLUS) then (false, r) else (false, s)
    | [] => (false, s)
    end in
  let low := to_ascii_lowercase body in
  if decide (low = str "inf" \/ low = str "infinity") then Some (S754_infinity neg)
  else if decide (low = str "nan") then Some S754_nan
  else
    let '(ip, r1) := span_digits body in
    let '(fp, r2) := match r1 with
                     | c :: r => if decide (c = cDOT) then span_digits r else ([], r1)
                     | [] => ([], [])
                     end in
    m ← parse_digits (ip ++ fp);
    e ← parse_exponent r2;
    Some (f64_of_decimal neg m (e - Z.of_nat (length fp))).

(** ** [Display] for [f64]

    The shortest decimal that parses back to the value, the closest one when
    there are several, written without an exponent. *)

(** The decimal exponent [k] with [10^(k-1) <= n/d < 10^k]. *)
Fixpoint small_exponent (fuel : nat) (n d k : Z) : Z :=
  match fuel with
  | O => k
  | S f => if decide (d <= n) then k else small_exponent f (n * 10) d (k - 1)
  end.

Definition decimal_exponent (n d : Z) : Z :=
  if decide (d <= n) then Z.of_nat (length (show_Z (n / d))) else small_exponent 400 (n * 10) d 0.

(** The decimal [c * 10^e] of [len] digits that reads back as [x], if any. *)
Definition decimal_of_length (x : f64) (n d k len : Z) : option (Z * Z) :=
  let e := k - len in
  let '(sn, sd) := if decide (0 <= - e) then (n * 10 ^ (- e), d) else (n, d * 10 ^ e) in
  let lo := sn / sd in
  let near := if decide (2 * (sn - lo * sd) <= sd) then [lo; lo + 1] else [lo + 1; lo] in
  c ← head (List.filter (fun c => SFeqb (f64_of_decimal false c e) x) near);
  Some (c, e).

Fixpoint shortest_decimal (fuel : nat) (x : f64) (n d k len : Z) : Z * Z :=
  match fuel with
  | O => (0, 0)
  | S f => match decimal_of_length x n d k len with
           | Some r => r
           | None => shortest_decimal f x n d k (len + 1)
           end
  end.

Definition is_zero_char (c : char) : bool := bool_decide (c = cZERO).

(** The digits of [c] with the point [- e] digits from the right. *)
Definition show_decimal (c e : Z) : rstr :=
  let ds := show_Z c in
  if decide (0 <= e) then ds ++ replicate (Z.to_nat e) cZERO
  else
    let f := Z.to_nat (- e) in
    let padded := replicate (S f - length ds) cZERO ++ ds in
    let ip := take (length padded - f) padded in
    let fp := reverse (drop_while is_zero_char (reverse (drop (length padded - f) padded))) in
    match fp with [] => ip | _ => ip ++ cDOT :: fp end.

Definition show_f64 (x : f64) : rstr :=
  let sign (neg : bool) := if neg then [cDASH] else [] in
  match x with
  | S754_zero neg => sign neg ++ str "0"
  | S754_infinity neg => sign neg ++ str "inf"
  | S754_nan => str "NaN"
  | S754_finite neg m e =>
      let '(n, d) := if decide (0 <= e) then (Zpos m * 2 ^ e, 1) else (Zpos m, 2 ^ (- e)) in
      let '(c, e10) := shortest_decimal 17 (S754_finite false m e) n d (decimal_exponent n d) 1 in
      sign neg ++ show_decimal c e10
  end.

(** ** [Duration] *)

Abbreviation NANOS_PER_SEC := 1000000000 (only parsing).

(** The whole seconds and the rounded nanoseconds of a finite non-negative
    value: [m * 2^e] seconds to the nearest nanosecond, ties to even. *)
Definition nanos_of_scaled (m : positive) (e : Z) : Z :=
  let n := Zpos m * NANOS_PER_SEC in
  if decide (0 <= e) then n * 2 ^ e
  else
    let d := 2 ^ (- e) in
    let q := n / d in
    let r := n `mod` d in
    if decide (2 * r < d) then q
    else if decide (d < 2 * r) then q + 1
    else if Z.even q then q else q + 1.

(** [Duration::try_from_secs_f64]: [None] for a negative, infinite or NaN value
    and for one of 2^64 seconds or more. *)
Definition duration_try_from_secs_f64 (x : f64) : option Z :=
  match x with
  | S754_zero _ => Some 0
  | S754_finite false m e =>
      let ns := nanos_of_scaled m e in
      if decide (ns < 2 ^ 64 * NANOS_PER_SEC) then Some ns else None
  | _ => None
  end.

(** ** Properties *)

Lemma digit_val_show (d : N) : (d < 10)%N -> digit_val (48 + d)%N = Some (Z.of_N d).
Proof.
  intros H. unfold digit_val, is_ascii_digit.
  rewrite bool_decide_true by lia. f_equal. lia.
Qed.

Lemma digits_val_app a s t :
  digits_val a (s ++ t) = (b ← digits_val a s; digits_val b t).
Proof.
  revert a. induction s as [|c s IH]; intros a; cbn; [done|].
  destruct (digit_val c); cbn; [apply IH | done].
Qed.

Lemma show_digits_val f n :
  (n < 10 ^ N.of_nat f)%N -> digits_val 0 (show_digits f n) = Some (Z.of_N n).
Proof.
  revert n. induction f as [|f IH]; intros n H; cbn [show_digits].
  - change (10 ^ N.of_nat 0)%N with 1%N in H. cbn. f_equal. lia.
  - case_decide as Hn; cbn.
    + by rewrite digit_val_show.
    + rewrite digits_val_app, IH; cbn [mbind option_bind digits_val].
      * rewrite digit_val_show by (apply N.mod_lt; lia). cbn. f_equal. pose proof (N.div_mod n 10). lia.
      * rewrite Nat2N.inj_succ, N.pow_succ_r' in H. apply N.Div0.div_lt_upper_bound; lia.
Qed.

Lemma show_digits_digits f n : Forall (fun c => is_ascii_digit c = true) (show_digits f n).
Proof.
  revert n. induction f as [|f IH]; intros n; cbn [show_digits]; [constructor|].
  assert (forall d, (d < 10)%N -> is_ascii_digit (48 + d)%N = true)
    by (intros d ?; unfold is_ascii_digit; apply bool_decide_true; lia).
  case_decide; [|apply Forall_app; split; [apply IH|]]; (constructor; [|constructor]);
    apply H; try lia; by apply N.mod_lt.
Qed.

Lemma show_N_nonnil n : show_N n <> [].
Proof.
  unfold show_N. cbn [show_digits]. case_decide; [done|].
  intros []%app_eq_nil. done.
Qed.

Lemma show_N_val n : digits_val 0 (show_N n) = Some (Z.of_N n).
Proof.
  apply show_digits_val. destruct (decide (n = 0%N)) as [->|Hn]; [by vm_compute|].
  rewrite Nat2N.inj_succ, N2Nat.id.
  eapply N.lt_le_trans; [apply N.log2_spec; lia|]. apply N.pow_le_mono_l. lia.
Qed.

Lemma parse_digits_show n : parse_digits (show_N n) = Some (Z.of_N n).
Proof.
  unfold parse_digits. pose proof (show_N_nonnil n).
  destruct (show_N n) eqn:E; [done|]. rewrite <- E. apply show_N_val.
Qed.

Lemma show_N_digits n : Forall (fun c => is_ascii_digit c = true) (show_N n).
Proof. apply show_digits_digits. Qed.

(** Every [i64] survives [to_string] and [parse]. *)
Lemma parse_show_i64 z : is_i64 z = true -> parse_i64 (show_Z z) = Some z.
Proof.
  intros Hz. unfold show_Z, parse_i64. case_decide.
  - rewrite decide_False, decide_True by done.
    rewrite parse_digits_show. cbn [fmap option_fmap option_map mbind option_bind].
    replace (- Z.of_N (Z.to_N (- z))) with z by lia. by rewrite Hz.
  - pose proof (show_N_digits (Z.to_N z)) as Hd.
    destruct (show_N (Z.to_N z)) as [|c r] eqn:E; [by apply show_N_nonnil in E|].
    apply Forall_cons in Hd as [Hc%bool_decide_eq_true _].
    rewrite !decide_False by (intros ->; lia).
    rewrite <- E, parse_digits_show. cbn [mbind option_bind].
    replace (Z.of_N (Z.to_N z)) with z by lia. by rewrite Hz.
Qed.

Close Scope Z_scope.
