(* ===== verification/ErrorModel.v ===== *)
(** * [src/error.rs]: building ADBC errors and translating Spanner errors

    The constructors of the driver's errors, and the translation of the errors
    of the Spanner client (their gRPC code, message and structured details).
    [google.rpc.Code] is the client's enum; the details of a status are decoded
    and serialised by the client and by [serde_json], so [map_detail] takes that
    serialisation as a parameter. *)

From S2P Require Import Prelude RustStr.

(** [Error::with_message_and_status]: no vendor code, no details. *)
Definition err (m : Message) (st : Status) : Error := mkError m st 0 None.

Definition not_implemented (what : Message) : Error :=
  err (what ++ [Lit " is not supported by the Spanner ADBC driver"]) NotImplemented.

Definition unsupported (m : Message) : Error := err m NotImplemented.

Definition unknown_option (object_kind : String.string) (key : rstr) : Error :=
  unsupported [Lit "unsupported Spanner "; Lit object_kind; Lit " option: "; Disp key].

Definition invalid_state (m : Message) : Error := err m InvalidState.
Definition invalid_argument (m : Message) : Error := err m InvalidArguments.
Definition not_found (m : Message) : Error := err m NotFound.

Definition option_not_set (key : rstr) : Error :=
  not_found [Lit "option "; Disp key; Lit " is not set or not recognized by this driver"].

Definition annotate (e : Error) (f : Message -> Message) : Error :=
  mkError (f (message e)) (status e) (vendor_code e) (details e).

(** [google_cloud_gax::error::rpc::Code], with the canonical numbers. *)
Inductive Code :=
  | CodeOk | CodeCancelled | CodeUnknown | CodeInvalidArgument | CodeDeadlineExceeded
  | CodeNotFound | CodeAlreadyExists | CodePermissionDenied | CodeResourceExhausted
  | CodeFailedPrecondition | CodeAborted | CodeOutOfRange | CodeUnimplemented
  | CodeInternal | CodeUnavailable | CodeDataLoss | CodeUnauthenticated.

#[export] Instance Code_eq_dec : EqDecision Code.
Proof. solve_decision. Defined.

Definition status_for_grpc_code (code : Code) : Status :=
  match code with
  | CodeNotFound => NotFound
  | CodeAlreadyExists => AlreadyExists
  | CodeUnauthenticated => Unauthenticated
  | CodePermissionDenied => Unauthorized
  | CodeInvalidArgument => InvalidArguments
  | CodeOutOfRange => InvalidData
  | CodeFailedPrecondition => InvalidState
  | CodeDeadlineExceeded => Timeout
  | CodeCancelled => Cancelled
  | CodeUnavailable => IO
  | CodeUnimplemented => NotImplemented
  | CodeAborted => IO
  | CodeUnknown => Unknown
  | CodeDataLoss => IO
  | _ => Internal
  end.

Definition PERMISSION_DENIED_GUIDANCE : frag :=
  Lit "; grant an IAM role that includes it — see https://cloud.google.com/spanner/docs/iam".

(** [StatusDetails] and its ProtoJSON form belong to the client crates:
    [detail_type_url] is the detail's [@type] string when it serialises with
    one, [detail_json] its serialised bytes; [code_num] is [code as i32] and
    [code_of] is [Code::from(i32)]. *)
Class RpcStatus := {
  StatusDetails : Type;
  Any : Type;
  detail_type_url : StatusDetails -> option rstr;
  detail_json : StatusDetails -> option (list N);
  decode_any : Any -> StatusDetails;
  code_num : Code -> Z;
  code_of : Z -> Code;
}.

(** A client whose errors carry no details, for concrete examples. *)
Definition no_details : RpcStatus := {|
  StatusDetails := unit; Any := unit;
  detail_type_url _ := None; detail_json _ := None; decode_any u := u;
  code_num _ := 0%Z; code_of _ := CodeUnknown |}.

Section Client.
Context {RS : RpcStatus}.

Definition map_detail (d : StatusDetails) : option (rstr * list N) :=
  type_url ← detail_type_url d;
  let key := to_ascii_lowercase
               (match rsplit_once cSLASH type_url with Some (_, k) => k | None => type_url end) in
  json ← detail_json d;
  Some (key, json).

Definition details_for_adbc (ds : list StatusDetails) : option (list (rstr * list N)) :=
  let mapped := omap map_detail ds in
  match mapped with [] => None | _ => Some mapped end.

(** A Spanner client error: the [google.rpc.Status] it carries, if any (its code
    and details), and its display text. *)
Record SpannerError := mkSpannerError {
  se_status : option (Code * list StatusDetails);
  se_display : rstr;
}.

Definition from_spanner (e : SpannerError) : Error :=
  let '(st, vendor, dets, code) :=
    match se_status e with
    | None => (Internal, 0%Z, None, None)
    | Some (code, ds) =>
        (status_for_grpc_code code, code_num code, details_for_adbc ds, Some code)
    end in
  let m := [Lit "Spanner error: "; Disp (se_display e)] ++
           (if decide (code = Some CodePermissionDenied) then [PERMISSION_DENIED_GUIDANCE] else []) in
  mkError m st vendor dets.

Definition from_status_parts (code : Z) (msg : rstr) (ds : list Any) : Error :=
  let st := status_for_grpc_code (code_of code) in
  let full := [Lit "Spanner batch-write error: "; Disp msg] ++
              (if decide (code_of code = CodePermissionDenied)
               then [PERMISSION_DENIED_GUIDANCE] else []) in
  mkError full st code (details_for_adbc (map decode_any ds)).

End Client.

(** [from_builder]: a client construction error carries no status. *)
Definition from_builder (display : rstr) : Error :=
  err [Lit "Spanner error: "; Disp display] Internal.

(** ** Properties *)

(** Translating a Spanner error keeps what a caller branches on.  With a gRPC
    status, the ADBC status is the one mapped from the code, the vendor code is
    the code's own number, and the details are those that serialise (no details
    at all rather than an empty list); without one the error is [Internal] with
    no vendor code.  The client's text is kept whole, and only a permission error
    is extended.  An error of a batch-write group with the same code and details
    is translated to the same status, vendor code and details. *)
Theorem from_spanner_faithful {RS : RpcStatus} (e : SpannerError) :
  match se_status e with
  | None => status (from_spanner e) = Internal /\ vendor_code (from_spanner e) = 0%Z /\
            details (from_spanner e) = None
  | Some (code, ds) =>
      status (from_spanner e) = status_for_grpc_code code /\
      vendor_code (from_spanner e) = code_num code /\
      details (from_spanner e) = details_for_adbc ds /\ details (from_spanner e) <> Some [] /\
      (forall anys msg, code_of (code_num code) = code -> ds = map decode_any anys ->
         let b := from_status_parts (code_num code) msg anys in
         status b = status (from_spanner e) /\ vendor_code b = vendor_code (from_spanner e) /\
         details b = details (from_spanner e))
  end /\
  (exists tail, message (from_spanner e) = Lit "Spanner error: " :: Disp (se_display e) :: tail /\
     (tail <> [] <-> exists ds, se_status e = Some (CodePermissionDenied, ds))).
Proof.
  destruct e as [[[code ds]|] d]; unfold from_spanner; cbn; split.
  - split_and!; [done..| |].
    + unfold details_for_adbc. by destruct (omap _ ds).
    + intros anys msg Hc ->. unfold from_status_parts. cbn. by rewrite Hc.
  - eexists; split; [done|]. case_decide as Hc; split; try done.
    + intros _. injection Hc as ->. by eexists.
    + intros [ds' [= -> _]]. by destruct Hc.
  - done.
  - eexists; split; [done|]. split; [done|]. by intros [].
Qed.
