(* ===== verification/Options.v ===== *)
(** * [src/options.rs] and the option keys of [src/lib.rs]

    The coercions from an [OptionValue] shared by the driver's three objects,
    and [RawParsed], a parsed option kept beside the text it was set to.  A
    setter returns the new state together with its [Result], since a rejected
    value must leave the state alone. *)

From Stdlib Require Import SpecFloat.
From S2P Require Import Prelude RustStr RustNum ErrorModel.

(** ** Option keys ([src/lib.rs]) *)

Definition OPTION_ENDPOINT : rstr := str "spanner.endpoint".
Definition OPTION_EMULATOR : rstr := str "spanner.emulator".
Definition OPTION_KEYFILE : rstr := str "spanner.auth.keyfile".
Definition OPTION_KEYFILE_JSON : rstr := str "spanner.auth.keyfile_json".
Definition OPTION_IMPERSONATE_TARGET_PRINCIPAL : rstr := str "spanner.auth.impersonate.target_principal".
Definition OPTION_IMPERSONATE_DELEGATES : rstr := str "spanner.auth.impersonate.delegates".
Definition OPTION_IMPERSONATE_SCOPES : rstr := str "spanner.auth.impersonate.scopes".
Definition OPTION_IMPERSONATE_LIFETIME : rstr := str "spanner.auth.impersonate.lifetime".
Definition OPTION_ACCESS_TOKEN : rstr := str "spanner.auth.access_token".
Definition OPTION_QUOTA_PROJECT : rstr := str "spanner.auth.quota_project".
Definition OPTION_ROWS_PER_BATCH : rstr := str "spanner.rows_per_batch".
Definition OPTION_DATA_BOOST : rstr := str "spanner.data_boost".
Definition OPTION_BIND_BY_NAME : rstr := str "adbc.statement.bind_by_name".
Definition OPTION_INGEST_BATCH_WRITE : rstr := str "spanner.ingest.batch_write".
Definition OPTION_DML_PARTITIONED : rstr := str "spanner.dml.partitioned".
Definition OPTION_READ_STALENESS : rstr := str "spanner.read.staleness".
Definition OPTION_REQUEST_PRIORITY : rstr := str "spanner.request.priority".
Definition OPTION_DIRECTED_READ : rstr := str "spanner.directed_read".
Definition OPTION_REQUEST_TAG : rstr := str "spanner.request.tag".
Definition OPTION_QUERY_OPTIMIZER_VERSION : rstr := str "spanner.query.optimizer_version".
Definition OPTION_QUERY_OPTIMIZER_STATISTICS_PACKAGE : rstr := str "spanner.query.optimizer_statistics_package".
Definition OPTION_RPC_TIMEOUT_QUERY : rstr := str "spanner.rpc.timeout_seconds.query".
Definition OPTION_RPC_TIMEOUT_UPDATE : rstr := str "spanner.rpc.timeout_seconds.update".
Definition OPTION_RPC_TIMEOUT_FETCH : rstr := str "spanner.rpc.timeout_seconds.fetch".
Definition OPTION_RETRY_MAX_ATTEMPTS : rstr := str "spanner.retry.max_attempts".
Definition OPTION_RETRY_MAX_ELAPSED_SECONDS : rstr := str "spanner.retry.max_elapsed_seconds".
Definition OPTION_RETRY_BACKOFF_INITIAL_SECONDS : rstr := str "spanner.retry.backoff.initial_seconds".
Definition OPTION_RETRY_BACKOFF_MAX_SECONDS : rstr := str "spanner.retry.backoff.max_seconds".
Definition OPTION_RETRY_BACKOFF_MULTIPLIER : rstr := str "spanner.retry.backoff.multiplier".
Definition OPTION_TRANSACTION_TAG : rstr := str "spanner.transaction.tag".
Definition OPTION_MAX_COMMIT_DELAY : rstr := str "spanner.commit.max_delay".
Definition OPTION_COMMIT_STATS : rstr := str "spanner.commit_stats".
Definition OPTION_COMMIT_STATS_MUTATION_COUNT : rstr := str "spanner.commit_stats.mutation_count".
Definition OPTION_EXCLUDE_TXN_FROM_CHANGE_STREAMS : rstr := str "spanner.transaction.exclude_from_change_streams".
Definition OPTION_MAX_TIMESTAMP_PRECISION : rstr := str "spanner.max_timestamp_precision".

(** ** Option values *)

(** [adbc_core::options::OptionValue]. *)
Inductive OptionValue :=
  | OString (s : rstr)
  | OBytes (b : list N)
  | OInt (i : Z)
  | ODouble (d : f64).

(** [self.field = e?; Ok(())]: on an error the object keeps its state. *)
Definition assign {S A} (self : S) (r : Result A) (set : A -> S) : S * Result unit :=
  match r with Ok a => (set a, Ok tt) | Err e => (self, Err e) end.

Definition bool_option (value : OptionValue) (what : rstr) : Result bool :=
  match value with
  | OString s =>
      if decide (s = str "true") then Ok true
      else if decide (s = str "false") then Ok false
      else Err (invalid_argument [Disp what; Lit " expects "; Quo "true"; Lit " or ";
                                  Quo "false"; Lit ", got "; Dbg s])
  | _ => Err (invalid_argument
                [Disp what; Lit " is a boolean option and takes the strings "; Quo "true"; Lit "/";
                 Quo "false"; Lit " (int- and other non-string-typed values are not accepted)"])
  end.

Definition bool_option_unsettable (value : OptionValue) (what : rstr) : Result bool :=
  match value with
  | OString s => if decide (trim s = []) then Ok false else bool_option value what
  | _ => bool_option value what
  end.

Definition string_option (value : OptionValue) (what : rstr) : Result rstr :=
  match value with
  | OString s => Ok s
  | _ => Err (invalid_argument [Disp what; Lit " requires a string value"])
  end.

Definition non_empty_string_option (value : OptionValue) (what : rstr) : Result (option rstr) :=
  s ← string_option value what;
  Ok (if decide (s = []) then None else Some s).

(** ** A parsed option beside its text *)

Record RawParsed (T : Type) := mkRawParsed {
  rp_raw : option rstr;
  rp_parsed : option T;
}.
Arguments mkRawParsed {_} _ _.
Arguments rp_raw {_} _.
Arguments rp_parsed {_} _.

Definition RawParsed_default {T} : RawParsed T := mkRawParsed None None.

Definition RawParsed_set {T} (self : RawParsed T) (value : OptionValue) (what : rstr)
    (parse : rstr -> Result T) : RawParsed T * Result unit :=
  match string_option value what with
  | Err e => (self, Err e)
  | Ok raw =>
      let trimmed := trim raw in
      if decide (trimmed = []) then (mkRawParsed None None, Ok tt)
      else assign self (parse trimmed) (fun t => mkRawParsed (Some trimmed) (Some t))
  end.

(** ** Numbers *)

Inductive F64Range := PositiveSeconds | NonNegativeSeconds | PositiveFactor.

#[export] Instance F64Range_eq_dec : EqDecision F64Range.
Proof. solve_decision. Defined.

Definition f64_option (value : OptionValue) (what : rstr) (range : F64Range) : Result (option f64) :=
  let '(bound, unit) := match range with
    | PositiveSeconds => (Lit "strictly positive", Lit " of seconds")
    | NonNegativeSeconds => (Lit "non-negative", Lit " of seconds")
    | PositiveFactor => (Lit "strictly positive", Lit "")
    end in
  let reject := invalid_argument
    [Lit "option "; Disp what; Lit " must be a finite, "; bound; Lit " number"; unit] in
  let check (n : f64) : Result (option f64) :=
    let in_range := match range with
      | NonNegativeSeconds => f64_leb (S754_zero false) n
      | PositiveSeconds | PositiveFactor => f64_ltb (S754_zero false) n
      end in
    if decide (f64_is_finite n = false \/ in_range = false) then Err reject
    else if decide (range <> PositiveFactor /\ duration_try_from_secs_f64 n = None) then Err reject
    else Ok (Some n) in
  match value with
  | OString s =>
      let trimmed := trim s in
      if decide (trimmed = []) then Ok None
      else n ← ok_or (parse_f64 trimmed) reject; check n
  | ODouble d => check d
  | OInt i => check (f64_of_Z i)
  | OBytes _ => Err reject
  end.

Definition positive_i64 (value : OptionValue) (what : rstr) : Result Z :=
  let reject := invalid_argument [Disp what; Lit " must be a positive integer"] in
  n ← match value with
      | OInt i => Ok i
      | OString s => ok_or (parse_i64 s) reject
      | _ => Err reject
      end;
  if decide (0 < n)%Z then Ok n else Err reject.

(** [usize::try_from]: every positive [i64] fits a 64-bit [usize]. *)
Definition positive_usize (value : OptionValue) (what : rstr) : Result Z :=
  n ← positive_i64 value what;
  ok_or (if decide (0 < n <= usize_max)%Z then Some n else None)
    (invalid_argument [Disp what; Lit " must be a positive integer"]).

Definition int_from_stored_string (stored : Result rstr) (what : rstr) : Result Z :=
  value ← stored;
  ok_or (parse_i64 value)
    (invalid_argument [Disp what; Lit " value "; Dbg value; Lit " is not an integer"]).

Definition double_from_stored_string (stored : Result rstr) (what : rstr) : Result f64 :=
  value ← stored;
  ok_or (parse_f64 value)
    (invalid_argument [Disp what; Lit " value "; Dbg value; Lit " is not a double"]).

(** [format!("option {key}")]. *)
Definition option_label (key : rstr) : rstr := str "option " ++ key.

(** ** Lemmas *)

(** What [RawParsed] stores: both halves or neither, the text trimmed and not
    empty, and the parsed half its parse. *)
Definition RawParsed_wf {T} (parse : rstr -> Result T) (r : RawParsed T) : Prop :=
  match rp_raw r, rp_parsed r with
  | None, None => True
  | Some s, Some t => s <> [] /\ trim s = s /\ parse s = Ok t
  | _, _ => False
  end.

Section RawParsed.
Context {T : Type} (parse : rstr -> Result T) (what : rstr).

Lemma RawParsed_set_wf r v :
  RawParsed_wf parse r -> RawParsed_wf parse (RawParsed_set r v what parse).1.
Proof.
  intros Hr. unfold RawParsed_set, assign. destruct v; cbn; try done.
  case_decide; cbn; [done|].
  destruct (parse (trim s)) eqn:E; cbn; [|done]. by rewrite trim_trim.
Qed.

Lemma RawParsed_set_err r v e r' : RawParsed_set r v what parse = (r', Err e) -> r' = r.
Proof. unfold RawParsed_set, assign. intros H. by repeat (case_match; simplify_eq/=). Qed.

(** Writing back the stored text stores the same thing. *)
Lemma RawParsed_set_raw r r' s :
  RawParsed_wf parse r -> rp_raw r = Some s -> RawParsed_set r' (OString s) what parse = (r, Ok tt).
Proof.
  unfold RawParsed_wf. destruct r as [[u|] [t|]]; cbn; try done.
  intros (Hne & Ht & Hp) [= <-]. unfold RawParsed_set. cbn.
  rewrite Ht, decide_False by done. by rewrite Hp.
Qed.

End RawParsed.

Lemma bool_option_show b what : bool_option (OString (show_bool b)) what = Ok b.
Proof. by destruct b. Qed.

Lemma bool_option_unsettable_show b what :
  bool_option_unsettable (OString (show_bool b)) what = Ok b.
Proof. by destruct b. Qed.

Lemma non_empty_string_option_Some s what :
  s <> [] -> non_empty_string_option (OString s) what = Ok (Some s).
Proof. intros H. unfold non_empty_string_option. cbn. by rewrite decide_False. Qed.

Lemma non_empty_string_option_inv v what s :
  non_empty_string_option v what = Ok (Some s) -> s <> [] /\ v = OString s.
Proof. unfold non_empty_string_option. destruct v; cbn; [|done..]. case_decide; intros; by simplify_eq. Qed.
