(* ===== verification/DirectedRead.v ===== *)
(** * [src/directed_read.rs]: the [spanner.directed_read] option

    The option's grammar, its parser, and the request options built from it;
    [render] writes a parsed value back in the grammar, and the theorems show
    that the parser accepts exactly the meaningful values and reads every one of
    them back. *)

From S2P Require Import Prelude RustStr ErrorModel Options.

Inductive Mode := Include | Exclude.
Inductive ReplicaType := ReadWrite | ReadOnly | Any.

#[export] Instance Mode_eq_dec : EqDecision Mode.
Proof. solve_decision. Defined.
#[export] Instance ReplicaType_eq_dec : EqDecision ReplicaType.
Proof. solve_decision. Defined.

Record Selection := mkSelection { location : rstr; kind : ReplicaType }.

Record DirectedReadSpec := mkDirectedReadSpec {
  mode : Mode;
  selections : list Selection;
  auto_failover_disabled : bool;
}.

(** The client's [DirectedReadOptions] message: a selection's location and its
    replica type when one is set; only the include message has the failover
    flag. *)
Inductive Replicas :=
  | IncludeReplicas (sel : list (rstr * option ReplicaType)) (no_failover : bool)
  | ExcludeReplicas (sel : list (rstr * option ReplicaType)).

Definition to_options (self : DirectedReadSpec) : Replicas :=
  let sels := map (fun s => (location s, match kind s with
                                         | ReadWrite => Some ReadWrite
                                         | ReadOnly => Some ReadOnly
                                         | Any => None
                                         end)) (selections self) in
  match mode self with
  | Include => IncludeReplicas sels (auto_failover_disabled self)
  | Exclude => ExcludeReplicas sels
  end.

Definition parse_type (value : rstr) : Result ReplicaType :=
  if decide (value = str "read_write") then Ok ReadWrite
  else if decide (value = str "read_only") then Ok ReadOnly
  else if decide (value = str "any") then Ok Any
  else Err (invalid_argument
              [Lit "unknown replica type "; Dbg value; Lit "; expected "; Quo "read_write"; Lit ", ";
               Quo "read_only"; Lit " or "; Quo "any"]).

(** The body of the loop over the comma-separated selections. *)
Definition parse_selection (item : rstr) : Result Selection :=
  let item := trim item in
  if decide (item = []) then
    Err (invalid_argument
           [Lit "empty replica selection in spanner.directed_read (check for a stray comma)"])
  else
    selection ← match split_once cCOLON item with
                | Some (loc, type_str) =>
                    k ← parse_type (trim type_str);
                    Ok (mkSelection (trim loc) k)
                | None => Ok (mkSelection item Any)
                end;
    if decide (location selection = [] /\ kind selection = Any) then
      Err (invalid_argument
             [Lit "a spanner.directed_read selection needs a location and/or a replica type"])
    else Ok selection.

Definition parse_mode (s : rstr) : Result Mode :=
  if decide (s = str "include") then Ok Include
  else if decide (s = str "exclude") then Ok Exclude
  else Err (invalid_argument
              [Lit "unknown spanner.directed_read mode "; Dbg s; Lit "; expected ";
               Quo "include"; Lit " or "; Quo "exclude"]).

Definition parse (value : rstr) : Result DirectedReadSpec :=
  '(main, afd) ← match split_once cSEMI value with
    | Some (main, flag) =>
        if decide (trim flag <> str "auto_failover_disabled") then
          Err (invalid_argument
                 [Lit "unknown spanner.directed_read flag "; Dbg (trim flag);
                  Lit "; the only supported flag is "; Quo ";auto_failover_disabled"])
        else Ok (trim main, true)
    | None => Ok (trim value, false)
    end;
  let '(mode_str, selections_str) := match split_once cCOLON main with
    | Some (m, rest) => (trim m, Some (trim rest))
    | None => (main, None)
    end in
  m ← parse_mode mode_str;
  sels ← match selections_str with
         | Some ss => try_map parse_selection (split_on cCOMMA ss)
         | None => Ok []
         end;
  if decide (afd = true /\ m = Exclude) then
    Err (invalid_argument [Lit "auto_failover_disabled is only valid with an "; Quo "include";
                           Lit " directed read"])
  else if decide (sels = [] /\ ~ (m = Include /\ afd = true)) then
    Err (invalid_argument [Lit "spanner.directed_read needs at least one replica selection"])
  else Ok (mkDirectedReadSpec m sels afd).

(** [DirectedRead]: the option as an object holds it. *)
Definition DirectedRead : Type := RawParsed DirectedReadSpec.

Definition DirectedRead_set (self : DirectedRead) (value : OptionValue) :
    DirectedRead * Result unit :=
  RawParsed_set self value OPTION_DIRECTED_READ parse.

Definition option_string (self : DirectedRead) : option rstr := rp_raw self.

(** ** The grammar, printed *)

Definition render_type (k : ReplicaType) : rstr :=
  match k with ReadWrite => str "read_write" | ReadOnly => str "read_only" | Any => str "any" end.

Definition render_selection (s : Selection) : rstr :=
  match kind s with
  | Any => location s
  | k => location s ++ cCOLON :: render_type k
  end.

Definition render_mode (m : Mode) : rstr :=
  match m with Include => str "include" | Exclude => str "exclude" end.

Definition render_main (spec : DirectedReadSpec) : rstr :=
  match selections spec with
  | [] => render_mode (mode spec)
  | l => render_mode (mode spec) ++ cCOLON :: join [cCOMMA] (map render_selection l)
  end.

Definition render (spec : DirectedReadSpec) : rstr :=
  if auto_failover_disabled spec
  then render_main spec ++ cSEMI :: str "auto_failover_disabled"
  else render_main spec.

(** A selection constrains a location or a type, and its location is a plain
    trimmed name. *)
Definition selection_wf (s : Selection) : Prop :=
  clean (location s) /\ cSEMI ∉ location s /\ cCOMMA ∉ location s /\ cCOLON ∉ location s
  /\ ~ (location s = [] /\ kind s = Any).

(** The values that mean something to Spanner. *)
Definition spec_wf (spec : DirectedReadSpec) : Prop :=
  Forall selection_wf (selections spec)
  /\ (auto_failover_disabled spec = true -> mode spec = Include)
  /\ (selections spec = [] -> mode spec = Include /\ auto_failover_disabled spec = true).

(** ** Lemmas *)

Lemma elem_of_trim c s : c ∈ trim s -> c ∈ s.
Proof. destruct (trim_spec s) as (w1 & w2 & E & _). rewrite E at 2. set_solver. Qed.

Lemma parse_selection_wf item s :
  cSEMI ∉ item -> cCOMMA ∉ item -> parse_selection item = Ok s -> selection_wf s.
Proof.
  intros Hs Hc H. unfold parse_selection in H. case_decide; [done|].
  assert (cSEMI ∉ trim item) as Hs' by (intros ?%elem_of_trim; done).
  assert (cCOMMA ∉ trim item) as Hc' by (intros ?%elem_of_trim; done).
  inv_bind H. case_decide as Hn; [done|]. apply Ok_inj in H as <-.
  destruct (split_once cCOLON (trim item)) as [[loc ty]|] eqn:Esp.
  - apply split_once_Some in Esp as [Eq Hnc]. inv_bind E. apply Ok_inj in E as <-.
    rewrite Eq in Hs', Hc'. split_and!; cbn; [apply trim_not_ws| | | | done];
      intros ?%elem_of_trim; set_solver.
  - apply split_once_None in Esp. apply Ok_inj in E as <-.
    split_and!; cbn; [apply trim_not_ws|done..].
Qed.

Lemma render_selection_clean s :
  selection_wf s ->
  clean (render_selection s) /\ cCOMMA ∉ render_selection s /\ cSEMI ∉ render_selection s.
Proof.
  intros (Hcl & Hse & Hco & Hcn & _).
  assert (forall k, clean (render_type k) /\ cCOMMA ∉ cCOLON :: render_type k
                    /\ cSEMI ∉ cCOLON :: render_type k) as Hk.
  { intros k. split; [apply clean_trim; by destruct k|].
    split; apply (bool_decide_unpack _); by destruct k. }
  unfold render_selection. destruct (kind s) eqn:E; [| |done];
    (destruct (Hk (kind s)) as (? & ? & ?); rewrite E in *;
     split; [by apply clean_sep | set_solver]).
Qed.

Lemma parse_render_type k : parse_type (trim (render_type k)) = Ok k.
Proof. by destruct k. Qed.

Lemma parse_render_selection s : selection_wf s -> parse_selection (render_selection s) = Ok s.
Proof.
  intros Hwf. destruct (render_selection_clean _ Hwf) as [Hcl%clean_trim _].
  destruct Hwf as (Hc%clean_trim & _ & _ & Hcn & Hne).
  unfold parse_selection. rewrite Hcl. destruct s as [loc k].
  destruct (decide (k = Any)) as [->|Hk].
  - unfold render_selection; cbn [kind location] in *. rewrite decide_False by naive_solver.
    rewrite (proj2 (split_once_None _ _) Hcn). unfold mbind, Result_mbind.
    cbn [location kind]. by rewrite decide_False.
  - assert (render_selection (mkSelection loc k) = loc ++ cCOLON :: render_type k) as ->
      by (by destruct k).
    rewrite decide_False by (by intros []%app_eq_nil).
    rewrite (proj2 (split_once_Some cCOLON _ loc _) (conj eq_refl Hcn)), parse_render_type.
    unfold mbind, Result_mbind. cbn [location kind] in *. rewrite Hc. by rewrite decide_False.
Qed.

Lemma parse_render_selections l :
  Forall selection_wf l -> try_map parse_selection (map render_selection l) = Ok l.
Proof.
  intros H. apply try_map_Ok_Forall2, Forall2_fmap_l. induction H; constructor; [|done].
  by apply parse_render_selection.
Qed.

Lemma render_selections_clean l :
  Forall selection_wf l ->
  clean (join [cCOMMA] (map render_selection l)) /\ cSEMI ∉ join [cCOMMA] (map render_selection l).
Proof.
  intros H. split.
  - apply clean_join; [done|]. apply Forall_fmap. eapply Forall_impl; [done|].
    intros s Hs. by apply render_selection_clean.
  - induction H as [|s l Hs _ IH]; cbn; [set_solver|].
    destruct (render_selection_clean _ Hs) as (_ & _ & ?).
    destruct l; cbn in *; [done | set_solver].
Qed.

Lemma render_mode_facts m :
  clean (render_mode m) /\ cSEMI ∉ render_mode m /\ cCOLON ∉ render_mode m
  /\ parse_mode (render_mode m) = Ok m.
Proof.
  split; [apply clean_trim; by destruct m|].
  split; [apply (bool_decide_unpack _); by destruct m|].
  split; [apply (bool_decide_unpack _); by destruct m|]. by destruct m.
Qed.

Lemma parse_errs v : errs_with InvalidArguments (parse v).
Proof.
  unfold parse. apply errs_with_bind; [errs|]. intros [main afd].
  assert (forall s, errs_with InvalidArguments (parse_selection s))
    by (intros; unfold parse_selection, parse_type; errs).
  unfold parse_mode. errs.
Qed.

(** The text before the flag is clean and has no semicolon. *)
Lemma render_main_clean spec :
  spec_wf spec -> clean (render_main spec) /\ cSEMI ∉ render_main spec.
Proof.
  intros [Hs _]. destruct (render_mode_facts (mode spec)) as (? & ? & _).
  unfold render_main. destruct (selections spec) as [|s l] eqn:E; [done|].
  rewrite <- E in *. destruct (render_selections_clean _ Hs).
  split; [by apply clean_sep | set_solver].
Qed.

(** The mode and the selections, read back from the text before the flag. *)
Lemma parse_main spec :
  spec_wf spec ->
  let '(mode_str, selections_str) := match split_once cCOLON (render_main spec) with
    | Some (m, rest) => (trim m, Some (trim rest))
    | None => (render_main spec, None)
    end in
  parse_mode mode_str = Ok (mode spec) /\
  match selections_str with
  | Some ss => try_map parse_selection (split_on cCOMMA ss)
  | None => Ok []
  end = Ok (selections spec).
Proof.
  intros [Hs _]. destruct (render_mode_facts (mode spec)) as (Hm & _ & Hc & Hp).
  unfold render_main. destruct (selections spec) as [|s l] eqn:E.
  - by rewrite (proj2 (split_once_None _ _) Hc).
  - rewrite <- E in *. rewrite (proj2 (split_once_Some cCOLON _ _ _) (conj eq_refl Hc)).
    apply clean_trim in Hm as ->. split; [done|].
    destruct (render_selections_clean _ Hs) as [->%clean_trim _].
    rewrite split_on_join_inv; [by apply parse_render_selections | by rewrite E |].
    apply Forall_fmap. eapply Forall_impl; [exact Hs|]. intros x Hx.
    by destruct (render_selection_clean _ Hx) as (_ & ? & _).
Qed.

Lemma parse_wf v spec : parse v = Ok spec -> spec_wf spec.
Proof.
  intros H.
  unfold parse in H. inv_bind H. destruct a as [main afd].
  assert (cSEMI ∉ main) as Hm.
  { destruct (split_once cSEMI v) as [[x f]|] eqn:Es.
    - apply split_once_Some in Es as [_ ?]. case_decide; [done|].
      injection E as <- _. by intros ?%elem_of_trim.
    - apply split_once_None in Es. injection E as <- _. by intros ?%elem_of_trim. }
  destruct (match split_once cCOLON main with Some (m, rest) => (trim m, Some (trim rest))
    | None => (main, None) end) as [ms ss] eqn:Emain.
  inv_bind H. case_decide as H1; [done|]. case_decide as H2; [done|].
  apply Ok_inj in H as <-. split_and!; cbn; [|intros ->; by destruct a; [|destruct H1]|].
  + destruct ss as [ss|]; [|by injection E1 as <-].
    apply try_map_Ok_Forall2 in E1.
    assert (cSEMI ∉ ss) as Hss.
    { destruct (split_once cCOLON main) as [[m r]|] eqn:Ec; [|done].
      apply split_once_Some in Ec as [-> _]. injection Emain as _ <-.
      intros ?%elem_of_trim. set_solver. }
    apply Forall_forall. intros s Hs.
    destruct (proj1 (list_elem_of_lookup _ _) Hs) as [i Hi].
    destruct (Forall2_lookup_r _ _ _ _ _ E1 Hi) as (item & Hit & Hps).
    apply list_elem_of_lookup_2 in Hit. eapply parse_selection_wf; [| |exact Hps].
    * intros Hin. apply Hss. rewrite <- (split_on_join cCOMMA ss). revert Hit Hin. clear.
      induction (split_on cCOMMA ss) as [|p [|q ps] IH]; cbn in *; set_solver.
    * pose proof (split_on_notin cCOMMA ss) as Hn. rewrite Forall_forall in Hn. by apply Hn.
  + intros ->. destruct (decide (a = Include /\ afd = true)); [done|]. by destruct H2.
Qed.

(** The request options keep everything a well-formed value says. *)
Lemma to_options_inj a b : spec_wf a -> spec_wf b -> to_options a = to_options b -> a = b.
Proof.
  intros (_ & Ha & _) (_ & Hb & _) H.
  destruct a as [ma la fa], b as [mb lb fb]; unfold to_options in H; cbn in *.
  set (f := fun s : Selection => _) in H. assert (map f la = map f lb -> la = lb) as Hinj.
  { clear. revert lb. induction la as [|[l1 k1] la IH]; intros [|[l2 k2] lb]; cbn; try done.
    intros [= -> Hk E]. f_equal; [|by apply IH]. by destruct k1, k2. }
  destruct ma, mb; cbn in H; simplify_eq; f_equal; auto.
  destruct fa; [by discriminate Ha|]. destruct fb; [by discriminate Hb|done].
Qed.

(** ** Properties *)

(** The parser accepts only values that mean something.  Whatever text is
    given, an accepted value has selections that each constrain a location or a
    replica type, with trimmed locations free of the grammar's separators; it
    disables failover only for an include list; and it has at least one selection
    unless it is an include that disables failover.  Every rejection is
    [InvalidArguments]. *)
Theorem parse_accepts_meaningful v :
  match parse v with
  | Ok spec => spec_wf spec
  | Err e => status e = InvalidArguments
  end.
Proof.
  destruct (parse v) as [spec|e] eqn:H.
  - by eapply parse_wf.
  - pose proof (parse_errs v) as Hv. by rewrite H in Hv.
Qed.

(** Every meaningful value can be written: the parser reads the printed form
    of a well-formed selection list back exactly, setting the option to that text
    stores it for [get_option] unchanged, and the request options built from it
    determine it (no part of the value is dropped). *)
Theorem parse_render spec :
  spec_wf spec ->
  parse (render spec) = Ok spec /\
  (forall self, DirectedRead_set self (OString (render spec))
                = (mkRawParsed (Some (render spec)) (Some spec), Ok tt)) /\
  (forall v spec', parse v = Ok spec' -> to_options spec' = to_options spec -> spec' = spec).
Proof.
  intros Hwf. assert (parse (render spec) = Ok spec) as Hp.
  { destruct (render_main_clean _ Hwf) as [Hcl%clean_trim Hse].
    pose proof (parse_main _ Hwf) as Hm. destruct Hwf as (_ & Hafd & Hne).
    destruct spec as [m sels afd]; cbn [mode selections auto_failover_disabled] in *.
    unfold parse, render; cbn [auto_failover_disabled].
    destruct afd.
    - rewrite (proj2 (split_once_Some cSEMI _ _ _) (conj eq_refl Hse)), Hcl.
      rewrite decide_False by (intros H; by apply H). unfold mbind at 1, Result_mbind at 1.
      destruct (match split_once cCOLON _ with Some _ => _ | None => _ end) as [ms ss].
      destruct Hm as [-> ->]. unfold mbind, Result_mbind. rewrite (Hafd eq_refl).
      rewrite !decide_False by naive_solver. done.
    - rewrite (proj2 (split_once_None _ _) Hse), Hcl. unfold mbind at 1, Result_mbind at 1.
      destruct (match split_once cCOLON _ with Some _ => _ | None => _ end) as [ms ss].
      destruct Hm as [-> ->]. unfold mbind, Result_mbind.
      rewrite !decide_False by naive_solver. done. }
  split; [done|]. split; cycle 1.
  { intros v spec' Hv. apply to_options_inj; [|done]. by eapply parse_wf. }
  intros self. unfold DirectedRead_set, RawParsed_set. cbn.
  assert (trim (render spec) = render spec) as ->.
  { apply clean_trim. destruct (render_main_clean _ Hwf) as [Hcl _]. unfold render.
    destruct (auto_failover_disabled spec); [|done].
    by apply clean_sep; [done|apply clean_trim|]. }
  rewrite decide_False; [by rewrite Hp|].
  unfold render, render_main. destruct (auto_failover_disabled spec), (selections spec), (mode spec); done.
Qed.

Lemma parse_render_witness :
  let spec := mkDirectedReadSpec Include
                [mkSelection (str "us-east1") ReadOnly; mkSelection [] ReadWrite] true in
  render spec = str "include:us-east1:read_only,:read_write;auto_failover_disabled" /\
  parse (render spec) = Ok spec.
Proof.
  intros spec. split; [by vm_compute|]. apply (parse_render spec).
  assert (forall s, bool_decide (cSEMI ∉ s) && bool_decide (cCOMMA ∉ s) && bool_decide (cCOLON ∉ s)
                    && bool_decide (trim s = s) = true ->
    clean s /\ cSEMI ∉ s /\ cCOMMA ∉ s /\ cCOLON ∉ s) as Hloc.
  { intros s H. rewrite !andb_true_iff, !bool_decide_eq_true in H.
    destruct_and?. split_and!; [by apply clean_trim|done..]. }
  split_and!; [|done|done]. repeat constructor; try (apply Hloc; by vm_compute); by intros [].
Defined.
