(* ===== verification/Staleness.v ===== *)
(** * [src/staleness.rs]: the read bound of read-only queries

    The grammar of [spanner.read.staleness], the duration grammar it shares with
    [spanner.commit.max_delay], and the pinning of a bound for a multi-use
    transaction.  RFC 3339 parsing is chrono's and the [TimestampBound]
    constructors are the client's: both are parameters.  A [Duration] and a
    [SystemTime] are nanoseconds; a [DateTime<Utc>] is the pair chrono exposes,
    its seconds and its sub-second nanoseconds. *)

From Stdlib Require Import SpecFloat.
From S2P Require Import Prelude RustStr RustNum ErrorModel Options.

Record DateTime := mkDateTime { timestamp : Z; timestamp_subsec_nanos : Z }.

Inductive ReadBound :=
  | ExactStaleness (d : Z)
  | MaxStaleness (d : Z)
  | ReadTimestamp (t : DateTime)
  | MinReadTimestamp (t : DateTime).

Definition pinned_for_multi_use (self : ReadBound) : ReadBound :=
  match self with
  | MaxStaleness d => ExactStaleness d
  | MinReadTimestamp t => ReadTimestamp t
  | other => other
  end.

(** [UNIX_EPOCH] is 0; a [Duration] is never negative. *)
Definition to_system_time (dt : DateTime) : Z :=
  let secs := timestamp dt in
  let nanos := timestamp_subsec_nanos dt in
  if decide (0 <= secs)%Z then (0 + (secs * NANOS_PER_SEC + nanos))%Z
  else (0 - Z.abs secs * NANOS_PER_SEC + nanos)%Z.

(** ** Durations *)

Definition parse_duration_for (value key : rstr) : Result Z :=
  let bad := invalid_argument
    [Lit "option "; Disp key; Lit ": "; Dbg value;
     Lit " is not a valid duration; expected a number with an optional unit suffix (s [default], ms, us/µs, ns, m, h), e.g. ";
     Quo "500ms"] in
  let '(number, unit_secs) :=
    match strip_suffix (str "ms") value with Some n => (n, f64_of_decimal false 1 (-3)) | None =>
    match (match strip_suffix (str "us") value with
           | Some n => Some n
           | None => strip_suffix [181; 115]%N value
           end) with Some n => (n, f64_of_decimal false 1 (-6)) | None =>
    match strip_suffix (str "ns") value with Some n => (n, f64_of_decimal false 1 (-9)) | None =>
    match strip_suffix (str "s") value with Some n => (n, f64_of_Z 1) | None =>
    match strip_suffix (str "m") value with Some n => (n, f64_of_Z 60) | None =>
    match strip_suffix (str "h") value with Some n => (n, f64_of_Z 3600) | None =>
    (value, f64_of_Z 1) end end end end end end in
  magnitude ← ok_or (parse_f64 (trim number)) bad;
  let seconds := f64_mul magnitude unit_secs in
  if decide (f64_is_finite seconds = false \/ f64_ltb seconds (S754_zero false) = true) then Err bad
  else ok_or (duration_try_from_secs_f64 seconds) bad.

Definition parse_duration (value : rstr) : Result Z :=
  parse_duration_for value OPTION_READ_STALENESS.

Definition GRAMMAR_FORMS : Message :=
  [Quo "exact:<duration>"; Lit " (e.g. "; Quo "exact:10s"; Lit "), "; Quo "max:<duration>";
   Lit " (e.g. "; Quo "max:500ms"; Lit "), "; Quo "read:<rfc3339>"; Lit " (e.g. ";
   Quo "read:2026-07-07T00:00:00Z"; Lit ") or "; Quo "min:<rfc3339>"; Lit " (e.g. ";
   Quo "min:2026-07-07T00:00:00+02:00"; Lit ")"].

Definition grammar_err (value : rstr) : Error :=
  invalid_argument ([Lit "option "; Disp OPTION_READ_STALENESS; Lit ": "; Dbg value;
                     Lit " is not a valid read bound; expected "] ++ GRAMMAR_FORMS).

Section Bound.
(** chrono's parser (an instant, or its diagnosis) and the client's fallible
    bound constructors. *)
Variable parse_from_rfc3339 : rstr -> DateTime + rstr.
Context {TimestampBound : Type}.
Variable try_exact_staleness try_max_staleness : Z -> TimestampBound + rstr.
Variable try_read_timestamp try_min_read_timestamp : Z -> TimestampBound + rstr.

Definition parse_rfc3339 (value ts : rstr) : Result DateTime :=
  match parse_from_rfc3339 ts with
  | inl t => Ok t
  | inr e => Err (invalid_argument
                    ([Lit "option "; Disp OPTION_READ_STALENESS; Lit ": "; Dbg value;
                      Lit " does not carry a valid RFC 3339 timestamp ("; Disp e;
                      Lit "); expected "] ++ GRAMMAR_FORMS))
  end.

Definition parse_read_bound (value : rstr) : Result ReadBound :=
  let bare := match parse_from_rfc3339 value with
              | inl t => Ok (ReadTimestamp t)
              | inr _ => Err (grammar_err value)
              end in
  match split_once cCOLON value with
  | Some (kind, arg) =>
      if decide (trim kind = str "exact") then ExactStaleness <$> parse_duration (trim arg)
      else if decide (trim kind = str "max") then MaxStaleness <$> parse_duration (trim arg)
      else if decide (trim kind = str "read") then ReadTimestamp <$> parse_rfc3339 value (trim arg)
      else if decide (trim kind = str "min") then MinReadTimestamp <$> parse_rfc3339 value (trim arg)
      else bare
  | None => bare
  end.

Definition out_of_range {A} (what : String.string) (r : A + rstr) : Result A :=
  match r with
  | inl b => Ok b
  | inr e => Err (invalid_argument [Lit what; Lit " out of range: "; Disp e])
  end.

Definition to_timestamp_bound (self : ReadBound) : Result TimestampBound :=
  match self with
  | ExactStaleness d => out_of_range "read staleness" (try_exact_staleness d)
  | MaxStaleness d => out_of_range "read staleness" (try_max_staleness d)
  | ReadTimestamp t => out_of_range "read timestamp" (try_read_timestamp (to_system_time t))
  | MinReadTimestamp t => out_of_range "read timestamp" (try_min_read_timestamp (to_system_time t))
  end.

Definition ReadStaleness : Type := RawParsed ReadBound.

Definition set_staleness (self : ReadStaleness) (value : OptionValue) : ReadStaleness * Result unit :=
  RawParsed_set self value OPTION_READ_STALENESS parse_read_bound.

Definition staleness_string (self : ReadStaleness) : option rstr := rp_raw self.

(** [Option<Result>::transpose]. *)
Definition transpose {A} (o : option (Result A)) : Result (option A) :=
  match o with None => Ok None | Some (Ok a) => Ok (Some a) | Some (Err e) => Err e end.

Definition timestamp_bound (self : ReadStaleness) : Result (option TimestampBound) :=
  transpose (to_timestamp_bound <$> rp_parsed self).

Definition multi_use_timestamp_bound (self : ReadStaleness) : Result (option TimestampBound) :=
  transpose ((fun b => to_timestamp_bound (pinned_for_multi_use b)) <$> rp_parsed self).

(** ** Lemmas *)

Lemma parse_duration_for_errs v k : errs_with InvalidArguments (parse_duration_for v k).
Proof. unfold parse_duration_for. case_match. errs. Qed.

Lemma parse_rfc3339_errs v t : errs_with InvalidArguments (parse_rfc3339 v t).
Proof. unfold parse_rfc3339. errs. Qed.

End Bound.

(** The read timestamps a bound allows when the read starts at [now]. *)
Definition admits (b : ReadBound) (now ts : Z) : Prop :=
  match b with
  | ExactStaleness d => ts = (now - d)%Z
  | MaxStaleness d => (now - d <= ts)%Z
  | ReadTimestamp t => ts = to_system_time t
  | MinReadTimestamp t => (to_system_time t <= ts)%Z
  end.

(** The kinds Spanner accepts when it begins a multi-use transaction. *)
Definition multi_use_legal (b : ReadBound) : Prop :=
  match b with ExactStaleness _ | ReadTimestamp _ => True | _ => False end.

Lemma nanos_of_scaled_nonneg m e : (0 <= nanos_of_scaled m e)%Z.
Proof.
  unfold nanos_of_scaled. repeat case_decide; try case_match;
    try apply Z.mul_nonneg_nonneg; try apply Z.pow_nonneg; try lia;
    (etrans; [apply (Z.div_pos (Z.pos m * NANOS_PER_SEC) (2 ^ (- e))); [lia|apply Z.pow_pos_nonneg; lia]|lia]).
Qed.

Lemma duration_bounds x d :
  duration_try_from_secs_f64 x = Some d -> (0 <= d < 2 ^ 64 * NANOS_PER_SEC)%Z.
Proof.
  unfold duration_try_from_secs_f64. repeat case_match; intros; simplify_eq; try lia.
  split; [apply nanos_of_scaled_nonneg | done].
Qed.

(** A parsed duration is never negative and always fits Rust's [Duration]. *)
Lemma parse_duration_for_bounds v k d :
  parse_duration_for v k = Ok d -> (0 <= d < 2 ^ 64 * NANOS_PER_SEC)%Z.
Proof.
  unfold parse_duration_for. case_match. intros Hd. inv_bind Hd.
  case_decide; [done|]. destruct (duration_try_from_secs_f64 _) eqn:E'; [|done].
  cbn in Hd. simplify_eq. by eapply duration_bounds.
Qed.

Lemma split_once_prefix (k : rstr) (a : rstr) :
  cCOLON ∉ k -> split_once cCOLON (k ++ cCOLON :: a) = Some (k, a).
Proof. intros H. by apply split_once_Some. Qed.

(** ** Properties *)

(** Pinning a read bound for a multi-use transaction is sound.  The pinned
    bound is of a kind Spanner accepts for such a transaction; every read
    timestamp it allows is one the configured bound allows, and it is the most
    stale of those; and the bound handed to the client for a multi-use
    transaction never comes from the two single-use-only constructors. *)
Theorem pinned_for_multi_use_sound b :
  multi_use_legal (pinned_for_multi_use b) /\
  (forall now ts, admits (pinned_for_multi_use b) now ts ->
     admits b now ts /\ forall ts', admits b now ts' -> (ts <= ts')%Z) /\
  (forall {TB} (ex mx rd mn mx' mn' : Z -> TB + rstr) raw,
     let self := mkRawParsed raw (Some b) in
     multi_use_timestamp_bound ex mx rd mn self = multi_use_timestamp_bound ex mx' rd mn' self).
Proof.
  split; [by destruct b|]. split; [|by destruct b].
  intros now ts H. destruct b; cbn in *; subst; split; intros; lia.
Qed.

(** The grammar of [spanner.read.staleness].  The text after the first colon
    is the argument of the four prefixes, an unprefixed value is a timestamp to
    read at, every rejection is [InvalidArguments], and every accepted staleness
    is non-negative and fits Rust's [Duration]. *)
Theorem parse_read_bound_grammar (rfc : rstr -> DateTime + rstr) (arg : rstr) :
  parse_read_bound rfc (str "exact:" ++ arg) = (ExactStaleness <$> parse_duration (trim arg)) /\
  parse_read_bound rfc (str "max:" ++ arg) = (MaxStaleness <$> parse_duration (trim arg)) /\
  parse_read_bound rfc (str "read:" ++ arg)
    = (ReadTimestamp <$> parse_rfc3339 rfc (str "read:" ++ arg) (trim arg)) /\
  parse_read_bound rfc (str "min:" ++ arg)
    = (MinReadTimestamp <$> parse_rfc3339 rfc (str "min:" ++ arg) (trim arg)) /\
  (forall v, match parse_read_bound rfc v with
     | Ok (ExactStaleness d) | Ok (MaxStaleness d) => (0 <= d < 2 ^ 64 * NANOS_PER_SEC)%Z
     | Ok (ReadTimestamp t) => exists a, rfc a = inl t /\
         (a = v \/ exists k a', split_once cCOLON v = Some (k, a') /\ trim k = str "read" /\ a = trim a')
     | Ok (MinReadTimestamp t) => exists a, rfc (trim a) = inl t /\
         exists k, split_once cCOLON v = Some (k, a) /\ trim k = str "min"
     | Err e => status e = InvalidArguments
     end).
Proof.
  assert (forall k, cCOLON ∉ str k ->
    split_once cCOLON (str k ++ cCOLON :: arg) = Some (str k, arg)) as Hk
    by (intros; by apply split_once_prefix).
  repeat apply conj; try
    (match goal with |- context [parse_read_bound _ (str ?k ++ arg)] =>
       let k' := eval vm_compute in (String.substring 0 (String.length k - 1) k) in
       change (str k ++ arg) with (str k' ++ cCOLON :: arg);
       unfold parse_read_bound; rewrite (Hk k') by (by apply (bool_decide_unpack _))
     end; done).
  intros v. unfold parse_read_bound, parse_rfc3339, parse_duration, fmap, Result_fmap.
  destruct (split_once cCOLON v) as [[k a]|] eqn:Es.
  2: { destruct (rfc v) eqn:E; [eauto|done]. }
  repeat case_decide.
  1,2: destruct (parse_duration_for _ _) eqn:E;
    [by eapply parse_duration_for_bounds
    |pose proof (parse_duration_for_errs (trim a) OPTION_READ_STALENESS) as He; by rewrite E in He].
  all: destruct (rfc _) eqn:E; [|done]; eauto 10.
Qed.

(** C0: converting an instant to [SystemTime] is exact on both sides of the Unix
    epoch: the result is the instant's nanoseconds since the epoch, so instants
    keep their order. *)
Theorem to_system_time_exact dt :
  to_system_time dt = (timestamp dt * NANOS_PER_SEC + timestamp_subsec_nanos dt)%Z /\
  (forall dt', (0 <= timestamp_subsec_nanos dt < NANOS_PER_SEC)%Z ->
     (0 <= timestamp_subsec_nanos dt' < NANOS_PER_SEC)%Z ->
     (to_system_time dt < to_system_time dt')%Z <->
     (timestamp dt < timestamp dt' \/
      timestamp dt = timestamp dt' /\ timestamp_subsec_nanos dt < timestamp_subsec_nanos dt')%Z).
Proof. unfold to_system_time. split; [|intros dt']; repeat case_decide; lia. Qed.
