(* ===== verification/Config.v ===== *)
(** * The configuration of a connection and of its statements

    [src/request.rs], [src/retry.rs], [src/timeout.rs], [src/query_options.rs],
    the timestamp precision of [src/conversion.rs], and the [SharedConfig] bundle
    of [src/options.rs] with its option dispatch.  The two [Arc] cells of a
    configuration (the read-only flag, aliased by every statement of a
    connection, and the commit statistics, one per object) live in a [Cells]
    store, so sharing is explicit. *)

From Stdlib Require Import SpecFloat.
From S2P Require Import Prelude RustStr RustNum ErrorModel Options DirectedRead Staleness.

(** ** [src/request.rs] *)

Inductive RequestPriority := Low | Medium | High.

Definition MAX_COMMIT_DELAY_CAP : Z := 500 * 1000000.

Definition parse_priority (value : rstr) : Result RequestPriority :=
  if decide (value = str "low") then Ok Low
  else if decide (value = str "medium") then Ok Medium
  else if decide (value = str "high") then Ok High
  else Err (invalid_argument
              [Lit "unknown request priority "; Dbg value; Lit "; expected "; Quo "low"; Lit ", ";
               Quo "medium"; Lit " or "; Quo "high"; Lit " (or an empty string to unset)"]).

Definition parse_max_commit_delay (value : rstr) : Result Z :=
  duration ← parse_duration value;
  if decide (MAX_COMMIT_DELAY_CAP < duration)%Z then
    Err (invalid_argument [Lit "spanner.commit.max_delay "; Dbg value;
                           Lit " exceeds Spanner's maximum of 500ms"])
  else Ok duration.

Record RequestConfig := mkRequestConfig {
  priority : RawParsed RequestPriority;
  request_tag : option rstr;
  transaction_tag : option rstr;
  max_commit_delay : RawParsed Z;
  return_commit_stats : bool;
  exclude_txn_from_change_streams : bool;
}.

Definition RequestConfig_default : RequestConfig :=
  mkRequestConfig RawParsed_default None None RawParsed_default false false.

(** Update a nested field through its own setter. *)
Definition upd {S F} (r : F * Result unit) (set : F -> S) : S * Result unit :=
  let '(f, res) := r in (set f, res).

Section RequestSetters.
Context (self : RequestConfig).

Definition with_priority p := mkRequestConfig p (request_tag self) (transaction_tag self)
  (max_commit_delay self) (return_commit_stats self) (exclude_txn_from_change_streams self).
Definition with_request_tag t := mkRequestConfig (priority self) t (transaction_tag self)
  (max_commit_delay self) (return_commit_stats self) (exclude_txn_from_change_streams self).
Definition with_transaction_tag t := mkRequestConfig (priority self) (request_tag self) t
  (max_commit_delay self) (return_commit_stats self) (exclude_txn_from_change_streams self).
Definition with_max_commit_delay d := mkRequestConfig (priority self) (request_tag self)
  (transaction_tag self) d (return_commit_stats self) (exclude_txn_from_change_streams self).
Definition with_commit_stats b := mkRequestConfig (priority self) (request_tag self)
  (transaction_tag self) (max_commit_delay self) b (exclude_txn_from_change_streams self).
Definition with_exclude b := mkRequestConfig (priority self) (request_tag self)
  (transaction_tag self) (max_commit_delay self) (return_commit_stats self) b.

Definition set_priority (value : OptionValue) : RequestConfig * Result unit :=
  upd (RawParsed_set (priority self) value OPTION_REQUEST_PRIORITY parse_priority) with_priority.

Definition set_request_tag (value : OptionValue) : RequestConfig * Result unit :=
  assign self (non_empty_string_option value OPTION_REQUEST_TAG) with_request_tag.

Definition set_transaction_tag (value : OptionValue) : RequestConfig * Result unit :=
  assign self (non_empty_string_option value OPTION_TRANSACTION_TAG) with_transaction_tag.

Definition set_max_commit_delay (value : OptionValue) : RequestConfig * Result unit :=
  upd (RawParsed_set (max_commit_delay self) value OPTION_MAX_COMMIT_DELAY parse_max_commit_delay)
    with_max_commit_delay.

Definition set_commit_stats (value : OptionValue) : RequestConfig * Result unit :=
  assign self (bool_option_unsettable value (option_label OPTION_COMMIT_STATS)) with_commit_stats.

Definition set_exclude_txn_from_change_streams (value : OptionValue) : RequestConfig * Result unit :=
  assign self
    (bool_option_unsettable value (option_label OPTION_EXCLUDE_TXN_FROM_CHANGE_STREAMS)) with_exclude.

End RequestSetters.

Definition commit_stats_string (self : RequestConfig) : rstr :=
  if return_commit_stats self then str "true" else str "false".
Definition exclude_txn_from_change_streams_string (self : RequestConfig) : rstr :=
  if exclude_txn_from_change_streams self then str "true" else str "false".
Definition priority_string (self : RequestConfig) : option rstr := rp_raw (priority self).
Definition request_tag_string (self : RequestConfig) : option rstr := request_tag self.
Definition transaction_tag_string (self : RequestConfig) : option rstr := transaction_tag self.
Definition max_commit_delay_string (self : RequestConfig) : option rstr :=
  rp_raw (max_commit_delay self).

(** ** [src/retry.rs] *)

Record RetryConfig := mkRetryConfig {
  max_attempts : option Z;
  max_elapsed_seconds : option f64;
  backoff_initial_seconds : option f64;
  backoff_max_seconds : option f64;
  backoff_multiplier : option f64;
}.

Definition RetryConfig_default : RetryConfig := mkRetryConfig None None None None None.

Definition parse_max_attempts (value : OptionValue) : Result (option Z) :=
  let reject := invalid_argument
    [Lit "option "; Disp OPTION_RETRY_MAX_ATTEMPTS;
     Lit " must be a positive integer number of attempts (>= 1)"] in
  let check (attempts : Z) : Result (option Z) :=
    if decide (1 <= attempts <= u32_max)%Z then Ok (Some attempts) else Err reject in
  match value with
  | OString s =>
      let trimmed := trim s in
      if decide (trimmed = []) then Ok None
      else n ← ok_or (parse_i64 trimmed) reject; check n
  | OInt i => check i
  | ODouble d => if f64_is_finite d && f64_is_whole d then check (f64_as_i64 d) else Err reject
  | OBytes _ => Err reject
  end.

Definition set_max_attempts (self : RetryConfig) (value : OptionValue) : RetryConfig * Result unit :=
  assign self (parse_max_attempts value)
    (fun n => mkRetryConfig n (max_elapsed_seconds self) (backoff_initial_seconds self)
                (backoff_max_seconds self) (backoff_multiplier self)).

Definition max_elapsed_duration (self : RetryConfig) : option Z :=
  s ← max_elapsed_seconds self; duration_try_from_secs_f64 s.

(** A policy is the client's own, wrapped in the limits in this order. *)
Inductive RetryLimit := AttemptLimit (n : Z) | TimeLimit (d : Z).

Definition retry_policy_arg (self : RetryConfig) : option (list RetryLimit) :=
  match max_attempts self, max_elapsed_duration self with
  | None, None => None
  | Some attempts, None => Some [AttemptLimit attempts]
  | None, Some elapsed => Some [TimeLimit elapsed]
  | Some attempts, Some elapsed => Some [TimeLimit elapsed; AttemptLimit attempts]
  end.

(** What is set on the [ExponentialBackoffBuilder] before it is clamped. *)
Record Backoff := mkBackoff {
  initial_delay : option Z;
  maximum_delay : option Z;
  scaling : option f64;
}.

(** [Duration::from_secs_f64] panics where [try_from_secs_f64] fails; [None] is
    that panic. *)
Definition from_secs_f64_opt (s : option f64) : option (option Z) :=
  match s with
  | None => Some None
  | Some x => Some <$> duration_try_from_secs_f64 x
  end.

Definition backoff_policy_arg (self : RetryConfig) : option (option Backoff) :=
  if decide (backoff_initial_seconds self = None /\ backoff_max_seconds self = None
             /\ backoff_multiplier self = None) then Some None
  else
    i ← from_secs_f64_opt (backoff_initial_seconds self);
    m ← from_secs_f64_opt (backoff_max_seconds self);
    Some (Some (mkBackoff i m (backoff_multiplier self))).

(** ** [src/timeout.rs] *)

Record RpcTimeouts := mkRpcTimeouts { query : option f64; update : option f64; fetch : option f64 }.

Definition RpcTimeouts_default : RpcTimeouts := mkRpcTimeouts None None None.

Definition as_duration (seconds : option f64) : option Z :=
  s ← seconds;
  if f64_ltb (S754_zero false) s then duration_try_from_secs_f64 s else None.

Definition query_timeout (self : RpcTimeouts) : option Z := as_duration (query self).
Definition update_timeout (self : RpcTimeouts) : option Z := as_duration (update self).
Definition fetch_timeout (self : RpcTimeouts) : option Z := as_duration (fetch self).

(** ** [src/query_options.rs] *)

Record QueryOptionsConfig := mkQueryOptionsConfig {
  optimizer_version : option rstr;
  optimizer_statistics_package : option rstr;
}.

(** ** The timestamp precision ([src/conversion.rs]) *)

Inductive TimestampPrecision := NanosecondsErrorOnOverflow | Microseconds.

Definition NANOSECONDS_ERROR_ON_OVERFLOW : rstr := str "nanoseconds_error_on_overflow".
Definition MICROSECONDS : rstr := str "microseconds".

Definition parse_option (value : OptionValue) : Result TimestampPrecision :=
  let what := option_label OPTION_MAX_TIMESTAMP_PRECISION in
  s ← string_option value what;
  let t := trim s in
  if decide (t = []) then Ok NanosecondsErrorOnOverflow
  else if decide (t = NANOSECONDS_ERROR_ON_OVERFLOW) then Ok NanosecondsErrorOnOverflow
  else if decide (t = MICROSECONDS) then Ok Microseconds
  else Err (invalid_argument
              [Disp what; Lit " expects "; Dbg NANOSECONDS_ERROR_ON_OVERFLOW; Lit " or ";
               Dbg MICROSECONDS; Lit " (or "; Dbg []; Lit " to reset to the default), got "; Dbg t]).

Definition as_str (self : TimestampPrecision) : rstr :=
  match self with
  | NanosecondsErrorOnOverflow => NANOSECONDS_ERROR_ON_OVERFLOW
  | Microseconds => MICROSECONDS
  end.

(** ** Cells *)

Record Cells := mkCells {
  flags : gmap positive bool;
  counts : gmap positive (option Z);
}.

(** [CommitStats::record] and [CommitStats::mutation_count]. *)
Definition record (h : Cells) (cell : positive) (count : option Z) : Cells :=
  match count with
  | Some n => mkCells (flags h) (<[cell := Some n]> (counts h))
  | None => h
  end.

Definition mutation_count (h : Cells) (cell : positive) : option Z :=
  mjoin (counts h !! cell).

(** ** [SharedConfig] *)

Inductive IsolationLevel := Unspecified | Serializable | RepeatableRead.

Record SharedConfig := mkSharedConfig {
  read_only : positive;
  isolation : IsolationLevel;
  read_staleness : ReadStaleness;
  request : RequestConfig;
  directed_read : DirectedRead;
  query_options : QueryOptionsConfig;
  timestamp_precision : TimestampPrecision;
  timeouts : RpcTimeouts;
  retry : RetryConfig;
  commit_stats : positive;
}.

(** [SharedConfig::default]: two fresh cells. *)
Definition SharedConfig_default (h : Cells) : Cells * SharedConfig :=
  let f := fresh (dom (flags h)) in
  let c := fresh (dom (counts h)) in
  (mkCells (<[f := false]> (flags h)) (<[c := None]> (counts h)),
   mkSharedConfig f Unspecified RawParsed_default RequestConfig_default RawParsed_default
     (mkQueryOptionsConfig None None) NanosecondsErrorOnOverflow RpcTimeouts_default
     RetryConfig_default c).

(** [SharedConfig::inherit]: the flag is shared, the statistics are fresh. *)
Definition inherit (h : Cells) (self : SharedConfig) : Cells * SharedConfig :=
  let c := fresh (dom (counts h)) in
  (mkCells (flags h) (<[c := None]> (counts h)),
   mkSharedConfig (read_only self) (isolation self) (read_staleness self) (request self)
     (directed_read self) (query_options self) (timestamp_precision self) (timeouts self)
     (retry self) c).

Definition is_read_only (h : Cells) (self : SharedConfig) : bool :=
  default false (flags h !! read_only self).

(** [read_only.store]. *)
Definition store_read_only (h : Cells) (self : SharedConfig) (b : bool) : Cells :=
  mkCells (<[read_only self := b]> (flags h)) (counts h).

(** ** The shared option dispatch *)

Section SharedConfig.
Context (self : SharedConfig).

Definition with_isolation x := mkSharedConfig (read_only self) x (read_staleness self) (request self) (directed_read self) (query_options self) (timestamp_precision self) (timeouts self) (retry self) (commit_stats self).
Definition with_read_staleness x := mkSharedConfig (read_only self) (isolation self) x (request self) (directed_read self) (query_options self) (timestamp_precision self) (timeouts self) (retry self) (commit_stats self).
Definition with_request x := mkSharedConfig (read_only self) (isolation self) (read_staleness self) x (directed_read self) (query_options self) (timestamp_precision self) (timeouts self) (retry self) (commit_stats self).
Definition with_directed_read x := mkSharedConfig (read_only self) (isolation self) (read_staleness self) (request self) x (query_options self) (timestamp_precision self) (timeouts self) (retry self) (commit_stats self).
Definition with_query_options x := mkSharedConfig (read_only self) (isolation self) (read_staleness self) (request self) (directed_read self) x (timestamp_precision self) (timeouts self) (retry self) (commit_stats self).
Definition with_timestamp_precision x := mkSharedConfig (read_only self) (isolation self) (read_staleness self) (request self) (directed_read self) (query_options self) x (timeouts self) (retry self) (commit_stats self).
Definition with_timeouts x := mkSharedConfig (read_only self) (isolation self) (read_staleness self) (request self) (directed_read self) (query_options self) (timestamp_precision self) x (retry self) (commit_stats self).
Definition with_retry x := mkSharedConfig (read_only self) (isolation self) (read_staleness self) (request self) (directed_read self) (query_options self) (timestamp_precision self) (timeouts self) x (commit_stats self).

Definition with_timeout_query s := with_timeouts (mkRpcTimeouts s (update (timeouts self)) (fetch (timeouts self))).
Definition with_timeout_update s := with_timeouts (mkRpcTimeouts (query (timeouts self)) s (fetch (timeouts self))).
Definition with_timeout_fetch s := with_timeouts (mkRpcTimeouts (query (timeouts self)) (update (timeouts self)) s).
Definition with_max_elapsed s := with_retry (mkRetryConfig (max_attempts (retry self)) s
  (backoff_initial_seconds (retry self)) (backoff_max_seconds (retry self)) (backoff_multiplier (retry self))).
Definition with_backoff_initial s := with_retry (mkRetryConfig (max_attempts (retry self))
  (max_elapsed_seconds (retry self)) s (backoff_max_seconds (retry self)) (backoff_multiplier (retry self))).
Definition with_backoff_max s := with_retry (mkRetryConfig (max_attempts (retry self))
  (max_elapsed_seconds (retry self)) (backoff_initial_seconds (retry self)) s (backoff_multiplier (retry self))).
Definition with_backoff_multiplier s := with_retry (mkRetryConfig (max_attempts (retry self))
  (max_elapsed_seconds (retry self)) (backoff_initial_seconds (retry self)) (backoff_max_seconds (retry self)) s).

Variable rfc : rstr -> DateTime + rstr.

(** The arms of the dispatch: [None] is a key that is not shared. *)
Definition set_shared_arm (key : rstr) (value : OptionValue) : option (SharedConfig * Result unit) :=
  if decide (key = OPTION_READ_STALENESS) then
    Some (upd (set_staleness rfc (read_staleness self) value) with_read_staleness)
  else if decide (key = OPTION_REQUEST_PRIORITY) then
    Some (upd (set_priority (request self) value) with_request)
  else if decide (key = OPTION_REQUEST_TAG) then
    Some (upd (set_request_tag (request self) value) with_request)
  else if decide (key = OPTION_DIRECTED_READ) then
    Some (upd (DirectedRead_set (directed_read self) value) with_directed_read)
  else if decide (key = OPTION_MAX_COMMIT_DELAY) then
    Some (upd (set_max_commit_delay (request self) value) with_request)
  else if decide (key = OPTION_COMMIT_STATS) then
    Some (upd (set_commit_stats (request self) value) with_request)
  else if decide (key = OPTION_EXCLUDE_TXN_FROM_CHANGE_STREAMS) then
    Some (upd (set_exclude_txn_from_change_streams (request self) value) with_request)
  else if decide (key = OPTION_QUERY_OPTIMIZER_VERSION) then
    Some (assign self (non_empty_string_option value key)
            (fun v => with_query_options
                        (mkQueryOptionsConfig v (optimizer_statistics_package (query_options self)))))
  else if decide (key = OPTION_QUERY_OPTIMIZER_STATISTICS_PACKAGE) then
    Some (assign self (non_empty_string_option value key)
            (fun v => with_query_options (mkQueryOptionsConfig (optimizer_version (query_options self)) v)))
  else if decide (key = OPTION_MAX_TIMESTAMP_PRECISION) then
    Some (assign self (parse_option value) with_timestamp_precision)
  else if decide (key = OPTION_RPC_TIMEOUT_QUERY) then
    Some (assign self (f64_option value key NonNegativeSeconds) with_timeout_query)
  else if decide (key = OPTION_RPC_TIMEOUT_UPDATE) then
    Some (assign self (f64_option value key NonNegativeSeconds) with_timeout_update)
  else if decide (key = OPTION_RPC_TIMEOUT_FETCH) then
    Some (assign self (f64_option value key NonNegativeSeconds) with_timeout_fetch)
  else if decide (key = OPTION_RETRY_MAX_ATTEMPTS) then
    Some (upd (set_max_attempts (retry self) value) with_retry)
  else if decide (key = OPTION_RETRY_MAX_ELAPSED_SECONDS) then
    Some (assign self (f64_option value key PositiveSeconds) with_max_elapsed)
  else if decide (key = OPTION_RETRY_BACKOFF_INITIAL_SECONDS) then
    Some (assign self (f64_option value key PositiveSeconds) with_backoff_initial)
  else if decide (key = OPTION_RETRY_BACKOFF_MAX_SECONDS) then
    Some (assign self (f64_option value key PositiveSeconds) with_backoff_max)
  else if decide (key = OPTION_RETRY_BACKOFF_MULTIPLIER) then
    Some (assign self (f64_option value key PositiveFactor) with_backoff_multiplier)
  else None.

Definition set_shared_option (key : rstr) (value : OptionValue) : SharedConfig * Result (option unit) :=
  match set_shared_arm key value with
  | None => (self, Ok None)
  | Some (self', r) => (self', _ ← r; Ok (Some tt))
  end.

Definition shared_option_value (h : Cells) (key : rstr) : option rstr :=
  if decide (key = OPTION_READ_STALENESS) then staleness_string (read_staleness self)
  else if decide (key = OPTION_REQUEST_PRIORITY) then priority_string (request self)
  else if decide (key = OPTION_REQUEST_TAG) then request_tag_string (request self)
  else if decide (key = OPTION_DIRECTED_READ) then option_string (directed_read self)
  else if decide (key = OPTION_MAX_COMMIT_DELAY) then max_commit_delay_string (request self)
  else if decide (key = OPTION_COMMIT_STATS) then Some (commit_stats_string (request self))
  else if decide (key = OPTION_EXCLUDE_TXN_FROM_CHANGE_STREAMS) then
    Some (exclude_txn_from_change_streams_string (request self))
  else if decide (key = OPTION_COMMIT_STATS_MUTATION_COUNT) then
    show_Z <$> mutation_count h (commit_stats self)
  else if decide (key = OPTION_QUERY_OPTIMIZER_VERSION) then optimizer_version (query_options self)
  else if decide (key = OPTION_QUERY_OPTIMIZER_STATISTICS_PACKAGE) then
    optimizer_statistics_package (query_options self)
  else if decide (key = OPTION_MAX_TIMESTAMP_PRECISION) then Some (as_str (timestamp_precision self))
  else if decide (key = OPTION_RPC_TIMEOUT_QUERY) then show_f64 <$> query (timeouts self)
  else if decide (key = OPTION_RPC_TIMEOUT_UPDATE) then show_f64 <$> update (timeouts self)
  else if decide (key = OPTION_RPC_TIMEOUT_FETCH) then show_f64 <$> fetch (timeouts self)
  else if decide (key = OPTION_RETRY_MAX_ATTEMPTS) then show_Z <$> max_attempts (retry self)
  else if decide (key = OPTION_RETRY_MAX_ELAPSED_SECONDS) then
    show_f64 <$> max_elapsed_seconds (retry self)
  else if decide (key = OPTION_RETRY_BACKOFF_INITIAL_SECONDS) then
    show_f64 <$> backoff_initial_seconds (retry self)
  else if decide (key = OPTION_RETRY_BACKOFF_MAX_SECONDS) then
    show_f64 <$> backoff_max_seconds (retry self)
  else if decide (key = OPTION_RETRY_BACKOFF_MULTIPLIER) then
    show_f64 <$> backoff_multiplier (retry self)
  else None.

Definition shared_option_string (h : Cells) (key : rstr) : Result rstr :=
  ok_or (shared_option_value h key) (option_not_set key).

End SharedConfig.
