(* ===== verification/ConfigFacts.v ===== *)
(** * Properties of the configuration

    The option setters keep every configuration well formed, change only the
    option they are given, and accept back what the getters report; the flag and
    the statistics of [SharedConfig] are shared and separate as intended. *)

From Stdlib Require Import SpecFloat.
From S2P Require Import Prelude RustStr RustNum ErrorModel Options DirectedRead Staleness Config.

(** ** What an accepted number satisfies *)

Definition f64_in_range (range : F64Range) (x : f64) : Prop :=
  f64_is_finite x = true /\
  match range with
  | NonNegativeSeconds => f64_leb (S754_zero false) x = true
  | _ => f64_ltb (S754_zero false) x = true
  end /\
  (range <> PositiveFactor -> is_Some (duration_try_from_secs_f64 x)).

Lemma f64_option_in_range v w range x :
  f64_option v w range = Ok (Some x) -> f64_in_range range x.
Proof.
  unfold f64_option. destruct (match range with PositiveSeconds => _ | _ => _ end) as [b u].
  set (check := fun n : f64 => _).
  assert (forall n, check n = Ok (Some x) -> f64_in_range range x) as Hc.
  { intros n. unfold check. case_decide as H1; [done|]. case_decide as H2; [done|].
    intros [= <-]. split_and!.
    - apply not_false_is_true. tauto.
    - destruct range; apply not_false_is_true; tauto.
    - intros Hr. destruct (duration_try_from_secs_f64 n); naive_solver. }
  destruct v; [|done|apply Hc..]. case_decide; [done|].
  intros Hx. inv_bind Hx. by eapply Hc.
Qed.

Lemma parse_max_attempts_range v n : parse_max_attempts v = Ok (Some n) -> (1 <= n <= u32_max)%Z.
Proof.
  unfold parse_max_attempts. set (check := fun a : Z => _).
  assert (forall a, check a = Ok (Some n) -> (1 <= n <= u32_max)%Z) as Hc.
  { intros a. unfold check. case_decide; [|done]. by intros [= <-]. }
  destruct v; [|done|apply Hc|case_match; [apply Hc|done]].
  case_decide; [done|]. intros Hx. inv_bind Hx. by eapply Hc.
Qed.

(** ** Well-formed configurations *)

Definition opt_in_range (range : F64Range) (o : option f64) : Prop :=
  forall x, o = Some x -> f64_in_range range x.

Record retry_wf (r : RetryConfig) : Prop := {
  rw_attempts : forall n, max_attempts r = Some n -> (1 <= n <= u32_max)%Z;
  rw_elapsed : opt_in_range PositiveSeconds (max_elapsed_seconds r);
  rw_initial : opt_in_range PositiveSeconds (backoff_initial_seconds r);
  rw_max : opt_in_range PositiveSeconds (backoff_max_seconds r);
  rw_multiplier : opt_in_range PositiveFactor (backoff_multiplier r);
}.

Record timeouts_wf (t : RpcTimeouts) : Prop := {
  tw_query : opt_in_range NonNegativeSeconds (query t);
  tw_update : opt_in_range NonNegativeSeconds (update t);
  tw_fetch : opt_in_range NonNegativeSeconds (fetch t);
}.

Record request_wf (r : RequestConfig) : Prop := {
  qw_priority : RawParsed_wf parse_priority (priority r);
  qw_request_tag : request_tag r <> Some [];
  qw_transaction_tag : transaction_tag r <> Some [];
  qw_delay : RawParsed_wf parse_max_commit_delay (max_commit_delay r);
}.

Record config_wf (rfc : rstr -> DateTime + rstr) (c : SharedConfig) : Prop := {
  cw_staleness : RawParsed_wf (parse_read_bound rfc) (read_staleness c);
  cw_directed : RawParsed_wf parse (directed_read c);
  cw_request : request_wf (request c);
  cw_version : optimizer_version (query_options c) <> Some [];
  cw_package : optimizer_statistics_package (query_options c) <> Some [];
  cw_timeouts : timeouts_wf (timeouts c);
  cw_retry : retry_wf (retry c);
}.

(** A configuration a connection or a statement can hold: the default, changed
    by the option setters and copied by [inherit]. *)
Inductive reachable (rfc : rstr -> DateTime + rstr) : SharedConfig -> Prop :=
  | reach_default h : reachable rfc (SharedConfig_default h).2
  | reach_shared c key v : reachable rfc c -> reachable rfc (set_shared_option c rfc key v).1
  | reach_transaction_tag c v :
      reachable rfc c -> reachable rfc (with_request c (set_transaction_tag (request c) v).1)
  | reach_isolation c l : reachable rfc c -> reachable rfc (with_isolation c l)
  | reach_inherit h c : reachable rfc c -> reachable rfc (inherit h c).2.

(** ** Preservation *)

Lemma assign_ind {S A} (P : S -> Prop) (self : S) (r : Result A) (f : A -> S) :
  P self -> (forall a, r = Ok a -> P (f a)) -> P (assign self r f).1.
Proof. destruct r; cbn; auto. Qed.

Lemma upd_fst {S F} (r : F * Result unit) (f : F -> S) : (upd r f).1 = f r.1.
Proof. by destruct r. Qed.

Lemma opt_in_range_set v w range o : f64_option v w range = Ok o -> opt_in_range range o.
Proof. intros H x ->. by eapply f64_option_in_range. Qed.

Lemma non_empty_set v w o : non_empty_string_option v w = Ok o -> o <> Some [].
Proof. intros H ->. by apply non_empty_string_option_inv in H as []. Qed.

#[local] Hint Resolve opt_in_range_set non_empty_set RawParsed_set_wf : core.

Lemma request_wf_priority r v : request_wf r -> request_wf (set_priority r v).1.
Proof. intros []. unfold set_priority. rewrite upd_fst. split; cbn; auto. Qed.

Lemma request_wf_delay r v : request_wf r -> request_wf (set_max_commit_delay r v).1.
Proof. intros []. unfold set_max_commit_delay. rewrite upd_fst. split; cbn; auto. Qed.

Lemma request_wf_request_tag r v : request_wf r -> request_wf (set_request_tag r v).1.
Proof. intros H. unfold set_request_tag. apply (assign_ind request_wf); [done|]. intros a Ha. destruct H. split; cbn; eauto. Qed.

Lemma request_wf_transaction_tag r v : request_wf r -> request_wf (set_transaction_tag r v).1.
Proof. intros H. unfold set_transaction_tag. apply (assign_ind request_wf); [done|]. intros a Ha. destruct H. split; cbn; eauto. Qed.

Lemma request_wf_stats r v : request_wf r -> request_wf (set_commit_stats r v).1.
Proof. intros H. unfold set_commit_stats. apply (assign_ind request_wf); [done|]. intros a Ha. by destruct H. Qed.

Lemma request_wf_exclude r v : request_wf r -> request_wf (set_exclude_txn_from_change_streams r v).1.
Proof. intros H. unfold set_exclude_txn_from_change_streams. apply (assign_ind request_wf); [done|]. intros a Ha. by destruct H. Qed.

#[local] Hint Resolve request_wf_priority request_wf_delay request_wf_request_tag
  request_wf_transaction_tag request_wf_stats request_wf_exclude : core.

Lemma retry_wf_attempts r v : retry_wf r -> retry_wf (set_max_attempts r v).1.
Proof.
  intros H. unfold set_max_attempts. apply (assign_ind retry_wf); [done|].
  intros a Ha. destruct H. split; cbn; auto. intros n ->. by eapply parse_max_attempts_range.
Qed.

#[local] Hint Resolve retry_wf_attempts : core.

Lemma config_wf_arm rfc c key v p :
  config_wf rfc c -> set_shared_arm c rfc key v = Some p -> config_wf rfc p.1.
Proof.
  intros Hc. unfold set_shared_arm.
  repeat (case_decide; [intros [= <-]; try (apply (assign_ind (config_wf rfc)); [done|intros a Ha]);
    rewrite ?upd_fst; destruct Hc; split; cbn; eauto|]); [..|done].
  1,2: by apply RawParsed_set_wf.
  all: match goal with
       | H : timeouts_wf _ |- timeouts_wf _ => destruct H
       | H : retry_wf _ |- retry_wf _ => destruct H
       end; split; cbn; eauto.
Qed.

Lemma config_wf_reachable rfc c : reachable rfc c -> config_wf rfc c.
Proof.
  induction 1 as [h|c key v _ IH|c v _ IH|c l _ IH|h c _ IH].
  - by repeat split.
  - unfold set_shared_option. destruct (set_shared_arm c rfc key v) as [[c' r]|] eqn:E; [|done].
    by apply (config_wf_arm _ _ _ _ _ IH E).
  - destruct IH. split; cbn; eauto.
  - by destruct IH.
  - by destruct IH.
Qed.

Lemma positive_seconds_duration range x :
  range <> PositiveFactor -> f64_in_range range x ->
  exists d, duration_try_from_secs_f64 x = Some d /\ (0 <= d < 2 ^ 64 * NANOS_PER_SEC)%Z.
Proof. intros Hr (_ & _ & Hd). destruct (Hd Hr) as [d Hd']. exists d. split; [done|]. by eapply duration_bounds. Qed.

Lemma from_secs_f64_opt_total o :
  opt_in_range PositiveSeconds o -> is_Some (from_secs_f64_opt o).
Proof.
  intros H. destruct o as [x|]; cbn; [|done].
  destruct (positive_seconds_duration PositiveSeconds x) as (d & -> & _); [done|by apply H|done].
Qed.

Lemma as_duration_timeout o :
  opt_in_range NonNegativeSeconds o ->
  forall x, o = Some x -> f64_ltb (S754_zero false) x = true -> is_Some (as_duration o).
Proof.
  intros H x -> Hx. cbn. rewrite Hx.
  destruct (positive_seconds_duration NonNegativeSeconds x) as (d & -> & _); [done|by apply H|done].
Qed.

(** ** Properties *)

(** C16: every configuration the option setters can produce is usable.  Whatever
    values were set (on the connection or on a statement that inherited from it),
    the backoff settings convert to durations without panicking, a positive RPC
    timeout always becomes a deadline (it is never silently dropped), a retry
    budget is at least one attempt and fits [u32], a commit delay is within
    Spanner's 500 ms, and every parsed option agrees with the text kept beside
    it. *)
Theorem reachable_config_usable rfc c :
  reachable rfc c ->
  is_Some (backoff_policy_arg (retry c)) /\
  (forall o x, o ∈ [query (timeouts c); update (timeouts c); fetch (timeouts c)] ->
     o = Some x -> f64_ltb (S754_zero false) x = true -> is_Some (as_duration o)) /\
  (forall s, max_elapsed_seconds (retry c) = Some s -> is_Some (max_elapsed_duration (retry c))) /\
  (forall n, max_attempts (retry c) = Some n -> (1 <= n <= u32_max)%Z) /\
  (forall d, rp_parsed (max_commit_delay (request c)) = Some d -> (0 <= d <= MAX_COMMIT_DELAY_CAP)%Z) /\
  RawParsed_wf (parse_read_bound rfc) (read_staleness c) /\
  RawParsed_wf parse (directed_read c) /\
  RawParsed_wf parse_priority (priority (request c)).
Proof.
  intros Hr%config_wf_reachable. destruct Hr as [? ? [? ? ? Hdelay] ? ? [] [Hn ? ? ? ?]].
  split_and!; try done.
  - unfold backoff_policy_arg. case_decide; [done|].
    destruct (from_secs_f64_opt_total (backoff_initial_seconds (retry c))) as [i ->]; [done|].
    destruct (from_secs_f64_opt_total (backoff_max_seconds (retry c))) as [m ->]; done.
  - intros o x Ho. apply as_duration_timeout. set_solver.
  - intros s Hs. unfold max_elapsed_duration. rewrite Hs. cbn.
    destruct (positive_seconds_duration PositiveSeconds s) as (d & -> & _); [done|by auto|done].
  - intros d Hd. unfold RawParsed_wf in Hdelay. rewrite Hd in Hdelay.
    destruct (rp_raw _); [|done]. destruct Hdelay as (_ & _ & Hp).
    unfold parse_max_commit_delay in Hp. inv_bind Hp.
    apply parse_duration_for_bounds in E. case_decide; [done|]. simplify_eq. lia.
Qed.

(** ** Setting one option *)

(** A rejected value leaves the object that was to hold it as it was. *)
Lemma assign_err {S A} (self : S) (r : Result A) f e : (assign self r f).2 = Err e -> (assign self r f).1 = self.
Proof. by destruct r. Qed.

Lemma assign_err_eq {S A} (self s' : S) (r : Result A) f e : assign self r f = (s', Err e) -> s' = self.
Proof. destruct r; intros; by simplify_eq/=. Qed.

Lemma set_shared_arm_err rfc c key v c' e :
  set_shared_arm c rfc key v = Some (c', Err e) -> c' = c.
Proof.
  assert (forall {F} (r : F * Result unit) (g : F -> SharedConfig),
    (forall f, r = (f, Err e) -> g f = c) -> Some (upd r g) = Some (c', Err e) -> c' = c) as Hupd.
  { intros F [f [u|e']] g Hg; cbn; [done|]. intros [= <- <-]. by apply Hg. }
  assert (forall A (r : Result A) g, Some (assign c r g) = Some (c', Err e) -> c' = c) as Hass.
  { intros A [a|e'] g; cbn; [done|]. by intros [= <- _]. }
  unfold set_shared_arm. destruct c as [ro iso [rr rp] [pr rt tt md cs ex] [dr dp] [qv qp] tp
    [tq tu tf] [ma me bi bm bf] st]; cbn [read_staleness request directed_read query_options
    timestamp_precision timeouts retry].
  repeat (case_decide; [first [apply Hass | apply Hupd; intros f Hf]|]); [..|done].
  all: try (apply RawParsed_set_err in Hf as ->; done).
  all: try (unfold set_priority, set_max_commit_delay, upd in Hf; cbn in Hf;
            destruct (RawParsed_set _ _ _ _) as [r' []] eqn:Er; simplify_eq;
            apply RawParsed_set_err in Er as ->; done).
  all: apply assign_err_eq in Hf as ->; done.
Qed.

(** The getters see a change only under the key that was set. *)
Lemma set_shared_arm_frame rfc h c key v p key' :
  set_shared_arm c rfc key v = Some p -> key' <> key ->
  shared_option_value p.1 h key' = shared_option_value c h key'.
Proof.
  intros H Hne.
  assert (forall A (r : Result A) g,
    (forall a, shared_option_value (g a) h key' = shared_option_value c h key') ->
    shared_option_value (assign c r g).1 h key' = shared_option_value c h key') as Hass.
  { intros A [a|e] g Hg; [apply Hg|done]. }
  unfold set_shared_arm in H.
  repeat (case_decide; [subst key; injection H as <-|]); [..|done].
  all: try (apply Hass; intros a); rewrite ?upd_fst.
  all: unfold set_priority, set_max_commit_delay, set_request_tag, set_commit_stats, set_exclude_txn_from_change_streams, set_max_attempts;
    rewrite ?upd_fst; try (destruct (assign _ _ _) as [x y] eqn:Ea; unfold assign in Ea; case_match;
                          injection Ea as <- _).
  all: unfold shared_option_value; repeat (case_decide; [done || contradiction|]); done.
Qed.

Lemma set_shared_arm_cells rfc c key v p :
  set_shared_arm c rfc key v = Some p ->
  read_only p.1 = read_only c /\ isolation p.1 = isolation c /\ commit_stats p.1 = commit_stats c.
Proof.
  unfold set_shared_arm.
  repeat (case_decide; [intros [= <-]; first [by rewrite upd_fst
    | by apply (assign_ind (fun c' => read_only c' = read_only c /\ isolation c' = isolation c
                                      /\ commit_stats c' = commit_stats c))]|]); done.
Qed.

(** Setting a shared option is atomic and local.  A rejected value, and a key
    that is not shared, leave the whole configuration as it was; an accepted one
    changes what [get_option] reports under that key only, and never the
    read-only flag, the isolation level or the commit-statistics cell. *)
Theorem set_shared_option_local rfc c key v :
  let '(c', r) := set_shared_option c rfc key v in
  ((forall e, r = Err e -> c' = c) /\ (r = Ok None -> c' = c)) /\
  (forall h key', key' <> key -> shared_option_string c' h key' = shared_option_string c h key') /\
  read_only c' = read_only c /\ isolation c' = isolation c /\ commit_stats c' = commit_stats c.
Proof.
  unfold set_shared_option. destruct (set_shared_arm c rfc key v) as [[c' r]|] eqn:E; [|done].
  split_and!.
  - intros e He. destruct r; [done|]. simplify_eq/=. by eapply set_shared_arm_err.
  - by destruct r.
  - intros h key' Hne. unfold shared_option_string. by rewrite (set_shared_arm_frame _ _ _ _ _ _ _ E).
  - by apply (set_shared_arm_cells _ _ _ _ _ E).
  - by apply (set_shared_arm_cells _ _ _ _ _ E).
  - by apply (set_shared_arm_cells _ _ _ _ _ E).
Qed.

(** ** Reading back what was set *)

(** The shared options whose value is reported as text or as an integer (the
    remaining ones are [f64] seconds and factors). *)
Definition textual_keys : list rstr :=
  [OPTION_READ_STALENESS; OPTION_REQUEST_PRIORITY; OPTION_REQUEST_TAG; OPTION_DIRECTED_READ;
   OPTION_MAX_COMMIT_DELAY; OPTION_COMMIT_STATS; OPTION_EXCLUDE_TXN_FROM_CHANGE_STREAMS;
   OPTION_QUERY_OPTIMIZER_VERSION; OPTION_QUERY_OPTIMIZER_STATISTICS_PACKAGE;
   OPTION_MAX_TIMESTAMP_PRECISION; OPTION_RETRY_MAX_ATTEMPTS].

Lemma parse_max_attempts_show n :
  (1 <= n <= u32_max)%Z -> parse_max_attempts (OString (show_Z n)) = Ok (Some n).
Proof.
  intros Hn. unfold parse_max_attempts.
  assert (show_Z n = show_N (Z.to_N n)) as E by (unfold show_Z; by rewrite decide_False by lia).
  assert (trim (show_Z n) = show_Z n) as ->.
  { apply clean_trim, clean_no_ws. rewrite E. eapply Forall_impl; [apply show_N_digits|].
    apply digit_not_whitespace. }
  rewrite decide_False by (rewrite E; apply show_N_nonnil).
  rewrite parse_show_i64; [|apply bool_decide_eq_true; unfold i64_min, i64_max, u32_max in *; lia].
  unfold ok_or, mbind, Result_mbind. by rewrite decide_True.
Qed.

Lemma parse_option_as_str p : parse_option (OString (as_str p)) = Ok p.
Proof. by destruct p. Qed.

(** What [get_option] reports for a shared option can be set again: for every
    reachable configuration and every textual key, writing the reported string
    back is accepted and gives the very same configuration. *)
Theorem get_then_set_is_identity rfc c h key s :
  reachable rfc c -> key ∈ textual_keys -> shared_option_string c h key = Ok s ->
  set_shared_option c rfc key (OString s) = (c, Ok (Some tt)).
Proof.
  intros Hc%config_wf_reachable Hk Hs.
  destruct (shared_option_value c h key) as [s'|] eqn:Hv;
    unfold shared_option_string in Hs; rewrite Hv in Hs; [|done]. injection Hs as ->.
  destruct Hc as [Hst Hdr [Hpr Hrt Htt Hmd] Hov Hop Hto [Hma _ _ _ _]].
  destruct c as [ro iso st [pr rt tt' md cs ex] dr [qv qp] tp to [ma me bi bm bf] cst].
  cbn [read_staleness directed_read request query_options timestamp_precision retry
       priority request_tag max_commit_delay optimizer_version optimizer_statistics_package
       max_attempts] in *.
  unfold set_shared_option.
  unfold textual_keys in Hk. rewrite !elem_of_cons in Hk.
  repeat destruct Hk as [->|Hk]; [..|by apply elem_of_nil in Hk];
    unfold shared_option_value in Hv; repeat (rewrite decide_False in Hv by done);
    rewrite decide_True in Hv by done; cbn in Hv; unfold staleness_string, priority_string,
    request_tag_string, option_string, max_commit_delay_string in Hv; cbn in Hv; simplify_eq.
  all: unfold set_shared_arm; repeat (rewrite decide_False by done); rewrite decide_True by done.
  - unfold set_staleness. by erewrite RawParsed_set_raw.
  - unfold set_priority. by erewrite RawParsed_set_raw.
  - unfold set_request_tag. rewrite non_empty_string_option_Some by (by intros ->). done.
  - unfold DirectedRead_set. by erewrite RawParsed_set_raw.
  - unfold set_max_commit_delay. by erewrite RawParsed_set_raw.
  - unfold set_commit_stats. by destruct cs.
  - unfold set_exclude_txn_from_change_streams. by destruct ex.
  - rewrite non_empty_string_option_Some by (by intros ->). done.
  - rewrite non_empty_string_option_Some by (by intros ->). done.
  - by rewrite parse_option_as_str.
  - destruct ma as [n|]; simplify_eq/=. unfold set_max_attempts. by rewrite parse_max_attempts_show by auto.
Qed.

Lemma get_then_set_is_identity_witness :
  let rfc := fun _ : rstr => inr (str "no") in
  let h := mkCells ∅ ∅ in
  let c := (set_shared_option (SharedConfig_default h).2 rfc OPTION_RETRY_MAX_ATTEMPTS (OInt 7)).1 in
  shared_option_string c h OPTION_RETRY_MAX_ATTEMPTS = Ok (str "7") /\
  set_shared_option c rfc OPTION_RETRY_MAX_ATTEMPTS (OString (str "7")) = (c, Ok (Some tt)).
Proof.
  intros rfc h c. split; [by vm_compute|].
  apply (get_then_set_is_identity rfc c h); [|unfold textual_keys; set_solver|by vm_compute].
  exact (reach_shared rfc _ _ _ (reach_default rfc h)).
Defined.

Lemma reachable_config_usable_witness :
  let rfc := fun _ : rstr => inr (str "no") in
  let h := mkCells ∅ ∅ in
  let c := (set_shared_option (SharedConfig_default h).2 rfc
              OPTION_RETRY_BACKOFF_INITIAL_SECONDS (OString (str "0.25"))).1 in
  backoff_policy_arg (retry c) = Some (Some (mkBackoff (Some 250000000%Z) None None)) /\
  is_Some (backoff_policy_arg (retry c)).
Proof.
  intros rfc h c. split; [by vm_compute|].
  exact (proj1 (reachable_config_usable rfc c (reach_shared rfc _ _ _ (reach_default rfc h)))).
Defined.

(** ** The aliased and the fresh cell of [inherit] *)

(** A statement shares its connection's read-only flag and nothing else that
    can change.  After [inherit] the statement starts from the connection's
    options with no commit statistics of its own; a later change of the flag on
    either object is seen by both; and statistics recorded by one are never seen
    by the other. *)
Theorem inherit_aliasing h conn (b : bool) (n : Z) :
  is_Some (counts h !! commit_stats conn) ->
  let '(h', stmt) := inherit h conn in
  is_read_only h' stmt = is_read_only h' conn /\
  is_read_only (store_read_only h' conn b) stmt = b /\
  is_read_only (store_read_only h' stmt b) conn = b /\
  mutation_count h' (commit_stats stmt) = None /\
  mutation_count h' (commit_stats conn) = mutation_count h (commit_stats conn) /\
  mutation_count (record h' (commit_stats stmt) (Some n)) (commit_stats conn)
    = mutation_count h (commit_stats conn) /\
  mutation_count (record h' (commit_stats conn) (Some n)) (commit_stats stmt) = None /\
  mutation_count (record h' (commit_stats stmt) (Some n)) (commit_stats stmt) = Some n /\
  (forall key, key <> OPTION_COMMIT_STATS_MUTATION_COUNT ->
     shared_option_string stmt h' key = shared_option_string conn h key).
Proof.
  intros Hc. unfold inherit. set (cell := fresh (dom (counts h))).
  assert (cell <> commit_stats conn) as Hne.
  { intros E. pose proof (is_fresh (dom (counts h))) as Hf. apply Hf.
    fold cell. rewrite E. by apply elem_of_dom. }
  unfold is_read_only, store_read_only, mutation_count, record; cbn.
  rewrite !lookup_insert_eq. repeat (rewrite lookup_insert_ne by done). rewrite ?lookup_insert_eq.
  split_and!; try done.
  intros key Hk. unfold shared_option_string, shared_option_value.
  by rewrite !(decide_False (P := key = OPTION_COMMIT_STATS_MUTATION_COUNT)) by done.
Qed.

Lemma inherit_aliasing_witness :
  let '(h, conn) := SharedConfig_default (mkCells ∅ ∅) in
  let '(h', stmt) := inherit h conn in
  is_read_only (store_read_only h' conn true) stmt = true.
Proof.
  pose proof (inherit_aliasing (SharedConfig_default (mkCells ∅ ∅)).1
                (SharedConfig_default (mkCells ∅ ∅)).2 true 0) as H.
  cbn -[inherit] in H. apply H. exists None. by vm_compute.
Defined.

(** ** The commit delay *)

(** Every whole number of milliseconds up to 500 is accepted as exactly that
    commit delay, and every one from 501 to 1000 is rejected, in spite of the
    binary floating-point arithmetic in between. *)
Theorem max_commit_delay_milliseconds (n : nat) :
  (n <= 1000)%nat ->
  parse_max_commit_delay (show_Z (Z.of_nat n) ++ str "ms") =
    if decide (n <= 500)%nat then Ok (Z.of_nat n * 1000000)%Z
    else Err (invalid_argument [Lit "spanner.commit.max_delay ";
                                Dbg (show_Z (Z.of_nat n) ++ str "ms");
                                Lit " exceeds Spanner's maximum of 500ms"]).
Proof.
  intros Hn. assert (forall k, (k <= 1000)%nat ->
    (match parse_duration (show_Z (Z.of_nat k) ++ str "ms") with
     | Ok d => bool_decide (d = Z.of_nat k * 1000000)%Z
     | Err _ => false end) = true) as H.
  { assert (forallb (fun k => match parse_duration (show_Z (Z.of_nat k) ++ str "ms") with
     | Ok d => bool_decide (d = Z.of_nat k * 1000000)%Z
     | Err _ => false end) (seq 0 1001) = true) as Hall by (by vm_compute).
    rewrite forallb_forall in Hall. intros k Hk. apply Hall, in_seq. lia. }
  specialize (H n Hn). unfold parse_max_commit_delay.
  destruct (parse_duration _); [|done]. apply bool_decide_eq_true in H as ->.
  unfold mbind, Result_mbind, MAX_COMMIT_DELAY_CAP.
  destruct (decide (n <= 500)%nat); [rewrite decide_False by lia | rewrite decide_True by lia]; done.
Qed.

Lemma max_commit_delay_milliseconds_witness :
  parse_max_commit_delay (str "250ms") = Ok 250000000%Z.
Proof. apply (max_commit_delay_milliseconds 250). lia. Defined.

(** A malformed [spanner.commit.max_delay] is rejected with an error that
    names [spanner.read.staleness], not the option that was set: the delay is
    parsed by the wrapper that is reserved for the staleness option. *)
Theorem max_commit_delay_rejection_names_staleness v e :
  parse_duration v = Err e ->
  parse_max_commit_delay v = Err e /\
  exists rest, message e = Lit "option " :: Disp OPTION_READ_STALENESS :: rest.
Proof.
  intros H. split; [unfold parse_max_commit_delay; by rewrite H|].
  unfold parse_duration, parse_duration_for in H. case_match. revert H.
  destruct (parse_f64 _); cbn; [|intros [= <-]; by eexists].
  case_decide; [intros [= <-]; by eexists|].
  destruct (duration_try_from_secs_f64 _); cbn; [done|]. intros [= <-]. by eexists.
Qed.

Lemma max_commit_delay_rejection_names_staleness_witness :
  exists e, parse_max_commit_delay (str "1x") = Err e /\
    exists rest, message e = Lit "option " :: Disp OPTION_READ_STALENESS :: rest.
Proof.
  destruct (parse_duration (str "1x")) as [d|e] eqn:E; [by vm_compute in E|].
  exists e. exact (max_commit_delay_rejection_names_staleness _ _ E).
Defined.
