(* ===== verification/SqlLex.v ===== *)
(** * The lexer of [src/sql.rs] refines a reference scanner

    [scan] reads one lexeme off a list of chars, with no positions and no slices.
    [next_scan] shows the iterator of [Sql] computes it, without ever panicking;
    [lexemes_cons] unfolds the drained iterator with it.  The rest of the file is
    what the consumers' proofs need of [scan]: it partitions the input and it is
    local, i.e. a lexeme is found again wherever its text is followed by the same
    char or by the end of the input. *)

From S2P Require Import Prelude RustStr ErrorModel Sql.

(** ** The reference scanner *)

(** Each helper returns what it consumes and what is left. *)
Definition consing (c : char) (p : rstr * rstr) : rstr * rstr := (c :: p.1, p.2).

Fixpoint qscan (quote : char) (triple : bool) (run : nat) (cs : rstr) : rstr * rstr :=
  match cs with
  | [] => ([], [])
  | ch :: cs =>
      if decide (ch = cBSLASH) then
        match cs with
        | [] => ([ch], [])
        | e :: cs => consing ch (consing e (qscan quote triple 0 cs))
        end
      else if decide (ch = quote) then
        if negb triple then ([ch], cs)
        else if decide (run + 1 = 3) then ([ch], cs)
        else consing ch (qscan quote triple (run + 1) cs)
      else consing ch (qscan quote triple 0 cs)
  end.

Definition quoted_scan (quote : char) (cs : rstr) : rstr * rstr :=
  if decide (quote <> cBTICK /\ head cs = Some quote) then
    if decide (head (tail cs) = Some quote)
    then consing quote (consing quote (qscan quote true 0 (tail (tail cs))))
    else ([quote], tail cs)
  else qscan quote false 0 cs.

Fixpoint line_scan (cs : rstr) : rstr * rstr :=
  match cs with
  | [] => ([], [])
  | ch :: cs => if decide (ch = cNL) then ([ch], cs) else consing ch (line_scan cs)
  end.

Fixpoint block_scan (prev : char) (cs : rstr) : rstr * rstr :=
  match cs with
  | [] => ([], [])
  | ch :: cs => if decide (prev = cSTAR /\ ch = cSLASH) then ([ch], cs)
                else consing ch (block_scan ch cs)
  end.

Abbreviation is_quote c := (c = cSQ \/ c = cDQ \/ c = cBTICK).

Definition tok (k : rstr -> Lexeme) (c : char) (p : rstr * rstr) : Lexeme * rstr :=
  (k (c :: p.1), p.2).

Definition scan (s : rstr) : option (Lexeme * rstr) :=
  match s with
  | [] => None
  | c :: cs =>
      Some (if decide (is_quote c) then tok Quoted c (quoted_scan c cs)
            else if decide (c = cDASH /\ head cs = Some cDASH) then tok Comment c (line_scan cs)
            else if decide (c = cHASH) then tok Comment c (line_scan cs)
            else if decide (c = cSLASH /\ head cs = Some cSTAR)
                 then tok Comment c (consing cSTAR (block_scan 0 (tail cs)))
            else if is_ident_char c
                 then tok Word c (take_while is_ident_char cs, drop_while is_ident_char cs)
            else (Other c, cs))
  end.

(** ** The source's loops compute the scanner's *)

Lemma quoted_loop_qscan {S} (sink : char -> S -> S) quote triple run cs acc :
  quoted_loop sink quote triple run cs acc =
  let '(k, r) := qscan quote triple run cs in (r, foldl (flip sink) acc k).
Proof.
  remember (length cs) as n eqn:Hn. assert (Hle : length cs <= n) by lia. clear Hn.
  revert run cs acc Hle. induction n as [|n IH]; intros run cs acc Hle.
  - destruct cs; [done | cbn in Hle; lia].
  - destruct cs as [|ch cs]; [done|]. cbn in Hle |- *. case_decide.
    + destruct cs as [|e cs]; [done|]. cbn in Hle. rewrite IH by lia.
      by destruct (qscan quote triple 0 cs).
    + case_decide; [destruct (negb triple); [done|]; case_decide; [done|]|];
        rewrite IH by lia; by destruct (qscan _ _ _ _).
Qed.

Lemma consume_quoted_scan {S} cs quote (sink : char -> S -> S) acc :
  consume_quoted cs quote sink acc =
  let '(k, r) := quoted_scan quote cs in (r, foldl (flip sink) acc k).
Proof.
  unfold consume_quoted, quoted_scan. case_decide as H1.
  - case_decide; [|done]. rewrite quoted_loop_qscan. by destruct (qscan _ _ _ _).
  - apply quoted_loop_qscan.
Qed.

Lemma foldl_len_utf8 n k :
  foldl (flip (fun ch n => n + len_utf8 ch)) n k = n + utf8_len k.
Proof.
  revert n. induction k as [|c k IH]; intros n; cbn; [rewrite utf8_len_nil; lia|].
  rewrite IH, utf8_len_cons. lia.
Qed.

Lemma line_comment_scan cs p :
  line_comment_loop cs p = let '(k, r) := line_scan cs in (r, p + utf8_len k).
Proof.
  revert p. induction cs as [|c cs IH]; intros p; cbn; [by rewrite utf8_len_nil, Nat.add_0_r|].
  case_decide; [by rewrite utf8_len_cons, utf8_len_nil, Nat.add_0_r|]. rewrite IH.
  destruct (line_scan cs) as [k r]; cbn. by rewrite utf8_len_cons, Nat.add_assoc.
Qed.

Lemma block_comment_scan prev cs p :
  block_comment_loop prev cs p = let '(k, r) := block_scan prev cs in (r, p + utf8_len k).
Proof.
  revert prev p. induction cs as [|c cs IH]; intros prev p; cbn; [by rewrite utf8_len_nil, Nat.add_0_r|].
  case_decide; [by rewrite utf8_len_cons, utf8_len_nil, Nat.add_0_r|]. rewrite IH.
  destruct (block_scan c cs) as [k r]; cbn. by rewrite utf8_len_cons, Nat.add_assoc.
Qed.

Lemma word_loop_scan cs p :
  word_loop cs p =
  (drop_while is_ident_char cs, p + utf8_len (take_while is_ident_char cs)).
Proof.
  revert p. induction cs as [|c cs IH]; intros p; cbn; [by rewrite utf8_len_nil, Nat.add_0_r|].
  destruct (is_ident_char c); cbn; [|by rewrite utf8_len_nil, Nat.add_0_r].
  by rewrite IH, utf8_len_cons, Nat.add_assoc.
Qed.

(** ** The scanner partitions its input *)

Lemma qscan_app quote triple run cs :
  (qscan quote triple run cs).1 ++ (qscan quote triple run cs).2 = cs.
Proof.
  remember (length cs) as n eqn:Hn. assert (Hle : length cs <= n) by lia. clear Hn.
  revert run cs Hle. induction n as [|n IH]; intros run cs Hle.
  - destruct cs; [done | cbn in Hle; lia].
  - destruct cs as [|ch cs]; [done|]. cbn in Hle |- *.
    case_decide; [destruct cs as [|e cs]; cbn in *; [done|]; by rewrite IH by lia|].
    case_decide; [destruct (negb triple); [done|]; case_decide; [done|]|];
      cbn; by rewrite IH by lia.
Qed.

Lemma quoted_scan_app quote cs : (quoted_scan quote cs).1 ++ (quoted_scan quote cs).2 = cs.
Proof.
  unfold quoted_scan. case_decide as H1; [|apply qscan_app].
  destruct H1 as [_ H1]. destruct cs as [|a cs]; simplify_eq/=.
  case_decide as H2; [|done]. destruct cs as [|b cs]; simplify_eq/=. by rewrite qscan_app.
Qed.

Lemma line_scan_app cs : (line_scan cs).1 ++ (line_scan cs).2 = cs.
Proof. induction cs as [|c cs IH]; cbn; [done|]. case_decide; cbn; congruence. Qed.

Lemma block_scan_app prev cs : (block_scan prev cs).1 ++ (block_scan prev cs).2 = cs.
Proof.
  revert prev. induction cs as [|c cs IH]; intros prev; cbn; [done|].
  case_decide; cbn; [done|]. by rewrite IH.
Qed.

Lemma scan_app s x r : scan s = Some (x, r) -> text x ++ r = s.
Proof.
  destruct s as [|c cs]; cbn; [done|]. intros H. simplify_eq.
  repeat case_decide; unfold tok in *; simplify_eq/=.
  - by rewrite quoted_scan_app.
  - by rewrite line_scan_app.
  - by rewrite line_scan_app.
  - destruct_and!. destruct cs as [|d cs]; simplify_eq/=. by rewrite block_scan_app.
  - destruct (is_ident_char c); simplify_eq/=; [by rewrite take_drop_while | done].
Qed.

Lemma text_nonnil s x r : scan s = Some (x, r) -> text x <> [].
Proof.
  destruct s as [|c cs]; cbn; [done|]. intros H. simplify_eq.
  repeat (case_decide || split_match); unfold tok in *; by simplify_eq/=.
Qed.

Lemma scan_length s x r : scan s = Some (x, r) -> length r < length s.
Proof.
  intros H. pose proof (scan_app _ _ _ H) as <-. apply text_nonnil in H.
  rewrite length_app. destruct (text x); [done|]. cbn. lia.
Qed.

Lemma scan_None s : scan s = None <-> s = [].
Proof. by destruct s. Qed.

(** ** The iterator computes the scanner, without panicking *)

(** The invariant of a [Lexer]: what was consumed, and the byte offset of the rest. *)
Definition lexer_wf (l : Lexer) : Prop :=
  exists pre, input l = pre ++ chars l /\ pos l = utf8_len pre.

Lemma lex_wf sql : lexer_wf (lex sql).
Proof. by exists []. Qed.

Definition advance (l : Lexer) (x : Lexeme) (r : rstr) : Lexer :=
  mkLexer (input l) r (pos l + utf8_len (text x)).

Lemma advance_wf l x r : lexer_wf l -> scan (chars l) = Some (x, r) -> lexer_wf (advance l x r).
Proof.
  intros (pre & Hi & Hp) Hs. exists (pre ++ text x). cbn.
  rewrite <- app_assoc, (scan_app _ _ _ Hs), utf8_len_app. by rewrite Hp.
Qed.

(** The slice [next] takes is the text of the lexeme it found. *)
Lemma next_slice l pre c k r :
  input l = pre ++ c :: k ++ r -> pos l = utf8_len pre ->
  slice (input l) (pos l) (pos l + len_utf8 c + utf8_len k) = Some (c :: k).
Proof.
  intros -> ->. rewrite <- Nat.add_assoc, <- utf8_len_cons.
  change (c :: k ++ r) with ((c :: k) ++ r). apply slice_middle.
Qed.

Lemma next_scan l :
  lexer_wf l ->
  next l = Some (match scan (chars l) with
                 | None => None
                 | Some (x, r) => Some (x, advance l x r)
                 end).
Proof.
  intros (pre & Hi & Hp). unfold next, bump, scan, advance.
  destruct (chars l) as [|c cs] eqn:Hc; [done|]. cbn [chars pos input].
  assert (Hsl : forall k r, k ++ r = cs ->
    slice (input l) (pos l) (pos l + len_utf8 c + utf8_len k) = Some (c :: k)).
  { intros k r Hk. apply (next_slice l pre c k r); [by rewrite Hk | done]. }
  case_decide.
  { rewrite consume_quoted_scan. pose proof (quoted_scan_app c cs) as Ha.
    destruct (quoted_scan c cs) as [k r]. rewrite foldl_len_utf8. cbn in *.
    rewrite (Hsl k r Ha). cbn. by rewrite utf8_len_cons, Nat.add_assoc. }
  unfold consume_line_comment. cbn [chars pos input].
  rewrite line_comment_scan. pose proof (line_scan_app cs) as Hl.
  destruct (line_scan cs) as [k r]. cbn [fst snd] in Hl.
  case_decide; [cbn; rewrite (Hsl k r Hl); cbn; by rewrite utf8_len_cons, Nat.add_assoc|].
  case_decide; [cbn; rewrite (Hsl k r Hl); cbn; by rewrite utf8_len_cons, Nat.add_assoc|].
  case_decide as Hb.
  { destruct Hb as [_ Hb]. destruct cs as [|d cs]; simplify_eq/=.
    rewrite block_comment_scan. pose proof (block_scan_app 0 cs) as Ha.
    destruct (block_scan 0 cs) as [k' r']. cbn in *.
    assert (Hq : (cSTAR :: k') ++ r' = cSTAR :: cs) by (cbn; by rewrite Ha).
    apply Hsl in Hq. rewrite utf8_len_cons, Nat.add_assoc in Hq. rewrite Hq.
    cbn. by rewrite !utf8_len_cons, !Nat.add_assoc. }
  destruct (is_ident_char c).
  - rewrite word_loop_scan, (Hsl _ _ (take_drop_while is_ident_char cs)). cbn.
    by rewrite utf8_len_cons, Nat.add_assoc.
  - cbn. by rewrite utf8_len_cons, utf8_len_nil, Nat.add_0_r.
Qed.

(** ** Draining the iterator *)

Lemma collect_total n l :
  lexer_wf l -> length (chars l) < n ->
  exists ls, collect n l = Some ls /\ texts ls = chars l.
Proof.
  revert l. induction n as [|n IH]; intros l Hwf Hn; [lia|]. cbn.
  rewrite next_scan by done. cbn. destruct (scan (chars l)) as [[x r]|] eqn:Hs.
  - pose proof (scan_length _ _ _ Hs).
    destruct (IH (advance l x r)) as (ls & -> & Hls); [by apply advance_wf | cbn; lia|].
    exists (x :: ls). split; [done|]. cbn in *. unfold texts in *. cbn.
    rewrite Hls. by apply scan_app.
  - apply scan_None in Hs. exists []. by rewrite Hs.
Qed.

(** More fuel, and another position in another input, change nothing. *)
Lemma collect_agree n m l l' :
  lexer_wf l -> lexer_wf l' -> chars l = chars l' ->
  length (chars l) < n -> length (chars l) < m -> collect n l = collect m l'.
Proof.
  revert m l l'. induction n as [|n IH]; intros m l l' Hl Hl' Hc Hn Hm; [lia|].
  destruct m as [|m]; [lia|]. cbn. rewrite !next_scan, <- Hc by done. cbn.
  destruct (scan (chars l)) as [[x r]|] eqn:Hs; [|done].
  pose proof (scan_length _ _ _ Hs).
  rewrite (IH m (advance l x r) (advance l' x r)); cbn; try lia; [done| | |done];
    apply advance_wf; congruence.
Qed.

Lemma lexemes_nil : lexemes [] = [].
Proof. done. Qed.

Lemma lexemes_cons s x r : scan s = Some (x, r) -> lexemes s = x :: lexemes r.
Proof.
  intros Hs. unfold lexemes at 1. pose proof (scan_length _ _ _ Hs).
  change (collect (S (length s)) (lex s)) with
    (r0 ← next (lex s); match r0 with
       | None => Some []
       | Some (x, l) => xs ← collect (length s) l; Some (x :: xs)
       end).
  rewrite next_scan by apply lex_wf. cbn [chars lex]. rewrite Hs. cbn.
  rewrite (collect_agree (length s) (S (length r)) (advance (lex s) x r) (lex r));
    [| by apply advance_wf; [apply lex_wf|] | apply lex_wf | done | cbn; lia | cbn; lia].
  destruct (collect_total (S (length r)) (lex r)) as (ls & E & _); [apply lex_wf | cbn; lia|].
  unfold lexemes. by rewrite E.
Qed.

(** [lexemes] is the drained iterator: the default is never taken. *)
Lemma lex_collect sql : collect (S (length sql)) (lex sql) = Some (lexemes sql).
Proof.
  unfold lexemes.
  destruct (collect_total (S (length sql)) (lex sql)) as (ls & E & _);
    [apply lex_wf | cbn; lia | by rewrite E].
Qed.

Lemma texts_lexemes sql : texts (lexemes sql) = sql.
Proof.
  destruct (collect_total (S (length sql)) (lex sql)) as (ls & H & Ht);
    [apply lex_wf | cbn; lia|].
  rewrite lex_collect in H. by simplify_eq.
Qed.

(** Induction along the scanner. *)
Lemma scan_ind (P : rstr -> Prop) :
  P [] -> (forall s x r, scan s = Some (x, r) -> P r -> P s) -> forall s, P s.
Proof.
  intros H0 HS s. remember (length s) as n eqn:Hn. assert (Hle : length s <= n) by lia.
  clear Hn. revert s Hle. induction n as [|n IH]; intros s Hle.
  - destruct s; [done | cbn in Hle; lia].
  - destruct (scan s) as [[x r]|] eqn:Hs; [|by apply scan_None in Hs as ->].
    pose proof (scan_length _ _ _ Hs). eapply HS, IH; [done | lia].
Qed.

(** ** Locality

    [follows r r']: text [r'] can stand where [r] stood after a lexeme. *)
Definition follows (r r' : rstr) : Prop := r' = [] \/ (r <> [] /\ head r' = head r).

Lemma follows_refl r : follows r r.
Proof. destruct r; [by left | by right]. Qed.

Lemma follows_nil r : follows r [].
Proof. by left. Qed.

Lemma follows_app_r r a : follows (r ++ a) r.
Proof. destruct r; [by left | by right]. Qed.

Lemma follows_nil_inv r r' : follows r r' -> r = [] -> r' = [].
Proof. intros [?|[? _]] ?; [done | congruence]. Qed.

Lemma follows_head_ne r r' k d :
  follows r r' -> head (k ++ r) <> Some d -> head (k ++ r') <> Some d.
Proof. intros [->|[? H]]; destruct k; cbn; [done.. | congruence | done]. Qed.

(** The scanning helpers stop where they stopped before, whatever follows; and on a
    proper prefix of what they consumed they consume everything. *)
Lemma qscan_local quote triple run cs k r r' :
  qscan quote triple run cs = (k, r) -> (r = [] -> r' = []) ->
  qscan quote triple run (k ++ r') = (k, r').
Proof.
  remember (length cs) as n eqn:Hn. assert (Hle : length cs <= n) by lia. clear Hn.
  revert run cs k r Hle. induction n as [|n IH]; intros run cs k r Hle H Hr.
  - destruct cs; [|cbn in Hle; lia]. cbn in H. simplify_eq. by rewrite Hr.
  - destruct cs as [|ch cs]; cbn in H; [simplify_eq; by rewrite Hr|]. cbn in Hle.
    case_decide as Hb.
    + destruct cs as [|e cs]; [simplify_eq; rewrite Hr by done; cbn; by dec_simpl|].
      destruct (qscan quote triple 0 cs) as [k0 r0] eqn:E. unfold consing in H. simplify_eq/=.
      dec_simpl. by rewrite (IH 0 cs k0 r) by (done || lia).
    + case_decide as Hq; [destruct (negb triple) eqn:Ht; [|case_decide as Hrun]|].
      * simplify_eq/=. dec_simpl. by rewrite Ht.
      * simplify_eq/=. dec_simpl. rewrite Ht. by dec_simpl.
      * destruct (qscan quote triple (run + 1) cs) as [k0 r0] eqn:E. unfold consing in H.
        simplify_eq/=. dec_simpl. rewrite Ht. dec_simpl.
        by rewrite (IH (run + 1) cs k0 r) by (done || lia).
      * destruct (qscan quote triple 0 cs) as [k0 r0] eqn:E. unfold consing in H.
        simplify_eq/=. dec_simpl. by rewrite (IH 0 cs k0 r) by (done || lia).
Qed.

Lemma qscan_prefix quote triple run cs k r k1 k2 :
  qscan quote triple run cs = (k, r) -> k = k1 ++ k2 -> k2 <> [] ->
  qscan quote triple run k1 = (k1, []).
Proof.
  remember (length cs) as n eqn:Hn. assert (Hle : length cs <= n) by lia. clear Hn.
  revert run cs k r k1 Hle. induction n as [|n IH]; intros run cs k r k1 Hle H Hk Hne.
  - destruct cs; [|cbn in Hle; lia]. cbn in H. simplify_eq. by destruct k1, k2.
  - destruct k1 as [|c1 k1]; [done|].
    destruct cs as [|ch cs]; cbn in H; [by simplify_eq|]. cbn in Hle. cbn [qscan].
    case_decide as Hb.
    + destruct cs as [|e cs]; [simplify_eq/=; by destruct k1, k2|].
      destruct (qscan quote triple 0 cs) as [k0 r0] eqn:E. unfold consing in H.
      destruct k1 as [|e1 k1]; simplify_eq/=; dec_simpl; [done|].
      by rewrite (IH 0 cs _ _ k1 ltac:(cbn in Hle; lia) E eq_refl Hne).
    + case_decide as Hq; [destruct (negb triple) eqn:Ht; [|case_decide as Hrun]|].
      * simplify_eq/=. by destruct k1, k2.
      * simplify_eq/=. by destruct k1, k2.
      * destruct (qscan quote triple (run + 1) cs) as [k0 r0] eqn:E. unfold consing in H.
        simplify_eq/=. dec_simpl.
        by rewrite (IH (run + 1) cs _ _ k1 ltac:(lia) E eq_refl Hne).
      * destruct (qscan quote triple 0 cs) as [k0 r0] eqn:E. unfold consing in H.
        simplify_eq/=. dec_simpl.
        by rewrite (IH 0 cs _ _ k1 ltac:(lia) E eq_refl Hne).
Qed.

Lemma line_scan_local cs k r r' :
  line_scan cs = (k, r) -> (r = [] -> r' = []) -> line_scan (k ++ r') = (k, r').
Proof.
  revert k. induction cs as [|c cs IH]; intros k H Hr; cbn in H; [simplify_eq; by rewrite Hr|].
  case_decide; [simplify_eq/=; by dec_simpl|].
  destruct (line_scan cs) as [k0 r0]. unfold consing in H. simplify_eq/=. dec_simpl.
  by rewrite (IH k0).
Qed.

Lemma line_scan_prefix cs k r k1 k2 :
  line_scan cs = (k, r) -> k = k1 ++ k2 -> k2 <> [] -> line_scan k1 = (k1, []).
Proof.
  revert k k1. induction cs as [|c cs IH]; intros k k1 H Hk Hne; cbn in H.
  - simplify_eq. by destruct k1, k2.
  - destruct k1 as [|c1 k1]; [done|]. case_decide; [simplify_eq/=; by destruct k1, k2|].
    destruct (line_scan cs) as [k0 r0]. unfold consing in H. simplify_eq/=. dec_simpl.
    by rewrite (IH _ k1 eq_refl eq_refl Hne).
Qed.

Lemma block_scan_local prev cs k r r' :
  block_scan prev cs = (k, r) -> (r = [] -> r' = []) -> block_scan prev (k ++ r') = (k, r').
Proof.
  revert prev k. induction cs as [|c cs IH]; intros prev k H Hr; cbn in H;
    [simplify_eq; by rewrite Hr|].
  case_decide as Hd; [simplify_eq/=; by rewrite decide_True|].
  destruct (block_scan c cs) as [k0 r0] eqn:E. unfold consing in H. simplify_eq/=.
  rewrite decide_False by done. by rewrite (IH _ k0).
Qed.

Lemma block_scan_prefix prev cs k r k1 k2 :
  block_scan prev cs = (k, r) -> k = k1 ++ k2 -> k2 <> [] -> block_scan prev k1 = (k1, []).
Proof.
  revert prev k k1. induction cs as [|c cs IH]; intros prev k k1 H Hk Hne; cbn in H.
  - simplify_eq. by destruct k1, k2.
  - destruct k1 as [|c1 k1]; [done|]. case_decide as Hd; [simplify_eq/=; by destruct k1, k2|].
    destruct (block_scan c cs) as [k0 r0] eqn:E. unfold consing in H. simplify_eq/=.
    rewrite decide_False by done. by rewrite (IH _ _ k1 E eq_refl Hne).
Qed.

Lemma quoted_scan_local quote cs k r r' :
  quoted_scan quote cs = (k, r) -> follows r r' -> quoted_scan quote (k ++ r') = (k, r').
Proof.
  intros H Hf. pose proof (quoted_scan_app quote cs) as Happ. rewrite H in Happ. cbn in Happ.
  unfold quoted_scan in H. case_decide as H1.
  - destruct H1 as [Hbt H1]. destruct cs as [|a cs]; simplify_eq/=. case_decide as H2.
    + destruct cs as [|b cs]; simplify_eq/=.
      destruct (qscan quote true 0 cs) as [k0 r0] eqn:E. unfold consing in H. simplify_eq/=.
      unfold quoted_scan. cbn. rewrite !decide_True by done. unfold consing.
      erewrite (qscan_local _ _ _ _ k0 r r' E) by (intros; by eapply follows_nil_inv). done.
    + simplify_eq/=. unfold quoted_scan. cbn. rewrite decide_True by done.
      rewrite decide_False; [done|]. by apply (follows_head_ne r r' []).
  - unfold quoted_scan. rewrite decide_False.
    + eapply qscan_local; [done|]. intros; by eapply follows_nil_inv.
    + intros [Hbt H2]. apply H1. split; [done|]. subst cs.
      destruct (decide (head (k ++ r) = Some quote)); [done|].
      by eapply follows_head_ne in H2.
Qed.

Lemma quoted_scan_prefix quote cs k r k1 k2 :
  quoted_scan quote cs = (k, r) -> k = k1 ++ k2 -> k2 <> [] -> quoted_scan quote k1 = (k1, []).
Proof.
  intros H Hk Hne. pose proof (quoted_scan_app quote cs) as Happ. rewrite H in Happ. cbn in Happ.
  unfold quoted_scan in H. case_decide as H1.
  - destruct H1 as [Hbt H1]. destruct cs as [|a cs]; simplify_eq/=. case_decide as H2.
    + destruct cs as [|b cs]; simplify_eq/=.
      destruct (qscan quote true 0 cs) as [k0 r0] eqn:E. unfold consing in H.
      destruct k1 as [|? [|? k1]]; simplify_eq/=; unfold quoted_scan; cbn.
      * rewrite decide_False by naive_solver. done.
      * rewrite decide_True by done. by rewrite decide_False.
      * rewrite !decide_True by done.
        by rewrite (qscan_prefix _ _ _ _ _ _ k1 k2 E eq_refl Hne).
    + destruct k1; simplify_eq/=; [|by destruct k1, k2].
      unfold quoted_scan. rewrite decide_False by naive_solver. done.
  - unfold quoted_scan. rewrite decide_False.
    + by eapply qscan_prefix.
    + intros [Hbt H2]. apply H1. split; [done|]. subst. by destruct k1.
Qed.

(** A lexeme is found again where its text is followed by the same char or by the
    end of the input. *)
Lemma scan_local s x r r' :
  scan s = Some (x, r) -> follows r r' -> scan (text x ++ r') = Some (x, r').
Proof.
  intros H Hf. pose proof (scan_app _ _ _ H) as Happ. destruct s as [|c cs]; [done|].
  cbn in H. injection H as H.
  assert (Hnil : r = [] -> r' = []) by by eapply follows_nil_inv.
  case_decide as Hq.
  { destruct (quoted_scan c cs) as [k r0] eqn:E. unfold tok in H. simplify_eq/=.
    rewrite decide_True by done. by rewrite (quoted_scan_local _ _ _ _ _ E Hf). }
  case_decide as Hd.
  { destruct (line_scan cs) as [k r0] eqn:E. unfold tok in H. simplify_eq/=.
    rewrite decide_False by done. rewrite decide_True.
    - by rewrite (line_scan_local _ _ _ _ E Hnil).
    - destruct Hd as [-> Hd]. split; [done|]. rewrite <- Hd. destruct k; [|done].
      destruct r as [|d r]; cbn in E; [done|]. case_decide; [done|]. by destruct (line_scan r). }
  case_decide as Hh.
  { destruct (line_scan cs) as [k r0] eqn:E. unfold tok in H. simplify_eq/=.
    dec_simpl. by rewrite (line_scan_local _ _ _ _ E Hnil). }
  case_decide as Hb.
  { destruct Hb as [-> Hb]. destruct cs as [|d cs]; simplify_eq/=.
    destruct (block_scan 0 cs) as [k r0] eqn:E. unfold tok, consing in H. simplify_eq/=.
    dec_simpl. by rewrite (block_scan_local _ _ _ _ _ E Hnil). }
  assert (Hhd : forall d, head cs <> Some d -> head (tail (text x ++ r')) <> Some d).
  { intros d Hd'. destruct (is_ident_char c); unfold tok in H; simplify_eq/=.
    - rewrite <- Happ in Hd'. by eapply follows_head_ne.
    - by apply (follows_head_ne r r' []). }
  destruct (is_ident_char c) eqn:Hi; unfold tok in H; simplify_eq/=.
  - rewrite !decide_False by naive_solver. rewrite Hi. f_equal. unfold tok. cbn.
    destruct (take_while_app is_ident_char (take_while is_ident_char cs) r') as [-> ->];
      [apply take_while_all| |done].
    intros e He. destruct Hf as [->|[Hr Hh']]; [done|]. rewrite Hh' in He.
    by eapply drop_while_head.
  - rewrite !decide_False by naive_solver. by rewrite Hi.
Qed.

(** ** Lexing parts of an input *)

Lemma texts_app a b : texts (a ++ b) = texts a ++ texts b.
Proof. unfold texts. by rewrite map_app, concat_app. Qed.

Lemma texts_cons x ls : texts (x :: ls) = text x ++ texts ls.
Proof. done. Qed.

Lemma lexemes_inv s x ls :
  lexemes s = x :: ls -> exists r, scan s = Some (x, r) /\ lexemes r = ls.
Proof.
  destruct (scan s) as [[y r]|] eqn:Hs.
  - rewrite (lexemes_cons _ _ _ Hs). intros [= -> <-]. by exists r.
  - apply scan_None in Hs as ->. by rewrite lexemes_nil.
Qed.

(** Any run of consecutive lexemes is what its own text lexes to. *)
Lemma relex_prefix s ls1 ls2 : lexemes s = ls1 ++ ls2 -> lexemes (texts ls1) = ls1.
Proof.
  revert s. induction ls1 as [|x ls1 IH]; intros s H; [apply lexemes_nil|].
  apply lexemes_inv in H as (r & Hs & Hr). rewrite texts_cons.
  assert (Hf : follows r (texts ls1)).
  { rewrite <- (texts_lexemes r), Hr, texts_app. apply follows_app_r. }
  rewrite (lexemes_cons _ _ _ (scan_local _ _ _ _ Hs Hf)). by rewrite (IH r).
Qed.

Lemma relex_suffix s ls1 ls2 : lexemes s = ls1 ++ ls2 -> lexemes (texts ls2) = ls2.
Proof.
  revert s. induction ls1 as [|x ls1 IH]; intros s H; cbn in H.
  - by rewrite <- H, texts_lexemes.
  - apply lexemes_inv in H as (r & _ & Hr). by eapply IH.
Qed.

Lemma relex s ls1 ls2 ls3 : lexemes s = ls1 ++ ls2 ++ ls3 -> lexemes (texts ls2) = ls2.
Proof. intros H%relex_suffix. by eapply relex_prefix. Qed.

(** Whitespace lexes char by char. *)
Lemma ws_not_special c :
  is_whitespace c = true ->
  ~ is_quote c /\ c <> cDASH /\ c <> cHASH /\ c <> cSLASH /\ c <> cSTAR /\ is_ident_char c = false.
Proof.
  unfold is_whitespace. rewrite !orb_true_iff, !bool_decide_eq_true. intros H.
  assert (Hc : (c <= 13 \/ c = 32 \/ 133 <= c)%N) by lia. clear H.
  split_and!; try lia. apply not_true_iff_false.
  unfold is_ident_char, is_ascii_alphanumeric, is_ascii_alphabetic, is_ascii_uppercase,
    is_ascii_lowercase, is_ascii_digit.
  rewrite !orb_true_iff, !bool_decide_eq_true. lia.
Qed.

Lemma ws_scan c s : is_whitespace c = true -> scan (c :: s) = Some (Other c, s).
Proof.
  intros (Hq & ? & ? & ? & _ & Hi)%ws_not_special. cbn.
  rewrite !decide_False by naive_solver. by rewrite Hi.
Qed.

Lemma lexemes_ws w s : all_ws w -> lexemes (w ++ s) = map Other w ++ lexemes s.
Proof.
  induction 1 as [|c w Hc _ IH]; [done|]. cbn.
  rewrite (lexemes_cons _ _ _ (ws_scan c _ Hc)). by rewrite IH.
Qed.

Lemma lexemes_all_ws w : all_ws w -> lexemes w = map Other w.
Proof. intros H. rewrite <- (app_nil_r w) at 1. by rewrite lexemes_ws, lexemes_nil, app_nil_r. Qed.

(** Lexemes of one kind; a trimmed comment or unterminated literal keeps its kind. *)
Inductive same_kind : Lexeme -> Lexeme -> Prop :=
  | sk_refl x : same_kind x x
  | sk_quoted a b : same_kind (Quoted a) (Quoted b)
  | sk_comment a b : same_kind (Comment a) (Comment b).

Lemma scan_prefix s x r t m :
  scan s = Some (x, r) -> text x = t ++ m -> t <> [] -> m <> [] -> all_ws m ->
  exists x', scan t = Some (x', []) /\ same_kind x x'.
Proof.
  intros H Ht Htn Hmn Hm. destruct s as [|c cs]; [done|]. cbn in H. injection H as H.
  destruct t as [|c1 t]; [done|].
  assert (Hws : forall d, d ∈ m -> is_whitespace d = true) by by apply Forall_forall.
  case_decide as Hq.
  { destruct (quoted_scan c cs) as [k r0] eqn:E. unfold tok in H. simplify_eq/=.
    rewrite decide_True by done. rewrite (quoted_scan_prefix _ _ _ _ t m E eq_refl Hmn).
    eexists. split; [done | constructor]. }
  case_decide as Hd.
  { destruct (line_scan cs) as [k r0] eqn:E. unfold tok in H. simplify_eq/=.
    pose proof (line_scan_app cs) as Happ. rewrite E in Happ. cbn in Happ.
    rewrite decide_False by done. rewrite decide_True.
    - rewrite (line_scan_prefix _ _ _ t m E eq_refl Hmn). eexists. split; [done | constructor].
    - destruct Hd as [-> Hd]. split; [done|]. subst cs. destruct t as [|d t]; [|done].
      destruct m as [|d m]; [done|]. simplify_eq/=.
      destruct (ws_not_special cDASH) as (_ & Hf & _); [apply Hws; left | by destruct Hf]. }
  case_decide as Hh.
  { destruct (line_scan cs) as [k r0] eqn:E. unfold tok in H. simplify_eq/=. dec_simpl.
    rewrite (line_scan_prefix _ _ _ t m E eq_refl Hmn). eexists. split; [done | constructor]. }
  case_decide as Hb.
  { destruct Hb as [-> Hb]. destruct cs as [|d cs]; simplify_eq/=.
    destruct (block_scan 0 cs) as [k r0] eqn:E. unfold tok, consing in H. simplify_eq/=.
    destruct t as [|d t]; simplify_eq/=.
    - destruct (ws_not_special cSTAR) as (_ & _ & _ & _ & Hf & _); [apply Hws; left | by destruct Hf].
    - dec_simpl. rewrite (block_scan_prefix _ _ _ _ t m E eq_refl Hmn).
      eexists. split; [done | constructor]. }
  exfalso. destruct m as [|d m]; [done|].
  destruct (is_ident_char c) eqn:Hi; unfold tok in H; injection H as <- <-; cbn in Ht;
    injection Ht as <- Ht; [|by destruct t].
  pose proof (take_while_all is_ident_char cs) as Hall. rewrite Ht in Hall.
  apply Forall_app in Hall as [_ Hall%Forall_inv].
  destruct (ws_not_special d) as (_ & _ & _ & _ & _ & Hf); [apply Hws; left | cbn in Hall; congruence].
Qed.

(** Trimming the end of an input drops whitespace lexemes and may shorten its last
    comment or unterminated literal. *)
Lemma lexemes_trim_end t w :
  ~ ends_ws t -> all_ws w ->
  exists ls w2, lexemes (t ++ w) = ls ++ map Other w2 /\ all_ws w2 /\
                Forall2 same_kind ls (lexemes t).
Proof.
  remember (length t) as n eqn:Hn. assert (Hle : length t <= n) by lia. clear Hn.
  revert t w Hle. induction n as [|n IH]; intros t w Hle Ht Hw.
  { destruct t; [|cbn in Hle; lia]. exists [], w. cbn. rewrite lexemes_all_ws by done. by split_and!. }
  destruct (decide (t = [])) as [->|Hne].
  { exists [], w. cbn. rewrite lexemes_all_ws by done. by split_and!. }
  destruct (scan (t ++ w)) as [[x r]|] eqn:Hs; [|apply scan_None in Hs; by destruct t].
  pose proof (scan_app _ _ _ Hs) as Happ.
  destruct (app_split_cases _ _ _ _ Happ) as [(m & -> & ->)|(m & Hm & Hx & ->)].
  - pose proof (scan_local _ _ _ m Hs (follows_app_r _ _)) as Hs'.
    pose proof (text_nonnil _ _ _ Hs). rewrite length_app in Hle.
    destruct (IH m w) as (ls & w2 & E & Hw2 & Hk); [| |done|].
    { destruct (text x); [done | cbn in Hle; lia]. }
    { intros (c & Hc & ?). apply Ht. exists c. split; [|done].
      destruct m as [|d m]; [done|]. by rewrite last_app_nonnil. }
    exists (x :: ls), w2. rewrite (lexemes_cons _ _ _ Hs), (lexemes_cons _ _ _ Hs'), E.
    split_and!; [done..|]. constructor; [constructor | done].
  - apply Forall_app in Hw as [Hwm Hwr].
    destruct (scan_prefix _ _ _ _ _ Hs Hx Hne Hm Hwm) as (x' & Hs' & Hk).
    exists [x], r. rewrite (lexemes_cons _ _ _ Hs), (lexemes_cons _ _ _ Hs').
    rewrite lexemes_all_ws by done. split_and!; [done..|]. by repeat constructor.
Qed.
