(* ===== verification/SqlFacts.v ===== *)
(** * What the consumers of the lexer guarantee

    The splitter, the classifiers, the bind-parameter scan and identifier quoting
    of [src/sql.rs], proved against the lexer's laws of [SqlLex]. *)

From S2P Require Import Prelude RustStr ErrorModel Sql SqlLex.

(** ** Splitting *)

Lemma same_kind_semi x y : same_kind x y -> x = Other cSEMI <-> y = Other cSEMI.
Proof. by destruct 1. Qed.

Lemma has_statement_same_kind ls ls' :
  Forall2 same_kind ls ls' -> has_statement ls = has_statement ls'.
Proof.
  unfold has_statement. induction 1 as [|x y ls ls' Hk _ IH]; [done|]. cbn. rewrite IH. by destruct Hk.
Qed.

Lemma no_semi_same_kind ls ls' :
  Forall2 same_kind ls ls' -> Other cSEMI ∉ ls -> Other cSEMI ∉ ls'.
Proof.
  induction 1 as [|x y ls ls' Hk _ IH]; [done|]. rewrite !not_elem_of_cons. intros [? ?].
  split; [|by apply IH]. intros Hy. symmetry in Hy. by apply (same_kind_semi _ _ Hk) in Hy.
Qed.

(** A run of lexemes with no separator, trimmed, still has none. *)
Lemma trim_no_semi ls s :
  lexemes s = ls -> Other cSEMI ∉ ls -> Other cSEMI ∉ lexemes (trim s).
Proof.
  intros Hs Hn. destruct (trim_start_spec s) as (w1 & H1 & Hw1).
  destruct (trim_end_spec (trim_start s)) as (w2 & H2 & Hw2).
  rewrite H1, lexemes_ws in Hs by done. fold (trim s) in H2. subst ls.
  apply not_elem_of_app in Hn as [_ Hn].
  destruct (lexemes_trim_end (trim s) w2) as (ls & w & E & _ & Hk);
    [apply trim_not_ws | done|].
  rewrite <- H2 in E. rewrite E in Hn. apply not_elem_of_app in Hn as [Hn _].
  by eapply no_semi_same_kind.
Qed.

(** Splitting a text with no top-level [;] returns its trimmed self, if it carries a
    statement. *)
Lemma split_loop_no_semi ls sts cur :
  Other cSEMI ∉ ls -> split_loop ls (sts, cur) = (push_statement sts (cur ++ texts ls)).1.
Proof.
  revert cur. induction ls as [|x ls IH]; intros cur H; cbn [split_loop].
  - unfold texts. cbn. by rewrite app_nil_r.
  - apply not_elem_of_cons in H as [Hx H]. rewrite decide_False by congruence. cbn [fst snd].
    by rewrite IH, texts_cons, app_assoc.
Qed.

Lemma split_no_semi s :
  Other cSEMI ∉ lexemes s ->
  split_statements s = if has_statement (lexemes (trim s)) then [trim s] else [].
Proof.
  intros H. unfold split_statements. rewrite split_loop_no_semi by done. cbn.
  rewrite texts_lexemes. by destruct (has_statement _).
Qed.

(** What the splitter emits: trimmed texts that carry a statement and no separator. *)
Definition statement_ok (s : rstr) : Prop :=
  trim s = s /\ has_statement (lexemes s) = true /\ Other cSEMI ∉ lexemes s.

Lemma push_statement_ok sts ls s0 pre post :
  lexemes s0 = pre ++ ls ++ post -> Other cSEMI ∉ ls ->
  Forall statement_ok sts -> Forall statement_ok (push_statement sts (texts ls)).1.
Proof.
  intros H Hn Hf. unfold push_statement. cbn.
  destruct (has_statement (lexemes (trim (texts ls)))) eqn:E; [|done].
  rewrite Forall_app, Forall_singleton. split; [done|]. split_and!; [apply trim_trim | done|].
  by eapply trim_no_semi, Hn; eapply relex.
Qed.

Lemma split_loop_ok s0 ls sts cur pre :
  lexemes s0 = pre ++ cur ++ ls -> Other cSEMI ∉ cur ->
  Forall statement_ok sts -> Forall statement_ok (split_loop ls (sts, texts cur)).
Proof.
  revert sts cur pre. induction ls as [|x ls IH]; intros sts cur pre H Hn Hf; cbn [split_loop fst snd].
  - by eapply push_statement_ok.
  - case_decide as Hx.
    + pose proof (push_statement_ok sts cur s0 pre (x :: ls) H Hn Hf) as Hp.
      unfold push_statement in Hp |- *. cbn [fst] in Hp.
      apply (IH _ [] (pre ++ cur ++ [x])); [|set_solver|done].
      rewrite H. cbn. by rewrite <- !app_assoc.
    + replace (texts cur ++ text x) with (texts (cur ++ [x])).
      * apply (IH _ (cur ++ [x]) pre); [|set_solver|done]. rewrite H. by rewrite <- !app_assoc.
      * rewrite texts_app, texts_cons. cbn. by rewrite app_nil_r.
Qed.

Lemma split_statements_ok sql : Forall statement_ok (split_statements sql).
Proof. unfold split_statements. apply (split_loop_ok sql _ [] [] []); [done | set_solver | done]. Qed.

Lemma statement_ok_split s : statement_ok s -> split_statements s = [s].
Proof. intros (Ht & Hs & Hn). rewrite split_no_semi by done. by rewrite Ht, Hs. Qed.

Lemma statement_ok_nonnil s : statement_ok s -> s <> [].
Proof. intros (_ & H & _) ->. by rewrite lexemes_nil in H. Qed.

(** The texts of [xs] occur in [s], disjointly and in this order. *)
Inductive in_order : list rstr -> rstr -> Prop :=
  | in_order_nil s : in_order [] s
  | in_order_cons x xs a b : in_order xs b -> in_order (x :: xs) (a ++ x ++ b).

Lemma in_order_prepend xs a s : in_order xs s -> in_order xs (a ++ s).
Proof.
  destruct 1 as [s|x xs b c H]; [constructor|]. rewrite app_assoc. by constructor.
Qed.

Lemma in_order_app xs ys a b : in_order xs a -> in_order ys b -> in_order (xs ++ ys) (a ++ b).
Proof.
  induction 1 as [s|x xs c d H IH]; intros Hy; [by apply in_order_prepend|].
  rewrite <- !app_assoc. cbn. constructor. by apply IH.
Qed.

Lemma in_order_extend xs a b : in_order xs a -> in_order xs (a ++ b).
Proof. intros H. rewrite <- (app_nil_r xs). apply in_order_app; [done | constructor]. Qed.

Lemma in_order_trim s : in_order [trim s] s.
Proof.
  destruct (trim_spec s) as (w1 & w2 & H & _). rewrite H at 2. constructor. constructor.
Qed.

Lemma push_in_order sts pre cur :
  in_order sts pre -> in_order (push_statement sts cur).1 (pre ++ cur).
Proof.
  intros H. unfold push_statement. cbn. destruct (has_statement _).
  - apply in_order_app; [done | apply in_order_trim].
  - by apply in_order_extend.
Qed.

Lemma split_loop_in_order ls sts cur pre :
  in_order sts pre -> in_order (split_loop ls (sts, cur)) (pre ++ cur ++ texts ls).
Proof.
  revert sts cur pre. induction ls as [|x ls IH]; intros sts cur pre H; cbn [split_loop fst snd].
  - unfold texts. cbn. rewrite app_nil_r. by apply push_in_order.
  - rewrite texts_cons. case_decide as Hx; subst.
    + replace (pre ++ cur ++ text (Other cSEMI) ++ texts ls)
        with ((pre ++ cur ++ [cSEMI]) ++ [] ++ texts ls) by (cbn; by rewrite <- !app_assoc).
      pose proof (push_in_order _ _ cur H) as Hp. unfold push_statement in *. cbn [fst] in Hp.
      apply IH. rewrite app_assoc. by apply in_order_extend.
    + rewrite (app_assoc cur). by apply IH.
Qed.

(** ** Classification *)

(** A text whose last lexeme is a single char other than [-] and [/] separates: what
    comes after it lexes on its own. *)
Definition separator (c : char) : Prop :=
  ~ is_quote c /\ c <> cDASH /\ c <> cHASH /\ c <> cSLASH /\ is_ident_char c = false.

Lemma separator_scan c s : separator c -> scan (c :: s) = Some (Other c, s).
Proof.
  intros (Hq & ? & ? & ? & Hi). cbn. rewrite !decide_False by tauto. by rewrite Hi.
Qed.

(** [closed p]: appending any text leaves the lexemes of [p] as they are. *)
Definition closed (p : rstr) : Prop := forall s, lexemes (p ++ s) = lexemes p ++ lexemes s.

Lemma closed_nil : closed [].
Proof. by intros s. Qed.

Lemma closed_app p q : closed p -> closed q -> closed (p ++ q).
Proof. intros Hp Hq s. rewrite <- app_assoc, !Hp, Hq. by rewrite app_assoc. Qed.

Lemma closed_scan p x :
  scan p = Some (x, []) -> (forall s, scan (p ++ s) = Some (x, s)) -> closed p.
Proof.
  intros Hp Hs s. rewrite (lexemes_cons _ _ _ (Hs s)), (lexemes_cons _ _ _ Hp), lexemes_nil. done.
Qed.

Lemma closed_separator c : separator c -> closed [c].
Proof. intros H. eapply closed_scan; [|intros s]; by apply separator_scan. Qed.

(** Closedness only depends on the last lexeme. *)
Lemma closed_last p ls x :
  lexemes p = ls ++ [x] -> (forall s, scan (text x ++ s) = Some (x, s)) -> closed p.
Proof.
  intros Hp Hx. revert p Hp. induction ls as [|y ls IH]; intros p Hp; cbn in Hp.
  - apply lexemes_inv in Hp as (r & Hs & Hr).
    assert (r = []) as -> by (by rewrite <- (texts_lexemes r), Hr).
    pose proof (scan_app _ _ _ Hs) as Happ. rewrite app_nil_r in Happ. subst p.
    by eapply closed_scan.
  - apply lexemes_inv in Hp as (r & Hs & Hr). intros s.
    assert (r <> []) by (intros ->; rewrite lexemes_nil in Hr; by destruct ls).
    assert (Hf : follows r (r ++ s)) by (right; split; [done | by apply head_app_nonnil]).
    pose proof (scan_local _ _ _ _ Hs Hf) as Hs'.
    rewrite app_assoc, (scan_app _ _ _ Hs) in Hs'.
    rewrite (lexemes_cons _ _ _ Hs'), (lexemes_cons _ _ _ Hs), (IH r) by done. done.
Qed.

(** A line comment through its newline, and a terminated block comment. *)
Lemma line_scan_body body s :
  cNL ∉ body -> line_scan (body ++ cNL :: s) = (body ++ [cNL], s).
Proof.
  induction body as [|c body IH]; cbn; [done|]. intros H.
  rewrite decide_False by set_solver. rewrite IH by set_solver. done.
Qed.

Lemma closed_line_comment intro body :
  intro = [cDASH; cDASH] \/ intro = [cHASH] -> cNL ∉ body ->
  scan (intro ++ body ++ [cNL]) = Some (Comment (intro ++ body ++ [cNL]), []) /\
  closed (intro ++ body ++ [cNL]).
Proof.
  intros Hi Hb.
  assert (H : forall s, scan ((intro ++ body ++ [cNL]) ++ s) =
                        Some (Comment (intro ++ body ++ [cNL]), s)).
  { intros s. rewrite <- !app_assoc. destruct Hi as [->| ->]; cbn; unfold tok.
    - change (cDASH :: body ++ cNL :: s) with ((cDASH :: body) ++ cNL :: s).
      rewrite line_scan_body by set_solver. done.
    - rewrite line_scan_body by done. done. }
  pose proof (H []) as H0. rewrite app_nil_r in H0. split; [done | by eapply closed_scan].
Qed.

Definition no_close (body : rstr) : Prop := forall a b, body <> a ++ [cSTAR; cSLASH] ++ b.

Lemma block_scan_body prev body s :
  (prev = cSTAR -> head body <> Some cSLASH) -> no_close body ->
  block_scan prev (body ++ cSTAR :: cSLASH :: s) = (body ++ [cSTAR; cSLASH], s).
Proof.
  revert prev. induction body as [|c body IH]; intros prev Hp Hn; cbn.
  - rewrite decide_False by (by intros [_ ?]). by cbn.
  - rewrite decide_False by (intros [-> ->]; by apply Hp).
    rewrite IH; [done| |].
    + intros ->. intros Hh. destruct body as [|d body]; simplify_eq/=.
      by apply (Hn [] body).
    + intros a b ->. by apply (Hn (c :: a) b).
Qed.

Lemma closed_block_comment body :
  no_close body ->
  let p := [cSLASH; cSTAR] ++ body ++ [cSTAR; cSLASH] in
  scan p = Some (Comment p, []) /\ closed p.
Proof.
  intros Hn p.
  assert (H : forall s, scan (p ++ s) = Some (Comment p, s)).
  { intros s. unfold p. rewrite <- !app_assoc. cbn. unfold tok.
    by rewrite block_scan_body. }
  pose proof (H []) as H0. rewrite app_nil_r in H0. split; [done | by eapply closed_scan].
Qed.

Lemma first_keyword_closed p s :
  closed p -> List.filter significant (lexemes p) = [] -> first_keyword (p ++ s) = first_keyword s.
Proof.
  intros Hc Hp. unfold first_keyword, significant_lexemes. by rewrite Hc, List.filter_app, Hp.
Qed.

Lemma hint_loop body ls :
  Other cRBRACE ∉ body ->
  first_keyword_loop true (body ++ Other cRBRACE :: ls) = first_keyword_loop false ls.
Proof.
  induction body as [|x body IH]; cbn; intros H.
  - by rewrite bool_decide_eq_true_2.
  - rewrite bool_decide_eq_false_2 by set_solver. cbn. apply IH. set_solver.
Qed.

Lemma first_keyword_shape ls b k :
  first_keyword_loop b ls = Some k ->
  k <> [] /\ Forall (fun c => is_ascii_alphabetic c = true) k /\
  exists w t, Word w ∈ ls /\ w = k ++ t.
Proof.
  revert b. induction ls as [|x ls IH]; intros b H; [done|]. cbn in H.
  assert (Hrec : forall b, first_keyword_loop b ls = Some k -> k <> [] /\
     Forall (fun c => is_ascii_alphabetic c = true) k /\
     exists w t, Word w ∈ x :: ls /\ w = k ++ t).
  { intros b' (? & ? & w & t & ? & ?)%IH. split_and!; [done..|].
    exists w, t. split; [by right | done]. }
  destruct b; [by eapply Hrec|]. destruct x as [w|q|c|c]; [| done | by eapply Hrec |].
  - destruct (take_while is_ascii_alphabetic w) as [|a k'] eqn:E; simplify_eq.
    split; [done|]. rewrite <- E. split; [apply take_while_all|].
    exists w, (drop_while is_ascii_alphabetic w). split; [left|]. by rewrite take_drop_while.
  - case_decide; [by eapply Hrec | done].
Qed.

(** ** Substrings *)

Definition occurs (x s : rstr) : Prop := exists a b, s = a ++ x ++ b.

Lemma occurs_trans x y s : occurs x y -> occurs y s -> occurs x s.
Proof. intros (a & b & ->) (c & d & ->). exists (c ++ a), (b ++ d). by rewrite <- !app_assoc. Qed.

Lemma lexeme_occurs x sql : x ∈ lexemes sql -> occurs (text x) sql.
Proof.
  intros (l1 & l2 & H)%list_elem_of_split. exists (texts l1), (texts l2).
  by rewrite <- (texts_lexemes sql), H, texts_app, texts_cons.
Qed.

Lemma elem_of_significant x sql : x ∈ significant_lexemes sql -> x ∈ lexemes sql.
Proof. unfold significant_lexemes. rewrite !list_elem_of_In, List.filter_In. tauto. Qed.

(** ** Bind parameters *)

(** What holds of the state of the scan: [seen] is exactly the lower-cased names. *)
Definition params_inv (sql : rstr) (st : list rstr * list rstr) : Prop :=
  NoDup (map to_ascii_lowercase st.1) /\
  (forall k, k ∈ st.2 <-> k ∈ map to_ascii_lowercase st.1) /\
  Forall (fun p => p <> [] /\ cBTICK ∉ p /\ cBSLASH ∉ p /\ occurs p sql) st.1.

Lemma add_param_inv sql name st :
  params_inv sql st -> name <> [] -> cBTICK ∉ name -> cBSLASH ∉ name -> occurs name sql ->
  params_inv sql (add_param name st).
Proof.
  intros (Hnd & Hseen & Hall) ????. unfold add_param. case_decide as Hk; [done|].
  assert (to_ascii_lowercase name ∉ map to_ascii_lowercase st.1) by (by rewrite <- Hseen).
  split_and!; cbn.
  - rewrite map_app. apply NoDup_app. split_and!; [done | set_solver | apply NoDup_singleton].
  - intros k. rewrite map_app. cbn. set_solver.
  - by rewrite Forall_app, Forall_singleton.
Qed.

Lemma word_no_special w sql : Word w ∈ lexemes sql -> cBTICK ∉ w /\ cBSLASH ∉ w.
Proof.
  assert (Hid : forall c, is_ident_char c = true -> c <> cBTICK /\ c <> cBSLASH).
  { intros c Hc. split; intros ->; done. }
  revert sql. apply (scan_ind (fun sql => Word w ∈ lexemes sql -> _)).
  - rewrite lexemes_nil. set_solver.
  - intros s x r Hs IH. rewrite (lexemes_cons _ _ _ Hs), elem_of_cons. intros [Hx|]; [|by apply IH].
    subst x. destruct s as [|c cs]; [done|]. cbn in Hs. injection Hs as Hs.
    repeat case_decide; try done. destruct (is_ident_char c) eqn:Hi; [|done].
    unfold tok in Hs. simplify_eq/=. pose proof (take_while_all is_ident_char cs) as Hall.
    rewrite Forall_forall in Hall.
    rewrite !not_elem_of_cons. split_and!; try (by intros <-); intros Hin%Hall; naive_solver.
Qed.

(** A backtick-quoted lexeme with its delimiters removed holds no delimiter unless it
    is escaped. *)
Lemma qscan_inner quote cs k r :
  qscan quote false 0 cs = (k, r) -> cBSLASH ∉ k -> forall inner, k = inner ++ [quote] -> quote ∉ inner.
Proof.
  revert k. induction cs as [|c cs IH]; intros k H Hb inner Hk; cbn in H.
  - simplify_eq. by destruct inner.
  - case_decide; [exfalso; subst c; destruct cs; injection H as <- <-; apply Hb; left|].
    case_decide as Hq; cbn in H.
    + simplify_eq. destruct inner as [|? inner]; [set_solver|]. destruct inner; simplify_eq/=.
    + destruct (qscan quote false 0 cs) as [k0 r0]. injection H as <- <-.
      destruct inner as [|d inner]; [set_solver|]. injection Hk as <- ->.
      specialize (IH _ eq_refl ltac:(set_solver) inner eq_refl). set_solver.
Qed.

Lemma quoted_name_spec q sql inner :
  Quoted q ∈ lexemes sql -> quoted_name q = Some inner ->
  inner <> [] /\ cBTICK ∉ inner /\ cBSLASH ∉ inner /\ occurs inner q.
Proof.
  unfold quoted_name. destruct (strip_prefix [cBTICK] q) as [rest|] eqn:E1; [|done]. cbn.
  destruct (strip_suffix [cBTICK] rest) as [i|] eqn:E2; [|done]. cbn.
  case_decide as Hd; [done|]. intros Hin [= ->].
  apply strip_prefix_Some in E1. apply strip_suffix_Some in E2. subst.
  assert (Hi : inner <> [] /\ cBSLASH ∉ inner) by tauto. destruct Hi as [Hi1 Hi2].
  split_and!; [done| |done| exists [cBTICK], [cBTICK]; done].
  revert sql Hin. apply (scan_ind (fun sql => Quoted _ ∈ lexemes sql -> _)).
  - rewrite lexemes_nil. set_solver.
  - intros s x r Hs IH. rewrite (lexemes_cons _ _ _ Hs), elem_of_cons. intros [Hx|]; [|by apply IH].
    subst x. destruct s as [|c cs]; [done|]. cbn in Hs. injection Hs as Hs.
    case_decide; [|repeat case_decide; try done; destruct (is_ident_char c); done].
    unfold tok in Hs. injection Hs as -> Hk Hr. unfold quoted_scan in *.
    rewrite decide_False in Hk, Hr by naive_solver.
    destruct (qscan cBTICK false 0 cs) as [k r0] eqn:E. cbn in Hk. subst k.
    eapply (qscan_inner _ _ _ _ E); [set_solver | done].
Qed.

Lemma params_loop_inv sql ls st :
  (forall x, x ∈ ls -> x ∈ lexemes sql) -> params_inv sql st ->
  exists seen, params_inv sql (params_loop ls st, seen).
Proof.
  remember (length ls) as n eqn:Hn. assert (Hle : length ls <= n) by lia. clear Hn.
  revert ls st Hle. induction n as [|n IH]; intros ls st Hle Hls Hst.
  { destruct ls; [|cbn in Hle; lia]. exists st.2. by destruct st. }
  destruct ls as [|x rest]; cbn [params_loop]; [exists st.2; by destruct st|]. cbn in Hle.
  assert (Hrest : exists seen, params_inv sql (params_loop rest st, seen)).
  { apply IH; [lia | set_solver | done]. }
  case_decide; [|done]. destruct rest as [|y rest]; [done|]. cbn in Hle.
  destruct y as [w|q|c|c]; [| | done |].
  - destruct (starts_name w) eqn:Hw; [|done]. apply IH; [lia | set_solver |].
    assert (Hin : Word w ∈ lexemes sql) by set_solver.
    destruct (word_no_special w sql Hin). apply add_param_inv; try done.
    + by destruct w.
    + by apply lexeme_occurs in Hin.
  - apply IH; [lia | set_solver |]. destruct (quoted_name q) as [inner|] eqn:Hq; [|done].
    assert (Hin : Quoted q ∈ lexemes sql) by set_solver.
    destruct (quoted_name_spec q sql inner Hin Hq) as (? & ? & ? & ?).
    apply add_param_inv; try done. eapply occurs_trans; [done|].
    by apply (lexeme_occurs (Quoted q)).
  - case_decide; [|done]. apply IH; [lia | set_solver | done].
Qed.

Lemma named_parameters_inv sql : exists seen, params_inv sql (named_parameters sql, seen).
Proof.
  apply params_loop_inv; [intros x; apply elem_of_significant|].
  split_and!; cbn; [constructor | done | constructor].
Qed.

(** ** Identifier quoting *)

Lemma find_bad_None ident :
  List.find bad_ident_char ident = None <-> Forall (fun c => bad_ident_char c = false) ident.
Proof.
  induction ident as [|c ident IH]; cbn; [by split|]. rewrite Forall_cons, <- IH.
  destruct (bad_ident_char c); naive_solver.
Qed.

Lemma quote_ident_Ok ident q :
  quote_ident ident = Ok q <->
  ident <> [] /\ Forall (fun c => bad_ident_char c = false) ident /\
  q = [cBTICK] ++ ident ++ [cBTICK].
Proof.
  unfold quote_ident. rewrite <- find_bad_None.
  destruct ident as [|c ident]; [naive_solver|].
  destruct (List.find bad_ident_char (c :: ident)); naive_solver.
Qed.

Lemma bad_ident_clean ident :
  Forall (fun c => bad_ident_char c = false) ident -> cBTICK ∉ ident /\ cBSLASH ∉ ident.
Proof.
  rewrite Forall_forall. intros H. split; intros Hin%H; done.
Qed.

Lemma qscan_clean quote body s :
  quote ∉ body -> cBSLASH ∉ body -> quote <> cBSLASH ->
  qscan quote false 0 (body ++ quote :: s) = (body ++ [quote], s).
Proof.
  intros Hq Hb Hne. induction body as [|c body IH]; cbn.
  - rewrite decide_False, decide_True by done. done.
  - rewrite !decide_False by set_solver. rewrite IH by set_solver. done.
Qed.

(** A quoted identifier lexes as one token, whatever comes after it. *)
Lemma quote_ident_scan ident q s :
  quote_ident ident = Ok q -> scan (q ++ s) = Some (Quoted q, s).
Proof.
  intros (_ & H & ->)%quote_ident_Ok. apply bad_ident_clean in H as [H1 H2].
  rewrite <- !app_assoc. cbn. unfold tok, quoted_scan.
  rewrite decide_True by tauto. rewrite decide_False by (by intros [? _]). by rewrite qscan_clean.
Qed.

Lemma quote_ident_closed ident q :
  quote_ident ident = Ok q -> lexemes q = [Quoted q] /\ closed q.
Proof.
  intros H. pose proof (quote_ident_scan _ _ [] H) as H0. rewrite app_nil_r in H0. split.
  - by rewrite (lexemes_cons _ _ _ H0), lexemes_nil.
  - eapply closed_scan; [done|]. intros s. by eapply quote_ident_scan.
Qed.

Lemma qualified_table_closed db_schema table q :
  qualified_table db_schema table = Ok q ->
  closed q /\ lexemes q <> [] /\ Forall (fun x => x = Other cDOT \/ exists t, x = Quoted t) (lexemes q).
Proof.
  unfold qualified_table. destruct db_schema as [[|c sch]|].
  2: { intros H. inv_bind H. apply Ok_inj in H. subst q.
       apply quote_ident_closed in E as [E1 E2]. apply quote_ident_closed in E0 as [E3 E4].
       assert (closed [cDOT]) as Hdot by (apply closed_separator; repeat split; try done; intros [|[|]]; done).
       split; [by apply closed_app, closed_app|].
       assert (lexemes [cDOT] = [Other cDOT]) as Hd by done.
       rewrite E2, Hdot, E1, Hd, E3. cbn [app]. split; [done|].
       rewrite !Forall_cons. split_and!; eauto. }
  all: intros [H1 H2]%quote_ident_closed; split; [done|]; rewrite H1; split; [done|];
    rewrite Forall_singleton; eauto.
Qed.

(** ** [THEN RETURN] *)

Definition depth_step (d : nat) (l : Lexeme) : nat :=
  match l with
  | Word w => if eq_ignore_ascii_case w (str "CASE") then d + 1
              else if eq_ignore_ascii_case w (str "END") then d - 1 else d
  | _ => d
  end.

(** The [CASE] nesting after the lexemes [ls]; an unbalanced [END] stays at zero. *)
Definition case_depth (d : nat) (ls : list Lexeme) : nat := foldl depth_step d ls.

(** Lexemes that may stand between the two keywords. *)
Definition wordless (l : Lexeme) : Prop :=
  match l with Comment _ | Other _ => True | _ => False end.

Definition is_word (kw : String.string) (l : Lexeme) : Prop :=
  exists w, l = Word w /\ eq_ignore_ascii_case w (str kw) = true.

(** A [RETURN] after lexemes that carry no word, at depth zero. *)
Definition return_next (d : nat) (ls : list Lexeme) : Prop :=
  d = 0 /\ exists l2 r l3, ls = l2 ++ r :: l3 /\ Forall wordless l2 /\ is_word "RETURN" r.

(** A [THEN] whose next word is [RETURN], outside every [CASE]. *)
Definition then_return (d : nat) (ls : list Lexeme) : Prop :=
  exists l1 t ls', ls = l1 ++ t :: ls' /\ is_word "THEN" t /\ return_next (case_depth d (l1 ++ [t])) ls'.

Lemma return_next_cons d x ls :
  return_next d (x :: ls) <-> (d = 0 /\ is_word "RETURN" x) \/ (wordless x /\ return_next d ls).
Proof.
  split.
  - intros (Hd & l2 & r & l3 & H & Hw & Hr). destruct l2 as [|y l2]; simplify_eq/=; [by left|].
    apply Forall_cons in Hw as [? ?]. right. split; [done|]. split; [done|]. by exists l2, r, l3.
  - intros [[Hd Hr]|[Hx (Hd & l2 & r & l3 & -> & Hw & Hr)]]; (split; [done|]).
    + by exists [], x, ls.
    + exists (x :: l2), r, l3. split_and!; [done | by constructor | done].
Qed.

Lemma then_return_cons d x ls :
  then_return d (x :: ls) <->
  (is_word "THEN" x /\ return_next (depth_step d x) ls) \/ then_return (depth_step d x) ls.
Proof.
  split.
  - intros (l1 & t & ls' & H & Ht & Hr). destruct l1 as [|y l1]; simplify_eq/=; [by left|].
    right. by exists l1, t, ls'.
  - intros [[Ht Hr]|(l1 & t & ls' & -> & Ht & Hr)]; [by exists [], x, ls|].
    by exists (x :: l1), t, ls'.
Qed.

Lemma is_word_Word kw w : is_word kw (Word w) <-> eq_ignore_ascii_case w (str kw) = true.
Proof. split; [by intros (? & [= <-] & ?) | by exists w]. Qed.

Lemma returning_loop_spec ls b d :
  returning_loop b d ls = true <-> (b = true /\ return_next d ls) \/ then_return d ls.
Proof.
  revert b d. induction ls as [|x ls IH]; intros b d.
  - split; [done|]. intros [(_ & _ & l2 & r & l3 & H & _)|(l1 & t & ls' & H & _)];
      [by destruct l2 | by destruct l1].
  - rewrite return_next_cons, then_return_cons. destruct x as [w|q|c|c]; cbn [returning_loop].
    + rewrite !is_word_Word.
      destruct (b && bool_decide (d = 0) && eq_ignore_ascii_case w (str "RETURN")) eqn:E.
      * apply andb_true_iff in E as [[Hb Hd%bool_decide_eq_true]%andb_true_iff Hr].
        split; [|done]. intros _. left. split; [done|]. by left.
      * rewrite IH. fold (depth_step d (Word w)). split; [naive_solver|].
        intros [(-> & [[-> Hr]|[[] _]])|H]; [|naive_solver].
        rewrite Hr in E. by cbn in E.
    + rewrite IH. cbn. unfold is_word. naive_solver.
    + rewrite IH. cbn. unfold is_word. naive_solver.
    + rewrite IH. cbn. unfold is_word. naive_solver.
Qed.

(** ** Texts that are transparent to classification *)

Inductive skippable : rstr -> Prop :=
  | skip_ws c : is_whitespace c = true -> skippable [c]
  | skip_line body : cNL ∉ body -> skippable ([cDASH; cDASH] ++ body ++ [cNL])
  | skip_hash body : cNL ∉ body -> skippable ([cHASH] ++ body ++ [cNL])
  | skip_block body : no_close body -> skippable ([cSLASH; cSTAR] ++ body ++ [cSTAR; cSLASH])
  | skip_hint p body ls :
      significant_lexemes p = Other cAT :: Other cLBRACE :: body ++ [Other cRBRACE] ->
      Other cRBRACE ∉ body -> lexemes p = ls ++ [Other cRBRACE] -> skippable p.

Lemma first_keyword_comment p s :
  scan p = Some (Comment p, []) -> closed p -> first_keyword (p ++ s) = first_keyword s.
Proof.
  intros Hs Hc. apply first_keyword_closed; [done|].
  by rewrite (lexemes_cons _ _ _ Hs), lexemes_nil.
Qed.

Lemma first_keyword_skip p s : skippable p -> first_keyword (p ++ s) = first_keyword s.
Proof.
  destruct 1 as [c Hc|body Hb|body Hb|body Hb|p body ls Hp Hb Hl].
  - unfold first_keyword, significant_lexemes. cbn. rewrite (lexemes_cons _ _ _ (ws_scan c s Hc)).
    cbn. by rewrite Hc.
  - destruct (closed_line_comment [cDASH; cDASH] body); [by left | done|].
    by apply first_keyword_comment.
  - destruct (closed_line_comment [cHASH] body); [by right | done|]. by apply first_keyword_comment.
  - destruct (closed_block_comment body Hb). by apply first_keyword_comment.
  - assert (Hc : closed p).
    { eapply closed_last; [done|]. intros s'. apply separator_scan.
      repeat split; try done. intros [|[|]]; done. }
    unfold first_keyword. assert (significant_lexemes (p ++ s) =
      significant_lexemes p ++ significant_lexemes s) as ->.
    { unfold significant_lexemes. by rewrite Hc, List.filter_app. }
    rewrite Hp. cbn. change (Other cLBRACE :: (body ++ [Other cRBRACE]) ++ significant_lexemes s)
      with ((Other cLBRACE :: body ++ [Other cRBRACE]) ++ significant_lexemes s).
    rewrite <- app_assoc. apply hint_loop. done.
Qed.

(** ** Theorems *)

Lemma split_statements_in_order sql : in_order (split_statements sql) sql.
Proof.
  pose proof (split_loop_in_order (lexemes sql) [] [] [] (in_order_nil [])) as H.
  cbn [app] in H. by rewrite texts_lexemes in H.
Qed.

(** Either nothing was stripped that matters, or the one statement is returned. *)
Lemma strip_cases sql :
  strip_trailing_terminators sql = sql \/
  exists s, split_statements sql = [s] /\ strip_trailing_terminators sql = s.
Proof.
  unfold strip_trailing_terminators. destruct (split_statements sql) as [|s [|s' l]]; [by left| |by left].
  right. by exists s.
Qed.

(** Draining the lexer terminates, never slices inside a char or out of range, and
    its lexemes, concatenated in order, are the source text: no gap, no overlap. *)
Theorem lex_partition sql :
  exists ls, (forall fuel, length sql < fuel -> collect fuel (lex sql) = Some ls) /\ texts ls = sql.
Proof.
  exists (lexemes sql). split; [|apply texts_lexemes]. intros fuel Hf.
  rewrite <- lex_collect. apply collect_agree; cbn; try lia; try apply lex_wf. done.
Qed.

(** Lexing is local: any run of consecutive lexemes, cut out of its context, lexes to
    itself, so a statement means to the lexer on its own what it meant in its batch. *)
Theorem lexemes_local sql before run after :
  lexemes sql = before ++ run ++ after -> lexemes (texts run) = run.
Proof. apply relex. Qed.

Lemma lexemes_local_witness :
  lexemes (texts [Quoted (str "';'"); Other cSEMI]) = [Quoted (str "';'"); Other cSEMI].
Proof.
  apply (lexemes_local (str "a ';';b") [Word (str "a"); Other cSPACE]
           [Quoted (str "';'"); Other cSEMI] [Word (str "b")]).
  vm_compute. reflexivity.
Defined.

(** C2: Every statement the splitter emits is exactly one statement: it carries a
    statement, has no top-level [;] left, and splitting it again returns it alone. *)
Theorem split_statements_exact sql s :
  s ∈ split_statements sql ->
  split_statements s = [s] /\ has_statement (lexemes s) = true /\ Other cSEMI ∉ lexemes s.
Proof.
  intros Hs. pose proof (split_statements_ok sql) as H. rewrite Forall_forall in H.
  specialize (H s Hs). split; [by apply statement_ok_split | apply H].
Qed.

Lemma split_statements_exact_witness :
  split_statements (str "INSERT INTO t VALUES (r'x\'; DELETE')") =
    [str "INSERT INTO t VALUES (r'x\'; DELETE')"] /\
  has_statement (lexemes (str "INSERT INTO t VALUES (r'x\'; DELETE')")) = true /\
  Other cSEMI ∉ lexemes (str "INSERT INTO t VALUES (r'x\'; DELETE')").
Proof.
  apply (split_statements_exact (str " INSERT INTO t VALUES (r'x\'; DELETE') ;; -- done")).
  vm_compute. left.
Defined.

(** The emitted statements are non-empty, trimmed, and occur verbatim in the input,
    disjointly and in the order they are emitted. *)
Theorem split_statements_preserve sql :
  in_order (split_statements sql) sql /\
  Forall (fun s => s <> [] /\ trim s = s) (split_statements sql).
Proof.
  split.
  - apply split_statements_in_order.
  - eapply Forall_impl; [apply split_statements_ok|]. intros s Hs.
    split; [by apply statement_ok_nonnil | apply Hs].
Qed.

(** Stripping terminators never changes the statements the splitter sees, is
    idempotent, and only ever returns a contiguous part of the input. *)
Theorem strip_trailing_terminators_stable sql :
  split_statements (strip_trailing_terminators sql) = split_statements sql /\
  strip_trailing_terminators (strip_trailing_terminators sql) = strip_trailing_terminators sql /\
  occurs (strip_trailing_terminators sql) sql.
Proof.
  destruct (strip_cases sql) as [H|(s & E & ->)]; [rewrite !H|].
  - split_and!; [done.. | exists [], []; by rewrite app_nil_r].
  - pose proof (split_statements_ok sql) as Hok. pose proof (split_statements_in_order sql) as Hin.
    rewrite E in *. apply Forall_singleton, statement_ok_split in Hok.
    unfold strip_trailing_terminators. rewrite Hok. split_and!; [done..|].
    inversion Hin; subst. by eexists _, _.
Qed.

(** Leading whitespace, line and block comments, and statement hints are transparent
    to classification: what follows them keeps its first keyword and its DDL/DML routing. *)
Theorem classification_transparent p sql :
  skippable p ->
  first_keyword (p ++ sql) = first_keyword sql /\
  is_ddl (p ++ sql) = is_ddl sql /\ is_dml (p ++ sql) = is_dml sql.
Proof.
  intros H. pose proof (first_keyword_skip p sql H) as Hk.
  unfold is_ddl, is_dml, keyword_in. by rewrite Hk.
Qed.

Lemma classification_transparent_witness :
  first_keyword (str "@{HINT='}'}" ++ str "update t set a = 1") = first_keyword (str "update t set a = 1") /\
  is_ddl (str "@{HINT='}'}" ++ str "update t set a = 1") = is_ddl (str "update t set a = 1") /\
  is_dml (str "@{HINT='}'}" ++ str "update t set a = 1") = is_dml (str "update t set a = 1").
Proof.
  apply classification_transparent.
  apply (skip_hint _ [Word (str "HINT"); Other cEQ; Quoted (str "'}'")]
           [Other cAT; Other cLBRACE; Word (str "HINT"); Other cEQ; Quoted (str "'}'")]);
    [vm_compute; reflexivity | rewrite !not_elem_of_cons; split_and!; [done..|apply not_elem_of_nil] | vm_compute; reflexivity].
Defined.

(** DDL and DML are disjoint, and a first keyword is a non-empty run of ASCII letters
    that starts a word of the input. *)
Theorem classification_exclusive sql :
  ~ (is_ddl sql = true /\ is_dml sql = true) /\
  match first_keyword sql with
  | Some k => k <> [] /\ Forall (fun c => is_ascii_alphabetic c = true) k /\
              exists t, Word (k ++ t) ∈ lexemes sql
  | None => True
  end.
Proof.
  split.
  - unfold is_ddl, is_dml, keyword_in. destruct (first_keyword sql) as [k|]; [|naive_solver].
    unfold DDL_KEYWORDS, DML_KEYWORDS. cbn [existsb].
    rewrite !orb_true_iff, !eq_ignore_ascii_case_spec. intros [H1 H2].
    repeat destruct H1 as [H1|H1]; repeat destruct H2 as [H2|H2]; try done;
      rewrite H1 in H2; vm_compute in H2; discriminate H2.
  - destruct (first_keyword sql) as [k|] eqn:E; [|done].
    apply first_keyword_shape in E as (? & ? & w & t & Hw & ->).
    split_and!; [done..|]. exists t. by apply elem_of_significant.
Qed.

(** A statement returns rows exactly when, outside every [CASE], a word [THEN] is
    followed by the word [RETURN] with only comments and punctuation between them. *)
Theorem is_dml_returning_spec sql :
  is_dml_returning sql = true <-> then_return 0 (lexemes sql).
Proof. unfold is_dml_returning. rewrite returning_loop_spec. naive_solver. Qed.

(** The bind parameters are pairwise distinct up to ASCII case, non-empty, free of
    delimiters and escapes, and each occurs verbatim in the query. *)
Theorem named_parameters_distinct sql :
  NoDup (map to_ascii_lowercase (named_parameters sql)) /\
  Forall (fun p => p <> [] /\ cBTICK ∉ p /\ cBSLASH ∉ p /\ occurs p sql) (named_parameters sql).
Proof. destruct (named_parameters_inv sql) as (seen & ? & _ & ?). by split. Qed.

(** Quoting either rejects the name as an invalid argument, because it is empty or
    holds a backtick, a backslash or a control char, or returns the name between two
    backticks, which the lexer reads as one token whatever text follows it. *)
Theorem quote_ident_inert ident :
  match quote_ident ident with
  | Ok q => q = [cBTICK] ++ ident ++ [cBTICK] /\ cBTICK ∉ ident /\ cBSLASH ∉ ident /\
            forall s, lexemes (q ++ s) = Quoted q :: lexemes s
  | Err e => status e = InvalidArguments /\
             (ident = [] \/ exists c, c ∈ ident /\ bad_ident_char c = true)
  end.
Proof.
  destruct (quote_ident ident) as [q|e] eqn:E.
  - pose proof (quote_ident_closed _ _ E) as [Hq Hc].
    apply quote_ident_Ok in E as (_ & Hb & ->). apply bad_ident_clean in Hb as [? ?].
    split_and!; [done..|]. intros s. by rewrite Hc, Hq.
  - unfold quote_ident in E. destruct ident as [|c ident]; [simplify_eq; split; [done | by left]|].
    destruct (List.find bad_ident_char (c :: ident)) as [b|] eqn:F; simplify_eq.
    split; [done|]. right. exists b. apply find_some in F as [F1 F2].
    by rewrite list_elem_of_In.
Qed.
