(* ===== verification/Runtime.v ===== *)
(** * [src/runtime.rs]: cancellation signals and the prefetching stream

    Cancel signals are shared, sticky flags: they live in a [Signals] store and a
    [CancelSlot] holds the one of the current operation.  The prefetch task and
    the [SpannerBatchReader] of [src/conversion.rs] that consumes its channel run
    concurrently: their interleavings are a step relation, one rule per branch of
    the task's two [select!]s and per way the reader's [next] completes. *)

From S2P Require Import Prelude RustStr ErrorModel.

Definition cancelled_err : Error :=
  err [Lit "operation cancelled: the ADBC cancel handle for this connection or statement was signalled; execute the operation again to retry it"] Cancelled.

(** ** Signals and slots *)

Abbreviation Signals := (gmap positive bool) (only parsing).

(** [CancelSignal::new]. *)
Definition signal_new (s : Signals) : Signals * positive :=
  let id := fresh (dom s) in (<[id := false]> s, id).

(** [CancelSignal::signal]: the flag is only ever set. *)
Definition signal_latch (s : Signals) (id : positive) : Signals := <[id := true]> s.

Definition is_latched (s : Signals) (id : positive) : bool := default false (s !! id).

(** The slots of the live objects, each holding its current signal. *)
Record Slots := mkSlots { signals : Signals; slots : gmap positive positive }.

Inductive SlotOp :=
  | NewSlot (o : positive)
  | BeginOperation (o : positive)
  | TryCancel (o : positive).

(** [CancelSlot::new] / [begin_operation] put a fresh signal in the slot;
    [try_cancel] latches the slot's current signal and always succeeds. *)
Definition slot_step (s : Slots) (op : SlotOp) : Slots :=
  match op with
  | NewSlot o | BeginOperation o =>
      let '(sg, id) := signal_new (signals s) in mkSlots sg (<[o := id]> (slots s))
  | TryCancel o =>
      match slots s !! o with
      | Some id => mkSlots (signal_latch (signals s) id) (slots s)
      | None => s
      end
  end.

Definition slot_run (s : Slots) (ops : list SlotOp) : Slots := foldl slot_step s ops.

(** Whether the current signal of a slot is latched. *)
Definition slot_cancelled (s : Slots) (o : positive) : bool :=
  match slots s !! o with Some id => is_latched (signals s) id | None => false end.

(** Different objects hold different signals, and every held signal exists. *)
Definition slots_wf (s : Slots) : Prop :=
  (forall o id, slots s !! o = Some id -> is_Some (signals s !! id)) /\
  (forall o1 o2 id, slots s !! o1 = Some id -> slots s !! o2 = Some id -> o1 = o2).

Lemma fresh_not_in (m : Signals) : m !! fresh (dom m) = None.
Proof. apply not_elem_of_dom, is_fresh. Qed.

Lemma slot_step_wf s op : slots_wf s -> slots_wf (slot_step s op).
Proof.
  intros [Hex Hinj].
  assert (forall o, slots_wf (mkSlots (<[fresh (dom (signals s)) := false]> (signals s))
            (<[o := fresh (dom (signals s))]> (slots s)))) as Hnew.
  { intros o. split; cbn.
    - intros o' id. destruct (decide (o' = o)) as [->|Hne].
      + rewrite lookup_insert_eq. intros [= <-]. by rewrite lookup_insert_eq.
      + rewrite lookup_insert_ne by done. intros [b Hb]%Hex.
        rewrite lookup_insert_ne; [by eexists|]. intros E. by rewrite <- E, fresh_not_in in Hb.
    - intros o1 o2 id. destruct (decide (o1 = o)) as [->|H1], (decide (o2 = o)) as [->|H2];
        rewrite ?lookup_insert_eq, ?lookup_insert_ne by done; try done.
      + intros [= <-] [b Hb]%Hex. by rewrite fresh_not_in in Hb.
      + intros [b Hb]%Hex [= <-]. by rewrite fresh_not_in in Hb.
      + apply Hinj. }
  destruct op as [o|o|o]; cbn [slot_step signal_new]; [apply Hnew..|].
  destruct (slots s !! o) as [id|] eqn:E; [|by split].
  split; cbn; [|exact Hinj]. intros o' id' [b Hb]%Hex. unfold signal_latch.
  destruct (decide (id' = id)) as [->|]; [rewrite lookup_insert_eq | rewrite lookup_insert_ne by done];
    by eexists.
Qed.

Lemma slot_run_wf s ops : slots_wf s -> slots_wf (slot_run s ops).
Proof. revert s. induction ops; cbn; auto using slot_step_wf. Qed.

(** A latched signal stays latched, whatever happens next. *)
Lemma slot_step_sticky s op id :
  is_latched (signals s) id = true -> is_latched (signals (slot_step s op)) id = true.
Proof.
  unfold is_latched. intros H.
  assert (forall o, is_latched (signals (slot_step s (BeginOperation o))) id = true) as Hb.
  { intros o. unfold is_latched; cbn. rewrite lookup_insert_ne; [done|].
    intros <-. by rewrite fresh_not_in in H. }
  destruct op as [o|o|o]; [apply (Hb o)..|]. cbn.
  destruct (slots s !! o) as [i|]; [|done]. cbn. unfold signal_latch.
  destruct (decide (i = id)) as [->|]; [by rewrite lookup_insert_eq|by rewrite lookup_insert_ne].
Qed.

Lemma slot_run_sticky s ops id :
  is_latched (signals s) id = true -> is_latched (signals (slot_run s ops)) id = true.
Proof. revert s. induction ops as [|op ops IH]; cbn; auto using slot_step_sticky. Qed.

(** An operation is cancelled only by a cancel aimed at its own object while it
    is the current one. *)
Lemma slot_step_latches s op id :
  is_latched (signals (slot_step s op)) id = true ->
  is_latched (signals s) id = true \/ exists o, op = TryCancel o /\ slots s !! o = Some id.
Proof.
  unfold is_latched. intros H.
  assert (forall o, default false (signals (slot_step s (BeginOperation o)) !! id) = true ->
          default false (signals s !! id) = true) as Hb.
  { intros o. cbn. destruct (decide (id = fresh (dom (signals s)))) as [->|].
    - by rewrite lookup_insert_eq.
    - by rewrite lookup_insert_ne. }
  destruct op as [o|o|o]; [left; by apply (Hb o)..|]. cbn in H.
  destruct (slots s !! o) as [i|] eqn:E; [|by left]. cbn in H. unfold signal_latch in H.
  destruct (decide (i = id)) as [->|]; [right; eauto | left; by rewrite lookup_insert_ne in H].
Qed.

(** A signal only one slot holds is not latched by operations that never cancel
    that slot. *)
Lemma slot_run_unlatched s o id ops :
  Forall (fun op => op <> TryCancel o) ops ->
  slots_wf s -> is_latched (signals s) id = false -> is_Some (signals s !! id) ->
  (forall o', slots s !! o' = Some id -> o' = o) ->
  is_latched (signals (slot_run s ops)) id = false.
Proof.
  intros Hops. revert s. induction Hops as [|op ops Hop _ IH]; intros s Hw Hl Hs Ho; [done|].
  cbn. apply IH; [by apply slot_step_wf| | |].
  - destruct (is_latched (signals (slot_step s op)) id) eqn:E; [|done].
    apply slot_step_latches in E as [E|(o' & -> & Ho')]; [congruence|].
    by rewrite (Ho _ Ho') in Hop.
  - destruct op as [o'|o'|o']; cbn.
    1,2: destruct (decide (id = fresh (dom (signals s)))) as [->|];
         [by rewrite lookup_insert_eq | by rewrite lookup_insert_ne].
    destruct (slots s !! o') as [p|]; [|done]. cbn. unfold signal_latch.
    destruct (decide (id = p)) as [->|];
      [by rewrite lookup_insert_eq | by rewrite lookup_insert_ne].
  - intros o'. destruct op as [q|q|q]; cbn.
    1,2: destruct (decide (o' = q)) as [->|];
      [rewrite lookup_insert_eq; intros [= E]; destruct Hs as [b Hb];
       by rewrite <- E, fresh_not_in in Hb | rewrite lookup_insert_ne by done; apply Ho].
    destruct (slots s !! q); apply Ho.
Qed.

(** A slot keeps its signal until its next operation begins. *)
Lemma slot_run_current s o id ops :
  Forall (fun op => op <> NewSlot o /\ op <> BeginOperation o) ops ->
  slots s !! o = Some id -> slots (slot_run s ops) !! o = Some id.
Proof.
  intros Hops. revert s. induction Hops as [|op ops [H1 H2] _ IH]; intros s Hid; [done|].
  cbn. apply IH. destruct op as [q|q|q]; cbn.
  1,2: rewrite lookup_insert_ne by congruence; done.
  destruct (slots s !! q); done.
Qed.

(** Cancellation is sticky and scoped to one operation.  From any state where
    the live objects hold distinct signals, a new operation starts uncancelled;
    the signal it holds stays uncancelled exactly as long as nobody cancels that
    object before its next operation; once cancelled it stays cancelled forever,
    through any later operations of any object; and a cancel never reaches an
    operation of another object. *)
Theorem cancellation_scoped s o ops :
  slots_wf s ->
  let s1 := slot_step s (BeginOperation o) in
  exists id, slots s1 !! o = Some id /\ is_latched (signals s1) id = false /\
    (Forall (fun op => op <> TryCancel o) ops ->
       is_latched (signals (slot_run s1 ops)) id = false) /\
    (forall ops', Forall (fun op => op <> NewSlot o /\ op <> BeginOperation o) ops ->
       is_latched (signals (slot_run s1 (ops ++ TryCancel o :: ops'))) id = true) /\
    (forall o' id', o' <> o -> slots s1 !! o' = Some id' ->
       is_latched (signals (slot_step s1 (TryCancel o))) id' = is_latched (signals s1) id').
Proof.
  intros Hwf s1. set (id := fresh (dom (signals s))).
  assert (slots_wf s1) as Hwf1 by (by apply slot_step_wf).
  assert (slots s1 !! o = Some id) as Hid by apply lookup_insert_eq.
  assert (is_latched (signals s1) id = false) as Hf
    by (unfold is_latched, s1; cbn; by rewrite lookup_insert_eq).
  exists id. split_and!; [done..| | |].
  - intros Hops. apply (slot_run_unlatched s1 o id ops); try done.
    + by apply (proj1 Hwf1 o).
    + intros o' Ho'. by eapply (proj2 Hwf1).
  - intros ops' Hops. pose proof (slot_run_current s1 o id ops Hops Hid) as Hcur.
    unfold slot_run. rewrite foldl_app. cbn [foldl]. apply slot_run_sticky.
    change (foldl slot_step s1 ops) with (slot_run s1 ops). cbn [slot_step]. rewrite Hcur.
    unfold is_latched; cbn [signals]. unfold signal_latch. by rewrite lookup_insert_eq.
  - intros o' id' Hne Ho'. cbn [slot_step]. rewrite Hid. unfold is_latched; cbn. unfold signal_latch.
    rewrite lookup_insert_ne; [done|]. intros E. apply Hne. rewrite E in Hid. by eapply (proj2 Hwf1).
Qed.

Lemma cancellation_scoped_witness :
  exists id, is_latched (signals (slot_run (slot_step (mkSlots ∅ ∅) (BeginOperation 1))
    ([] ++ TryCancel 1 :: [BeginOperation 1; NewSlot 2]))) id = true.
Proof.
  destruct (cancellation_scoped (mkSlots ∅ ∅) 1 []) as (id & _ & _ & _ & H & _).
  - by split.
  - exists id. apply H. constructor.
Defined.

(** ** No wakeup is lost in [CancelSignal::cancelled]

    One waiter runs the loop of [cancelled]; one thread runs [signal].  A
    [notify_waiters] wakes only a waiter that is registered at that moment. *)

Inductive Waiter := WCheck | WRegister | WRecheck | WAwait | WDone.
Inductive Signaller := SIdle | SStored | SNotified.

Record Wait := mkWait {
  waiter : Waiter;
  signaller : Signaller;
  flag : bool;
  registered : bool;
  woken : bool;
}.

Definition wait_new : Wait := mkWait WCheck SIdle false false false.

Inductive wait_step : Wait -> Wait -> Prop :=
  | W_check_set sg r w : wait_step (mkWait WCheck sg true r w) (mkWait WDone sg true r w)
  | W_check_clear sg r w :
      wait_step (mkWait WCheck sg false r w) (mkWait WRegister sg false false false)
  | W_enable sg f r w : wait_step (mkWait WRegister sg f r w) (mkWait WRecheck sg f true w)
  | W_recheck_set sg r w : wait_step (mkWait WRecheck sg true r w) (mkWait WDone sg true r w)
  | W_recheck_clear sg r w : wait_step (mkWait WRecheck sg false r w) (mkWait WAwait sg false r w)
  | W_woken sg f r : wait_step (mkWait WAwait sg f r true) (mkWait WCheck sg f false false)
  | W_store w f r k : wait_step (mkWait w SIdle f r k) (mkWait w SStored true r k)
  | W_notify w f r k : wait_step (mkWait w SStored f r k) (mkWait w SNotified f r (r || k)).

Definition wait_inv (s : Wait) : Prop :=
  (signaller s <> SIdle -> flag s = true) /\
  (waiter s = WAwait -> registered s = true) /\ (waiter s = WRecheck -> registered s = true) /\
  (waiter s = WAwait -> signaller s = SNotified -> woken s = true).

Lemma wait_inv_step s s' : wait_inv s -> wait_step s s' -> wait_inv s'.
Proof.
  unfold wait_inv. intros H Hstep. inversion Hstep; subst; cbn in *; try naive_solver.
Qed.

(** How far the waiter is from returning once the flag is set. *)
Definition wait_measure (s : Wait) : nat :=
  match waiter s with WDone => 0 | WCheck => 1 | WRecheck => 1 | WRegister => 2 | WAwait => 2 end.

(** C17: a cancel is never lost.  Whatever the interleaving of the waiter's loop
    with [signal], once [signal] has returned the waiter of [cancelled] is not
    parked for good: it returns within two of its own steps, and it cannot return
    before the flag is set. *)
Theorem no_lost_wakeup s :
  rtc wait_step wait_new s ->
  (waiter s = WDone -> flag s = true) /\
  (signaller s = SNotified ->
     exists s', nsteps wait_step (wait_measure s) s s' /\ waiter s' = WDone).
Proof.
  intros Hs. assert (wait_inv s /\ (waiter s = WDone -> flag s = true)) as [Hinv Hd].
  { remember wait_new as s0 eqn:E.
    assert (wait_inv s0 /\ (waiter s0 = WDone -> flag s0 = true)) as H0 by (by subst; repeat split).
    clear E. induction Hs as [|s0 s1 s2 H01 _ IH]; [done|]. apply IH. destruct H0 as [H0 H0'].
    split; [by eapply wait_inv_step|]. inversion H01; subst; cbn in *; try done. }
  split; [done|]. intros Hn. destruct Hinv as (Hf & _ & _ & Hw).
  destruct s as [w sg f r k]; cbn in *. subst sg. rewrite Hf in * by done.
  destruct w; cbn.
  - eexists. split; [eapply nsteps_l, nsteps_O; apply W_check_set|done].
  - eexists. split; [eapply nsteps_l; [apply W_enable|]; eapply nsteps_l, nsteps_O; apply W_recheck_set|done].
  - eexists. split; [eapply nsteps_l, nsteps_O; apply W_recheck_set|done].
  - rewrite Hw by done.
    eexists. split; [eapply nsteps_l; [apply W_woken|]; eapply nsteps_l, nsteps_O; apply W_check_set|done].
  - eexists. split; [apply nsteps_O|done].
Qed.

Lemma no_lost_wakeup_witness :
  exists s', nsteps wait_step 2 (mkWait WAwait SNotified true true true) s' /\ waiter s' = WDone.
Proof.
  apply (no_lost_wakeup (mkWait WAwait SNotified true true true)); [|done].
  eapply rtc_l; [apply W_check_clear|]. eapply rtc_l; [apply W_enable|].
  eapply rtc_l; [apply W_recheck_clear|]. eapply rtc_l; [apply W_store|].
  eapply rtc_once, W_notify.
Defined.
