(* ===== verification/Stream.v ===== *)
(** * Streaming results: [src/conversion.rs] readers over [src/runtime.rs] prefetch

    Pulling bounded chunks from a result set, from one result set or from the
    successive result sets of a bound query, and the concurrent system of the
    prefetch task, its one-slot channel and the reader.  A result set is the list
    of what its [next] will yield; a chunk source is the list of what its
    [next_chunk] will yield (an exhausted source yields empty chunks). *)

From S2P Require Import Prelude RustStr RustNum ErrorModel Runtime.

(** ** Values and their approximate size *)

Inductive Value :=
  | VNull
  | VBool (b : bool)
  | VNumber (x : f64)
  | VString (s : rstr)
  | VList (l : list Value)
  | VStruct (fields : list (rstr * Value)).

Fixpoint approx_value_bytes (v : Value) : Z :=
  match v with
  | VNull => 0
  | VBool _ => 1
  | VNumber _ => 8
  | VString s => Z.of_nat (utf8_len s)
  | VList l => (fix go l := match l with [] => 0 | v :: l => approx_value_bytes v + go l end) l
  | VStruct fs => (fix go l := match l with [] => 0 | (_, v) :: l => approx_value_bytes v + go l end) fs
  end%Z.

Definition Row : Type := list Value.

Definition approx_row_bytes (row : Row) : Z := foldr Z.add 0%Z (map approx_value_bytes row).

Definition CHUNK_BYTE_BUDGET : Z := 32 * 1024 * 1024.

Definition saturating_add_usize (a b : Z) : Z := Z.min usize_max (a + b).

Section Pull.
Context {RS : RpcStatus}.

Abbreviation ResultSet := (list (Row + SpannerError)) (only parsing).

(** The loop of [pull_chunk]: [len] rows and [bytes] bytes are already in the
    chunk.  The result carries what is left of the result set. *)
Fixpoint pull_loop (rs : ResultSet) (max len : Z) (bytes : Z) : ResultSet * Result (list Row) :=
  if decide (len < max)%Z then
    match rs with
    | [] => ([], Ok [])
    | inr e :: rs' => (rs', Err (from_spanner e))
    | inl row :: rs' =>
        let bytes := saturating_add_usize bytes (approx_row_bytes row) in
        if decide (CHUNK_BYTE_BUDGET <= bytes)%Z then (rs', Ok [row])
        else let '(rs'', r) := pull_loop rs' max (len + 1) bytes in (rs'', cons row <$> r)
    end
  else (rs, Ok []).

Definition pull_chunk (rs : ResultSet) (max : Z) : ResultSet * Result (list Row) :=
  pull_loop rs max 0 0.

(** [next_bound_chunk]: the next chunk of the current result set, or of the next
    statement's.  [execute] is the client's [execute_query] in the shared
    transaction; [statements] is what [next_statement] will yield. *)
Context {Sql : Type}.
Variable execute : Sql -> ResultSet + SpannerError.

Fixpoint next_bound_chunk (statements : list (Result Sql)) (rs : option ResultSet) (max : Z) :
    list (Result Sql) * option ResultSet * Result (option (list Row)) :=
  let step (rs : option ResultSet) :=
    match statements with
    | [] => ([], rs, Ok None)
    | Err e :: sts => (sts, rs, Err e)
    | Ok st :: sts =>
        match execute st with
        | inr e => (sts, rs, Err (from_spanner e))
        | inl rs' => next_bound_chunk sts (Some rs') max
        end
    end in
  match rs with
  | Some r =>
      match pull_chunk r max with
      | (r', Err e) => (statements, Some r', Err e)
      | (r', Ok []) => step None
      | (r', Ok rows) => (statements, Some r', Ok (Some rows))
      end
  | None => step None
  end.

(** ** What a sequence of pulls delivers *)

(** The rows of a result set before its first error. *)
Fixpoint rows_of (rs : ResultSet) : list Row :=
  match rs with inl row :: rs => row :: rows_of rs | _ => [] end.

Definition first_error (rs : ResultSet) : option SpannerError :=
  match drop (length (rows_of rs)) rs with inr e :: _ => Some e | _ => None end.

Lemma pull_loop_spec rs max len bytes rs' r :
  pull_loop rs max len bytes = (rs', r) -> (0 <= len)%Z ->
  match r with
  | Ok rows => rs = map inl rows ++ rs' /\ (Z.of_nat (length rows) <= Z.max 0 (max - len))%Z /\
               (rows = [] -> (len < max)%Z -> rs = [])
  | Err e => exists rows se, rs = map inl rows ++ inr se :: rs' /\ e = from_spanner se
  end.
Proof.
  revert len bytes rs' r. induction rs as [|[row|se] rs IH]; intros len bytes rs' r H Hlen; cbn in H.
  - case_decide; simplify_eq; split_and!; cbn; try done; lia.
  - case_decide; [|simplify_eq; split_and!; cbn; [done|lia|lia]].
    case_decide; [simplify_eq; split_and!; cbn; [done|lia|done]|].
    destruct (pull_loop rs max (len + 1) _) as [rs'' r''] eqn:E.
    apply IH in E; [|lia]. destruct r'' as [rows|e]; simplify_eq/=.
    + destruct E as (-> & Hl & _). split_and!; cbn; [done|lia|done].
    + destruct E as (rows & se & -> & ->). by exists (row :: rows), se.
  - case_decide; simplify_eq.
    + by exists [], se.
    + split_and!; cbn; [done|lia|done].
Qed.

Lemma rows_of_app rows rs : rows_of (map inl rows ++ rs) = rows ++ rows_of rs.
Proof. induction rows; cbn; congruence. Qed.

Lemma first_error_app rows rs : first_error (map inl rows ++ rs) = first_error rs.
Proof. unfold first_error. rewrite rows_of_app. induction rows; cbn; done. Qed.

(** Pull until the source is drained or fails; [fuel] pulls at most. *)
Fixpoint drain_pulls (fuel : nat) (rs : ResultSet) (max : Z) : list (Result (list Row)) :=
  match fuel with
  | O => []
  | S f => match pull_chunk rs max with
           | (_, Ok []) => [Ok []]
           | (_, Err e) => [Err e]
           | (rs', Ok rows) => Ok rows :: drain_pulls f rs' max
           end
  end.

(** The chunks a list of pulls delivers, in order. *)
Definition ok_chunks (l : list (Result (list Row))) : list (list Row) :=
  omap (fun r => match r with Ok rows => Some rows | Err _ => None end) l.

(** Chunking a result set neither loses, duplicates, reorders nor stalls.  With
    a positive row cap, pulling until the end takes at most one pull per row and
    one more; every chunk but the last is non-empty and within the cap; if the
    result set has no error, the chunks concatenate to exactly its rows and an
    empty chunk ends them; otherwise the rows before the failing pull are
    delivered and the pulls end with that error. *)
Theorem pull_chunk_complete rs max :
  (0 < max)%Z ->
  let pulls := drain_pulls (S (length rs)) rs max in
  Forall (fun c => (Z.of_nat (length c) <= max)%Z) (ok_chunks pulls) /\
  match first_error rs with
  | None => concat (ok_chunks pulls) = rows_of rs /\ last pulls = Some (Ok []) /\
            Forall (fun p => p <> Ok []) (removelast pulls)
  | Some e => last pulls = Some (Err (from_spanner e)) /\
              exists tail, rows_of rs = concat (ok_chunks pulls) ++ tail
  end.
Proof.
  intros Hmax.
  assert (forall n rs, length rs < n ->
    let pulls := drain_pulls n rs max in
    pulls <> [] /\ Forall (fun c => (Z.of_nat (length c) <= max)%Z) (ok_chunks pulls) /\
    match first_error rs with
    | None => concat (ok_chunks pulls) = rows_of rs /\ last pulls = Some (Ok []) /\
              Forall (fun p => p <> Ok []) (removelast pulls)
    | Some e => last pulls = Some (Err (from_spanner e)) /\
                exists tail, rows_of rs = concat (ok_chunks pulls) ++ tail
    end) as H; [|apply (H (S (length rs)) rs); lia].
  clear rs. intros n. induction n as [|n IH]; intros rs Hn; [lia|]. cbn [drain_pulls].
  destruct (pull_chunk rs max) as [rs' [[|row rows]|e]] eqn:E; apply pull_loop_spec in E; try lia.
  - destruct E as (_ & _ & Hnil). rewrite Hnil by (done || lia). cbn.
    split_and!; try done. constructor; [cbn; lia|constructor].
  - destruct E as (Hrs & Hlen & _).
    destruct (IH rs') as (Hne & Hcap & Hrest); [rewrite Hrs, length_app, length_fmap in Hn; cbn in Hn; lia|].
    rewrite Hrs, rows_of_app, first_error_app.
    split; [done|]. split.
    { constructor; [cbn in Hlen |- *; lia|done]. }
    cbn [ok_chunks omap list_omap concat].
    destruct (drain_pulls n rs' max) as [|p ps] eqn:Ed; [done|].
    destruct (first_error rs').
    + destruct Hrest as (Hl & tail & ->). split; [done|]. exists tail. cbn. by rewrite app_assoc.
    + destruct Hrest as (<- & Hl & Hf). split_and!; [done..|]. by constructor.
  - destruct E as (rows & se & -> & ->). cbn.
    rewrite rows_of_app, first_error_app.
    split; [done|]. split; [by apply Forall_nil|]. split; [done|]. by eexists.
Qed.

(** A bound query's chunks: pull [fuel] times. *)
Fixpoint drain_bound (fuel : nat) (statements : list (Result Sql)) (rs : option ResultSet) (max : Z) :
    list (Result (option (list Row))) :=
  match fuel with
  | O => []
  | S f => match next_bound_chunk statements rs max with
           | (_, _, Ok None) => [Ok None]
           | (_, _, Err e) => [Err e]
           | (sts, rs', Ok (Some rows)) => Ok (Some rows) :: drain_bound f sts rs' max
           end
  end.

End Pull.

(** ** The prefetch task, its channel and the reader *)

Section Prefetch.
Context {R : Type}.

(** What one call of [next_chunk] yields. *)
Abbreviation Pull := (Result (list R)) (only parsing).

(** Where the task of [prefetch_loop] is parked. *)
Inductive TaskState :=
  | TFetch
  | TSend (rows : list R)
  | TSendErr (e : Error)
  | TEnd.

(** What a call of the reader's [next] returned. *)
Inductive Observed :=
  | ORows (rows : list R)
  | OErr (e : Error)
  | OEnd.

Record Stream := mkStream {
  src : list Pull;
  task : TaskState;
  chan : option Pull;
  cancelled : bool;
  first : option (list R);
  rx_open : bool;
  dropped : bool;
  out : list Observed;
}.

Definition stream_new (first : option (list R)) (src : list Pull) (cancelled : bool) : Stream :=
  mkStream src TFetch None cancelled first true false [].

Inductive stream_step : Stream -> Stream -> Prop :=
  (** [CancelSignal::signal], from any thread at any time *)
  | S_signal s t c f o d b x :
      stream_step (mkStream s t c b f o d x) (mkStream s t c true f o d x)
  (** the task: the first [select!] *)
  | S_fetch_cancelled s c f o d x :
      stream_step (mkStream s TFetch c true f o d x)
        (mkStream s TEnd (match c with
                          | None => if o then Some (Err cancelled_err) else None
                          | Some i => Some i
                          end) true f o d x)
  | S_fetch_exhausted c f o d x :
      stream_step (mkStream [] TFetch c false f o d x) (mkStream [] TEnd c false f o d x)
  | S_fetch_empty s c f o d x :
      stream_step (mkStream (Ok [] :: s) TFetch c false f o d x) (mkStream s TEnd c false f o d x)
  | S_fetch_rows r rs s c f o d x :
      stream_step (mkStream (Ok (r :: rs) :: s) TFetch c false f o d x)
        (mkStream s (TSend (r :: rs)) c false f o d x)
  | S_fetch_err e s c f o d x :
      stream_step (mkStream (Err e :: s) TFetch c false f o d x)
        (mkStream s (TSendErr e) c false f o d x)
  (** the task: sending *)
  | S_send_cancelled s rows c f o d x :
      stream_step (mkStream s (TSend rows) c true f o d x) (mkStream s TEnd c true f o d x)
  | S_send s rows f d x :
      stream_step (mkStream s (TSend rows) None false f true d x)
        (mkStream s TFetch (Some (Ok rows)) false f true d x)
  | S_send_closed s rows c f d x :
      stream_step (mkStream s (TSend rows) c false f false d x)
        (mkStream s TEnd c false f false d x)
  | S_send_err s e b f d x :
      stream_step (mkStream s (TSendErr e) None b f true d x)
        (mkStream s TEnd (Some (Err e)) b f true d x)
  | S_send_err_closed s e c b f d x :
      stream_step (mkStream s (TSendErr e) c b f false d x) (mkStream s TEnd c b f false d x)
  (** the reader's [next] *)
  | S_next_first s t c b r rs o x :
      stream_step (mkStream s t c b (Some (r :: rs)) o false x)
        (mkStream s t c b None o false (x ++ [ORows (r :: rs)]))
  | S_next_first_empty s t c b o x :
      stream_step (mkStream s t c b (Some []) o false x) (mkStream s t c b None o false x)
  | S_next_closed s t c b x :
      stream_step (mkStream s t c b None false false x)
        (mkStream s t c b None false false (x ++ [OEnd]))
  | S_next_cancelled s t c x :
      stream_step (mkStream s t c true None true false x)
        (mkStream s t c true None false false (x ++ [OErr cancelled_err]))
  | S_next_rows s t rows x :
      stream_step (mkStream s t (Some (Ok rows)) false None true false x)
        (mkStream s t None false None true false (x ++ [ORows rows]))
  | S_next_err s t e x :
      stream_step (mkStream s t (Some (Err e)) false None true false x)
        (mkStream s t None false None false false (x ++ [OErr e]))
  | S_next_drained s x :
      stream_step (mkStream s TEnd None false None true false x)
        (mkStream s TEnd None false None false false (x ++ [OEnd]))
  (** dropping the reader aborts the task *)
  | S_drop s t c b f o x :
      stream_step (mkStream s t c b f o false x) (mkStream s TEnd c b f false true x).

(** ** What the reader should observe *)

Fixpoint feed (s : list Pull) : list Observed :=
  match s with
  | [] | Ok [] :: _ => [OEnd]
  | Ok rows :: s => ORows rows :: feed s
  | Err e :: _ => [OErr e]
  end.

(** The first chunk (unless it is empty), then the source's chunks up to its end
    or its first error. *)
Definition expected (first : option (list R)) (s : list Pull) : list Observed :=
  match first with
  | Some (r :: rs) => ORows (r :: rs) :: feed s
  | _ => feed s
  end.

(** What is still to be observed from a state, without a cancel. *)
Definition task_feed (st : Stream) : list Observed :=
  match task st with
  | TFetch => feed (src st)
  | TSend rows => ORows rows :: feed (src st)
  | TSendErr e => [OErr e]
  | TEnd => [OEnd]
  end.

Definition future (st : Stream) : list Observed :=
  match first st with Some (r :: rs) => [ORows (r :: rs)] | _ => [] end ++
  match chan st with
  | None => task_feed st
  | Some (Ok rows) => ORows rows :: task_feed st
  | Some (Err e) => [OErr e]
  end.

Definition is_rows (o : Observed) : Prop := match o with ORows _ => True | _ => False end.

(** Either everything observed so far is a prefix of the expected stream, or a
    cancel cut it: some chunks, the cancellation error, then the end. *)
Definition faithful (spec out : list Observed) (c : bool) : Prop :=
  (exists rest k, out ++ rest = spec ++ replicate k OEnd) \/
  (c = true /\ exists p rest k, Forall is_rows p /\ p ++ rest = spec /\
                               out = p ++ OErr cancelled_err :: replicate k OEnd).

(** The invariant of the interleavings. *)
Inductive stream_inv (spec : list Observed) (st : Stream) : Prop :=
  | I_live : cancelled st = false -> dropped st = false -> rx_open st = true ->
      Forall is_rows (out st) -> out st ++ future st = spec -> stream_inv spec st
  | I_cancelling : cancelled st = true -> dropped st = false -> rx_open st = true ->
      Forall is_rows (out st) ->
      (exists rest, out st ++ match first st with Some (r :: rs) => [ORows (r :: rs)] | _ => [] end
                    ++ rest = spec) -> stream_inv spec st
  | I_ended : dropped st = false -> rx_open st = false -> first st = None ->
      (exists k, out st = spec ++ replicate k OEnd) -> stream_inv spec st
  | I_cut : cancelled st = true -> dropped st = false -> rx_open st = false -> first st = None ->
      (exists p rest k, Forall is_rows p /\ p ++ rest = spec /\
         out st = p ++ OErr cancelled_err :: replicate k OEnd) -> stream_inv spec st
  | I_dropped : dropped st = true -> faithful spec (out st) (cancelled st) -> stream_inv spec st.

(** ** Lemmas *)

Lemma stream_inv_init f s b : stream_inv (expected f s) (stream_new f s b).
Proof.
  destruct b.
  - apply I_cancelling; cbn; try done. destruct f as [[|]|]; cbn; by eexists.
  - apply I_live; cbn; try done. unfold future, task_feed; cbn. by destruct f as [[|]|].
Qed.

Lemma faithful_prefix spec o rest c : o ++ rest = spec -> faithful spec o c.
Proof. intros <-. left. exists rest, 0. cbn. by rewrite app_nil_r. Qed.

Lemma stream_inv_faithful spec st : stream_inv spec st -> faithful spec (out st) (cancelled st).
Proof.
  intros [Hc _ _ _ Hf|Hc _ _ _ [rest Hr]|_ _ _ [k ->]|Hc _ _ _ (p & rest & k & Hp & Hr & ->)|_ Hf].
  - by eapply faithful_prefix.
  - by eapply faithful_prefix.
  - left. exists [], k. by rewrite app_nil_r.
  - right. rewrite Hc. by eauto 7.
  - done.
Qed.

Lemma replicate_snoc_app {A} (l : list A) k x : (l ++ replicate k x) ++ [x] = l ++ replicate (S k) x.
Proof. by rewrite <- app_assoc, <- replicate_cons_app. Qed.

(** The reader's own steps, from a state the invariant describes. *)
Lemma stream_inv_step spec st st' : stream_inv spec st -> stream_step st st' -> stream_inv spec st'.
Proof.
  intros Hinv Hstep. pose proof (stream_inv_faithful _ _ Hinv) as Hfaith.
  destruct Hinv as [Hc Hd Ho Hr Hf|Hc Hd Ho Hr [rest Hf]|Hd Ho Hfi [k Hk]
                   |Hc Hd Ho Hfi (p & rest & k & Hp & Hpr & Hk)|Hd Hf].
  - (* live *) inversion Hstep; subst; cbn in *; simplify_eq; unfold future, task_feed in *; cbn in *;
      try (by apply I_live).
    + (* signal *) apply I_cancelling; cbn; try done. by eauto.
    + (* first *) apply I_live; cbn; try done; [apply Forall_app; by repeat constructor|].
      by rewrite <- app_assoc.
    + (* rows *) apply I_live; cbn; try done; [apply Forall_app; by repeat constructor|].
      unfold future, task_feed; cbn. by rewrite <- app_assoc.
    + (* error *) apply I_ended; cbn; try done. exists 0. by rewrite app_nil_r.
    + (* drained *) apply I_ended; cbn; try done. exists 0. by rewrite app_nil_r.
    + (* dropped *) apply I_dropped; cbn; [done|]. by eapply faithful_prefix.
  - (* cancelling *) inversion Hstep; subst; cbn in *; simplify_eq; try (by apply I_cancelling; eauto).
    + apply I_cancelling; cbn; try done; [apply Forall_app; by repeat constructor|].
      exists rest. by rewrite <- app_assoc.
    + apply I_cut; cbn; try done. by exists x, rest, 0.
    + apply I_dropped; cbn; [done|]. by eapply faithful_prefix.
  - (* ended *) inversion Hstep; subst; cbn in *; simplify_eq; try (by apply I_ended; eauto).
    + apply I_ended; cbn; try done. exists (S k). apply replicate_snoc_app.
    + by apply I_dropped.
  - (* cut *) inversion Hstep; subst; cbn in *; simplify_eq; try (by apply I_cut; try done; exists p, rest, k).
    + apply I_cut; cbn; try done. exists p, rest, (S k). split_and!; [done..|].
      rewrite <- app_assoc. cbn. do 2 f_equal. by rewrite <- replicate_cons_app.
    + by apply I_dropped.
  - (* dropped *) inversion Hstep; subst; cbn in *; simplify_eq; try (by apply I_dropped).
    apply I_dropped; [done|]. destruct Hf as [?|[? ?]]; [by left|by right].
Qed.

(** An end inside the expected stream is its last element. *)
Lemma feed_end_last (s : list Pull) o m : feed s = o ++ m -> OEnd ∈ o -> m = [].
Proof.
  revert o m. induction s as [|[[|r rs]|e] s IH]; intros [|x o] m H He; cbn in H;
    try set_solver; simplify_eq; try (by destruct o).
Qed.

Lemma expected_end_last f s o m : expected f s = o ++ m -> OEnd ∈ o -> m = [].
Proof.
  unfold expected. destruct f as [[|r rs]|]; try apply feed_end_last.
  destruct o as [|x o]; [set_solver|]. intros H Hin. simplify_eq/=.
  eapply feed_end_last; [done|]. set_solver.
Qed.

(** C5: a streamed result is never silently truncated.  Whatever the interleaving
    of the background fetch, the reader and a cancel, what the reader has
    returned is a prefix of the expected stream (the first chunk, then the
    source's chunks in order, up to its end or its error, and ends after that);
    or the signal is latched and it returned some of those chunks, then the
    cancellation error, then ends.  In particular a clean end with no error means
    every chunk was delivered. *)
Theorem stream_never_truncated f s b st :
  rtc stream_step (stream_new f s b) st ->
  faithful (expected f s) (out st) (cancelled st) /\
  (OEnd ∈ out st -> (forall e, OErr e ∉ out st) ->
     exists k, out st = expected f s ++ replicate k OEnd).
Proof.
  intros Hsteps. assert (stream_inv (expected f s) st) as Hinv.
  { remember (stream_new f s b) as st0 eqn:E.
    assert (stream_inv (expected f s) st0) as H0 by (subst; apply stream_inv_init).
    clear E. induction Hsteps; eauto using stream_inv_step. }
  split; [by apply stream_inv_faithful|]. intros He Hne.
  apply stream_inv_faithful in Hinv as [(rest & k & Hr)|(_ & p & rest & k & _ & _ & Hout)].
  - destruct (app_split_cases _ _ _ _ Hr) as [(m & Hm & ->)|(m & Hmne & Hm & Hk)].
    + specialize (expected_end_last _ _ _ _ Hm He) as ->. exists 0. cbn. by rewrite app_nil_r in *.
    + exists (length m). rewrite Hm. f_equal.
      assert (Forall (eq OEnd) m) as Hall.
      { assert (Forall (eq OEnd) (m ++ rest)) as H
          by (rewrite <- Hk; apply Forall_replicate; done).
        by apply Forall_app in H as []. }
      clear -Hall. induction Hall; cbn; congruence.
  - exfalso. apply (Hne cancelled_err). rewrite Hout. set_solver.
Qed.

(** The reader never deadlocks.  From any state whose reader was not dropped,
    the background task can run (its fetches completing) to a point where [next]
    returns, without any cancel being needed; [next] then returns exactly one
    item. *)
Theorem stream_next_completes st :
  dropped st = false ->
  exists st' o, rtc stream_step st st' /\ out st' = out st ++ [o] /\ cancelled st' = cancelled st.
Proof.
  destruct st as [s t c b f o d x]; cbn. intros ->.
  assert (exists st' o', rtc stream_step (mkStream s t c b None o false x) st' /\
            out st' = x ++ [o'] /\ cancelled st' = b) as Hnone.
  { destruct o; [|do 2 eexists; split; [eapply rtc_once, S_next_closed|done]].
    destruct b; [do 2 eexists; split; [eapply rtc_once, S_next_cancelled|done]|].
    destruct c as [[rows|e]|].
    - do 2 eexists; split; [eapply rtc_once, S_next_rows|done].
    - do 2 eexists; split; [eapply rtc_once, S_next_err|done].
    - destruct t as [|rows|e|].
      + destruct s as [|[[|r rs]|e] s]; do 2 eexists; (split; [|split]);
          [eapply rtc_l; [apply S_fetch_exhausted|eapply rtc_once, S_next_drained]|done|done
          |eapply rtc_l; [apply S_fetch_empty|eapply rtc_once, S_next_drained]|done|done
          |eapply rtc_l; [apply S_fetch_rows|eapply rtc_l; [apply S_send|eapply rtc_once, S_next_rows]]
          |done|done
          |eapply rtc_l; [apply S_fetch_err|eapply rtc_l; [apply S_send_err|eapply rtc_once, S_next_err]]
          |done|done].
      + do 2 eexists; split; [eapply rtc_l; [apply S_send|eapply rtc_once, S_next_rows]|done].
      + do 2 eexists; split; [eapply rtc_l; [apply S_send_err|eapply rtc_once, S_next_err]|done].
      + do 2 eexists; split; [eapply rtc_once, S_next_drained|done]. }
  destruct f as [[|r rs]|]; [|do 2 eexists; split; [eapply rtc_once, S_next_first|done]|done].
  destruct Hnone as (st' & o' & H & Ho). exists st', o'. split; [|done].
  eapply rtc_l; [apply S_next_first_empty|done].
Qed.

End Prefetch.

Lemma stream_never_truncated_witness :
  let pulls := [Ok [1; 2]; Ok []] : list (Result (list nat)) in
  exists st, rtc stream_step (stream_new (Some [0]) pulls false) st /\
    out st = [ORows [0]; ORows [1; 2]; OEnd] /\ faithful (expected (Some [0]) pulls) (out st) false.
Proof.
  intros pulls. set (end_ := mkStream [] TEnd None false None false false
    [ORows [0]; ORows [1; 2]; OEnd] : @Stream nat). exists end_.
  assert (rtc stream_step (stream_new (Some [0]) pulls false) end_) as Hs.
  { eapply rtc_l; [apply S_next_first|]. eapply rtc_l; [apply S_fetch_rows|].
    eapply rtc_l; [apply S_send|]. eapply rtc_l; [apply S_fetch_empty|].
    eapply rtc_l; [apply S_next_rows|].
    apply rtc_once. exact (S_next_drained [] ([ORows [0]] ++ [ORows [1; 2]])). }
  split; [done|]. split; [done|]. exact (proj1 (stream_never_truncated _ _ _ _ Hs)).
Defined.

Lemma stream_next_completes_witness :
  exists st' o, rtc stream_step (stream_new None [Ok [7]] false : @Stream nat) st' /\
    out st' = [] ++ [o] /\ cancelled st' = false.
Proof. exact (stream_next_completes (stream_new None [Ok [7]] false) eq_refl). Defined.

Lemma pull_chunk_complete_witness :
  let rs := map inl [[VBool true]; [VNull]; [VString (str "abc")]] : list (Row + @SpannerError no_details) in
  drain_pulls (RS := no_details) 4 rs 2
    = [Ok [[VBool true]; [VNull]]; Ok [[VString (str "abc")]]; Ok []] /\
  concat (ok_chunks (drain_pulls (RS := no_details) 4 rs 2)) = rows_of rs.
Proof.
  intros rs. split; [by vm_compute|]. apply (pull_chunk_complete (RS := no_details) rs 2). lia.
Defined.
