(* ===== verification/Txn.v ===== *)
(** * [src/connection/txn.rs]: the manual-transaction state machine

    The state a connection shares with its statements, and the operations each
    of them performs under the lock.  A built Spanner statement, a mutation and a
    read-only transaction handle are the client's values: the model is
    polymorphic in them.  [None] in the result of [finish_commit] is the panic of
    [Vec::drain] on a range longer than the vector, and in the result of
    [restore_manual] the failure of its debug assertion. *)

From S2P Require Import Prelude RustStr ErrorModel.

Inductive TxnKind := KRead | KDml.

#[export] Instance TxnKind_eq_dec : EqDecision TxnKind.
Proof. solve_decision. Defined.

Definition what (self : TxnKind) : frag :=
  match self with KRead => Lit "a query" | KDml => Lit "DML" end.

Definition rationale (self : TxnKind) : frag :=
  match self with
  | KRead => Lit "the transaction is pinned to a multi-use read-only snapshot"
  | KDml => Lit "the buffered DML is applied at commit, so a query would not observe the pending writes (no read-your-writes)"
  end.

Section Txn.
Context {SpannerSql Mutation RoTxn : Type}.

Inductive ManualTxn :=
  | Unset
  | MRead (t : RoTxn)
  | MDml (statements : list SpannerSql) (mutations : list Mutation).

Definition txn_kind (self : ManualTxn) : option TxnKind :=
  match self with Unset => None | MRead _ => Some KRead | MDml _ _ => Some KDml end.

Definition has_pending_work (self : ManualTxn) : bool :=
  match self with
  | Unset | MRead _ => false
  | MDml statements mutations =>
      negb (bool_decide (length statements = 0)) || negb (bool_decide (length mutations = 0))
  end.

Record TxnState := mkTxnState { autocommit : bool; txn : ManualTxn }.

Definition TxnState_new : TxnState := mkTxnState true Unset.

Definition check_kind_allowed (self : TxnState) (attempted : TxnKind) : Result unit :=
  if autocommit self then Ok tt
  else match txn_kind (txn self) with
       | None => Ok tt
       | Some active =>
           if decide (active = attempted) then Ok tt
           else Err (invalid_state
                  [Lit "cannot run "; what attempted; Lit " in a manual transaction that began with ";
                   what active; Lit ": "; rationale active;
                   Lit ". A manual transaction is either queries or DML — its kind is fixed by its first statement. Commit or roll back the transaction first."])
       end.

Definition read_txn (self : TxnState) : option RoTxn :=
  match txn self with MRead t => Some t | _ => None end.

Definition start_read_txn (self : TxnState) (t : RoTxn) : TxnState * Result RoTxn :=
  match check_kind_allowed self KRead with
  | Err e => (self, Err e)
  | Ok _ => match txn self with
            | MRead existing => (self, Ok existing)
            | _ => (mkTxnState (autocommit self) (MRead t), Ok t)
            end
  end.

Definition buffer_dml (self : TxnState) (new : list SpannerSql) : TxnState * Result unit :=
  match check_kind_allowed self KDml with
  | Err e => (self, Err e)
  | Ok _ =>
      if decide (length new = 0) then (self, Ok tt)
      else (mkTxnState (autocommit self)
              (match txn self with
               | MDml statements mutations => MDml (statements ++ new) mutations
               | _ => MDml new []
               end), Ok tt)
  end.

Definition buffer_mutation (self : TxnState) (m : Mutation) : TxnState * Result unit :=
  match check_kind_allowed self KDml with
  | Err e => (self, Err e)
  | Ok _ => (mkTxnState (autocommit self)
               (match txn self with
                | MDml statements mutations => MDml statements (mutations ++ [m])
                | _ => MDml [] [m]
                end), Ok tt)
  end.

Definition enter_autocommit (self : TxnState) : TxnState * ManualTxn :=
  (mkTxnState true Unset, txn self).

Definition restore_manual (self : TxnState) (work : ManualTxn) : option TxnState :=
  match txn self with
  | Unset => Some (mkTxnState false work)
  | _ => None
  end.

(** [Vec::drain(..n)]. *)
Definition drain_front {A} (n : nat) (l : list A) : option (list A) :=
  if decide (n <= length l) then Some (drop n l) else None.

Definition finish_commit (self : TxnState) (applied : ManualTxn) : option TxnState :=
  t ← match txn self, applied with
      | MDml statements mutations, MDml applied_statements applied_mutations =>
          s ← drain_front (length applied_statements) statements;
          m ← drain_front (length applied_mutations) mutations;
          Some (MDml s m)
      | t, _ => Some t
      end;
  Some (mkTxnState (autocommit self) (if has_pending_work t then t else Unset)).

Definition check_commit_writable (read_only : bool) (work : ManualTxn) : Result unit :=
  if read_only && has_pending_work work then
    Err (invalid_state
      [Lit "cannot commit buffered DML: the connection is read-only. The buffered work is kept and stays replayable: clear adbc.connection.readonly and commit again to apply it, or roll back to discard it."])
  else Ok tt.

(** ** What a transaction holds *)

Definition pending_statements (t : ManualTxn) : list SpannerSql :=
  match t with MDml s _ => s | _ => [] end.
Definition pending_mutations (t : ManualTxn) : list Mutation :=
  match t with MDml _ m => m | _ => [] end.

(** ** Lemmas *)

Lemma has_pending_work_spec t :
  has_pending_work t = false <-> pending_statements t = [] /\ pending_mutations t = [].
Proof.
  destruct t as [|r|[|s ss] [|m ms]]; cbn; rewrite ?bool_decide_false by done; cbn; try done; split; try done; by intros [].
Qed.

Lemma buffer_dml_pending st new st' :
  buffer_dml st new = (st', Ok tt) ->
  pending_statements (txn st') = pending_statements (txn st) ++ new /\
  pending_mutations (txn st') = pending_mutations (txn st) /\ autocommit st' = autocommit st.
Proof.
  unfold buffer_dml. destruct (check_kind_allowed st KDml) eqn:Ek; [|done].
  case_decide as Hn; intros [= <-].
  - apply nil_length_inv in Hn as ->. by rewrite app_nil_r.
  - unfold check_kind_allowed in Ek. destruct st as [[] []]; cbn in *; try done.
Qed.

Lemma buffer_dml_err st new st' e : buffer_dml st new = (st', Err e) -> st' = st /\ status e = InvalidState.
Proof.
  unfold buffer_dml, check_kind_allowed. intros H.
  repeat (case_match; simplify_eq/=; try done).
Qed.

Lemma buffer_mutation_pending st m st' :
  buffer_mutation st m = (st', Ok tt) ->
  pending_statements (txn st') = pending_statements (txn st) /\
  pending_mutations (txn st') = pending_mutations (txn st) ++ [m] /\ autocommit st' = autocommit st.
Proof.
  unfold buffer_mutation. destruct (check_kind_allowed st KDml) eqn:Ek; [|done].
  intros [= <-]. unfold check_kind_allowed in Ek. by destruct st as [[] []]; cbn in *.
Qed.

(** A kind is checked under the lock, so an accepted operation has the kind the
    transaction had, or fixes it. *)
Lemma check_kind_allowed_Ok st k :
  check_kind_allowed st k = Ok tt <->
  autocommit st = true \/ txn_kind (txn st) = None \/ txn_kind (txn st) = Some k.
Proof.
  unfold check_kind_allowed. destruct (autocommit st); [naive_solver|].
  destruct (txn_kind (txn st)) as [a|]; [|naive_solver].
  case_decide; subst; [naive_solver|]. split; [done|]. intros [|[|]]; naive_solver.
Qed.

Lemma finish_commit_prefix ac s0 m0 s1 m1 :
  finish_commit (mkTxnState ac (MDml (s0 ++ s1) (m0 ++ m1))) (MDml s0 m0)
  = Some (mkTxnState ac (if decide (s1 = [] /\ m1 = []) then Unset else MDml s1 m1)).
Proof.
  unfold finish_commit, drain_front; cbn [txn autocommit]. rewrite !length_app.
  rewrite !decide_True by lia. cbn [mbind option_bind]. rewrite !drop_app_length.
  destruct (has_pending_work (MDml s1 m1)) eqn:E.
  - rewrite decide_False; [done|]. intros H%(has_pending_work_spec (MDml s1 m1)). congruence.
  - apply has_pending_work_spec in E. by rewrite decide_True.
Qed.

End Txn.

Arguments ManualTxn : clear implicits.
Arguments TxnState : clear implicits.
Arguments finish_commit : simpl never.
