(* ===== verification/Client.v ===== *)
(** * The Spanner client as the driver uses it

    The client crates are an interface: [SpannerClient] names their types and the
    functions the driver calls, [Call] lists the remote operations with the type
    of what they return, and an environment answers each call from the history of
    the calls before it.  A handler of the driver is a function of the [World]
    (the cancel signals, the configuration cells, the shared transaction state
    and the trace of calls) to a new world and a [Result]; the world survives an
    error.  The module also holds the request builders, with the [apply_to_*]
    methods of [src/request.rs], [src/retry.rs], [src/query_options.rs] and
    [src/directed_read.rs] that fill them. *)

From Stdlib Require Import SpecFloat.
From S2P Require Import Prelude RustStr RustNum ErrorModel Options DirectedRead Staleness Config Runtime Stream Txn.

Class SpannerClient := {
  sc_status :: RpcStatus;
  TimestampBound : Type;
  try_exact_staleness : Z -> TimestampBound + rstr;
  try_max_staleness : Z -> TimestampBound + rstr;
  try_read_timestamp : Z -> TimestampBound + rstr;
  try_min_read_timestamp : Z -> TimestampBound + rstr;
  parse_from_rfc3339 : rstr -> DateTime + rstr;
  (** a bound parameter value, an insert mutation, a read-only transaction *)
  Param : Type;
  Mutation : Type;
  RoTxn : Type;
  (** the parameter value of a string *)
  string_param : rstr -> Param;
  (** a result set's metadata, the types it reports for undeclared parameters (a
      [BTreeMap], in key order), a query partition *)
  Metadata : Type;
  SpType : Type;
  undeclared_parameters : Metadata -> list (rstr * SpType);
  Partition : Type;
  set_data_boost : Partition -> Partition;
}.

(** A client with the simplest values, for concrete examples. *)
Definition example_client : SpannerClient := {|
  sc_status := no_details;
  TimestampBound := Z;
  try_exact_staleness := inl; try_max_staleness := inl;
  try_read_timestamp := inl; try_min_read_timestamp := inl;
  parse_from_rfc3339 _ := inr [];
  Param := rstr; Mutation := rstr; RoTxn := nat;
  string_param s := s;
  Metadata := list (rstr * rstr); SpType := rstr; undeclared_parameters m := m;
  Partition := rstr; set_data_boost p := str "boost:" ++ p |}.

(** ** Builders *)

Section Builders.
Context {SC : SpannerClient}.

Record StatementBuilder := mkStatementBuilder {
  sb_sql : rstr;
  sb_params : list (rstr * Param);
  sb_priority : option RequestPriority;
  sb_request_tag : option rstr;
  sb_query_options : option QueryOptionsConfig;
  sb_retry : option (list RetryLimit);
  sb_backoff : option Backoff;
  sb_directed_read : option Replicas;
  sb_plan : bool;
}.

(** A built statement carries exactly what its builder does. *)
Definition SpannerSql : Type := StatementBuilder.

Definition builder (sql : rstr) : StatementBuilder :=
  mkStatementBuilder sql [] None None None None None None false.

Definition set_query_mode_plan (b : StatementBuilder) : StatementBuilder :=
  mkStatementBuilder (sb_sql b) (sb_params b) (sb_priority b) (sb_request_tag b) (sb_query_options b)
    (sb_retry b) (sb_backoff b) (sb_directed_read b) true.

(** [if let Some(x) = new { builder = builder.set(x) }]. *)
Definition or_keep {A} (new old : option A) : option A :=
  match new with Some _ => new | None => old end.

Definition request_apply_to_statement (self : RequestConfig) (b : StatementBuilder) : StatementBuilder :=
  mkStatementBuilder (sb_sql b) (sb_params b) (or_keep (rp_parsed (priority self)) (sb_priority b))
    (or_keep (request_tag self) (sb_request_tag b)) (sb_query_options b) (sb_retry b) (sb_backoff b)
    (sb_directed_read b) (sb_plan b).

Definition apply_priority_to_statement (self : RequestConfig) (b : StatementBuilder) : StatementBuilder :=
  match rp_parsed (priority self) with
  | Some p => mkStatementBuilder (sb_sql b) (sb_params b) (Some p) (sb_request_tag b)
                (sb_query_options b) (sb_retry b) (sb_backoff b) (sb_directed_read b) (sb_plan b)
  | None => b
  end.

Definition query_options_apply_to_statement (self : QueryOptionsConfig) (b : StatementBuilder) :
    StatementBuilder :=
  if decide (optimizer_version self = None /\ optimizer_statistics_package self = None) then b
  else mkStatementBuilder (sb_sql b) (sb_params b) (sb_priority b) (sb_request_tag b) (Some self)
         (sb_retry b) (sb_backoff b) (sb_directed_read b) (sb_plan b).

Definition directed_read_apply_to_statement (self : DirectedRead) (b : StatementBuilder) :
    StatementBuilder :=
  match rp_parsed self with
  | Some spec => mkStatementBuilder (sb_sql b) (sb_params b) (sb_priority b) (sb_request_tag b)
                   (sb_query_options b) (sb_retry b) (sb_backoff b) (Some (to_options spec)) (sb_plan b)
  | None => b
  end.

(** The backoff of a configuration whose durations are valid, as every reachable
    one's are. *)
Definition backoff_arg (self : RetryConfig) : option Backoff := default None (backoff_policy_arg self).

Definition retry_apply_to_statement (self : RetryConfig) (b : StatementBuilder) : StatementBuilder :=
  mkStatementBuilder (sb_sql b) (sb_params b) (sb_priority b) (sb_request_tag b) (sb_query_options b)
    (or_keep (retry_policy_arg self) (sb_retry b)) (or_keep (backoff_arg self) (sb_backoff b))
    (sb_directed_read b) (sb_plan b).

(** [StatementBuilder::add_param]. *)
Definition add_param (b : StatementBuilder) (name : rstr) (p : Param) : StatementBuilder :=
  mkStatementBuilder (sb_sql b) (sb_params b ++ [(name, p)]) (sb_priority b) (sb_request_tag b)
    (sb_query_options b) (sb_retry b) (sb_backoff b) (sb_directed_read b) (sb_plan b).

(** The [ExecuteBatchDml] request. *)
Record BatchDml := mkBatchDml {
  bd_priority : option RequestPriority;
  bd_request_tag : option rstr;
  bd_retry : option (list RetryLimit);
  bd_backoff : option Backoff;
  bd_last_statements : bool;
  bd_statements : list SpannerSql;
}.

Definition batch_dml (request : RequestConfig) (retry : RetryConfig) (last : bool)
    (statements : list SpannerSql) : BatchDml :=
  mkBatchDml (rp_parsed (priority request)) (request_tag request) (retry_policy_arg retry)
    (backoff_arg retry) last statements.

(** A read/write runner or a write-only transaction; the retry and backoff
    policies are set on both its Begin and its Commit. *)
Record TxnOptions := mkTxnOptions {
  to_isolation : option IsolationLevel;
  to_commit_priority : option RequestPriority;
  to_transaction_tag : option rstr;
  to_max_commit_delay : option Z;
  to_return_commit_stats : bool;
  to_exclude_from_change_streams : bool;
  to_retry : option (list RetryLimit);
  to_backoff : option Backoff;
}.

Definition apply_isolation (isolation : IsolationLevel) : option IsolationLevel :=
  match isolation with Unspecified => None | level => Some level end.

Definition commit_delay (self : RequestConfig) : option Z := rp_parsed (max_commit_delay self).

(** [RequestConfig::apply_to_runner] / [apply_to_write_only] and
    [RetryConfig]'s, from a transaction at isolation [iso]. *)
Definition commit_builder (iso : option IsolationLevel) (request : RequestConfig) (retry : RetryConfig) :
    TxnOptions :=
  mkTxnOptions iso (rp_parsed (priority request)) (transaction_tag request) (commit_delay request)
    (return_commit_stats request) (exclude_txn_from_change_streams request)
    (retry_policy_arg retry) (backoff_arg retry).

Definition build_runner (isolation : IsolationLevel) (request : RequestConfig) (retry : RetryConfig) :
    TxnOptions :=
  commit_builder (apply_isolation isolation) request retry.

Definition write_only_options (request : RequestConfig) (retry : RetryConfig) : TxnOptions :=
  commit_builder None request retry.

(** The BatchWrite request: its priority, transaction tag and change-stream
    exclusion. *)
Definition apply_to_batch_write (self : RequestConfig) : option RequestPriority * option rstr * bool :=
  (rp_parsed (priority self), transaction_tag self, exclude_txn_from_change_streams self).

(** ** Calls *)

(** A BatchWrite response: its status when it has one (code, message, details)
    and how many group indexes it reports. *)
Record BatchWriteResponse := mkBatchWriteResponse {
  bw_status : option (Z * rstr * list ErrorModel.Any);
  bw_indexes : Z;
}.

(** A result set: its metadata and what its [next] will yield. *)
Record ResultSet := mkResultSet { rs_metadata : option Metadata; rs_items : list (Row + SpannerError) }.

(** A returned-rows result, drained: its metadata, its rows and the count its
    statistics report. *)
Record Returned := mkReturned {
  rt_metadata : option Metadata;
  rt_rows : list Row;
  rt_update_count : option Z;
}.

(** The remote operations.  [ExecuteQuery] runs in a single-use transaction at a
    bound, or in a shared read-only one; [NextChunk] is the wait for a further
    chunk of a result set whose items its [ExecuteQuery] already named;
    [ExecutePartition] runs a query partition in the transaction it carries;
    [PlanDml] plans one statement in a read/write transaction that commits
    empty. *)
Inductive Call : Type -> Type :=
  | RunBatch (o : TxnOptions) (b : option BatchDml) (m : list Mutation) : Call (list Z * option Z)
  | WriteOnly (o : TxnOptions) (m : list Mutation) : Call (option Z)
  | RunReturning (o : TxnOptions) (s : list SpannerSql) : Call (list Returned * option Z)
  | PartitionedDml (exclude : bool) (s : SpannerSql) : Call Z
  | UpdateDatabaseDdl (database : rstr) (statements : list rstr) : Call unit
  | BuildReadOnly (bound : option TimestampBound) : Call RoTxn
  | ExecuteQuery (t : option TimestampBound + RoTxn) (s : SpannerSql) : Call ResultSet
  | NextChunk : Call unit
  | PlanDml (o : TxnOptions) (s : SpannerSql) : Call (option Metadata)
  | ExecutePartition (p : Partition) : Call ResultSet
  | PartitionQuery (bound : option TimestampBound) (s : SpannerSql) : Call (list Partition)
  | BatchWrite (o : option RequestPriority * option rstr * bool) (groups : list (list Mutation)) :
      Call (list (BatchWriteResponse + SpannerError)).

(** What the environment does with a call: its eventual outcome, and whether the
    deadline (if there is one) passes or a cancel is signalled before it. *)
Record Reply (A : Type) := mkReply {
  r_outcome : A + SpannerError;
  r_expired : bool;
  r_cancelled : bool;
}.
Arguments mkReply {_} _ _ _.
Arguments r_outcome {_} _.
Arguments r_expired {_} _.
Arguments r_cancelled {_} _.

Inductive Event :=
  | Ev (A : Type) (c : Call A) (r : Reply A).
Arguments Ev {_} _ _.

Definition Env : Type := list Event -> forall A, Call A -> Reply A.

(** ** The world and its handlers *)

Record World := mkWorld {
  w_slots : Slots;
  w_cells : Cells;
  w_txn : TxnState SpannerSql Mutation RoTxn;
  w_trace : list Event;
}.

(** [None] is a panic. *)
Definition M (A : Type) : Type := World -> option (World * Result A).

#[export] Instance M_ret : MRet M := fun A a w => Some (w, Ok a).
#[export] Instance M_bind : MBind M := fun A B f m w =>
  match m w with
  | Some (w', Ok a) => f a w'
  | Some (w', Err e) => Some (w', Err e)
  | None => None
  end.

Definition lift {A} (r : Result A) : M A := fun w => Some (w, r).
Definition throw {A} (e : Error) : M A := fun w => Some (w, Err e).

(** Run [m] and hand its result on as a value. *)
Definition catch {A} (m : M A) : M (Result A) := fun w =>
  match m w with Some (w', r) => Some (w', Ok r) | None => None end.

(** [m.map_err(f)]. *)
Definition map_err {A} (m : M A) (f : Error -> Error) : M A := fun w =>
  match m w with Some (w', Err e) => Some (w', Err (f e)) | r => r end.

(** One critical section on the shared transaction state; [None] panics. *)
Definition locked {A} (f : TxnState SpannerSql Mutation RoTxn ->
                          option (TxnState SpannerSql Mutation RoTxn * Result A)) : M A := fun w =>
  match f (w_txn w) with
  | Some (t, r) => Some (mkWorld (w_slots w) (w_cells w) t (w_trace w), r)
  | None => None
  end.

Definition read_cells {A} (f : Cells -> A) : M A := fun w => Some (w, Ok (f (w_cells w))).
Definition update_cells (f : Cells -> Cells) : M unit := fun w =>
  Some (mkWorld (w_slots w) (f (w_cells w)) (w_txn w) (w_trace w), Ok tt).

(** [Duration::as_secs_f64]. *)
Definition as_secs_f64 (d : Z) : f64 :=
  SFadd prec64 emax64 (f64_of_Z (d / NANOS_PER_SEC))
    (SFdiv prec64 emax64 (f64_of_Z (d `mod` NANOS_PER_SEC)) (f64_of_Z NANOS_PER_SEC)).

Definition timeout_err (limit : Z) (option : rstr) : Error :=
  err [Lit "operation timed out after "; Disp (show_f64 (as_secs_f64 limit)); Lit "s (";
       Disp option; Lit ")"] Timeout.

(** [with_timeout] around a future that makes one call and finishes with [f] of
    its outcome: with no limit the future runs unbounded. *)
Definition with_timeout {A B} (limit : option Z) (option : rstr) (f : A + SpannerError -> Result B)
    (r : Reply A) : Result B :=
  match limit, r_expired r with
  | Some l, true => Err (timeout_err l option)
  | _, _ => f (r_outcome r)
  end.

(** [.map_err(from_spanner)]. *)
Definition outcome {A} (o : A + SpannerError) : Result A :=
  match o with inl a => Ok a | inr e => Err (from_spanner e) end.

Section Perform.
Context (env : Env).

(** [block_on_cancellable(.., with_timeout(..))] around one call, waiting on the
    current signal of the object's [slot]: a signal that is already latched fails
    the operation before the call is made. *)
Definition perform_then {A B} (slot : positive) (limit : option Z) (option : rstr) (c : Call A)
    (f : A + SpannerError -> Result B) : M B :=
  fun w =>
    if slot_cancelled (w_slots w) slot then Some (w, Err cancelled_err)
    else
      let r := env (w_trace w) A c in
      let trace := w_trace w ++ [Ev c r] in
      if r_cancelled r then
        Some (mkWorld (slot_step (w_slots w) (TryCancel slot)) (w_cells w) (w_txn w) trace,
              Err cancelled_err)
      else Some (mkWorld (w_slots w) (w_cells w) (w_txn w) trace, with_timeout limit option f r).

Definition perform {A} (slot : positive) (limit : option Z) (option : rstr) (c : Call A) : M A :=
  perform_then slot limit option c outcome.

(** [i64] sums wrap. *)
Definition sum_i64 (l : list Z) : Z := foldl (fun a b => wrap_i64 (a + b)) 0%Z l.

(** ** [src/connection/exec.rs] *)

Definition run_batch_txn (slot : positive) (config : SharedConfig) (statements : list SpannerSql)
    (mutations : list Mutation) (last_statements : bool) : M Z :=
  if decide (length statements = 0 /\ length mutations = 0) then mret 0%Z
  else
    let runner := build_runner (isolation config) (request config) (retry config) in
    let batch := if decide (length statements = 0) then None
                 else Some (batch_dml (request config) (retry config) last_statements statements) in
    '(counts, mutation_count) ← perform slot (update_timeout (timeouts config))
                                  OPTION_RPC_TIMEOUT_UPDATE (RunBatch runner batch mutations);
    _ ← update_cells (fun h => record h (commit_stats config) mutation_count);
    mret (sum_i64 counts).

Definition write_mutations_txn (slot : positive) (config : SharedConfig) (mutations : list Mutation) :
    M unit :=
  if decide (length mutations = 0) then mret tt
  else
    mutation_count ← perform slot (update_timeout (timeouts config)) OPTION_RPC_TIMEOUT_UPDATE
                       (WriteOnly (write_only_options (request config) (retry config)) mutations);
    update_cells (fun h => record h (commit_stats config) mutation_count).

(** [CancelSlot::begin_operation]: a fresh signal for the object's new operation. *)
Definition begin_operation (slot : positive) : M unit := fun w =>
  Some (mkWorld (slot_step (w_slots w) (BeginOperation slot)) (w_cells w) (w_txn w) (w_trace w), Ok tt).

End Perform.
End Builders.

Arguments Ev {_ _} _ _.
Arguments mkReply {_ _} _ _ _.
Arguments r_outcome {_ _} _.
Arguments r_expired {_ _} _.
Arguments r_cancelled {_ _} _.
