(* ===== verification/Wp.v ===== *)
(** * Reasoning about handlers

    [wp m Q w]: run in world [w], the handler [m] does not panic and ends in a
    world and a result that satisfy [Q].  The rules follow the handler monad; the
    rule of a remote call says which event it leaves in the trace.  [quiet] is the
    postcondition of a handler that changes nothing but the trace, the cancel
    signals and the recorded commit statistics. *)

From S2P Require Import Prelude RustStr RustNum ErrorModel Options DirectedRead Staleness Config.
From S2P Require Import Runtime Stream Txn Client.

Section Wp.
Context {SC : SpannerClient}.

Definition wp {A} (m : M A) (Q : World -> Result A -> Prop) (w : World) : Prop :=
  match m w with Some (w', r) => Q w' r | None => False end.

Lemma wp_elim {A} (m : M A) Q w : wp m Q w <-> exists w' r, m w = Some (w', r) /\ Q w' r.
Proof. unfold wp. destruct (m w) as [[w' r]|]; naive_solver. Qed.

Lemma wp_mono {A} (m : M A) (P Q : World -> Result A -> Prop) w :
  wp m P w -> (forall w' r, P w' r -> Q w' r) -> wp m Q w.
Proof. unfold wp. destruct (m w) as [[]|]; auto. Qed.

Lemma wp_ret {A} (a : A) Q w : wp (mret a) Q w <-> Q w (Ok a).
Proof. done. Qed.

Lemma wp_lift {A} (r : Result A) Q w : wp (lift r) Q w <-> Q w r.
Proof. done. Qed.

Lemma wp_throw {A} e Q w : wp (throw (A := A) e) Q w <-> Q w (Err e).
Proof. done. Qed.

Lemma wp_read_cells {A} (f : Cells -> A) Q w : wp (read_cells f) Q w <-> Q w (Ok (f (w_cells w))).
Proof. done. Qed.

Lemma wp_bind {A B} (m : M A) (f : A -> M B) Q w :
  wp (m ≫= f) Q w <->
  wp m (fun w' r => match r with Ok a => wp (f a) Q w' | Err e => Q w' (Err e) end) w.
Proof. unfold wp, mbind, M_bind. destruct (m w) as [[w' [a|e]]|]; done. Qed.

Lemma wp_catch {A} (m : M A) Q w : wp (catch m) Q w <-> wp m (fun w' r => Q w' (Ok r)) w.
Proof. unfold wp, catch. by destruct (m w) as [[]|]. Qed.

Lemma wp_locked {A} f (Q : World -> Result A -> Prop) w t r :
  f (w_txn w) = Some (t, r) ->
  Q (mkWorld (w_slots w) (w_cells w) t (w_trace w)) r -> wp (locked f) Q w.
Proof. unfold wp, locked. by intros ->. Qed.

(** A critical section that only inspects the state. *)
Lemma wp_inspect {A} (f : TxnState SpannerSql Mutation RoTxn -> Result A) Q w :
  Q w (f (w_txn w)) -> wp (locked (fun st => Some (st, f st))) Q w.
Proof. unfold wp, locked. by destruct w. Qed.

Lemma wp_update_cells f Q w :
  wp (update_cells f) Q w <-> Q (mkWorld (w_slots w) (f (w_cells w)) (w_txn w) (w_trace w)) (Ok tt).
Proof. done. Qed.

(** The partial version, for handlers whose model can run out of fuel. *)
Definition wlp {A} (m : M A) (Q : World -> Result A -> Prop) (w : World) : Prop :=
  match m w with Some (w', r) => Q w' r | None => True end.

Lemma wp_wlp {A} (m : M A) Q w : wp m Q w -> wlp m Q w.
Proof. unfold wp, wlp. by destruct (m w) as [[]|]. Qed.

Lemma wlp_mono {A} (m : M A) (P Q : World -> Result A -> Prop) w :
  wlp m P w -> (forall w' r, P w' r -> Q w' r) -> wlp m Q w.
Proof. unfold wlp. destruct (m w) as [[]|]; auto. Qed.

Lemma wlp_bind {A B} (m : M A) (f : A -> M B) Q w :
  wlp m (fun w' r => match r with Ok a => wlp (f a) Q w' | Err e => Q w' (Err e) end) w ->
  wlp (m ≫= f) Q w.
Proof. unfold wlp, mbind, M_bind. destruct (m w) as [[w' [a|e]]|]; done. Qed.

(** What a call made with a deadline reports. *)
Definition call_result {A B} (limit : option Z) (opt : rstr) (f : A + SpannerError -> Result B)
    (rep : Reply A) : Result B :=
  if r_cancelled rep then Err cancelled_err else with_timeout limit opt f rep.

(** The deadline did not pass, no cancel came and the call succeeded. *)
Definition reply_okb {A} (limit : option Z) (rep : Reply A) : bool :=
  negb (r_cancelled rep) &&
  negb (bool_decide (is_Some limit) && r_expired rep) &&
  match r_outcome rep with inl _ => true | inr _ => false end.

Lemma call_result_ok {A} limit opt (rep : Reply A) :
  is_Ok (call_result limit opt outcome rep) <-> reply_okb limit rep = true.
Proof.
  unfold call_result, reply_okb, with_timeout, outcome, is_Ok.
  destruct (r_cancelled rep), limit, (r_expired rep), (r_outcome rep); cbn; naive_solver.
Qed.

Context (env : Env).

(** [w'] is [w] after the events [evs], up to the cancel signals and the recorded
    statistics. *)
Definition quiet (w w' : World) (evs : list Event) : Prop :=
  w_txn w' = w_txn w /\ w_trace w' = w_trace w ++ evs.

Lemma quiet_refl w : quiet w w [].
Proof. split; [done|]. by rewrite app_nil_r. Qed.

Lemma quiet_trans w1 w2 w3 e1 e2 : quiet w1 w2 e1 -> quiet w2 w3 e2 -> quiet w1 w3 (e1 ++ e2).
Proof. intros [H1 H2] [H3 H4]. split; [congruence|]. by rewrite H4, H2, app_assoc. Qed.

Lemma wp_perform_then {A B} slot limit opt (c : Call A) (f : A + SpannerError -> Result B) Q w :
  (slot_cancelled (w_slots w) slot = true -> Q w (Err cancelled_err)) ->
  (slot_cancelled (w_slots w) slot = false ->
   forall w', w_cells w' = w_cells w -> quiet w w' [Ev c (env (w_trace w) A c)] ->
   (r_cancelled (env (w_trace w) A c) = false -> w_slots w' = w_slots w) ->
   Q w' (call_result limit opt f (env (w_trace w) A c))) ->
  wp (perform_then env slot limit opt c f) Q w.
Proof.
  unfold wp, perform_then, call_result. destruct (slot_cancelled (w_slots w) slot); intros H1 H2.
  - by apply H1.
  - specialize (H2 eq_refl). destruct (r_cancelled _); by apply H2.
Qed.

Lemma wp_write_mutations_txn slot config ms Q w :
  (ms = [] -> Q w (Ok tt)) ->
  (slot_cancelled (w_slots w) slot = true -> Q w (Err cancelled_err)) ->
  (slot_cancelled (w_slots w) slot = false -> ms <> [] ->
   let limit := update_timeout (timeouts config) in
   let c := WriteOnly (write_only_options (request config) (retry config)) ms in
   let rep := env (w_trace w) _ c in
   forall w', quiet w w' [Ev c rep] ->
     Q w' ((fun _ => tt) <$> call_result limit OPTION_RPC_TIMEOUT_UPDATE outcome rep)) ->
  wp (write_mutations_txn env slot config ms) Q w.
Proof.
  intros Hn Hl Hc. unfold write_mutations_txn. case_decide as Hd; [by apply Hn, length_zero_iff_nil|].
  apply wp_bind, wp_perform_then; [done|]. intros Hs w' Hcells Hq _.
  specialize (Hc Hs ltac:(by intros ->)). cbn in Hc.
  destruct (call_result _ _ _ _) as [mc|e]; [|by apply Hc].
  apply wp_update_cells, Hc. by destruct Hq.
Qed.

End Wp.

#[export] Hint Resolve quiet_refl : driver.
