(* ===== verification/Metadata.v ===== *)
(** * [src/metadata.rs]: the ADBC [LIKE] matcher and the metadata builder

    [LikeMatcher::matches] walks the value by byte offset, always at a character
    boundary; here an offset is the rest of the value from it, and an index into
    the pattern is the rest of the pattern.  [fuel] is the number of iterations
    allowed; the theorem shows how many are enough. *)

From S2P Require Import Prelude RustStr Options DirectedRead Staleness Config Runtime Stream Txn Client.

(** The two wildcards; [%] is tested first, so neither matches itself. *)
Definition likeWild : char := cPERCENT.
Definition likeOne : char := cUNDERSCORE.

(** The loop: [p] and [v] are what is left of the pattern and the value, [star]
    the rests after the last [%] and from where it was met.  [None] is the end of
    the fuel. *)
Fixpoint like_loop (fuel : nat) (p v : rstr) (star : option (rstr * rstr)) : option bool :=
  match fuel with
  | O => None
  | S f =>
      match v with
      | [] => Some (forallb (fun c => bool_decide (c = likeWild)) p)
      | ch :: v' =>
          let backtrack :=
            match star with
            | Some (sp, _ :: sv) => like_loop f sp sv (Some (sp, sv))
            | _ => Some false
            end in
          match p with
          | c :: p' =>
              if decide (c = likeWild) then like_loop f p' v (Some (p', v))
              else if decide (c = likeOne \/ c = ch) then like_loop f p' v' star
              else backtrack
          | [] => backtrack
          end
      end
  end.

(** The trailing loop skips the [%]s and tests for the end of the pattern, which
    is whether only [%]s are left. *)
Definition matches (pattern value : rstr) : bool :=
  default false (like_loop ((S (length value)) * (S (length pattern))) pattern value None).

Definition like_match (pattern value : rstr) : bool := matches pattern value.

Definition metadata_sql_builder `{SC : SpannerClient} (config : SharedConfig) (q : rstr) : StatementBuilder :=
  retry_apply_to_statement (retry config)
    (directed_read_apply_to_statement (directed_read config)
       (apply_priority_to_statement (request config) (builder q))).

(** ** The reference *)

(** [%] is any run of characters, [_] any one, everything else itself. *)
Inductive like : rstr -> rstr -> Prop :=
  | like_end : like [] []
  | like_wild p run v : like p v -> like (likeWild :: p) (run ++ v)
  | like_one p c v : like p v -> like (likeOne :: p) (c :: v)
  | like_char p c v : c <> likeWild -> c <> likeOne -> like p v -> like (c :: p) (c :: v).

(** ** Correctness of the matcher *)

(** A pattern piece without [%] matches a prefix of its own length. *)
Definition rigid (w : rstr) : Prop := Forall (fun c => c <> likeWild) w.

Lemma like_rigid_inv w p s :
  rigid w -> like (w ++ p) s -> exists a s', s = a ++ s' /\ length a = length w /\ like p s'.
Proof.
  intros Hw. revert s. induction Hw as [|c w Hc Hw IH]; intros s H; [by exists [], s|].
  cbn in H. inversion H as [|? ? ? _ E|p0 c0 v0 H0|p0 c0 v0 _ _ H0]; subst; [done|..];
    destruct (IH _ H0) as (a & s' & -> & Hl & Hp); exists (c0 :: a), s' || exists (c :: a), s';
    (split; [done|]; split; [cbn; lia|done]).
Qed.

Lemma like_wild_longer p a v : like (likeWild :: p) v -> like (likeWild :: p) (a ++ v).
Proof.
  intros H. inversion H as [|p0 run v0 H0| |? ? ? Hc]; subst; [|discriminate..|done].
  rewrite app_assoc. by apply like_wild.
Qed.

Lemma like_nil_wilds p : like p [] <-> Forall (fun c => c = likeWild) p.
Proof.
  split.
  - intros H. remember [] as v eqn:E. induction H as [|p run v H IH| |]; [constructor| |done..].
    apply app_eq_nil in E as [-> ->]. constructor; auto.
  - induction 1 as [|c p -> _ IH]; [constructor|]. by apply (like_wild p []).
Qed.

(** What can still match through the last [%]: the rest of its pattern, from a
    strictly later place. *)
Definition later (star : option (rstr * rstr)) : Prop :=
  match star with
  | Some (sp, sv) => exists x a s, sv = x :: a ++ s /\ like sp s
  | None => False
  end.

(** The pattern since the last [%] has matched the value since then, rigidly. *)
Definition tracked (star : option (rstr * rstr)) (p v : rstr) : Prop :=
  match star with
  | Some (sp, sv) => exists w a, rigid w /\ sp = w ++ p /\ sv = a ++ v /\ length a = length w
  | None => True
  end.

(** At a new [%], whatever the old one could do the new one can. *)
Lemma later_absorbed star p v :
  tracked star (likeWild :: p) v -> later star -> like (likeWild :: p) v.
Proof.
  destruct star as [[sp sv]|]; [|done]. intros (w & a & Hw & -> & Hsv & Hl) (x & b & s & Hs & Hlike).
  destruct (like_rigid_inv _ _ _ Hw Hlike) as (a' & s' & -> & Hl' & Hp).
  assert (x :: b ++ a' ++ s' = a ++ v) as E by congruence.
  assert (exists d, v = d ++ s') as [d ->].
  { exists (drop (length a) (x :: b ++ a')). assert ((x :: b ++ a') ++ s' = a ++ v) as E'
      by (cbn; by rewrite <- app_assoc).
    rewrite <- (drop_app_length a v), <- E', skipn_app. f_equal.
    replace (length a - length (x :: b ++ a')) with 0; [done|]. cbn. rewrite length_app. lia. }
  by apply like_wild_longer.
Qed.

Lemma tracked_step star p c v x :
  c <> likeWild -> tracked star (c :: p) (x :: v) -> tracked star p v.
Proof.
  destruct star as [[sp sv]|]; [|done]. intros Hc (w & a & Hw & -> & -> & Hl).
  exists (w ++ [c]), (a ++ [x]). rewrite <- !app_assoc, !length_app. cbn.
  split_and!; [|done|done|lia]. apply Forall_app. split; [done|]. by repeat constructor.
Qed.

Lemma like_wild_iff p v : like (likeWild :: p) v <-> like p v \/ later (Some (p, v)).
Proof.
  split.
  - intros H. inversion H as [|p0 run v0 H0| |? ? ? Hc]; subst; [|done]. destruct run as [|x run]; [by left|].
    right. by exists x, run, v0.
  - intros [H|(x & a & s & -> & H)]; [by apply (like_wild p [])|]. by apply (like_wild p (x :: a)).
Qed.

Lemma like_step_iff c p x v :
  c <> likeWild -> c = likeOne \/ c = x -> like (c :: p) (x :: v) <-> like p v.
Proof.
  intros Hw Hc. split.
  - intros H. inversion H; subst; by simplify_eq.
  - intros H. destruct (decide (c = likeOne)) as [->|Ho]; [by apply like_one|].
    destruct Hc as [| ->]; [done|]. by apply like_char.
Qed.

Lemma like_mismatch c p x v :
  c <> likeWild -> c <> likeOne -> c <> x -> ~ like (c :: p) (x :: v).
Proof. intros Hw Ho Hx H. inversion H; by simplify_eq. Qed.

Lemma later_next sp x sv : later (Some (sp, x :: sv)) <-> like sp sv \/ later (Some (sp, sv)).
Proof.
  split.
  - intros (y & [|z a] & s & E & H); simplify_eq/=; [by left|]. right. by exists z, a, s.
  - intros [H|(z & a & s & -> & H)]; [by exists x, [], sv|]. by exists x, (z :: a), s.
Qed.

Lemma later_exhausted star p : tracked star p [] -> ~ later star.
Proof.
  destruct star as [[sp sv]|]; [|tauto]. intros (w & a & Hw & -> & Hsv & Hl) (x & b & s & Hs & H).
  destruct (like_rigid_inv _ _ _ Hw H) as (a' & s' & -> & Hl' & _).
  apply (f_equal length) in Hs. rewrite Hsv in Hs. cbn in Hs. rewrite !length_app in Hs. cbn in Hs. lia.
Qed.

Lemma forallb_wilds p :
  forallb (fun c => bool_decide (c = likeWild)) p = true <-> Forall (fun c => c = likeWild) p.
Proof.
  induction p as [|c p IH]; cbn; [done|]. by rewrite andb_true_iff, bool_decide_eq_true, Forall_cons, IH.
Qed.

(** Iterations left: each lowers it, whatever branch it takes. *)
Definition rank (n : nat) (p v : rstr) (star : option (rstr * rstr)) : nat :=
  length (match star with Some (_, sv) => sv | None => v end) * S n + length p.

Lemma like_loop_spec n fuel p v star :
  length p <= n -> (forall sp sv, star = Some (sp, sv) -> length sp <= n /\ length v <= length sv) ->
  tracked star p v -> rank n p v star < fuel ->
  exists b, like_loop fuel p v star = Some b /\ (b = true <-> like p v \/ later star).
Proof.
  revert p v star. induction fuel as [|fuel IH]; intros p v star Hp Hs Ht Hf; [lia|].
  assert (forall x v', v = x :: v' -> ~ like p v ->
    exists b, match star with
              | Some (sp, _ :: sv) => like_loop fuel sp sv (Some (sp, sv))
              | _ => Some false
              end = Some b /\ (b = true <-> like p v \/ later star)) as Hback.
  { intros x v' -> Hno. destruct star as [[sp sv]|]; [|exists false; split; [done|]; cbn; naive_solver].
    destruct (Hs _ _ eq_refl) as [Hsp Hlen]. destruct sv as [|y sv]; [cbn in Hlen; lia|].
    destruct (IH sp sv (Some (sp, sv))) as (b & Eb & Hb).
    - done.
    - intros sp' sv' [= <- <-]. done.
    - exists [], []. split_and!; [by constructor|done..].
    - unfold rank in *. cbn [length] in Hf |- *. nia.
    - exists b. split; [done|]. rewrite Hb, later_next. tauto. }
  cbn [like_loop]. destruct v as [|x v].
  - eexists. split; [done|]. pose proof (later_exhausted _ _ Ht). rewrite like_nil_wilds, forallb_wilds. tauto.
  - destruct p as [|c p]; [apply (Hback x v eq_refl); by inversion 1|]. case_decide as Hc.
    + subst c. destruct (IH p (x :: v) (Some (p, x :: v))) as (b & Eb & Hb).
      * cbn in Hp. lia.
      * intros sp sv [= <- <-]. cbn in Hp. split; [lia|done].
      * exists [], []. split_and!; [by constructor|done..].
      * unfold rank in *. cbn [length] in Hf, Hp |- *. destruct star as [[sp sv]|]; [|cbn [length] in Hf; lia].
        destruct (Hs _ _ eq_refl) as [_ Hlen]. cbn [length] in Hlen.
        assert (S (length v) * S n <= length sv * S n) by (apply Nat.mul_le_mono_r; lia). lia.
      * exists b. split; [done|]. rewrite Hb, <- like_wild_iff.
        split; [by left|]. intros [|H]; [done|]. by eapply later_absorbed.
    + case_decide as Hx.
      * destruct (IH p v star) as (b & Eb & Hb).
        -- cbn in Hp. lia.
        -- intros sp sv E. destruct (Hs _ _ E). cbn in *. split; [done|lia].
        -- by eapply tracked_step.
        -- unfold rank in *. cbn [length] in Hf |- *. destruct star as [[]|]; cbn [length] in Hf; nia.
        -- exists b. split; [done|]. rewrite Hb. by rewrite (like_step_iff c p x v Hc Hx).
      * apply (Hback x v eq_refl). apply like_mismatch; naive_solver.
Qed.

Lemma like_run pattern value :
  exists b, like_loop ((S (length value)) * (S (length pattern))) pattern value None = Some b /\
    (b = true <-> like pattern value).
Proof.
  destruct (like_loop_spec (length pattern) ((S (length value)) * (S (length pattern))) pattern value None)
    as (b & E & Hb); [done|done|done|unfold rank; lia|].
  exists b. split; [done|]. rewrite Hb. cbn. tauto.
Qed.

Lemma matches_like pattern value : matches pattern value = true <-> like pattern value.
Proof. unfold matches. destruct (like_run pattern value) as (b & -> & Hb). done. Qed.

(** [LIKE] matching is exact, and linear in the product of the lengths.  The
    matcher returns, within [(|value| + 1) * (|pattern| + 1)] iterations, and it
    accepts exactly the values the pattern describes: [%] stands for any run of
    characters, [_] for exactly one character, every other character for itself.
    In particular no adversarial pattern backtracks more than that. *)
Theorem like_match_exact pattern value :
  is_Some (like_loop ((S (length value)) * (S (length pattern))) pattern value None) /\
  (like_match pattern value = true <-> like pattern value).
Proof.
  split; [|apply matches_like]. destruct (like_run pattern value) as (b & -> & _). by eexists.
Qed.
