(* ===== verification/Connection.v ===== *)
(** * [src/connection.rs]: the connection's handlers

    Transactions (commit, rollback, the autocommit toggle), the option setter and
    getter, catalog checks and the table-existence probe.  A connection's own
    fields are its database path, its configuration and its cancel slot; the
    transaction state is in the world, shared with its statements. *)

From S2P Require Import Prelude RustStr RustNum ErrorModel Options DirectedRead Staleness Config Runtime Stream Txn Client.

(** ** Isolation levels ([src/connection/exec.rs]) *)

Definition ISOLATION_DEFAULT : rstr := str "adbc.connection.transaction.isolation.default".
Definition ISOLATION_READ_UNCOMMITTED : rstr :=
  str "adbc.connection.transaction.isolation.read_uncommitted".
Definition ISOLATION_READ_COMMITTED : rstr :=
  str "adbc.connection.transaction.isolation.read_committed".
Definition ISOLATION_REPEATABLE_READ : rstr :=
  str "adbc.connection.transaction.isolation.repeatable_read".
Definition ISOLATION_SNAPSHOT : rstr := str "adbc.connection.transaction.isolation.snapshot".
Definition ISOLATION_SERIALIZABLE : rstr := str "adbc.connection.transaction.isolation.serializable".
Definition ISOLATION_LINEARIZABLE : rstr := str "adbc.connection.transaction.isolation.linearizable".

Definition parse_isolation_level (value : OptionValue) : Result IsolationLevel :=
  match value with
  | OString s =>
      if decide (s = ISOLATION_DEFAULT) then Ok Unspecified
      else if decide (s = ISOLATION_SERIALIZABLE) then Ok Serializable
      else if decide (s = ISOLATION_REPEATABLE_READ) then Ok RepeatableRead
      else if decide (s = ISOLATION_SNAPSHOT) then Ok RepeatableRead
      else if decide (s = ISOLATION_READ_UNCOMMITTED \/ s = ISOLATION_READ_COMMITTED)
           then Ok RepeatableRead
      else if decide (s = ISOLATION_LINEARIZABLE) then Ok Serializable
      else Err (invalid_argument [Lit "unknown isolation level "; Dbg s])
  | _ => Err (invalid_argument [Lit "expected a string isolation-level option value"])
  end.

Definition isolation_to_adbc_string (isolation : IsolationLevel) : rstr :=
  match isolation with
  | Serializable => ISOLATION_SERIALIZABLE
  | RepeatableRead => ISOLATION_REPEATABLE_READ
  | Unspecified => ISOLATION_DEFAULT
  end.

(** ** Catalogs ([src/metadata.rs]) *)

Definition database_catalog (database : rstr) : rstr :=
  match rsplit_once cSLASH database with Some (_, id) => id | None => database end.

Definition check_lookup_catalog (catalog : option rstr) (reported : rstr) : Result unit :=
  match catalog with
  | None => Ok tt
  | Some name =>
      if decide (name = reported) then Ok tt
      else Err (err [Lit "catalog "; Dbg name; Lit " not found: this connection has only the catalog ";
                     Dbg reported] NotFound)
  end.

Definition check_fixed_catalog_or_schema (value : OptionValue) (what : String.string) (fixed : rstr) :
    Result unit :=
  match value with
  | OString s =>
      if decide (s = fixed) then Ok tt
      else Err (unsupported [Lit "setting the "; Lit what; Lit " to "; Dbg s;
                             Lit ": Spanner has no settable "; Lit what; Lit "; only "; Dbg fixed;
                             Lit " is valid"])
  | _ => Err (invalid_argument [Lit "expected a string "; Lit what; Lit " value"])
  end.

(** ** The connection *)

Section Connection.
Context {SC : SpannerClient} (env : Env).

Record Connection := mkConnection {
  c_database : rstr;
  c_config : SharedConfig;
  c_slot : positive;
}.

Definition catalog (self : Connection) : rstr := database_catalog (c_database self).

(** The probe of [src/metadata.rs]; its one column is a string, whose conversion
    cannot fail. *)
Definition table_exists (slot : positive) (timeout : option Z) (db_schema table_name : rstr) : M bool :=
  let statement := add_param (add_param (builder
    (str "SELECT TABLE_NAME FROM INFORMATION_SCHEMA.TABLES WHERE TABLE_SCHEMA = @schema AND TABLE_NAME = @table"))
    (str "schema") (string_param db_schema)) (str "table") (string_param table_name) in
  rs ← perform env slot timeout OPTION_RPC_TIMEOUT_QUERY (ExecuteQuery (inl None) statement);
  match first_error (rs_items rs) with
  | Some e => throw (from_spanner e)
  | None => mret (bool_decide (0 < length (rows_of (rs_items rs))))
  end.

Definition apply_transaction (self : Connection) (statements : list SpannerSql)
    (mutations : list Mutation) : M unit :=
  _ ← begin_operation (c_slot self);
  if decide (length statements = 0) then
    write_mutations_txn env (c_slot self) (c_config self) mutations
  else
    _ ← run_batch_txn env (c_slot self) (c_config self) statements mutations false;
    mret tt.

Definition apply_manual_txn (self : Connection) (work : ManualTxn SpannerSql Mutation RoTxn) : M unit :=
  ro ← read_cells (fun h => is_read_only h (c_config self));
  _ ← lift (check_commit_writable ro work);
  match work with
  | Unset | MRead _ => mret tt
  | MDml statements mutations => apply_transaction self statements mutations
  end.

(** The critical section [commit] begins with: the work to apply. *)
Definition commit_begin (st : TxnState SpannerSql Mutation RoTxn) :
    Result (ManualTxn SpannerSql Mutation RoTxn) :=
  if autocommit st then
    Err (invalid_state [Lit "commit invoked with autocommit enabled; no active transaction"])
  else Ok (txn st).

Definition commit (self : Connection) : M unit :=
  work ← locked (fun st => Some (st, commit_begin st));
  _ ← apply_manual_txn self work;
  locked (fun st => st' ← finish_commit st work; Some (st', Ok tt)).

Definition rollback_section (st : TxnState SpannerSql Mutation RoTxn) :
    TxnState SpannerSql Mutation RoTxn * Result unit :=
  if autocommit st then
    (st, Err (invalid_state [Lit "rollback invoked with autocommit enabled; no active transaction"]))
  else (mkTxnState false Unset, Ok tt).

Definition rollback (self : Connection) : M unit := locked (fun st => Some (rollback_section st)).

(** The critical section of the autocommit setter: the work the toggle took. *)
Definition toggle_section (enable : bool) (st : TxnState SpannerSql Mutation RoTxn) :
    TxnState SpannerSql Mutation RoTxn * option (ManualTxn SpannerSql Mutation RoTxn) :=
  if enable && negb (autocommit st) then
    let '(st', work) := enter_autocommit st in (st', Some work)
  else (mkTxnState enable (txn st), None).

Definition set_autocommit (self : Connection) (enable : bool) : M unit :=
  pending ← locked (fun st => let '(st', p) := toggle_section enable st in Some (st', Ok p));
  match pending with
  | None => mret tt
  | Some work =>
      r ← catch (apply_manual_txn self work);
      match r with
      | Ok _ => mret tt
      | Err e => _ ← locked (fun st => st' ← restore_manual st work; Some (st', Ok tt)); throw e
      end
  end.

(** ** Options *)

Inductive OptionConnection :=
  | OcAutoCommit
  | OcReadOnly
  | OcCurrentCatalog
  | OcCurrentSchema
  | OcIsolationLevel
  | OcOther (k : rstr).

Definition with_config (self : Connection) (c : SharedConfig) : Connection :=
  mkConnection (c_database self) c (c_slot self).

(** A setter changes the connection and the world; both survive an error. *)
Definition set_option (self : Connection) (key : OptionConnection) (value : OptionValue) (w : World) :
    option (World * Connection * Result unit) :=
  let keep (r : Result unit) := Some (w, self, r) in
  match key with
  | OcAutoCommit =>
      match bool_option value (str "option adbc.connection.autocommit") with
      | Err e => keep (Err e)
      | Ok enable => '(w', r) ← set_autocommit self enable w; Some (w', self, r)
      end
  | OcReadOnly =>
      match bool_option value (str "option adbc.connection.readonly") with
      | Err e => keep (Err e)
      | Ok b => '(w', r) ← update_cells (fun h => store_read_only h (c_config self) b) w;
                Some (w', self, r)
      end
  | OcIsolationLevel =>
      let '(c, r) := assign (c_config self) (parse_isolation_level value) (with_isolation (c_config self)) in
      Some (w, with_config self c, r)
  | OcOther k =>
      if decide (k = OPTION_TRANSACTION_TAG) then
        let '(c, r) := upd (set_transaction_tag (request (c_config self)) value)
                         (with_request (c_config self)) in
        Some (w, with_config self c, r)
      else
        let '(c, r) := set_shared_option (c_config self) parse_from_rfc3339 k value in
        Some (w, with_config self c,
              handled ← r; match handled with
                           | Some _ => Ok tt
                           | None => Err (unknown_option "connection" k)
                           end)
  | OcCurrentCatalog => keep (check_fixed_catalog_or_schema value "current catalog" (catalog self))
  | OcCurrentSchema => keep (check_fixed_catalog_or_schema value "current schema" [])
  end.

Definition get_option_string (self : Connection) (key : OptionConnection) (w : World) : Result rstr :=
  match key with
  | OcAutoCommit => Ok (show_bool (autocommit (w_txn w)))
  | OcReadOnly => Ok (show_bool (is_read_only (w_cells w) (c_config self)))
  | OcIsolationLevel => Ok (isolation_to_adbc_string (isolation (c_config self)))
  | OcOther k =>
      if decide (k = OPTION_TRANSACTION_TAG) then
        ok_or (transaction_tag_string (request (c_config self))) (option_not_set OPTION_TRANSACTION_TAG)
      else shared_option_string (c_config self) (w_cells w) k
  | OcCurrentCatalog => Ok (catalog self)
  | OcCurrentSchema => Ok []
  end.

End Connection.
