(* ===== verification/TxnSystem.v ===== *)
(** * Transactions under concurrency

    A connection and the statements it created run on different threads and meet
    only in critical sections on the shared [TxnState].  [sys_step] interleaves
    those sections: a commit and an autocommit toggle are two sections with the
    RPC between them, during which statements keep buffering and reading.  Ghost
    fields record what was accepted into the buffer and how it was settled
    (applied by a successful commit, or discarded by a rollback). *)

From S2P Require Import Prelude RustStr ErrorModel Options DirectedRead Staleness Config Runtime Stream Txn Client Connection.

Section System.
Context {SC : SpannerClient}.

Abbreviation State := (TxnState SpannerSql Mutation RoTxn) (only parsing).
Abbreviation Work := (ManualTxn SpannerSql Mutation RoTxn) (only parsing).

(** The connection's methods take [&mut self]: at most one of them is in
    flight. *)
Inductive Phase :=
  | Idle
  | Committing (work : Work)
  | Toggling (work : Work).

Record Sys := mkSys {
  s_state : State;
  s_phase : Phase;
  s_accepted : list SpannerSql * list Mutation;
  (** the chunks of work that left the buffer, and whether they were applied *)
  s_settled : list (bool * (list SpannerSql * list Mutation));
}.

Definition sys_new : Sys := mkSys TxnState_new Idle ([], []) [].

Definition work_of (t : Work) : list SpannerSql * list Mutation :=
  (pending_statements t, pending_mutations t).

Definition app2 {A B} (x y : list A * list B) : list A * list B := (x.1 ++ y.1, x.2 ++ y.2).

(** All the work of a list of settled chunks. *)
Definition all_of (l : list (bool * (list SpannerSql * list Mutation))) :
    list SpannerSql * list Mutation :=
  (concat (map (fun x => x.2.1) l), concat (map (fun x => x.2.2) l)).

(** The section of an ingest: every row's mutation under one lock. *)
Fixpoint buffer_mutations (st : State) (ms : list Mutation) : State * Result unit :=
  match ms with
  | [] => (st, Ok tt)
  | m :: ms => match buffer_mutation st m with
               | (st', Ok _) => buffer_mutations st' ms
               | (st', Err e) => (st', Err e)
               end
  end.

Inductive sys_step : Sys -> Sys -> Prop :=
  (** a statement buffers DML, or is refused *)
  | St_dml st ph acc se new st' :
      autocommit st = false -> buffer_dml st new = (st', Ok tt) ->
      sys_step (mkSys st ph acc se) (mkSys st' ph (app2 acc (new, [])) se)
  | St_dml_refused st ph acc se new st' e :
      autocommit st = false -> buffer_dml st new = (st', Err e) ->
      sys_step (mkSys st ph acc se) (mkSys st' ph acc se)
  (** a bulk ingest buffers its mutations, or is refused *)
  | St_ingest st ph acc se ms st' :
      autocommit st = false -> buffer_mutations st ms = (st', Ok tt) ->
      sys_step (mkSys st ph acc se) (mkSys st' ph (app2 acc ([], ms)) se)
  | St_ingest_refused st ph acc se ms st' e :
      autocommit st = false -> buffer_mutations st ms = (st', Err e) ->
      sys_step (mkSys st ph acc se) (mkSys st' ph acc se)
  (** a query installs or adopts the shared snapshot, or is refused *)
  | St_read st ph acc se t st' r :
      autocommit st = false -> start_read_txn st t = (st', r) ->
      sys_step (mkSys st ph acc se) (mkSys st' ph acc se)
  (** [commit]: take a copy of the work, then finish after the RPC *)
  | St_commit st acc se work :
      commit_begin st = Ok work ->
      sys_step (mkSys st Idle acc se) (mkSys st (Committing work) acc se)
  | St_commit_failed st acc se work :
      sys_step (mkSys st (Committing work) acc se) (mkSys st Idle acc se)
  | St_committed st acc se work st' :
      finish_commit st work = Some st' ->
      sys_step (mkSys st (Committing work) acc se)
        (mkSys st' Idle acc (se ++ [(true, work_of work)]))
  (** [rollback] *)
  | St_rollback st acc se st' :
      rollback_section st = (st', Ok tt) ->
      sys_step (mkSys st Idle acc se) (mkSys st' Idle acc (se ++ [(false, work_of (txn st))]))
  (** the autocommit setter *)
  | St_set_autocommit st acc se b st' :
      toggle_section b st = (st', None) ->
      sys_step (mkSys st Idle acc se) (mkSys st' Idle acc se)
  | St_toggle st acc se b st' work :
      toggle_section b st = (st', Some work) ->
      sys_step (mkSys st Idle acc se) (mkSys st' (Toggling work) acc se)
  | St_toggle_failed st acc se work st' :
      restore_manual st work = Some st' ->
      sys_step (mkSys st (Toggling work) acc se) (mkSys st' Idle acc se)
  | St_toggled st acc se work :
      sys_step (mkSys st (Toggling work) acc se)
        (mkSys st Idle acc (se ++ [(true, work_of work)])).

(** ** The invariant *)

(** While a commit of [work] is in flight, the state holds that work and
    possibly more behind it, of the same kind. *)
Definition extends (work t : Work) : Prop :=
  match work with
  | Unset => True
  | MRead r => t = MRead r
  | MDml s m => exists s' m', t = MDml (s ++ s') (m ++ m')
  end.

Definition sys_inv (s : Sys) : Prop :=
  match s_phase s with
  | Idle => (autocommit (s_state s) = true -> txn (s_state s) = Unset) /\
            s_accepted s = app2 (all_of (s_settled s)) (work_of (txn (s_state s)))
  | Committing work => autocommit (s_state s) = false /\ extends work (txn (s_state s)) /\
            s_accepted s = app2 (all_of (s_settled s)) (work_of (txn (s_state s)))
  | Toggling work => autocommit (s_state s) = true /\ txn (s_state s) = Unset /\
            s_accepted s = app2 (all_of (s_settled s)) (work_of work)
  end.

Lemma app2_assoc {A B} (x y z : list A * list B) : app2 (app2 x y) z = app2 x (app2 y z).
Proof. unfold app2; cbn. by rewrite !app_assoc. Qed.

Lemma app2_nil_r {A B} (x : list A * list B) : app2 x ([], []) = x.
Proof. destruct x. unfold app2; cbn. by rewrite !app_nil_r. Qed.

Lemma all_of_snoc l x : all_of (l ++ [x]) = app2 (all_of l) x.2.
Proof. unfold all_of, app2; cbn. by rewrite !map_app, !concat_app; cbn; rewrite !app_nil_r. Qed.

(** What a section of a statement does to the pending work: it appends, in the
    same mode, and only behind work of its own kind. *)
Lemma buffer_dml_section st new st' :
  buffer_dml st new = (st', Ok tt) -> autocommit st = false ->
  autocommit st' = false /\ work_of (txn st') = app2 (work_of (txn st)) (new, []) /\
  (forall work, extends work (txn st) -> extends work (txn st')).
Proof.
  intros H Hac. pose proof (buffer_dml_pending _ _ _ H) as (Hs & Hm & Ha).
  split; [congruence|]. split; [unfold work_of, app2; cbn; by rewrite Hs, Hm, app_nil_r|].
  intros work Hw. unfold buffer_dml in H. destruct (check_kind_allowed st KDml) as [[]|] eqn:Ek; [|done].
  case_decide; [by simplify_eq|]. injection H as <-. cbn.
  apply check_kind_allowed_Ok in Ek as [|Ek]; [congruence|].
  destruct work as [|r|s m]; [done| |]; cbn in *.
  - rewrite Hw in Ek. by destruct Ek.
  - destruct Hw as (s' & m' & ->). exists (s' ++ new), m'. by rewrite app_assoc.
Qed.

Lemma buffer_mutation_section st m st' :
  buffer_mutation st m = (st', Ok tt) -> autocommit st = false ->
  autocommit st' = false /\ work_of (txn st') = app2 (work_of (txn st)) ([], [m]) /\
  (forall work, extends work (txn st) -> extends work (txn st')).
Proof.
  intros H Hac. pose proof (buffer_mutation_pending _ _ _ H) as (Hs & Hm & Ha).
  split; [congruence|]. split; [unfold work_of, app2; cbn; by rewrite Hs, Hm, app_nil_r|].
  intros work Hw. unfold buffer_mutation in H. destruct (check_kind_allowed st KDml) as [[]|] eqn:Ek; [|done].
  injection H as <-. cbn. apply check_kind_allowed_Ok in Ek as [|Ek]; [congruence|].
  destruct work as [|r|s ms]; [done| |]; cbn in *.
  - rewrite Hw in Ek. by destruct Ek.
  - destruct Hw as (s' & m' & ->). exists s', (m' ++ [m]). by rewrite app_assoc.
Qed.

Lemma buffer_mutation_fixes_kind (st : State) m st' :
  buffer_mutation st m = (st', Ok tt) -> exists s ms, txn st' = MDml s ms.
Proof.
  unfold buffer_mutation. destruct (check_kind_allowed st KDml); [|done]. intros [= <-].
  cbn. destruct (txn st); eauto.
Qed.

Lemma buffer_mutations_dml (st : State) ms st' e :
  (exists s m, txn st = MDml s m) -> autocommit st = false -> buffer_mutations st ms <> (st', Err e).
Proof.
  revert st. induction ms as [|x ms IH]; intros st Hk Hac; cbn; [done|].
  destruct (buffer_mutation st x) as [st1 [[]|e']] eqn:E.
  - apply IH; [by eapply buffer_mutation_fixes_kind|].
    by destruct (buffer_mutation_pending _ _ _ E) as (_ & _ & ->).
  - destruct Hk as (s & m & Hk). unfold buffer_mutation, check_kind_allowed in E.
    rewrite Hac, Hk in E. done.
Qed.

(** A refused mutation is refused before anything is buffered, so an ingest
    buffers all of its rows or none. *)
Lemma buffer_mutations_section st ms st' r :
  buffer_mutations st ms = (st', r) -> autocommit st = false ->
  match r with
  | Ok _ => autocommit st' = false /\ work_of (txn st') = app2 (work_of (txn st)) ([], ms) /\
            (forall work, extends work (txn st) -> extends work (txn st'))
  | Err e => st' = st /\ status e = InvalidState
  end.
Proof.
  revert st. induction ms as [|m ms IH]; intros st H Hac; cbn in H.
  - simplify_eq. by rewrite app2_nil_r.
  - destruct (buffer_mutation st m) as [st1 [[]|e]] eqn:E.
    + destruct (buffer_mutation_section _ _ _ E Hac) as (Ha & Hw & He).
      specialize (IH st1 H Ha). destruct r as [u|e].
      * destruct IH as (? & Hw' & ?). split_and!; [done| |naive_solver].
        rewrite Hw', Hw, app2_assoc. done.
      * (* a later mutation cannot be refused: the kind is already DML *)
        exfalso. eapply buffer_mutations_dml; [|exact Ha|exact H].
        by eapply buffer_mutation_fixes_kind.
    + simplify_eq. unfold buffer_mutation, check_kind_allowed in E.
      by repeat (case_match; simplify_eq/=).
Qed.

Lemma start_read_txn_section st t st' r :
  start_read_txn st t = (st', r) -> autocommit st = false ->
  autocommit st' = false /\ work_of (txn st') = work_of (txn st) /\
  (forall work, extends work (txn st) -> extends work (txn st')) /\
  match r with Ok t' => txn st' = MRead t' | Err e => st' = st /\ status e = InvalidState end.
Proof.
  unfold start_read_txn. intros H Hac. destruct (check_kind_allowed st KRead) as [[]|e] eqn:Ek.
  - apply check_kind_allowed_Ok in Ek as [|Ek]; [congruence|].
    destruct st as [ac [|t0|s m]]; cbn in *; simplify_eq/=; split_and!; try done; try naive_solver.
    intros [|r|s m]; cbn; naive_solver.
  - simplify_eq. split_and!; try done. unfold check_kind_allowed in Ek.
    by repeat (case_match; simplify_eq/=).
Qed.

(** [finish_commit] removes exactly the applied work. *)
Lemma finish_commit_section st work :
  extends work (txn st) ->
  exists st', finish_commit st work = Some st' /\ autocommit st' = autocommit st /\
    work_of (txn st) = app2 (work_of work) (work_of (txn st')).
Proof.
  assert (forall t : Work, work_of (if has_pending_work t then t else Unset) = work_of t) as Hp.
  { intros t. destruct (has_pending_work t) eqn:E; [done|].
    apply has_pending_work_spec in E as [H1 H2]. unfold work_of. by rewrite H1, H2. }
  destruct st as [ac t]. destruct work as [|r|s m]; cbn [extends txn].
  - intros _. eexists. split; [unfold finish_commit; by destruct t|]. split; [done|].
    cbn [txn]. by rewrite Hp.
  - intros ->. by eexists.
  - intros (s' & m' & ->). rewrite finish_commit_prefix. eexists. split; [done|]. split; [done|].
    cbn [txn]. case_decide as Hd; [destruct Hd as [-> ->]; unfold work_of, app2; cbn; by rewrite !app_nil_r|done].
Qed.

(** With nothing buffered behind it, finishing a commit ends the transaction. *)
Lemma finish_all_unset (st st' : State) :
  finish_commit st (txn st) = Some st' -> txn st' = Unset.
Proof.
  destruct st as [ac t]; cbn [txn]. destruct t as [|r|s m].
  - unfold finish_commit; cbn. by intros [= <-].
  - unfold finish_commit; cbn. by intros [= <-].
  - pose proof (finish_commit_prefix (RoTxn := RoTxn) ac s m [] []) as E.
    rewrite !app_nil_r, decide_True in E by done. rewrite E. by intros [= <-].
Qed.

Lemma sys_inv_step s s' : sys_inv s -> sys_step s s' -> sys_inv s'.
Proof.
  intros Hinv Hstep. destruct Hstep; unfold sys_inv in *; cbn in *.
  - (* DML *) destruct (buffer_dml_section _ _ _ H0 H) as (Ha & Hw & He).
    destruct ph; [destruct Hinv as [Hi Hacc]|destruct Hinv as (Hi & Hext & Hacc)|destruct Hinv; congruence].
    + split; [congruence|]. by rewrite Hacc, Hw, app2_assoc.
    + split_and!; [done|by apply He|]. by rewrite Hacc, Hw, app2_assoc.
  - apply buffer_dml_err in H0 as [-> _]. done.
  - (* ingest *) destruct (buffer_mutations_section _ _ _ _ H0 H) as (Ha & Hw & He).
    destruct ph; [destruct Hinv as [Hi Hacc]|destruct Hinv as (Hi & Hext & Hacc)|destruct Hinv; congruence].
    + split; [congruence|]. by rewrite Hacc, Hw, app2_assoc.
    + split_and!; [done|by apply He|]. by rewrite Hacc, Hw, app2_assoc.
  - apply buffer_mutations_section in H0 as [-> _]; done.
  - (* read *) destruct (start_read_txn_section _ _ _ _ H0 H) as (Ha & Hw & He & _).
    destruct ph; [destruct Hinv as [Hi Hacc]|destruct Hinv as (Hi & Hext & Hacc)|destruct Hinv; congruence].
    + split; [congruence|]. by rewrite Hw.
    + split_and!; [done|by apply He|]. by rewrite Hw.
  - (* commit *) unfold commit_begin in H. destruct (autocommit st) eqn:E; simplify_eq.
    destruct Hinv as [_ Hacc]. split_and!; [done| |done].
    destruct (txn st); cbn; try done. exists [], []. by rewrite !app_nil_r.
  - (* failed *) destruct Hinv as (Ha & _ & Hacc). split; [congruence|done].
  - (* committed *) destruct Hinv as (Ha & Hext & Hacc).
    destruct (finish_commit_section _ _ Hext) as (st1 & Hst1 & Ha1 & Hw). simplify_eq.
    split; [congruence|]. by rewrite all_of_snoc, Hw, app2_assoc.
  - (* rollback *) unfold rollback_section in H. destruct (autocommit st) eqn:E; simplify_eq.
    destruct Hinv as [_ ->]. split; [done|].
    rewrite all_of_snoc. symmetry. apply app2_nil_r.
  - (* mode *) destruct Hinv as [Hi Hacc]. unfold toggle_section in H.
    destruct b; cbn in H; [|by simplify_eq]. destruct (autocommit st) eqn:E; cbn in H; simplify_eq.
    split; [auto|done].
  - (* toggle *) destruct Hinv as [Hi Hacc]. unfold toggle_section in H.
    destruct (b && negb (autocommit st)); simplify_eq/=. done.
  - destruct Hinv as (_ & Ht & Hacc). unfold restore_manual in H. rewrite Ht in H. by simplify_eq.
  - destruct Hinv as (Ha & Ht & Hacc). split; [done|]. rewrite Ht, all_of_snoc, Hacc.
    symmetry. apply app2_nil_r.
Qed.

Lemma sys_inv_reachable s : rtc sys_step sys_new s -> sys_inv s.
Proof.
  intros H. remember sys_new as s0 eqn:E. assert (sys_inv s0) as H0 by (by subst).
  clear E. induction H; eauto using sys_inv_step.
Qed.

(** ** The sequential handlers are paths of the system *)

Context (env : Env).

(** The one event a commit of [s] and [m] makes. *)
Definition commit_event (self : Connection) (s : list SpannerSql) (m : list Mutation) (ev : Event) : Prop :=
  let c := c_config self in
  match s with
  | [] => exists r, ev = Ev (WriteOnly (write_only_options (request c) (retry c)) m) r
  | _ => exists r, ev = Ev (RunBatch (build_runner (isolation c) (request c) (retry c))
                              (Some (batch_dml (request c) (retry c) false s)) m) r
  end.

(** The reply under which a call reports success. *)
Definition reply_ok {A} (limit : option Z) (r : Reply A) : Prop :=
  r_cancelled r = false /\ (is_Some limit -> r_expired r = false) /\ exists a, r_outcome r = inl a.

Lemma slot_fresh s o : slot_cancelled (slot_step s (BeginOperation o)) o = false.
Proof.
  unfold slot_cancelled, slot_step, signal_new, is_latched; cbn.
  rewrite lookup_insert_eq; cbn. by rewrite lookup_insert_eq.
Qed.

Lemma perform_inv {A} slot limit opt (c : Call A) w w' r :
  slot_cancelled (w_slots w) slot = false -> perform env slot limit opt c w = Some (w', r) ->
  w_txn w' = w_txn w /\ w_cells w' = w_cells w /\
  w_trace w' = w_trace w ++ [Ev c (env (w_trace w) A c)] /\
  (is_Ok r <-> reply_ok limit (env (w_trace w) A c)).
Proof.
  unfold perform, perform_then, reply_ok, is_Ok. intros ->. set (rep := env (w_trace w) A c).
  destruct (r_cancelled rep) eqn:Ec; intros [= <- <-]; cbn; split_and!; try done.
  - split; [by intros []|]. naive_solver.
  - unfold with_timeout, outcome. destruct limit as [l|], (r_expired rep) eqn:Ee, (r_outcome rep) as [a|e] eqn:Eo;
      split; try naive_solver; intros (_ & H & a' & Ha); try done; by discriminate H.
Qed.

(** Applying a transaction's work touches no transaction state, and makes one
    call carrying all of it, or none when there is nothing to write or the
    connection is read-only. *)
Lemma apply_manual_txn_inv self work w :
  exists w' r, apply_manual_txn env self work w = Some (w', r) /\ w_txn w' = w_txn w /\
    let ro := is_read_only (w_cells w) (c_config self) in
    if has_pending_work work then
      if ro then w' = w /\ exists e, r = Err e /\ status e = InvalidState
      else exists ev, w_trace w' = w_trace w ++ [ev] /\
             commit_event self (pending_statements work) (pending_mutations work) ev /\
             (is_Ok r <-> match ev with Ev _ rep =>
                            reply_ok (update_timeout (timeouts (c_config self))) rep end)
    else w_trace w' = w_trace w /\ w_cells w' = w_cells w /\ r = Ok tt.
Proof.
  unfold apply_manual_txn, read_cells, lift, check_commit_writable, mbind, M_bind. cbn.
  destruct (is_read_only _ _) eqn:Hro, (has_pending_work work) eqn:Hp; cbn.
  1: { do 2 eexists. split_and!; [done..|]. by eexists. }
  all: destruct work as [|t|s m]; try done; try (by do 2 eexists).
  1,3: apply has_pending_work_spec in Hp as [Hps Hpm]; cbn in Hps, Hpm; subst;
    do 2 eexists; by split_and!.
  unfold apply_transaction, mbind, M_bind, begin_operation. cbn [length].
  set (w1 := mkWorld _ _ _ _).
  assert (slot_cancelled (w_slots w1) (c_slot self) = false) as Hs by apply slot_fresh.
  destruct s as [|x s].
  - rewrite decide_True by done. unfold write_mutations_txn. rewrite decide_False by (destruct m; [by cbn in Hp|done]).
    unfold mbind, M_bind. destruct (perform _ _ _ _ _ w1) as [[w2 r]|] eqn:E.
    2: { unfold perform, perform_then in E. rewrite Hs in E. by case_match. }
    destruct (perform_inv _ _ _ _ _ _ _ Hs E) as (Ht & Hc & Htr & Hok).
    unfold w1 in Ht, Htr, Hok; cbn [w_trace w_txn] in Ht, Htr, Hok.
    destruct r as [mc|e]; do 2 eexists; (split; [done|]; split; [done|]); cbn;
      (eexists; split; [done|]; split; [by eexists|]); cbn; rewrite <- Hok; unfold is_Ok; naive_solver.
  - rewrite decide_False by done. unfold run_batch_txn. rewrite !decide_False by (cbn [length]; lia).
    unfold mbind, M_bind. destruct (perform _ _ _ _ _ w1) as [[w2 r]|] eqn:E.
    2: { unfold perform, perform_then in E. rewrite Hs in E. by case_match. }
    destruct (perform_inv _ _ _ _ _ _ _ Hs E) as (Ht & Hc & Htr & Hok).
    unfold w1 in Ht, Htr, Hok; cbn [w_trace w_txn] in Ht, Htr, Hok.
    destruct r as [[cs mc]|e]; do 2 eexists; (split; [done|]; split; [done|]); cbn;
      (eexists; split; [done|]; split; [by eexists|]); cbn; rewrite <- Hok; unfold is_Ok; naive_solver.
Qed.

(** ** Properties *)

(** C1: buffered work is applied exactly once or discarded by a rollback, and
    never lost, duplicated or reordered, whatever statements do while a commit or
    an autocommit toggle is in flight.  In every reachable state the statements
    and mutations ever accepted are, in order, those settled (applied by a
    successful commit or discarded) followed by those still buffered or held by
    the toggle in flight; in autocommit mode nothing is buffered; and neither
    section that ends a commit can panic: the applied work is a prefix of the
    buffer, and the state a failed toggle restores into is empty. *)
Theorem buffered_work_settled_once s :
  rtc sys_step sys_new s ->
  s_accepted s = app2 (all_of (s_settled s))
                   (work_of (match s_phase s with Toggling work => work | _ => txn (s_state s) end)) /\
  (autocommit (s_state s) = true -> txn (s_state s) = Unset) /\
  match s_phase s with
  | Idle => True
  | Committing work => is_Some (finish_commit (s_state s) work)
  | Toggling work => is_Some (restore_manual (s_state s) work)
  end.
Proof.
  intros H%sys_inv_reachable. unfold sys_inv in H. destruct (s_phase s) as [|work|work].
  - by destruct H.
  - destruct H as (Ha & Hext & Hacc). split_and!; [done|congruence|].
    destruct (finish_commit_section _ _ Hext) as (st' & -> & _). done.
  - destruct H as (Ha & Ht & Hacc). split_and!; [done..|]. unfold restore_manual. by rewrite Ht.
Qed.

(** C6: [commit], run alone, is all or nothing.  It fails with [InvalidState] and
    changes nothing in autocommit mode; it never panics; with buffered work on a
    writable connection it makes exactly one call carrying all of the work, in
    order, and then, if and only if that call succeeded, empties the transaction;
    on any failure (a read-only connection included) the transaction state is
    exactly what it was, so the commit can be replayed; with nothing buffered it
    makes no call and ends the transaction. *)
Theorem commit_all_or_nothing self w :
  exists w' r, commit env self w = Some (w', r) /\
    if autocommit (w_txn w) then w' = w /\ exists e, r = Err e /\ status e = InvalidState
    else
      let work := txn (w_txn w) in
      w_txn w' = match r with Ok _ => mkTxnState false Unset | Err _ => w_txn w end /\
      if has_pending_work work then
        if is_read_only (w_cells w) (c_config self)
        then w' = w /\ exists e, r = Err e /\ status e = InvalidState
        else exists ev, w_trace w' = w_trace w ++ [ev] /\
               commit_event self (pending_statements work) (pending_mutations work) ev /\
               (is_Ok r <-> match ev with Ev _ rep =>
                              reply_ok (update_timeout (timeouts (c_config self))) rep end)
      else w_trace w' = w_trace w /\ r = Ok tt.
Proof.
  unfold commit, locked, mbind at 1, M_bind at 1, commit_begin. destruct w as [sl ce [ac t] tr]; cbn.
  destruct ac; cbn; [do 2 eexists; split_and!; try done; by eexists|].
  unfold mbind, M_bind. set (w := mkWorld sl ce (mkTxnState false t) tr).
  destruct (apply_manual_txn_inv self t w) as (w' & r & -> & Htxn & Hap).
  unfold w in Hap; cbn -[commit_event] in Hap. destruct r as [[]|e].
  - rewrite Htxn. cbn [w_txn w]. destruct (finish_commit_section (mkTxnState false t) t) as (st' & Hfin & Ha & Hw).
    { destruct t; cbn; try done. exists [], []. by rewrite !app_nil_r. }
    rewrite Hfin. cbn. do 2 eexists. split; [done|]. split.
    + assert (txn st' = Unset) as Hu by exact (finish_all_unset (mkTxnState false t) _ Hfin).
      destruct st' as [ac' t']; cbn in *. by subst.
    + destruct (has_pending_work t); [|naive_solver].
      destruct (is_read_only ce (c_config self)); [by destruct Hap as (_ & e & ? & _)|].
      destruct Hap as (ev & ? & ? & Hok). by exists ev.
  - do 2 eexists. split; [done|]. split; [done|].
    destruct (has_pending_work t); [|naive_solver].
    destruct (is_read_only ce (c_config self)); done.
Qed.

(** C8: the autocommit setter is all or nothing.  Enabling autocommit in a manual
    transaction commits it: on success the connection is in autocommit mode with
    nothing buffered, on any failure (a read-only connection included) it is back
    in the manual transaction exactly as it was; the work goes out in exactly one
    call.  In every other case the setter only stores the mode. *)
Theorem set_autocommit_all_or_nothing self enable w :
  exists w' r, set_autocommit env self enable w = Some (w', r) /\
    if enable && negb (autocommit (w_txn w)) then
      let work := txn (w_txn w) in
      w_txn w' = match r with Ok _ => mkTxnState true Unset | Err _ => w_txn w end /\
      if has_pending_work work then
        if is_read_only (w_cells w) (c_config self)
        then w_trace w' = w_trace w /\ exists e, r = Err e /\ status e = InvalidState
        else exists ev, w_trace w' = w_trace w ++ [ev] /\
               commit_event self (pending_statements work) (pending_mutations work) ev /\
               (is_Ok r <-> match ev with Ev _ rep =>
                              reply_ok (update_timeout (timeouts (c_config self))) rep end)
      else w_trace w' = w_trace w /\ r = Ok tt
    else w' = mkWorld (w_slots w) (w_cells w) (mkTxnState enable (txn (w_txn w))) (w_trace w) /\ r = Ok tt.
Proof.
  unfold set_autocommit, locked, mbind at 1, M_bind at 1, toggle_section.
  destruct w as [sl ce [ac t] tr]; cbn. destruct (enable && negb ac) eqn:Een; [|by do 2 eexists].
  apply andb_true_iff in Een as [-> Hac]. destruct ac; [done|]. cbn.
  unfold mbind, M_bind, catch. set (w := mkWorld sl ce (mkTxnState true Unset) tr).
  destruct (apply_manual_txn_inv self t w) as (w' & r & -> & Htxn & Hap).
  unfold w in Hap; cbn -[commit_event] in Hap. destruct r as [[]|e].
  - do 2 eexists. split; [done|]. split; [by rewrite Htxn|].
    destruct (has_pending_work t); [|naive_solver].
    destruct (is_read_only ce (c_config self)); [by destruct Hap as (_ & e & ? & _)|done].
  - rewrite Htxn. cbn. do 2 eexists. split; [done|]. split; [done|]. cbn.
    destruct (has_pending_work t); [|naive_solver].
    destruct (is_read_only ce (c_config self)); [|done].
    destruct Hap as (-> & e' & [= <-] & ?). split; [done|]. by eexists.
Qed.


(** C11: a manual transaction reads one snapshot.  Once a query of the transaction
    has installed a read-only transaction, every later query of it gets the same
    one, DML is refused with [InvalidState] and changes nothing, and whatever
    section runs next leaves either that same snapshot or an ended transaction
    with nothing added to the buffer. *)
Theorem one_snapshot_per_transaction s s' t :
  rtc sys_step sys_new s -> txn (s_state s) = MRead t -> sys_step s s' ->
  (forall t', start_read_txn (s_state s) t' = (s_state s, Ok t)) /\
  (autocommit (s_state s) = false -> forall new, exists e,
     buffer_dml (s_state s) new = (s_state s, Err e) /\ status e = InvalidState) /\
  (txn (s_state s') = MRead t \/
   txn (s_state s') = Unset /\ work_of (txn (s_state s')) = work_of (txn (s_state s))).
Proof.
  intros Hr%sys_inv_reachable Ht Hstep.
  assert (autocommit (s_state s) = false) as Hac.
  { destruct (autocommit (s_state s)) eqn:E; [|done]. unfold sys_inv in Hr.
    destruct (s_phase s); [by rewrite (proj1 Hr E) in Ht|by destruct Hr; congruence|].
    destruct Hr as (_ & Hu & _). congruence. }
  split_and!.
  - intros t'. unfold start_read_txn, check_kind_allowed. by rewrite Hac, Ht.
  - intros _ new. unfold buffer_dml, check_kind_allowed. rewrite Hac, Ht. cbn. by eexists.
  - destruct Hstep; unfold sys_inv in Hr; cbn in *; rewrite ?Ht; try (by left).
    + left. unfold buffer_dml, check_kind_allowed in H0. rewrite Hac, Ht in H0. done.
    + left. by apply buffer_dml_err in H0 as [-> _].
    + left. destruct ms; cbn in H0; [by simplify_eq|].
      unfold buffer_mutation, check_kind_allowed in H0. rewrite Hac, Ht in H0. done.
    + left. by apply buffer_mutations_section in H0 as [-> _].
    + left. unfold start_read_txn, check_kind_allowed in H0. rewrite Hac, Ht in H0. cbn in H0.
      by injection H0 as <- _.
    + right. unfold finish_commit in H. rewrite Ht in H. by simplify_eq/=.
    + right. unfold rollback_section in H. rewrite Hac in H. by simplify_eq.
    + left. unfold toggle_section in H. rewrite Hac in H. destruct b; by simplify_eq/=.
    + right. unfold toggle_section in H. rewrite Hac in H. destruct b; by simplify_eq/=.
    + destruct Hr; congruence.
Qed.

End System.

(** A history with a commit in flight while another statement is buffered. *)
Lemma buffered_work_settled_once_witness :
  let a := builder (SC := example_client) (str "a") in
  let b := builder (SC := example_client) (str "b") in
  let s := mkSys (SC := example_client) (mkTxnState false (MDml [b] [])) Idle ([a; b], [])
             [(true, ([a], []))] in
  s_accepted s = app2 (all_of (s_settled s)) (work_of (txn (s_state s))).
Proof.
  intros a b s. apply (buffered_work_settled_once s).
  eapply rtc_l; [by eapply (St_set_autocommit _ _ _ false)|].
  eapply rtc_l; [by eapply (St_dml _ _ _ _ [a])|].
  eapply rtc_l; [by eapply St_commit|].
  eapply rtc_l; [by eapply (St_dml _ _ _ _ [b])|].
  exact (rtc_once _ _ (St_committed (mkTxnState false (MDml [a; b] [])) ([a; b], []) []
                         (MDml [a] []) (mkTxnState false (MDml [b] [])) eq_refl)).
Defined.

Lemma one_snapshot_per_transaction_witness :
  let s := mkSys (SC := example_client) (mkTxnState false (MRead 7)) Idle ([], []) [] in
  start_read_txn (s_state s) 8 = (s_state s, Ok 7).
Proof.
  intros s. refine (proj1 (one_snapshot_per_transaction s s 7 _ _ _) 8); [|done|].
  - eapply rtc_l; [by eapply (St_set_autocommit _ _ _ false)|].
    exact (rtc_once _ _ (St_read (SC := example_client) (mkTxnState false Unset) Idle ([], []) []
                           (7 : RoTxn (SpannerClient := example_client)) _ (Ok 7) eq_refl eq_refl)).
  - by eapply (St_set_autocommit _ _ _ false).
Defined.

(** An environment in which every call fails, and a world to run in. *)
Definition failing_env : Env (SC := example_client) :=
  fun _ _ _ => mkReply (SC := example_client) (inr (mkSpannerError None (str "unreachable"))) false false.

Definition example_world (st : TxnState (SpannerSql (SC := example_client)) rstr nat) :
    World (SC := example_client) :=
  mkWorld (SC := example_client) (mkSlots ∅ ∅) (mkCells ∅ ∅) st [].

Definition example_connection : Connection :=
  mkConnection (str "projects/p/instances/i/databases/d") (SharedConfig_default (mkCells ∅ ∅)).2 1.

