(* ===== verification/StatementState.v ===== *)
(** * [src/statement.rs]: the statement's state, options and bound data

    The fields of [SpannerStatement], its option setter and getter, binding, and
    the helpers its execution paths share.  Arrow batches and what [src/bind.rs]
    makes of them are the interface [Batches]: a statement only counts rows and
    asks for a row's parameters or its insert mutation. *)

From S2P Require Import Prelude RustStr RustNum ErrorModel Options DirectedRead Staleness Config.
From S2P Require Import Sql Runtime Stream Txn Client Connection.

(** What the statement needs of Arrow data and of [src/bind.rs]. *)
Class Batches `{SC : SpannerClient} := {
  RecordBatch : Type;
  Schema : Type;
  num_rows : RecordBatch -> nat;
  num_columns : RecordBatch -> Z;
  get_array_memory_size : RecordBatch -> Z;
  schema : RecordBatch -> Schema;
  (** [bind::resolve_parameter_names], [bind_params], [insert_mutation],
      [create_table_sql], [mutation_table] *)
  resolve_parameter_names : rstr -> RecordBatch -> bool -> Result (list rstr);
  bind_params : StatementBuilder -> list rstr -> RecordBatch -> nat -> Result StatementBuilder;
  insert_mutation : rstr -> RecordBatch -> nat -> Result Mutation;
  create_table_sql : rstr -> option rstr -> Schema -> bool -> Result rstr;
  mutation_table : option rstr -> rstr -> rstr;
}.

Inductive IngestMode := Append | Create | CreateAppend | Replace.

#[export] Instance IngestMode_eq_dec : EqDecision IngestMode.
Proof. solve_decision. Defined.

(** [adbc_core]'s canonical spellings of the ingest modes. *)
Definition MODE_APPEND : rstr := str "adbc.ingest.mode.append".
Definition MODE_CREATE : rstr := str "adbc.ingest.mode.create".
Definition MODE_CREATE_APPEND : rstr := str "adbc.ingest.mode.create_append".
Definition MODE_REPLACE : rstr := str "adbc.ingest.mode.replace".

Definition ingest_mode_string (m : IngestMode) : rstr :=
  match m with
  | Append => MODE_APPEND | Create => MODE_CREATE
  | CreateAppend => MODE_CREATE_APPEND | Replace => MODE_REPLACE
  end.

(** [OptionStatement], with its keys. *)
Inductive OptionStatement :=
  | OsTargetTable
  | OsTargetDbSchema
  | OsTargetCatalog
  | OsTemporary
  | OsIncremental
  | OsIngestMode
  | OsProgress
  | OsMaxProgress
  | OsOther (k : rstr).

Definition os_key (k : OptionStatement) : rstr :=
  match k with
  | OsTargetTable => str "adbc.ingest.target_table"
  | OsTargetDbSchema => str "adbc.ingest.target_db_schema"
  | OsTargetCatalog => str "adbc.ingest.target_catalog"
  | OsTemporary => str "adbc.ingest.temporary"
  | OsIncremental => str "adbc.statement.exec.incremental"
  | OsIngestMode => str "adbc.ingest.mode"
  | OsProgress => str "adbc.statement.exec.progress"
  | OsMaxProgress => str "adbc.statement.exec.max_progress"
  | OsOther k => k
  end.

(** [string_option] of [src/statement.rs]: the label is the option's own key. *)
Definition stmt_string_option (key : OptionStatement) (value : OptionValue) : Result rstr :=
  string_option value (option_label (os_key key)).

Definition check_target_catalog (catalog own : rstr) : Result rstr :=
  if decide (catalog = own) then Ok catalog
  else Err (unsupported [Lit "ingest target catalog "; Dbg catalog;
                         Lit ": this connection can only write to "; Dbg own;
                         Lit "; set adbc.ingest.target_catalog to that or leave it unset"]).

Definition ingest_mode_option (key : OptionStatement) (value : OptionValue) : Result IngestMode :=
  s ← stmt_string_option key value;
  if decide (s = MODE_APPEND \/ s = str "append") then Ok Append
  else if decide (s = MODE_CREATE \/ s = str "create") then Ok Create
  else if decide (s = MODE_CREATE_APPEND \/ s = str "create_append") then Ok CreateAppend
  else if decide (s = MODE_REPLACE \/ s = str "replace") then Ok Replace
  else Err (not_implemented [Lit "ingest mode "; Dbg s]).

Definition ingest_batch_write_option (value : OptionValue) : Result bool :=
  bool_option_unsettable value (option_label OPTION_INGEST_BATCH_WRITE).

Definition dml_partitioned_option (value : OptionValue) : Result bool :=
  bool_option_unsettable value (option_label OPTION_DML_PARTITIONED).

Definition check_unsupported_true (value : OptionValue) (what : rstr) (rejection : Message) : Result unit :=
  b ← bool_option value what;
  if b : bool then Err (unsupported rejection) else Ok tt.

Definition DEFAULT_ROWS_PER_BATCH : Z := 8192.

(** ** The statement *)

Section Statement.
Context `{B : Batches}.

Record Statement := mkStatement {
  st_database : rstr;
  st_config : SharedConfig;
  st_slot : positive;
  st_sql : option rstr;
  bound : list RecordBatch;
  ingest_schema : option Schema;
  target_table : option rstr;
  target_db_schema : option rstr;
  target_catalog : option rstr;
  ingest_mode : option IngestMode;
  ingest_batch_write : bool;
  dml_partitioned : bool;
  bind_by_name : bool;
  rows_per_batch : Z;
  data_boost : bool;
}.

(** [SpannerStatement::new], with the inherited configuration and a fresh slot. *)
Definition Statement_new (database : rstr) (config : SharedConfig) (slot : positive) : Statement :=
  mkStatement database config slot None [] None None None None None false false false
    DEFAULT_ROWS_PER_BATCH false.

Section Setters.
Context (self : Statement).

Definition st_with_config c := mkStatement (st_database self) c (st_slot self) (st_sql self)
  (bound self) (ingest_schema self) (target_table self) (target_db_schema self) (target_catalog self)
  (ingest_mode self) (ingest_batch_write self) (dml_partitioned self) (bind_by_name self)
  (rows_per_batch self) (data_boost self).
(** The query and the ingest target, which exclude each other. *)
Definition with_destination sql table := mkStatement (st_database self) (st_config self) (st_slot self)
  sql (bound self) (ingest_schema self) table (target_db_schema self) (target_catalog self)
  (ingest_mode self) (ingest_batch_write self) (dml_partitioned self) (bind_by_name self)
  (rows_per_batch self) (data_boost self).
Definition with_bound b s := mkStatement (st_database self) (st_config self) (st_slot self)
  (st_sql self) b s (target_table self) (target_db_schema self) (target_catalog self)
  (ingest_mode self) (ingest_batch_write self) (dml_partitioned self) (bind_by_name self)
  (rows_per_batch self) (data_boost self).
Definition with_ingest db_schema cat mode batch_write := mkStatement (st_database self) (st_config self)
  (st_slot self) (st_sql self) (bound self) (ingest_schema self) (target_table self) db_schema cat
  mode batch_write (dml_partitioned self) (bind_by_name self) (rows_per_batch self) (data_boost self).
Definition with_flags partitioned by_name rows boost := mkStatement (st_database self) (st_config self)
  (st_slot self) (st_sql self) (bound self) (ingest_schema self) (target_table self)
  (target_db_schema self) (target_catalog self) (ingest_mode self) (ingest_batch_write self)
  partitioned by_name rows boost.

Definition st_catalog : rstr := database_catalog (st_database self).

(** [SpannerStatement::set_option]. *)
Definition st_set_option (key : OptionStatement) (value : OptionValue) : Statement * Result unit :=
  let keep (r : Result unit) := (self, r) in
  match key with
  | OsTargetTable =>
      assign self (stmt_string_option key value) (fun t => with_destination None (Some t))
  | OsTargetDbSchema =>
      assign self (stmt_string_option key value)
        (fun s => with_ingest (Some s) (target_catalog self) (ingest_mode self) (ingest_batch_write self))
  | OsTargetCatalog =>
      assign self (s ← stmt_string_option key value; check_target_catalog s st_catalog)
        (fun c => with_ingest (target_db_schema self) (Some c) (ingest_mode self) (ingest_batch_write self))
  | OsTemporary =>
      keep (check_unsupported_true value (str "option adbc.ingest.temporary")
              [Lit "setting adbc.ingest.temporary to true: Spanner has no temporary tables; leave it unset or false"])
  | OsIncremental =>
      keep (check_unsupported_true value (str "option adbc.statement.exec.incremental")
              [Lit "setting adbc.statement.exec.incremental to true: incremental execute_partitions is not implemented; leave it unset or false"])
  | OsIngestMode =>
      assign self (ingest_mode_option key value)
        (fun m => with_ingest (target_db_schema self) (target_catalog self) (Some m) (ingest_batch_write self))
  | OsOther k =>
      if decide (k = OPTION_INGEST_BATCH_WRITE) then
        assign self (ingest_batch_write_option value)
          (fun b => with_ingest (target_db_schema self) (target_catalog self) (ingest_mode self) b)
      else if decide (k = OPTION_DML_PARTITIONED) then
        assign self (dml_partitioned_option value)
          (fun b => with_flags b (bind_by_name self) (rows_per_batch self) (data_boost self))
      else if decide (k = OPTION_BIND_BY_NAME) then
        assign self (bool_option value (str "option adbc.statement.bind_by_name"))
          (fun b => with_flags (dml_partitioned self) b (rows_per_batch self) (data_boost self))
      else if decide (k = OPTION_ROWS_PER_BATCH) then
        assign self (positive_usize value (str "option spanner.rows_per_batch"))
          (fun n => with_flags (dml_partitioned self) (bind_by_name self) n (data_boost self))
      else if decide (k = OPTION_DATA_BOOST) then
        assign self (bool_option value (str "option spanner.data_boost"))
          (fun b => with_flags (dml_partitioned self) (bind_by_name self) (rows_per_batch self) b)
      else
        let '(c, r) := set_shared_option (st_config self) parse_from_rfc3339 k value in
        (st_with_config c, handled ← r; match handled with
                                        | Some _ => Ok tt
                                        | None => Err (unknown_option "statement" k)
                                        end)
  | OsProgress | OsMaxProgress => keep (Err (unknown_option "statement" (os_key key)))
  end.

(** [SpannerStatement::get_option_string]. *)
Definition st_get_option_string (h : Cells) (key : OptionStatement) : Result rstr :=
  let ret (o : option rstr) := ok_or o (option_not_set (os_key key)) in
  match key with
  | OsTargetTable => ret (target_table self)
  | OsTargetDbSchema => ret (target_db_schema self)
  | OsTargetCatalog => ret (target_catalog self)
  | OsTemporary | OsIncremental => ret (Some (show_bool false))
  | OsIngestMode => ret (Some (ingest_mode_string (default Create (ingest_mode self))))
  | OsOther k =>
      if decide (k = OPTION_INGEST_BATCH_WRITE) then ret (Some (show_bool (ingest_batch_write self)))
      else if decide (k = OPTION_DML_PARTITIONED) then ret (Some (show_bool (dml_partitioned self)))
      else if decide (k = OPTION_BIND_BY_NAME) then ret (Some (show_bool (bind_by_name self)))
      else if decide (k = OPTION_ROWS_PER_BATCH) then ret (Some (show_Z (rows_per_batch self)))
      else if decide (k = OPTION_DATA_BOOST) then ret (Some (show_bool (data_boost self)))
      else shared_option_string (st_config self) h k
  | OsProgress | OsMaxProgress => ret None
  end.

(** [Statement::set_sql_query]: a query replaces any ingest target. *)
Definition set_sql_query (query : rstr) : Statement := with_destination (Some query) None.

(** [Statement::bind] and [bind_stream] (the stream's declared schema and what it
    yields). *)
Definition bind (batch : RecordBatch) : Statement := with_bound [batch] None.

Definition bind_stream (stream_schema : Schema) (items : list (RecordBatch + rstr)) :
    Statement * Result unit :=
  let collected := try_map (fun i => match i with
    | inl b => Ok b
    | inr e => Err (err [Lit "failed to read bound stream: "; Disp e] InvalidData)
    end) items in
  assign self collected (fun batches =>
    with_bound batches (match batches with [] => Some stream_schema | _ => None end)).

Definition clear_bound : Statement := with_bound [] None.

Definition bound_ingest_schema : option Schema :=
  match bound self with b :: _ => Some (schema b) | [] => ingest_schema self end.

(** [SpannerStatement::sql]. *)
Definition sql : Result rstr :=
  ok_or (st_sql self) (invalid_state [Lit "no SQL query set on statement; call set_sql_query first"]).

Definition prepare : Result unit :=
  match st_sql self, target_table self with
  | None, None => Err (invalid_state
      [Lit "cannot prepare: no SQL query set on statement; call set_sql_query first"])
  | _, _ => Ok tt
  end.

Definition check_bound_has_destination : Result unit :=
  if decide (st_sql self = None /\ target_table self = None /\
             (bound self <> [] \/ is_Some (ingest_schema self))) then
    Err (invalid_state
      [Lit "data has been bound but no SQL query or bulk-ingest target is set; call set_sql_query or set the adbc.ingest.target_table option before executing"])
  else Ok tt.

Definition bound_rows : nat := sum_list_with num_rows (bound self).

Definition check_single_bound_row : Result unit :=
  if decide (1 < bound_rows) then
    Err (invalid_argument
      [Lit "execute_partitions supports at most one bound parameter row, but "; DispZ (Z.of_nat bound_rows);
       Lit " rows are bound: partitioned execution has no per-row fan-out; bind a single row per execute_partitions call"])
  else Ok tt.

(** [sql_builder] / [read_sql_builder]. *)
Definition sql_builder (q : rstr) : StatementBuilder :=
  let c := st_config self in
  retry_apply_to_statement (retry c)
    (query_options_apply_to_statement (query_options c)
       (request_apply_to_statement (request c) (builder q))).

Definition read_sql_builder (q : rstr) : StatementBuilder :=
  directed_read_apply_to_statement (directed_read (st_config self)) (sql_builder q).

(** The rows of one bound batch, each with its parameters. *)
Fixpoint bind_rows (q : rstr) (names : list rstr) (batch : RecordBatch) (rows : list nat) :
    Result (list SpannerSql) :=
  match rows with
  | [] => Ok []
  | row :: rows => s ← bind_params (sql_builder q) names batch row;
                   rest ← bind_rows q names batch rows; Ok (s :: rest)
  end.

Definition build_bound_statements (q : rstr) : Result (list SpannerSql) :=
  groups ← try_map (fun batch =>
    if decide (num_rows batch = 0) then Ok []
    else names ← resolve_parameter_names q batch (bind_by_name self);
         bind_rows q names batch (seq 0 (num_rows batch))) (bound self);
  Ok (concat groups).

End Setters.

(** ** DDL *)

Context (env : Env).

Definition run_ddl (self : Statement) (statements : list rstr) : M unit :=
  ro ← read_cells (fun h => is_read_only h (st_config self));
  if ro : bool then throw (invalid_state [Lit "cannot execute DDL: the connection is read-only"])
  else perform env (st_slot self) (update_timeout (timeouts (st_config self)))
         OPTION_RPC_TIMEOUT_UPDATE (UpdateDatabaseDdl (st_database self) statements).

End Statement.

(** Batches of one string column, for concrete examples: a row that is empty does
    not convert. *)
Definition example_batches : Batches (SC := example_client) := {|
  RecordBatch := list rstr;
  Schema := unit;
  num_rows := length;
  num_columns _ := 1%Z;
  get_array_memory_size b := Z.of_nat (length (concat b));
  schema _ := tt;
  resolve_parameter_names q _ _ := Ok (named_parameters q);
  bind_params sb names b i :=
    match names, b !! i with
    | [n], Some s => Ok (add_param (SC := example_client) sb n (s : Param (SpannerClient := example_client)))
    | _, _ => Err (invalid_argument [Lit "parameter count mismatch"])
    end;
  insert_mutation target b i :=
    match b !! i with
    | Some (c :: s) => Ok ((c :: s) : Mutation (SpannerClient := example_client))
    | _ => Err (invalid_argument [Lit "empty value"])
    end;
  create_table_sql table _ _ _ := Ok (str "CREATE TABLE " ++ table);
  mutation_table db table := match db with Some d => d ++ str "." ++ table | None => table end |}.

Definition example_statement (sql table : option rstr) (rows : list rstr) : Statement (B := example_batches) :=
  let s := Statement_new (B := example_batches) (str "projects/p/instances/i/databases/d")
             (SharedConfig_default (mkCells ∅ ∅)).2 2 in
  with_bound (with_destination s sql table) [rows : RecordBatch (Batches := example_batches)] None.
