(* ===== verification/Ingest.v ===== *)
(** * [src/statement/ingest.rs]: bulk ingest

    The create/replace DDL, the manual-mode buffering, and the autocommit write
    paths: chunks sized by a budget, each committed in its own write-only
    transaction and bisected when Spanner rejects it for too many mutations, or
    sent through BatchWrite. *)

From S2P Require Import Prelude RustStr RustNum ErrorModel Options DirectedRead Staleness Config.
From S2P Require Import Sql Runtime Stream Txn Client Connection TxnSystem StatementState.

(** ** Budgets *)

Definition INGEST_CHUNK_MUTATION_LIMIT : Z := 20000.
Definition INGEST_CHUNK_BYTE_BUDGET : Z := 4 * 1024 * 1024.

Record IngestChunkBudget := mkBudget { b_rows : Z; b_mutations : Z; b_bytes : Z }.

Definition budget_default : IngestChunkBudget := mkBudget 0 0 0.

Definition saturating_add_u64 (a b : Z) : Z := Z.min u64_max (a + b).

Definition fits (self : IngestChunkBudget) (columns row_bytes : Z) : bool :=
  bool_decide (b_rows self = 0%Z) ||
  (bool_decide (saturating_add_u64 (b_mutations self) columns <= INGEST_CHUNK_MUTATION_LIMIT)%Z &&
   bool_decide (saturating_add_u64 (b_bytes self) row_bytes <= INGEST_CHUNK_BYTE_BUDGET)%Z).

Definition budget_add (self : IngestChunkBudget) (columns row_bytes : Z) : IngestChunkBudget :=
  mkBudget (b_rows self + 1) (saturating_add_u64 (b_mutations self) columns)
    (saturating_add_u64 (b_bytes self) row_bytes).

(** ** Errors *)

Definition outcome_unknown (e : Error) : bool :=
  bool_decide (status e = Timeout \/ status e = Cancelled).

Definition note_rows_already_committed (error : Error) (committed : Z) : Error :=
  if decide (committed = 0%Z /\ outcome_unknown error = false) then error
  else
    let note1 := if decide (0 < committed)%Z then
      [DispZ committed; Lit " row(s) from this bulk ingest were already committed and remain in the table"]
      else [] in
    let note2 := if outcome_unknown error then
      (match note1 with [] => [] | _ => [Lit "; "] end) ++
      [Lit "this chunk's own commit outcome is unknown — it may still have landed server-side, so retrying could duplicate rows"]
      else [] in
    annotate error (fun m => m ++ [Lit " ("] ++ note1 ++ note2 ++ [Lit ")"]).

(** The text of a message (without the escapes of [{:?}]). *)
Definition frag_text (f : frag) : rstr :=
  match f with
  | Lit s => str s
  | Quo s => cDQ :: str s ++ [cDQ]
  | Disp s => s
  | Dbg s => cDQ :: s ++ [cDQ]
  | DbgL l => str "[" ++ join (str ", ") (map (fun s => cDQ :: s ++ [cDQ]) l) ++ str "]"
  | DispZ n => show_Z n
  end.

Definition message_text (m : Message) : rstr := concat (map frag_text m).

(** [str::contains]. *)
Fixpoint contains (needle s : rstr) : bool :=
  starts_with needle s || match s with [] => false | _ :: s' => contains needle s' end.

Definition is_mutation_limit_exceeded (error : Error) : bool :=
  bool_decide (status error = InvalidArguments) &&
  contains (str "too many mutations") (to_ascii_lowercase (message_text (message error))).

Section Ingest.
Context `{B : Batches} (env : Env).
Context (self : Statement).

Abbreviation config := (st_config self) (only parsing).
Abbreviation slot := (st_slot self) (only parsing).

(** ** The table *)

Definition build_ingest_table_ddl (table : rstr) (mode : option IngestMode) : Result (option (list rstr)) :=
  let build (if_not_exists drop_first : bool) : Result (option (list rstr)) :=
    s ← ok_or (bound_ingest_schema self)
          (invalid_state [Lit "cannot create the ingest table: no data is bound"]);
    drop ← (if drop_first then t ← qualified_table (target_db_schema self) table;
                               Ok [str "DROP TABLE IF EXISTS " ++ t]
            else Ok []);
    create ← create_table_sql table (target_db_schema self) s if_not_exists;
    Ok (Some (drop ++ [create])) in
  match mode with
  | Some Append => Ok None
  | None | Some Create => build false false
  | Some CreateAppend => build true false
  | Some Replace => build false true
  end.

Definition ingest_table_exists (table : rstr) : M bool :=
  table_exists env slot (query_timeout (timeouts config)) (default [] (target_db_schema self)) table.

Definition remap_ingest_append_error (table : rstr) (error : Error) : M Error :=
  if decide (ingest_mode self = Some Append \/ ingest_mode self = Some CreateAppend) then
    if decide (status error = InvalidState) then mret error
    else if decide (status error = AlreadyExists) then
      mret (annotate error (fun m =>
        [Lit "bulk ingest append into table "; Dbg table; Lit " failed: "] ++ m))
    else
      exists_ ← catch (ingest_table_exists table);
      mret (match exists_ with
        | Ok true => err ([Lit "bulk ingest append into table "; Dbg table;
            Lit " failed: the bound data is incompatible with the existing table's schema ("]
            ++ message error ++ [Lit ")"]) AlreadyExists
        | Ok false => err ([Lit "bulk ingest append target table "; Dbg table; Lit " not found ("]
            ++ message error ++ [Lit ")"]) NotFound
        | Err _ => error
        end)
  else mret error.

Definition remap_ingest_create_error (table : rstr) (error : Error) : M Error :=
  if decide (ingest_mode self = None \/ ingest_mode self = Some Create) then
    exists_ ← catch (ingest_table_exists table);
    mret (match exists_ with
      | Ok true => err ([Lit "bulk ingest create target table "; Dbg table; Lit " already exists ("]
                        ++ message error ++ [Lit ")"]) AlreadyExists
      | _ => error
      end)
  else mret error.

Definition check_empty_append_target (table : rstr) (ingested : Z) : M unit :=
  if decide (ingested = 0%Z /\ ingest_mode self = Some Append) then
    exists_ ← catch (ingest_table_exists table);
    match exists_ with
    | Ok false => throw (err [Lit "bulk ingest append target table "; Dbg table; Lit " not found"] NotFound)
    | _ => mret tt
    end
  else mret tt.

(** ** Rows *)

(** The loop of [build_range_mutations] from the batch that starts at [base]. *)
Fixpoint range_loop (target : rstr) (start stop base : nat) (batches : list RecordBatch) :
    Result (list Mutation) :=
  match batches with
  | [] => Ok []
  | batch :: rest =>
      let rows := num_rows batch in
      let lo := (start `max` base) - base in
      let hi := (stop `min` (base + rows)) - base in
      ms ← try_map (insert_mutation target batch) (seq lo (hi - lo));
      let base := base + rows in
      if decide (stop <= base) then Ok ms
      else ms' ← range_loop target start stop base rest; Ok (ms ++ ms')
  end.

Definition build_range_mutations (target : rstr) (start stop : nat) : Result (list Mutation) :=
  range_loop target start stop 0 (bound self).

Definition map_error {A} (r : Result A) (f : Error -> Error) : Result A :=
  match r with Ok a => Ok a | Err e => Err (f e) end.

(** [fuel] bounds the depth of the bisection; running out is [None]. *)
Fixpoint write_mutation_range (fuel : nat) (target : rstr) (start stop : nat) (prior_total : Z) : M Z :=
  match fuel with
  | O => fun _ => None
  | S f =>
      mutations ← lift (map_error (build_range_mutations target start stop)
                          (fun e => note_rows_already_committed e prior_total));
      let count := Z.of_nat (length mutations) in
      r ← catch (write_mutations_txn env slot config mutations);
      match r with
      | Ok _ => mret count
      | Err error =>
          if decide (1 < stop - start /\ is_mutation_limit_exceeded error = true) then
            let mid := start + (stop - start) / 2 in
            left ← write_mutation_range f target start mid prior_total;
            right ← write_mutation_range f target mid stop (prior_total + left)%Z;
            mret (left + right)%Z
          else throw (note_rows_already_committed error prior_total)
      end
  end.

(** The loop over the streamed responses: rows applied so far and the first
    group error. *)
Fixpoint batch_write_loop (responses : list (BatchWriteResponse + SpannerError)) (prior_total applied : Z)
    (first_error : option Error) : Result Z :=
  match responses with
  | [] => match first_error with
          | Some error => Err (note_rows_already_committed error (prior_total + applied)%Z)
          | None => Ok applied
          end
  | inr e :: _ => Err (note_rows_already_committed (from_spanner e) (prior_total + applied)%Z)
  | inl resp :: rest =>
      match bw_status resp with
      | Some (code, msg, dets) =>
          if decide (code = 0%Z) then
            batch_write_loop rest prior_total (applied + bw_indexes resp)%Z first_error
          else batch_write_loop rest prior_total applied
                 (match first_error with
                  | None => Some (from_status_parts code msg dets)
                  | Some e => Some e
                  end)
      | None => batch_write_loop rest prior_total (applied + bw_indexes resp)%Z first_error
      end
  end.

(** The future annotates its own failures; an expired deadline or a cancel drops
    it. *)
Definition batch_write_chunk (mutations : list Mutation) (prior_total : Z) : M Z :=
  if decide (length mutations = 0) then mret 0%Z
  else
    perform_then env slot (update_timeout (timeouts config)) OPTION_RPC_TIMEOUT_UPDATE
      (BatchWrite (apply_to_batch_write (request config)) (map (fun m => [m]) mutations))
      (fun o => match o with
       | inl responses => batch_write_loop responses prior_total 0 None
       | inr e => Err (note_rows_already_committed (from_spanner e) prior_total)
       end).

Definition commit_ingest_range (target : rstr) (start stop : nat) (prior_total : Z) : M Z :=
  if decide (stop <= start) then mret 0%Z
  else if ingest_batch_write self then
    mutations ← lift (map_error (build_range_mutations target start stop)
                        (fun e => note_rows_already_committed e prior_total));
    batch_write_chunk mutations prior_total
  else write_mutation_range (S (stop - start)) target start stop prior_total.

(** The columns and the estimated bytes of every row, in order. *)
Definition row_costs : list (Z * Z) :=
  concat (map (fun batch =>
    replicate (num_rows batch)
      (num_columns batch,
       (get_array_memory_size batch / Z.max 1 (Z.of_nat (num_rows batch)))%Z)) (bound self)).

(** The walk over the flattened rows. *)
Fixpoint chunk_loop (target : rstr) (costs : list (Z * Z)) (total : Z) (budget : IngestChunkBudget)
    (chunk_start row_index : nat) : M (Z * nat * nat) :=
  match costs with
  | [] => mret (total, chunk_start, row_index)
  | (columns, row_bytes) :: rest =>
      if fits budget columns row_bytes then
        chunk_loop target rest total (budget_add budget columns row_bytes) chunk_start (S row_index)
      else
        n ← commit_ingest_range target chunk_start row_index total;
        chunk_loop target rest (total + n)%Z (budget_add budget_default columns row_bytes)
          row_index (S row_index)
  end.

Definition ingest_autocommit (table target : rstr) : M (option Z) :=
  '(total, chunk_start, row_index) ← chunk_loop target row_costs 0 budget_default 0 0;
  n ← commit_ingest_range target chunk_start row_index total;
  _ ← check_empty_append_target table (total + n)%Z;
  mret (Some (total + n)%Z).

(** The second critical section of the manual path: buffer everything, or fall
    through if the mode flipped meanwhile. *)
Definition ingest_buffer_section (mutations : list Mutation)
    (st : TxnState SpannerSql Mutation RoTxn) :
    option (TxnState SpannerSql Mutation RoTxn * Result bool) :=
  if autocommit st then Some (st, Ok false)
  else let '(st', r) := buffer_mutations st mutations in Some (st', (fun _ => true) <$> r).

Definition run_ingest_mutations (table : rstr) : M (option Z) :=
  let target := mutation_table (target_db_schema self) table in
  manual ← locked (fun st =>
    Some (st, if autocommit st then Ok false else (fun _ => true) <$> check_kind_allowed st KDml));
  if manual : bool then
    let rows := bound_rows self in
    mutations ← lift (build_range_mutations target 0 rows);
    _ ← check_empty_append_target table (Z.of_nat rows);
    buffered ← locked (ingest_buffer_section mutations);
    if buffered : bool then mret None else ingest_autocommit table target
  else ingest_autocommit table target.

Definition run_bound_ingest (table : rstr) : M (option Z) :=
  _ ← locked (fun st => Some (st, if autocommit st then Ok tt else check_kind_allowed st KDml));
  ingest_ddl ← lift (build_ingest_table_ddl table (ingest_mode self));
  _ ← match ingest_ddl with
      | None => mret tt
      | Some ddl =>
          r ← catch (run_ddl env self ddl);
          match r with
          | Ok _ => mret tt
          | Err e => e' ← remap_ingest_create_error table e; throw e'
          end
      end;
  r ← catch (run_ingest_mutations table);
  match r with
  | Ok n => mret n
  | Err e => e' ← remap_ingest_append_error table e; throw e'
  end.

End Ingest.

(** [run_ingest]: the bound data is consumed once the ingest was attempted. *)
Definition run_ingest `{B : Batches} (env : Env) (self : Statement) (table : rstr) (w : World) :
    option (World * Statement * Result (option Z)) :=
  if is_read_only (w_cells w) (st_config self) then
    Some (w, self, Err (invalid_state [Lit "cannot ingest: the connection is read-only"]))
  else if decide (bound self = [] /\ ingest_schema self = None) then
    Some (w, self, Err (invalid_state [Lit "cannot ingest: no data has been bound"]))
  else '(w', r) ← run_bound_ingest env self table w; Some (w', clear_bound self, r).
