(* ===== verification/Statement.v ===== *)
(** * [src/statement.rs]: execution

    Routing of a statement's SQL to DDL, DML (batched, buffered, partitioned, or
    with [THEN RETURN]), queries and bulk ingest, and the readers queries return.
    What [src/conversion.rs] makes of rows is the interface [Formats].  A future
    bounded by one deadline that makes several calls is a sequence of calls, each
    of which may expire. *)

From S2P Require Import Prelude RustStr RustNum ErrorModel Options DirectedRead Staleness Config.
From S2P Require Import Sql Runtime Stream Txn Client Wp Connection TxnSystem StatementState Ingest.

(** What the statement needs of [src/conversion.rs] and of the partition
    descriptors of [src/connection.rs]. *)
Class Formats `{B : Batches} := {
  Field : Type;
  Schema_new : list Field -> Schema;
  null_field : rstr -> Field;
  arrow_field : rstr -> SpType -> bool -> TimestampPrecision -> Result Field;
  build_schema : option Metadata -> option Row -> TimestampPrecision -> Result Schema;
  build_batch : Schema -> list Row -> Result RecordBatch;
  encode_partition : Partition -> Result rstr;
}.

(** ** Guards *)

Definition check_query_only (sql : rstr) (entry_point dml_rationale : String.string) : Result unit :=
  if is_ddl sql then
    Err (invalid_argument [Lit entry_point; Lit " is only valid for queries"])
  else if is_dml sql then
    Err (invalid_argument [Lit entry_point;
      Lit " only supports queries: DML (INSERT/UPDATE/DELETE) cannot be "; Lit dml_rationale;
      Lit "; run it via execute or execute_update instead"])
  else Ok tt.

Definition check_all_dml_batch (statements : list rstr) : Result unit :=
  if decide (1 < length statements) then
    match List.find (fun s => negb (is_dml s)) statements with
    | Some other => Err (invalid_argument
        [Lit "a `;`-separated statement batch must be all-DML (INSERT/UPDATE/DELETE), but it contains ";
         Dbg other; Lit ": run queries and DDL as individual statements"])
    | None => Ok tt
    end
  else Ok tt.

Definition check_partitioned_dml (sql : rstr) (autocommit : bool) (bound_rows : nat) : Result unit :=
  if negb autocommit then
    Err (invalid_state [Lit "option spanner.dml.partitioned is set, but the connection is in a manual transaction: partitioned DML is its own transaction type and cannot join one. Commit (or re-enable adbc.connection.autocommit) first, or unset the option"])
  else if is_dml_returning sql then
    Err (invalid_argument [Lit "option spanner.dml.partitioned is set, but the statement has a THEN RETURN clause: partitioned DML returns no rows. Unset the option to run it in a read/write transaction"])
  else
    let statements := length (split_statements sql) in
    if decide (1 < statements) then
      Err (invalid_argument [Lit "option spanner.dml.partitioned is set, but the SQL is a `;`-separated batch of ";
        DispZ (Z.of_nat statements);
        Lit " statements: partitioned DML runs exactly one statement. Execute each statement separately, or unset the option"])
    else if decide (1 < bound_rows) then
      Err (invalid_argument [Lit "option spanner.dml.partitioned is set, but ";
        DispZ (Z.of_nat bound_rows);
        Lit " parameter rows are bound: partitioned DML runs exactly one statement. Bind a single row, or unset the option"])
    else Ok tt.

Definition set_substrait_plan : Result unit :=
  Err (unsupported [Lit "setting a Substrait plan: Spanner executes GoogleSQL or PostgreSQL text, not Substrait plans; use set_sql_query instead"]).

Section Execution.
Context `{F : Formats} (env : Env).

Abbreviation empty_schema := (Schema_new []) (only parsing).

(** ** Readers *)

(** The per-row statements of a bound query, built on demand. *)
Record LazyBoundStatements := mkLazy {
  base_builder : StatementBuilder;
  groups : list (list rstr * RecordBatch);
  group : nat;
  row : nat;
}.

(** [fuel] bounds the groups the cursor can skip. *)
Fixpoint next_statement_loop (fuel : nat) (self : LazyBoundStatements) :
    LazyBoundStatements * option (Result SpannerSql) :=
  match groups self !! group self with
  | None => (self, None)
  | Some (names, batch) =>
      if decide (num_rows batch <= row self) then
        match fuel with
        | O => (self, None)
        | S f => next_statement_loop f (mkLazy (base_builder self) (groups self) (S (group self)) 0)
        end
      else (mkLazy (base_builder self) (groups self) (group self) (S (row self)),
            Some (bind_params (base_builder self) names batch (row self)))
  end.

Definition next_statement (self : LazyBoundStatements) : LazyBoundStatements * option (Result SpannerSql) :=
  next_statement_loop (S (length (groups self))) self.

(** Where a streaming reader's chunks come from. *)
Inductive ChunkSource :=
  | ResultSetChunks (items : list (Row + SpannerError))
  | BoundQueryChunks (t : RoTxn) (statements : LazyBoundStatements)
      (items : option (list (Row + SpannerError))).

Inductive Reader :=
  | RecordBatchIterator (batches : list RecordBatch) (s : Schema)
  | SpannerBatchReader (s : Schema) (first : option (list Row)) (source : ChunkSource)
      (batch_size : Z) (fetch_timeout : option Z).

Definition empty_reader : Reader := RecordBatchIterator [] empty_schema.

(** [stream_query], from the executed query's outcome. *)
Definition stream_query (rs : ResultSet) (batch_size : Z) (precision : TimestampPrecision)
    (fetch_timeout : option Z) : Result Reader :=
  let '(items, r) := pull_chunk (rs_items rs) batch_size in
  first ← r;
  s ← build_schema (rs_metadata rs) (head first) precision;
  Ok (SpannerBatchReader s (Some first) (ResultSetChunks items) batch_size fetch_timeout).

(** A call whose outcome [f] turns into the future's result. *)
Definition and_then {A B} (f : A -> Result B) (o : A + SpannerError) : Result B :=
  a ← outcome o; f a.

(** [stream_bound_query]. *)
Definition stream_bound_query (slot : positive) (query_timeout : option Z) (transaction : RoTxn)
    (statements : LazyBoundStatements) (batch_size : Z) (precision : TimestampPrecision)
    (fetch_timeout : option Z) : M Reader :=
  match next_statement statements with
  | (statements, None) =>
      mret (SpannerBatchReader empty_schema None (BoundQueryChunks transaction statements None)
              batch_size fetch_timeout)
  | (statements, Some (Err e)) => throw e
  | (statements, Some (Ok st)) =>
      perform_then env slot query_timeout OPTION_RPC_TIMEOUT_QUERY (ExecuteQuery (inr transaction) st)
        (and_then (fun rs =>
           let '(items, r) := pull_chunk (rs_items rs) batch_size in
           rows ← r;
           s ← build_schema (rs_metadata rs) (head rows) precision;
           Ok (SpannerBatchReader s (Some rows) (BoundQueryChunks transaction statements (Some items))
                 batch_size fetch_timeout)))
  end.

(** [ChunkSource::next_chunk]: the pull waits for the network under the fetch
    timeout.  A bound query goes on to its next statements when a result set has
    drained ([next_bound_chunk]); [fuel] bounds how many. *)
Fixpoint bound_chunk (fuel : nat) (slot : positive) (batch_size : Z) (fetch_timeout : option Z)
    (t : RoTxn) (statements : LazyBoundStatements) (items : option (list (Row + SpannerError))) :
    M (ChunkSource * list Row) :=
  match fuel with
  | O => fun _ => None
  | S f =>
      let next_result_set : M (ChunkSource * list Row) :=
        match next_statement statements with
        | (statements, None) => mret (BoundQueryChunks t statements None, [])
        | (_, Some (Err e)) => throw e
        | (statements, Some (Ok st)) =>
            rs ← perform env slot fetch_timeout OPTION_RPC_TIMEOUT_FETCH (ExecuteQuery (inr t) st);
            bound_chunk f slot batch_size fetch_timeout t statements (Some (rs_items rs))
        end in
      match items with
      | None => next_result_set
      | Some items =>
          '(items, rows) ← perform_then env slot fetch_timeout OPTION_RPC_TIMEOUT_FETCH NextChunk
            (and_then (fun _ => let '(items, r) := pull_chunk items batch_size in
                                rows ← r; Ok (items, rows)));
          match rows with
          | [] => next_result_set
          | _ => mret (BoundQueryChunks t statements (Some items), rows)
          end
      end
  end.

(** The statements a lazy source has left. *)
Definition statements_left (l : LazyBoundStatements) : nat :=
  match groups l !! group l with
  | Some (_, batch) => (num_rows batch - row l) +
      sum_list_with (fun g => num_rows g.2) (drop (S (group l)) (groups l))
  | None => 0
  end.

Definition next_chunk (slot : positive) (batch_size : Z) (fetch_timeout : option Z) (source : ChunkSource) :
    M (ChunkSource * list Row) :=
  match source with
  | ResultSetChunks items =>
      '(items, rows) ← perform_then env slot fetch_timeout OPTION_RPC_TIMEOUT_FETCH NextChunk
        (and_then (fun _ => let '(items, r) := pull_chunk items batch_size in
                            rows ← r; Ok (items, rows)));
      mret (ResultSetChunks items, rows)
  | BoundQueryChunks t statements items =>
      bound_chunk (S (S (statements_left statements))) slot batch_size fetch_timeout t statements items
  end.

(** [drain_discarding_rows]: iterate the reader to its end.  The reader's errors
    are the driver's own, boxed by [to_arrow_error] and unboxed here.  The chunks
    are pulled one after the other; what the prefetch task does ahead of the
    reader is the subject of [Stream].  [fuel] bounds the chunks. *)
Fixpoint drain_source (fuel : nat) (slot : positive) (s : Schema) (batch_size : Z)
    (fetch_timeout : option Z) (source : ChunkSource) : M unit :=
  match fuel with
  | O => fun _ => None
  | S f =>
      '(source, rows) ← next_chunk slot batch_size fetch_timeout source;
      match rows with
      | [] => mret tt
      | _ => _ ← lift (build_batch s rows);
             drain_source f slot s batch_size fetch_timeout source
      end
  end.

Definition drain_discarding_rows (fuel : nat) (slot : positive) (reader : Reader) : M unit :=
  match reader with
  | RecordBatchIterator _ _ => mret tt
  | SpannerBatchReader s first source batch_size fetch_timeout =>
      _ ← match first with
          | Some (row :: rows) => _ ← lift (build_batch s (row :: rows)); mret tt
          | _ => mret tt
          end;
      drain_source fuel slot s batch_size fetch_timeout source
  end.

Section Methods.
Context (self : Statement).

Abbreviation config := (st_config self) (only parsing).
Abbreviation slot := (st_slot self) (only parsing).

(** ** DML *)

Definition build_dml_statements (q : rstr) : Result (list SpannerSql) :=
  match bound self with
  | _ :: _ => build_bound_statements self q
  | [] =>
      let statements := split_statements q in
      _ ← check_all_dml_batch statements;
      Ok (map (sql_builder self) statements)
  end.

(** The critical section of [run_or_buffer]: [true] once buffered. *)
Definition buffer_section (statements : list SpannerSql)
    (st : TxnState SpannerSql Mutation RoTxn) :
    option (TxnState SpannerSql Mutation RoTxn * Result bool) :=
  if autocommit st then Some (st, Ok false)
  else let '(st', r) := buffer_dml st statements in Some (st', (fun _ => true) <$> r).

Definition run_or_buffer (statements : list SpannerSql) : M (option Z) :=
  buffered ← locked (buffer_section statements);
  if buffered : bool then mret None
  else count ← run_batch_txn env slot config statements [] true; mret (Some count).

Definition rows_to_batch (metadata : option Metadata) (rows : list Row) (precision : TimestampPrecision) :
    Result (Schema * RecordBatch) :=
  s ← build_schema metadata (head rows) precision;
  b ← build_batch s rows;
  Ok (s, b).

Definition execute_returning_dml (statements : list SpannerSql) : M (list RecordBatch * Schema * Z) :=
  let runner := build_runner (isolation config) (request config) (retry config) in
  '(results, mutation_count) ← perform env slot (update_timeout (timeouts config))
                                 OPTION_RPC_TIMEOUT_UPDATE (RunReturning runner statements);
  _ ← update_cells (fun h => record h (commit_stats config) mutation_count);
  converted ← lift (try_map (fun r => rows_to_batch (rt_metadata r) (rt_rows r) (timestamp_precision config))
                      results);
  let affected := sum_i64 (map (fun r =>
    default (Z.of_nat (length (rt_rows r))) (rt_update_count r)) results) in
  mret (map snd converted, default empty_schema (fst <$> head converted), affected).

Definition run_partitioned_dml (q : rstr) : M Z :=
  _ ← locked (fun st => Some (st, check_partitioned_dml q (autocommit st) (bound_rows self)));
  statements ← lift (build_dml_statements q);
  match last statements with
  | None => mret 0%Z
  | Some statement =>
      let exclude := bool_decide (exclude_txn_from_change_streams_string (request config) = str "true") in
      perform env slot (update_timeout (timeouts config)) OPTION_RPC_TIMEOUT_UPDATE
        (PartitionedDml exclude statement)
  end.

Inductive DmlOutcome :=
  | Plain (count : option Z)
  | Returning (batches : list RecordBatch) (s : Schema) (affected : Z).

Definition run_dml (q : rstr) : M DmlOutcome :=
  ro ← read_cells (fun h => is_read_only h config);
  if ro : bool then throw (invalid_state [Lit "cannot execute DML: the connection is read-only"])
  else if dml_partitioned self then
    n ← run_partitioned_dml q; mret (Plain (Some n))
  else if negb (is_dml_returning q) then
    statements ← lift (build_dml_statements q);
    count ← run_or_buffer statements;
    mret (Plain count)
  else
    _ ← locked (fun st => Some (st,
      if autocommit st then Ok tt
      else Err (invalid_state [Lit "DML with THEN RETURN cannot run in a manual transaction: buffered DML is applied via ExecuteBatchDml on commit, which does not support THEN RETURN. Re-enable autocommit to run it"])));
    statements ← lift (match bound self with
      | [] =>
          let parts := split_statements q in
          if decide (1 < length parts) then
            Err (not_implemented [Lit "THEN RETURN in a multi-statement (`;`-separated) DML batch"])
          else Ok (map (sql_builder self) parts)
      | _ => build_bound_statements self q
      end);
    '(batches, s, affected) ← execute_returning_dml statements;
    mret (Returning batches s affected).

(** ** Queries *)

Definition ensure_query_allowed : M unit :=
  locked (fun st => Some (st, check_kind_allowed st KRead)).

Definition query_bound : Result (option TimestampBound) :=
  timestamp_bound try_exact_staleness try_max_staleness try_read_timestamp try_min_read_timestamp
    (read_staleness config).

Definition multi_use_bound : Result (option TimestampBound) :=
  multi_use_timestamp_bound try_exact_staleness try_max_staleness try_read_timestamp
    try_min_read_timestamp (read_staleness config).

(** The first section of [manual_read_transaction]: the transaction to use when
    it is already decided. *)
Definition snapshot_section (st : TxnState SpannerSql Mutation RoTxn) : option (option RoTxn) :=
  if autocommit st then Some None
  else match read_txn st with Some t => Some (Some t) | None => None end.

(** The second: install the built transaction, or drop it if the mode flipped. *)
Definition install_section (built : RoTxn) (st : TxnState SpannerSql Mutation RoTxn) :
    option (TxnState SpannerSql Mutation RoTxn * Result (option RoTxn)) :=
  if autocommit st then Some (st, Ok None)
  else let '(st', r) := start_read_txn st built in Some (st', Some <$> r).

Definition manual_read_transaction : M (option RoTxn) :=
  decided ← locked (fun st => Some (st, Ok (snapshot_section st)));
  match decided with
  | Some t => mret t
  | None =>
      b ← lift multi_use_bound;
      built ← perform env slot None [] (BuildReadOnly b);
      locked (install_section built)
  end.

(** [result_set_to_batch]: drain, then convert. *)
Definition result_set_to_batch (rs : ResultSet) (precision : TimestampPrecision) :
    Result (Schema * RecordBatch) :=
  match first_error (rs_items rs) with
  | Some e => Err (from_spanner e)
  | None => rows_to_batch (rs_metadata rs) (rows_of (rs_items rs)) precision
  end.

(** The schema probe.  Binding happens inside the future, so its failure is
    reported unless the operation was already cancelled. *)
Definition plan_query_schema (q : rstr) : M Schema :=
  b ← lift query_bound;
  let plan_builder := set_query_mode_plan (read_sql_builder self q) in
  cancelled ← (fun w => Some (w, Ok (slot_cancelled (w_slots w) slot)));
  statement ← lift (if cancelled : bool then Ok plan_builder
    else match bound self with
         | batch :: _ =>
             if decide (0 < num_rows batch) then
               names ← resolve_parameter_names q batch (bind_by_name self);
               bind_params plan_builder names batch 0
             else Ok plan_builder
         | [] => Ok plan_builder
         end);
  perform_then env slot (query_timeout (timeouts config)) OPTION_RPC_TIMEOUT_QUERY
    (ExecuteQuery (inl b) statement)
    (and_then (fun rs => fst <$> result_set_to_batch rs (timestamp_precision config))).

(** One query, in the manual transaction's snapshot or in a single-use one. *)
Definition run_query (manual_txn : option RoTxn) (b : option TimestampBound) (statement : SpannerSql) :
    M Reader :=
  perform_then env slot (query_timeout (timeouts config)) OPTION_RPC_TIMEOUT_QUERY
    (ExecuteQuery (match manual_txn with Some t => inr t | None => inl b end) statement)
    (and_then (fun rs => stream_query rs (rows_per_batch self) (timestamp_precision config)
                           (fetch_timeout (timeouts config)))).

(** The non-empty bound batches with their resolved parameter names. *)
Definition bound_groups (q : rstr) : Result (list (list rstr * RecordBatch)) :=
  try_map (fun batch => names ← resolve_parameter_names q batch (bind_by_name self); Ok (names, batch))
    (filter (fun batch => num_rows batch <> 0) (bound self)).

Definition execute_bound_query (q : rstr) : M Reader :=
  gs ← lift (bound_groups q);
  let total_rows := sum_list_with (fun g => num_rows g.2) gs in
  let base := read_sql_builder self q in
  manual_txn ← manual_read_transaction;
  if decide (total_rows <= 1) then
    match gs with
    | [] => s ← plan_query_schema q; mret (RecordBatchIterator [] s)
    | (names, batch) :: _ =>
        statement ← lift (bind_params base names batch 0);
        b ← lift query_bound;
        run_query manual_txn b statement
    end
  else
    b ← lift multi_use_bound;
    let statements := mkLazy base gs 0 0 in
    transaction ← match manual_txn with
      | Some t => mret t
      | None => perform env slot (query_timeout (timeouts config)) OPTION_RPC_TIMEOUT_QUERY (BuildReadOnly b)
      end;
    stream_bound_query slot (query_timeout (timeouts config)) transaction statements
      (rows_per_batch self) (timestamp_precision config) (fetch_timeout (timeouts config)).

(** The part of [execute_query_reader] that runs with nothing bound. *)
Definition execute_plain_query (q : rstr) : M Reader :=
  manual_txn ← manual_read_transaction;
  b ← lift query_bound;
  run_query manual_txn b (read_sql_builder self q).

(** ** Partitions *)

Definition build_query_statement (q : rstr) (plan : bool) : Result SpannerSql :=
  let b := read_sql_builder self q in
  let b := if plan then set_query_mode_plan b else b in
  match List.find (fun batch => bool_decide (0 < num_rows batch)) (bound self) with
  | Some batch => names ← resolve_parameter_names q batch (bind_by_name self);
                  bind_params b names batch 0
  | None => Ok b
  end.

Record PartitionedResult := mkPartitioned {
  partitions : list rstr;
  pr_schema : Schema;
  rows_affected : Z;
}.

Definition run_partition_query (q : rstr) : M PartitionedResult :=
  _ ← lift (check_single_bound_row self);
  plan_stmt ← lift (build_query_statement q true);
  query_stmt ← lift (build_query_statement q false);
  b ← lift query_bound;
  let limit := query_timeout (timeouts config) in
  s ← perform_then env slot limit OPTION_RPC_TIMEOUT_QUERY (ExecuteQuery (inl b) plan_stmt)
        (and_then (fun rs => fst <$> result_set_to_batch rs (timestamp_precision config)));
  tokens ← perform_then env slot limit OPTION_RPC_TIMEOUT_QUERY (PartitionQuery b query_stmt)
        (and_then (try_map (fun p => encode_partition (if data_boost self then set_data_boost p else p))));
  mret (mkPartitioned tokens s (-1)).

(** ** Parameters *)

Definition undeclared_parameter_types (metadata : option Metadata) : list (rstr * SpType) :=
  default [] (undeclared_parameters <$> metadata).

Definition plan_dml_parameter_types (q : rstr) : M (list (rstr * SpType)) :=
  let runner := build_runner (isolation config) (request config) (retry config) in
  md ← perform env slot (query_timeout (timeouts config)) OPTION_RPC_TIMEOUT_QUERY
         (PlanDml runner (set_query_mode_plan (sql_builder self q)));
  mret (undeclared_parameter_types md).

Definition plan_parameter_types (q : rstr) : M (list (rstr * SpType)) :=
  let q := strip_trailing_terminators q in
  if is_ddl q then mret []
  else
    _ ← begin_operation slot;
    if is_dml q then
      ro ← read_cells (fun h => is_read_only h config);
      if ro : bool then mret [] else plan_dml_parameter_types q
    else
      rs ← perform env slot (query_timeout (timeouts config)) OPTION_RPC_TIMEOUT_QUERY
             (ExecuteQuery (inl None) (set_query_mode_plan (read_sql_builder self q)));
      mret (undeclared_parameter_types (rs_metadata rs)).

(** The type of one parameter: under its own spelling, or case-insensitively. *)
Definition lookup_type (types : list (rstr * SpType)) (name : rstr) : option SpType :=
  match List.find (fun kv => bool_decide (kv.1 = name)) types with
  | Some kv => Some kv.2
  | None => snd <$> List.find (fun kv => eq_ignore_ascii_case kv.1 name) types
  end.

Definition get_parameter_schema : M Schema :=
  match bound self with
  | batch :: _ => mret (schema batch)
  | [] =>
      q ← lift (sql self);
      let names := named_parameters q in
      match names with
      | [] => mret (Schema_new [])
      | _ =>
          probed ← catch (plan_parameter_types q);
          let types := match probed with Ok t => t | Err _ => [] end in
          fields ← lift (try_map (fun name =>
            match lookup_type types name with
            | Some ty => arrow_field name ty true (timestamp_precision config)
            | None => Ok (null_field name)
            end) names);
          mret (Schema_new fields)
      end
  end.

End Methods.

(** ** Entry points

    An entry point takes [&mut self]: it returns the statement as it leaves it. *)

Definition SM (A : Type) : Type := Statement -> World -> option (World * Statement * Result A).

(** Run a [&self] method, then discard the bound data on every path. *)
Definition consuming {A} (m : Statement -> M A) : SM A := fun self w =>
  '(w', r) ← m self w; Some (w', clear_bound self, r).

(** Run a [&self] method and keep the statement. *)
Definition keeping {A} (m : Statement -> M A) : SM A := fun self w =>
  '(w', r) ← m self w; Some (w', self, r).

(** Sequence on success. *)
Definition SM_bind {A B} (m : SM A) (f : A -> SM B) : SM B := fun self w =>
  '(w', self', r) ← m self w;
  match r with Ok a => f a self' w' | Err e => Some (w', self', Err e) end.

(** DDL, which drops the bound data only once it has run. *)
Definition run_ddl_text (q : rstr) : SM unit :=
  SM_bind (keeping (fun self => run_ddl env self (split_statements q)))
    (fun _ self w => Some (w, clear_bound self, Ok tt)).

Definition execute_query_reader (q : rstr) : SM Reader := fun self w =>
  let q := strip_trailing_terminators q in
  SM_bind (keeping (fun _ => ensure_query_allowed)) (fun _ =>
    match bound self with
    | _ :: _ => consuming (fun self => execute_bound_query self q)
    | [] => keeping (fun self => execute_plain_query self q)
    end) self w.

Definition execute : SM Reader := fun self w =>
  '(w, _) ← begin_operation (st_slot self) w;
  match st_sql self, target_table self with
  | None, Some table => SM_bind (fun self => run_ingest env self table)
                          (fun _ self w => Some (w, self, Ok empty_reader)) self w
  | _, _ =>
      match (_ ← check_bound_has_destination self; sql self) with
      | Err e => Some (w, self, Err e)
      | Ok q =>
          if is_ddl q then
            SM_bind (run_ddl_text q) (fun _ self w => Some (w, self, Ok empty_reader)) self w
          else if is_dml q then
            SM_bind (consuming (fun self => run_dml self q)) (fun outcome self w =>
              Some (w, self, Ok (match outcome with
                                 | Returning batches s _ => RecordBatchIterator batches s
                                 | Plain _ => empty_reader
                                 end))) self w
          else execute_query_reader q self w
      end
  end.

Definition execute_update (fuel : nat) : SM (option Z) := fun self w =>
  '(w, _) ← begin_operation (st_slot self) w;
  match st_sql self, target_table self with
  | None, Some table => run_ingest env self table w
  | _, _ =>
      match (_ ← check_bound_has_destination self; sql self) with
      | Err e => Some (w, self, Err e)
      | Ok q =>
          if is_ddl q then
            SM_bind (run_ddl_text q) (fun _ self w => Some (w, self, Ok None)) self w
          else if negb (is_dml q) then
            SM_bind (keeping (fun _ => lift (check_all_dml_batch (split_statements q)))) (fun _ =>
              SM_bind (execute_query_reader q) (fun reader =>
                SM_bind (keeping (fun self => drain_discarding_rows fuel (st_slot self) reader))
                  (fun _ self w => Some (w, self, Ok None)))) self w
          else
            SM_bind (consuming (fun self => run_dml self q)) (fun outcome self w =>
              Some (w, self, Ok (match outcome with
                                 | Returning _ _ affected => Some affected
                                 | Plain count => count
                                 end))) self w
      end
  end.

Definition execute_schema : SM Schema := fun self w =>
  '(w, _) ← begin_operation (st_slot self) w;
  match (q ← sql self; _ ← check_query_only q "execute_schema" "planned in a read-only schema probe"; Ok q) with
  | Err e => Some (w, self, Err e)
  | Ok q => keeping (fun self => plan_query_schema self (strip_trailing_terminators q)) self w
  end.

Definition execute_partitions : SM PartitionedResult := fun self w =>
  '(w, _) ← begin_operation (st_slot self) w;
  match (q ← sql self;
         _ ← check_query_only q "execute_partitions" "partitioned in a batch read-only transaction";
         Ok q) with
  | Err e => Some (w, self, Err e)
  | Ok q => SM_bind (keeping (fun _ => ensure_query_allowed))
              (fun _ => consuming (fun self => run_partition_query self (strip_trailing_terminators q))) self w
  end.

End Execution.
