(* ===== verification/IngestFacts.v ===== *)
(** * Bulk ingest: what is written, and what an error reports

    The bound batches flatten to one sequence of rows ([flat_rows]); chunks and
    bisected halves are ranges of it.  [acknowledged] is what the trace shows was
    written: the mutations of the write-only commits that succeeded, in order.
    [batch_calls] is what it shows was sent through BatchWrite, and what each call
    reported applied. *)

From S2P Require Import Prelude RustStr RustNum ErrorModel Options DirectedRead Staleness Config.
From S2P Require Import Sql Runtime Stream Txn Client Wp Connection TxnSystem StatementState Ingest.

(** ** Lists *)

Definition slice {A} (start stop : nat) (l : list A) : list A := drop start (take stop l).

Lemma slice_app {A} start stop (l k : list A) :
  slice start stop (l ++ k) = slice start stop l ++ slice (start - length l) (stop - length l) k.
Proof.
  unfold slice. rewrite take_app, skipn_app. f_equal. rewrite length_take.
  destruct (decide (length l <= stop)).
  - by rewrite Nat.min_r by lia.
  - rewrite !drop_ge; [done|rewrite length_take; lia|]. rewrite length_take. lia.
Qed.

Lemma slice_cat {A} start mid stop (l : list A) :
  start <= mid <= stop -> slice start stop l = slice start mid l ++ slice mid stop l.
Proof.
  intros H. unfold slice. rewrite <- (take_drop mid (take stop l)) at 1.
  rewrite take_take, Nat.min_l by lia. rewrite skipn_app, drop_drop. f_equal. rewrite length_take.
  destruct (decide (mid <= length l)); [f_equal; lia|].
  rewrite !drop_ge; [done|rewrite length_take; lia..].
Qed.

Lemma slice_seq start stop n :
  slice start stop (seq 0 n) = seq start ((stop `min` n) - start).
Proof. unfold slice. by rewrite take_seq, drop_seq. Qed.

Lemma slice_length {A} start stop (l : list A) :
  stop <= length l -> length (slice start stop l) = stop - start.
Proof. intros H. unfold slice. rewrite length_drop, length_take. lia. Qed.

Lemma slice_empty {A} n (l : list A) : slice n n l = [].
Proof. unfold slice. apply drop_ge. rewrite length_take. lia. Qed.

Lemma map_slice {A B} (g : A -> B) start stop l :
  slice start stop (map g l) = map g (slice start stop l).
Proof. unfold slice. by rewrite firstn_map, skipn_map. Qed.

Section Rows.
Context `{B : Batches}.

Definition batch_rows (b : RecordBatch) : list (RecordBatch * nat) := map (pair b) (seq 0 (num_rows b)).
Definition flat_rows (bs : list RecordBatch) : list (RecordBatch * nat) := concat (map batch_rows bs).

Definition row_mutation (target : rstr) (row : RecordBatch * nat) : Result Mutation :=
  insert_mutation target row.1 row.2.

Lemma batch_rows_length b : length (batch_rows b) = num_rows b.
Proof. unfold batch_rows. by rewrite length_map, length_seq. Qed.

Lemma flat_rows_length bs : length (flat_rows bs) = sum_list_with num_rows bs.
Proof.
  induction bs as [|b bs IH]; [done|]. unfold flat_rows in *. cbn.
  by rewrite length_app, batch_rows_length, IH.
Qed.

(** The batch walk of [build_range_mutations] visits the rows of the range. *)
Lemma range_loop_slice target start stop base bs :
  range_loop target start stop base bs =
  try_map (row_mutation target) (slice (start - base) (stop - base) (flat_rows bs)).
Proof.
  revert base. induction bs as [|b bs IH]; intros base.
  - unfold slice, flat_rows. cbn. by rewrite take_nil, drop_nil.
  - unfold flat_rows. cbn [range_loop map concat]. fold (flat_rows bs).
    rewrite slice_app, batch_rows_length, try_map_app. unfold batch_rows.
    rewrite map_slice, slice_seq, try_map_map. unfold row_mutation at 1; cbn [fst snd].
    replace ((start `max` base) - base) with (start - base) by lia.
    replace ((stop `min` (base + num_rows b)) - base) with ((stop - base) `min` num_rows b) by lia.
    destruct (try_map _ (seq _ _)) as [ms|e]; [|done]. cbn. case_decide.
    + replace (stop - base - num_rows b) with 0 by lia.
      unfold slice. rewrite take_0, drop_nil. cbn. by rewrite app_nil_r.
    + rewrite IH. by rewrite <- !Nat.sub_add_distr.
Qed.

Lemma build_range_slice self target start stop :
  build_range_mutations self target start stop =
  try_map (row_mutation target) (slice start stop (flat_rows (bound self))).
Proof. unfold build_range_mutations. by rewrite range_loop_slice, !Nat.sub_0_r. Qed.

End Rows.

(** ** Writes *)

Section Writes.
Context `{B : Batches} (env : Env) (self : Statement) (target : rstr).

Abbreviation limit := (update_timeout (timeouts (st_config self))) (only parsing).
Abbreviation rows := (flat_rows (bound self)) (only parsing).
Abbreviation mutations_of := (try_map (row_mutation target)) (only parsing).

(** What an event shows was written: a write-only commit that reported success. *)
Definition acked (lim : option Z) (ev : Event) : list Mutation :=
  match ev with
  | Ev c rep =>
      match c in Call A return Reply A -> list Mutation with
      | WriteOnly _ m => fun rep => if reply_okb lim rep then m else []
      | _ => fun _ => []
      end rep
  end.

Definition acknowledged (lim : option Z) (evs : list Event) : list Mutation := concat (map (acked lim) evs).

Lemma acknowledged_app lim e1 e2 :
  acknowledged lim (e1 ++ e2) = acknowledged lim e1 ++ acknowledged lim e2.
Proof. unfold acknowledged. by rewrite map_app, concat_app. Qed.

(** The error of the last write, or a cancel that came before it. *)
Definition write_error (evs : list Event) (e : Error) : Prop :=
  e = cancelled_err \/
  exists o ms rep, last evs = Some (Ev (WriteOnly o ms) rep) /\
    call_result limit OPTION_RPC_TIMEOUT_UPDATE outcome rep = Err e.

(** The rows [start, stop) were written, each once and in order. *)
Definition committed (start stop : nat) (w w' : World) : Prop :=
  exists evs, quiet w w' evs /\ mutations_of (slice start stop rows) = Ok (acknowledged limit evs).

(** The rows [start, mid) were written, each once and in order, no others were
    acknowledged, and the error reports their number on top of [prior]. *)
Definition stopped (start stop : nat) (prior : Z) (w w' : World) (e : Error) : Prop :=
  exists evs mid e0, quiet w w' evs /\ start <= mid < stop /\
    mutations_of (slice start mid rows) = Ok (acknowledged limit evs) /\
    e = note_rows_already_committed e0 (prior + Z.of_nat (mid - start)) /\
    ((exists stop', mid < stop' <= stop /\ mutations_of (slice mid stop' rows) = Err e0) \/
     write_error evs e0).

Lemma committed_nothing n w : committed n n w w.
Proof. exists []. split; [apply quiet_refl|]. by rewrite slice_empty. Qed.

Lemma committed_trans start mid stop w1 w2 w3 :
  start <= mid <= stop ->
  committed start mid w1 w2 -> committed mid stop w2 w3 -> committed start stop w1 w3.
Proof.
  intros Hle (e1 & Hq1 & H1) (e2 & Hq2 & H2). exists (e1 ++ e2).
  split; [by eapply quiet_trans|].
  rewrite (slice_cat start mid stop), acknowledged_app by done. by apply try_map_app_Ok.
Qed.

Lemma write_error_app e1 e2 e : write_error e2 e -> write_error (e1 ++ e2) e.
Proof.
  intros [->|(o & ms & rep & Hl & Hr)]; [by left|]. right. exists o, ms, rep. split; [|done].
  rewrite last_app_nonnil; [done|]. by intros ->.
Qed.

Lemma committed_stopped start mid stop prior w1 w2 w3 e :
  start <= mid <= stop ->
  committed start mid w1 w2 -> stopped mid stop (prior + Z.of_nat (mid - start)) w2 w3 e ->
  stopped start stop prior w1 w3 e.
Proof.
  intros Hle (e1 & Hq1 & H1) (e2 & k & e0 & Hq2 & Hk & H2 & -> & Hc). exists (e1 ++ e2), k, e0.
  split_and!; [by eapply quiet_trans|lia|lia| | |].
  - rewrite (slice_cat start mid k), acknowledged_app by lia. by apply try_map_app_Ok.
  - f_equal. lia.
  - destruct Hc as [Hc|Hc]; [by left|]. right. by apply write_error_app.
Qed.

Lemma stopped_widen start stop stop' prior w w' e :
  stop <= stop' -> stopped start stop prior w w' e -> stopped start stop' prior w w' e.
Proof.
  intros Hle (evs & k & e0 & Hq & Hk & H2 & He & Hc). exists evs, k, e0. split_and!; try done; [lia..|].
  destruct Hc as [(s & ? & ?)|]; [left; exists s; split; [lia|done]|by right].
Qed.

(** A failed write adds nothing. *)
Lemma committed_after_failed w w1 ev : quiet w w1 [ev] -> acked limit ev = [] -> forall n, committed n n w w1.
Proof.
  intros Hq Ha n. exists [ev]. split; [done|]. rewrite slice_empty. unfold acknowledged. cbn.
  by rewrite Ha.
Qed.

(** What a write of the range [start, stop) does, errors included. *)
Definition range_result (start stop : nat) (prior : Z) (w w' : World) (r : Result Z) : Prop :=
  match r with
  | Ok n => n = Z.of_nat (stop - start) /\ committed start stop w w'
  | Err e => stopped start stop prior w w' e
  end.

Lemma stopped_here start stop prior w w' e0 evs :
  start < stop -> quiet w w' evs -> acknowledged limit evs = [] -> write_error evs e0 ->
  stopped start stop prior w w' (note_rows_already_committed e0 prior).
Proof.
  intros Hlt Hq Ha He. exists evs, start, e0. split_and!; [done|lia|done| | |by right].
  - by rewrite slice_empty, Ha.
  - f_equal. lia.
Qed.

Lemma failed_write_acks_nothing o ms rep e :
  call_result limit OPTION_RPC_TIMEOUT_UPDATE outcome rep = Err e -> acked limit (Ev (WriteOnly o ms) rep) = [].
Proof.
  intros Hc. cbn. destruct (reply_okb limit rep) eqn:Hok; [|done].
  apply (call_result_ok _ OPTION_RPC_TIMEOUT_UPDATE) in Hok as [x Hx]. congruence.
Qed.

Lemma write_acks_all o ms rep mc :
  call_result limit OPTION_RPC_TIMEOUT_UPDATE outcome rep = Ok mc -> acked limit (Ev (WriteOnly o ms) rep) = ms.
Proof.
  intros Hc. cbn. assert (reply_okb limit rep = true) as ->; [|done].
  apply (call_result_ok _ OPTION_RPC_TIMEOUT_UPDATE). rewrite Hc. by eexists.
Qed.

Lemma midpoint_inside start stop : 1 < stop - start -> start < start + (stop - start) / 2 < stop.
Proof.
  intros H. assert (0 < (stop - start) / 2) by (apply Nat.div_str_pos; lia).
  assert ((stop - start) / 2 < stop - start) by (apply Nat.div_lt; lia). lia.
Qed.

Lemma write_mutation_range_result fuel start stop prior w :
  start < stop <= length rows -> stop - start < fuel ->
  wp (write_mutation_range env self fuel target start stop prior) (range_result start stop prior w) w.
Proof.
  revert start stop prior w. induction fuel as [|fuel IH]; intros start stop prior w Hr Hf; [lia|].
  cbn [write_mutation_range]. rewrite build_range_slice. apply wp_bind, wp_lift.
  destruct (mutations_of (slice start stop rows)) as [ms|e] eqn:Ems; cbn [map_error].
  2: { exists [], start, e. split_and!; [apply quiet_refl|lia|lia|by rewrite slice_empty| |].
       - f_equal. lia.
       - left. exists stop. split; [lia|done]. }
  pose proof (try_map_length _ _ _ Ems) as Hlen. rewrite slice_length in Hlen by lia.
  apply wp_bind, wp_catch, wp_write_mutations_txn.
  - intros ->. cbn in Hlen. lia.
  - intros _. rewrite decide_False by (intros [_ Hx]; vm_compute in Hx; done).
    apply (stopped_here _ _ _ _ _ _ []); [lia|apply quiet_refl|done|by left].
  - intros _ Hne lim c rep w1 Hq.
    destruct (call_result lim _ outcome rep) as [mc|e0] eqn:Ec; cbn [fmap Result_fmap].
    + apply wp_ret. split; [by rewrite Hlen|]. exists [Ev c rep]. split; [done|]. rewrite Ems.
      unfold acknowledged. cbn [map concat]. unfold c. by rewrite (write_acks_all _ _ _ _ Ec), app_nil_r.
    + pose proof (failed_write_acks_nothing (write_only_options (request (st_config self))
        (retry (st_config self))) ms _ _ Ec) as Ha. fold c in Ha.
      case_decide as Hd.
      * pose proof (midpoint_inside _ _ (proj1 Hd)) as Hmid.
        set (mid := start + (stop - start) / 2) in *.
        apply wp_bind. eapply wp_mono; [apply IH; lia|]. intros w2 [l|e] H2; cbn in H2.
        2: { eapply (committed_stopped start start); [lia|by eapply committed_after_failed|].
             rewrite Nat.sub_diag, Z.add_0_r. by eapply stopped_widen; [|exact H2]; lia. }
        destruct H2 as [-> H2]. apply wp_bind. eapply wp_mono; [apply IH; lia|].
        assert (committed start mid w w2) as H02
          by (eapply (committed_trans start start); [lia|by eapply committed_after_failed|done]).
        intros w3 [r|e] H3; cbn in H3.
        -- destruct H3 as [-> H3]. split; [lia|]. by eapply (committed_trans start mid); [lia|..].
        -- by eapply (committed_stopped start mid); [lia|..].
      * apply wp_throw. eapply (stopped_here _ _ _ _ _ _ [Ev c rep]); [lia|done| |].
        -- unfold acknowledged. cbn [map concat]. by rewrite Ha.
        -- right. by exists (write_only_options (request (st_config self)) (retry (st_config self))), ms, rep.
Qed.

(** A call that writes nothing. *)
Lemma committed_quiet_event n w w' evs : quiet w w' evs -> acknowledged limit evs = [] -> committed n n w w'.
Proof. intros Hq Ha. exists evs. split; [done|]. by rewrite slice_empty, Ha. Qed.

Lemma commit_ingest_range_result start stop prior w :
  ingest_batch_write self = false -> start <= stop <= length rows ->
  wp (commit_ingest_range env self target start stop prior) (range_result start stop prior w) w.
Proof.
  intros Hbw Hr. unfold commit_ingest_range. case_decide.
  - apply wp_ret. assert (stop = start) as -> by lia. split; [lia|]. apply committed_nothing.
  - rewrite Hbw. apply write_mutation_range_result; lia.
Qed.

(** ** Chunks *)

(** The ranges the walk over the rows commits, in order. *)
Fixpoint chunk_bounds (costs : list (Z * Z)) (budget : IngestChunkBudget) (chunk_start row_index : nat) :
    list (nat * nat) :=
  match costs with
  | [] => [(chunk_start, row_index)]
  | (columns, row_bytes) :: rest =>
      if fits budget columns row_bytes then
        chunk_bounds rest (budget_add budget columns row_bytes) chunk_start (S row_index)
      else (chunk_start, row_index) ::
        chunk_bounds rest (budget_add budget_default columns row_bytes) row_index (S row_index)
  end.

Fixpoint commit_chunks (chunks : list (nat * nat)) (total : Z) : M Z :=
  match chunks with
  | [] => mret total
  | (start, stop) :: rest =>
      n ← commit_ingest_range env self target start stop total;
      commit_chunks rest (total + n)%Z
  end.

Definition ingest_chunks : list (nat * nat) := chunk_bounds (row_costs self) budget_default 0 0.

Lemma M_bind_assoc {X Y Z'} (m : M X) (f : X -> M Y) (g : Y -> M Z') w :
  ((m ≫= f) ≫= g) w = (m ≫= fun x => f x ≫= g) w.
Proof. unfold mbind, M_bind. by destruct (m w) as [[w' [x|e]]|]. Qed.

Lemma M_bind_ext {X Y} (m : M X) (f g : X -> M Y) w :
  (forall x w', f x w' = g x w') -> (m ≫= f) w = (m ≫= g) w.
Proof. intros H. unfold mbind, M_bind. destruct (m w) as [[w' [x|e]]|]; auto. Qed.

Lemma chunk_loop_commits {X} costs total budget cs ri (k : Z -> M X) w :
  (chunk_loop env self target costs total budget cs ri ≫=
     fun '(t, a, b) => commit_ingest_range env self target a b t ≫= fun n => k (t + n)%Z) w =
  (commit_chunks (chunk_bounds costs budget cs ri) total ≫= k) w.
Proof.
  revert total budget cs ri w.
  induction costs as [|[c b] costs IH]; intros total budget cs ri w; cbn [chunk_loop chunk_bounds].
  - cbn [commit_chunks]. by rewrite M_bind_assoc.
  - destruct (fits budget c b); [apply IH|]. cbn [commit_chunks]. rewrite !M_bind_assoc.
    apply M_bind_ext. intros n w'. apply IH.
Qed.

Lemma ingest_autocommit_chunks table w :
  ingest_autocommit env self table target w =
  (n ← commit_chunks ingest_chunks 0;
   _ ← check_empty_append_target env self table n; mret (Some n)) w.
Proof.
  unfold ingest_autocommit, ingest_chunks.
  exact (chunk_loop_commits (row_costs self) 0 budget_default 0 0
    (fun n => _ ← check_empty_append_target env self table n; mret (Some n)) w).
Qed.

(** The chunks are adjacent and cover [start, stop). *)
Fixpoint contiguous (start stop : nat) (chunks : list (nat * nat)) : Prop :=
  match chunks with
  | [] => start = stop
  | (a, b) :: rest => a = start /\ a <= b /\ contiguous b stop rest
  end.

Lemma contiguous_le start stop chunks : contiguous start stop chunks -> start <= stop.
Proof.
  revert start. induction chunks as [|[a b] chunks IH]; cbn; intros start; [lia|].
  intros (-> & Hab & H). apply IH in H. lia.
Qed.

Lemma commit_chunks_result chunks start w :
  ingest_batch_write self = false -> contiguous start (length rows) chunks ->
  wp (commit_chunks chunks (Z.of_nat start))
     (fun w' r => match r with
      | Ok n => n = Z.of_nat (length rows) /\ committed start (length rows) w w'
      | Err e => stopped start (length rows) (Z.of_nat start) w w' e
      end) w.
Proof.
  intros Hbw. revert start w. induction chunks as [|[a b] chunks IH]; intros start w; cbn [contiguous commit_chunks].
  - intros ->. apply wp_ret. split; [done|]. apply committed_nothing.
  - intros (-> & Hab & Hc). pose proof (contiguous_le _ _ _ Hc). apply wp_bind.
    eapply wp_mono; [by apply commit_ingest_range_result|]. intros w1 [n|e] H1; cbn in H1.
    2: { by eapply stopped_widen; [|exact H1]; lia. }
    destruct H1 as [-> H1]. replace (Z.of_nat start + Z.of_nat (b - start))%Z with (Z.of_nat b) by lia.
    eapply wp_mono; [by apply IH|]. intros w2 [n|e]; [intros [-> H2]|intros H2].
    + split; [done|]. by eapply (committed_trans start b); [lia|..].
    + eapply (committed_stopped start b); [lia|done|].
      by replace (Z.of_nat start + Z.of_nat (b - start))%Z with (Z.of_nat b) by lia.
Qed.

End Writes.

(** ** BatchWrite *)

Section BatchWrites.
Context `{B : Batches} (env : Env) (self : Statement) (target : rstr).

Abbreviation limit := (update_timeout (timeouts (st_config self))) (only parsing).
Abbreviation rows := (flat_rows (bound self)) (only parsing).
Abbreviation mutations_of := (try_map (row_mutation target)) (only parsing).

(** The responses before the first transport error, and that error. *)
Fixpoint received (rs : list (BatchWriteResponse + SpannerError)) :
    list BatchWriteResponse * option SpannerError :=
  match rs with
  | [] => ([], None)
  | inr e :: _ => ([], Some e)
  | inl r :: rs => let '(l, e) := received rs in (r :: l, e)
  end.

(** The error of a response's groups, when they failed. *)
Definition group_error (r : BatchWriteResponse) : option Error :=
  match bw_status r with
  | Some (code, msg, dets) => if decide (code = 0%Z) then None else Some (from_status_parts code msg dets)
  | None => None
  end.

Definition applied_groups (l : list BatchWriteResponse) : Z :=
  foldr (fun r n => (match group_error r with None => bw_indexes r | Some _ => 0 end + n)%Z) 0%Z l.

(** What a stream of responses reports, on top of [prior] rows. *)
Definition batch_write_report (rs : list (BatchWriteResponse + SpannerError)) (prior : Z) : Result Z :=
  let '(l, transport) := received rs in
  match transport, head (omap group_error l) with
  | Some e, _ => Err (note_rows_already_committed (from_spanner e) (prior + applied_groups l))
  | None, Some e => Err (note_rows_already_committed e (prior + applied_groups l))
  | None, None => Ok (applied_groups l)
  end.

Lemma batch_write_loop_step r rs prior applied first :
  batch_write_loop (inl r :: rs) prior applied first =
  match group_error r with
  | None => batch_write_loop rs prior (applied + bw_indexes r) first
  | Some e => batch_write_loop rs prior applied (or_keep first (Some e))
  end.
Proof.
  cbn. unfold group_error. destruct (bw_status r) as [[[code msg] dets]|]; [|done].
  case_decide; [done|]. by destruct first.
Qed.

Lemma batch_write_loop_acc rs prior applied first :
  batch_write_loop rs prior applied first =
  let '(l, transport) := received rs in
  match transport, or_keep first (head (omap group_error l)) with
  | Some e, _ => Err (note_rows_already_committed (from_spanner e) (prior + (applied + applied_groups l)))
  | None, Some e => Err (note_rows_already_committed e (prior + (applied + applied_groups l)))
  | None, None => Ok (applied + applied_groups l)%Z
  end.
Proof.
  revert applied first. induction rs as [|[r|e] rs IH]; intros applied first;
    rewrite ?batch_write_loop_step; cbn [received].
  - cbn. rewrite Z.add_0_r. by destruct first.
  - destruct (received rs) as [l transport] eqn:El. cbn [applied_groups foldr omap list_omap].
    fold (applied_groups l). destruct (group_error r) eqn:Eg; rewrite IH.
    + cbn. rewrite ?Eg. by destruct first.
    + cbn. rewrite ?Eg. by rewrite <- Z.add_assoc.
  - cbn. by rewrite Z.add_0_r.
Qed.

(** The groups a BatchWrite call reports as applied, when it was answered in full,
    in time, without a transport error and without a failed group. *)
Definition batch_call_applied (lim : option Z) (rep : Reply (list (BatchWriteResponse + SpannerError))) : option Z :=
  if r_cancelled rep || (bool_decide (is_Some lim) && r_expired rep) then None
  else match r_outcome rep with
       | inr _ => None
       | inl responses =>
           match received responses with
           | (l, None) => if decide (omap group_error l = []) then Some (applied_groups l) else None
           | (_, Some _) => None
           end
       end.

(** The BatchWrite calls of a trace: the groups each carries, and what it
    reports applied. *)
Definition batch_call (lim : option Z) (ev : Event) : list (list (list Mutation) * option Z) :=
  match ev with
  | Ev c rep =>
      match c in Call A return Reply A -> list (list (list Mutation) * option Z) with
      | BatchWrite _ groups => fun rep => [(groups, batch_call_applied lim rep)]
      | _ => fun _ => []
      end rep
  end.

Definition batch_calls (lim : option Z) (evs : list Event) : list (list (list Mutation) * option Z) :=
  concat (map (batch_call lim) evs).

Definition groups_of (calls : list (list (list Mutation) * option Z)) : list (list Mutation) :=
  concat (map fst calls).

Definition clean (call : list (list Mutation) * option Z) : Prop := is_Some call.2.

Definition applied_by (calls : list (list (list Mutation) * option Z)) : Z :=
  foldr (fun call n => (default 0 call.2 + n)%Z) 0%Z calls.

Lemma batch_calls_app lim e1 e2 : batch_calls lim (e1 ++ e2) = batch_calls lim e1 ++ batch_calls lim e2.
Proof. unfold batch_calls. by rewrite map_app, concat_app. Qed.

Lemma applied_by_app c1 c2 : applied_by (c1 ++ c2) = (applied_by c1 + applied_by c2)%Z.
Proof. unfold applied_by. induction c1 as [|c c1 IH]; cbn [app foldr]; [done|]. rewrite IH. lia. Qed.

Lemma Forall_removelast {A} (P : A -> Prop) l : Forall P l -> Forall P (removelast l).
Proof. induction 1 as [|x [|y l] Hx Hl IH]; [constructor..|]. by constructor. Qed.

(** What was sent of the rows [start, stop): a prefix, one row to a group, in
    order, in calls of which only the last may have failed; all of it when the
    result is a count, which is then what the calls report applied. *)
Definition sent (start stop : nat) (w w' : World) (r : Result Z) : Prop :=
  exists evs mid ms, quiet w w' evs /\ acknowledged limit evs = [] /\ start <= mid <= stop /\
    mutations_of (slice start mid rows) = Ok ms /\
    groups_of (batch_calls limit evs) = (fun m => [m]) <$> ms /\
    Forall clean (removelast (batch_calls limit evs)) /\
    match r with
    | Ok n => mid = stop /\ Forall clean (batch_calls limit evs) /\ n = applied_by (batch_calls limit evs)
    | Err _ => True
    end.

Lemma sent_nothing n w r : match r with Ok k => k = 0%Z | Err _ => True end -> sent n n w w r.
Proof.
  intros Hr. exists [], n, []. rewrite slice_empty. split; [apply quiet_refl|]. do 4 (split; [done|]).
  split; [constructor|]. by destruct r.
Qed.

Lemma sent_then start mid stop w1 w2 w3 n r :
  start <= mid <= stop -> sent start mid w1 w2 (Ok n) -> sent mid stop w2 w3 r ->
  sent start stop w1 w3 ((fun k => n + k)%Z <$> r).
Proof.
  intros Hle (e1 & m1 & ms1 & Hq1 & Ha1 & Hm1 & Hs1 & Hg1 & Hl1 & -> & Hc1 & ->)
    (e2 & m2 & ms2 & Hq2 & Ha2 & Hm2 & Hs2 & Hg2 & Hl2 & Hr).
  exists (e1 ++ e2), m2, (ms1 ++ ms2). rewrite acknowledged_app, Ha1, Ha2, batch_calls_app.
  split_and!; [by eapply quiet_trans|done|lia|lia| | | |].
  - rewrite (slice_cat start mid m2) by lia. by apply try_map_app_Ok.
  - unfold groups_of in *. by rewrite map_app, concat_app, Hg1, Hg2, fmap_app.
  - destruct (batch_calls limit e2) as [|c l] eqn:E; [rewrite app_nil_r; by apply Forall_removelast|].
    rewrite removelast_app by done. by apply Forall_app.
  - destruct r as [k|e]; [|done]. destruct Hr as (-> & Hc2 & ->). cbn.
    split_and!; [done|by apply Forall_app|by rewrite applied_by_app].
Qed.

Lemma sent_widen start stop stop' w w' e e' :
  stop <= stop' -> sent start stop w w' (Err e) -> sent start stop' w w' (Err e').
Proof.
  intros Hle (evs & mid & ms & ? & ? & ? & H). exists evs, mid, ms. split_and!; [done|done|lia|lia|..]; tauto.
Qed.

(** A chunk's call succeeds exactly with the count it reports. *)
Lemma batch_write_chunk_applied responses prior n :
  batch_write_loop responses prior 0 None = Ok n ->
  match received responses with
  | (l, None) => if decide (omap group_error l = []) then Some (applied_groups l) else None
  | (_, Some _) => None
  end = Some n.
Proof.
  rewrite batch_write_loop_acc. destruct (received responses) as [l [e|]]; [done|].
  destruct (omap group_error l) as [|e es]; cbn; [|done]. intros [= <-]. done.
Qed.

Lemma commit_ingest_range_sent start stop prior w :
  ingest_batch_write self = true -> start <= stop <= length rows ->
  wp (commit_ingest_range env self target start stop prior) (sent start stop w) w.
Proof.
  intros Hbw Hr. unfold commit_ingest_range. case_decide.
  { apply wp_ret. assert (stop = start) as -> by lia. by apply sent_nothing. }
  rewrite Hbw, build_range_slice. apply wp_bind, wp_lift.
  assert (forall e, sent start stop w w (Err e)) as Herr
    by (intros e; eapply (sent_widen start start _ _ _ e); [lia|by apply sent_nothing]).
  destruct (mutations_of (slice start stop rows)) as [ms|e] eqn:Ems; cbn [map_error]; [|apply Herr].
  pose proof (try_map_length _ _ _ Ems) as Hlen. rewrite slice_length in Hlen by lia.
  unfold batch_write_chunk. rewrite decide_False by lia.
  apply wp_perform_then; [intros _; apply Herr|]. intros _ w' _ Hq _.
  set (rep := env _ _ _) in *. eexists _, stop, ms. split; [exact Hq|]. split; [done|]. split; [lia|].
  split; [done|]. unfold batch_calls. cbn [map concat batch_call app removelast]. unfold groups_of. cbn [map concat fst].
  rewrite app_nil_r. split; [done|]. split; [constructor|].
  destruct (call_result _ _ _ rep) as [n|e] eqn:E; [|done]. split; [done|].
  assert (batch_call_applied limit rep = Some n) as ->.
  { revert E. unfold call_result, with_timeout, batch_call_applied. destruct (r_cancelled rep); [done|]. cbn.
    destruct limit as [l|]; cbn; [destruct (r_expired rep); [done|]|];
      (destruct (r_outcome rep); [apply batch_write_chunk_applied|done]). }
  split; [repeat constructor; by eexists|]. cbn. lia.
Qed.

Lemma commit_chunks_sent chunks start total w :
  ingest_batch_write self = true -> contiguous start (length rows) chunks ->
  wp (commit_chunks env self target chunks total)
     (fun w' r => sent start (length rows) w w' ((fun n => n - total)%Z <$> r)) w.
Proof.
  intros Hbw. revert start total w. induction chunks as [|[a b] chunks IH]; intros start total w;
    cbn [contiguous commit_chunks].
  - intros ->. apply wp_ret. apply sent_nothing. cbn. lia.
  - intros (-> & Hab & Hc). pose proof (contiguous_le _ _ _ Hc). apply wp_bind.
    eapply wp_mono; [by apply commit_ingest_range_sent|]. intros w1 [n|e] H1.
    2: { by eapply sent_widen. }
    eapply wp_mono; [by apply IH|]. intros w2 r H2.
    pose proof (sent_then start b (length rows) w w1 w2 n _ ltac:(lia) H1 H2) as H3.
    destruct r as [k|e]; [|exact H3]. cbn in *. by replace (k - total)%Z with (n + (k - (total + n)))%Z by lia.
Qed.

End BatchWrites.

(** ** Budgets *)

Section Budget.
Context (all : list (Z * Z)).
Hypothesis costs_nonneg : Forall (fun c => 0 <= c.1 /\ 0 <= c.2)%Z all.

Definition cost_sum (f : Z * Z -> Z) (l : list (Z * Z)) : Z := foldr (fun c acc => f c + acc)%Z 0%Z l.

(** The rows [start, stop) cost no more than the budgets allow. *)
Definition within_budget (start stop : nat) : Prop :=
  (cost_sum fst (slice start stop all) <= INGEST_CHUNK_MUTATION_LIMIT)%Z /\
  (cost_sum snd (slice start stop all) <= INGEST_CHUNK_BYTE_BUDGET)%Z.

(** Every chunk but the last would overrun a budget with the row after it. *)
Fixpoint greedy (chunks : list (nat * nat)) : Prop :=
  match chunks with
  | [] => True
  | (a, b) :: rest => (rest <> [] -> ~ within_budget a (S b)) /\ greedy rest
  end.

Lemma slice_snoc {A} (l : list A) start stop x :
  start <= stop -> l !! stop = Some x -> slice start (S stop) l = slice start stop l ++ [x].
Proof.
  intros Hle Hx. unfold slice. rewrite (take_S_r _ _ _ Hx), skipn_app. f_equal.
  apply lookup_lt_Some in Hx. rewrite length_take.
  by replace (start - stop `min` length l) with 0 by lia.
Qed.

Lemma cost_sum_app f l k : cost_sum f (l ++ k) = (cost_sum f l + cost_sum f k)%Z.
Proof. unfold cost_sum. induction l as [|c l IH]; cbn; [lia|]. rewrite IH. lia. Qed.

(** The budget after the rows [start, stop): saturated sums of their costs. *)
Definition spent (budget : IngestChunkBudget) (start stop : nat) : Prop :=
  b_rows budget = Z.of_nat (stop - start) /\
  b_mutations budget = Z.min u64_max (cost_sum fst (slice start stop all)) /\
  b_bytes budget = Z.min u64_max (cost_sum snd (slice start stop all)).

Lemma saturating_sum s c : (0 <= c)%Z ->
  saturating_add_u64 (Z.min u64_max s) c = Z.min u64_max (s + c).
Proof. unfold saturating_add_u64. lia. Qed.

Lemma spent_add budget start stop c :
  start <= stop -> all !! stop = Some c -> spent budget start stop ->
  spent (budget_add budget c.1 c.2) start (S stop).
Proof.
  intros Hle Hc (Hr & Hm & Hb). rewrite Forall_lookup in costs_nonneg.
  destruct (costs_nonneg _ _ Hc). unfold spent, budget_add; cbn.
  rewrite Hm, Hb, !saturating_sum, (slice_snoc _ _ _ _ Hle Hc), !cost_sum_app by done. cbn.
  split_and!; [lia|f_equal; lia..].
Qed.

Lemma spent_fits budget start stop c :
  start <= stop -> all !! stop = Some c -> spent budget start stop ->
  fits budget c.1 c.2 = true <-> start = stop \/ within_budget start (S stop).
Proof.
  intros Hle Hc (Hr & Hm & Hb). pose proof costs_nonneg as Hn. rewrite Forall_lookup in Hn.
  destruct (Hn _ _ Hc). unfold fits, within_budget. rewrite Hr, Hm, Hb, !saturating_sum by done.
  rewrite (slice_snoc _ _ _ _ Hle Hc), !cost_sum_app, orb_true_iff, andb_true_iff, !bool_decide_eq_true.
  cbn. unfold INGEST_CHUNK_MUTATION_LIMIT, INGEST_CHUNK_BYTE_BUDGET, u64_max. lia.
Qed.

Lemma spent_nothing n : spent budget_default n n.
Proof. unfold spent. rewrite slice_empty, Nat.sub_diag. done. Qed.

(** A chunk is one row, or within both budgets. *)
Definition chunk_ok (chunk : nat * nat) : Prop :=
  chunk.1 < chunk.2 /\ (chunk.2 = S chunk.1 \/ within_budget chunk.1 chunk.2).

Lemma chunk_bounds_ok k budget start stop :
  stop + k = length all -> chunk_ok (start, stop) -> spent budget start stop ->
  let chunks := chunk_bounds (drop stop all) budget start stop in
  contiguous start (length all) chunks /\ Forall chunk_ok chunks /\ greedy chunks /\ chunks <> [].
Proof.
  revert budget start stop. induction k as [|k IH]; intros budget start stop Hk Hok Hs.
  - rewrite drop_ge by lia. cbn. rewrite Nat.add_0_r in Hk. subst stop. destruct Hok as [Hlt Hok]; cbn in *.
    split_and!; try done; [lia|]. constructor; [by split|done].
  - destruct (lookup_lt_is_Some_2 all stop ltac:(lia)) as [c Hc]. rewrite (drop_S _ _ _ Hc).
    destruct Hok as [Hlt Hok]; cbn [fst snd] in *. destruct c as [cols bytes] eqn:Ec.
    pose proof (spent_fits budget start stop _ ltac:(lia) Hc Hs) as Hf. cbn [fst snd] in Hf.
    cbn [chunk_bounds]. destruct (fits budget cols bytes).
    + apply IH; [lia| |exact (spent_add _ _ _ (cols, bytes) (Nat.lt_le_incl _ _ Hlt) Hc Hs)].
      split; cbn; [lia|]. right. destruct (proj1 Hf eq_refl); [lia|done].
    + destruct (IH (budget_add budget_default cols bytes) stop (S stop)) as (H1 & H2 & H3 & H4); [lia| | |].
      * split; cbn; [lia|by left].
      * exact (spent_add _ _ _ (cols, bytes) (Nat.le_refl _) Hc (spent_nothing stop)).
      * split_and!; [cbn; split_and!; [done|lia|done]|constructor; [by split|done]| |done].
        cbn [greedy]. split; [|done]. intros _ Hw. by discriminate (proj2 Hf (or_intror Hw)).
Qed.

Lemma chunk_bounds_all :
  let chunks := chunk_bounds all budget_default 0 0 in
  contiguous 0 (length all) chunks /\ greedy chunks /\ (all <> [] -> Forall chunk_ok chunks).
Proof.
  pose proof (spent_add budget_default 0 0) as Hadd. pose proof (spent_nothing 0) as H0.
  pose proof chunk_bounds_ok as Hok. destruct all as [|c rest] eqn:E; [cbn; done|].
  destruct c as [cols bytes]. cbn [chunk_bounds].
  destruct (Hok (length rest) (budget_add budget_default cols bytes) 0 1) as (? & ? & ? & _); [done| | |done].
  - split; cbn; [lia|by left].
  - by apply (Hadd (cols, bytes)).
Qed.

End Budget.

(** ** Whole ingests *)

Section Whole.
Context `{B : Batches} (env : Env) (self : Statement).

Abbreviation rows := (flat_rows (bound self)) (only parsing).

Lemma row_costs_length : length (row_costs self) = length rows.
Proof.
  rewrite flat_rows_length. unfold row_costs. induction (bound self) as [|b bs IH]; [done|].
  cbn. by rewrite length_app, length_replicate, IH.
Qed.

Lemma chunk_bounds_contiguous costs budget start stop :
  start <= stop -> contiguous start (stop + length costs) (chunk_bounds costs budget start stop).
Proof.
  revert budget start stop. induction costs as [|[c b] costs IH]; intros budget start stop Hle; cbn.
  - lia.
  - destruct (fits budget c b); rewrite Nat.add_succ_r; [apply (IH _ _ (S stop)); lia|].
    cbn. split_and!; [done|done|]. apply (IH _ _ (S stop)). lia.
Qed.

Lemma ingest_chunks_contiguous : contiguous 0 (length rows) (ingest_chunks self).
Proof. rewrite <- row_costs_length. by apply (chunk_bounds_contiguous _ _ 0 0). Qed.

(** Only calls that write nothing were made, outside the transaction state. *)
Definition silent (w w' : World) : Prop :=
  exists evs, quiet w w' evs /\ forall lim, acknowledged lim evs = [] /\ batch_calls lim evs = [].

Lemma silent_refl w : silent w w.
Proof. exists []. split; [apply quiet_refl|done]. Qed.

Lemma silent_trans w1 w2 w3 : silent w1 w2 -> silent w2 w3 -> silent w1 w3.
Proof.
  intros (e1 & Hq1 & H1) (e2 & Hq2 & H2). exists (e1 ++ e2). split; [by eapply quiet_trans|].
  intros lim. rewrite acknowledged_app, batch_calls_app. destruct (H1 lim) as [-> ->]. apply H2.
Qed.

Lemma silent_event w w' ev :
  quiet w w' [ev] -> (forall lim, acked lim ev = [] /\ batch_call lim ev = []) -> silent w w'.
Proof.
  intros Hq Ha. exists [ev]. split; [done|]. intros lim. unfold acknowledged, batch_calls. cbn.
  by destruct (Ha lim) as [-> ->].
Qed.

Lemma silent_committed target n w w' : silent w w' -> committed self target n n w w'.
Proof. intros (evs & Hq & Ha). eapply committed_quiet_event; [done|apply Ha]. Qed.

Lemma silent_sent target n w w' r :
  silent w w' -> match r with Ok k => k = 0%Z | Err _ => True end -> sent self target n n w w' r.
Proof.
  intros (evs & Hq & Ha) Hr. exists evs, n, []. rewrite slice_empty.
  destruct (Ha (update_timeout (timeouts (st_config self)))) as [-> ->].
  split; [done|]. do 4 (split; [done|]). split; [constructor|]. by destruct r.
Qed.

Lemma wp_table_exists slot timeout s t w :
  wp (table_exists env slot timeout s t) (fun w' _ => silent w w') w.
Proof.
  apply wp_bind, wp_perform_then; [intros _; apply silent_refl|]. intros _ w' _ Hq _.
  assert (silent w w') by (by eapply silent_event). destruct (call_result _ _ _ _); [|done].
  by destruct (first_error (rs_items a)).
Qed.

Lemma wp_check_empty_append_target table n w :
  wp (check_empty_append_target env self table n) (fun w' r => silent w w' /\
    match r with
    | Ok _ => True
    | Err e => n = 0%Z /\ ingest_mode self = Some Append /\ status e = NotFound
    end) w.
Proof.
  unfold check_empty_append_target. case_decide as Hd; [|apply wp_ret; split; [apply silent_refl|done]].
  apply wp_bind, wp_catch. eapply wp_mono; [apply wp_table_exists|]. intros w' r Hs.
  destruct r as [[]|]; [by apply wp_ret|apply wp_throw|by apply wp_ret]. naive_solver.
Qed.

Lemma wp_remap_append table e w :
  wp (remap_ingest_append_error env self table e) (fun w' r => silent w w' /\ is_Ok r) w.
Proof.
  unfold remap_ingest_append_error. repeat case_decide; try (apply wp_ret; split; [apply silent_refl|by eexists]).
  apply wp_bind, wp_catch. eapply wp_mono; [apply wp_table_exists|]. intros w' r Hs.
  destruct r as [[]|]; apply wp_ret; split; try done; by eexists.
Qed.

Lemma wp_remap_create table e w :
  wp (remap_ingest_create_error env self table e) (fun w' r => silent w w' /\ is_Ok r) w.
Proof.
  unfold remap_ingest_create_error. case_decide; [|apply wp_ret; split; [apply silent_refl|by eexists]].
  apply wp_bind, wp_catch. eapply wp_mono; [apply wp_table_exists|]. intros w' r Hs.
  destruct r as [[]|]; apply wp_ret; split; try done; by eexists.
Qed.

Lemma wp_run_ddl statements w : wp (run_ddl env self statements) (fun w' _ => silent w w') w.
Proof.
  apply wp_bind, wp_read_cells. destruct (is_read_only _ _); [apply wp_throw, silent_refl|].
  apply wp_perform_then; [intros _; apply silent_refl|]. intros _ w' _ Hq _. by eapply silent_event.
Qed.

(** What an autocommit ingest over write-only commits does. *)
Definition ingest_result (target : rstr) (w w' : World) (r : Result (option Z)) : Prop :=
  match r with
  | Ok n => n = Some (Z.of_nat (length rows)) /\ committed self target 0 (length rows) w w'
  | Err e => stopped self target 0 (length rows) 0 w w' e \/
             length rows = 0 /\ ingest_mode self = Some Append /\ status e = NotFound /\
             committed self target 0 0 w w'
  end.

Lemma ingest_autocommit_result table target w :
  ingest_batch_write self = false ->
  wp (ingest_autocommit env self table target) (ingest_result target w) w.
Proof.
  intros Hbw. unfold wp. rewrite ingest_autocommit_chunks. apply wp_bind.
  eapply wp_mono; [exact (commit_chunks_result env self target _ 0 w Hbw ingest_chunks_contiguous)|].
  intros w1 [n|e] H1; [|by left]. destruct H1 as [-> H1].
  apply wp_bind. eapply wp_mono; [apply wp_check_empty_append_target|]. intros w2 [u|e] [Hs H2].
  - apply wp_ret. split; [done|]. eapply (committed_trans _ _ 0 (length rows)); [lia|done|].
    by apply silent_committed.
  - right. destruct H2 as (Hz & Hm & Hst). assert (length rows = 0) as Hl by lia. split_and!; try done.
    rewrite Hl in H1. eapply (committed_trans _ _ 0 0); [lia|done|]. by apply silent_committed.
Qed.

(** Whatever the transport, an autocommit ingest leaves the transaction alone. *)
Lemma commit_ingest_range_quiet target start stop prior w :
  start <= stop <= length rows ->
  wp (commit_ingest_range env self target start stop prior) (fun w' _ => exists evs, quiet w w' evs) w.
Proof.
  intros Hr. destruct (ingest_batch_write self) eqn:Hbw.
  - unfold commit_ingest_range. case_decide; [apply wp_ret; eauto using quiet_refl|]. rewrite Hbw.
    apply wp_bind, wp_lift. destruct (map_error _ _); [|eauto using quiet_refl].
    unfold batch_write_chunk. case_decide; [apply wp_ret; eauto using quiet_refl|].
    apply wp_perform_then; [eauto using quiet_refl|]. intros _ w' _ Hq _. by eexists.
  - eapply wp_mono; [by apply commit_ingest_range_result|]. intros w' [n|e] H; cbn in H.
    + destruct H as (_ & evs & Hq & _). by eexists.
    + destruct H as (evs & _ & _ & Hq & _). by eexists.
Qed.

Lemma commit_chunks_quiet target chunks start total w :
  contiguous start (length rows) chunks ->
  wp (commit_chunks env self target chunks total) (fun w' _ => exists evs, quiet w w' evs) w.
Proof.
  revert start total w. induction chunks as [|[a b] chunks IH]; intros start total w; cbn [contiguous commit_chunks].
  - intros _. apply wp_ret. eauto using quiet_refl.
  - intros (-> & Hab & Hc). pose proof (contiguous_le _ _ _ Hc). apply wp_bind.
    eapply wp_mono; [by apply commit_ingest_range_quiet|]. intros w1 [n|e] [evs Hq]; [|by eexists].
    eapply wp_mono; [by eapply IH|]. intros w2 r [evs' Hq']. eexists. by eapply quiet_trans.
Qed.

Lemma ingest_autocommit_quiet table target w :
  wp (ingest_autocommit env self table target) (fun w' _ => exists evs, quiet w w' evs) w.
Proof.
  unfold wp. rewrite ingest_autocommit_chunks. apply wp_bind.
  eapply wp_mono; [exact (commit_chunks_quiet target _ 0 0 w ingest_chunks_contiguous)|].
  intros w1 [n|e] [evs Hq]; [|by eexists]. apply wp_bind.
  eapply wp_mono; [apply wp_check_empty_append_target|]. intros w2 r [(evs' & Hq' & _) _].
  destruct r; [apply wp_ret|]; eexists; by eapply quiet_trans.
Qed.

(** An autocommit ingest over BatchWrite. *)
Lemma ingest_autocommit_sent table target w :
  ingest_batch_write self = true ->
  wp (ingest_autocommit env self table target)
     (fun w' r => sent self target 0 (length rows) w w' (default 0%Z <$> r) /\ r <> Ok None) w.
Proof.
  intros Hbw. unfold wp. rewrite ingest_autocommit_chunks. apply wp_bind.
  eapply wp_mono; [exact (commit_chunks_sent env self target _ 0 0 w Hbw ingest_chunks_contiguous)|].
  intros w1 [n|e] H1; [|by split]. apply wp_bind.
  eapply wp_mono; [apply wp_check_empty_append_target|]. intros w2 r [Hs Hr].
  assert (forall r', match r' with Ok k => k = 0%Z | Err _ => True end ->
    sent self target 0 (length rows) w w2 ((fun k => (n - 0) + k)%Z <$> r')) as H2.
  { intros r' Hr'. eapply (sent_then self target 0 (length rows)); [lia|exact H1|]. by apply silent_sent. }
  destruct r as [u|e].
  - apply wp_ret. split; [|done]. specialize (H2 (Ok 0%Z) eq_refl). cbn in *.
    by replace n with (n - 0 + 0)%Z by lia.
  - split; [|done]. exact (H2 (Err e) I).
Qed.

Abbreviation target_of table := (mutation_table (target_db_schema self) table) (only parsing).

Lemma slice_all {A} (l : list A) : slice 0 (length l) l = l.
Proof. unfold slice. by rewrite drop_0, take_ge. Qed.

Lemma build_all_mutations target :
  build_range_mutations self target 0 (bound_rows self) = try_map (row_mutation target) rows.
Proof. unfold bound_rows. by rewrite build_range_slice, <- flat_rows_length, slice_all. Qed.

Lemma run_ingest_mutations_autocommit table w :
  autocommit (w_txn w) = true ->
  run_ingest_mutations env self table w = ingest_autocommit env self table (target_of table) w.
Proof.
  intros Hac. unfold run_ingest_mutations, mbind at 1, M_bind at 1, locked. rewrite Hac.
  by destruct w.
Qed.

(** A manual-mode ingest writes nothing, and buffers every row or none. *)
Definition manual_result (table : rstr) (w w' : World) (r : Result (option Z)) : Prop :=
  (exists evs, w_trace w' = w_trace w ++ evs /\ forall lim, acknowledged lim evs = [] /\ batch_calls lim evs = []) /\
  match r with
  | Ok n => n = None /\ autocommit (w_txn w') = false /\
      exists ms, try_map (row_mutation (target_of table)) rows = Ok ms /\
        work_of (txn (w_txn w')) = app2 (work_of (txn (w_txn w))) ([], ms)
  | Err _ => w_txn w' = w_txn w
  end.

Lemma manual_result_silent table w w' e : silent w w' -> manual_result table w w' (Err e).
Proof. intros (evs & (Ht & Htr) & Ha). split; [by exists evs|done]. Qed.

Lemma manual_result_after table w1 w2 w3 r :
  silent w1 w2 -> manual_result table w2 w3 r -> manual_result table w1 w3 r.
Proof.
  intros (e1 & (Ht & Htr) & Ha) ((e2 & Htr2 & Ha2) & Hr). split.
  - exists (e1 ++ e2). rewrite Htr2, Htr, app_assoc. split; [done|]. intros lim.
    rewrite acknowledged_app, batch_calls_app. destruct (Ha lim) as [-> ->]. apply Ha2.
  - by rewrite <- Ht.
Qed.

Lemma manual_result_before table w1 w2 w3 e e' :
  manual_result table w1 w2 (Err e) -> silent w2 w3 -> manual_result table w1 w3 (Err e').
Proof.
  intros ((e1 & Htr & Ha) & Ht) (e2 & (Ht2 & Htr2) & Ha2). split; [|congruence].
  exists (e1 ++ e2). rewrite Htr2, Htr, app_assoc. split; [done|]. intros lim.
  rewrite acknowledged_app, batch_calls_app. destruct (Ha lim) as [-> ->]. apply Ha2.
Qed.

Lemma run_ingest_mutations_manual table w :
  autocommit (w_txn w) = false ->
  wp (run_ingest_mutations env self table) (manual_result table w) w.
Proof.
  intros Hac. apply wp_bind, wp_inspect. rewrite Hac.
  destruct (check_kind_allowed (w_txn w) KDml) as [[]|e]; cbn [fmap Result_fmap].
  2: apply manual_result_silent, silent_refl.
  apply wp_bind, wp_lift. rewrite build_all_mutations.
  destruct (try_map _ rows) as [ms|e] eqn:Ems; [|apply manual_result_silent, silent_refl].
  apply wp_bind. eapply wp_mono; [apply wp_check_empty_append_target|].
  intros w1 [u|e] [Hs _]; [|by apply manual_result_silent].
  assert (autocommit (w_txn w1) = false) as Hac1 by (destruct Hs as (_ & [-> _] & _); done).
  eapply wp_mono; [|intros w' r H; eapply manual_result_after; [exact Hs|exact H]].
  destruct (buffer_mutations (w_txn w1) ms) as [st' r] eqn:Eb.
  pose proof (buffer_mutations_section _ _ _ _ Eb Hac1) as Hb.
  apply wp_bind. eapply wp_locked; [unfold ingest_buffer_section; by rewrite Hac1, Eb|].
  destruct r as [u'|e]; cbn.
  - destruct Hb as (Ha & Hw & _). apply wp_ret. split; [exists []; by rewrite app_nil_r|].
    split_and!; [done..|]. by exists ms.
  - destruct Hb as [-> _]. split; [exists []; by rewrite app_nil_r|done].
Qed.

End Whole.

Section Contract.
Context `{B : Batches} (env : Env) (self : Statement) (table : rstr).

Abbreviation rows := (flat_rows (bound self)) (only parsing).
Abbreviation target := (mutation_table (target_db_schema self) table) (only parsing).
Abbreviation limit := (update_timeout (timeouts (st_config self))) (only parsing).

(** The guard, the DDL and the error remaps around the writes are silent. *)
Lemma run_bound_ingest_frame (P : World -> World -> Result (option Z) -> Prop) w :
  (forall w1 w2 e, silent w1 w2 -> P w1 w2 (Err e)) ->
  (forall w1 w2 w3 r, silent w1 w2 -> P w2 w3 r -> P w1 w3 r) ->
  (forall w1 w2 w3 e e', P w1 w2 (Err e) -> silent w2 w3 -> P w1 w3 (Err e')) ->
  (forall w1, w_txn w1 = w_txn w -> wp (run_ingest_mutations env self table) (P w1) w1) ->
  wp (run_bound_ingest env self table) (P w) w.
Proof.
  intros Hsil Hafter Hbefore Hrun.
  apply wp_bind, wp_inspect. set (guard := if autocommit (w_txn w) then _ else _).
  destruct guard as [u|e]; [|apply Hsil, silent_refl].
  apply wp_bind, wp_lift. destruct (build_ingest_table_ddl _ _ _) as [ddl|e]; [|apply Hsil, silent_refl].
  apply wp_bind.
  apply (wp_mono _ (fun w1 r => silent w w1)).
  { destruct ddl as [ddl|]; [|apply wp_ret, silent_refl].
    apply wp_bind, wp_catch. eapply wp_mono; [apply wp_run_ddl|]. intros w1 [u'|e] Hs; [by apply wp_ret|].
    apply wp_bind. eapply wp_mono; [apply wp_remap_create|]. intros w2 r [Hs2 [e' ->]].
    apply wp_throw. by eapply silent_trans. }
  intros w1 [u'|e] Hs; [|by apply Hsil]. apply wp_bind, wp_catch.
  assert (w_txn w1 = w_txn w) as Ht by (destruct Hs as (_ & [? _] & _); done).
  eapply wp_mono; [by apply Hrun|]. intros w2 [n|e] Hr; [apply wp_ret; by eapply Hafter|].
  apply wp_bind. eapply wp_mono; [apply wp_remap_append|]. intros w3 r [Hs3 [e' ->]].
  apply wp_throw. eapply Hafter; [done|]. by eapply Hbefore.
Qed.

(** An autocommit ingest leaves the transaction alone.  Over write-only commits,
    what was acknowledged is a prefix of the rows, and all of them on success.
    Over BatchWrite, what was sent is a prefix of the rows, a group to a row, and
    no call follows one that failed; on success every row was sent, every group
    applied, and the count is what the server reported. *)
Definition write_only_result (w w' : World) (r : Result (option Z)) : Prop :=
  exists evs mid, w_trace w' = w_trace w ++ evs /\ mid <= length rows /\
    try_map (row_mutation target) (take mid rows) = Ok (acknowledged limit evs) /\
    (is_Ok r -> mid = length rows /\ r = Ok (Some (Z.of_nat (length rows)))).

Definition batch_write_result (w w' : World) (r : Result (option Z)) : Prop :=
  exists evs mid ms, w_trace w' = w_trace w ++ evs /\ acknowledged limit evs = [] /\ mid <= length rows /\
    try_map (row_mutation target) (take mid rows) = Ok ms /\
    groups_of (batch_calls limit evs) = (fun m => [m]) <$> ms /\
    Forall clean (removelast (batch_calls limit evs)) /\
    (is_Ok r -> mid = length rows /\ Forall clean (batch_calls limit evs) /\
                r = Ok (Some (applied_by (batch_calls limit evs)))).

Definition autocommit_result (w w' : World) (r : Result (option Z)) : Prop :=
  w_txn w' = w_txn w /\
  if ingest_batch_write self then batch_write_result w w' r else write_only_result w w' r.

Lemma autocommit_result_silent w w' e : silent w w' -> autocommit_result w w' (Err e).
Proof.
  intros (evs & [Ht Htr] & Ha). split; [done|]. destruct (Ha limit) as [Ha1 Ha2].
  destruct (ingest_batch_write self); [exists evs, 0, []; rewrite Ha1, Ha2|exists evs, 0; rewrite Ha1].
  - do 2 (split; [done|]). split; [lia|]. do 2 (split; [done|]). split; [constructor|]. by intros [].
  - split; [done|]. split; [lia|]. split; [done|]. by intros [].
Qed.

Lemma autocommit_result_after w1 w2 w3 r :
  silent w1 w2 -> autocommit_result w2 w3 r -> autocommit_result w1 w3 r.
Proof.
  intros (e1 & [Ht Htr] & Ha) [Ht2 Hr]. split; [congruence|]. destruct (Ha limit) as [Ha1 Ha2].
  destruct (ingest_batch_write self).
  - destruct Hr as (e2 & mid & ms & Htr2 & Hr). exists (e1 ++ e2), mid, ms.
    rewrite acknowledged_app, batch_calls_app, Ha1, Ha2. split; [by rewrite Htr2, Htr, app_assoc|done].
  - destruct Hr as (e2 & mid & Htr2 & Hr). exists (e1 ++ e2), mid.
    rewrite acknowledged_app, Ha1. split; [by rewrite Htr2, Htr, app_assoc|done].
Qed.

Lemma autocommit_result_before w1 w2 w3 e e' :
  autocommit_result w1 w2 (Err e) -> silent w2 w3 -> autocommit_result w1 w3 (Err e').
Proof.
  intros [Ht2 Hr] (e2 & [Ht Htr] & Ha). split; [congruence|]. destruct (Ha limit) as [Ha1 Ha2].
  destruct (ingest_batch_write self).
  - destruct Hr as (e1 & mid & ms & Htr2 & Hack & Hm & Hms & Hg & Hl & _). exists (e1 ++ e2), mid, ms.
    rewrite acknowledged_app, batch_calls_app, Ha1, Ha2, !app_nil_r.
    split; [by rewrite Htr, Htr2, app_assoc|]. do 5 (split; [done|]). by intros [].
  - destruct Hr as (e1 & mid & Htr2 & Hm & Hack & _). exists (e1 ++ e2), mid.
    rewrite acknowledged_app, Ha1, app_nil_r.
    split; [by rewrite Htr, Htr2, app_assoc|]. do 2 (split; [done|]). by intros [].
Qed.

Lemma run_ingest_mutations_writes w :
  autocommit (w_txn w) = true ->
  wp (run_ingest_mutations env self table) (autocommit_result w) w.
Proof.
  intros Hac. unfold wp. rewrite run_ingest_mutations_autocommit by done.
  unfold autocommit_result. destruct (ingest_batch_write self) eqn:Hbw.
  - destruct (proj1 (wp_elim _ _ _) (ingest_autocommit_sent env self table target w Hbw))
      as (w' & r & E & (evs & mid & ms & [Ht Htr] & Hack & Hm & Hms & Hg & Hl & Hr) & Hne). rewrite E. split; [done|].
    unfold slice in Hms. rewrite drop_0 in Hms. exists evs, mid, ms.
    split; [done|]. split; [done|]. split; [lia|]. do 3 (split; [done|]). intros [n ->].
    destruct n as [n|]; [|done]. destruct Hr as (-> & Hc & Hn). change (n = applied_by (batch_calls limit evs)) in Hn.
    by subst n.
  - destruct (proj1 (wp_elim _ _ _) (ingest_autocommit_quiet env self table target w))
      as (w' & r & E & evs0 & [Ht _]). rewrite E. split; [done|].
    pose proof (ingest_autocommit_result env self table target w Hbw) as H.
    unfold wp in H. rewrite E in H. unfold ingest_result in H. destruct r as [n|e].
    + destruct H as [-> (evs & [_ Htr] & Hack)]. exists evs, (length rows). rewrite slice_all in Hack.
      rewrite take_ge by done. by split_and!.
    + destruct H as [(evs & mid & e0 & [_ Htr] & Hm & Hack & _)|(_ & _ & _ & evs & [_ Htr] & Hack)].
      * exists evs, mid. unfold slice in Hack. rewrite drop_0 in Hack. split_and!; [done|lia|done|by intros []].
      * exists evs, 0. rewrite slice_empty in Hack. split_and!; [done|lia|done|by intros []].
Qed.

Definition bound_ingest_result (w w' : World) (r : Result (option Z)) : Prop :=
  if autocommit (w_txn w) then autocommit_result w w' r else manual_result self table w w' r.

Lemma run_bound_ingest_result w : wp (run_bound_ingest env self table) (bound_ingest_result w) w.
Proof.
  apply run_bound_ingest_frame; unfold bound_ingest_result.
  - intros w1 w2 e Hs. destruct (autocommit (w_txn w1));
      [by apply autocommit_result_silent|by apply manual_result_silent].
  - intros w1 w2 w3 r Hs. pose proof Hs as (? & [-> _] & _). destruct (autocommit (w_txn w1));
      [by eapply autocommit_result_after|by eapply manual_result_after].
  - intros w1 w2 w3 e e'. destruct (autocommit (w_txn w1));
      [by eapply autocommit_result_before|by eapply manual_result_before].
  - intros w1 _. destruct (autocommit (w_txn w1)) eqn:Hac;
      [by apply run_ingest_mutations_writes|by apply run_ingest_mutations_manual].
Qed.

(** ** Properties *)

(** C3: an autocommit bulk ingest over write-only commits (the default, with
    BatchWrite off) writes every row exactly once, in order, or says how far it
    got.  It always returns (the bisection ends).  On success the
    write-only commits it made carry, concatenated, exactly the insert mutations
    of the bound rows in order, and the count is their number.  On failure there
    is a row [mid] such that exactly the rows before it were acknowledged, each
    once and in order, and the error is the failed row conversion or failed write
    annotated with [mid] as the number of rows already committed; the one other
    failure is [NotFound] for an append of no rows. *)
Theorem ingest_writes_each_row_once w :
  autocommit (w_txn w) = true -> ingest_batch_write self = false ->
  exists w' r, run_ingest_mutations env self table w = Some (w', r) /\
  match r with
  | Ok n => n = Some (Z.of_nat (length rows)) /\
      exists evs, w_trace w' = w_trace w ++ evs /\
        try_map (row_mutation target) rows = Ok (acknowledged limit evs)
  | Err e =>
      (exists evs mid e0, w_trace w' = w_trace w ++ evs /\ mid < length rows /\
         try_map (row_mutation target) (take mid rows) = Ok (acknowledged limit evs) /\
         e = note_rows_already_committed e0 (Z.of_nat mid) /\
         ((exists stop, mid < stop <= length rows /\
             try_map (row_mutation target) (slice mid stop rows) = Err e0) \/
          write_error self evs e0)) \/
      (rows = [] /\ ingest_mode self = Some Append /\ status e = NotFound)
  end.
Proof.
  intros Hac Hbw. rewrite run_ingest_mutations_autocommit by done.
  destruct (proj1 (wp_elim _ _ _) (ingest_autocommit_result env self table target w Hbw))
    as (w' & r & E & H). exists w', r. split; [done|]. unfold ingest_result in H. destruct r as [n|e].
  - destruct H as [-> (evs & [_ Htr] & Hack)]. rewrite slice_all in Hack. split; [done|]. by exists evs.
  - destruct H as [(evs & mid & e0 & [_ Htr] & Hm & Hack & -> & Hc)|(Hl & Hm & Hs & _)].
    + left. exists evs, mid, e0. unfold slice in Hack. rewrite drop_0 in Hack.
      rewrite Nat.sub_0_r. split_and!; try done; lia.
    + right. by apply length_zero_iff_nil in Hl.
Qed.


End Contract.

Section Chunking.
Context `{B : Batches} (env : Env) (self : Statement) (table target : rstr).

Lemma row_costs_nonneg :
  (forall b : RecordBatch, 0 <= num_columns b /\ 0 <= get_array_memory_size b)%Z ->
  Forall (fun c => 0 <= c.1 /\ 0 <= c.2)%Z (row_costs self).
Proof.
  intros H. apply Forall_concat, Forall_map, Forall_true. intros b.
  apply Forall_replicate. cbn. destruct (H b). split; [done|]. apply Z.div_pos; lia.
Qed.

(** An autocommit ingest commits chunk by chunk, and no chunk overruns the
    budgets.  The chunks are adjacent ranges that cover the bound rows; each is
    non-empty, and is either a single row or stays within both the mutation
    limit (columns summed over its rows) and the byte budget; and each but the
    last is as long as it can be: with the next row it would overrun one of the
    two.  The sums are true sums: no saturation or wrap-around hides an overrun. *)
Theorem ingest_chunks_within_budget :
  (forall b : RecordBatch, 0 <= num_columns b /\ 0 <= get_array_memory_size b)%Z ->
  let chunks := ingest_chunks self in
  (forall w, ingest_autocommit env self table target w =
     (n ← commit_chunks env self target chunks 0;
      _ ← check_empty_append_target env self table n; mret (Some n)) w) /\
  contiguous 0 (length (flat_rows (bound self))) chunks /\
  (flat_rows (bound self) <> [] -> Forall (chunk_ok (row_costs self)) chunks) /\
  greedy (row_costs self) chunks.
Proof.
  intros H%row_costs_nonneg chunks. split; [intros w; apply ingest_autocommit_chunks|].
  destruct (chunk_bounds_all _ H) as (Hc & Hg & Hok).
  split_and!; [apply ingest_chunks_contiguous| |done].
  intros Hne. apply Hok. rewrite <- length_zero_iff_nil, row_costs_length.
  by rewrite length_zero_iff_nil.
Qed.

(** A BatchWrite chunk accounts exactly for a non-atomic load.  It makes one
    call, with one group per row in order.  If the call finishes, the result is
    success with the number of groups reported as applied when no group failed and
    the stream ended cleanly, and otherwise the transport error or else the first
    failed group's error, annotated with the rows of the earlier chunks plus the
    groups of this one that did apply.  If a cancel or the deadline comes first,
    the error is the plain cancellation or timeout: unlike on the write-only path
    it reports none of the rows the earlier chunks committed. *)
Theorem batch_write_counts_applied mutations prior w :
  mutations <> [] -> slot_cancelled (w_slots w) (st_slot self) = false ->
  let c := BatchWrite (apply_to_batch_write (request (st_config self))) (map (fun m => [m]) mutations) in
  let rep := env (w_trace w) _ c in
  exists w' r, batch_write_chunk env self mutations prior w = Some (w', r) /\ quiet w w' [Ev c rep] /\
    r = if r_cancelled rep then Err cancelled_err
        else match update_timeout (timeouts (st_config self)), r_expired rep, r_outcome rep with
             | Some limit, true, _ => Err (timeout_err limit OPTION_RPC_TIMEOUT_UPDATE)
             | _, _, inl responses => batch_write_report responses prior
             | _, _, inr e => Err (note_rows_already_committed (from_spanner e) prior)
             end.
Proof.
  intros Hne Hs c rep. apply wp_elim. unfold batch_write_chunk.
  rewrite decide_False by (by rewrite length_zero_iff_nil).
  apply wp_perform_then; [congruence|]. intros _ w' _ Hq _. split; [done|].
  unfold call_result, with_timeout. fold c. fold rep.
  destruct (r_cancelled rep); [done|].
  destruct (update_timeout _), (r_expired rep), (r_outcome rep); try done;
    rewrite batch_write_loop_acc; unfold batch_write_report; by destruct (received _).
Qed.

End Chunking.

(** A server that refuses a write-only commit of more than [n] mutations, and
    otherwise succeeds. *)
Definition capped_env (n : nat) : Env (SC := example_client) := fun _ A c =>
  let ok {X} (x : X) : Reply (SC := example_client) X := mkReply (SC := example_client) (inl x) false false in
  match c in Call A return Reply (SC := example_client) A with
  | WriteOnly _ m =>
      if decide (length m <= n) then ok None
      else mkReply (SC := example_client) (inr (mkSpannerError (Some (CodeInvalidArgument, []))
             (str "The transaction contains too many mutations."))) false false
  | RunBatch _ _ _ => ok ([], None)
  | RunReturning _ _ => ok ([], None)
  | PartitionedDml _ _ => ok 0%Z
  | UpdateDatabaseDdl _ _ => ok tt
  | BuildReadOnly _ => ok (0 : RoTxn (SpannerClient := example_client))
  | ExecuteQuery _ _ => ok (mkResultSet (SC := example_client) None [])
  | NextChunk => ok tt
  | PlanDml _ _ => ok None
  | ExecutePartition _ => ok (mkResultSet (SC := example_client) None [])
  | PartitionQuery _ _ => ok []
  | BatchWrite _ g => ok [inl (mkBatchWriteResponse None (Z.of_nat (length g)))]
  end.

Definition ingest_example : Statement (B := example_batches) :=
  example_statement None (Some (str "t")) [str "a"; str "b"; str "c"].

(** Three rows against a server that takes one at a time: two bisections, and
    every row arrives. *)
Lemma ingest_writes_each_row_once_witness :
  let w := example_world (mkTxnState true Unset) in
  let run := run_ingest_mutations (B := example_batches) (capped_env 1) ingest_example (str "t") w in
  (exists w', run = Some (w', Ok (Some 3%Z)) /\ length (w_trace w') = 5) /\
  exists w' r, run = Some (w', r) /\
    match r with
    | Ok n => n = Some 3%Z
    | Err e => True
    end.
Proof.
  split.
  - eexists. split; [vm_compute; reflexivity|reflexivity].
  - destruct (ingest_writes_each_row_once (B := example_batches) (capped_env 1) ingest_example (str "t")
      (example_world (mkTxnState true Unset)) eq_refl eq_refl) as (w' & r & E & H).
    exists w', r. split; [exact E|]. destruct r as [n|e]; [exact (proj1 H)|done].
Defined.

Lemma ingest_chunks_within_budget_witness :
  ingest_chunks ingest_example = [(0, 3)] /\
  Forall (chunk_ok (row_costs ingest_example)) (ingest_chunks ingest_example).
Proof.
  split; [vm_compute; reflexivity|].
  refine (proj1 (proj2 (proj2 (ingest_chunks_within_budget (B := example_batches) (capped_env 1)
    ingest_example (str "t") (str "t") _))) _); [|done].
  intros b. cbn. lia.
Defined.

Lemma batch_write_counts_applied_witness :
  exists w' r, batch_write_chunk (B := example_batches) (capped_env 1) ingest_example [str "a"; str "b"] 7
                 (example_world (mkTxnState true Unset)) = Some (w', r) /\ r = Ok 2%Z.
Proof.
  destruct (batch_write_counts_applied (B := example_batches) (capped_env 1) ingest_example
    [str "a"; str "b"] 7 (example_world (mkTxnState true Unset)) ltac:(done) eq_refl) as (w' & r & E & _ & H).
  exists w', r. split; [exact E|]. rewrite H. reflexivity.
Defined.
