(* ===== verification/StatementFacts.v ===== *)
(** * Execution: routing, buffering, termination

    [runs R m]: whenever the handler [m] returns, the world before and after are
    related by [R].  The rules follow the handlers, so that a property of every
    call a path can make is proved by walking its code. *)

From S2P Require Import Prelude RustStr RustNum ErrorModel Options DirectedRead Staleness Config.
From S2P Require Import Sql Runtime Stream Txn Client Wp Connection TxnSystem StatementState Ingest Statement.
From S2P Require Import IngestFacts.

(** ** Walking a handler *)

Section Runs.
Context {SC : SpannerClient}.

Definition runs (R : World -> World -> Prop) {A} (m : M A) : Prop :=
  forall w, wlp m (fun w' _ => R w w') w.

(** The events between two worlds satisfy [P]. *)
Definition traces (P : Event -> Prop) (w w' : World) : Prop :=
  exists evs, w_trace w' = w_trace w ++ evs /\ Forall P evs.

(** ... and the transaction's mode and buffered work are the same. *)
Definition follows (P : Event -> Prop) (w w' : World) : Prop :=
  traces P w w' /\ autocommit (w_txn w') = autocommit (w_txn w) /\
  work_of (txn (w_txn w')) = work_of (txn (w_txn w)).

#[global] Instance traces_preorder P : PreOrder (traces P).
Proof.
  split.
  - intros w. exists []. by rewrite app_nil_r.
  - intros w1 w2 w3 (e1 & H1 & F1) (e2 & H2 & F2). exists (e1 ++ e2).
    rewrite H2, H1, app_assoc. split; [done|]. by apply Forall_app.
Qed.

#[global] Instance follows_preorder P : PreOrder (follows P).
Proof.
  split.
  - intros w. split; [reflexivity|done].
  - intros w1 w2 w3 (H1 & A1 & W1) (H2 & A2 & W2). split; [by etrans|]. split; congruence.
Qed.

Lemma follows_traces P w w' : follows P w w' -> traces P w w'.
Proof. by intros []. Qed.

Lemma traces_mono (P Q : Event -> Prop) w w' : (forall ev, P ev -> Q ev) -> traces P w w' -> traces Q w w'.
Proof. intros H (evs & E & F). exists evs. split; [done|]. by eapply Forall_impl. Qed.

Lemma follows_mono (P Q : Event -> Prop) w w' : (forall ev, P ev -> Q ev) -> follows P w w' -> follows Q w w'.
Proof. intros H [HT HW]. split; [by eapply traces_mono|done]. Qed.

(** What a relation must allow for the handlers' own steps. *)
Class Frame (R : World -> World -> Prop) : Prop := {
  frame_preorder :: PreOrder R;
  frame_same w w' : w_txn w' = w_txn w -> w_trace w' = w_trace w -> R w w';
}.

#[global] Instance traces_frame P : Frame (traces P).
Proof. split; [apply _|]. intros w w' _ E. exists []. by rewrite app_nil_r. Qed.

#[global] Instance follows_frame P : Frame (follows P).
Proof. split; [apply _|]. intros w w' E1 E2. split; [by apply frame_same|by rewrite E1]. Qed.

Section Rules.
Context (env : Env) (R : World -> World -> Prop) {FR : Frame R}.

Lemma runs_ret {A} (a : A) : runs R (mret a).
Proof. intros w. cbn. reflexivity. Qed.

Lemma runs_lift {A} (r : Result A) : runs R (lift r).
Proof. intros w. cbn. reflexivity. Qed.

Lemma runs_throw {A} e : runs R (throw (A := A) e).
Proof. intros w. cbn. reflexivity. Qed.

Lemma runs_read_cells {A} (f : Cells -> A) : runs R (read_cells f).
Proof. intros w. cbn. reflexivity. Qed.

Lemma runs_update_cells f : runs R (update_cells f).
Proof. intros w. cbn. by apply frame_same. Qed.

Lemma runs_begin_operation slot : runs R (begin_operation slot).
Proof. intros w. cbn. by apply frame_same. Qed.

Lemma runs_inspect {A} (f : TxnState SpannerSql Mutation RoTxn -> Result A) :
  runs R (locked (fun st => Some (st, f st))).
Proof. intros w. cbn. by apply frame_same. Qed.

Lemma runs_pure {A} (f : World -> Result A) : runs R (fun w => Some (w, f w)).
Proof. intros w. cbn. reflexivity. Qed.

Lemma runs_bind {A B} (m : M A) (f : A -> M B) : runs R m -> (forall a, runs R (f a)) -> runs R (m ≫= f).
Proof.
  intros Hm Hf w. apply wlp_bind. eapply wlp_mono; [apply Hm|]. intros w1 [a|e] H1; [|done].
  eapply wlp_mono; [apply Hf|]. intros w2 r H2. by etrans.
Qed.

Lemma runs_catch {A} (m : M A) : runs R m -> runs R (catch m).
Proof. intros H w. specialize (H w). unfold wlp, catch in *. by destruct (m w) as [[]|]. Qed.

Lemma runs_perform_then {A B} slot limit opt (c : Call A) (f : A + SpannerError -> Result B) :
  (forall w w' rep, w_txn w' = w_txn w -> w_trace w' = w_trace w ++ [Ev c rep] -> R w w') ->
  runs R (perform_then env slot limit opt c f).
Proof.
  intros H w. apply wp_wlp, wp_perform_then; [intros _; reflexivity|].
  intros _ w' _ [Ht Htr] _. by eapply H.
Qed.

Lemma runs_stuck {A} : runs R (fun _ => @None (World * Result A)).
Proof. by intros w. Qed.

End Rules.

Lemma traces_event P {A} (c : Call A) :
  (forall rep, P (Ev c rep)) ->
  forall w w' rep, w_txn w' = w_txn w -> w_trace w' = w_trace w ++ [Ev c rep] -> traces P w w'.
Proof. intros HP w w' rep _ E. exists [Ev c rep]. split; [done|]. by constructor. Qed.

Lemma follows_event P {A} (c : Call A) :
  (forall rep, P (Ev c rep)) ->
  forall w w' rep, w_txn w' = w_txn w -> w_trace w' = w_trace w ++ [Ev c rep] -> follows P w w'.
Proof. intros HP w w' rep Et E. split; [by eapply traces_event|by rewrite Et]. Qed.

End Runs.

Create HintDb runs.

(** Walk one construct of the handler. *)
Ltac runs_step :=
  match goal with
  | |- runs _ (_ ≫= _) => apply runs_bind; [apply _| |intro]
  | |- runs _ (mret _) => apply runs_ret; apply _
  | |- runs _ (lift _) => apply runs_lift; apply _
  | |- runs _ (throw _) => apply runs_throw; apply _
  | |- runs _ (read_cells _) => apply runs_read_cells; apply _
  | |- runs _ (update_cells _) => apply runs_update_cells; apply _
  | |- runs _ (begin_operation _) => apply runs_begin_operation; apply _
  | |- runs _ (catch _) => apply runs_catch
  | |- runs _ (locked (fun st => Some (st, _))) => apply runs_inspect; apply _
  | |- runs _ (fun w => Some (w, _)) => apply runs_pure; apply _
  | |- runs _ (fun _ => None) => apply runs_stuck
  | |- runs (traces _) (perform _ _ _ _ _) =>
      apply runs_perform_then; [apply _|apply traces_event; intro; cbn; solve [auto]]
  | |- runs (traces _) (perform_then _ _ _ _ _ _) =>
      apply runs_perform_then; [apply _|apply traces_event; intro; cbn; solve [auto]]
  | |- runs (follows _) (perform _ _ _ _ _) =>
      apply runs_perform_then; [apply _|apply follows_event; intro; cbn; solve [auto]]
  | |- runs (follows _) (perform_then _ _ _ _ _ _) =>
      apply runs_perform_then; [apply _|apply follows_event; intro; cbn; solve [auto]]
  | |- runs _ (match ?x with _ => _ end) => destruct x
  | |- runs _ _ => solve [auto with runs]
  end.
Ltac runs := repeat runs_step.

(** ** The calls of each path *)

Section Calls.
Context `{F : Formats} (env : Env).

(** Calls that write nothing and begin no read/write transaction. *)
Definition read_call (ev : Event) : Prop :=
  match ev with
  | Ev c _ => match c with
              | BuildReadOnly _ | ExecuteQuery _ _ | NextChunk | ExecutePartition _ | PartitionQuery _ _ => True
              | _ => False
              end
  end.

(** DML in one read/write or partitioned transaction. *)
Definition dml_call (ev : Event) : Prop :=
  match ev with
  | Ev c _ => match c with
              | RunBatch _ (Some _) [] | RunReturning _ _ | PartitionedDml _ _ => True
              | _ => False
              end
  end.

(** One schema change with exactly these statements. *)
Definition ddl_call (database : rstr) (statements : list rstr) (ev : Event) : Prop :=
  match ev with Ev c _ => match c with
                          | UpdateDatabaseDdl d s => d = database /\ s = statements
                          | _ => False
                          end
  end.

(** Blind writes, the table's DDL and the existence probe. *)
Definition ingest_call (ev : Event) : Prop :=
  match ev with
  | Ev c _ => match c with
              | WriteOnly _ _ | BatchWrite _ _ | UpdateDatabaseDdl _ _ => True
              | ExecuteQuery (inl None) _ => True
              | _ => False
              end
  end.

Context (self : Statement).

Lemma runs_install t : runs (follows read_call) (locked (install_section t)).
Proof.
  intros w. unfold wlp, locked, install_section. destruct (autocommit (w_txn w)) eqn:Hac.
  - by apply frame_same.
  - destruct (start_read_txn (w_txn w) t) as [st' r] eqn:E.
    destruct (start_read_txn_section _ _ _ _ E Hac) as (Ha & Hw & _). cbn.
    split; [exists []; by rewrite app_nil_r|]. cbn. by rewrite Ha, Hw, Hac.
Qed.
#[local] Hint Resolve runs_install : runs.

Lemma runs_manual_read_transaction : runs (follows read_call) (manual_read_transaction env self).
Proof. unfold manual_read_transaction. runs. Qed.
#[local] Hint Resolve runs_manual_read_transaction : runs.

Lemma runs_plan_query_schema q : runs (follows read_call) (plan_query_schema env self q).
Proof. unfold plan_query_schema. runs. Qed.
#[local] Hint Resolve runs_plan_query_schema : runs.

Lemma runs_run_query t b st : runs (follows read_call) (run_query env self t b st).
Proof. unfold run_query. runs. Qed.
#[local] Hint Resolve runs_run_query : runs.

Lemma runs_stream_bound_query slot qt t sts bs p ft :
  runs (follows read_call) (stream_bound_query env slot qt t sts bs p ft).
Proof. unfold stream_bound_query. runs. Qed.
#[local] Hint Resolve runs_stream_bound_query : runs.

Lemma runs_execute_bound_query q : runs (follows read_call) (execute_bound_query env self q).
Proof. unfold execute_bound_query. runs. Qed.

Lemma runs_execute_plain_query q : runs (follows read_call) (execute_plain_query env self q).
Proof. unfold execute_plain_query. runs. Qed.

Lemma runs_bound_chunk fuel slot bs ft t sts items :
  runs (follows read_call) (bound_chunk env fuel slot bs ft t sts items).
Proof. revert sts items. induction fuel as [|fuel IH]; intros sts items; cbn [bound_chunk]; runs; apply IH. Qed.
#[local] Hint Resolve runs_bound_chunk : runs.

Lemma runs_next_chunk slot bs ft source : runs (follows read_call) (next_chunk env slot bs ft source).
Proof. unfold next_chunk. runs. Qed.
#[local] Hint Resolve runs_next_chunk : runs.

Lemma runs_drain_source fuel slot s bs ft source :
  runs (follows read_call) (drain_source env fuel slot s bs ft source).
Proof. revert source. induction fuel as [|fuel IH]; intros source; cbn [drain_source]; runs; apply IH. Qed.
#[local] Hint Resolve runs_drain_source : runs.

Lemma runs_drain fuel slot reader : runs (follows read_call) (drain_discarding_rows env fuel slot reader).
Proof. unfold drain_discarding_rows. runs. Qed.

Lemma runs_run_partition_query q : runs (follows read_call) (run_partition_query env self q).
Proof. unfold run_partition_query. runs. Qed.

(** DML and ingest may buffer work; every call they make is their own. *)
Lemma runs_run_or_buffer sts : runs (traces dml_call) (run_or_buffer env self sts).
Proof.
  unfold run_or_buffer. apply runs_bind; [apply _| |intros b].
  { intros w. unfold wlp, locked, buffer_section. destruct (autocommit (w_txn w)); [by apply frame_same|].
    destruct (buffer_dml _ _). cbn. exists []. by rewrite app_nil_r. }
  destruct b; [runs|]. apply runs_bind; [apply _| |intros; runs].
  unfold run_batch_txn. case_decide; [runs|]. rewrite decide_False by naive_solver. runs.
Qed.
#[local] Hint Resolve runs_run_or_buffer : runs.

Lemma runs_execute_returning sts : runs (traces dml_call) (execute_returning_dml env self sts).
Proof. unfold execute_returning_dml. runs. Qed.
#[local] Hint Resolve runs_execute_returning : runs.

Lemma runs_partitioned q : runs (traces dml_call) (run_partitioned_dml env self q).
Proof. unfold run_partitioned_dml. runs. Qed.
#[local] Hint Resolve runs_partitioned : runs.

Lemma runs_run_dml q : runs (traces dml_call) (run_dml env self q).
Proof. unfold run_dml. runs. Qed.

Lemma runs_table_exists slot limit d t : runs (traces ingest_call) (table_exists env slot limit d t).
Proof. unfold table_exists. runs. Qed.
#[local] Hint Resolve runs_table_exists : runs.

Lemma runs_check_empty table n : runs (traces ingest_call) (check_empty_append_target env self table n).
Proof. unfold check_empty_append_target, ingest_table_exists. runs. Qed.
#[local] Hint Resolve runs_check_empty : runs.

Lemma runs_write_mutation_range fuel target a b prior :
  runs (traces ingest_call) (write_mutation_range env self fuel target a b prior).
Proof.
  revert a b prior. induction fuel as [|fuel IH]; intros a b prior; cbn [write_mutation_range];
    unfold write_mutations_txn; runs; apply IH.
Qed.
#[local] Hint Resolve runs_write_mutation_range : runs.

Lemma runs_commit_ingest_range target a b prior :
  runs (traces ingest_call) (commit_ingest_range env self target a b prior).
Proof. unfold commit_ingest_range, batch_write_chunk. runs. Qed.
#[local] Hint Resolve runs_commit_ingest_range : runs.

Lemma runs_chunk_loop target costs total budget a b :
  runs (traces ingest_call) (chunk_loop env self target costs total budget a b).
Proof. revert total budget a b. induction costs as [|[c n] costs IH]; intros; cbn [chunk_loop]; runs; apply IH. Qed.
#[local] Hint Resolve runs_chunk_loop : runs.

Lemma runs_ingest_autocommit table target : runs (traces ingest_call) (ingest_autocommit env self table target).
Proof. unfold ingest_autocommit. runs. Qed.
#[local] Hint Resolve runs_ingest_autocommit : runs.

Lemma runs_run_ingest_mutations table : runs (traces ingest_call) (run_ingest_mutations env self table).
Proof.
  unfold run_ingest_mutations. runs. intros w. unfold wlp, locked, ingest_buffer_section.
  destruct (autocommit (w_txn w)); [by apply frame_same|].
  destruct (buffer_mutations _ _). cbn. exists []. by rewrite app_nil_r.
Qed.
#[local] Hint Resolve runs_run_ingest_mutations : runs.

Lemma runs_run_bound_ingest table : runs (traces ingest_call) (run_bound_ingest env self table).
Proof.
  unfold run_bound_ingest, run_ddl, remap_ingest_create_error, remap_ingest_append_error, ingest_table_exists.
  runs.
Qed.

Lemma runs_run_ddl statements :
  runs (follows (ddl_call (st_database self) statements)) (run_ddl env self statements).
Proof. unfold run_ddl. runs. Qed.

End Calls.

(** ** Lazily built statements *)

Section Lazy.
Context `{F : Formats}.

Definition group_statements (base : StatementBuilder) (g : list rstr * RecordBatch) (from : nat) :
    list (Result SpannerSql) :=
  map (bind_params base g.1 g.2) (seq from (num_rows g.2 - from)).

(** What a lazy source still has to yield. *)
Definition pending_lazy (l : LazyBoundStatements) : list (Result SpannerSql) :=
  match groups l !! group l with
  | Some g => group_statements (base_builder l) g (row l) ++
      concat (map (fun g => group_statements (base_builder l) g 0) (drop (S (group l)) (groups l)))
  | None => []
  end.

Lemma pending_lazy_0 l :
  row l = 0 -> pending_lazy l =
    concat (map (fun g => group_statements (base_builder l) g 0) (drop (group l) (groups l))).
Proof.
  intros H. unfold pending_lazy. rewrite H. destruct (groups l !! group l) as [g|] eqn:E.
  - by rewrite (drop_S _ _ _ E).
  - apply lookup_ge_None in E. by rewrite drop_ge.
Qed.

Lemma statements_left_pending l : statements_left l = length (pending_lazy l).
Proof.
  unfold statements_left, pending_lazy. destruct (groups l !! group l) as [[n b]|]; [|done].
  rewrite length_app. unfold group_statements at 1; cbn. rewrite length_map, length_seq. f_equal.
  induction (drop _ _) as [|g gs IH]; [done|]. cbn. unfold group_statements at 1.
  rewrite length_app, length_map, length_seq, IH. lia.
Qed.

Lemma next_statement_loop_spec fuel l :
  length (groups l) <= group l + fuel ->
  match next_statement_loop fuel l with
  | (l', None) => pending_lazy l = [] /\ pending_lazy l' = []
  | (l', Some r) => pending_lazy l = r :: pending_lazy l'
  end.
Proof.
  revert l. induction fuel as [|fuel IH]; intros l Hf; cbn [next_statement_loop];
    destruct (groups l !! group l) as [[names b]|] eqn:E.
  - apply lookup_lt_Some in E. lia.
  - unfold pending_lazy. by rewrite E.
  - case_decide as Hd.
    + set (l1 := mkLazy _ _ _ _).
      assert (pending_lazy l = pending_lazy l1) as ->.
      { rewrite (pending_lazy_0 l1) by done. unfold pending_lazy. rewrite E. unfold group_statements at 1. cbn.
        by replace (num_rows b - row l) with 0 by lia. }
      apply IH. cbn. lia.
    + unfold pending_lazy; cbn. rewrite E. unfold group_statements at 1 3; cbn.
      by replace (num_rows b - row l) with (S (num_rows b - S (row l))) by lia.
  - unfold pending_lazy. by rewrite E.
Qed.

Lemma next_statement_spec l :
  match next_statement l with
  | (l', None) => pending_lazy l = [] /\ pending_lazy l' = []
  | (l', Some r) => pending_lazy l = r :: pending_lazy l'
  end.
Proof. apply next_statement_loop_spec. lia. Qed.

(** Every statement the source yields, in order. *)
Fixpoint collect_lazy (fuel : nat) (l : LazyBoundStatements) : option (list (Result SpannerSql)) :=
  match fuel with
  | O => None
  | S f => match next_statement l with
           | (_, None) => Some []
           | (l', Some r) => cons r <$> collect_lazy f l'
           end
  end.

Lemma collect_lazy_pending fuel l : statements_left l < fuel -> collect_lazy fuel l = Some (pending_lazy l).
Proof.
  rewrite statements_left_pending. revert l. induction fuel as [|fuel IH]; intros l Hf; [lia|].
  cbn [collect_lazy]. pose proof (next_statement_spec l) as H.
  destruct (next_statement l) as [l' [r|]].
  - rewrite H in Hf |- *. cbn in Hf. by rewrite IH by lia.
  - by destruct H as [-> _].
Qed.

Lemma bind_rows_try_map self q names b rows :
  bind_rows self q names b rows = try_map (bind_params (sql_builder self q) names b) rows.
Proof. induction rows as [|i rows IH]; [done|]. cbn. by rewrite IH. Qed.

(** The eager path, over the same groups. *)
Lemma build_bound_statements_groups self q gs :
  bound_groups self q = Ok gs ->
  build_bound_statements self q =
  try_map id (concat (map (fun g => map (bind_params (sql_builder self q) g.1 g.2) (seq 0 (num_rows g.2))) gs)).
Proof.
  unfold bound_groups, build_bound_statements. revert gs.
  induction (bound self) as [|b bs IH]; intros gs Hgs; [cbn in Hgs; by simplify_eq|].
  rewrite filter_cons in Hgs. cbn [try_map]. destruct (decide (num_rows b = 0)) as [Hz|Hz].
  - rewrite decide_False in Hgs by tauto. rewrite <- (IH _ Hgs). unfold mbind, Result_mbind.
    by destruct (try_map _ bs).
  - rewrite decide_True in Hgs by done. cbn [try_map] in Hgs. unfold mbind, Result_mbind in *.
    destruct (resolve_parameter_names q b (bind_by_name self)) as [names|]; [|done].
    destruct (try_map _ (filter _ bs)) as [gs'|]; [|done]. simplify_eq.
    cbn [map concat fst snd]. rewrite try_map_app. unfold mbind, Result_mbind. rewrite <- (IH gs' eq_refl).
    rewrite bind_rows_try_map, try_map_map. unfold id at 1.
    destruct (try_map _ (seq _ _)); [|done]. by destruct (try_map _ bs).
Qed.

(** The statements a bound query builds lazily are exactly those the eager
    path builds.  From the batches' resolved names, iterating [next_statement] to
    its end yields one statement per bound row, batch by batch and row by row,
    each bound from its own row, and stops; with the eager path's builder, the
    sequence (up to its first bind failure) is what [build_bound_statements]
    returns. *)
Theorem lazy_statements_are_eager self q gs base :
  bound_groups self q = Ok gs ->
  let lazy b := collect_lazy (S (sum_list_with (fun g => num_rows g.2) gs)) (mkLazy b gs 0 0) in
  lazy base = Some (concat (map (fun g => map (bind_params base g.1 g.2) (seq 0 (num_rows g.2))) gs)) /\
  try_map id <$> lazy (sql_builder self q) = Some (build_bound_statements self q).
Proof.
  intros Hgs.
  assert (forall b, collect_lazy (S (sum_list_with (fun g => num_rows g.2) gs)) (mkLazy b gs 0 0) =
    Some (concat (map (fun g => map (bind_params b g.1 g.2) (seq 0 (num_rows g.2))) gs))) as Hl.
  { intros b. rewrite collect_lazy_pending.
    - rewrite pending_lazy_0 by done. cbn [base_builder groups group]. rewrite drop_0.
      unfold group_statements. do 2 f_equal. apply map_ext. intros g. by rewrite Nat.sub_0_r.
    - unfold statements_left; cbn. destruct gs as [|[n b'] gs]; cbn; [lia|]. rewrite drop_0. lia. }
  split; [apply Hl|]. rewrite Hl. cbn [fmap option_fmap option_map]. f_equal. symmetry.
  by apply build_bound_statements_groups.
Qed.

End Lazy.


(** ** Routing *)

Section Routing.
Context `{F : Formats} (env : Env).

(** What a statement's configuration makes its execution do. *)
Inductive Route :=
  | RNone
  | RIngest (table : rstr)
  | RDdl (q : rstr)
  | RDml (q : rstr)
  | RQuery (q : rstr).

Definition route (self : Statement) : Route :=
  match st_sql self, target_table self with
  | Some q, _ => if is_ddl q then RDdl q else if is_dml q then RDml q else RQuery q
  | None, Some table => RIngest table
  | None, None => RNone
  end.

Definition no_call (ev : Event) : Prop := False.

(** The calls an execution may make, and whether it may change the transaction. *)
Definition routed (self : Statement) (read_only : bool) : World -> World -> Prop :=
  match route self with
  | RNone => follows no_call
  | RQuery _ => follows read_call
  | RDdl q => if read_only then follows no_call
              else follows (ddl_call (st_database self) (split_statements q))
  | RDml _ => if read_only then follows no_call else traces dml_call
  | RIngest _ => if read_only then follows no_call else traces ingest_call
  end.

Lemma SM_bind_inv {X Y} (m : SM X) (f : X -> SM Y) self w w' self' r :
  SM_bind m f self w = Some (w', self', r) ->
  exists w1 self1 r1, m self w = Some (w1, self1, r1) /\
    match r1 with
    | Ok a => f a self1 w1 = Some (w', self', r)
    | Err e => w' = w1 /\ self' = self1 /\ r = Err e
    end.
Proof.
  unfold SM_bind. destruct (m self w) as [[[w1 self1] r1]|]; [|done]. cbn.
  intros H. exists w1, self1, r1. split; [done|]. destruct r1; [done|]. by simplify_eq.
Qed.

Lemma runs_keeping R {A} (m : Statement -> M A) self w w' self' r :
  runs R (m self) -> keeping m self w = Some (w', self', r) -> R w w' /\ self' = self.
Proof.
  intros Hr. unfold keeping. specialize (Hr w). unfold wlp in Hr.
  destruct (m self w) as [[w1 r1]|]; [|done]. cbn. intros [= <- <- <-]. done.
Qed.

Lemma runs_consuming R {A} (m : Statement -> M A) self w w' self' r :
  runs R (m self) -> consuming m self w = Some (w', self', r) -> R w w' /\ self' = clear_bound self.
Proof.
  intros Hr. unfold consuming. specialize (Hr w). unfold wlp in Hr.
  destruct (m self w) as [[w1 r1]|]; [|done]. cbn. intros [= <- <- <-]. done.
Qed.

Lemma runs_ensure_query_allowed R `{!Frame R} : runs R ensure_query_allowed.
Proof. unfold ensure_query_allowed. runs. Qed.

Lemma execute_query_reader_calm q self w w' self' r :
  execute_query_reader env q self w = Some (w', self', r) ->
  follows read_call w w' /\ (self' = self \/ self' = clear_bound self).
Proof.
  unfold execute_query_reader. intros (w1 & self1 & r1 & H1 & H2)%SM_bind_inv.
  eapply runs_keeping in H1 as [Hf ->]; [|by apply runs_ensure_query_allowed, follows_frame].
  destruct r1 as [u|e]; [|naive_solver]. destruct (bound self).
  - eapply runs_keeping in H2 as [Hf2 ->]; [|apply runs_execute_plain_query]. split; [by etrans|by left].
  - eapply runs_consuming in H2 as [Hf2 ->]; [|apply runs_execute_bound_query]. split; [by etrans|by right].
Qed.

Lemma run_ddl_read_only self sts w :
  is_read_only (w_cells w) (st_config self) = true ->
  exists e, run_ddl env self sts w = Some (w, Err e) /\ status e = InvalidState.
Proof. intros H. unfold run_ddl, read_cells, mbind, M_bind. rewrite H. by eexists. Qed.

Lemma run_dml_read_only self q w :
  is_read_only (w_cells w) (st_config self) = true ->
  exists e, run_dml env self q w = Some (w, Err e) /\ status e = InvalidState.
Proof. intros H. unfold run_dml, read_cells, mbind, M_bind. rewrite H. by eexists. Qed.

Lemma run_ddl_text_routed q self w w' self' r :
  run_ddl_text env q self w = Some (w', self', r) ->
  (if is_read_only (w_cells w) (st_config self) then follows no_call w w'
   else follows (ddl_call (st_database self) (split_statements q)) w w') /\
  self' = match r with Ok _ => clear_bound self | Err _ => self end.
Proof.
  unfold run_ddl_text. intros (w1 & self1 & r1 & H1 & H2)%SM_bind_inv.
  assert (w' = w1 /\ self' = match r with Ok _ => clear_bound self1 | Err _ => self1 end) as [-> Hs]
    by (destruct r1; naive_solver).
  destruct (is_read_only _ _) eqn:Hro.
  - unfold keeping in H1. destruct (run_ddl_read_only _ (split_statements q) _ Hro) as (e & He & _).
    rewrite He in H1. cbn in H1. simplify_eq. split; [reflexivity|done].
  - eapply runs_keeping in H1 as [Hf ->]; [|apply runs_run_ddl]. done.
Qed.

Lemma run_dml_routed q self w w' self' r :
  consuming (fun self => run_dml env self q) self w = Some (w', self', r) ->
  (if is_read_only (w_cells w) (st_config self) then follows no_call w w' else traces dml_call w w') /\
  self' = clear_bound self.
Proof.
  destruct (is_read_only _ _) eqn:Hro; intros H.
  - unfold consuming in H. destruct (run_dml_read_only _ q _ Hro) as (e & He & _).
    rewrite He in H. cbn in H. simplify_eq. split; [reflexivity|done].
  - by eapply runs_consuming in H; [|apply runs_run_dml].
Qed.

Lemma run_ingest_routed table self w w' self' r :
  run_ingest env self table w = Some (w', self', r) ->
  (if is_read_only (w_cells w) (st_config self) then follows no_call w w' else traces ingest_call w w') /\
  (self' = self \/ self' = clear_bound self).
Proof.
  unfold run_ingest. destruct (is_read_only _ _); [intros [= <- <- <-]; split; [reflexivity|by left]|].
  case_decide; [intros [= <- <- <-]; split; [reflexivity|by left]|].
  pose proof (runs_run_bound_ingest env self table w) as Hr. unfold wlp in Hr.
  destruct (run_bound_ingest env self table w) as [[w1 r1]|]; [|done]. cbn. intros [= <- <- <-].
  split; [done|by right].
Qed.

#[global] Instance routed_frame self ro : Frame (routed self ro).
Proof. unfold routed. destruct (route self), ro; apply _. Qed.

Lemma destination_sql self q :
  st_sql self = Some q -> (_ ← check_bound_has_destination self; sql self) = Ok q.
Proof.
  intros H. unfold check_bound_has_destination, sql. rewrite H. by rewrite decide_False by naive_solver.
Qed.

Lemma destination_none self :
  st_sql self = None -> exists e, (_ ← check_bound_has_destination self; sql self) = Err e.
Proof. intros H. unfold check_bound_has_destination, sql. rewrite H. case_decide; cbn; by eexists. Qed.

(** The entry points once their operation has begun. *)
Lemma execute_routed self w w' self' r :
  execute env self w = Some (w', self', r) ->
  routed self (is_read_only (w_cells w) (st_config self)) w w' /\ (self' = self \/ self' = clear_bound self).
Proof.
  unfold execute, begin_operation. cbn [mbind option_bind]. set (w0 := mkWorld _ _ _ _). intros H.
  change (is_read_only (w_cells w) (st_config self)) with (is_read_only (w_cells w0) (st_config self)).
  set (ro := is_read_only _ _).
  cut (routed self ro w0 w' /\ (self' = self \/ self' = clear_bound self)).
  { intros [H1 H2]. split; [|done]. transitivity w0; [by apply frame_same|done]. }
  unfold routed, route.
  destruct (st_sql self) as [q|] eqn:Eq.
  - rewrite (destination_sql _ _ Eq) in H. destruct (is_ddl q).
    + apply SM_bind_inv in H as (w1 & self1 & r1 & H1 & H2). apply run_ddl_text_routed in H1 as [Hf ->].
      fold ro in Hf. destruct ro, r1; naive_solver.
    + destruct (is_dml q); [|by eapply execute_query_reader_calm].
      apply SM_bind_inv in H as (w1 & self1 & r1 & H1 & H2). apply run_dml_routed in H1 as [Hf ->].
      fold ro in Hf. destruct ro, r1; naive_solver.
  - destruct (target_table self) as [t|].
    + apply SM_bind_inv in H as (w1 & self1 & r1 & H1 & H2). apply run_ingest_routed in H1 as [Hf Hs].
      fold ro in Hf. destruct ro, r1; naive_solver.
    + destruct (destination_none _ Eq) as [e He]. rewrite He in H. simplify_eq.
      split; [reflexivity|by left].
Qed.

Lemma execute_update_routed fuel self w w' self' r :
  execute_update env fuel self w = Some (w', self', r) ->
  routed self (is_read_only (w_cells w) (st_config self)) w w' /\ (self' = self \/ self' = clear_bound self).
Proof.
  unfold execute_update, begin_operation. cbn [mbind option_bind]. set (w0 := mkWorld _ _ _ _). intros H.
  change (is_read_only (w_cells w) (st_config self)) with (is_read_only (w_cells w0) (st_config self)).
  set (ro := is_read_only _ _).
  cut (routed self ro w0 w' /\ (self' = self \/ self' = clear_bound self)).
  { intros [H1 H2]. split; [|done]. transitivity w0; [by apply frame_same|done]. }
  unfold routed, route.
  destruct (st_sql self) as [q|] eqn:Eq.
  - rewrite (destination_sql _ _ Eq) in H. destruct (is_ddl q).
    + apply SM_bind_inv in H as (w1 & self1 & r1 & H1 & H2). apply run_ddl_text_routed in H1 as [Hf ->].
      fold ro in Hf. destruct ro, r1; naive_solver.
    + destruct (is_dml q); cbn [negb] in H.
      * apply SM_bind_inv in H as (w1 & self1 & r1 & H1 & H2). apply run_dml_routed in H1 as [Hf ->].
        fold ro in Hf. destruct ro, r1; naive_solver.
      * apply SM_bind_inv in H as (w1 & self1 & r1 & H1 & H2). cbn in H1. injection H1 as <- <- <-.
        destruct (check_all_dml_batch _); [|destruct H2 as (-> & -> & _); split; [reflexivity|by left]].
        apply SM_bind_inv in H2 as (w2 & self2 & r2 & H2 & H3).
        apply execute_query_reader_calm in H2 as [Hf Hs].
        destruct r2 as [reader|e]; [|destruct H3 as (-> & -> & _); done].
        apply SM_bind_inv in H3 as (w3 & self3 & r3 & H3 & H4).
        eapply runs_keeping in H3 as [Hf3 ->]; [|apply runs_drain].
        assert (w' = w3 /\ self' = self2) as [-> ->] by (destruct r3; naive_solver).
        split; [by etrans|done].
  - destruct (target_table self) as [t|]; [apply run_ingest_routed in H as [Hf Hs]; fold ro in Hf; by destruct ro|].
    destruct (destination_none _ Eq) as [e He]. rewrite He in H. simplify_eq. split; [reflexivity|by left].
Qed.

(** C4: an execution makes only the calls of its kind, and on a read-only
    connection none that writes.  Through either entry point: a query makes only
    read-only calls and leaves the transaction's mode and buffered work as they
    were; DDL makes at most one schema change, with exactly the statements its
    text splits into; DML runs only in its own read/write or partitioned
    transaction, never on the read or the ingest path; an ingest only issues
    blind writes, its table's DDL and the existence probe; and on a read-only
    connection DDL, DML and ingest make no call at all and buffer nothing.  The
    statement keeps everything but, at most, its bound data. *)
Theorem execution_routed fuel self w w' self' :
  (exists r, execute env self w = Some (w', self', r)) \/
  (exists r, execute_update env fuel self w = Some (w', self', r)) ->
  routed self (is_read_only (w_cells w) (st_config self)) w w' /\
  (self' = self \/ self' = clear_bound self).
Proof.
  intros [[r H]|[r H]]; [by eapply execute_routed|by eapply execute_update_routed].
Qed.

(** ** Destinations *)

(** What a client may do with a statement handle. *)
Inductive st_step : Statement -> Statement -> Prop :=
  | Step_option self k v : st_step self (st_set_option self k v).1
  | Step_query self q : st_step self (set_sql_query self q)
  | Step_bind self b : st_step self (bind self b)
  | Step_bind_stream self s items : st_step self (bind_stream self s items).1
  | Step_execute self w w' self' r :
      execute env self w = Some (w', self', r) -> st_step self self'
  | Step_execute_update fuel self w w' self' r :
      execute_update env fuel self w = Some (w', self', r) -> st_step self self'
  | Step_schema self w w' self' r :
      execute_schema env self w = Some (w', self', r) -> st_step self self'
  | Step_partitions self w w' self' r :
      execute_partitions env self w = Some (w', self', r) -> st_step self self'.

Definition exclusive (self : Statement) : Prop :=
  (st_sql self = None \/ target_table self = None) /\ (bound self = [] \/ ingest_schema self = None) /\
  (0 < rows_per_batch self)%Z.

Lemma exclusive_clear self : exclusive self -> exclusive (clear_bound self).
Proof. intros (H1 & _ & H3). split_and!; [done|by left|done]. Qed.

(** An assignment that fails leaves its target; one that succeeds sets it. *)
Lemma assign_preserves {X Y} (P : X -> Prop) (x : X) (r : Result Y) (f : Y -> X) :
  P x -> (forall y, r = Ok y -> P (f y)) -> P (assign x r f).1.
Proof. unfold assign. destruct r; cbn; auto. Qed.

Lemma positive_usize_pos v what n : positive_usize v what = Ok n -> (0 < n)%Z.
Proof.
  unfold positive_usize, mbind, Result_mbind. destruct (positive_i64 v what); [|done].
  case_decide; cbn; [|done]. intros [= <-]. lia.
Qed.

Lemma set_option_exclusive self k v : exclusive self -> exclusive (st_set_option self k v).1.
Proof.
  intros (H1 & H2 & H3). destruct k as [| | | | | | | |k]; cbn [st_set_option];
    try (by split_and!); try (by apply assign_preserves; [split_and!|intros; split_and!; auto]).
  repeat case_decide; try (apply assign_preserves; [by split_and!|intros y Hy; split_and!; cbn; auto]).
  - by eapply positive_usize_pos.
  - by destruct (set_shared_option _ _ _ _).
Qed.

Lemma st_step_exclusive self self' : exclusive self -> st_step self self' -> exclusive self'.
Proof.
  intros H Hs. pose proof (exclusive_clear _ H) as Hc. destruct Hs as [|self q|self b|self s items| | | |].
  - by apply set_option_exclusive.
  - destruct H as (_ & H2 & H3). split_and!; [by right|done|done].
  - destruct H as (H1 & _ & H3). split_and!; [done|by right|done].
  - destruct H as (H1 & H2 & H3). unfold bind_stream. apply assign_preserves; [by split_and!|].
    intros [|b bs] _; split_and!; cbn; auto.
  - apply execute_routed in H0 as [_ [->| ->]]; done.
  - apply execute_update_routed in H0 as [_ [->| ->]]; done.
  - unfold execute_schema in H0. cbn [begin_operation mbind option_bind] in H0.
    case_match; [|by simplify_eq]. unfold keeping in H0.
    destruct (plan_query_schema _ _ _ _) as [[]|]; by simplify_eq/=.
  - unfold execute_partitions in H0. cbn [begin_operation mbind option_bind] in H0.
    case_match; [|by simplify_eq]. apply SM_bind_inv in H0 as (w1 & s1 & r1 & Hk & Hn).
    eapply runs_keeping in Hk as [_ ->]; [|by apply runs_ensure_query_allowed, (follows_frame read_call)].
    destruct r1; [|naive_solver]. eapply runs_consuming in Hn as [_ ->]; [done|apply runs_run_partition_query].
Qed.

(** A statement has at most one destination, and it is the last one set.
    Whatever a client does with a handle (options accepted or rejected, queries,
    binding, executions that succeed or fail), it never holds both a SQL query
    and an ingest target, nor both bound rows and an empty stream's schema, and
    its batch size is positive; from any such state, setting a query makes the
    next execution run that query, setting a target table makes it ingest into
    that table, and neither drops the bound data. *)
Theorem destination_exclusive database config slot self :
  rtc st_step (Statement_new database config slot) self ->
  exclusive self /\
  (forall q, let self' := set_sql_query self q in
     route self' = (if is_ddl q then RDdl q else if is_dml q then RDml q else RQuery q) /\
     bound self' = bound self /\ ingest_schema self' = ingest_schema self) /\
  (forall t, let self' := (st_set_option self OsTargetTable (OString t)).1 in
     route self' = RIngest t /\ bound self' = bound self /\ ingest_schema self' = ingest_schema self).
Proof.
  intros H. split; [|split; [done|]].
  - remember (Statement_new database config slot) as s0 eqn:E.
    assert (exclusive s0) as H0 by (subst; split_and!; cbn; [by left|by left|done]).
    clear E. induction H; [done|]. apply IHrtc. by eapply st_step_exclusive.
  - intros t. done.
Qed.

End Routing.

(** ** DML *)

Section Dml.
Context `{F : Formats} (env : Env).

(** The one call of an autocommit DML batch. *)
Definition batch_call (self : Statement) (sts : list SpannerSql) : Call (list Z * option Z) :=
  let c := st_config self in
  RunBatch (build_runner (isolation c) (request c) (retry c))
    (Some (batch_dml (request c) (retry c) true sts)) [].

(** What applying the statements [sts] does, by the connection's mode. *)
Definition dml_applied (self : Statement) (sts : list SpannerSql) (w w' : World) (r : Result (option Z)) : Prop :=
  if autocommit (w_txn w) then
    match sts with
    | [] => quiet w w' [] /\ r = Ok (Some 0%Z)
    | _ => exists rep, quiet w w' [Ev (batch_call self sts) rep] /\
        r = (fun p => Some (sum_i64 p.1)) <$>
              call_result (update_timeout (timeouts (st_config self))) OPTION_RPC_TIMEOUT_UPDATE outcome rep
    end
  else
    w_trace w' = w_trace w /\
    match r with
    | Ok n => n = None /\ autocommit (w_txn w') = false /\
              work_of (txn (w_txn w')) = app2 (work_of (txn (w_txn w))) (sts, [])
    | Err e => w_txn w' = w_txn w /\ status e = InvalidState
    end.

Lemma run_or_buffer_applied self sts w :
  slot_cancelled (w_slots w) (st_slot self) = false ->
  wp (run_or_buffer env self sts) (dml_applied self sts w) w.
Proof.
  intros Hs. unfold dml_applied, run_or_buffer. destruct (autocommit (w_txn w)) eqn:Hac.
  - apply wp_bind. eapply wp_locked; [unfold buffer_section; by rewrite Hac|]. cbn.
    set (w0 := mkWorld _ _ _ _). apply wp_bind. unfold run_batch_txn.
    destruct sts as [|st sts]; [rewrite decide_True by done; apply wp_ret, wp_ret; split; [exact (quiet_refl w)|done]|].
    set (all := st :: sts). rewrite !decide_False by (cbn; lia).
    apply wp_bind, wp_perform_then; [cbn; congruence|]. intros _ w1 Hc Hq _.
    fold (batch_call self all) in Hq |- *. set (rep := env _ _ _) in *.
    destruct (call_result _ _ _ rep) as [[cs mc]|e] eqn:Ecr.
    + apply wp_bind, wp_update_cells, wp_ret, wp_ret. exists rep. rewrite Ecr. split; [|done].
      by destruct Hq.
    + exists rep. rewrite Ecr. split; [|done]. by destruct Hq.
  - destruct (buffer_dml (w_txn w) sts) as [st' r] eqn:Eb. apply wp_bind.
    eapply wp_locked; [unfold buffer_section; by rewrite Hac, Eb|]. destruct r as [[]|e]; cbn.
    + destruct (buffer_dml_section _ _ _ Eb Hac) as (Ha & Hw & _). by split_and!.
    + by apply buffer_dml_err in Eb as [-> ?].
Qed.

Lemma find_forallb {X} (p : X -> bool) l :
  List.find (fun x => negb (p x)) l = None <-> forallb p l = true.
Proof. induction l as [|x l IH]; cbn; [done|]. by destruct (p x). Qed.

Lemma check_all_dml_batch_spec parts :
  match check_all_dml_batch parts with
  | Ok _ => ~ (1 < length parts /\ forallb is_dml parts = false)
  | Err e => (1 < length parts /\ forallb is_dml parts = false) /\ status e = InvalidArguments
  end.
Proof.
  unfold check_all_dml_batch. case_decide; [|by intros []]. pose proof (find_forallb is_dml parts) as Hf.
  destruct (List.find _ parts); [|rewrite (proj1 Hf eq_refl); by intros []].
  split; [|done]. split; [done|]. destruct (forallb is_dml parts); [|done]. by discriminate (proj2 Hf eq_refl).
Qed.

Definition dml_result (self : Statement) (parts : list rstr) (w w' : World) (r : Result (option Z)) : Prop :=
  if decide (1 < length parts /\ forallb is_dml parts = false) then
    w_txn w' = w_txn w /\ w_trace w' = w_trace w /\ exists e, r = Err e /\ status e = InvalidArguments
  else dml_applied self (map (sql_builder self) parts) w w' r.

(** DML without [THEN RETURN], whatever is bound: nothing happens when the
    statements cannot be built, and they are applied together otherwise. *)
Definition statements_result (self : Statement) (statements : Result (list SpannerSql)) (w w' : World)
    (r : Result (option Z)) : Prop :=
  match statements with
  | Ok sts => dml_applied self sts w w' r
  | Err e => w_txn w' = w_txn w /\ w_trace w' = w_trace w /\ r = Err e
  end.

Lemma run_dml_batch self q w :
  is_dml_returning q = false -> dml_partitioned self = false ->
  is_read_only (w_cells w) (st_config self) = false ->
  slot_cancelled (w_slots w) (st_slot self) = false ->
  wp (run_dml env self q) (fun w' r => exists r', statements_result self (build_dml_statements self q) w w' r' /\
    r = Plain <$> r') w.
Proof.
  intros Hret Hp Hro Hs. apply wp_bind, wp_read_cells. rewrite Hro, Hp, Hret. cbn [negb].
  apply wp_bind, wp_lift. destruct (build_dml_statements self q) as [sts|e]; [|by exists (Err e)].
  apply wp_bind. eapply wp_mono; [by apply run_or_buffer_applied|]. intros w1 [n|e] H1; [apply wp_ret|].
  - by exists (Ok n).
  - by exists (Err e).
Qed.

Lemma execute_update_dml fuel self q w :
  st_sql self = Some q -> is_ddl q = false -> is_dml q = true -> is_dml_returning q = false ->
  dml_partitioned self = false -> is_read_only (w_cells w) (st_config self) = false ->
  exists w' r, execute_update env fuel self w = Some (w', clear_bound self, r) /\
  statements_result self (build_dml_statements self q) w w' r.
Proof.
  intros Hq Hddl Hdml Hret Hp Hro. unfold execute_update, begin_operation.
  cbn [mbind option_bind]. set (w0 := mkWorld _ _ _ _).
  rewrite (destination_sql _ _ Hq), Hq, Hddl, Hdml. cbn [negb].
  destruct (proj1 (wp_elim _ _ _) (run_dml_batch self q w0 Hret Hp Hro (slot_fresh _ _)))
    as (w1 & r1 & E & r' & H & ->). unfold SM_bind, consuming. rewrite E.
  exists w1, r'. split; [by destruct r'|done].
Qed.

Lemma statements_result_plain self q w w' r :
  bound self = [] -> statements_result self (build_dml_statements self q) w w' r ->
  dml_result self (split_statements q) w w' r.
Proof.
  intros Hb. unfold statements_result, build_dml_statements, dml_result. rewrite Hb.
  pose proof (check_all_dml_batch_spec (split_statements q)) as Hc.
  destruct (check_all_dml_batch (split_statements q)) as [[]|e]; cbn [mbind Result_mbind].
  - by rewrite decide_False.
  - destruct Hc as [Hc He]. rewrite decide_True by done. intros (H1 & H2 & ->). split_and!; [done..|]. by exists e.
Qed.

(** The statements of bound rows, when they can be built: one for each row, in
    order. *)
Lemma build_bound_statements_Ok self q sts :
  build_bound_statements self q = Ok sts ->
  exists gs, bound_groups self q = Ok gs /\
    map Ok sts = concat (map (fun g => map (bind_params (sql_builder self q) g.1 g.2) (seq 0 (num_rows g.2))) gs).
Proof.
  intros H. assert (exists gs, bound_groups self q = Ok gs) as [gs Hgs].
  { unfold build_bound_statements, bound_groups in *. inv_bind H. clear H. revert a E.
    induction (bound self) as [|b bs IH]; intros a E; [by eexists|]. cbn [try_map] in E. inv_bind E.
    destruct (IH _ eq_refl) as [gs Hgs]. rewrite filter_cons. destruct (decide (num_rows b = 0)) as [Hz|Hz].
    - rewrite decide_False by tauto. by exists gs.
    - rewrite decide_True by done. inv_bind E0. cbn [try_map]. rewrite E2. cbn [mbind Result_mbind]. rewrite Hgs. by eexists. }
  exists gs. split; [done|]. rewrite (build_bound_statements_groups _ _ _ Hgs) in H. apply try_map_Ok_Forall2 in H.
  induction H as [|x y l k Hx _ IH]; [done|]. unfold id in Hx. subst x. cbn [map]. by rewrite IH.
Qed.

(** A DML text without parameters, its mixed batches refused. *)
Theorem plain_dml_is_one_batch fuel self q w :
  st_sql self = Some q -> is_ddl q = false -> is_dml q = true -> is_dml_returning q = false ->
  bound self = [] -> dml_partitioned self = false ->
  is_read_only (w_cells w) (st_config self) = false ->
  let parts := split_statements q in
  exists w' r, execute_update env fuel self w = Some (w', clear_bound self, r) /\
  dml_result self parts w w' r.
Proof.
  intros Hq Hddl Hdml Hret Hb Hp Hro parts.
  destruct (execute_update_dml fuel self q w Hq Hddl Hdml Hret Hp Hro) as (w' & r & E & H).
  exists w', r. split; [done|]. by apply statements_result_plain.
Qed.

(** C7: plain DML is atomic, and all of it is one batch.  Plain means on a connection
    that may write, not partitioned ([spanner.dml.partitioned] is not atomic) and
    without [THEN RETURN] (which returns rows).  An unparameterised text that is
    a mixed batch (a query or DDL among several statements) is rejected with
    [InvalidArguments], and bound rows of which one does not bind are rejected with
    its error, before any call and before anything is buffered.  Otherwise, in
    autocommit mode, exactly one call carries every statement of the text, or one
    statement for every bound row, in order, as the transaction's last request,
    and the result is the sum of the counts it reports, or its error; in a manual
    transaction no call is made, and either every statement is appended to the
    buffer in order and the count is unknown, or (the transaction began with a
    query) it is refused with [InvalidState] and nothing changes. *)
Theorem dml_is_one_batch fuel self q w :
  st_sql self = Some q -> is_ddl q = false -> is_dml q = true -> is_dml_returning q = false ->
  dml_partitioned self = false -> is_read_only (w_cells w) (st_config self) = false ->
  exists w' r, execute_update env fuel self w = Some (w', clear_bound self, r) /\
  match bound self with
  | [] => dml_result self (split_statements q) w w' r
  | _ =>
      (exists gs sts, bound_groups self q = Ok gs /\
         map Ok sts = concat (map (fun g => map (bind_params (sql_builder self q) g.1 g.2) (seq 0 (num_rows g.2))) gs) /\
         dml_applied self sts w w' r) \/
      (exists e, build_bound_statements self q = Err e /\ w_txn w' = w_txn w /\ w_trace w' = w_trace w /\ r = Err e)
  end.
Proof.
  intros Hq Hddl Hdml Hret Hp Hro.
  destruct (execute_update_dml fuel self q w Hq Hddl Hdml Hret Hp Hro) as (w' & r & E & H).
  exists w', r. split; [done|]. destruct (bound self) as [|b bs] eqn:Hb; [by apply statements_result_plain|].
  unfold statements_result, build_dml_statements in H. rewrite Hb in H.
  destruct (build_bound_statements self q) as [sts|e] eqn:Est; [left|right; by exists e].
  destruct (build_bound_statements_Ok _ _ _ Est) as (gs & Hgs & Hsts). by exists gs, sts.
Qed.

End Dml.

(** ** Draining *)

Section Drain.
Context `{F : Formats} (env : Env) (slot : positive) (bs : Z) (ft : option Z).

(** What is left of a source: statements to run, then items of the live result set. *)
Definition source_left (source : ChunkSource) : nat * nat :=
  match source with
  | ResultSetChunks items => (0, length items)
  | BoundQueryChunks _ sts items => (statements_left sts, from_option length 0 items)
  end.

Definition shrinks (source' source : ChunkSource) : Prop :=
  (source_left source').1 < (source_left source).1 \/
  (source_left source').1 = (source_left source).1 /\ (source_left source').2 < (source_left source).2.

Lemma wp_pull (items : list (Row + SpannerError)) w :
  wp (perform_then env slot ft OPTION_RPC_TIMEOUT_FETCH NextChunk
       (and_then (fun _ => let '(items, r) := pull_chunk items bs in rows ← r; Ok (items, rows))))
     (fun _ r => match r with
      | Ok (items', rows) => items = map inl rows ++ items'
      | Err _ => True
      end) w.
Proof.
  apply wp_perform_then; [done|]. intros _ w' _ _ _. unfold call_result, with_timeout.
  set (rep := env _ _ _). destruct (r_cancelled rep), ft, (r_expired rep), (r_outcome rep); try done; cbn;
    destruct (pull_chunk items bs) as [items' [rows|e]] eqn:E; try done; cbn;
    apply pull_loop_spec in E as (-> & _); done.
Qed.

Lemma pulled_shorter {X} (items' : list X) rows items (g : Row -> X) :
  items = map g rows ++ items' -> rows <> [] -> length items' < length items.
Proof. intros -> H. rewrite length_app, length_map. destruct rows; [done|]. cbn. lia. Qed.

Lemma bound_chunk_returns fuel t sts items w :
  statements_left sts < fuel ->
  wp (bound_chunk env fuel slot bs ft t sts items) (fun _ r => match r with
      | Ok (source', rows) => rows = [] \/ shrinks source' (BoundQueryChunks t sts items)
      | Err _ => True
      end) w.
Proof.
  revert sts items w. induction fuel as [|fuel IH]; intros sts items w Hf; [lia|]. cbn [bound_chunk].
  set (next := match next_statement sts with (_, _) => _ end).
  assert (forall w, wp next (fun _ r => match r with
      | Ok (source', rows) => rows = [] \/ (source_left source').1 < statements_left sts
      | Err _ => True
      end) w) as Hnext.
  { clear w. intros w. unfold next. pose proof (next_statement_spec sts) as Hn.
    destruct (next_statement sts) as [sts' [[st|e]|]]; [|done|apply wp_ret; by left].
    assert (statements_left sts = S (statements_left sts')) as Hl
      by (rewrite !statements_left_pending, Hn; done).
    apply wp_bind, wp_perform_then; [done|]. intros _ w1 _ _ _.
    destruct (call_result _ _ _ _) as [rs|e]; [|done].
    eapply wp_mono; [apply IH; lia|]. intros w2 [[source' rows]|e]; [|done].
    intros [->|[Hs|[Hs _]]]; [by left|right..]; cbn in Hs; lia. }
  destruct items as [items|].
  - apply wp_bind. eapply wp_mono; [apply wp_pull|]. intros w1 [[items' rows]|e] H1; [|done].
    destruct rows as [|row rows].
    + eapply wp_mono; [apply Hnext|]. intros w2 [[source' rows]|e]; [|done].
      intros [->|Hs]; [by left|]. right. by left.
    + apply wp_ret. right. right. split; [done|]. cbn. by eapply pulled_shorter.
  - eapply wp_mono; [apply Hnext|]. intros w2 [[source' rows]|e]; [|done].
    intros [->|Hs]; [by left|]. right. by left.
Qed.

Lemma next_chunk_returns source w :
  wp (next_chunk env slot bs ft source) (fun _ r => match r with
      | Ok (source', rows) => rows = [] \/ shrinks source' source
      | Err _ => True
      end) w.
Proof.
  destruct source as [items|t sts items]; cbn [next_chunk].
  - apply wp_bind. eapply wp_mono; [apply wp_pull|]. intros w1 [[items' rows]|e] H1; [|done].
    apply wp_ret. destruct rows as [|row rows]; [by left|]. right. right. split; [done|]. cbn.
    by eapply pulled_shorter.
  - apply bound_chunk_returns. lia.
Qed.

Lemma drain_source_returns s m k source w :
  (source_left source).1 <= m -> (source_left source).2 <= k ->
  exists n, forall fuel, n <= fuel -> is_Some (drain_source env fuel slot s bs ft source w).
Proof.
  revert k source w. induction m as [m IHm] using lt_wf_ind. intros k.
  induction k as [k IHk] using lt_wf_ind. intros source w Hm Hk.
  pose proof (next_chunk_returns source w) as H. apply wp_elim in H as (w1 & r & E & H).
  assert (forall n, (forall fuel, n <= fuel -> is_Some (match r with
      | Ok (source', row :: rows) =>
          (_ ← lift (build_batch s (row :: rows)); drain_source env fuel slot s bs ft source') w1
      | _ => Some (w1, Ok tt)
      end)) -> exists n, forall fuel, n <= fuel -> is_Some (drain_source env fuel slot s bs ft source w)) as Hstep.
  { intros n Hn. exists (S n). intros [|fuel] Hf; [lia|]. specialize (Hn fuel ltac:(lia)).
    cbn [drain_source]. unfold mbind, M_bind at 1. rewrite E.
    destruct r as [[source' [|row rows]]|e]; [done| |done]. exact Hn. }
  destruct r as [[source' [|row rows]]|e]; [by apply (Hstep 0)| |by apply (Hstep 0)].
  destruct H as [H|H]; [done|].
  assert (exists n, forall fuel, n <= fuel -> is_Some (drain_source env fuel slot s bs ft source' w1)) as [n Hn].
  { destruct H as [H|[H1 H2]].
    - by eapply (IHm (source_left source').1); [lia|done|done].
    - by eapply (IHk (source_left source').2); [lia|lia|done]. }
  apply (Hstep n). intros fuel Hf. unfold mbind, M_bind, lift.
  destruct (build_batch s (row :: rows)); [by apply Hn|done].
Qed.

End Drain.

(** C15: draining a query's reader ends, whatever the server sends.  For every
    reader and every environment there is a number of chunks after which
    [drain_discarding_rows] has returned: no empty chunk, drained result set,
    failed bind or run of bound rows without results can make it loop, and the
    bound on the statements a single pull may run through is always enough. *)
Theorem drain_terminates `{F : Formats} (env : Env) slot reader w :
  exists n, forall fuel, n <= fuel -> is_Some (drain_discarding_rows env fuel slot reader w).
Proof.
  destruct reader as [bs s|s first source bs ft]; [by exists 0|]. cbn [drain_discarding_rows].
  destruct (drain_source_returns env slot bs ft s _ _ source w (le_n _) (le_n _)) as [n Hn].
  exists n. intros fuel Hf. specialize (Hn fuel Hf). unfold mbind, M_bind, lift.
  destruct first as [[|row rows]|]; [exact Hn| |exact Hn]. by destruct (build_batch s (row :: rows)).
Qed.

(** Formats for the example batches: a schema is trivial, rows convert to a batch
    of their count. *)
Definition example_formats : Formats (B := example_batches) := {|
  Field := rstr;
  Schema_new _ := (tt : Schema (Batches := example_batches));
  null_field n := n;
  arrow_field n _ _ _ := Ok n;
  build_schema _ _ _ := Ok (tt : Schema (Batches := example_batches));
  build_batch _ rows := Ok (map (fun _ => []) rows : RecordBatch (Batches := example_batches));
  encode_partition (p : Partition (SpannerClient := example_client)) := Ok (p : rstr) |}.

Definition dml_example : Statement (B := example_batches) :=
  with_bound (example_statement (Some (str "DELETE FROM t WHERE a; INSERT INTO t (a) VALUES (1)")) None []) [] None.

Lemma plain_dml_is_one_batch_witness :
  let w := example_world (mkTxnState false Unset) in
  exists w' r, execute_update (F := example_formats) (capped_env 9) 0 dml_example w =
                 Some (w', clear_bound dml_example, r) /\
    dml_result dml_example (split_statements (str "DELETE FROM t WHERE a; INSERT INTO t (a) VALUES (1)")) w w' r.
Proof.
  exact (plain_dml_is_one_batch (F := example_formats) (capped_env 9) 0 dml_example _
    (example_world (mkTxnState false Unset)) eq_refl eq_refl eq_refl eq_refl eq_refl eq_refl eq_refl).
Defined.

(** Two bound rows, in autocommit mode: one call with one statement each. *)
Definition bound_dml_example : Statement (B := example_batches) :=
  example_statement (Some (str "DELETE FROM t WHERE a = @a")) None [str "x"; str "y"].

Lemma dml_is_one_batch_witness :
  let w := example_world (mkTxnState true Unset) in
  exists w' r (gs : list (list rstr * RecordBatch (Batches := example_batches))) sts,
    execute_update (F := example_formats) (capped_env 9) 0 bound_dml_example w =
                        Some (w', clear_bound bound_dml_example, r) /\
    map Ok sts = concat (map (fun g => map (bind_params (Batches := example_batches) (sql_builder bound_dml_example
      (str "DELETE FROM t WHERE a = @a")) g.1 g.2) (seq 0 (num_rows (Batches := example_batches) g.2))) gs) /\
    length sts = 2 /\ dml_applied bound_dml_example sts w w' r.
Proof.
  intros w. destruct (dml_is_one_batch (F := example_formats) (capped_env 9) 0 bound_dml_example _ w
    eq_refl eq_refl eq_refl eq_refl eq_refl eq_refl) as (w' & r & E & [(gs & sts & Hgs & Hsts & H)|(e & He & _)]);
    [|vm_compute in He; discriminate].
  exists w', r, gs, sts. split; [exact E|]. split; [exact Hsts|]. split; [|exact H].
  vm_compute in Hgs. injection Hgs as <-. apply (f_equal length) in Hsts. rewrite length_map in Hsts.
  rewrite Hsts. reflexivity.
Defined.

Definition query_example : Statement (B := example_batches) :=
  example_statement (Some (str "SELECT @a")) None [str "x"; str "y"].

(** The calls an update made and what it returned. *)
Definition update_summary `{B : Batches} (o : option (World * Statement * Result (option Z))) :
    option (nat * option (option Z)) :=
  match o with
  | Some (w, _, Ok n) => Some (length (w_trace w), Some n)
  | Some (w, _, Err _) => Some (length (w_trace w), None)
  | None => None
  end.

Lemma update_summary_inv `{B : Batches} o k n :
  update_summary o = Some (k, Some n) ->
  exists w self, o = Some (w, self, Ok n) /\ length (w_trace w) = k.
Proof. destruct o as [[[w self] [m|e]]|]; cbn; intros; simplify_eq; eauto. Qed.

(** A bound query through the update entry point: both rows run, in one snapshot,
    and only read-only calls are made. *)
Lemma execution_routed_witness :
  let w := example_world (mkTxnState true Unset) in
  exists w' self', execute_update (F := example_formats) (capped_env 9) 5 query_example w =
                     Some (w', self', Ok None) /\
    length (w_trace w') = 5 /\ follows read_call w w'.
Proof.
  intros w. destruct (update_summary_inv (execute_update (F := example_formats) (capped_env 9) 5 query_example w)
    5 None) as (w' & self' & E & Hl); [vm_compute; reflexivity|].
  exists w', self'. split; [exact E|]. split; [exact Hl|].
  exact (proj1 (execution_routed (F := example_formats) (capped_env 9) 5 query_example w w' self'
           (or_intror (ex_intro _ (Ok None) E)))).
Defined.

Lemma destination_exclusive_witness :
  let s0 := Statement_new (B := example_batches) (str "d") (SharedConfig_default (mkCells ∅ ∅)).2 2 in
  exclusive (set_sql_query (st_set_option s0 OsTargetTable (OString (str "t"))).1 (str "SELECT 1")).
Proof.
  intros s0.
  refine (proj1 (destination_exclusive (F := example_formats) (capped_env 9) (str "d")
    (SharedConfig_default (mkCells ∅ ∅)).2 2 _ _)).
  eapply rtc_l; [apply (Step_option (F := example_formats) (capped_env 9) s0 OsTargetTable (OString (str "t")))|].
  apply rtc_once, Step_query.
Defined.

Lemma lazy_statements_are_eager_witness :
  exists gs, bound_groups query_example (str "SELECT @a") = Ok gs /\
    try_map id <$> collect_lazy (B := example_batches) (S (sum_list_with (fun g => num_rows g.2) gs))
      (mkLazy (sql_builder query_example (str "SELECT @a")) gs 0 0) =
    Some (build_bound_statements query_example (str "SELECT @a")).
Proof.
  eexists. split; [vm_compute; reflexivity|].
  exact (proj2 (lazy_statements_are_eager query_example (str "SELECT @a") _
    (sql_builder query_example (str "SELECT @a")) eq_refl)).
Defined.
