(* ===== verification/QueryRead.v ===== *)
(** * Reading a query's stream to its end

    The caller's side of a query: [run_query] or [execute_bound_query], and a reader
    that is iterated until it is exhausted.  The pulls of one result set, the
    statements of a bound query and the events they leave in the trace are related
    to the rows delivered.  The reader is driven chunk after chunk; what the
    prefetch task does ahead of it is the subject of [Stream]. *)

From S2P Require Import Prelude RustStr RustNum ErrorModel Options Staleness Config Runtime Sql.
From S2P Require Import Stream Txn Client Wp Metadata TxnSystem StatementState Ingest Statement IngestFacts StatementFacts.

(** ** Reading to the end *)

Section Reading.
Context `{F : Formats}.
Context (env : Env) (slot : positive) (bs : Z) (ft : option Z).

(** The chunks left in a source, each converted by [SpannerBatchReader::next];
    [fuel] bounds the pulls. *)
Fixpoint read_source (fuel : nat) (s : Schema) (source : ChunkSource) : M (list RecordBatch) :=
  match fuel with
  | O => fun _ => None
  | S f =>
      '(source, rows) ← next_chunk env slot bs ft source;
      match rows with
      | [] => mret []
      | _ => b ← lift (build_batch s rows); rest ← read_source f s source; mret (b :: rest)
      end
  end.

(** The environment answers every later pull, in time. *)
Definition pulls_prompt : Prop := forall history, env history unit NextChunk = mkReply (inl tt) false false.

(** The rows, in chunks of at most [bs], each converted. *)
Definition converted (rows : list Row) (s : Schema) (batches : list RecordBatch) : Prop :=
  exists chunks, concat chunks = rows /\
    Forall (fun c => c <> [] /\ (Z.of_nat (length c) <= bs)%Z) chunks /\
    Forall2 (fun c b => build_batch s c = Ok b) chunks batches.

(** What reading delivers of a result set. *)
Definition chunked (items : list (Row + SpannerError)) (s : Schema) (batches : list RecordBatch) : Prop :=
  first_error items = None /\ converted (rows_of items) s batches.

(** The one way a complete, prompt result set fails to be read: a chunk that does
    not convert. *)
Definition unconvertible (items : list (Row + SpannerError)) (s : Schema) (e : Error) : Prop :=
  exists before chunk after, rows_of items = before ++ chunk ++ after /\ chunk <> [] /\ build_batch s chunk = Err e.

Lemma converted_nil s : converted [] s [].
Proof. exists []. split_and!; [done|constructor..]. Qed.

Lemma converted_cons row rows rest s b batches :
  (Z.of_nat (length (row :: rows)) <= bs)%Z -> build_batch s (row :: rows) = Ok b ->
  converted rest s batches -> converted ((row :: rows) ++ rest) s (b :: batches).
Proof.
  intros Hl Hb (chunks & <- & Hcap & Hbs). exists ((row :: rows) :: chunks).
  split_and!; [done|by constructor|by constructor].
Qed.

Lemma chunked_cons row rows items s b batches :
  (Z.of_nat (length (row :: rows)) <= bs)%Z -> build_batch s (row :: rows) = Ok b ->
  chunked items s batches -> chunked (map inl (row :: rows) ++ items) s (b :: batches).
Proof.
  intros Hl Hb [He Hc]. split; [by rewrite first_error_app|]. rewrite rows_of_app. by apply converted_cons.
Qed.

Lemma unconvertible_app rows items s e : unconvertible items s e -> unconvertible (map inl rows ++ items) s e.
Proof.
  intros (before & chunk & after & Hr & Hne & Hb). exists (rows ++ before), chunk, after.
  by rewrite rows_of_app, Hr, <- app_assoc.
Qed.

Lemma unconvertible_here row rows items s e :
  build_batch s (row :: rows) = Err e -> unconvertible (map inl (row :: rows) ++ items) s e.
Proof. intros H. exists [], (row :: rows), (rows_of items). by rewrite rows_of_app. Qed.

(** [FromIterator] over a reader: its schema, and every batch it yields. *)
Definition read_all (fuel : nat) (reader : Reader) : M (Schema * list RecordBatch) :=
  match reader with
  | RecordBatchIterator batches s => mret (s, batches)
  | SpannerBatchReader s first source _ _ =>
      read ← match first with
             | Some (row :: rows) => b ← lift (build_batch s (row :: rows)); mret [b]
             | _ => mret []
             end;
      rest ← read_source fuel s source; mret (s, read ++ rest)
  end.

(** One pull of a result set: rows off its front, the end of it, or an error that a
    prompt environment and a complete result set exclude. *)
Lemma wp_pull_exact items w :
  (0 < bs)%Z ->
  wp (next_chunk env slot bs ft (ResultSetChunks items))
    (fun w' r => match r with
      | Ok (source', []) => items = []
      | Ok (source', rows) =>
          (slot_cancelled (w_slots w) slot = false -> pulls_prompt -> slot_cancelled (w_slots w') slot = false) /\
          (Z.of_nat (length rows) <= bs)%Z /\
          exists items', source' = ResultSetChunks items' /\ items = map inl rows ++ items'
      | Err e => slot_cancelled (w_slots w) slot = false -> pulls_prompt -> first_error items <> None
      end) w.
Proof.
  intros Hbs. cbn [next_chunk]. apply wp_bind, wp_perform_then; [congruence|].
  intros Hs w' _ _ Hslots. destruct (pull_chunk items bs) as [items' r] eqn:E. unfold and_then.
  pose proof (pull_loop_spec _ _ _ _ _ _ E ltac:(lia)) as Hspec. unfold call_result, with_timeout.
  set (rep := env _ _ _) in *.
  assert (pulls_prompt -> rep = mkReply (inl tt) false false) as Hrep by (intros H; apply H).
  destruct (r_cancelled rep) eqn:Ec; [intros _ H; specialize (Hrep H); by rewrite Hrep in Ec|].
  destruct (match ft, r_expired rep with Some _, true => _ | _, _ => _ end) as [[? rows]|e] eqn:Er.
  - assert (r = Ok rows) as -> by (destruct ft, (r_expired rep), (r_outcome rep); simplify_eq/=; try done;
      destruct r; simplify_eq/=; done).
    assert (l = items') as -> by (destruct ft, (r_expired rep), (r_outcome rep); by simplify_eq/=).
    destruct Hspec as (Hi & Hl & Hnil). apply wp_ret. destruct rows as [|row rows].
    + apply Hnil; [done|lia].
    + split; [intros; rewrite Hslots by done; done|]. split; [lia|]. by exists items'.
  - intros _ H. rewrite (Hrep H) in Er. assert (exists e', r = Err e') as [e' ->]
      by (destruct ft; cbn in Er; destruct r; simplify_eq/=; by eexists).
    destruct Hspec as (rows & se & -> & _). by rewrite first_error_app.
Qed.

Lemma read_source_spec fuel s items w :
  (0 < bs)%Z -> length items < fuel ->
  wp (read_source fuel s (ResultSetChunks items))
    (fun _ r => match r with
      | Ok batches => chunked items s batches
      | Err e => slot_cancelled (w_slots w) slot = false -> pulls_prompt -> first_error items = None ->
                 unconvertible items s e
      end) w.
Proof.
  intros Hbs. revert items w. induction fuel as [|fuel IH]; intros items w Hf; [lia|]. cbn [read_source].
  apply wp_bind. eapply wp_mono; [by apply wp_pull_exact|]. intros w1 [[source' [|row rows]]|e] H.
  - subst items. apply wp_ret. split; [done|]. apply converted_nil.
  - destruct H as (Hslot & Hl & items' & -> & ->). apply wp_bind, wp_lift.
    destruct (build_batch s (row :: rows)) as [b|e] eqn:Eb; [|intros; by apply unconvertible_here].
    apply wp_bind. eapply wp_mono; [apply IH|].
    { rewrite length_app, length_map in Hf. cbn in Hf. lia. }
    intros w2 [batches|e] H; [apply wp_ret; by apply chunked_cons|].
    intros Hs Hp He. rewrite first_error_app in He. by apply unconvertible_app, H; [apply Hslot|..].
  - intros Hs Hp He. by specialize (H Hs Hp).
Qed.

(** The rows of a first pull and those after it. *)
Lemma first_pull items items' rows :
  (0 < bs)%Z -> pull_chunk items bs = (items', Ok rows) ->
  items = map inl rows ++ items' /\ head (rows_of items) = head rows /\ (Z.of_nat (length rows) <= bs)%Z /\
  (rows = [] -> items = []).
Proof.
  intros Hbs Hspec. apply pull_loop_spec in Hspec as (-> & Hl & Hnil); [|lia]. rewrite rows_of_app.
  split; [done|]. split; [|split; [lia|]].
  - destruct rows; [|done]. specialize (Hnil eq_refl Hbs). cbn in Hnil. by subst items'.
  - intros ->. by apply Hnil.
Qed.

Lemma read_all_spec fuel s items items' rows w :
  (0 < bs)%Z -> pull_chunk items bs = (items', Ok rows) -> length items < fuel ->
  wp (read_all fuel (SpannerBatchReader s (Some rows) (ResultSetChunks items') bs ft))
    (fun _ r => match r with
      | Ok (s', batches) => s' = s /\ chunked items s batches
      | Err e => slot_cancelled (w_slots w) slot = false -> pulls_prompt -> first_error items = None ->
                 unconvertible items s e
      end) w.
Proof.
  intros Hbs (Hi & _ & Hl & Hnil)%first_pull Hf; [|done]. cbn [read_all]. apply wp_bind.
  assert (length items' < fuel) as Hf' by (rewrite Hi, length_app in Hf; lia).
  assert (forall read (Q : list RecordBatch -> Prop), (forall batches, chunked items' s batches -> Q (read ++ batches)) ->
    wp (rest ← read_source fuel s (ResultSetChunks items'); mret (s, read ++ rest))
      (fun _ r => match r with
        | Ok (s', batches) => s' = s /\ Q batches
        | Err e => slot_cancelled (w_slots w) slot = false -> pulls_prompt -> first_error items' = None ->
                   unconvertible items' s e
        end) w) as Hrest.
  { intros read Q HQ. apply wp_bind. eapply wp_mono; [by apply read_source_spec|].
    intros w' [batches|e] H; [|done]. apply wp_ret. split; [done|]. by apply HQ. }
  destruct rows as [|row rows].
  - apply wp_ret. specialize (Hnil eq_refl). cbn in Hi. subst items'.
    by apply (Hrest [] (chunked items s)).
  - apply wp_bind, wp_lift. destruct (build_batch s (row :: rows)) as [b|e] eqn:Eb.
    + apply wp_ret. eapply wp_mono; [apply (Hrest [b] (chunked items s)); intros; rewrite Hi; by apply chunked_cons|].
      intros w' [[s' batches]|e] H; [done|]. intros Hs Hp He. rewrite Hi in He |- *. rewrite first_error_app in He.
      by apply unconvertible_app, H.
    + intros _ _ _. rewrite Hi. by apply unconvertible_here.
Qed.

End Reading.

Section Query.
Context `{F : Formats} (env : Env) (self : Statement).

(** [run_query], read to the end by its caller. *)
Definition query_all (fuel : nat) (manual_txn : option RoTxn) (b : option TimestampBound) (statement : SpannerSql) :
    M (Schema * list RecordBatch) :=
  reader ← run_query env self manual_txn b statement;
  read_all env (st_slot self) (rows_per_batch self) (fetch_timeout (timeouts (st_config self))) fuel reader.

(** The reply to the query's one [ExecuteQuery]. *)
Definition query_reply (manual_txn : option RoTxn) (b : option TimestampBound) (statement : SpannerSql) (w : World) :
    Reply ResultSet :=
  env (w_trace w) ResultSet
    (ExecuteQuery (match manual_txn with Some t => inr t | None => inl b end) statement).

Lemma call_result_cases {A C} limit opt (f : A + SpannerError -> Result C) (rep : Reply A) :
  call_result limit opt f rep = f (r_outcome rep) \/
  (r_cancelled rep = true \/ r_expired rep = true) /\ exists e, call_result limit opt f rep = Err e.
Proof.
  unfold call_result, with_timeout. destruct (r_cancelled rep); [right; split; [by left|by eexists]|].
  destruct limit; [|by left]. destruct (r_expired rep); [right; split; [by right|by eexists]|by left].
Qed.

(** What [stream_query] makes of a result set. *)
Lemma stream_query_cases rs size precision ft :
  (0 < size)%Z ->
  match stream_query rs size precision ft with
  | Ok reader => exists s items' rows, pull_chunk (rs_items rs) size = (items', Ok rows) /\
      build_schema (rs_metadata rs) (head (rows_of (rs_items rs))) precision = Ok s /\
      reader = SpannerBatchReader s (Some rows) (ResultSetChunks items') size ft
  | Err e => first_error (rs_items rs) <> None \/
      build_schema (rs_metadata rs) (head (rows_of (rs_items rs))) precision = Err e
  end.
Proof.
  intros Hs. unfold stream_query. destruct (pull_chunk (rs_items rs) size) as [items' [rows|e]] eqn:Ep; cbn [mbind Result_mbind].
  - destruct (first_pull _ _ _ _ Hs Ep) as (_ & Hhead & _). rewrite <- Hhead.
    destruct (build_schema _ _ _) as [s|e] eqn:Eb; cbn [mbind Result_mbind]; [|by right]. by exists s, items', rows.
  - left. apply pull_loop_spec in Ep as (rows & se & -> & _); [|lia]. by rewrite first_error_app.
Qed.

Lemma query_all_spec fuel manual_txn b statement w :
  (0 < rows_per_batch self)%Z ->
  let rep := query_reply manual_txn b statement w in
  let size := rows_per_batch self in
  let precision := timestamp_precision (st_config self) in
  (forall rs, r_outcome rep = inl rs -> length (rs_items rs) < fuel) ->
  wp (query_all fuel manual_txn b statement)
    (fun _ r => match r with
      | Ok (s, batches) => exists rs, r_outcome rep = inl rs /\
          build_schema (rs_metadata rs) (head (rows_of (rs_items rs))) precision = Ok s /\
          chunked size (rs_items rs) s batches
      | Err e => forall rs s, slot_cancelled (w_slots w) (st_slot self) = false -> pulls_prompt env ->
          rep = mkReply (inl rs) false false -> first_error (rs_items rs) = None ->
          build_schema (rs_metadata rs) (head (rows_of (rs_items rs))) precision = Ok s ->
          unconvertible (rs_items rs) s e
      end) w.
Proof.
  intros Hbs rep size precision Hfuel. unfold query_all, run_query.
  apply wp_bind, wp_perform_then; [congruence|]. intros Hs w' _ _ Hslots.
  change (env (w_trace w) _ _) with rep. change (env (w_trace w) _ _) with rep in Hslots. fold size precision.
  destruct (call_result_cases (query_timeout (timeouts (st_config self))) OPTION_RPC_TIMEOUT_QUERY
    (and_then (fun rs => stream_query rs size precision (fetch_timeout (timeouts (st_config self))))) rep)
    as [Hr|[Hr [e He]]]; [rewrite Hr|rewrite He; intros rs s _ _ H; rewrite H in Hr; by destruct Hr].
  destruct (r_outcome rep) as [rs|se] eqn:Eo; [|intros rs s _ _ H; by rewrite H in Eo].
  unfold and_then. cbn [outcome mbind Result_mbind].
  pose proof (stream_query_cases rs size precision (fetch_timeout (timeouts (st_config self))) Hbs) as Hcases.
  destruct (stream_query _ _ _ _) as [reader|e].
  - destruct Hcases as (s & items' & rows & Ep & Eb & ->). eapply wp_mono; [by apply read_all_spec, Hfuel|].
    intros w2 [[s' batches]|e] H; [destruct H as [-> H]; by exists rs|].
    intros rs0 s0 Hw Hp Hrep He0 Hb0. rewrite Hrep in Eo, Hslots. injection Eo as ->. rewrite Eb in Hb0. injection Hb0 as <-.
    apply H; [by rewrite Hslots|done..].
  - intros rs0 s0 _ _ Hrep He0 Hb0. rewrite Hrep in Eo. injection Eo as ->. destruct Hcases as [H|H]; [done|].
    by rewrite H in Hb0.
Qed.

End Query.

(** ** A query per bound row *)

(** A query the trace records, and its outcome. *)
Definition query_event `{SC : SpannerClient} (ev : Event) :
    option ((option TimestampBound + RoTxn) * SpannerSql * (ResultSet + SpannerError)) :=
  match ev with
  | @Ev _ A c r =>
      match c in Call A return Reply A -> _ with
      | ExecuteQuery at_ st => fun r => Some (at_, st, r_outcome r)
      | _ => fun _ => None
      end r
  end.

Definition queries `{SC : SpannerClient} (evs : list Event) := omap query_event evs.

Lemma queries_app `{SC : SpannerClient} e1 e2 : queries (e1 ++ e2) = queries e1 ++ queries e2.
Proof. apply omap_app. Qed.

(** A call that is no query. *)
Definition no_query `{SC : SpannerClient} (ev : Event) : Prop :=
  match ev with Ev c _ => match c with ExecuteQuery _ _ => False | _ => True end end.

Lemma queries_none `{SC : SpannerClient} evs : Forall no_query evs -> queries evs = [].
Proof. induction 1 as [|[A c r] evs H _ IH]; [done|]. cbn. by destruct c. Qed.

Section Bound.
Context `{F : Formats} (env : Env) (slot : positive) (bs : Z) (ft : option Z).

(** The rows of statements and the result sets they were answered with. *)
Definition rows_answered (answers : list (SpannerSql * ResultSet)) : list Row :=
  concat (map (fun a => rows_of (rs_items a.2)) answers).

(** The queries made are exactly the pending ones, in order, in the transaction
    [t]; every one was answered to its end, and [rows] are what is left of the
    current result set and then all the answers' rows. *)
Definition answered (t : RoTxn) (statements : LazyBoundStatements) (items : list (Row + SpannerError))
    (evs : list Event) (rows : list Row) : Prop :=
  exists answers,
    map (fun a => Ok a.1) answers = pending_lazy statements /\
    queries evs = map (fun a => (inr t, a.1, inl a.2)) answers /\
    Forall (fun a => first_error (rs_items a.2) = None) answers /\
    first_error items = None /\ rows = rows_of items ++ rows_answered answers.

Definition source_answered (source : ChunkSource) : list Event -> list Row -> Prop :=
  match source with
  | ResultSetChunks items => fun evs rows => queries evs = [] /\ first_error items = None /\ rows = rows_of items
  | BoundQueryChunks t statements items => answered t statements (default [] items)
  end.

(** One pull, from [source] to [source'] with [evs]: either all there is, or some of
    it, before what is still to be read. *)
Definition pulled (source source' : ChunkSource) (evs : list Event) (rows : list Row) : Prop :=
  match rows with
  | [] => source_answered source evs []
  | _ => (Z.of_nat (length rows) <= bs)%Z /\
         forall evs' rest, source_answered source' evs' rest -> source_answered source (evs ++ evs') (rows ++ rest)
  end.

Lemma pulled_before source0 source source' pre evs rows :
  (forall evs rows, source_answered source evs rows -> source_answered source0 (pre ++ evs) rows) ->
  pulled source source' evs rows -> pulled source0 source' (pre ++ evs) rows.
Proof.
  intros H. destruct rows as [|row rows]; [apply H|]. intros [Hl Hp]. split; [done|].
  intros evs' rest Hr. rewrite <- app_assoc. by apply H, Hp.
Qed.

(** A handler whose result depends on the events it adds. *)
Definition adds {A} (m : M A) (Q : list Event -> Result A -> Prop) : Prop :=
  forall w, wlp m (fun w' r => exists evs, w_trace w' = w_trace w ++ evs /\ Q evs r) w.

Lemma adds_mono {A} (m : M A) (P Q : list Event -> Result A -> Prop) :
  adds m P -> (forall evs r, P evs r -> Q evs r) -> adds m Q.
Proof. intros H HPQ w. eapply wlp_mono; [apply H|]. intros w' r (evs & E & HP). exists evs. auto. Qed.

Lemma adds_now {A} (r : Result A) (Q : list Event -> Result A -> Prop) : Q [] r -> adds (fun w => Some (w, r)) Q.
Proof. intros H w. exists []. by rewrite app_nil_r. Qed.

Lemma adds_bind {A C} (m : M A) (f : A -> M C) (P : list Event -> Result A -> Prop) Q :
  adds m P ->
  (forall evs a, P evs (Ok a) -> adds (f a) (fun evs' r => Q (evs ++ evs') r)) ->
  (forall evs e, P evs (Err e) -> Q evs (Err e)) -> adds (m ≫= f) Q.
Proof.
  intros Hm Hf He w. apply wlp_bind. eapply wlp_mono; [apply Hm|]. intros w1 [a|e] (evs & E & HP).
  - eapply wlp_mono; [by apply (Hf evs)|]. intros w2 r (evs' & E' & HQ). exists (evs ++ evs').
    by rewrite E', E, app_assoc.
  - exists evs. auto.
Qed.

Lemma adds_ret {A C} (a : A) (f : A -> M C) Q : adds (f a) Q -> adds (mret a ≫= f) Q.
Proof. done. Qed.

Lemma adds_assoc {A C D} (m : M A) (f : A -> M C) (g : C -> M D) Q :
  adds (m ≫= (fun a => f a ≫= g)) Q -> adds ((m ≫= f) ≫= g) Q.
Proof.
  intros H w. specialize (H w). unfold wlp, mbind, M_bind in *.
  destruct (m w) as [[w1 [a|e]]|]; [|exact H..]. by destruct (f a w1) as [[w2 [c|e]]|].
Qed.

Lemma adds_lift {A C} (r : Result A) (f : A -> M C) Q :
  (forall a, r = Ok a -> adds (f a) Q) -> (forall e, r = Err e -> Q [] (Err e)) -> adds (lift r ≫= f) Q.
Proof. intros Ha He. destruct r as [a|e]; [by apply Ha|]. by apply adds_now, He. Qed.

Lemma adds_perform_then {A C} limit opt (c : Call A) (f : A + SpannerError -> Result C) (Q : list Event -> Result C -> Prop) :
  (forall rep e, Q [Ev c rep] (Err e)) -> (forall e, Q [] (Err e)) ->
  (forall rep a, r_outcome rep = a -> Q [Ev c rep] (f a)) ->
  adds (perform_then env slot limit opt c f) Q.
Proof.
  intros He Hn Hf w. apply wp_wlp, wp_perform_then.
  - intros _. exists []. rewrite app_nil_r. auto.
  - intros _ w' _ [_ E] _. eexists. split; [exact E|].
    destruct (call_result_cases limit opt f (env (w_trace w) A c)) as [H|[_ [e H]]]; rewrite H; auto.
Qed.

(** An error promises nothing. *)
Definition on_ok {A} (P : list Event -> A -> Prop) (evs : list Event) (r : Result A) : Prop :=
  match r with Ok a => P evs a | Err _ => True end.

Lemma pull_adds items :
  (0 < bs)%Z ->
  adds (perform_then env slot ft OPTION_RPC_TIMEOUT_FETCH NextChunk
         (and_then (fun _ => let '(items, r) := pull_chunk items bs in rows ← r; Ok (items, rows))))
    (on_ok (fun evs '(items', rows) => queries evs = [] /\ items = map inl rows ++ items' /\
       (Z.of_nat (length rows) <= bs)%Z /\ (rows = [] -> items = []))).
Proof.
  intros Hbs. apply adds_perform_then; [done..|]. intros rep [[]|se] _; [|done]. cbn.
  destruct (pull_chunk items bs) as [items' [rows|e]] eqn:E; [|done]. cbn.
  destruct (first_pull _ _ _ _ Hbs E) as (H1 & _ & H2 & H3). done.
Qed.

Lemma answered_rows t sts items rows items' evs rest :
  items = map inl rows ++ items' -> answered t sts items' evs rest -> answered t sts items evs (rows ++ rest).
Proof.
  intros -> (answers & H1 & H2 & H3 & H4 & ->). exists answers.
  rewrite first_error_app, rows_of_app, app_assoc. done.
Qed.

Lemma answered_silent t sts items pre evs rows :
  queries pre = [] -> answered t sts items evs rows -> answered t sts items (pre ++ evs) rows.
Proof. intros Hp (answers & H1 & H2 & H3). exists answers. by rewrite queries_app, Hp. Qed.

Lemma answered_next t sts sts' st rs rep evs rows :
  pending_lazy sts = Ok st :: pending_lazy sts' -> r_outcome rep = inl rs ->
  answered t sts' (rs_items rs) evs rows -> answered t sts [] (Ev (ExecuteQuery (inr t) st) rep :: evs) rows.
Proof.
  intros Hp Ho (answers & H1 & H2 & H3 & H4 & ->). exists ((st, rs) :: answers). cbn [map fst snd].
  split; [by rewrite Hp, H1|]. split; [cbn; rewrite Ho; by f_equal|]. split; [by constructor|]. done.
Qed.

Lemma bound_chunk_adds fuel t sts items :
  (0 < bs)%Z ->
  adds (bound_chunk env fuel slot bs ft t sts items)
    (on_ok (fun evs '(source', rows) => pulled (BoundQueryChunks t sts items) source' evs rows)).
Proof.
  intros Hbs. revert sts items. induction fuel as [|fuel IH]; intros sts items; [by intros w|]. cbn [bound_chunk].
  set (next := match next_statement sts with (_, _) => _ end).
  assert (adds next (on_ok (fun evs '(source', rows) => pulled (BoundQueryChunks t sts None) source' evs rows))) as Hnext.
  { unfold next. pose proof (next_statement_spec sts) as Hn.
    destruct (next_statement sts) as [sts' [[st|e]|]]; [|by apply adds_now|].
    - eapply adds_bind with (P := on_ok (fun evs rs => exists rep, evs = [Ev (ExecuteQuery (inr t) st) rep] /\ r_outcome rep = inl rs)).
      + apply adds_perform_then; [done..|]. intros rep [rs|se] Ho; [|done]. by exists rep.
      + intros evs rs (rep & -> & Ho). eapply adds_mono; [apply IH|]. intros evs [[source' rows]|e]; [|done]. cbn [on_ok].
        apply pulled_before. intros evs' rows'. cbn [source_answered default]. by apply answered_next.
      + done.
    - destruct Hn as [Hn _]. apply adds_now. exists []. by rewrite Hn. }
  destruct items as [items|]; [|exact Hnext].
  eapply adds_bind; [by apply pull_adds| |done]. intros evs [items' rows] (Hq & Hi & Hl & Hnil). destruct rows as [|row rows].
  - eapply adds_mono; [apply Hnext|]. intros evs' [[source' rows]|e]; [|done]. cbn [on_ok].
    apply pulled_before. intros evs'' rows'. cbn [source_answered default]. rewrite (Hnil eq_refl). by apply answered_silent.
  - apply adds_now. rewrite app_nil_r. split; [done|]. intros evs' rest H.
    apply answered_silent; [done|]. by eapply answered_rows.
Qed.

Lemma next_chunk_adds source :
  (0 < bs)%Z ->
  adds (next_chunk env slot bs ft source)
    (on_ok (fun evs '(source', rows) => pulled source source' evs rows)).
Proof.
  intros Hbs. destruct source as [items|t sts items]; [|by apply bound_chunk_adds]. cbn [next_chunk].
  eapply adds_bind; [by apply pull_adds| |done]. intros evs [items' rows] (Hq & Hi & Hl & Hnil).
  apply adds_now. rewrite app_nil_r. destruct rows as [|row rows]; [by rewrite (Hnil eq_refl)|].
  split; [done|]. intros evs' rest (H1 & H2 & ->). cbn [source_answered].
  by rewrite queries_app, Hq, H1, Hi, first_error_app, rows_of_app.
Qed.

Lemma read_source_adds fuel s source :
  (0 < bs)%Z ->
  adds (read_source env slot bs ft fuel s source)
    (on_ok (fun evs batches => exists rows, source_answered source evs rows /\ converted bs rows s batches)).
Proof.
  intros Hbs. revert source. induction fuel as [|fuel IH]; intros source; [by intros w|]. cbn [read_source].
  eapply adds_bind; [by apply next_chunk_adds| |done]. intros evs [source' [|row rows]] H.
  - apply adds_now. rewrite app_nil_r. exists []. split; [exact H|]. apply converted_nil.
  - destruct H as [Hl H]. apply adds_lift; [|done]. intros b Eb. eapply adds_bind; [apply IH| |done]. intros evs' batches (rest & Hr & Hc).
    apply adds_now. rewrite app_nil_r. exists ((row :: rows) ++ rest). split; [by apply H|]. by apply converted_cons.
Qed.

(** A run, without its result. *)
Definition forget {A} (o : option (World * Result A)) : option (World * Result unit) :=
  match o with Some (w, r) => Some (w, (fun _ => tt) <$> r) | None => None end.

(** Draining a reader is reading it and dropping the batches. *)
Lemma drain_source_reads fuel s source w :
  drain_source env fuel slot s bs ft source w =
  forget (read_source env slot bs ft fuel s source w).
Proof.
  revert source w. induction fuel as [|fuel IH]; intros source w; [done|]. cbn [drain_source read_source].
  unfold mbind, M_bind, lift. destruct (next_chunk _ _ _ _ _ w) as [[w1 [[source' [|row rows]]|e]]|]; [done| |done..].
  destruct (build_batch s (row :: rows)) as [b|e]; [|done]. rewrite IH.
  by destruct (read_source _ _ _ _ _ _ _ w1) as [[w2 [batches|e]]|].
Qed.

Lemma read_all_drains fuel reader w :
  drain_discarding_rows env fuel slot (match reader with
    | SpannerBatchReader s first source _ _ => SpannerBatchReader s first source bs ft
    | _ => reader
    end) w =
  forget (read_all env slot bs ft fuel reader w).
Proof.
  destruct reader as [batches s|s first source bs' ft']; [done|]. cbn [drain_discarding_rows read_all].
  unfold mbind, M_bind, lift. destruct first as [[|row rows]|].
  2: destruct (build_batch s (row :: rows)) as [b|e]; [|done].
  all: cbn [mret M_ret]; rewrite drain_source_reads; by destruct (read_source _ _ _ _ _ _ _ w) as [[w2 [batches|e]]|].
Qed.

Lemma read_source_returns s source w :
  exists n, forall fuel, n <= fuel -> is_Some (read_source env slot bs ft fuel s source w).
Proof.
  destruct (drain_source_returns env slot bs ft s _ _ source w (le_n _) (le_n _)) as [n Hn]. exists n.
  intros fuel Hf. specialize (Hn fuel Hf). rewrite drain_source_reads in Hn.
  by destruct (read_source _ _ _ _ _ _ _ _) as [[]|]; [eexists|destruct Hn].
Qed.

Lemma read_all_returns reader w :
  exists n, forall fuel, n <= fuel -> is_Some (read_all env slot bs ft fuel reader w).
Proof.
  destruct reader as [batches s|s first source bs' ft']; [by exists 0|]. cbn [read_all].
  destruct (read_source_returns s source w) as [n Hn]. exists n. intros fuel Hf. destruct (Hn fuel Hf) as [[w1 r] E].
  unfold mbind, M_bind, lift, mret, M_ret. destruct first as [[|row rows]|].
  2: destruct (build_batch s (row :: rows)) as [b|e]; [|done].
  all: rewrite E; by destruct r.
Qed.

(** What is delivered of the statements' answers, under the first one's schema. *)
Definition answers_read (precision : TimestampPrecision) (t : RoTxn) (statements : list (Result SpannerSql))
    (evs : list Event) (s : Schema) (batches : list RecordBatch) : Prop :=
  exists answers,
    map (fun a => Ok a.1) answers = statements /\
    queries evs = map (fun a => (inr t, a.1, inl a.2)) answers /\
    Forall (fun a => first_error (rs_items a.2) = None) answers /\
    converted bs (rows_answered answers) s batches /\
    forall a, head answers = Some a ->
      build_schema (rs_metadata a.2) (head (rows_of (rs_items a.2))) precision = Ok s.

Lemma stream_bound_adds fuel limit t sts precision :
  (0 < bs)%Z ->
  adds (reader ← stream_bound_query env slot limit t sts bs precision ft; read_all env slot bs ft fuel reader)
    (on_ok (fun evs '(s, batches) => answers_read precision t (pending_lazy sts) evs s batches)).
Proof.
  intros Hbs. unfold stream_bound_query. pose proof (next_statement_spec sts) as Hn.
  destruct (next_statement sts) as [sts' [[st|e]|]]; [|by apply adds_now|].
  - eapply adds_bind with (P := on_ok (fun evs reader => exists rep rs items' rows s,
      evs = [Ev (ExecuteQuery (inr t) st) rep] /\ r_outcome rep = inl rs /\
      pull_chunk (rs_items rs) bs = (items', Ok rows) /\ build_schema (rs_metadata rs) (head rows) precision = Ok s /\
      reader = SpannerBatchReader s (Some rows) (BoundQueryChunks t sts' (Some items')) bs ft)); [| |done].
    + apply adds_perform_then; [done..|]. intros rep [rs|se] Ho; [|done]. cbn.
      destruct (pull_chunk (rs_items rs) bs) as [items' [rows|e]] eqn:Ep; [|done]. cbn.
      destruct (build_schema _ _ _) as [s|e] eqn:Eb; [|done]. by exists rep, rs, items', rows, s.
    + intros evs reader (rep & rs & items' & rows & s & -> & Ho & Ep & Eb & ->). cbn [read_all].
      destruct (first_pull _ _ _ _ Hbs Ep) as (Hi & Hhead & Hl & _). rewrite <- Hhead in Eb.
      assert (forall evs rest batches, answered t sts' items' evs rest -> converted bs (rows ++ rest) s batches ->
        answers_read precision t (pending_lazy sts) ([Ev (ExecuteQuery (inr t) st) rep] ++ evs) s batches) as Hdone.
      { intros evs rest batches (answers & H1 & H2 & H3 & H4 & ->) Hc. exists ((st, rs) :: answers). rewrite Hn.
        cbn [map fst snd]. split; [by f_equal|]. split; [cbn; rewrite Ho; by f_equal|].
        split; [constructor; [cbn [snd]; by rewrite Hi, first_error_app|done]|]. split; [|by intros a [= <-]].
        unfold rows_answered. cbn [map concat snd]. by rewrite Hi, rows_of_app, <- app_assoc. }
      destruct rows as [|row rows].
      * apply adds_ret. eapply adds_bind; [by apply read_source_adds| |done].
        intros evs batches (rest & Hr & Hc). apply adds_now. rewrite app_nil_r. by eapply Hdone.
      * eapply adds_bind with (P := fun evs r => evs = [] /\ forall read, r = Ok read ->
          exists b, read = [b] /\ build_batch s (row :: rows) = Ok b); [| |done].
        { apply adds_lift; [intros b E; apply adds_now|]; split; try done. intros read [= <-]. by exists b. }
        intros evs read (-> & Hread). destruct (Hread _ eq_refl) as (b & -> & Eread). cbn [app].
        eapply adds_bind; [by apply read_source_adds| |done]. intros evs batches (rest & Hr & Hc).
        apply adds_now. rewrite app_nil_r. eapply Hdone; [exact Hr|]. by apply converted_cons.
  - destruct Hn as [Hn Hn']. apply adds_ret. cbn [read_all]. apply adds_ret.
    eapply adds_bind; [by apply read_source_adds| |done]. intros evs batches (rows & (answers & H1 & H2 & H3 & _ & ->) & Hc).
    apply adds_now. rewrite app_nil_r. exists answers. rewrite Hn' in H1. rewrite Hn, H1. split_and!; try done.
    by destruct answers.
Qed.

End Bound.

Section Executemany.
Context `{F : Formats} (env : Env) (self : Statement).

(** [execute_bound_query], read to the end by its caller. *)
Definition bound_query_all (q : rstr) (fuel : nat) : M (Schema * list RecordBatch) :=
  reader ← execute_bound_query env self q;
  read_all env (st_slot self) (rows_per_batch self) (fetch_timeout (timeouts (st_config self))) fuel reader.

(** The statements of bound rows, one per row. *)
Definition bound_statements (q : rstr) (gs : list (list rstr * RecordBatch)) : list (Result SpannerSql) :=
  concat (map (fun g => map (bind_params (read_sql_builder self q) g.1 g.2) (seq 0 (num_rows g.2))) gs).

Lemma pending_bound_statements q gs :
  pending_lazy (mkLazy (read_sql_builder self q) gs 0 0) = bound_statements q gs.
Proof.
  rewrite pending_lazy_0 by done. cbn [base_builder groups group]. rewrite drop_0. unfold bound_statements, group_statements.
  f_equal. apply map_ext. intros g. by rewrite Nat.sub_0_r.
Qed.

Lemma manual_read_transaction_adds :
  adds (manual_read_transaction env self) (fun evs _ => queries evs = []).
Proof.
  assert (runs (traces no_query) (manual_read_transaction env self)) as H.
  { unfold manual_read_transaction. runs. intros w. unfold wlp, locked, install_section.
    destruct (autocommit (w_txn w)); [|destruct (start_read_txn (w_txn w) _)]; exists []; by rewrite app_nil_r. }
  intros w. eapply wlp_mono; [apply H|]. intros w' r (evs & E & Hn). exists evs. split; [done|]. by apply queries_none.
Qed.

Lemma manual_read_transaction_returns w : is_Some (manual_read_transaction env self w).
Proof.
  unfold manual_read_transaction, mbind, M_bind, locked, lift, perform, perform_then.
  destruct (snapshot_section _); [done|]. destruct (multi_use_bound self); [|done].
  destruct (slot_cancelled _ _); [done|]. destruct (r_cancelled _); [done|].
  unfold install_section. destruct (with_timeout _ _ _ _); [|done].
  destruct (autocommit _); [done|]. by destruct (start_read_txn _ _).
Qed.

Lemma stream_bound_query_returns limit t sts size precision ft w :
  is_Some (stream_bound_query env (st_slot self) limit t sts size precision ft w).
Proof.
  unfold stream_bound_query, perform_then. destruct (next_statement sts) as [sts' [[st|e]|]]; [|done|done].
  destruct (slot_cancelled _ _); [done|]. by destruct (r_cancelled _).
Qed.

Lemma bound_query_adds q gs fuel :
  (0 < rows_per_batch self)%Z -> bound_groups self q = Ok gs -> 1 < sum_list_with (fun g => num_rows g.2) gs ->
  adds (bound_query_all q fuel)
    (on_ok (fun evs '(s, batches) => exists t,
       answers_read (rows_per_batch self) (timestamp_precision (st_config self)) t (bound_statements q gs) evs s batches)).
Proof.
  intros Hbs Hgs Hrows. unfold bound_query_all, execute_bound_query.
  assert (forall t evs (r : Result (Schema * list RecordBatch)) evs',
    on_ok (fun evs '(s, batches) => answers_read (rows_per_batch self) (timestamp_precision (st_config self)) t
      (bound_statements q gs) evs s batches) evs r -> queries evs' = [] ->
    on_ok (fun evs '(s, batches) => exists t, answers_read (rows_per_batch self) (timestamp_precision (st_config self)) t
      (bound_statements q gs) evs s batches) (evs' ++ evs) r) as Hsilent.
  { intros t evs [[s batches]|e] evs' H Hq; [|done]. destruct H as (answers & H1 & H2 & H3). exists t, answers.
    by rewrite queries_app, Hq. }
  apply adds_assoc, adds_lift; [|done]. rewrite Hgs. intros gs' [= <-]. apply adds_assoc.
  eapply adds_bind; [apply manual_read_transaction_adds| |done]. intros evs manual_txn Hq. rewrite decide_False by lia.
  apply adds_assoc, adds_lift; [|done]. intros bound _. apply adds_assoc.
  eapply adds_bind with (P := fun evs _ => queries evs = []); [| |done].
  { destruct manual_txn; [by apply adds_now|]. by apply adds_perform_then. }
  intros evs' t Hq'. rewrite <- pending_bound_statements.
  eapply adds_mono; [by apply stream_bound_adds|]. intros evs2 r Hr. rewrite <- pending_bound_statements in Hsilent.
  rewrite app_assoc. apply (Hsilent t); [exact Hr|]. by rewrite queries_app, Hq, Hq'.
Qed.

Lemma bound_query_returns q gs w :
  bound_groups self q = Ok gs -> 1 < sum_list_with (fun g => num_rows g.2) gs ->
  exists n, forall fuel, n <= fuel -> is_Some (bound_query_all q fuel w).
Proof.
  intros Hgs Hrows. unfold bound_query_all.
  assert (is_Some (execute_bound_query env self q w)) as [[w1 [reader|e]] E].
  { unfold execute_bound_query. rewrite Hgs. unfold mbind at 1, M_bind at 1, lift at 1. unfold mbind at 1, M_bind at 1.
    destruct (manual_read_transaction_returns w) as [[w1 [txn|e]] ->]; [|done]. rewrite decide_False by lia.
    unfold mbind, M_bind, lift, mret, M_ret. destruct (multi_use_bound self) as [bound|e]; [|done].
    destruct txn as [t|]; [apply stream_bound_query_returns|]. unfold perform, perform_then.
    destruct (slot_cancelled _ _); [done|]. destruct (r_cancelled _); [done|].
    destruct (with_timeout _ _ _ _); [apply stream_bound_query_returns|done]. }
  - destruct (read_all_returns env (st_slot self) (rows_per_batch self) (fetch_timeout (timeouts (st_config self))) reader w1)
      as [n Hn]. exists n. intros fuel Hf. unfold mbind, M_bind. rewrite E. by apply Hn.
  - exists 0. intros fuel _. unfold mbind, M_bind. by rewrite E.
Qed.

End Executemany.
