(* ===== verification/Uri.v ===== *)
(** * [src/driver/uri.rs]: the [spanner:] connection URI

    The parser of the [uri] option: scheme, authority, database path and
    percent-decoded query parameters; and a renderer of such URIs, against which
    the parser is shown to be a left inverse. *)

From S2P Require Import Prelude RustStr Utf8 ErrorModel Options.

(** ** Scheme and endpoint *)

Definition ensure_scheme (host : rstr) : rstr :=
  if starts_with (str "http://") host || starts_with (str "https://") host then host
  else str "http://" ++ host.

Definition SCHEME : rstr := str "spanner:".

(** [value.get(..8)] and [&value[8..]]: byte ranges, [None] off a char boundary. *)
Definition connection_uri_remainder (value : rstr) : option rstr :=
  prefix ← byte_take (utf8_len SCHEME) value;
  if eq_ignore_ascii_case prefix SCHEME then byte_skip (utf8_len SCHEME) value else None.

(** ** Query parameters *)

Definition URI_QUERY_OPTIONS : list rstr :=
  [OPTION_ENDPOINT; OPTION_EMULATOR; OPTION_KEYFILE; OPTION_IMPERSONATE_TARGET_PRINCIPAL;
   OPTION_IMPERSONATE_DELEGATES; OPTION_IMPERSONATE_SCOPES; OPTION_IMPERSONATE_LIFETIME;
   OPTION_QUOTA_PROJECT].

Definition URI_SECRET_OPTIONS : list rstr := [OPTION_KEYFILE_JSON; OPTION_ACCESS_TOKEN].

(** The decoding loop over the bytes; [None] is a malformed escape.  Two ASCII
    hexadecimal digits are valid UTF-8 and in the range of [u8], so
    [from_str_radix] cannot fail on them. *)
Fixpoint percent_decode_loop (bytes : list byte) : option (list byte) :=
  match bytes with
  | [] => Some []
  | b :: rest =>
      if decide (b = cPERCENT) then
        match rest with
        | hi :: lo :: rest' =>
            if is_ascii_hexdigit hi && is_ascii_hexdigit lo then
              v ← hex_byte hi lo; cons v <$> percent_decode_loop rest'
            else None
        | _ => None
        end
      else cons b <$> percent_decode_loop rest
  end.

Definition percent_decode (s : rstr) : Result rstr :=
  if negb (contains_char cPERCENT s) then Ok s
  else
    out ← ok_or (percent_decode_loop (as_bytes s))
      (invalid_argument [Lit "malformed percent-encoding in connection URI component "; Dbg s]);
    ok_or (from_utf8 out)
      (invalid_argument [Lit "connection URI component "; Dbg s;
                         Lit " percent-decodes to invalid UTF-8"]).

Definition parse_param (pair : rstr) : Result (rstr * rstr) :=
  let '(key, value) := match split_once cEQ pair with Some kv => kv | None => (pair, []) end in
  key ← percent_decode key;
  if decide (key ∈ URI_SECRET_OPTIONS) then
    Err (invalid_argument
      [Lit "connection URI query parameter "; Dbg key; Lit " is not supported because its value is a secret, and a connection URI is routinely logged (shell history, process listings, tracing spans); set the `";
       Disp key; Lit "` database option directly instead"])
  else if decide (key ∈ URI_QUERY_OPTIONS) then
    value ← percent_decode value; Ok (key, value)
  else
    Err (invalid_argument
      [Lit "unknown connection URI query parameter "; Dbg key; Lit "; supported parameters: ";
       Disp (join (str ", ") URI_QUERY_OPTIONS)]).

(** ** The whole URI *)

Record ParsedConnectionUri := mkParsed {
  pu_database : rstr;
  pu_endpoint : option rstr;
  pu_params : list (rstr * rstr);
}.

Definition database_path (path : rstr) : Result rstr :=
  let bad := invalid_argument
    [Lit "the `uri` option's connection URI path "; Dbg path; Lit " is not a Spanner database path: it must be projects/<project>/instances/<instance>/databases/<database>, and in `spanner://projects/...` the `projects` segment parses as a host authority; write `spanner:///projects/...` (three slashes) when no endpoint host is intended"] in
  match split_on cSLASH path with
  | [k1; p; k2; i; k3; d] =>
      if decide (k1 = str "projects" /\ k2 = str "instances" /\ k3 = str "databases" /\
                 p <> [] /\ i <> [] /\ d <> []) then Ok path else Err bad
  | _ => Err bad
  end.

Definition parse_connection_uri (uri remainder : rstr) : Result ParsedConnectionUri :=
  match split_once cHASH remainder with
  | Some _ => Err (invalid_argument [Lit "connection URI must not carry a #fragment"])
  | None =>
      let '(before_query, query) := match split_once cQUESTION remainder with
        | Some (path, query) => (path, query)
        | None => (remainder, [])
        end in
      after_authority ← ok_or (strip_prefix [cSLASH; cSLASH] before_query)
        (invalid_argument
          [Lit "the `uri` option value "; Dbg uri; Lit " does not use the required `spanner://` form: the scheme must be followed by two slashes; write `spanner:///projects/...` (three slashes) when no endpoint host is intended"]);
      let '(authority, path) := match split_once cSLASH after_authority with
        | Some ap => ap
        | None => (after_authority, [])
        end in
      let endpoint := if decide (authority = []) then None else Some authority in
      database ← database_path path;
      params ← try_map parse_param (filter (fun s => s <> []) (split_on cAMP query));
      Ok (mkParsed database endpoint params)
  end.

(** ** A renderer of connection URIs

    RFC 3986's percent-encoding (everything but the unreserved characters is
    escaped), and the URI of a parsed configuration. *)

Definition is_unreserved (b : byte) : bool :=
  is_ascii_alphanumeric b || bool_decide (b ∈ [cDASH; cDOT; cUNDERSCORE; 126%N]).

Definition encode_byte (b : byte) : rstr :=
  if is_unreserved b then [b] else [cPERCENT; hex_digit (b / 16)%N; hex_digit (b mod 16)%N].

Definition percent_encode (s : rstr) : rstr := concat (map encode_byte (as_bytes s)).

Definition render_param (kv : rstr * rstr) : rstr :=
  percent_encode kv.1 ++ cEQ :: percent_encode kv.2.

Definition render_query (params : list (rstr * rstr)) : rstr :=
  match params with [] => [] | _ => cQUESTION :: join [cAMP] (map render_param params) end.

Definition render_uri (p : ParsedConnectionUri) : rstr :=
  SCHEME ++ cSLASH :: cSLASH :: default [] (pu_endpoint p) ++
  cSLASH :: pu_database p ++ render_query (pu_params p).

(** What a URI can say: a database path and an authority without the URI's own
    delimiters, and parameters that are not secrets. *)
Definition uri_ok (p : ParsedConnectionUri) : Prop :=
  database_path (pu_database p) = Ok (pu_database p) /\
  cHASH ∉ pu_database p /\ cQUESTION ∉ pu_database p /\ scalars (pu_database p) /\
  match pu_endpoint p with
  | None => True
  | Some e => e <> [] /\ cHASH ∉ e /\ cQUESTION ∉ e /\ cSLASH ∉ e /\ scalars e
  end /\
  Forall (fun kv => kv.1 ∈ URI_QUERY_OPTIONS /\ scalars kv.2) (pu_params p).

(** ** Percent-decoding inverts percent-encoding *)

Lemma hex_digit_hexdigit n : (n < 16)%N -> is_ascii_hexdigit (hex_digit n) = true.
Proof.
  intros H. unfold is_ascii_hexdigit, is_ascii_digit, hex_digit.
  destruct (decide (n < 10)%N); repeat case_bool_decide; try done; lia.
Qed.

(** The characters an encoded component is made of. *)
Definition encoded_char (c : char) : Prop := c = cPERCENT \/ is_unreserved c = true.

Lemma unreserved_ascii c : is_unreserved c = true -> (c < 0x80)%N /\ c <> cPERCENT.
Proof.
  unfold is_unreserved, is_ascii_alphanumeric, is_ascii_alphabetic, is_ascii_uppercase,
    is_ascii_lowercase, is_ascii_digit. rewrite !orb_true_iff, !bool_decide_eq_true. set_unfold. lia.
Qed.

Lemma hex_digit_unreserved n : (n < 16)%N -> is_unreserved (hex_digit n) = true.
Proof.
  intros H. unfold is_unreserved, is_ascii_alphanumeric, is_ascii_alphabetic, is_ascii_uppercase,
    is_ascii_lowercase, is_ascii_digit, hex_digit.
  rewrite !orb_true_iff, !bool_decide_eq_true. destruct (decide (n < 10)%N); lia.
Qed.

Lemma encode_byte_chars b : (b < 256)%N -> Forall encoded_char (encode_byte b).
Proof.
  intros Hb. assert (b / 16 < 16)%N by (apply N.Div0.div_lt_upper_bound; lia).
  assert (b mod 16 < 16)%N by (apply N.mod_lt; lia).
  unfold encode_byte, encoded_char. destruct (is_unreserved b) eqn:E;
    repeat (apply Forall_cons; split); auto using hex_digit_unreserved.
Qed.

Lemma percent_encode_chars s : scalars s -> Forall encoded_char (percent_encode s).
Proof.
  intros Hs%as_bytes_bytes. unfold percent_encode. induction Hs as [|b bs Hb _ IH]; [constructor|].
  cbn. apply Forall_app. auto using encode_byte_chars.
Qed.

(** No delimiter of the query survives encoding. *)
Lemma percent_encode_free s d :
  scalars s -> is_unreserved d = false -> d <> cPERCENT -> d ∉ percent_encode s.
Proof.
  intros Hs Hd Hp Hin. pose proof (percent_encode_chars s Hs) as H. rewrite Forall_forall in H.
  destruct (H d Hin); [done|congruence].
Qed.

Lemma encoded_ascii s : Forall encoded_char s -> Forall (fun c => c < 0x80)%N s.
Proof.
  intros H. eapply Forall_impl; [exact H|]. intros c [->|Hc%unreserved_ascii]; [done|]. cbn. lia.
Qed.

Lemma percent_encode_scalars s : scalars s -> scalars (percent_encode s).
Proof.
  intros H%percent_encode_chars%encoded_ascii. eapply Forall_impl; [exact H|]. intros c Hc. left. cbn in *. lia.
Qed.

Lemma decode_encode_loop bs :
  Forall (fun b => b < 256)%N bs -> percent_decode_loop (concat (map encode_byte bs)) = Some bs.
Proof.
  induction 1 as [|b bs Hb _ IH]; [done|]. cbn [map concat]. unfold encode_byte at 1.
  assert (b / 16 < 16)%N by (apply N.Div0.div_lt_upper_bound; lia).
  assert (b mod 16 < 16)%N by (apply N.mod_lt; lia).
  destruct (is_unreserved b) eqn:E; cbn [app percent_decode_loop].
  - apply unreserved_ascii in E as [_ E]. rewrite decide_False by done. by rewrite IH.
  - rewrite decide_True by done. rewrite !hex_digit_hexdigit by done. cbn [andb].
    rewrite hex_byte_digits by done. cbn. by rewrite IH.
Qed.

Lemma decode_no_percent bs : cPERCENT ∉ bs -> percent_decode_loop bs = Some bs.
Proof.
  induction bs as [|b bs IH]; [done|]. intros H. cbn.
  rewrite decide_False by set_solver. by rewrite IH by set_solver.
Qed.

Lemma from_utf8_ascii bs : Forall (fun c => c < 0x80)%N bs -> from_utf8 bs = Some bs.
Proof.
  intros H. rewrite <- (as_bytes_ascii bs H) at 1. apply from_utf8_as_bytes.
  eapply Forall_impl; [exact H|]. intros c Hc. left. cbn in *. lia.
Qed.

Lemma percent_decode_encode s : scalars s -> percent_decode (percent_encode s) = Ok s.
Proof.
  intros Hs. unfold percent_decode, contains_char.
  pose proof (percent_encode_chars s Hs) as He.
  rewrite (as_bytes_ascii (percent_encode s)) by by apply encoded_ascii.
  pose proof (decode_encode_loop _ (as_bytes_bytes s Hs)) as Hl.
  change (percent_decode_loop (percent_encode s) = Some (as_bytes s)) in Hl.
  case_bool_decide as Hc; cbn [negb].
  - rewrite Hl. cbn. by rewrite from_utf8_as_bytes.
  - f_equal. rewrite decode_no_percent in Hl by done. injection Hl as E. rewrite E.
    rewrite E in He. apply encoded_ascii, from_utf8_ascii in He.
    rewrite from_utf8_as_bytes in He by done. congruence.
Qed.

Lemma percent_decode_scalars s t : scalars s -> percent_decode s = Ok t -> scalars t.
Proof.
  intros Hs. unfold percent_decode. destruct (negb _); [by intros [= <-]|].
  intros H. inv_bind H. unfold ok_or in H. destruct (from_utf8 _) eqn:E'; simplify_eq.
  by apply from_utf8_inv in E' as [].
Qed.

(** ** Parsing inverts rendering *)

Lemma query_key_facts k :
  k ∈ URI_QUERY_OPTIONS -> percent_encode k = k /\ scalars k /\ k ∉ URI_SECRET_OPTIONS.
Proof.
  intros Hk. assert (bool_decide (percent_encode k = k /\ Forall is_scalar k /\ k ∉ URI_SECRET_OPTIONS) = true) as H.
  { repeat (apply elem_of_cons in Hk as [->|Hk]; [vm_compute; reflexivity|]). by apply elem_of_nil in Hk. }
  by apply bool_decide_eq_true in H.
Qed.

Lemma parse_render_param kv :
  kv.1 ∈ URI_QUERY_OPTIONS -> scalars kv.2 -> parse_param (render_param kv) = Ok kv.
Proof.
  destruct kv as [k v]. cbn. intros Hk Hv. destruct (query_key_facts k Hk) as (_ & Hks & Hns).
  unfold parse_param, render_param. cbn [fst snd].
  rewrite (proj2 (split_once_Some cEQ _ (percent_encode k) (percent_encode v))).
  - unfold mbind, Result_mbind. cbn beta iota. rewrite (percent_decode_encode k), (percent_decode_encode v) by done.
    by rewrite decide_False, decide_True by done.
  - split; [done|]. by apply percent_encode_free.
Qed.

Lemma render_param_free kv d :
  kv.1 ∈ URI_QUERY_OPTIONS -> scalars kv.2 ->
  is_unreserved d = false -> d <> cPERCENT -> d <> cEQ -> d ∉ render_param kv.
Proof.
  destruct kv as [k v]. cbn. intros Hk Hv Hu Hp He. destruct (query_key_facts k Hk) as (_ & Hks & _).
  unfold render_param. cbn. pose proof (percent_encode_free k d Hks Hu Hp).
  pose proof (percent_encode_free v d Hv Hu Hp). set_solver.
Qed.

Lemma filter_all {A} (P : A -> Prop) `{!forall x, Decision (P x)} l : Forall P l -> filter P l = l.
Proof. induction 1 as [|x l Hx _ IH]; [done|]. by rewrite filter_cons_True, IH. Qed.

Lemma join_free (sep : rstr) (l : list rstr) d : d ∉ sep -> Forall (fun p => d ∉ p) l -> d ∉ join sep l.
Proof.
  intros Hs. induction 1 as [|p l Hpp Hl IH]; [set_solver|].
  destruct l as [|q l]; [done|]. change (join sep (p :: q :: l)) with (p ++ sep ++ join sep (q :: l)). set_solver.
Qed.

Lemma render_query_cases ps :
  (ps = [] /\ render_query ps = []) \/
  (ps <> [] /\ render_query ps = cQUESTION :: join [cAMP] (map render_param ps)).
Proof. destruct ps; [by left|by right]. Qed.

Section Params.
Variable params : list (rstr * rstr).
Hypothesis Hp : Forall (fun kv => kv.1 ∈ URI_QUERY_OPTIONS /\ scalars kv.2) params.

Lemma rendered_free d :
  is_unreserved d = false -> d <> cPERCENT -> d <> cEQ -> Forall (fun p => d ∉ p) (map render_param params).
Proof.
  intros. apply Forall_map. eapply Forall_impl; [exact Hp|].
  intros kv [??]. by apply render_param_free.
Qed.

Lemma render_query_free d :
  is_unreserved d = false -> d ∉ [cPERCENT; cEQ; cAMP; cQUESTION] -> d ∉ render_query params.
Proof.
  intros Hu Hd. destruct (render_query_cases params) as [[-> ->]|[_ ->]]; [set_solver|].
  apply not_elem_of_cons. split; [set_solver|].
  apply join_free; [set_solver|]. apply rendered_free; set_solver.
Qed.

Lemma render_query_scalars : scalars (render_query params).
Proof.
  destruct (render_query_cases params) as [[_ ->]|[_ ->]]; [constructor|].
  apply Forall_cons. split; [by left|].
  assert (Forall scalars (map render_param params)) as H.
  { apply Forall_map. eapply Forall_impl; [exact Hp|]. intros [k v] [Hk Hv]. cbn in *.
    destruct (query_key_facts k Hk) as (_ & Hks & _).
    apply Forall_app. split; [by apply percent_encode_scalars|]. apply Forall_cons.
    split; [by left|by apply percent_encode_scalars]. }
  induction H as [|x l Hx Hl IH]; [constructor|]. destruct l as [|y l]; [done|].
  change (join [cAMP] (x :: y :: l)) with (x ++ cAMP :: join [cAMP] (y :: l)).
  apply Forall_app. split; [done|]. apply Forall_cons. by split; [left|].
Qed.

(** The query part, split off and parsed again. *)
Lemma parse_render_query :
  try_map parse_param (filter (fun s => s <> []) (split_on cAMP (tail (render_query params)))) = Ok params.
Proof.
  destruct (render_query_cases params) as [[-> ->]|[Hne ->]]; [done|]. cbn [tail].
  rewrite split_on_join_inv; [|by intros ?%map_eq_nil%Hne|by apply rendered_free].
  rewrite filter_all.
  - clear Hne. induction Hp as [|kv l [Hk Hv] _ IH]; [done|]. cbn [map try_map].
    rewrite parse_render_param by done. cbn. by rewrite IH by by inversion Hp.
  - apply Forall_map, Forall_true. intros kv. unfold render_param. cbn. by destruct (percent_encode kv.1).
Qed.

End Params.

(** The authority, the path and the query of a rendered URI. *)
Lemma parse_render_uri p :
  uri_ok p -> exists rem, connection_uri_remainder (render_uri p) = Some rem /\ scalars rem /\
    forall uri, parse_connection_uri uri rem = Ok p.
Proof.
  destruct p as [db ep ps]. unfold uri_ok. cbn. intros (Hdb & Hh & Hq & Hs & Hep & Hps).
  set (auth := default [] ep). set (pre := cSLASH :: cSLASH :: auth ++ cSLASH :: db).
  assert (scalars auth /\ cHASH ∉ auth /\ cQUESTION ∉ auth /\ cSLASH ∉ auth) as (Has & Hah & Haq & Hasl).
  { subst auth. destruct ep; cbn; [tauto|]. split_and!; [constructor|set_solver..]. }
  assert (cHASH ∉ pre /\ cQUESTION ∉ pre) as [Hph Hpq] by (subst pre; set_solver).
  exists (pre ++ render_query ps).
  assert (render_uri (mkParsed db ep ps) = SCHEME ++ pre ++ render_query ps) as ->.
  { unfold render_uri, pre. cbn. by rewrite <- app_assoc. }
  split; [|split].
  - unfold connection_uri_remainder. rewrite byte_take_app, byte_skip_app. cbn.
    by rewrite eq_ignore_ascii_case_refl.
  - apply Forall_app. split; [|by apply render_query_scalars].
    subst pre. repeat (apply Forall_cons; split); [by left..|].
    apply Forall_app. split; [done|]. apply Forall_cons. by split; [left|].
  - intros uri. unfold parse_connection_uri.
    rewrite (proj2 (split_once_None cHASH _)).
    2: { apply not_elem_of_app. split; [done|]. apply render_query_free; [done..|set_solver]. }
    assert (match split_once cQUESTION (pre ++ render_query ps) with
            | Some (path, query) => (path, query) | None => (pre ++ render_query ps, []) end =
            (pre, tail (render_query ps))) as ->.
    { unfold render_query. destruct ps as [|kv ps].
      - rewrite app_nil_r. by rewrite (proj2 (split_once_None _ _)).
      - rewrite (proj2 (split_once_Some _ _ pre (join [cAMP] (map render_param (kv :: ps))))); done. }
    rewrite (proj2 (strip_prefix_Some [cSLASH; cSLASH] pre (auth ++ cSLASH :: db)) eq_refl).
    unfold mbind, Result_mbind. cbn beta iota delta [ok_or].
    rewrite (proj2 (split_once_Some cSLASH _ auth db)) by done.
    rewrite Hdb. rewrite parse_render_query by done. do 2 f_equal.
    subst auth. destruct ep as [e|]; cbn in *; [|done]. by rewrite decide_False by tauto.
Qed.

(** ** What the parser accepts *)

Lemma scalars_app a b : scalars (a ++ b) <-> scalars a /\ scalars b.
Proof. apply Forall_app. Qed.

Lemma scalars_cons c s : scalars (c :: s) <-> is_scalar c /\ scalars s.
Proof. apply Forall_cons. Qed.

Lemma split_on_scalars d s : scalars s -> Forall scalars (split_on d s).
Proof.
  induction 1 as [|c s Hc Hs IH]; cbn; [repeat constructor|]. case_decide; [by constructor; [constructor|]|].
  destruct (split_on d s) as [|p ps]; [by apply Forall_singleton, Forall_singleton|].
  apply Forall_cons in IH as [Hp Hps]. constructor; [by apply Forall_cons|done].
Qed.

Lemma parse_param_ok pair kv :
  scalars pair -> parse_param pair = Ok kv -> kv.1 ∈ URI_QUERY_OPTIONS /\ scalars kv.2.
Proof.
  intros Hs. unfold parse_param. destruct (match split_once _ _ with Some _ => _ | None => _ end) as [k v] eqn:E.
  assert (scalars v) as Hv.
  { destruct (split_once cEQ pair) as [[a b]|] eqn:E'; injection E as <- <-; [|constructor].
    apply split_once_Some in E' as [-> _]. apply scalars_app in Hs as [_ Hs]. by apply scalars_cons in Hs as []. }
  intros H. inv_bind H. destruct (decide (_ ∈ URI_SECRET_OPTIONS)); [done|].
  destruct (decide (_ ∈ URI_QUERY_OPTIONS)) as [Hin|]; [|done]. inv_bind H. simplify_eq. cbn.
  split; [done|]. by eapply percent_decode_scalars.
Qed.

Lemma database_path_id path db : database_path path = Ok db -> db = path.
Proof. unfold database_path. intros H. crush. Qed.

Lemma parse_connection_uri_ok uri rem p :
  scalars rem -> parse_connection_uri uri rem = Ok p -> uri_ok p.
Proof.
  intros Hs. unfold parse_connection_uri. destruct (split_once cHASH rem) as [|] eqn:Eh; [done|].
  apply split_once_None in Eh.
  destruct (match split_once cQUESTION rem with Some _ => _ | None => _ end) as [before query] eqn:Eq.
  assert ((before ++ query ⊆ rem /\ cQUESTION ∉ before) /\ scalars before /\ scalars query)
    as ([Hsub Hbq] & Hbs & Hqs).
  { destruct (split_once cQUESTION rem) as [[a b]|] eqn:E'; injection Eq as <- <-.
    - apply split_once_Some in E' as [-> ?]. apply scalars_app in Hs as [? [_ ?]%scalars_cons]. set_solver.
    - apply split_once_None in E'. rewrite app_nil_r. repeat split; [done..|constructor]. }
  destruct (strip_prefix _ before) as [after|] eqn:Ep; [|done]. apply strip_prefix_Some in Ep as ->.
  cbn [ok_or]. unfold mbind at 1, Result_mbind at 1. cbn beta iota.
  apply scalars_app in Hbs as [_ Hbs].
  destruct (match split_once cSLASH after with Some _ => _ | None => _ end) as [auth path] eqn:Ea.
  assert (auth ++ path ⊆ after /\ cSLASH ∉ auth /\ scalars auth /\ scalars path) as (Hsub' & Hsl & Has & Hpas).
  { destruct (split_once cSLASH after) as [[a b]|] eqn:E'; injection Ea as <- <-.
    - apply split_once_Some in E' as [-> ?]. apply scalars_app in Hbs as [? [_ ?]%scalars_cons]. set_solver.
    - apply split_once_None in E'. rewrite app_nil_r. repeat split; [done..|constructor]. }
  intros H. inv_bind H. injection H as <-. pose proof (database_path_id _ _ E) as ->.
  unfold uri_ok. cbn. split_and!; [done|set_solver..|done| |].
  - case_decide; [done|]. split_and!; [done|set_solver..|done].
  - apply try_map_Ok_Forall2 in E0. eapply Forall2_Forall_r; [exact E0|].
    apply Forall_forall. intros pair [_ Hin]%list_elem_of_filter kv Hkv.
    eapply parse_param_ok; [|exact Hkv]. by eapply Forall_forall in Hin; [|by apply split_on_scalars].
Qed.

(** ** Properties *)

(** C28: the [uri] option says exactly what a configuration can say.  A connection
    URI parses to a database path, an authority and parameters precisely when
    they are well formed ([uri_ok]: a complete database path and an authority
    free of the URI's delimiters, only non-secret option names, values any text),
    and every such configuration has a URI, with its values percent-encoded, that
    parses back to it: nothing is lost, reordered or decoded twice. *)
Theorem uri_round_trip (p : ParsedConnectionUri) :
  (uri_ok p <-> exists uri rem, scalars rem /\ parse_connection_uri uri rem = Ok p) /\
  (uri_ok p -> exists rem, connection_uri_remainder (render_uri p) = Some rem /\
     forall uri, parse_connection_uri uri rem = Ok p).
Proof.
  split; [split|].
  - intros (rem & _ & ? & Hp)%parse_render_uri. by exists [], rem.
  - intros (uri & rem & Hs & Hp). by eapply parse_connection_uri_ok.
  - intros (rem & ? & _ & Hp)%parse_render_uri. by exists rem.
Qed.
