(* ===== verification/Driver.v ===== *)
(** * [src/driver.rs] and [src/driver/credentials.rs]: databases

    A database is its options and the client stack cached for them.  The
    definitions follow the two files: the option setter and getter with the
    connection URI's expansion (from [src/driver/uri.rs]), the [Debug] text, the
    credential ladder, [connect] with its guards, and the cache.

    The crates outside the repository (google-cloud-auth, the Spanner client,
    serde_json, http), the process environment and the file system are the
    interface [Outside]; what they answer depends on the moment they are asked,
    a [Moment]. *)

From S2P Require Import Prelude RustStr RustNum ErrorModel Options Config Runtime Txn Client Connection Uri.

(** ** Options of a database *)

(** [adbc_core::options::OptionDatabase] and its [AsRef<str>]. *)
Inductive OptionDatabase :=
  | OdUri
  | OdUsername
  | OdPassword
  | OdOther (name : rstr).

Definition od_name (key : OptionDatabase) : rstr :=
  match key with
  | OdUri => str "uri"
  | OdUsername => str "username"
  | OdPassword => str "password"
  | OdOther name => name
  end.

(** [str::parse::<u64>]: an optional [+], then at least one digit. *)
Definition parse_u64 (s : rstr) : option Z :=
  n ← match s with
      | [] => None
      | c :: r => if decide (c = cPLUS) then parse_digits r else parse_digits s
      end;
  if decide (n <= u64_max)%Z then Some n else None.

Definition string_value (key : OptionDatabase) (value : OptionValue) : Result rstr :=
  string_option value (option_label (od_name key)).

Definition bool_value (key : OptionDatabase) (value : OptionValue) : Result bool :=
  bool_option value (option_label (od_name key)).

Definition comma_separated (value : rstr) : list rstr :=
  filter (fun part => part <> []) (map trim (split_on cCOMMA value)).

Definition u64_seconds_value (key : OptionDatabase) (value : OptionValue) : Result Z :=
  let plain := invalid_argument
    [Lit "option "; Disp (od_name key); Lit " expects a non-negative integer number of seconds"] in
  match value with
  | OInt seconds => if decide (0 <= seconds)%Z then Ok seconds else Err plain
  | OString seconds =>
      ok_or (parse_u64 (trim seconds))
        (invalid_argument [Lit "option "; Disp (od_name key);
           Lit " expects a non-negative integer number of seconds, got "; Dbg seconds])
  | _ => Err plain
  end.

(** The option fields of [SpannerDatabase]. *)
Record DbConfig := mkDbConfig {
  db_uri : option rstr;
  db_database : option rstr;
  db_endpoint : option rstr;
  db_emulator : bool;
  db_keyfile : option rstr;
  db_keyfile_json : option rstr;
  db_target_principal : option rstr;
  db_delegates : list rstr;
  db_scopes : list rstr;
  db_lifetime_secs : option Z;
  db_access_token : option rstr;
  db_quota_project : option rstr;
}.

Definition DbConfig_new : DbConfig :=
  mkDbConfig None None None false None None None [] [] None None None.

Section Setters.
Variable c : DbConfig.

Definition with_uri v := mkDbConfig v (db_database c) (db_endpoint c) (db_emulator c) (db_keyfile c) (db_keyfile_json c) (db_target_principal c) (db_delegates c) (db_scopes c) (db_lifetime_secs c) (db_access_token c) (db_quota_project c).
Definition with_database v := mkDbConfig (db_uri c) v (db_endpoint c) (db_emulator c) (db_keyfile c) (db_keyfile_json c) (db_target_principal c) (db_delegates c) (db_scopes c) (db_lifetime_secs c) (db_access_token c) (db_quota_project c).
Definition with_endpoint v := mkDbConfig (db_uri c) (db_database c) v (db_emulator c) (db_keyfile c) (db_keyfile_json c) (db_target_principal c) (db_delegates c) (db_scopes c) (db_lifetime_secs c) (db_access_token c) (db_quota_project c).
Definition with_emulator v := mkDbConfig (db_uri c) (db_database c) (db_endpoint c) v (db_keyfile c) (db_keyfile_json c) (db_target_principal c) (db_delegates c) (db_scopes c) (db_lifetime_secs c) (db_access_token c) (db_quota_project c).
Definition with_keyfile v := mkDbConfig (db_uri c) (db_database c) (db_endpoint c) (db_emulator c) v (db_keyfile_json c) (db_target_principal c) (db_delegates c) (db_scopes c) (db_lifetime_secs c) (db_access_token c) (db_quota_project c).
Definition with_keyfile_json v := mkDbConfig (db_uri c) (db_database c) (db_endpoint c) (db_emulator c) (db_keyfile c) v (db_target_principal c) (db_delegates c) (db_scopes c) (db_lifetime_secs c) (db_access_token c) (db_quota_project c).
Definition with_target_principal v := mkDbConfig (db_uri c) (db_database c) (db_endpoint c) (db_emulator c) (db_keyfile c) (db_keyfile_json c) v (db_delegates c) (db_scopes c) (db_lifetime_secs c) (db_access_token c) (db_quota_project c).
Definition with_delegates v := mkDbConfig (db_uri c) (db_database c) (db_endpoint c) (db_emulator c) (db_keyfile c) (db_keyfile_json c) (db_target_principal c) v (db_scopes c) (db_lifetime_secs c) (db_access_token c) (db_quota_project c).
Definition with_scopes v := mkDbConfig (db_uri c) (db_database c) (db_endpoint c) (db_emulator c) (db_keyfile c) (db_keyfile_json c) (db_target_principal c) (db_delegates c) v (db_lifetime_secs c) (db_access_token c) (db_quota_project c).
Definition with_lifetime_secs v := mkDbConfig (db_uri c) (db_database c) (db_endpoint c) (db_emulator c) (db_keyfile c) (db_keyfile_json c) (db_target_principal c) (db_delegates c) (db_scopes c) v (db_access_token c) (db_quota_project c).
Definition with_access_token v := mkDbConfig (db_uri c) (db_database c) (db_endpoint c) (db_emulator c) (db_keyfile c) (db_keyfile_json c) (db_target_principal c) (db_delegates c) (db_scopes c) (db_lifetime_secs c) v (db_quota_project c).
Definition with_quota_project v := mkDbConfig (db_uri c) (db_database c) (db_endpoint c) (db_emulator c) (db_keyfile c) (db_keyfile_json c) (db_target_principal c) (db_delegates c) (db_scopes c) (db_lifetime_secs c) (db_access_token c) v.

End Setters.

(** The arms of [set_option] for the driver's own keys. *)
Definition set_other (c : DbConfig) (name : rstr) (value : OptionValue) : DbConfig * Result unit :=
  let key := OdOther name in
  if decide (name = OPTION_ENDPOINT) then
    assign c (string_value key value) (fun s => with_endpoint c (Some s))
  else if decide (name = OPTION_EMULATOR) then assign c (bool_value key value) (with_emulator c)
  else if decide (name = OPTION_KEYFILE) then
    assign c (string_value key value) (fun s => with_keyfile c (Some s))
  else if decide (name = OPTION_KEYFILE_JSON) then
    assign c (string_value key value) (fun s => with_keyfile_json c (Some s))
  else if decide (name = OPTION_IMPERSONATE_TARGET_PRINCIPAL) then
    assign c (string_value key value) (fun s => with_target_principal c (Some s))
  else if decide (name = OPTION_IMPERSONATE_DELEGATES) then
    assign c (string_value key value) (fun s => with_delegates c (comma_separated s))
  else if decide (name = OPTION_IMPERSONATE_SCOPES) then
    assign c (string_value key value) (fun s => with_scopes c (comma_separated s))
  else if decide (name = OPTION_IMPERSONATE_LIFETIME) then
    assign c (u64_seconds_value key value) (fun n => with_lifetime_secs c (Some n))
  else if decide (name = OPTION_ACCESS_TOKEN) then
    assign c (string_value key value) (fun s => with_access_token c (Some s))
  else if decide (name = OPTION_QUOTA_PROJECT) then
    assign c (string_value key value)
      (fun s => with_quota_project c (if decide (s = []) then None else Some s))
  else (c, Err (unknown_option "database" name)).

(** [for (key, value) in params { self.set_option(Other(key), String(value))? }]. *)
Fixpoint set_params (c : DbConfig) (params : list (rstr * rstr)) : DbConfig * Result unit :=
  match params with
  | [] => (c, Ok tt)
  | (key, value) :: params =>
      match set_other c key (OString value) with
      | (c', Ok _) => set_params c' params
      | r => r
      end
  end.

Definition apply_connection_uri (c : DbConfig) (uri remainder : rstr) : DbConfig * Result unit :=
  match parse_connection_uri uri remainder with
  | Err e => (c, Err e)
  | Ok parsed =>
      match set_params DbConfig_new (pu_params parsed) with
      | (_, Err e) => (c, Err e)
      | (_, Ok _) =>
          let c := with_database c (Some (pu_database parsed)) in
          let c := match pu_endpoint parsed with
                   | Some endpoint => with_endpoint c (Some endpoint)
                   | None => c
                   end in
          set_params c (pu_params parsed)
      end
  end.

Definition set_uri_option (c : DbConfig) (value : rstr) : DbConfig * Result unit :=
  match connection_uri_remainder value with
  | None =>
      (c, Err (invalid_argument
         [Lit "the `uri` option value "; Dbg value; Lit " is not a `spanner://` connection URI: a bare database path or a foreign scheme is not accepted; write `spanner:///";
          Disp value; Lit "` (three slashes, no endpoint host) or `spanner://<host:port>/"; Disp value; Lit "`"]))
  | Some remainder =>
      match apply_connection_uri c value remainder with
      | (c', Ok _) => (with_uri c' (Some value), Ok tt)
      | r => r
      end
  end.

Definition set_config (c : DbConfig) (key : OptionDatabase) (value : OptionValue) : DbConfig * Result unit :=
  match key with
  | OdUri => match string_value key value with
             | Err e => (c, Err e)
             | Ok value => set_uri_option c value
             end
  | OdOther name => set_other c name value
  | other => (c, Err (unknown_option "database" (od_name other)))
  end.

Definition db_get_option_string (c : DbConfig) (key : OptionDatabase) : Result rstr :=
  let list_option (l : list rstr) := if decide (l = []) then None else Some (join [cCOMMA] l) in
  let value := match key with
    | OdUri => db_uri c
    | OdOther name =>
        if decide (name = OPTION_ENDPOINT) then db_endpoint c
        else if decide (name = OPTION_EMULATOR) then Some (show_bool (db_emulator c))
        else if decide (name = OPTION_KEYFILE) then db_keyfile c
        else if decide (name = OPTION_IMPERSONATE_TARGET_PRINCIPAL) then db_target_principal c
        else if decide (name = OPTION_IMPERSONATE_DELEGATES) then list_option (db_delegates c)
        else if decide (name = OPTION_IMPERSONATE_SCOPES) then list_option (db_scopes c)
        else if decide (name = OPTION_IMPERSONATE_LIFETIME) then show_Z <$> db_lifetime_secs c
        else if decide (name = OPTION_QUOTA_PROJECT) then db_quota_project c
        else None
    | _ => None
    end in
  match key with
  | OdOther name =>
      if decide (name = OPTION_KEYFILE_JSON \/ name = OPTION_ACCESS_TOKEN) then
        Err (err [Lit "option "; Disp name;
                  Lit " is write-only (it holds a secret) and cannot be read back"] NotFound)
      else ok_or value (option_not_set (od_name key))
  | _ => ok_or value (option_not_set (od_name key))
  end.

(** ** The interface to the crates and services outside the repository *)

(** A header of a request: its name, its value and whether it is marked
    sensitive. *)
Record Header := mkHeader { h_name : rstr; h_value : rstr; h_sensitive : bool }.

Class Outside := {
  Moment : Type;
  (** [std::env::var("SPANNER_EMULATOR_HOST")] and [std::fs::read_to_string];
      the right of a sum is the error's text. *)
  emulator_host : Moment -> option rstr;
  read_to_string : Moment -> rstr -> rstr + rstr;
  (** serde_json: parsing, and [value.get("type").and_then(as_str)]. *)
  Json : Type;
  json_from_str : rstr -> Json + rstr;
  json_type : Json -> option rstr;
  (** [http::HeaderValue::from_str] accepts the text. *)
  header_value_ok : rstr -> bool;
  (** google-cloud-auth: credentials, and the builders with the settings given
      to them ([None] or [nil] where the setter is not called). *)
  Credentials : Type;
  AuthError : Type;
  EntityTag : Type;
  EntityTag_eq : EqDecision EntityTag;
  entity_tag_new : Moment -> EntityTag;
  is_missing_field : AuthError -> bool;
  is_parsing : AuthError -> bool;
  is_unknown_type : AuthError -> bool;
  is_not_supported : AuthError -> bool;
  is_loading : AuthError -> bool;
  anonymous : Credentials;
  service_account : Json -> option rstr -> Credentials + AuthError;
  user_account : Json -> option rstr -> Credentials + AuthError;
  impersonated_account : Json -> option rstr -> Credentials + AuthError;
  external_account : Json -> option rstr -> Credentials + AuthError;
  application_default : Moment -> option rstr -> Credentials + AuthError;
  impersonated : Credentials -> rstr -> Z -> list rstr -> list rstr -> option rstr ->
    Credentials + AuthError;
  (** [Credentials::from] of the driver's own provider. *)
  from_provider : list Header -> EntityTag -> Credentials;
  (** The Spanner client. *)
  Spanner : Type;
  DatabaseClient : Type;
  spanner_build : Moment -> option rstr -> option Credentials -> Spanner + rstr;
  OutsideRpc : RpcStatus;
  database_client : Moment -> Spanner -> rstr -> DatabaseClient + SpannerError (RS := OutsideRpc);
}.
#[export] Existing Instance EntityTag_eq.

(** ** Credentials ([src/driver/credentials.rs]) *)

Section Driver.
Context {O : Outside}.

Definition QUOTA_PROJECT_HEADER : rstr := str "x-goog-user-project".
Definition DEFAULT_IMPERSONATION_LIFETIME_SECS : Z := 3600.

Inductive CredentialChoice := CAnonymous | CAccessToken | CImpersonate | CKeyfile | CAdc.

Definition credentials_json (m : Moment) (c : DbConfig) : Result (option rstr) :=
  match db_keyfile_json c with
  | Some json => Ok (Some json)
  | None =>
      match db_keyfile c with
      | Some path =>
          match read_to_string m path with
          | inl json => Ok (Some json)
          | inr e => Err (err [Lit "failed to read keyfile "; Dbg path; Lit ": "; Disp e] InvalidArguments)
          end
      | None => Ok None
      end
  end.

Definition explicit_credential_option (c : DbConfig) : option rstr :=
  if decide (is_Some (db_keyfile_json c)) then Some OPTION_KEYFILE_JSON
  else if decide (is_Some (db_keyfile c)) then Some OPTION_KEYFILE
  else if decide (is_Some (db_target_principal c)) then Some OPTION_IMPERSONATE_TARGET_PRINCIPAL
  else if decide (is_Some (db_access_token c)) then Some OPTION_ACCESS_TOKEN
  else None.

Definition conflicting_credential_with_access_token (c : DbConfig) : option rstr :=
  option ← explicit_credential_option c;
  if decide (option = OPTION_ACCESS_TOKEN) then None else Some option.

Definition credential_choice (c : DbConfig) (emulator : bool) : CredentialChoice :=
  if emulator then CAnonymous
  else if decide (is_Some (db_access_token c)) then CAccessToken
  else if decide (is_Some (db_target_principal c)) then CImpersonate
  else if decide (is_Some (db_keyfile_json c) \/ is_Some (db_keyfile c)) then CKeyfile
  else CAdc.

Definition scrub_credential_error (e : AuthError) : frag :=
  if is_missing_field e then Lit "a required field is missing or has the wrong type"
  else if is_parsing e then Lit "the credential JSON could not be parsed"
  else if is_unknown_type e then Lit "the credential type is unknown or invalid"
  else if is_not_supported e then Lit "the credential type is not supported for this use"
  else if is_loading e then Lit "the credentials could not be loaded"
  else Lit "the credentials could not be built".

(** [result.map_err(..)]: the scrubbed error behind a fixed lead-in. *)
Definition built {A} (r : A + AuthError) (lead : Message) : Result A :=
  match r with
  | inl a => Ok a
  | inr e => Err (err (lead ++ [Lit ": "; scrub_credential_error e]) InvalidArguments)
  end.

Definition SUPPORTED_CREDENTIAL_TYPES : frag :=
  Lit "service_account, authorized_user, impersonated_service_account, external_account".

Definition build_credentials_from_json (json : rstr) (quota_project : option rstr) : Result Credentials :=
  value ← match json_from_str json with
          | inl v => Ok v
          | inr e => Err (err [Lit "invalid credential JSON key: "; Disp e] InvalidArguments)
          end;
  credential_type ← ok_or (json_type value)
    (invalid_argument [Lit "credential JSON is missing a string `type` field; expected one of ";
                       SUPPORTED_CREDENTIAL_TYPES]);
  result ←
    (if decide (credential_type = str "service_account") then Ok (service_account value quota_project)
     else if decide (credential_type = str "authorized_user") then Ok (user_account value quota_project)
     else if decide (credential_type = str "impersonated_service_account") then
       Ok (impersonated_account value quota_project)
     else if decide (credential_type = str "external_account") then Ok (external_account value quota_project)
     else Err (invalid_argument [Lit "unsupported credential `type` "; Dbg credential_type;
                                 Lit "; expected one of "; SUPPORTED_CREDENTIAL_TYPES]));
  built result [Lit "failed to build "; Disp credential_type; Lit " credentials"].

Definition build_impersonated_credentials (source : Credentials) (target : rstr)
    (delegates scopes : list rstr) (lifetime : Z) (quota_project : option rstr) : Result Credentials :=
  built (impersonated source target lifetime delegates scopes quota_project)
    [Lit "failed to build impersonated credentials for "; Dbg target].

(** The driver's own provider: fixed headers and a cache tag. *)
Record StaticTokenCredentials := mkStaticToken { st_headers : list Header; st_tag : EntityTag }.

Inductive CacheableResource :=
  | NotModified
  | NewResource (data : list Header) (tag : EntityTag).

Definition static_headers (self : StaticTokenCredentials) (tag : option EntityTag) : CacheableResource :=
  match tag with
  | Some t => if decide (st_tag self = t) then NotModified else NewResource (st_headers self) (st_tag self)
  | None => NewResource (st_headers self) (st_tag self)
  end.

Definition build_static_token_credentials (m : Moment) (token : rstr) (quota_project : option rstr) :
    Result StaticTokenCredentials :=
  let bearer := str "Bearer " ++ token in
  value ← (if header_value_ok bearer then Ok bearer
           else Err (invalid_argument
             [Lit "the `"; Disp OPTION_ACCESS_TOKEN;
              Lit "` option contains characters that are not valid in an HTTP Authorization header value"]));
  let headers := [mkHeader (str "authorization") value true] in
  match quota_project with
  | None => Ok (mkStaticToken headers (entity_tag_new m))
  | Some project =>
      project ← (if header_value_ok project then Ok project
                 else Err (invalid_argument
                   [Lit "the `"; Disp OPTION_QUOTA_PROJECT;
                    Lit "` option contains characters that are not valid in an HTTP header value"]));
      Ok (mkStaticToken (headers ++ [mkHeader QUOTA_PROJECT_HEADER project false]) (entity_tag_new m))
  end.

Definition credentials_from (p : StaticTokenCredentials) : Credentials := from_provider (st_headers p) (st_tag p).

(** [opt.map(f).transpose()]. *)
Definition transpose {A B} (o : option A) (f : A -> Result B) : Result (option B) :=
  match o with None => Ok None | Some a => b ← f a; Ok (Some b) end.

Definition build_credentials (m : Moment) (c : DbConfig) (emulator : bool) (json : option rstr) :
    Result (option Credentials) :=
  let quota_project := db_quota_project c in
  match credential_choice c emulator with
  | CAnonymous => Ok (Some anonymous)
  | CAccessToken =>
      transpose (db_access_token c)
        (fun token => p ← build_static_token_credentials m token quota_project; Ok (credentials_from p))
  | CImpersonate =>
      transpose (db_target_principal c) (fun target =>
        source ← match json with
                 | Some json => build_credentials_from_json json None
                 | None => built (application_default m None)
                     [Lit "failed to build Application Default Credentials to impersonate "; Dbg target]
                 end;
        build_impersonated_credentials source target (db_delegates c) (db_scopes c)
          (default DEFAULT_IMPERSONATION_LIFETIME_SECS (db_lifetime_secs c)) quota_project)
  | CKeyfile => transpose json (fun json => build_credentials_from_json json quota_project)
  | CAdc =>
      transpose quota_project (fun project =>
        built (application_default m (Some project))
          [Lit "failed to build Application Default Credentials with quota project "; Dbg project])
  end.

(** ** Connecting *)

Record Connected := mkConnected {
  cn_client : DatabaseClient;
  cn_spanner : Spanner;
  cn_database : rstr;
}.

(** The endpoint and the emulator mode [connect] resolves. *)
Definition resolve (m : Moment) (c : DbConfig) : option rstr * bool :=
  match emulator_host m with
  | Some host =>
      if decide (host = []) then (db_endpoint c, db_emulator c)
      else (match db_endpoint c with None => Some (ensure_scheme host) | e => e end, true)
  | None => (db_endpoint c, db_emulator c)
  end.

(** The guard on emulator mode: no credential and no quota project is silently
    dropped. *)
Definition emulator_guard (c : DbConfig) (emulator : bool) : Result unit :=
  if negb emulator then Ok tt
  else
    let cause := if db_emulator c then Lit "the `spanner.emulator` option"
                 else Lit "the `SPANNER_EMULATOR_HOST` environment variable" in
    match explicit_credential_option c with
    | Some option =>
        Err (invalid_state [Lit "emulator mode (enabled by "; cause; Lit ") forces anonymous plaintext credentials and would silently ignore the configured `";
          Disp option; Lit "` option; unset the credential option(s) or disable emulator mode"])
    | None =>
        match db_quota_project c with
        | Some _ =>
            Err (invalid_state [Lit "emulator mode (enabled by "; cause; Lit ") forces anonymous plaintext credentials and would silently ignore the configured `";
              Disp OPTION_QUOTA_PROJECT; Lit "` option; unset it or disable emulator mode"])
        | None => Ok tt
        end
    end.

Definition token_guard (c : DbConfig) : Result unit :=
  match db_access_token c, conflicting_credential_with_access_token c with
  | Some _, Some conflict =>
      Err (invalid_state [Lit "the `"; Disp OPTION_ACCESS_TOKEN; Lit "` option supplies a complete OAuth2 credential and cannot be combined with the `";
        Disp conflict; Lit "` option; set only one"])
  | _, _ => Ok tt
  end.

Definition connect (m : Moment) (c : DbConfig) : Result Connected :=
  database ← ok_or (db_database c)
    (invalid_state [Lit "Spanner database path is not set; provide the `uri` option (projects/<p>/instances/<i>/databases/<d>)"]);
  let '(endpoint, emulator) := resolve m c in
  _ ← emulator_guard c emulator;
  _ ← token_guard c;
  json ← credentials_json m c;
  credentials ← build_credentials m c emulator json;
  spanner ← match spanner_build m endpoint credentials with
            | inl s => Ok s
            | inr e => Err (from_builder e)
            end;
  client ← match database_client m spanner database with
           | inl d => Ok d
           | inr e => Err (from_spanner (RS := OutsideRpc) e)
           end;
  Ok (mkConnected client spanner database).

(** ** The database object *)

Record SpannerDatabase := mkDatabase { db_config : DbConfig; connected : option Connected }.

Definition SpannerDatabase_new : SpannerDatabase := mkDatabase DbConfig_new None.

(** The cached stack is dropped before the option is looked at. *)
Definition db_set_option (self : SpannerDatabase) (key : OptionDatabase) (value : OptionValue) :
    SpannerDatabase * Result unit :=
  let '(c, r) := set_config (db_config self) key value in (mkDatabase c None, r).

Definition connect_shared (m : Moment) (self : SpannerDatabase) : SpannerDatabase * Result Connected :=
  match connected self with
  | Some c => (self, Ok c)
  | None =>
      match connect m (db_config self) with
      | Ok c => (mkDatabase (db_config self) (Some c), Ok c)
      | Err e => (self, Err e)
      end
  end.

(** The loop of [new_database_with_opts]. *)
Fixpoint db_set_options (self : SpannerDatabase) (opts : list (OptionDatabase * OptionValue)) :
    Result SpannerDatabase :=
  match opts with
  | [] => Ok self
  | (key, value) :: opts =>
      match db_set_option self key value with
      | (self', Ok _) => db_set_options self' opts
      | (_, Err e) => Err e
      end
  end.

Definition new_database_with_opts (opts : list (OptionDatabase * OptionValue)) : Result SpannerDatabase :=
  db_set_options SpannerDatabase_new opts.

(** What [Debug] shows of each field, in order. *)
Inductive Shown :=
  | ShowText (t : option rstr)
  | ShowBool (b : bool)
  | ShowList (l : list rstr)
  | ShowNumber (n : option Z)
  | ShowRuntime.

Definition redact {A} (marker : rstr) (value : option A) : Shown := ShowText ((fun _ => marker) <$> value).

Definition db_fmt (self : SpannerDatabase) : list (rstr * Shown) :=
  let c := db_config self in
  let hidden := str "<redacted>" in
  [(str "runtime", ShowRuntime);
   (str "uri", ShowText (db_uri c));
   (str "database", ShowText (db_database c));
   (str "endpoint", ShowText (db_endpoint c));
   (str "emulator", ShowBool (db_emulator c));
   (str "keyfile", redact hidden (db_keyfile c));
   (str "keyfile_json", redact hidden (db_keyfile_json c));
   (str "impersonate_target_principal", ShowText (db_target_principal c));
   (str "impersonate_delegates", ShowList (db_delegates c));
   (str "impersonate_scopes", ShowList (db_scopes c));
   (str "impersonate_lifetime_secs", ShowNumber (db_lifetime_secs c));
   (str "access_token", redact hidden (db_access_token c));
   (str "quota_project", ShowText (db_quota_project c));
   (str "connected", redact (str "<client stack>") (connected self))].

(** ** Connections of a database *)

Context {SC : SpannerClient}.

(** A new connection's own state in its world: default configuration, a fresh
    transaction state and a cancel slot with a fresh signal. *)
Definition Connection_new (w : World) (slot : positive) (stack : Connected) : World * Connection :=
  let '(cells, config) := SharedConfig_default (w_cells w) in
  (mkWorld (slot_step (w_slots w) (NewSlot slot)) cells TxnState_new (w_trace w),
   mkConnection (cn_database stack) config slot).

Definition new_connection (m : Moment) (self : SpannerDatabase) (w : World) (slot : positive) :
    SpannerDatabase * World * Result Connection :=
  match connect_shared m self with
  | (self', Ok stack) => let '(w', conn) := Connection_new w slot stack in (self', w', Ok conn)
  | (self', Err e) => (self', w, Err e)
  end.

(** Options of a connection, applied in order; the first error drops it. *)
Fixpoint conn_set_options (env : Env) (conn : Connection) (opts : list (OptionConnection * OptionValue))
    (w : World) : option (World * Result Connection) :=
  match opts with
  | [] => Some (w, Ok conn)
  | (key, value) :: opts =>
      '(w', conn', r) ← set_option env conn key value w;
      match r with
      | Ok _ => conn_set_options env conn' opts w'
      | Err e => Some (w', Err e)
      end
  end.

Definition new_connection_with_opts (env : Env) (m : Moment) (self : SpannerDatabase) (w : World)
    (slot : positive) (opts : list (OptionConnection * OptionValue)) :
    option (SpannerDatabase * World * Result Connection) :=
  match new_connection m self w slot with
  | (self', w', Err e) => Some (self', w', Err e)
  | (self', w', Ok conn) =>
      '(w'', r) ← conn_set_options env conn opts w'; Some (self', w'', r)
  end.

End Driver.
