(* ===== verification/DriverFacts.v ===== *)
(** * Properties of databases

    What setting an option can change, what cannot be read back, which
    credentials a connection is built with, and when the cached client stack is
    rebuilt. *)

From S2P Require Import Prelude RustStr Utf8 RustNum ErrorModel Options Config Runtime Txn Client Connection Uri Driver.

(** ** Options overwrite *)

(** [f] assigns the field [get]: it leaves it alone, or gives it a value that
    does not depend on the configuration. *)
Definition overwrites_field {A} (f : DbConfig -> DbConfig) (get : DbConfig -> A) : Prop :=
  (forall c, get (f c) = get c) \/ (forall c c', get (f c) = get (f c')).

Record overwrites (f : DbConfig -> DbConfig) : Prop := {
  ow_uri : overwrites_field f db_uri;
  ow_database : overwrites_field f db_database;
  ow_endpoint : overwrites_field f db_endpoint;
  ow_emulator : overwrites_field f db_emulator;
  ow_keyfile : overwrites_field f db_keyfile;
  ow_keyfile_json : overwrites_field f db_keyfile_json;
  ow_target : overwrites_field f db_target_principal;
  ow_delegates : overwrites_field f db_delegates;
  ow_scopes : overwrites_field f db_scopes;
  ow_lifetime : overwrites_field f db_lifetime_secs;
  ow_token : overwrites_field f db_access_token;
  ow_quota : overwrites_field f db_quota_project;
}.

Ltac overwrite := split; first [by left | by right].

Lemma overwrites_field_compose {A} f g (get : DbConfig -> A) :
  overwrites_field f get -> overwrites_field g get -> overwrites_field (fun c => g (f c)) get.
Proof.
  intros [Hf|Hf] [Hg|Hg].
  - left. intros c. by rewrite Hg.
  - right. intros c c'. apply Hg.
  - right. intros c c'. rewrite !Hg. apply Hf.
  - right. intros c c'. apply Hg.
Qed.

Lemma overwrites_compose f g : overwrites f -> overwrites g -> overwrites (fun c => g (f c)).
Proof. intros [] []. split; by apply overwrites_field_compose. Qed.

Lemma overwrites_id : overwrites (fun c => c).
Proof. overwrite. Qed.

Lemma DbConfig_ext c c' :
  db_uri c = db_uri c' -> db_database c = db_database c' -> db_endpoint c = db_endpoint c' ->
  db_emulator c = db_emulator c' -> db_keyfile c = db_keyfile c' ->
  db_keyfile_json c = db_keyfile_json c' -> db_target_principal c = db_target_principal c' ->
  db_delegates c = db_delegates c' -> db_scopes c = db_scopes c' ->
  db_lifetime_secs c = db_lifetime_secs c' -> db_access_token c = db_access_token c' ->
  db_quota_project c = db_quota_project c' -> c = c'.
Proof. destruct c, c'. cbn. intros. by subst. Qed.

(** Overwriting twice is overwriting once. *)
Lemma overwrites_idem f c : overwrites f -> f (f c) = f c.
Proof.
  assert (forall A (get : DbConfig -> A), overwrites_field f get -> get (f (f c)) = get (f c)) as H.
  { intros A get [Hf|Hf]; apply Hf. }
  intros []. apply DbConfig_ext; by apply H.
Qed.

(** An option is refused with one error and no change, whatever the
    configuration, or accepted and overwrites fields. *)
Definition uniform (act : DbConfig -> DbConfig * Result unit) : Prop :=
  (exists e, forall c, act c = (c, Err e)) \/
  (exists f, overwrites f /\ forall c, act c = (f c, Ok tt)).

Lemma uniform_assign {A} (r : Result A) (set : DbConfig -> A -> DbConfig) :
  (forall a, overwrites (fun c => set c a)) -> uniform (fun c => assign c r (set c)).
Proof.
  intros H. destruct r as [a|e]; [right|left; by exists e].
  exists (fun c => set c a). by split.
Qed.

Lemma set_other_uniform name v : uniform (fun c => set_other c name v).
Proof.
  unfold set_other.
  repeat match goal with |- context [decide (name = ?k)] =>
    destruct (decide (name = k)); [apply uniform_assign; intros a; overwrite|] end.
  left. by eexists.
Qed.

Lemma set_params_uniform ps :
  (exists e, forall c, (set_params c ps).2 = Err e) \/
  (exists f, overwrites f /\ forall c, set_params c ps = (f c, Ok tt)).
Proof.
  induction ps as [|[k v] ps IH]; [right; exists (fun c => c); split; [apply overwrites_id|done]|].
  cbn [set_params]. destruct (set_other_uniform k (OString v)) as [[e He]|(f & Hf & Hof)].
  { left. exists e. intros c. by rewrite He. }
  destruct IH as [[e He]|(g & Hg & Hog)].
  - left. exists e. intros c. rewrite Hof. apply He.
  - right. exists (fun c => g (f c)). split; [by apply overwrites_compose|]. intros c. by rewrite Hof.
Qed.

(** The parts of a URI, set one by one. *)
Definition set_parts (parsed : ParsedConnectionUri) (c : DbConfig) : DbConfig * Result unit :=
  set_params (match pu_endpoint parsed with
              | Some e => with_endpoint (with_database c (Some (pu_database parsed))) (Some e)
              | None => with_database c (Some (pu_database parsed))
              end) (pu_params parsed).

(** The comment of the second pass, "cannot fail", is right. *)
Lemma apply_connection_uri_spec uri rem :
  (exists e, forall c, apply_connection_uri c uri rem = (c, Err e)) \/
  (exists parsed f, parse_connection_uri uri rem = Ok parsed /\ overwrites f /\
     forall c, apply_connection_uri c uri rem = (f c, Ok tt) /\ set_parts parsed c = (f c, Ok tt)).
Proof.
  unfold apply_connection_uri, set_parts.
  destruct (parse_connection_uri uri rem) as [[db ep ps]|e] eqn:E; [|left; by exists e].
  cbn [pu_params pu_database pu_endpoint].
  destruct (set_params_uniform ps) as [[e He]|(f & Hf & Hof)].
  - left. exists e. intros c. specialize (He DbConfig_new). destruct (set_params DbConfig_new ps) as [? r].
    cbn in He. by subst r.
  - right. rewrite Hof. eexists _, (fun c => f _). split; [done|]. split; [|intros c; by rewrite Hof].
    eapply (overwrites_compose (fun c => match ep with Some e => _ | None => _ end) f); [|done].
    destruct ep; overwrite.
Qed.

Lemma set_uri_option_uniform value : uniform (fun c => set_uri_option c value).
Proof.
  unfold set_uri_option. destruct (connection_uri_remainder value) as [rem|]; [|left; by eexists].
  destruct (apply_connection_uri_spec value rem) as [[e He]|(parsed & f & _ & Hf & Hof)].
  - left. exists e. intros c. by rewrite He.
  - right. exists (fun c => with_uri (f c) (Some value)). split.
    + apply (overwrites_compose f (fun c => with_uri c (Some value))); [done|overwrite].
    + intros c. destruct (Hof c) as [-> _]. done.
Qed.

Lemma set_config_uniform key v : uniform (fun c => set_config c key v).
Proof.
  destruct key; cbn [set_config]; try (left; by eexists); [|apply set_other_uniform].
  destruct (string_value OdUri v); [apply set_uri_option_uniform|left; by eexists].
Qed.

(** ** Secrets *)

Lemma set_other_secrets c name v :
  name ∉ URI_SECRET_OPTIONS ->
  db_keyfile_json (set_other c name v).1 = db_keyfile_json c /\
  db_access_token (set_other c name v).1 = db_access_token c.
Proof.
  intros Hn. unfold set_other, assign.
  repeat (let Hk := fresh in case_decide as Hk;
    [first [by case_match | exfalso; apply Hn; rewrite Hk; repeat constructor]|]). done.
Qed.

Lemma set_params_secrets ps c :
  Forall (fun kv => kv.1 ∉ URI_SECRET_OPTIONS) ps ->
  db_keyfile_json (set_params c ps).1 = db_keyfile_json c /\
  db_access_token (set_params c ps).1 = db_access_token c.
Proof.
  intros H. revert c. induction H as [|[k v] ps Hk _ IH]; intros c; [done|].
  destruct (set_other_secrets c k (OString v) Hk) as [H1 H2]. cbn [set_params].
  destruct (set_other c k (OString v)) as [c' [|]]; cbn [fst] in *; [|done].
  destruct (IH c'). by split; etrans.
Qed.

Lemma parse_param_key pair kv : parse_param pair = Ok kv -> kv.1 ∉ URI_SECRET_OPTIONS.
Proof.
  unfold parse_param. destruct (match split_once _ _ with Some _ => _ | None => _ end) as [k v].
  intros H. inv_bind H. destruct (decide (_ ∈ URI_SECRET_OPTIONS)) as [|Hs]; [done|].
  destruct (decide _); [|done]. inv_bind H. by simplify_eq.
Qed.

Lemma parse_connection_uri_keys uri rem p :
  parse_connection_uri uri rem = Ok p -> Forall (fun kv => kv.1 ∉ URI_SECRET_OPTIONS) (pu_params p).
Proof.
  unfold parse_connection_uri. destruct (split_once cHASH rem); [done|].
  destruct (match split_once cQUESTION rem with Some _ => _ | None => _ end) as [before query].
  intros H. inv_bind H. destruct (match split_once cSLASH _ with Some _ => _ | None => _ end) as [auth path].
  inv_bind H. simplify_eq. cbn. apply try_map_Ok_Forall2 in E1. clear -E1.
  induction E1; constructor; [by eapply parse_param_key|done].
Qed.

Lemma set_parts_secrets parsed c :
  Forall (fun kv => kv.1 ∉ URI_SECRET_OPTIONS) (pu_params parsed) ->
  db_keyfile_json (set_parts parsed c).1 = db_keyfile_json c /\
  db_access_token (set_parts parsed c).1 = db_access_token c.
Proof. intros H. unfold set_parts. case_match; by rewrite !(proj1 (set_params_secrets _ _ H)), !(proj2 (set_params_secrets _ _ H)). Qed.

Section Facts.
Context {O : Outside}.

(** Setting the [uri] option is all or nothing, and last writer wins.  A
    refused URI changes no option; an accepted one has the effect of setting its
    database path, its endpoint and its parameters one after the other, reads
    back verbatim, never touches the two secret options, and setting it again
    changes nothing.  Whether it is accepted, and with which error, depends on
    the value alone.  The cached client stack is dropped in every case. *)
Theorem set_uri_all_or_nothing (db : SpannerDatabase) (v : OptionValue) :
  (forall db2, (db_set_option db2 OdUri v).2 = (db_set_option db OdUri v).2) /\
  match db_set_option db OdUri v with
  | (db', Err _) => db' = mkDatabase (db_config db) None
  | (db', Ok _) =>
      connected db' = None /\
      exists value rem parsed c,
        v = OString value /\ connection_uri_remainder value = Some rem /\
        parse_connection_uri value rem = Ok parsed /\
        set_parts parsed (db_config db) = (c, Ok tt) /\
        db_config db' = with_uri c (Some value) /\
        db_get_option_string (db_config db') OdUri = Ok value /\
        db_keyfile_json (db_config db') = db_keyfile_json (db_config db) /\
        db_access_token (db_config db') = db_access_token (db_config db) /\
        db_set_option db' OdUri v = (db', Ok tt)
  end.
Proof.
  split.
  { intros db2. unfold db_set_option.
    destruct (set_config_uniform OdUri v) as [[e He]|(f & _ & Hf)]; by rewrite ?He, ?Hf. }
  unfold db_set_option.
  destruct (set_config_uniform OdUri v) as [[e He]|(f & Hf & Hof)]; [by rewrite He|].
  rewrite !Hof. cbn [connected db_config]. split; [done|]. pose proof (Hof (db_config db)) as E.
  cbn [set_config] in E. destruct v as [value| | |]; try done. cbn in E. unfold set_uri_option in E.
  destruct (connection_uri_remainder value) as [rem|] eqn:Er; [|done].
  destruct (apply_connection_uri_spec value rem) as [[e He]|(parsed & g & Hp & Hg & Hog)];
    [by rewrite He in E|].
  destruct (Hog (db_config db)) as [H1 H2]. rewrite H1 in E. injection E as E.
  destruct (set_parts_secrets parsed (db_config db) (parse_connection_uri_keys _ _ _ Hp)) as [Hk Ht].
  rewrite H2 in Hk, Ht. cbn in Hk, Ht.
  exists value, rem, parsed, (g (db_config db)). rewrite overwrites_idem by done.
  rewrite <- E. by split_and!.
Qed.

(** ** What can be observed of a secret *)

(** Two configurations that differ in the two secret options only, and set the
    same ones of them. *)
Record same_public (c1 c2 : DbConfig) : Prop := {
  sp_public : with_access_token (with_keyfile_json c1 None) None =
              with_access_token (with_keyfile_json c2 None) None;
  sp_json : is_Some (db_keyfile_json c1) <-> is_Some (db_keyfile_json c2);
  sp_token : is_Some (db_access_token c1) <-> is_Some (db_access_token c2);
}.

(** What an error may show of a key: the text of the parse error of a key that
    is no JSON, and the [type] of one that is. *)
Inductive KeyView := Unparsable (error : rstr) | Untyped | Typed (credential_type : rstr).

Definition key_view (json : rstr) : KeyView :=
  match json_from_str json with
  | inr e => Unparsable e
  | inl v => match json_type v with None => Untyped | Some t => Typed t end
  end.

(** The configuration without its two secrets. *)
Definition public (c : DbConfig) : DbConfig := with_access_token (with_keyfile_json c None) None.

(** A failure to build something, for each phrase a scrubbed error can be. *)
Definition scrubbed (lead : Message) : list Error :=
  (fun phrase => err (lead ++ [Lit ": "; phrase]) InvalidArguments) <$>
  [Lit "a required field is missing or has the wrong type"; Lit "the credential JSON could not be parsed";
   Lit "the credential type is unknown or invalid"; Lit "the credential type is not supported for this use";
   Lit "the credentials could not be loaded"; Lit "the credentials could not be built"].

Definition key_errors (view : KeyView) : list Error :=
  match view with
  | Unparsable e => [err [Lit "invalid credential JSON key: "; Disp e] InvalidArguments]
  | Untyped => [invalid_argument [Lit "credential JSON is missing a string `type` field; expected one of ";
                                  SUPPORTED_CREDENTIAL_TYPES]]
  | Typed t => invalid_argument [Lit "unsupported credential `type` "; Dbg t; Lit "; expected one of ";
                                 SUPPORTED_CREDENTIAL_TYPES] ::
               scrubbed [Lit "failed to build "; Disp t; Lit " credentials"]
  end.

(** Every error that building credentials can end in, computed from the public
    options and the view of the key. *)
Definition credential_errors (c : DbConfig) (view : option KeyView) : list Error :=
  [invalid_argument [Lit "the `"; Disp OPTION_ACCESS_TOKEN;
     Lit "` option contains characters that are not valid in an HTTP Authorization header value"];
   invalid_argument [Lit "the `"; Disp OPTION_QUOTA_PROJECT;
     Lit "` option contains characters that are not valid in an HTTP header value"]] ++
  match view with Some v => key_errors v | None => [] end ++
  match db_target_principal c with
  | Some target =>
      scrubbed [Lit "failed to build Application Default Credentials to impersonate "; Dbg target] ++
      scrubbed [Lit "failed to build impersonated credentials for "; Dbg target]
  | None => []
  end ++
  match db_quota_project c with
  | Some project =>
      scrubbed [Lit "failed to build Application Default Credentials with quota project "; Dbg project]
  | None => []
  end.

Lemma built_error {A} (r : A + AuthError) lead e : built r lead = Err e -> e ∈ scrubbed lead.
Proof.
  destruct r as [a|f]; cbn [built]; [done|]. intros [= <-]. unfold scrubbed, scrub_credential_error.
  apply list_elem_of_fmap. eexists. split; [done|]. repeat case_match; repeat constructor.
Qed.

Lemma from_json_error json q e : build_credentials_from_json json q = Err e -> e ∈ key_errors (key_view json).
Proof.
  unfold build_credentials_from_json, key_view. destruct (json_from_str json) as [v|t]; cbn [mbind Result_mbind].
  2: { intros [= <-]. by left. }
  destruct (json_type v) as [t|]; cbn [ok_or mbind Result_mbind]; [|intros [= <-]; by left].
  cbn [key_errors]. repeat (case_decide; [intros Hb; right; by eapply built_error|]). intros [= <-]. by left.
Qed.

Lemma static_token_error m token q e c view :
  build_static_token_credentials m token q = Err e -> e ∈ credential_errors c view.
Proof.
  unfold build_static_token_credentials, credential_errors. destruct (header_value_ok _); cbn [mbind Result_mbind].
  2: { intros [= <-]. by left. }
  destruct q as [q|]; [|done]. destruct (header_value_ok q); cbn [mbind Result_mbind]; [done|].
  intros [= <-]. by right; left.
Qed.

Lemma transpose_error {A B} (o : option A) (f : A -> Result B) e :
  transpose o f = Err e -> exists a, o = Some a /\ f a = Err e.
Proof. destruct o as [a|]; cbn; [|done]. destruct (f a) eqn:E; cbn; [done|]. intros [= <-]. by exists a. Qed.

Lemma credential_errors_key c v e : e ∈ key_errors v -> e ∈ credential_errors c (Some v).
Proof. unfold credential_errors. set_solver. Qed.

(** Building credentials ends in no other error. *)
Lemma build_credentials_error m c emulator json e :
  build_credentials m c emulator json = Err e -> e ∈ credential_errors (public c) (key_view <$> json).
Proof.
  unfold build_credentials. destruct (credential_choice c emulator); [done|..].
  - intros (token & _ & H)%transpose_error.
    destruct (build_static_token_credentials m token _) eqn:E; simplify_eq/=. by eapply static_token_error.
  - intros (target & Ht & H)%transpose_error. destruct json as [j|]; cbn [fmap option_fmap option_map].
    + destruct (build_credentials_from_json j None) as [source|e1] eqn:E; simplify_eq/=.
      * apply built_error in H. unfold credential_errors. cbn [db_target_principal public]. cbn. rewrite Ht. set_solver.
      * by apply credential_errors_key, (from_json_error j None).
    + destruct (built (application_default m None) _) as [source|e1] eqn:E; simplify_eq/=;
        [apply built_error in H|apply built_error in E]; unfold credential_errors; cbn; rewrite Ht; set_solver.
  - intros (j & -> & H)%transpose_error. by eapply credential_errors_key, from_json_error.
  - intros (project & Hq & H)%transpose_error. apply built_error in H. unfold credential_errors.
    cbn. rewrite Hq. set_solver.
Qed.

Lemma redacted_same {A B} (o1 o2 : option A) (b : B) :
  (is_Some o1 <-> is_Some o2) -> (fun _ => b) <$> o1 = (fun _ => b) <$> o2.
Proof. destruct o1, o2; cbn; try done; intros [H1 H2]; [by destruct H1|by destruct H2]. Qed.

(** C27: what can be observed of a secret.  Take two databases that differ only in
    the value of the inline key and of the access token.  Every option reads the
    same from both, their [Debug] text is the same, and so is the outcome of the
    checks [connect] makes on them; an attempt to set a secret fails, if it fails,
    with an error that does not depend on the value.  An error from building the
    credentials is, for both, one of a list computed from the public options and
    from what such an error shows of the key: the parser's message for a key that
    is no JSON, the [type] of one that is.  Nothing else of the key, and nothing
    of the token, is in it. *)
Theorem secrets_unobservable (c1 c2 : DbConfig) (s : option Connected) :
  same_public c1 c2 ->
  (forall key, db_get_option_string c1 key = db_get_option_string c2 key) /\
  db_fmt (mkDatabase c1 s) = db_fmt (mkDatabase c2 s) /\
  (forall emulator, emulator_guard c1 emulator = emulator_guard c2 emulator) /\
  token_guard c1 = token_guard c2 /\
  (forall key v1 v2 e1 e2, key ∈ URI_SECRET_OPTIONS ->
     (set_config c1 (OdOther key) v1).2 = Err e1 -> (set_config c2 (OdOther key) v2).2 = Err e2 -> e1 = e2) /\
  (forall view, credential_errors c1 view = credential_errors c2 view) /\
  (forall m emulator json e, build_credentials m c1 emulator json = Err e ->
     e ∈ credential_errors (public c1) (key_view <$> json)).
Proof.
  intros Hs. pose proof Hs as [Hpub Hjson Htok].
  assert (explicit_credential_option c1 = explicit_credential_option c2) as He.
  { unfold explicit_credential_option. rewrite (decide_ext _ _ _ _ Hjson), (decide_ext _ _ _ _ Htok).
    by rewrite <- (f_equal db_keyfile Hpub : db_keyfile c1 = db_keyfile c2),
      <- (f_equal db_target_principal Hpub : db_target_principal c1 = db_target_principal c2). }
  split_and!.
  - intros key. destruct c1, c2. cbn in Hpub. injection Hpub as -> -> -> -> -> -> -> -> -> ->. done.
  - destruct c1, c2. cbn in *. injection Hpub as -> -> -> -> -> -> -> -> -> ->.
    unfold db_fmt, redact. cbn. by rewrite (redacted_same _ _ _ Hjson), (redacted_same _ _ _ Htok).
  - intros emulator. unfold emulator_guard. rewrite He.
    by rewrite <- (f_equal db_emulator Hpub : db_emulator c1 = db_emulator c2),
      <- (f_equal db_quota_project Hpub : db_quota_project c1 = db_quota_project c2).
  - unfold token_guard, conflicting_credential_with_access_token. rewrite He.
    destruct (db_access_token c1), (db_access_token c2); try done; [by destruct Htok as [[] _]|by destruct Htok as [_ []]].
  - intros key v1 v2 e1 e2 Hk. apply elem_of_cons in Hk as [->|Hk%list_elem_of_singleton]; subst;
      destruct v1, v2; vm_compute; congruence.
  - intros view. unfold credential_errors.
    by rewrite <- (f_equal db_target_principal Hpub : db_target_principal c1 = db_target_principal c2),
      <- (f_equal db_quota_project Hpub : db_quota_project c1 = db_quota_project c2).
  - intros m emulator json e. apply build_credentials_error.
Qed.

(** ** Connecting *)

(** The credentials a configuration asks for, by the flow that is documented for
    its options. *)
Inductive credentials_for (m : Moment) (c : DbConfig) : option Credentials -> Prop :=
  | for_token token p :
      db_access_token c = Some token -> db_target_principal c = None ->
      db_keyfile c = None -> db_keyfile_json c = None ->
      st_headers p = mkHeader (str "authorization") (str "Bearer " ++ token) true ::
        match db_quota_project c with Some q => [mkHeader QUOTA_PROJECT_HEADER q false] | None => [] end ->
      credentials_for m c (Some (credentials_from p))
  | for_impersonation target source creds :
      db_access_token c = None -> db_target_principal c = Some target ->
      match db_keyfile_json c, db_keyfile c with
      | Some json, _ => build_credentials_from_json json None = Ok source
      | None, Some path => exists json, read_to_string m path = inl json /\
                             build_credentials_from_json json None = Ok source
      | None, None => application_default m None = inl source
      end ->
      impersonated source target (default DEFAULT_IMPERSONATION_LIFETIME_SECS (db_lifetime_secs c))
        (db_delegates c) (db_scopes c) (db_quota_project c) = inl creds ->
      credentials_for m c (Some creds)
  | for_key_json json creds :
      db_access_token c = None -> db_target_principal c = None -> db_keyfile_json c = Some json ->
      build_credentials_from_json json (db_quota_project c) = Ok creds ->
      credentials_for m c (Some creds)
  | for_key_file path json creds :
      db_access_token c = None -> db_target_principal c = None -> db_keyfile_json c = None ->
      db_keyfile c = Some path -> read_to_string m path = inl json ->
      build_credentials_from_json json (db_quota_project c) = Ok creds ->
      credentials_for m c (Some creds)
  | for_quota project creds :
      explicit_credential_option c = None -> db_quota_project c = Some project ->
      application_default m (Some project) = inl creds ->
      credentials_for m c (Some creds)
  | for_default :
      explicit_credential_option c = None -> db_quota_project c = None ->
      credentials_for m c None.

Lemma built_Ok {A} (r : A + AuthError) lead a : built r lead = Ok a -> r = inl a.
Proof. destruct r; cbn; congruence. Qed.

Lemma transpose_Ok {A B} (o : option A) (f : A -> Result B) r :
  transpose o f = Ok r ->
  (o = None /\ r = None) \/ (exists a b, o = Some a /\ f a = Ok b /\ r = Some b).
Proof.
  destruct o; cbn; [|intros [= <-]; by left]. intros H. inv_bind H. simplify_eq. right. by do 2 eexists.
Qed.

Lemma static_token_headers m token q p :
  build_static_token_credentials m token q = Ok p ->
  st_headers p = mkHeader (str "authorization") (str "Bearer " ++ token) true ::
    match q with Some q => [mkHeader QUOTA_PROJECT_HEADER q false] | None => [] end.
Proof.
  unfold build_static_token_credentials. intros H. inv_bind H.
  destruct (header_value_ok _) in E; [|done]. injection E as <-.
  destruct q as [q|]; [|by simplify_eq]. inv_bind H. destruct (header_value_ok q); by simplify_eq.
Qed.

Lemma token_guard_alone c token :
  token_guard c = Ok tt -> db_access_token c = Some token ->
  db_target_principal c = None /\ db_keyfile c = None /\ db_keyfile_json c = None.
Proof.
  unfold token_guard, conflicting_credential_with_access_token, explicit_credential_option.
  intros H E. rewrite E in H. destruct (db_keyfile_json c), (db_keyfile c), (db_target_principal c); done.
Qed.

Lemma explicit_none c :
  explicit_credential_option c = None <->
  db_keyfile_json c = None /\ db_keyfile c = None /\ db_target_principal c = None /\ db_access_token c = None.
Proof.
  unfold explicit_credential_option.
  destruct (db_keyfile_json c), (db_keyfile c), (db_target_principal c), (db_access_token c);
    cbn; split; intros; naive_solver.
Qed.

Lemma build_credentials_for m c json creds :
  token_guard c = Ok tt -> credentials_json m c = Ok json ->
  build_credentials m c false json = Ok creds -> credentials_for m c creds.
Proof.
  intros Hg Hj. unfold build_credentials, credential_choice.
  destruct (db_access_token c) as [token|] eqn:Et.
  { rewrite decide_True by done. cbn. intros H. inv_bind H. inv_bind E. simplify_eq.
    destruct (token_guard_alone c token Hg Et) as (? & ? & ?).
    eapply for_token; [done..|]. by eapply static_token_headers. }
  rewrite decide_False by by intros []. unfold credentials_json in Hj.
  destruct (db_target_principal c) as [target|] eqn:Ep.
  { rewrite decide_True by done. cbn. intros H. inv_bind H. inv_bind E. simplify_eq.
    apply built_Ok in E. eapply for_impersonation; [done..| |exact E].
    destruct (db_keyfile_json c); [by simplify_eq|]. destruct (db_keyfile c) as [path|].
    - destruct (read_to_string m path); simplify_eq. by eexists.
    - simplify_eq. by apply built_Ok in E0. }
  rewrite decide_False by by intros [].
  destruct (db_keyfile_json c) as [j|] eqn:Ej.
  { rewrite decide_True by by left. simplify_eq. cbn. intros H. inv_bind H. simplify_eq.
    by eapply for_key_json. }
  destruct (db_keyfile c) as [path|] eqn:Ek.
  { rewrite decide_True by by right. destruct (read_to_string m path) eqn:Er; simplify_eq. cbn.
    intros H. inv_bind H. simplify_eq. by eapply for_key_file. }
  rewrite decide_False by by intros [[]|[]].
  assert (explicit_credential_option c = None) as He by by apply explicit_none.
  intros [[Hq ->]|(q & b & Hq & Hb & ->)]%transpose_Ok; [by apply for_default|].
  apply built_Ok in Hb. by eapply for_quota.
Qed.

(** An option that another one makes moot changes nothing. *)
Lemma connect_ignores_keyfile m c :
  is_Some (db_keyfile_json c) -> connect m (with_keyfile c None) = connect m c.
Proof.
  intros [j Hj]. unfold connect, emulator_guard, token_guard, conflicting_credential_with_access_token,
    explicit_credential_option, credentials_json, build_credentials, credential_choice, resolve. cbn. rewrite Hj.
  rewrite !(decide_True (P := is_Some (Some j))) by done.
  rewrite !(decide_True (P := is_Some (Some j) \/ _)) by auto. done.
Qed.

Lemma connect_ignores_impersonation m c ds sc n :
  db_target_principal c = None ->
  connect m (with_lifetime_secs (with_scopes (with_delegates c ds) sc) n) = connect m c.
Proof.
  intros Ht. unfold connect, emulator_guard, token_guard, conflicting_credential_with_access_token,
    explicit_credential_option, credentials_json, build_credentials, credential_choice, resolve. cbn. rewrite Ht. done.
Qed.

Lemma connect_credentials (m : Moment) (c : DbConfig) (s : Connected) :
  connect m c = Ok s ->
  db_database c = Some (cn_database s) /\
  exists creds, spanner_build m (resolve m c).1 creds = inl (cn_spanner s) /\
    database_client m (cn_spanner s) (cn_database s) = inl (cn_client s) /\
    (forall e, db_endpoint c = Some e -> (resolve m c).1 = Some e) /\
    if (resolve m c).2
    then creds = Some anonymous /\ explicit_credential_option c = None /\ db_quota_project c = None
    else db_emulator c = false /\ (forall host, emulator_host m = Some host -> host = []) /\
         credentials_for m c creds.
Proof.
  unfold connect. destruct (db_database c) as [db|] eqn:Ed; [|done]. cbn.
  destruct (resolve m c) as [ep em] eqn:Er. intros H. inv_bind H. simplify_eq. cbn.
  destruct a. destruct (spanner_build m ep a2) as [sp|] eqn:Es; simplify_eq.
  destruct (database_client m _ db) as [cl|] eqn:Ec; simplify_eq.
  split; [done|]. exists a2. split_and!; [done..| |].
  - intros e He. unfold resolve in Er. rewrite He in Er.
    destruct (emulator_host m); [case_decide|]; by simplify_eq.
  - destruct em.
    + cbn in E2. unfold build_credentials in E2. cbn in E2. simplify_eq. split; [done|].
      unfold emulator_guard in E. cbn in E. destruct (explicit_credential_option c); [done|].
      by destruct (db_quota_project c).
    + unfold resolve in Er. split_and!.
      * destruct (emulator_host m); [case_decide|]; by simplify_eq.
      * intros host Hh. rewrite Hh in Er. case_decide; by simplify_eq.
      * destruct a0. by eapply build_credentials_for.
Qed.

(** C26: a connection uses exactly the credentials that were configured.  If
    [connect] succeeds, the client was built for the configured database and
    endpoint; in emulator mode, by option or by environment, it is anonymous and
    then no credential or quota option was set; otherwise it carries the
    credentials its options ask for ([credentials_for]), an access token only
    when no other credential is configured, and the quota project whenever one
    is set.  The options that are ignored without an error are these: the key file
    when an inline key is set, and the delegates, scopes and lifetime when no
    principal to impersonate is. *)
Theorem connect_uses_configured (m : Moment) (c : DbConfig) (s : Connected) :
  connect m c = Ok s ->
  db_database c = Some (cn_database s) /\
  (exists creds, spanner_build m (resolve m c).1 creds = inl (cn_spanner s) /\
    database_client m (cn_spanner s) (cn_database s) = inl (cn_client s) /\
    (forall e, db_endpoint c = Some e -> (resolve m c).1 = Some e) /\
    if (resolve m c).2
    then creds = Some anonymous /\ explicit_credential_option c = None /\ db_quota_project c = None
    else db_emulator c = false /\ (forall host, emulator_host m = Some host -> host = []) /\
         credentials_for m c creds) /\
  (is_Some (db_keyfile_json c) -> connect m (with_keyfile c None) = Ok s) /\
  (db_target_principal c = None -> forall ds sc n,
     connect m (with_lifetime_secs (with_scopes (with_delegates c ds) sc) n) = Ok s).
Proof.
  intros Hc. destruct (connect_credentials m c s Hc) as [Hd Hcreds]. split; [done|]. split; [done|]. split.
  - intros Hj. by rewrite connect_ignores_keyfile.
  - intros Ht ds sc n. by rewrite connect_ignores_impersonation.
Qed.

(** ** The cached client stack *)

Inductive db_step : SpannerDatabase -> SpannerDatabase -> Prop :=
  | step_set db key v : db_step db (db_set_option db key v).1
  | step_connect db m : db_step db (connect_shared m db).1.

(** The cached stack, if any, was built from the current options. *)
Definition cache_current (db : SpannerDatabase) : Prop :=
  forall s, connected db = Some s -> exists m, connect m (db_config db) = Ok s.

Lemma cache_current_step db db' : cache_current db -> db_step db db' -> cache_current db'.
Proof.
  intros H Hs. revert H. destruct Hs as [db0 key v|db0 m]; intros H;
    unfold cache_current, db_set_option, connect_shared in *.
  - destruct (set_config _ _ _); done.
  - intros s. destruct (connected db0) as [s0|] eqn:Es; cbn; [rewrite Es; intros [= <-]; by apply H|].
    destruct (connect m (db_config db0)) eqn:Ec; cbn; [|by rewrite Es]. intros [= <-]. by exists m.
Qed.

Lemma cache_current_reachable db : rtc db_step SpannerDatabase_new db -> cache_current db.
Proof.
  apply rtc_ind_r; [done|]. intros x y _ Hs Hx. by eapply cache_current_step.
Qed.

(** Connections share one client stack, and never a stale one.  Whatever
    sequence of option settings (accepted or refused) and connection attempts a
    database has been through, its cached stack is one that [connect] built from
    the options it has now; a connection gets that stack, and so does every later
    one until an option is set; the first connection after an option was set is
    built from the new options; and a failed attempt caches nothing. *)
Theorem cached_stack_current (db : SpannerDatabase) :
  rtc db_step SpannerDatabase_new db ->
  (forall m db' s, connect_shared m db = (db', Ok s) ->
     db_config db' = db_config db /\ (exists m0, connect m0 (db_config db) = Ok s) /\
     forall m', connect_shared m' db' = (db', Ok s)) /\
  (forall m db' e, connect_shared m db = (db', Err e) -> db' = db /\ connect m (db_config db) = Err e) /\
  (forall m key v, (connect_shared m (db_set_option db key v).1).2 =
     connect m (set_config (db_config db) key v).1).
Proof.
  intros Hr%cache_current_reachable. unfold cache_current in Hr. split_and!.
  - intros m db' s. unfold connect_shared. destruct (connected db) as [s0|] eqn:Es.
    + intros [= <- <-]. split_and!; [done|by apply Hr|]. by rewrite Es.
    + destruct (connect m (db_config db)) eqn:Ec; intros [= <- <-]. cbn. split_and!; [done|by exists m|done].
  - intros m db' e. unfold connect_shared. destruct (connected db) as [s0|] eqn:Es; [done|].
    destruct (connect m (db_config db)) eqn:Ec; by intros [= <- <-].
  - intros m key v. unfold connect_shared, db_set_option.
    destruct (set_config (db_config db) key v) as [c r]. cbn. by destruct (connect m c).
Qed.

End Facts.

(** ** Reading an option back *)

Definition item_ok (s : rstr) : Prop := s <> [] /\ clean s /\ cCOMMA ∉ s.

Record config_wf (c : DbConfig) : Prop := {
  wf_delegates : Forall item_ok (db_delegates c);
  wf_scopes : Forall item_ok (db_scopes c);
  wf_lifetime : forall n, db_lifetime_secs c = Some n -> (0 <= n <= u64_max)%Z;
  wf_quota : db_quota_project c <> Some [];
}.

(** An option value as the C ABI can deliver it: integers are [i64]s. *)
Definition value_ok (v : OptionValue) : Prop :=
  match v with OInt i => is_i64 i = true | _ => True end.

Inductive configured : DbConfig -> Prop :=
  | configured_new : configured DbConfig_new
  | configured_set c key v : configured c -> value_ok v -> configured (set_config c key v).1.

Lemma trim_sub s c : c ∈ trim s -> c ∈ s.
Proof. destruct (trim_spec s) as (w1 & w2 & E & _). rewrite E at 2. set_solver. Qed.

Lemma comma_separated_ok s : Forall item_ok (comma_separated s).
Proof.
  unfold comma_separated. apply Forall_forall. intros x [Hx Hin]%list_elem_of_filter.
  apply list_elem_of_fmap in Hin as (p & -> & Hp).
  pose proof (split_on_notin cCOMMA s) as H. rewrite Forall_forall in H.
  split_and!; [done|apply clean_trim, trim_trim|]. intros Hc%trim_sub. by eapply H.
Qed.

Lemma comma_separated_join l : Forall item_ok l -> l <> [] -> comma_separated (join [cCOMMA] l) = l.
Proof.
  intros H Hne. unfold comma_separated. rewrite split_on_join_inv; [|done|].
  2: { eapply Forall_impl; [exact H|]. by intros x (_ & _ & ?). }
  assert (map trim l = l) as ->.
  { clear Hne. induction H as [|x l (? & Hx & _) _ IH]; [done|]. cbn. f_equal; [by apply clean_trim|done]. }
  apply filter_all. eapply Forall_impl; [exact H|]. by intros x (? & _ & _).
Qed.

Lemma parse_u64_ok s n : parse_u64 s = Some n -> (0 <= n <= u64_max)%Z.
Proof.
  assert (forall t a m, (0 <= a)%Z -> digits_val a t = Some m -> (0 <= m)%Z) as Hd.
  { induction t as [|c t IH]; intros a m Ha; cbn; [congruence|].
    unfold digit_val, is_ascii_digit. case_bool_decide; [|done]. cbn. apply IH. lia. }
  assert (forall t m, parse_digits t = Some m -> (0 <= m)%Z) as Hp.
  { intros [|c t] m; [done|]. unfold parse_digits. by apply Hd. }
  unfold parse_u64. destruct s as [|c s]; [done|]. intros H.
  destruct (decide (c = cPLUS)).
  - destruct (parse_digits s) eqn:E; cbn in H; [|done]. apply Hp in E. case_decide; simplify_eq. lia.
  - destruct (parse_digits (c :: s)) eqn:E; cbn in H; [|done]. apply Hp in E. case_decide; simplify_eq. lia.
Qed.

Lemma parse_show_u64 n : (0 <= n <= u64_max)%Z -> parse_u64 (trim (show_Z n)) = Some n.
Proof.
  intros Hn. unfold show_Z. rewrite decide_False by lia.
  pose proof (show_N_digits (Z.to_N n)) as Hd.
  rewrite (proj2 (clean_trim _)).
  2: { apply clean_no_ws. eapply Forall_impl; [exact Hd|]. apply digit_not_whitespace. }
  unfold parse_u64. destruct (show_N (Z.to_N n)) as [|c r] eqn:E; [by apply show_N_nonnil in E|].
  apply Forall_cons in Hd as [Hc%bool_decide_eq_true _].
  rewrite decide_False by (intros ->; lia). rewrite <- E, parse_digits_show. cbn [mbind option_bind].
  replace (Z.of_N (Z.to_N n)) with n by lia. by rewrite decide_True by lia.
Qed.

Lemma u64_seconds_value_ok key v n :
  value_ok v -> u64_seconds_value key v = Ok n -> (0 <= n <= u64_max)%Z.
Proof.
  intros Hv. destruct v as [s| |i|]; cbn; try done.
  - unfold ok_or. destruct (parse_u64 (trim s)) eqn:E; [|done]. intros [= <-]. by eapply parse_u64_ok.
  - case_decide; [|done]. intros [= <-]. cbn in Hv. unfold is_i64, i64_max, u64_max in *.
    apply bool_decide_eq_true in Hv. lia.
Qed.

Lemma set_other_wf c name v : value_ok v -> config_wf c -> config_wf (set_other c name v).1.
Proof.
  intros Hv [Hd Hs Hl Hq]. unfold set_other, assign.
  repeat (case_decide; [case_match eqn:E; cbn; split; cbn; auto using comma_separated_ok|]); [..|done].
  - intros k [= <-]. by eapply u64_seconds_value_ok.
  - by case_decide; [|congruence].
Qed.

Lemma set_params_wf ps c : config_wf c -> config_wf (set_params c ps).1.
Proof.
  revert c. induction ps as [|[k v] ps IH]; intros c H; [done|]. cbn [set_params].
  pose proof (set_other_wf c k (OString v) I H). destruct (set_other c k (OString v)) as [c' [|]]; cbn in *; auto.
Qed.

Lemma set_config_wf c key v : value_ok v -> config_wf c -> config_wf (set_config c key v).1.
Proof.
  intros Hv Hc. destruct key; cbn [set_config]; try done; [|by apply set_other_wf].
  destruct (string_value OdUri v) as [value|]; [|done]. unfold set_uri_option.
  destruct (connection_uri_remainder value) as [rem|]; [|done].
  destruct (apply_connection_uri_spec value rem) as [[e He]|(parsed & f & _ & _ & Hf)]; [by rewrite He|].
  destruct (Hf c) as [-> H2]. cbn.
  assert (config_wf (set_parts parsed c).1) as H.
  { unfold set_parts. apply set_params_wf. destruct Hc. destruct (pu_endpoint parsed); by split. }
  rewrite H2 in H. cbn in H. destruct H. by split.
Qed.

Lemma configured_wf c : configured c -> config_wf c.
Proof.
  induction 1; [|by apply set_config_wf]. split; cbn; [constructor..|done|done].
Qed.

(** Every option but [uri] round-trips.  In any configuration reached by
    setting options, writing back what reading an option returned is accepted and
    changes nothing, for each of the options that can be read. *)
Theorem db_get_then_set_is_identity (c : DbConfig) (name s : rstr) :
  configured c -> db_get_option_string c (OdOther name) = Ok s ->
  set_config c (OdOther name) (OString s) = (c, Ok tt).
Proof.
  intros [Hd Hs Hl Hq]%configured_wf. unfold db_get_option_string.
  destruct (decide (name = OPTION_KEYFILE_JSON \/ name = OPTION_ACCESS_TOKEN)) as [|Hn]; [done|].
  apply Decidable.not_or in Hn as [Hn1 Hn2]. cbn [set_config]. unfold set_other, ok_or.
  rewrite (decide_False (P := name = OPTION_KEYFILE_JSON)), (decide_False (P := name = OPTION_ACCESS_TOKEN)) by done.
  repeat first
    [ match goal with |- context [decide (name = ?k)] => destruct (decide (name = k)) end; [|]
    | done ].
  all: intros H; cbn [string_value string_option assign].
  - case_match; [|done]. destruct c; cbn in *. by simplify_eq/=.
  - injection H as <-. unfold bool_value. rewrite bool_option_show. by destruct c.
  - case_match; [|done]. destruct c; cbn in *. by simplify_eq/=.
  - case_match; [|done]. destruct c; cbn in *. by simplify_eq/=.
  - destruct (decide (db_delegates c = [])); [done|]. injection H as <-.
    rewrite comma_separated_join by done. by destruct c.
  - destruct (decide (db_scopes c = [])); [done|]. injection H as <-.
    rewrite comma_separated_join by done. by destruct c.
  - destruct (db_lifetime_secs c) as [secs|] eqn:E; [|done]. injection H as <-. unfold u64_seconds_value.
    rewrite parse_show_u64 by by apply Hl. destruct c; cbn in *. by subst.
  - destruct c; cbn in *. destruct db_quota_project as [q|]; simplify_eq. by rewrite decide_False by naive_solver.
Qed.

(** ** A URI replayed over an unset option *)

(** The options a tool can read, the URI first, as a list to set again. *)
Definition dump (c : DbConfig) : list (OptionDatabase * OptionValue) :=
  omap (fun key => match db_get_option_string c key with Ok s => Some (key, OString s) | Err _ => None end)
    (OdUri :: map OdOther URI_QUERY_OPTIONS).

Fixpoint set_all (c : DbConfig) (opts : list (OptionDatabase * OptionValue)) : DbConfig * Result unit :=
  match opts with
  | [] => (c, Ok tt)
  | (key, value) :: opts => match set_config c key value with (c', Ok _) => set_all c' opts | r => r end
  end.

Definition uri_with_quota : rstr :=
  str "spanner:///projects/p/instances/i/databases/d?spanner.auth.quota_project=billing".

(** Replaying a dumped configuration can change it.  After a URI that carries
    a quota project, the empty string unsets the project; the URI still reads
    back as it was set, the unset project is absent from the dump, and setting
    the dump again on a new database brings the project back. *)
Theorem uri_replay_resurrects_unset :
  let c := (set_all DbConfig_new
    [(OdUri, OString uri_with_quota); (OdOther OPTION_QUOTA_PROJECT, OString [])]).1 in
  db_quota_project c = None /\
  dump c = [(OdUri, OString uri_with_quota); (OdOther OPTION_EMULATOR, OString (str "false"))] /\
  (exists c', set_all DbConfig_new (dump c) = (c', Ok tt) /\ db_quota_project c' = Some (str "billing")).
Proof.
  split; [vm_compute; reflexivity|]. split; [vm_compute; reflexivity|].
  eexists. split; vm_compute; reflexivity.
Qed.

(** ** Witnesses *)

(** Crates and services that accept everything: credentials are the headers they
    send. *)
Definition example_outside : Outside := {|
  Moment := unit;
  emulator_host _ := None;
  read_to_string _ _ := inr (str "no such file");
  Json := rstr; json_from_str s := inl s; json_type _ := Some (str "service_account");
  header_value_ok _ := true;
  Credentials := list Header; AuthError := unit; EntityTag := unit; EntityTag_eq := _;
  entity_tag_new _ := tt;
  is_missing_field _ := false; is_parsing _ := false; is_unknown_type _ := false;
  is_not_supported _ := false; is_loading _ := false;
  anonymous := [];
  service_account _ _ := inl []; user_account _ _ := inl [];
  impersonated_account _ _ := inl []; external_account _ _ := inl [];
  application_default _ _ := inl [];
  impersonated _ _ _ _ _ _ := inl [];
  from_provider h _ := h;
  Spanner := option (list Header); DatabaseClient := option (list Header);
  spanner_build _ _ c := inl c;
  OutsideRpc := no_details;
  database_client _ s _ := inl s |}.

Definition example_db (token : rstr) : DbConfig :=
  (set_all DbConfig_new
    [(OdUri, OString uri_with_quota); (OdOther OPTION_ACCESS_TOKEN, OString token)]).1.

Lemma secrets_unobservable_witness :
  db_get_option_string (example_db (str "t1")) (OdOther OPTION_ACCESS_TOKEN) =
  db_get_option_string (example_db (str "t2")) (OdOther OPTION_ACCESS_TOKEN).
Proof.
  apply (secrets_unobservable (O := example_outside) (example_db (str "t1")) (example_db (str "t2")) None).
  split; vm_compute; [reflexivity|done|]. split; intros _; by eexists.
Defined.

Lemma connect_uses_configured_witness :
  db_database (example_db (str "t")) = Some (str "projects/p/instances/i/databases/d").
Proof.
  apply (connect_uses_configured (O := example_outside) tt (example_db (str "t"))
    (mkConnected (O := example_outside)
       (Some [mkHeader (str "authorization") (str "Bearer t") true;
              mkHeader QUOTA_PROJECT_HEADER (str "billing") false])
       (Some [mkHeader (str "authorization") (str "Bearer t") true;
              mkHeader QUOTA_PROJECT_HEADER (str "billing") false])
       (str "projects/p/instances/i/databases/d"))).
  vm_compute. reflexivity.
Defined.

Lemma cached_stack_current_witness :
  let db := (connect_shared (O := example_outside) tt (mkDatabase (O := example_outside) (example_db (str "t")) None)).1 in
  is_Some (connected db) /\
  exists m0, is_Ok (connect (O := example_outside) m0 (db_config db)).
Proof.
  set (d1 := (db_set_option (O := example_outside) SpannerDatabase_new OdUri (OString uri_with_quota)).1).
  set (d2 := (db_set_option d1 (OdOther OPTION_ACCESS_TOKEN) (OString (str "t"))).1).
  set (d3 := (connect_shared (O := example_outside) tt d2).1).
  assert (rtc db_step SpannerDatabase_new d3) as Hr.
  { eapply rtc_l; [apply step_set|]. eapply rtc_l; [apply step_set|]. eapply rtc_l; [apply (step_connect (O := example_outside) _ tt)|].
    apply rtc_refl. }
  destruct (connected d3) as [s|] eqn:E; [|vm_compute in E; discriminate E].
  destruct (cached_stack_current (O := example_outside) d3 Hr) as [H _].
  destruct (H tt d3 s) as (_ & [m0 Hm] & _); [unfold connect_shared; by rewrite E|].
  split; [vm_compute; by eexists|]. exists m0, s. exact Hm.
Defined.

Lemma db_get_then_set_is_identity_witness :
  set_config (example_db (str "t")) (OdOther OPTION_QUOTA_PROJECT) (OString (str "billing")) =
  (example_db (str "t"), Ok tt).
Proof.
  apply (db_get_then_set_is_identity (example_db (str "t")) OPTION_QUOTA_PROJECT (str "billing")).
  - replace (example_db (str "t")) with
      (set_config (set_config DbConfig_new OdUri (OString uri_with_quota)).1
         (OdOther OPTION_ACCESS_TOKEN) (OString (str "t"))).1 by (vm_compute; reflexivity).
    apply configured_set; [|done]. apply configured_set; [apply configured_new|done].
  - vm_compute. reflexivity.
Defined.
