(* ===== verification/Arrow.v ===== *)
(** * Arrow and Spanner types, and the schema of a result

    The Arrow data types, fields and arrays the driver reads and builds, with the
    typing of their cells; the Spanner types of a result's metadata; and the
    mapping from the second to the first ([build_schema], [arrow_field],
    [arrow_type] of [src/conversion.rs]).

    An array is its type and its cells.  A dictionary-encoded cell holds the cell
    its key selects, so a null key and a null value stay apart; a cell of a
    dense union holds its type id and the cell of that branch. *)

From Stdlib Require Import SpecFloat.
From S2P Require Import Prelude RustStr RustNum ErrorModel Config Stream.

(** ** Arrow types ([arrow_schema]) *)

Inductive TimeUnit := USecond | UMillisecond | UMicrosecond | UNanosecond.

#[export] Instance TimeUnit_eq_dec : EqDecision TimeUnit.
Proof. solve_decision. Defined.

(** [DataType]; [DOther] stands for the variants the driver never names. *)
Inductive DataType :=
  | DNull | DBoolean
  | DInt8 | DInt16 | DInt32 | DInt64
  | DUInt8 | DUInt16 | DUInt32 | DUInt64
  | DFloat16 | DFloat32 | DFloat64
  | DUtf8 | DLargeUtf8 | DUtf8View
  | DBinary | DLargeBinary | DBinaryView | DFixedSizeBinary (width : Z)
  | DDate32 | DDate64
  | DTimestamp (unit : TimeUnit) (tz : option rstr)
  | DDecimal128 (precision scale : Z)
  | DList (item : Field) | DLargeList (item : Field)
  | DStruct (fields : list Field)
  | DDictionary (key value : DataType)
  | DUnion (fields : list (Z * Field))
  | DOther (name : rstr)
with Field :=
  | mkField (name : rstr) (dt : DataType) (nullable : bool) (metadata : list (rstr * rstr)).

Definition f_name (f : Field) : rstr := let 'mkField n _ _ _ := f in n.
Definition f_type (f : Field) : DataType := let 'mkField _ d _ _ := f in d.
Definition f_nullable (f : Field) : bool := let 'mkField _ _ b _ := f in b.
Definition f_metadata (f : Field) : list (rstr * rstr) := let 'mkField _ _ _ m := f in m.

(** [Field::new]. *)
Definition Field_new (name : rstr) (dt : DataType) (nullable : bool) : Field := mkField name dt nullable [].

Definition with_metadata (f : Field) (m : list (rstr * rstr)) : Field :=
  mkField (f_name f) (f_type f) (f_nullable f) m.

(** [HashMap::get]. *)
Fixpoint get_metadata (m : list (rstr * rstr)) (key : rstr) : option rstr :=
  match m with
  | [] => None
  | (k, v) :: m => if decide (k = key) then Some v else get_metadata m key
  end.

Definition is_leaf (dt : DataType) : bool :=
  match dt with DList _ | DLargeList _ | DStruct _ | DDictionary _ _ | DUnion _ => false | _ => true end.

Section DataTypeInd.
Variable P : DataType -> Prop.
Hypothesis Hleaf : forall dt, is_leaf dt = true -> P dt.
Hypothesis Hlist : forall f, P (f_type f) -> P (DList f).
Hypothesis Hllist : forall f, P (f_type f) -> P (DLargeList f).
Hypothesis Hstruct : forall fs, Forall (fun f => P (f_type f)) fs -> P (DStruct fs).
Hypothesis Hdict : forall k v, P k -> P v -> P (DDictionary k v).
Hypothesis Hunion : forall fs, Forall (fun nf => P (f_type (snd nf))) fs -> P (DUnion fs).

(** Induction with the hypothesis for the fields of a struct. *)
Fixpoint DataType_deep_ind (dt : DataType) : P dt :=
  match dt with
  | DList f => Hlist f (match f return P (f_type f) with mkField _ d _ _ => DataType_deep_ind d end)
  | DLargeList f => Hllist f (match f return P (f_type f) with mkField _ d _ _ => DataType_deep_ind d end)
  | DStruct fs => Hstruct fs
      ((fix go fs : Forall (fun f => P (f_type f)) fs :=
          match fs with
          | [] => Forall_nil_2 _
          | f :: fs => Forall_cons_2 (fun f => P (f_type f)) f fs (match f return P (f_type f) with mkField _ d _ _ => DataType_deep_ind d end) (go fs)
          end) fs)
  | DDictionary k v => Hdict k v (DataType_deep_ind k) (DataType_deep_ind v)
  | DUnion fs => Hunion fs
      ((fix go fs : Forall (fun nf => P (f_type (snd nf))) fs :=
          match fs with
          | [] => Forall_nil_2 _
          | nf :: fs => Forall_cons_2 (fun nf => P (f_type (snd nf))) nf fs
              (match snd nf as f return P (f_type f) with mkField _ d _ _ => DataType_deep_ind d end) (go fs)
          end) fs)
  | DNull => Hleaf DNull eq_refl | DBoolean => Hleaf DBoolean eq_refl
  | DInt8 => Hleaf DInt8 eq_refl | DInt16 => Hleaf DInt16 eq_refl | DInt32 => Hleaf DInt32 eq_refl | DInt64 => Hleaf DInt64 eq_refl
  | DUInt8 => Hleaf DUInt8 eq_refl | DUInt16 => Hleaf DUInt16 eq_refl | DUInt32 => Hleaf DUInt32 eq_refl | DUInt64 => Hleaf DUInt64 eq_refl
  | DFloat16 => Hleaf DFloat16 eq_refl | DFloat32 => Hleaf DFloat32 eq_refl | DFloat64 => Hleaf DFloat64 eq_refl
  | DUtf8 => Hleaf DUtf8 eq_refl | DLargeUtf8 => Hleaf DLargeUtf8 eq_refl | DUtf8View => Hleaf DUtf8View eq_refl
  | DBinary => Hleaf DBinary eq_refl | DLargeBinary => Hleaf DLargeBinary eq_refl | DBinaryView => Hleaf DBinaryView eq_refl
  | DFixedSizeBinary w => Hleaf (DFixedSizeBinary w) eq_refl
  | DDate32 => Hleaf DDate32 eq_refl | DDate64 => Hleaf DDate64 eq_refl
  | DTimestamp u t => Hleaf (DTimestamp u t) eq_refl | DDecimal128 p s => Hleaf (DDecimal128 p s) eq_refl
  | DOther n => Hleaf (DOther n) eq_refl
  end.

End DataTypeInd.

(** [DataType::eq], which compares fields with their names and metadata. *)
Fixpoint dt_eqb (a b : DataType) : bool :=
  match a, b with
  | DNull, DNull | DBoolean, DBoolean | DInt8, DInt8 | DInt16, DInt16 | DInt32, DInt32 | DInt64, DInt64
  | DUInt8, DUInt8 | DUInt16, DUInt16 | DUInt32, DUInt32 | DUInt64, DUInt64
  | DFloat16, DFloat16 | DFloat32, DFloat32 | DFloat64, DFloat64
  | DUtf8, DUtf8 | DLargeUtf8, DLargeUtf8 | DUtf8View, DUtf8View
  | DBinary, DBinary | DLargeBinary, DLargeBinary | DBinaryView, DBinaryView
  | DDate32, DDate32 | DDate64, DDate64 => true
  | DFixedSizeBinary n, DFixedSizeBinary m => bool_decide (n = m)
  | DTimestamp u t, DTimestamp u' t' => bool_decide (u = u' /\ t = t')
  | DDecimal128 p s, DDecimal128 p' s' => bool_decide (p = p' /\ s = s')
  | DList f, DList g | DLargeList f, DLargeList g => field_eqb f g
  | DStruct fs, DStruct gs =>
      (fix go fs gs := match fs, gs with
         | [], [] => true
         | f :: fs, g :: gs => field_eqb f g && go fs gs
         | _, _ => false
         end) fs gs
  | DDictionary k v, DDictionary k' v' => dt_eqb k k' && dt_eqb v v'
  | DUnion fs, DUnion gs =>
      (fix go fs gs := match fs, gs with
         | [], [] => true
         | (i, f) :: fs, (j, g) :: gs => bool_decide (i = j) && field_eqb f g && go fs gs
         | _, _ => false
         end) fs gs
  | DOther n, DOther m => bool_decide (n = m)
  | _, _ => false
  end
with field_eqb (f g : Field) : bool :=
  match f, g with
  | mkField n d b m, mkField n' d' b' m' => bool_decide (n = n' /\ b = b' /\ m = m') && dt_eqb d d'
  end.

(** ** Arrays ([arrow_array]) *)

Inductive Cell :=
  | CNull
  | CBool (b : bool)
  | CInt (z : Z)
  | CFloat (x : f64)
  | CStr (s : rstr)
  | CBytes (b : list N)
  | CList (l : list Cell)
  | CStruct (l : list Cell)
  | CDict (c : Cell)
  | CUnion (type_id : Z) (c : Cell).

Record Array := mkArray { a_type : DataType; a_cells : list Cell }.

Definition in_range (lo hi z : Z) : bool := bool_decide (lo <= z <= hi)%Z.

(** The natives of an integer-backed type. *)
Definition int_native (dt : DataType) (z : Z) : bool :=
  match dt with
  | DInt8 => in_range (-128) 127 z
  | DInt16 => in_range (-32768) 32767 z
  | DInt32 | DDate32 => in_range (- 2 ^ 31) (2 ^ 31 - 1) z
  | DInt64 | DDate64 | DTimestamp _ _ => is_i64 z
  | DUInt8 => in_range 0 255 z
  | DUInt16 => in_range 0 65535 z
  | DUInt32 => in_range 0 u32_max z
  | DUInt64 => in_range 0 u64_max z
  | DDecimal128 _ _ => in_range (- 2 ^ 127) (2 ^ 127 - 1) z
  | _ => false
  end.

(** [cell_ok dt c]: [c] is a cell of an array of type [dt]. *)
Fixpoint cell_ok (dt : DataType) (c : Cell) {struct dt} : bool :=
  match c with
  | CNull => true
  | CBool _ => match dt with DBoolean => true | _ => false end
  | CInt z => int_native dt z
  | CFloat _ => match dt with DFloat16 | DFloat32 | DFloat64 => true | _ => false end
  | CStr _ => match dt with DUtf8 | DLargeUtf8 | DUtf8View => true | _ => false end
  | CBytes _ => match dt with DBinary | DLargeBinary | DBinaryView | DFixedSizeBinary _ => true | _ => false end
  | CList l => match dt with DList f | DLargeList f => forallb (field_ok f) l | _ => false end
  | CStruct l =>
      match dt with
      | DStruct fs =>
          (fix go fs l := match fs, l with
             | [], [] => true
             | f :: fs, c :: l => field_ok f c && go fs l
             | _, _ => false
             end) fs l
      | _ => false
      end
  | CDict c => match dt with DDictionary _ v => cell_ok v c | _ => false end
  | CUnion id c =>
      match dt with
      | DUnion fs =>
          (fix go fs := match fs with
             | [] => false
             | (i, f) :: fs => if decide (i = id) then field_ok f c else go fs
             end) fs
      | _ => false
      end
  end
with field_ok (f : Field) (c : Cell) {struct f} : bool :=
  match f with mkField _ d _ _ => cell_ok d c end.

Definition array_ok (a : Array) : Prop := Forall (fun c => cell_ok (a_type a) c = true) (a_cells a).

(** [RecordBatch]: the columns beside their fields, and the number of rows. *)
Record Batch := mkBatch { b_fields : list Field; b_columns : list Array; b_rows : nat }.

(** What [RecordBatch::try_new] validates: a column per field, of its type, all of
    one length. *)
Definition batch_ok (b : Batch) : Prop :=
  Forall2 (fun f a => a_type a = f_type f /\ length (a_cells a) = b_rows b /\ array_ok a)
    (b_fields b) (b_columns b).

(** ** Spanner types *)

Inductive TypeCode :=
  | TcUnspecified | TcBool | TcInt64 | TcFloat64 | TcFloat32 | TcTimestamp | TcDate | TcString
  | TcBytes | TcArray | TcStruct | TcNumeric | TcJson | TcProto | TcEnum | TcInterval | TcUuid
  | TcUnknown (n : Z).

#[export] Instance TypeCode_eq_dec : EqDecision TypeCode.
Proof. solve_decision. Defined.

(** [google_cloud_spanner::value::Type]: a code, an element type, a struct type
    whose fields may come without a type. *)
Inductive Ty := mkTy (code : TypeCode) (element : option Ty) (fields : option (list (rstr * option Ty))).

Definition ty_code (t : Ty) : TypeCode := let 'mkTy c _ _ := t in c.

(** ** The schema of a result ([src/conversion.rs]) *)

Definition LIST_ITEM : rstr := str "item".
Definition MAX_TYPE_NESTING_DEPTH : nat := 100.
Definition NUMERIC_PRECISION : Z := 38.
Definition NUMERIC_SCALE : Z := 9.
Definition TIMESTAMP_TZ : rstr := str "UTC".
Definition ARROW_EXTENSION_NAME : rstr := str "ARROW:extension:name".
Definition ARROW_EXTENSION_METADATA : rstr := str "ARROW:extension:metadata".
Definition ARROW_JSON_EXTENSION : rstr := str "arrow.json".

Definition json_extension_metadata : list (rstr * rstr) :=
  [(ARROW_EXTENSION_NAME, ARROW_JSON_EXTENSION); (ARROW_EXTENSION_METADATA, [])].

Definition is_json_field (field : Field) : bool :=
  let storage := match f_type field with DDictionary _ value => value | other => other end in
  match storage with DUtf8 | DLargeUtf8 | DUtf8View => true | _ => false end &&
  bool_decide (get_metadata (f_metadata field) ARROW_EXTENSION_NAME = Some ARROW_JSON_EXTENSION).

Definition time_unit (p : TimestampPrecision) : TimeUnit :=
  match p with NanosecondsErrorOnOverflow => UNanosecond | Microseconds => UMicrosecond end.

Section Schema.
Variable precision : TimestampPrecision.

Definition check_depth (depth : nat) : Result unit :=
  if decide (MAX_TYPE_NESTING_DEPTH < depth) then
    Err (err [Lit "nested STRUCT/ARRAY type exceeds the maximum depth of ";
              DispZ (Z.of_nat MAX_TYPE_NESTING_DEPTH)] Internal)
  else Ok tt.

(** [arrow_field_at] from the type already mapped. *)
Definition tag_field (name : rstr) (code : TypeCode) (nullable : bool) (dt : DataType) : Field :=
  let field := Field_new name dt nullable in
  if decide (code = TcJson) then with_metadata field json_extension_metadata else field.

(** A struct field without a type has the default type, which is text. *)
Fixpoint arrow_type (ty : Ty) (depth : nat) {struct ty} : Result DataType :=
  let 'mkTy code element fields := ty in
  _ ← check_depth depth;
  match code with
  | TcBool => Ok DBoolean
  | TcInt64 => Ok DInt64
  | TcFloat64 => Ok DFloat64
  | TcFloat32 => Ok DFloat32
  | TcBytes => Ok DBinary
  | TcDate => Ok DDate32
  | TcTimestamp => Ok (DTimestamp (time_unit precision) (Some TIMESTAMP_TZ))
  | TcNumeric => Ok (DDecimal128 NUMERIC_PRECISION NUMERIC_SCALE)
  | TcStruct =>
      match fields with
      | Some fields =>
          fs ← (fix go (fields : list (rstr * option Ty)) : Result (list Field) :=
                  match fields with
                  | [] => Ok []
                  | (name, ty) :: fields =>
                      f ← match ty with
                          | Some ty => dt ← arrow_type ty (S depth); Ok (tag_field name (ty_code ty) true dt)
                          | None => _ ← check_depth (S depth); Ok (tag_field name TcUnspecified true DUtf8)
                          end;
                      fs ← go fields; Ok (f :: fs)
                  end) fields;
          Ok (DStruct fs)
      | None => Ok DUtf8
      end
  | TcArray =>
      match element with
      | Some element =>
          match ty_code element with
          | TcArray | TcUnspecified => Ok DUtf8
          | _ => dt ← arrow_type element (S depth);
                 Ok (DList (tag_field LIST_ITEM (ty_code element) true dt))
          end
      | None => Ok DUtf8
      end
  | TcEnum => Ok DInt64
  | TcProto => Ok DBinary
  | _ => Ok DUtf8
  end.

Definition arrow_field_at (name : rstr) (ty : Ty) (nullable : bool) (depth : nat) : Result Field :=
  dt ← arrow_type ty depth; Ok (tag_field name (ty_code ty) nullable dt).

Definition arrow_field (name : rstr) (ty : Ty) (nullable : bool) : Result Field :=
  arrow_field_at name ty nullable 0.

Definition name_column (name : rstr) (e : Error) : Error :=
  annotate e (fun m => [Lit "column "; Dbg name; Lit ": "] ++ m).

Definition res_map_err {A} (f : Error -> Error) (r : Result A) : Result A :=
  match r with Ok a => Ok a | Err e => Err (f e) end.

(** A result's metadata: column names, and the types there are. *)
Fixpoint schema_fields (names : list rstr) (types : list Ty) : Result (list Field) :=
  match names with
  | [] => Ok []
  | name :: names =>
      f ← match types with
          | ty :: _ => res_map_err (name_column name) (arrow_field name ty true)
          | [] => Ok (Field_new name DUtf8 true)
          end;
      fs ← schema_fields names (tail types); Ok (f :: fs)
  end.

Definition build_schema (metadata : option (list rstr * list Ty)) (first_row : option Row) :
    Result (list Field) :=
  match metadata with
  | Some ((name :: _) as names, types) => schema_fields names types
  | _ =>
      let width := match first_row with Some r => length r | None => 0 end in
      Ok (map (fun i => Field_new (str "col" ++ show_N (N.of_nat i)) DUtf8 true) (seq 0 width))
  end.

End Schema.
