(* ===== verification/Decode.v ===== *)
(** * Decoding result values: the array builders of [src/conversion.rs]

    Each column of a chunk is decoded from the wire values of its rows into an
    Arrow array.  The scanners for dates, timestamps and decimals are the
    driver's own and are modelled byte by byte; the calendar arithmetic behind
    them belongs to chrono and is the interface [Chrono], base64 decoding and the
    JSON rendering of serde_json are [Codec]. *)

From Stdlib Require Import SpecFloat.
From S2P Require Import Prelude RustStr Utf8 RustNum ErrorModel Options Config Stream Arrow.

Open Scope Z_scope.

(** ** chrono *)

(** [chrono::SecondsFormat], with the number of fractional digits. *)
Inductive SecondsFormat := Secs | Millis | Micros | Nanos.

Class Chrono := {
  NaiveDate : Type;
  (** [NaiveDate::from_ymd_opt], [Datelike::num_days_from_ce], the epoch plus a
      number of days ([checked_add_signed]), and [format("%Y-%m-%d")] *)
  from_ymd_opt : Z -> Z -> Z -> option NaiveDate;
  num_days_from_ce : NaiveDate -> Z;
  epoch_plus_days : Z -> option NaiveDate;
  format_ymd : NaiveDate -> rstr;
  (** an instant in UTC: [and_hms_nano_opt(..).and_utc()], its floor seconds and
      its non-negative nanoseconds ([timestamp], [timestamp_subsec_nanos]) *)
  DateTimeUtc : Type;
  and_hms_nano_opt : NaiveDate -> Z -> Z -> Z -> Z -> option DateTimeUtc;
  timestamp : DateTimeUtc -> Z;
  timestamp_subsec_nanos : DateTimeUtc -> Z;
  (** [from_timestamp] with seconds and nanoseconds, [to_rfc3339_opts(_, true)],
      and whether [parse_from_rfc3339] accepts a text *)
  from_timestamp : Z -> Z -> option DateTimeUtc;
  to_rfc3339_opts : DateTimeUtc -> SecondsFormat -> rstr;
  rfc3339_ok : rstr -> bool;
}.

(** A number with leading zeros. *)
Definition pad (width : nat) (n : Z) : rstr :=
  let digits := show_N (Z.to_N n) in replicate (width - length digits) cZERO ++ digits.

(** [YYYY-MM-DD] and [HH:MM:SS], and the fraction a format shows. *)
Definition ymd_text (y m d : Z) : rstr := pad 4 y ++ cDASH :: pad 2 m ++ cDASH :: pad 2 d.
Definition hms_text (h mi s : Z) : rstr := pad 2 h ++ cCOLON :: pad 2 mi ++ cCOLON :: pad 2 s.
Definition fraction_text (f : SecondsFormat) (nanos : Z) : rstr :=
  match f with
  | Secs => []
  | Millis => cDOT :: pad 3 (nanos / 1000000)
  | Micros => cDOT :: pad 6 (nanos / 1000)
  | Nanos => cDOT :: pad 9 nanos
  end.

(** The first and the last day of the years 0 to 9999, counted from 0001-01-01 as
    day 1; [719163] is 1970-01-01. *)
Definition first_day : Z := -365.
Definition last_day : Z := 3652059.

(** What the driver relies on of chrono: dates are days, their text is what its
    fields say, and an instant is its date and time of day. *)
Class ChronoLaws (CH : Chrono) : Prop := {
  ymd_range y m d date :
    from_ymd_opt y m d = Some date -> 0 <= y <= 9999 -> first_day <= num_days_from_ce date <= last_day;
  date_inj a b : num_days_from_ce a = num_days_from_ce b -> a = b;
  epoch_total n : first_day <= n + 719163 <= last_day -> is_Some (epoch_plus_days n);
  epoch_days n date : epoch_plus_days n = Some date -> num_days_from_ce date = n + 719163;
  format_ymd_text date :
    first_day <= num_days_from_ce date <= last_day ->
    exists y m d, 0 <= y <= 9999 /\ 1 <= m <= 12 /\ 1 <= d <= 31 /\
      from_ymd_opt y m d = Some date /\ format_ymd date = ymd_text y m d;
  hms_instant date h mi s n dt :
    and_hms_nano_opt date h mi s n = Some dt -> 0 <= n < 1000000000 ->
    0 <= h < 24 /\ 0 <= mi < 60 /\ 0 <= s < 60 /\
    timestamp dt = (num_days_from_ce date - 719163) * 86400 + h * 3600 + mi * 60 + s /\
    timestamp_subsec_nanos dt = n;
  from_timestamp_total secs nanos :
    (first_day - 719163) * 86400 <= secs < (last_day + 1 - 719163) * 86400 -> 0 <= nanos < 1000000000 ->
    is_Some (from_timestamp secs nanos);
  from_timestamp_instant secs nanos dt :
    from_timestamp secs nanos = Some dt -> 0 <= nanos < 1000000000 ->
    timestamp dt = secs /\ timestamp_subsec_nanos dt = nanos;
  rfc3339_text dt f :
    0 <= timestamp_subsec_nanos dt < 1000000000 ->
    (first_day - 719163) * 86400 <= timestamp dt < (last_day + 1 - 719163) * 86400 ->
    exists y m d h mi s date, 0 <= y <= 9999 /\ 1 <= m <= 12 /\ 1 <= d <= 31 /\
      0 <= h < 24 /\ 0 <= mi < 60 /\ 0 <= s < 60 /\
      from_ymd_opt y m d = Some date /\
      timestamp dt = (num_days_from_ce date - 719163) * 86400 + h * 3600 + mi * 60 + s /\
      (forall n, 0 <= n < 1000000000 -> is_Some (and_hms_nano_opt date h mi s n)) /\
      to_rfc3339_opts dt f = ymd_text y m d ++ 84%N :: hms_text h mi s ++
        fraction_text f (timestamp_subsec_nanos dt) ++ [90%N];
}.

(** [serde_json::Value]; an object keeps the order of the wire struct's fields,
    which is a map already. *)
Inductive Json :=
  | JNull
  | JBool (b : bool)
  | JInt (z : Z)
  | JNumber (x : f64)
  | JString (s : rstr)
  | JArray (l : list Json)
  | JObject (fields : list (rstr * Json)).

(** [json!(f64)] is a float, and null for a float JSON has no number for. *)
Fixpoint value_to_json (v : Value) : Json :=
  match v with
  | VNull => JNull
  | VBool b => JBool b
  | VNumber x => if f64_is_finite x then JNumber x else JNull
  | VString s => JString s
  | VList l => JArray (map value_to_json l)
  | VStruct fields => JObject (map (fun '(k, v) => (k, value_to_json v)) fields)
  end.

(** base64's [STANDARD] engine, and [serde_json]'s compact text of a value. *)
Class Codec := {
  base64_decode : rstr -> option (list N);
  json_display : Json -> rstr;
}.

Definition json_text {CO : Codec} (v : Value) : rstr := json_display (value_to_json v).

(** ** Scanners *)

(** A byte at a fixed offset; the scanners check the length first. *)
Definition byte_at (b : list N) (i : nat) : N := nth i b 0%N.

(** [b.wrapping_sub(b'0')] when it is below 10. *)
Definition digit_at (b : list N) (i : nat) : option Z :=
  let d := byte_at b i in
  if decide (48 <= d < 58)%N then Some (Z.of_N d - 48) else None.

Definition two_digits (b : list N) (off : nat) : option Z :=
  hi ← digit_at b off; lo ← digit_at b (off + 1); Some (hi * 10 + lo).

(** The digits of a slice, as a number. *)
Fixpoint scan_digits (acc : Z) (b : list N) : option Z :=
  match b with
  | [] => Some acc
  | d :: b => if decide (48 <= d < 58)%N then scan_digits (acc * 10 + (Z.of_N d - 48)) b else None
  end.

Section Decode.
Context {CH : Chrono} {CO : Codec}.

Definition parse_date_days (s : rstr) : option Z :=
  let b := as_bytes s in
  if decide (length b <> 10%nat \/ byte_at b 4 <> cDASH \/ byte_at b 7 <> cDASH) then None
  else
    d0 ← digit_at b 0; d1 ← digit_at b 1; d2 ← digit_at b 2; d3 ← digit_at b 3;
    let year := d0 * 1000 + d1 * 100 + d2 * 10 + d3 in
    m1 ← digit_at b 5; m2 ← digit_at b 6; let month := m1 * 10 + m2 in
    e1 ← digit_at b 8; e2 ← digit_at b 9; let day := e1 * 10 + e2 in
    date ← from_ymd_opt year month day;
    Some (num_days_from_ce date - 719163).

(** The seconds' fraction: [Z] at offset 19, or a point, one to nine digits and
    [Z], scaled to nanoseconds. *)
Definition scan_fraction (b : list N) : option Z :=
  let len := length b in
  if decide (byte_at b 19 = 90%N /\ len = 20%nat) then Some 0
  else if decide (byte_at b 19 = cDOT /\ (20 < len)%nat) then
    let frac := take (len - 1 - 20) (drop 20 b) in
    if decide (byte_at b (len - 1) <> 90%N \/ frac = [] \/ (9 < length frac)%nat) then None
    else n ← scan_digits 0 frac; Some (n * 10 ^ (9 - Z.of_nat (length frac)))
  else None.

Definition scan_timestamp_utc (s : rstr) : option DateTimeUtc :=
  let b := as_bytes s in
  if decide ((length b < 20)%nat \/ byte_at b 4 <> cDASH \/ byte_at b 7 <> cDASH \/
             byte_at b 10 <> 84%N \/ byte_at b 13 <> cCOLON \/ byte_at b 16 <> cCOLON) then None
  else
    y1 ← two_digits b 0; y2 ← two_digits b 2; let year := y1 * 100 + y2 in
    month ← two_digits b 5; day ← two_digits b 8; hour ← two_digits b 11;
    min ← two_digits b 14; sec ← two_digits b 17;
    nanos ← scan_fraction b;
    date ← from_ymd_opt year month day;
    and_hms_nano_opt date hour min sec nanos.

(** [timestamp_nanos_opt]: the instant in nanoseconds, if an [i64] can hold it. *)
Definition timestamp_nanos_opt (dt : DateTimeUtc) : option Z :=
  let n := timestamp dt * 1000000000 + timestamp_subsec_nanos dt in
  if is_i64 n then Some n else None.

Definition parse_timestamp_nanos (s : rstr) : option Z :=
  dt ← scan_timestamp_utc s; timestamp_nanos_opt dt.

Definition checked_i64 (z : Z) : option Z := if is_i64 z then Some z else None.

Definition parse_timestamp_micros (s : rstr) : option Z :=
  dt ← scan_timestamp_utc s;
  m ← checked_i64 (timestamp dt * 1000000);
  checked_i64 (m + timestamp_subsec_nanos dt / 1000).

Definition i128_max : Z := 2 ^ 127 - 1.
Definition checked_i128 (z : Z) : option Z :=
  if decide (- 2 ^ 127 <= z <= i128_max) then Some z else None.

(** The integer part, with [checked_mul] and [checked_add] at every digit. *)
Fixpoint int_digits (acc : Z) (b : list N) : option Z :=
  match b with
  | [] => Some acc
  | d :: b =>
      if decide (48 <= d < 58)%N then
        a ← checked_i128 (acc * 10); a ← checked_i128 (a + (Z.of_N d - 48)); int_digits a b
      else None
  end.

(** [bytes.iter().position(|&b| b == b'.')]. *)
Fixpoint position (c : N) (b : list N) : option nat :=
  match b with
  | [] => None
  | d :: b => if decide (d = c) then Some 0%nat else S <$> position c b
  end.

Definition parse_numeric_i128 (s : rstr) : option Z :=
  let '(negative, bytes) := match as_bytes s with
    | d :: rest => if decide (d = cDASH) then (true, rest) else (false, as_bytes s)
    | [] => (false, [])
    end in
  '(int_part, frac_part) ← match position cDOT bytes with
    | Some i => if decide (i + 1 < length bytes)%nat then Some (take i bytes, drop (i + 1) bytes) else None
    | None => Some (bytes, [])
    end;
  if decide (int_part = [] \/ (Z.to_nat NUMERIC_SCALE < length frac_part)%nat) then None
  else
    int_val ← int_digits 0 int_part;
    frac_val ← scan_digits 0 frac_part;
    let frac_val := frac_val * 10 ^ (NUMERIC_SCALE - Z.of_nat (length frac_part)) in
    scaled ← checked_i128 (int_val * 1000000000);
    unscaled ← checked_i128 (scaled + frac_val);
    Some (if negative : bool then - unscaled else unscaled).

(** ** Decoding one value *)

Definition try_as_string (v : Value) : option rstr := match v with VString s => Some s | _ => None end.
Definition try_as_f64 (v : Value) : option f64 := match v with VNumber x => Some x | _ => None end.
Definition try_as_bool (v : Value) : option bool := match v with VBool b => Some b | _ => None end.

Definition parse_int64 (v : Value) : option Z := s ← try_as_string v; parse_i64 s.

Definition parse_f64_value (v : Value) : option f64 :=
  match try_as_f64 v with
  | Some f => Some f
  | None =>
      s ← try_as_string v;
      if decide (s = str "NaN") then Some S754_nan
      else if decide (s = str "Infinity") then Some (S754_infinity false)
      else if decide (s = str "-Infinity") then Some (S754_infinity true)
      else RustNum.parse_f64 s
  end.

(** [f as f32], the nearest binary32. *)
Definition f64_as_f32 (x : f64) : f64 :=
  match x with
  | S754_finite neg m e => binary_normalize 24 128 (if neg then Z.neg m else Z.pos m) e neg
  | x => x
  end.

(** The error carries the JSON text of the offending value. *)
Definition decode_error (spanner_type : String.string) (v : Value) : Error :=
  err [Lit "cannot decode Spanner "; Lit spanner_type; Lit " wire value "; Disp (json_text v)] InvalidData.

(** [present]. *)
Definition present (v : option Value) : option Value :=
  match v with Some VNull => None | v => v end.

(** ** Building arrays *)

(** [build_with] and [build_primitive]: nulls become null slots, and the first
    value that does not decode is an error. *)
Definition build_with (values : list (option Value)) (append : Value -> Result Cell) : Result (list Cell) :=
  try_map (fun v => match present v with None => Ok CNull | Some v => append v end) values.

Definition build_primitive (values : list (option Value)) (spanner_type : String.string)
    (parse : Value -> option Cell) : Result (list Cell) :=
  build_with values (fun v => ok_or (parse v) (decode_error spanner_type v)).

Definition append_nanos (v : Value) : Result Cell :=
  s ← ok_or (try_as_string v) (decode_error "TIMESTAMP" v);
  match parse_timestamp_nanos s with
  | Some n => Ok (CInt n)
  | None =>
      if rfc3339_ok s then
        Err (invalid_argument [Lit "TIMESTAMP value "; Dbg s; Lit " is outside the range representable as an Arrow Timestamp(Nanosecond) (~1677-09-21 to 2262-04-11); set ";
          Disp OPTION_MAX_TIMESTAMP_PRECISION; Lit "="; Disp MICROSECONDS;
          Lit " to read it at microsecond precision instead"])
      else Err (decode_error "TIMESTAMP" v)
  end.

Definition append_bytes (v : Value) : Result Cell :=
  s ← ok_or (try_as_string v) (decode_error "BYTES" v);
  b ← ok_or (base64_decode s) (decode_error "BYTES" v);
  Ok (CBytes b).

Definition append_text (v : Value) : Result Cell :=
  match try_as_string v with
  | Some s => Ok (CStr s)
  | None => Ok (CStr (json_text v))
  end.

(** An [i32] offset of a list array. *)
Definition i32_offset (n : nat) : Result Z :=
  if decide (Z.of_nat n <= 2 ^ 31 - 1) then Ok (Z.of_nat n)
  else Err (err [Lit "ARRAY result exceeds the i32 offset range"] Internal).

(** The loop of [build_list]: the children so far, the offsets and the validity,
    most recent last. *)
Fixpoint list_loop (values : list (option Value)) (children : list (option Value))
    (offsets : list Z) (validity : list bool) : Result (list (option Value) * list Z * list bool) :=
  match values with
  | [] => Ok (children, offsets, validity)
  | value :: values =>
      '(children, valid) ← match present value with
        | None => Ok (children, false)
        | Some (VList l) => Ok (children ++ map Some l, true)
        | Some v => Err (decode_error "ARRAY" v)
        end;
      offset ← i32_offset (length children);
      list_loop values children (offsets ++ [offset]) (validity ++ [valid])
  end.

(** The cells of a [ListArray]: row [i] is the child between its offsets. *)
Fixpoint list_cells (offsets : list Z) (validity : list bool) (child : list Cell) : list Cell :=
  match offsets, validity with
  | a :: ((b :: _) as rest), valid :: validity =>
      (if valid : bool then CList (take (Z.to_nat (b - a)) (drop (Z.to_nat a) child)) else CNull)
      :: list_cells rest validity child
  | _, _ => []
  end.

(** An error of Arrow's constructors. *)
Definition arrow_err (what : String.string) : Error :=
  err [Lit "failed to build Arrow array: "; Lit what] Internal.

(** [StructArray::try_new] takes its length from the first child, so it refuses a
    struct without fields. *)
Definition fieldless_error : Error := arrow_err "struct without columns".

(** The loop of [build_struct]: one child column per field. *)
Fixpoint struct_loop (n : nat) (values : list (option Value)) (validity : list bool) :
    Result (list (list (option Value)) * list bool) :=
  match values with
  | [] => Ok (replicate n [], validity)
  | value :: values =>
      '(slots, valid) ← match present value with
        | None => Ok (replicate n None, false)
        | Some (VList l) => Ok (map (fun i => l !! i) (seq 0 n), true)
        | Some v => Err (decode_error "STRUCT" v)
        end;
      '(children, validity') ← struct_loop n values (validity ++ [valid]);
      Ok (zip_with cons slots children, validity')
  end.

(** The cells of a [StructArray]: row [i] of every child. *)
Definition struct_cells (validity : list bool) (children : list (list Cell)) : list Cell :=
  imap (fun i (valid : bool) =>
          if valid then CStruct (map (fun child => default CNull (child !! i)) children) else CNull) validity.

Fixpoint build_array (data_type : DataType) (values : list (option Value)) {struct data_type} : Result Array :=
  match data_type with
  | DBoolean =>
      cells ← build_with values (fun v => ok_or (CBool <$> try_as_bool v) (decode_error "BOOL" v));
      Ok (mkArray DBoolean cells)
  | DInt64 =>
      cells ← build_primitive values "INT64" (fun v => CInt <$> parse_int64 v); Ok (mkArray DInt64 cells)
  | DFloat64 =>
      cells ← build_primitive values "FLOAT64" (fun v => CFloat <$> parse_f64_value v); Ok (mkArray DFloat64 cells)
  | DFloat32 =>
      cells ← build_primitive values "FLOAT32" (fun v => (fun f => CFloat (f64_as_f32 f)) <$> parse_f64_value v);
      Ok (mkArray DFloat32 cells)
  | DDate32 =>
      cells ← build_primitive values "DATE" (fun v => s ← try_as_string v; CInt <$> parse_date_days s);
      Ok (mkArray DDate32 cells)
  | DTimestamp UNanosecond tz =>
      cells ← build_with values append_nanos; Ok (mkArray (DTimestamp UNanosecond tz) cells)
  | DTimestamp UMicrosecond tz =>
      cells ← build_primitive values "TIMESTAMP" (fun v => s ← try_as_string v; CInt <$> parse_timestamp_micros s);
      Ok (mkArray (DTimestamp UMicrosecond tz) cells)
  | DDecimal128 precision scale =>
      cells ← build_primitive values "NUMERIC" (fun v => s ← try_as_string v; CInt <$> parse_numeric_i128 s);
      if decide (1 <= precision <= 38 /\ scale <= 38 /\ (0 < scale -> scale <= precision)) then
        Ok (mkArray (DDecimal128 precision scale) cells)
      else Err (arrow_err "precision and scale")
  | DBinary => cells ← build_with values append_bytes; Ok (mkArray DBinary cells)
  | DList field =>
      '(children, offsets, validity) ← list_loop values [] [0] [];
      child ← match field with mkField _ dt _ _ => build_array dt children end;
      if dt_eqb (a_type child) (f_type field) then
        Ok (mkArray (DList field) (list_cells offsets validity (a_cells child)))
      else Err (arrow_err "list child type")
  | DStruct fields =>
      '(children, validity) ← struct_loop (length fields) values [];
      arrays ← (fix go fields children : Result (list Array) :=
                  match fields, children with
                  | mkField _ dt _ _ :: fields, vals :: children =>
                      a ← build_array dt vals; as_ ← go fields children; Ok (a :: as_)
                  | _, _ => Ok []
                  end) fields children;
      if decide (arrays = []) then Err fieldless_error
      else if decide (Forall2 (fun f a => dt_eqb (a_type a) (f_type f) = true) fields arrays) then
        Ok (mkArray (DStruct fields) (struct_cells validity (map a_cells arrays)))
      else Err (arrow_err "struct child types")
  | _ => cells ← build_with values append_text; Ok (mkArray DUtf8 cells)
  end.

Definition build_column (field : Field) (values : list (option Value)) : Result Array :=
  res_map_err (name_column (f_name field)) (build_array (f_type field) values).

(** The columns of a chunk. *)
Fixpoint build_columns (fields : list Field) (i : nat) (rows : list Row) : Result (list Array) :=
  match fields with
  | [] => Ok []
  | field :: fields =>
      a ← build_column field (map (fun row : Row => row !! i) rows);
      as_ ← build_columns fields (S i) rows; Ok (a :: as_)
  end.

(** [RecordBatch::try_new] wants at least one column, and columns of the fields'
    types; the fields of a result are nullable. *)
Definition build_batch (schema : list Field) (rows : list Row) : Result Batch :=
  arrays ← build_columns schema 0 rows;
  if decide (schema <> [] /\ Forall2 (fun f a => dt_eqb (a_type a) (f_type f) = true) schema arrays) then
    Ok (mkBatch schema arrays (length rows))
  else Err (err [Lit "failed to build record batch"] Internal).

End Decode.

Close Scope Z_scope.
