(* ===== verification/Partitions.v ===== *)
(** * Partition descriptors ([encode_partition], [decode_partition] of
    [src/connection.rs])

    A descriptor is a versioned JSON envelope around the client's own serde form
    of a partition.  serde_json's parser and printer, and the client's serde form,
    are the interface [Serde]. *)

From S2P Require Import Prelude RustStr RustNum ErrorModel Options Config Runtime Stream Client Arrow Decode.

(** Bytes are a list of numbers; the right side of a sum is the error's text. *)
Class Serde `{SC : SpannerClient} := {
  to_vec : Json -> rstr;
  from_slice : rstr -> Json + rstr;
  partition_to_value : Partition -> Json + rstr;
  partition_from_value : Json -> Partition + rstr;
  json_debug : Json -> rstr;
}.

Section Descriptors.
Context `{SD : Serde}.

Definition PARTITION_DESCRIPTOR_VERSION : Z := 1.

Definition envelope (payload : Json) : Json :=
  JObject [(str "v", JInt PARTITION_DESCRIPTOR_VERSION); (str "partition", payload)].

Definition encode_partition (partition : Partition) : Result rstr :=
  match partition_to_value partition with
  | inr e => Err (err [Lit "failed to serialize partition descriptor: "; Disp e] Internal)
  | inl payload => Ok (to_vec (envelope payload))
  end.

(** [Value::get] of an object's field; its keys are distinct. *)
Definition json_get (v : Json) (key : rstr) : option Json :=
  match v with
  | JObject fields => snd <$> List.find (fun '(k, _) => bool_decide (k = key)) fields
  | _ => None
  end.

Definition as_u64 (v : Json) : option Z :=
  match v with JInt z => if decide (0 <= z <= u64_max)%Z then Some z else None | _ => None end.

Definition invalid (e : rstr) : Error := invalid_argument [Lit "invalid partition descriptor: "; Disp e].

Definition decode_partition (descriptor : rstr) : Result Partition :=
  value ← match from_slice descriptor with inl v => Ok v | inr e => Err (invalid e) end;
  v ← ok_or (json_get value (str "v"))
        (invalid_argument [Lit "invalid partition descriptor: missing "; Dbg (str "v"); Lit " version field"]);
  n ← ok_or (as_u64 v)
        (invalid_argument [Lit "invalid partition descriptor: version "; Disp (json_debug v);
                           Lit " is not an unsigned integer"]);
  if decide (n <> PARTITION_DESCRIPTOR_VERSION) then
    Err (invalid_argument [Lit "partition descriptor version "; DispZ n; Lit " not supported by this driver"])
  else
    payload ← ok_or (json_get value (str "partition"))
                (invalid_argument [Lit "invalid partition descriptor: missing "; Dbg (str "partition"); Lit " field"]);
    match partition_from_value payload with inl p => Ok p | inr e => Err (invalid e) end.

(** What the envelope relies on: printed JSON parses back (serde_json is built with
    [float_roundtrip]), the client reads the form it writes, and it can write what
    it has read. *)
Class SerdeLaws : Prop := {
  slice_vec p v : partition_to_value p = inl v -> from_slice (to_vec (envelope v)) = inl (envelope v);
  partition_value p v : partition_to_value p = inl v -> partition_from_value v = inl p;
  read_writable v p : partition_from_value v = inl p -> exists v', partition_to_value p = inl v';
}.

Lemma encode_decode {SL : SerdeLaws} p d : encode_partition p = Ok d -> decode_partition d = Ok p.
Proof.
  unfold encode_partition. destruct (partition_to_value p) as [payload|] eqn:Ep; [|done]. intros H.
  apply Ok_inj in H as <-. unfold decode_partition. rewrite (slice_vec _ _ Ep). cbn [mbind Result_mbind].
  assert (json_get (envelope payload) (str "v") = Some (JInt 1)) as -> by reflexivity.
  assert (json_get (envelope payload) (str "partition") = Some payload) as -> by reflexivity.
  cbn [ok_or mbind Result_mbind as_u64]. rewrite decide_True by (by vm_compute). cbn [ok_or mbind Result_mbind].
  rewrite decide_False by (intros H; by apply H). cbn [ok_or mbind Result_mbind].
  by rewrite (partition_value _ _ Ep).
Qed.

Lemma decode_partition_reads p d :
  decode_partition d = Ok p ->
  exists v payload, from_slice d = inl v /\ json_get v (str "v") = Some (JInt PARTITION_DESCRIPTOR_VERSION) /\
    json_get v (str "partition") = Some payload /\ partition_from_value payload = inl p.
Proof.
  unfold decode_partition. destruct (from_slice d) as [v|]; [|done]. cbn [mbind Result_mbind].
  destruct (json_get v (str "v")) as [vj|] eqn:Ev; [|done]. cbn [ok_or mbind Result_mbind].
  destruct (as_u64 vj) as [n|] eqn:En; [|done]. cbn [ok_or mbind Result_mbind]. case_decide as Hn; [done|].
  destruct (json_get v (str "partition")) as [payload|] eqn:Ep; [|done]. cbn [ok_or mbind Result_mbind].
  destruct (partition_from_value payload) eqn:Epl; [|done]. intros H. apply Ok_inj in H as ->.
  exists v, payload. split; [done|]. split; [|done]. subst n. rewrite Ev.
  destruct vj; try done. cbn in En. case_decide; [|done]. by injection En as ->.
Qed.

Lemma decode_partition_errs d : errs_with InvalidArguments (decode_partition d).
Proof. unfold decode_partition. errs. Qed.

(** C25: partition descriptors round-trip, and nothing else is accepted.  A
    descriptor that was encoded decodes to its partition; what decodes is a JSON
    object whose [v] is exactly this driver's version and whose [partition] the
    client reads; everything else is an invalid argument, and a descriptor of
    another version is refused for its version, whatever its payload. *)
Theorem partition_descriptor_round_trip {SL : SerdeLaws} (p : Partition) (d : rstr) :
  (encode_partition p = Ok d -> decode_partition d = Ok p) /\
  (decode_partition d = Ok p ->
     exists v payload, from_slice d = inl v /\ json_get v (str "v") = Some (JInt PARTITION_DESCRIPTOR_VERSION) /\
       json_get v (str "partition") = Some payload /\ partition_from_value payload = inl p) /\
  (forall e, decode_partition d = Err e -> status e = InvalidArguments) /\
  (forall v n, from_slice d = inl v -> json_get v (str "v") = Some (JInt n) -> (0 <= n <= u64_max)%Z -> n <> 1%Z ->
     decode_partition d =
       Err (invalid_argument [Lit "partition descriptor version "; DispZ n; Lit " not supported by this driver"])).
Proof.
  split; [apply encode_decode|split; [apply decode_partition_reads|split]].
  - intros e Hd. pose proof (decode_partition_errs d) as He. by rewrite Hd in He.
  - intros v n Hs Hv Hr Hn. unfold decode_partition. rewrite Hs. cbn [mbind Result_mbind]. rewrite Hv.
    cbn [ok_or mbind Result_mbind as_u64]. rewrite decide_True by done. cbn [ok_or mbind Result_mbind].
    by rewrite decide_True by done.
Qed.

End Descriptors.

(** A serde whose partitions are texts and whose descriptors are those texts. *)
Definition example_serde : Serde (SC := example_client) := {|
  to_vec v := match v with JObject [_; (_, JString s)] => s | _ => [] end;
  from_slice s := if decide (s = []) then inr (str "empty")
                  else inl (JObject [(str "v", JInt 1); (str "partition", JString s)]);
  partition_to_value (p : Partition (SpannerClient := example_client)) :=
    if decide ((p : rstr) = []) then inr (str "empty") else inl (JString p);
  partition_from_value v :=
    match v with JString (c :: s) => inl (c :: s : Partition (SpannerClient := example_client)) | _ => inr (str "shape") end;
  json_debug _ := [] |}.

#[export] Instance example_serde_laws : SerdeLaws (SD := example_serde).
Proof.
  split.
  - intros p v; cbn; case_decide; [done|]. intros [= <-]. cbn. by rewrite decide_False.
  - intros [|c p] v; cbn; [done|]. by intros [= <-].
  - intros [| | | |[|c s]| |] p; cbn; try done. intros [= <-]. by eexists.
Qed.

Lemma partition_descriptor_round_trip_witness :
  decode_partition (SD := example_serde) (str "p1") = Ok (str "p1" : Partition (SpannerClient := example_client)) /\
  status (match decode_partition (SD := example_serde) [] with Err e => e | Ok _ => cancelled_err end) = InvalidArguments.
Proof.
  split; [|reflexivity].
  apply (proj1 (partition_descriptor_round_trip (SD := example_serde) (SL := example_serde_laws)
    (str "p1" : Partition (SpannerClient := example_client)) (str "p1"))).
  reflexivity.
Defined.
