(* ===== verification/Calendar.v ===== *)
(** * The proleptic Gregorian calendar

    A concrete [Chrono]: dates are day numbers, with 0001-01-01 as day 1, and the
    conversion to and from years, months and days works in eras of 400 years that
    begin on the first of March, split into centuries, quadrennia and years.  The
    laws the driver relies on are proved of it. *)

From Stdlib Require Import SpecFloat.
From S2P Require Import Prelude RustStr RustNum Decode.

Open Scope Z_scope.

(** The day of an era from its year (March to February), month and day. *)
Definition doe_of (yoe mp d : Z) : Z :=
  yoe * 365 + yoe / 4 - yoe / 100 + (153 * mp + 2) / 5 + d - 1.

(** The month (from March) and the day of a day of a year. *)
Definition month_of_doy (doy : Z) : Z * Z :=
  let mp := (5 * doy + 2) / 153 in (mp, doy - (153 * mp + 2) / 5 + 1).

(** And back: the century, the four years and the year of a day of an era. *)
Definition civil_of_doe (doe : Z) : Z * Z * Z :=
  let century := Z.min (doe / 36524) 3 in
  let doc := doe - century * 36524 in
  let quad := doc / 1461 in
  let doq := doc - quad * 1461 in
  let year := Z.min (doq / 365) 3 in
  let '(mp, d) := month_of_doy (doq - year * 365) in
  (century * 100 + quad * 4 + year, mp, d).

Definition era_days : Z := 146097.

(** What is checked of every day of a year. *)
Definition doy_ok (doy : Z) : bool :=
  let '(mp, d) := month_of_doy doy in
  bool_decide (0 <= mp < 12 /\ 1 <= d <= 31) && bool_decide ((153 * mp + 2) / 5 + d - 1 = doy) &&
  Bool.eqb (bool_decide (10 <= mp)) (bool_decide (306 <= doy)).

Lemma month_of_doy_ok doy : 0 <= doy < 366 -> doy_ok doy = true.
Proof.
  intros H. assert (forallb doy_ok (map Z.of_nat (seq 0 366)) = true) as Hall by (vm_compute; reflexivity).
  rewrite forallb_forall in Hall. apply Hall. apply in_map_iff. exists (Z.to_nat doy). split; [lia|].
  apply in_seq. lia.
Qed.

(** The division into centuries, quadrennia and years of a day of an era. *)
Lemma civil_of_doe_spec doe :
  0 <= doe < era_days ->
  let '(yoe, mp, d) := civil_of_doe doe in
  0 <= yoe < 400 /\ 0 <= mp < 12 /\ 1 <= d <= 31 /\ doe_of yoe mp d = doe /\
  (yoe = 399 /\ 10 <= mp <-> 146037 <= doe).
Proof.
  unfold era_days, civil_of_doe. intros H.
  set (c := Z.min (doe / 36524) 3). set (q := (doe - c * 36524) / 1461).
  set (y := Z.min ((doe - c * 36524 - q * 1461) / 365) 3).
  assert (0 <= c <= 3 /\ 0 <= doe - c * 36524 <= 36524 /\ (c < 3 -> doe - c * 36524 < 36524)) as (Hc & Hdc & Hdc').
  { unfold c. pose proof (Z.div_mod doe 36524 ltac:(lia)). pose proof (Z.mod_pos_bound doe 36524 ltac:(lia)). lia. }
  assert (0 <= q <= 24 /\ 0 <= doe - c * 36524 - q * 1461 < 1461) as [Hq Hdq].
  { unfold q. pose proof (Z.div_mod (doe - c * 36524) 1461 ltac:(lia)).
    pose proof (Z.mod_pos_bound (doe - c * 36524) 1461 ltac:(lia)). lia. }
  assert (0 <= y <= 3 /\ 0 <= doe - c * 36524 - q * 1461 - y * 365 < 366) as [Hy Hdy].
  { unfold y. pose proof (Z.div_mod (doe - c * 36524 - q * 1461) 365 ltac:(lia)).
    pose proof (Z.mod_pos_bound (doe - c * 36524 - q * 1461) 365 ltac:(lia)). lia. }
  clearbody c q y. pose proof (month_of_doy_ok _ Hdy) as Hm. unfold doy_ok in Hm.
  destruct (month_of_doy _) as [mp d].
  apply andb_true_iff in Hm as [[Hr%bool_decide_eq_true He%bool_decide_eq_true]%andb_true_iff Hl%eqb_prop].
  assert (10 <= mp <-> 306 <= doe - c * 36524 - q * 1461 - y * 365) as Hlast.
  { rewrite <- (bool_decide_eq_true (306 <= _)), <- Hl. by rewrite bool_decide_eq_true. }
  clear Hl. split_and!; [lia..| |].
  - unfold doe_of.
    replace ((c * 100 + q * 4 + y) / 4) with (c * 25 + q) by (apply (Z.div_unique _ _ _ y); lia).
    replace ((c * 100 + q * 4 + y) / 100) with c by (apply (Z.div_unique _ _ _ (q * 4 + y)); lia). lia.
  - lia.
Qed.

(** Month and year of the civil calendar. *)
Definition civil (day : Z) : Z * Z * Z :=
  let z := day + 305 in
  let era := z / era_days in
  let '(yoe, mp, d) := civil_of_doe (z mod era_days) in
  let m := if decide (mp < 10) then mp + 3 else mp - 9 in
  (yoe + era * 400 + (if decide (m <= 2) then 1 else 0), m, d).

Definition days_of_civil (y m d : Z) : Z :=
  let y' := if decide (m <= 2) then y - 1 else y in
  let mp := if decide (2 < m) then m - 3 else m + 9 in
  y' / 400 * era_days + doe_of (y' mod 400) mp d - 305.

Lemma civil_spec day :
  let '(y, m, d) := civil day in
  1 <= m <= 12 /\ 1 <= d <= 31 /\ days_of_civil y m d = day /\
  (0 <= y <= 9999 <-> first_day <= day <= last_day).
Proof.
  unfold civil. set (z := day + 305).
  pose proof (Z.mod_pos_bound z era_days ltac:(done)) as Hm.
  pose proof (Z.div_mod z era_days ltac:(done)) as Hz.
  pose proof (civil_of_doe_spec _ Hm) as Hd.
  set (doe := z mod era_days) in *. set (era := z / era_days) in *.
  destruct (civil_of_doe doe) as [[yoe mp] d].
  destruct Hd as (Hy & Hmp & Hdd & He & Hlast).
  set (m := if decide (mp < 10) then mp + 3 else mp - 9).
  assert (1 <= m <= 12) as Hm12 by (unfold m; case_decide; lia).
  assert (m <= 2 <-> 10 <= mp) as Hm2 by (unfold m; case_decide; lia).
  split_and!; [lia..| |].
  - unfold days_of_civil.
    assert ((if decide (m <= 2) then yoe + era * 400 + (if decide (m <= 2) then 1 else 0) - 1
             else yoe + era * 400 + (if decide (m <= 2) then 1 else 0)) = yoe + era * 400) as ->
      by (case_decide; lia).
    assert ((if decide (2 < m) then m - 3 else m + 9) = mp) as -> by (unfold m; repeat case_decide; lia).
    rewrite Z.div_add, Z_mod_plus_full, Z.div_small, Z.mod_small by lia. unfold z in Hz. lia.
  - unfold first_day, last_day, era_days, z in *. case_decide; nia.
Qed.

(** ** The instance *)

Definition year_text (y : Z) : rstr :=
  if decide (0 <= y <= 9999) then pad 4 y
  else (if decide (y < 0) then cDASH else cPLUS) :: pad 4 (Z.abs y).

Definition date_text (day : Z) : rstr :=
  let '(y, m, d) := civil day in year_text y ++ cDASH :: pad 2 m ++ cDASH :: pad 2 d.

(** chrono's range of years. *)
Definition in_years (day : Z) : bool := bool_decide (-95746129 <= day <= 95745399).

#[export] Instance Gregorian : Chrono := {|
  NaiveDate := Z;
  from_ymd_opt y m d :=
    let day := days_of_civil y m d in
    if decide (civil day = (y, m, d)) then if in_years day then Some day else None else None;
  num_days_from_ce day := day;
  epoch_plus_days n := if in_years (n + 719163) then Some (n + 719163) else None;
  format_ymd := date_text;
  DateTimeUtc := Z * Z;
  and_hms_nano_opt day h mi s n :=
    if decide (0 <= h < 24 /\ 0 <= mi < 60 /\ 0 <= s < 60 /\
               (0 <= n < 1000000000 \/ s = 59 /\ 0 <= n < 2000000000))
    then Some ((day - 719163) * 86400 + h * 3600 + mi * 60 + s, n) else None;
  timestamp := fst;
  timestamp_subsec_nanos := snd;
  from_timestamp secs nanos :=
    if in_years (secs / 86400 + 719163) then Some (secs, nanos) else None;
  to_rfc3339_opts '(t, n) f :=
    let sod := t mod 86400 in
    date_text (t / 86400 + 719163) ++ 84%N :: hms_text (sod / 3600) (sod mod 3600 / 60) (sod mod 60) ++
    fraction_text f n ++ [90%N];
  rfc3339_ok _ := false |}.

Lemma from_ymd_opt_civil day y m d :
  civil day = (y, m, d) -> in_years day = true -> from_ymd_opt y m d = Some day.
Proof.
  intros Hc Hi. pose proof (civil_spec day) as H. rewrite Hc in H. destruct H as (_ & _ & Hd & _).
  cbn [from_ymd_opt Gregorian]. rewrite Hd, decide_True by done. by rewrite Hi.
Qed.

Lemma date_text_ymd day :
  first_day <= day <= last_day ->
  exists y m d, 0 <= y <= 9999 /\ 1 <= m <= 12 /\ 1 <= d <= 31 /\
    from_ymd_opt y m d = Some day /\ date_text day = ymd_text y m d.
Proof.
  intros Hr. pose proof (civil_spec day) as H. unfold date_text. destruct (civil day) as [[y m] d] eqn:Hc.
  destruct H as (Hm & Hd & _ & Hy). apply Hy in Hr as Hyr. exists y, m, d. split_and!; [lia..| |].
  - apply from_ymd_opt_civil; [done|]. apply bool_decide_eq_true. unfold first_day, last_day in Hr. lia.
  - unfold ymd_text, year_text. by rewrite decide_True by lia.
Qed.

#[export] Instance Gregorian_laws : ChronoLaws Gregorian.
Proof.
  split.
  - intros y m d date. cbn [from_ymd_opt num_days_from_ce Gregorian]. case_decide as Hc; [|done]. destruct (in_years _); [|done]. intros [= <-] Hy.
    pose proof (civil_spec (days_of_civil y m d)) as H. rewrite Hc in H. destruct H as (_ & _ & _ & H). by apply H.
  - done.
  - intros n H. cbn [epoch_plus_days Gregorian].
    assert (in_years (n + 719163) = true) as ->; [|by eexists].
    apply bool_decide_eq_true. unfold first_day, last_day in H. lia.
  - intros n date. cbn [epoch_plus_days num_days_from_ce Gregorian]. destruct (in_years _); [|done]. by intros [= <-].
  - intros date H. by apply date_text_ymd.
  - intros date h mi s n dt. cbn. case_decide; [|done]. intros [= <-] Hn. cbn. lia.
  - intros secs nanos H _. cbn [from_timestamp Gregorian]. unfold first_day, last_day in H.
    assert (in_years (secs / 86400 + 719163) = true) as ->; [|by eexists]. apply bool_decide_eq_true.
    assert (-719528 <= secs / 86400) by (apply Z.div_le_lower_bound; lia).
    assert (secs / 86400 < 2932897) by (apply Z.div_lt_upper_bound; lia). lia.
  - intros secs nanos dt. cbn [from_timestamp Gregorian]. destruct (in_years _); [|done]. by intros [= <-] _.
  - intros [t n] f. cbn [timestamp timestamp_subsec_nanos to_rfc3339_opts Gregorian fst snd]. intros Hn Ht. unfold first_day, last_day in Ht.
    set (day := t / 86400 + 719163). set (sod := t mod 86400).
    pose proof (Z.mod_pos_bound t 86400 ltac:(lia)) as Hs. fold sod in Hs.
    assert (first_day <= day <= last_day) as Hday.
    { unfold first_day, last_day, day. split.
      - assert (-719528 <= t / 86400) by (apply Z.div_le_lower_bound; lia). lia.
      - assert (t / 86400 < 2932897) by (apply Z.div_lt_upper_bound; lia). lia. }
    destruct (date_text_ymd day Hday) as (y & m & d & Hy & Hm & Hd & Hf & ->).
    exists y, m, d, (sod / 3600), (sod mod 3600 / 60), (sod mod 60), day.
    assert (0 <= sod / 3600 < 24) by (split; [apply Z.div_pos; lia|apply Z.div_lt_upper_bound; lia]).
    pose proof (Z.mod_pos_bound sod 3600 ltac:(lia)).
    assert (0 <= sod mod 3600 / 60 < 60) by (split; [apply Z.div_pos; lia|apply Z.div_lt_upper_bound; lia]).
    pose proof (Z.mod_pos_bound sod 60 ltac:(lia)).
    clear Hday Hn Ht. split_and!; [lia..|exact Hf| | |reflexivity].
    + cbn [num_days_from_ce Gregorian]. replace (day - 719163) with (t / 86400) by (unfold day; lia).
      pose proof (Z.div_mod t 86400 ltac:(lia)) as E1. fold sod in E1.
      pose proof (Z.div_mod sod 3600 ltac:(lia)) as E2. pose proof (Z.div_mod (sod mod 3600) 60 ltac:(lia)) as E3.
      assert ((sod mod 3600) mod 60 = sod mod 60) as E4
        by (rewrite <- (Znumtheory.Zmod_div_mod 60 3600 sod); [done|lia|lia|by exists 60]).
      lia.
    + intros k Hk. cbn [and_hms_nano_opt Gregorian]. rewrite decide_True by lia. by eexists.
Qed.

Close Scope Z_scope.
