(* ===== verification/Bind.v ===== *)
(** * [src/bind.rs]: Arrow cells to Spanner values

    Which parameter each bound column goes to, the one mapping from Arrow cells to
    wire values that parameters and ingest mutations share, and the [CREATE TABLE]
    of an ingest.  The client's conversions of native values ([Into<Value>]) are
    the interface [Wire]; chrono is [Chrono], as for decoding. *)

From Stdlib Require Import SpecFloat.
From S2P Require Import Prelude RustStr Utf8 RustNum ErrorModel Options Config Sql Stream Client Arrow Decode.

Open Scope Z_scope.

(** The client's [Into<Value>] for the native types, its [Type]s for parameters
    ([types::json], [types::array]), and its parameters and mutations. *)
Class Wire `{SC : SpannerClient} := {
  value_of_i64 : Z -> Value;
  value_of_f64 : f64 -> Value;
  value_of_bytes : list N -> Value;
  json_ty : SpType;
  array_ty : SpType -> SpType;
  param_of : Value -> option SpType -> Param;
  mutation_insert : rstr -> list (rstr * Value) -> Mutation;
}.

(** A cell of another type than its array's, which Arrow's arrays cannot hold. *)
Definition ill_typed : Error := err [Lit "cell of another type"] Internal.

Section Bind.
Context {CH : Chrono} `{W : Wire}.

Definition null_value : Value := VNull.

Definition date64_days (name : rstr) (millis : Z) : Result Z :=
  let days := millis / 86400000 in
  if decide (- 2 ^ 31 <= days <= 2 ^ 31 - 1) then Ok days
  else Err (invalid_argument [Lit "cannot bind DATE parameter "; Dbg name; Lit ": "; DispZ millis;
                              Lit "ms is out of range"]).

Definition date_string (name : rstr) (days : Z) : Result rstr :=
  date ← ok_or (epoch_plus_days days)
    (invalid_argument [Lit "cannot bind DATE parameter "; Dbg name; Lit ": "; DispZ days;
                       Lit " is out of range"]);
  Ok (format_ymd date).

Definition numeric_scale (name : rstr) (scale : Z) : Result Z :=
  if decide (0 <= scale <= 38) then Ok scale
  else Err (invalid_argument [Lit "cannot bind NUMERIC parameter "; Dbg name;
                              Lit ": unsupported scale "; DispZ scale]).

Definition unit_name (u : TimeUnit) : frag :=
  match u with
  | USecond => Lit "Second" | UMillisecond => Lit "Millisecond"
  | UMicrosecond => Lit "Microsecond" | UNanosecond => Lit "Nanosecond"
  end.

(** chrono's [from_timestamp_millis], [_micros] and [_nanos] split the count into
    floor seconds and a non-negative rest; the last cannot fail on an [i64]. *)
Definition timestamp_string (name : rstr) (unit : TimeUnit) (value : Z) : Result rstr :=
  let '(ts, format) := match unit with
    | USecond => (from_timestamp value 0, Secs)
    | UMillisecond => (from_timestamp (value / 1000) (value mod 1000 * 1000000), Millis)
    | UMicrosecond => (from_timestamp (value / 1000000) (value mod 1000000 * 1000), Micros)
    | UNanosecond => (from_timestamp (value / 1000000000) (value mod 1000000000), Nanos)
    end in
  ts ← ok_or ts
    (invalid_argument [Lit "cannot bind TIMESTAMP parameter "; Dbg name; Lit ": "; DispZ value;
                       Lit " ("; unit_name unit; Lit ") is out of range"]);
  Ok (to_rfc3339_opts ts format).

(** [pad] is [format!("{:0width$}")] of a non-negative number. *)
Definition numeric_string (unscaled scale : Z) : rstr :=
  if decide (scale = 0) then show_Z unscaled
  else
    let magnitude := Z.abs unscaled in
    let divisor := 10 ^ scale in
    (if decide (unscaled < 0) then [cDASH] else []) ++
    show_N (Z.to_N (magnitude / divisor)) ++ cDOT :: pad (Z.to_nat scale) (magnitude mod divisor).

(** [scalar_value] and [try_scalar_value]: a null cell is NULL. *)
Definition try_scalar_value (c : Cell) (value : Cell -> Result Value) : Result Value :=
  match c with CNull => Ok null_value | c => value c end.

Definition int_cell (f : Z -> Result Value) (c : Cell) : Result Value :=
  match c with CInt z => f z | _ => Err ill_typed end.

Definition primitive_int (c : Cell) : Result Value :=
  try_scalar_value c (int_cell (fun z => Ok (value_of_i64 z))).

(** [f64::from] of a narrower float: the same number at 53 bits. *)
Definition f64_widen (x : f64) : f64 :=
  match x with
  | S754_finite neg m e => binary_normalize 53 1024 (if neg then Z.neg m else Z.pos m) e neg
  | x => x
  end.

Definition primitive_float (from : f64 -> f64) (c : Cell) : Result Value :=
  try_scalar_value c (fun c => match c with CFloat x => Ok (value_of_f64 (from x)) | _ => Err ill_typed end).

Definition text_cell (c : Cell) : Result Value :=
  try_scalar_value c (fun c => match c with CStr s => Ok (VString s) | _ => Err ill_typed end).

Definition bytes_cell (c : Cell) : Result Value :=
  try_scalar_value c (fun c => match c with CBytes b => Ok (value_of_bytes b) | _ => Err ill_typed end).

(** The binder of a scalar type, [None] if it has no Spanner mapping. *)
Definition scalar_binder (dt : DataType) : option (rstr -> Cell -> Result Value) :=
  match dt with
  | DInt64 | DInt32 | DInt16 | DInt8 | DUInt32 | DUInt16 | DUInt8 => Some (fun _ => primitive_int)
  | DFloat64 => Some (fun _ => primitive_float id)
  | DFloat32 | DFloat16 => Some (fun _ => primitive_float f64_widen)
  | DBoolean => Some (fun _ c =>
      try_scalar_value c (fun c => match c with CBool b => Ok (VBool b) | _ => Err ill_typed end))
  | DUtf8 | DLargeUtf8 | DUtf8View => Some (fun _ => text_cell)
  | DBinary | DLargeBinary | DBinaryView | DFixedSizeBinary _ => Some (fun _ => bytes_cell)
  | DDate32 => Some (fun name c =>
      try_scalar_value c (int_cell (fun z => s ← date_string name z; Ok (VString s))))
  | DDate64 => Some (fun name c =>
      try_scalar_value c (int_cell (fun z => days ← date64_days name z; s ← date_string name days; Ok (VString s))))
  | DTimestamp unit _ => Some (fun name c =>
      try_scalar_value c (int_cell (fun z => s ← timestamp_string name unit z; Ok (VString s))))
  | DDecimal128 _ scale => Some (fun name c =>
      scale ← numeric_scale name scale;
      try_scalar_value c (int_cell (fun z => Ok (VString (numeric_string z scale)))))
  | DNull => Some (fun _ _ => Ok null_value)
  | _ => None
  end.

(** Arrow's [Debug] text of the rejected type, which ends these messages, is left
    out. *)
Definition unsupported_type (what : String.string) (name : rstr) (which : String.string) : Error :=
  invalid_argument [Lit what; Dbg name; Lit which].

Definition list_cell_value (name : rstr) (item : Field) (elem : option (list Cell)) :
    Result (Value * option SpType) :=
  bind ← ok_or (scalar_binder (f_type item))
    (unsupported_type "cannot bind ARRAY parameter " name ": unsupported element type");
  value ← match elem with
          | None => Ok null_value
          | Some cells => vs ← try_map (bind name) cells; Ok (VList vs)
          end;
  Ok (value, if is_json_field item then Some (array_ty json_ty) else None).

Definition scalar_type (field : Field) : option SpType := if is_json_field field then Some json_ty else None.

Definition null_dictionary_value (name : rstr) (field : Field) (value_type : DataType) :
    Result (Value * option SpType) :=
  match value_type with
  | DList item | DLargeList item => list_cell_value name item None
  | _ =>
      _ ← ok_or (scalar_binder value_type) (unsupported_type "cannot bind parameter " name ": unsupported Arrow type");
      Ok (null_value, scalar_type field)
  end.

(** [cell_value]: the type is the array's own, which a dictionary replaces by its
    values'. *)
Fixpoint cell_value (name : rstr) (field : Field) (data_type : DataType) (c : Cell) {struct data_type} :
    Result (Value * option SpType) :=
  match data_type with
  | DList item | DLargeList item =>
      match c with
      | CNull => list_cell_value name item None
      | CList cells => list_cell_value name item (Some cells)
      | _ => Err ill_typed
      end
  | DDictionary _ value =>
      match c with
      | CNull => null_dictionary_value name field value
      | CDict c => cell_value name field value c
      | _ => Err ill_typed
      end
  | _ =>
      bind ← ok_or (scalar_binder data_type)
        (unsupported_type "cannot bind parameter " name ": unsupported Arrow type");
      value ← bind name c;
      Ok (value, scalar_type field)
  end.

(** Row [row] of a column; rows are below the batch's row count. *)
Definition cell_at (a : Array) (row : nat) : Cell := default CNull (a_cells a !! row).

Definition bind_one (b : StatementBuilder) (name : rstr) (field : Field) (column : Array) (row : nat) :
    Result StatementBuilder :=
  '(value, param_type) ← cell_value name field (a_type column) (cell_at column row);
  Ok (add_param b name (param_of value param_type)).

Fixpoint bind_loop (b : StatementBuilder) (names : list rstr) (fields : list Field) (columns : list Array)
    (row : nat) : Result StatementBuilder :=
  match names, fields, columns with
  | name :: names, field :: fields, column :: columns =>
      b ← bind_one b name field column row; bind_loop b names fields columns row
  | _, _, _ => Ok b
  end.

Definition bind_params (b : StatementBuilder) (names : list rstr) (batch : Batch) (row : nat) :
    Result StatementBuilder :=
  bind_loop b names (b_fields batch) (b_columns batch) row.

Fixpoint mutation_cells (fields : list Field) (columns : list Array) (row : nat) : Result (list (rstr * Value)) :=
  match fields, columns with
  | field :: fields, column :: columns =>
      '(value, _) ← cell_value (f_name field) field (a_type column) (cell_at column row);
      rest ← mutation_cells fields columns row;
      Ok ((f_name field, value) :: rest)
  | _, _ => Ok []
  end.

Definition insert_mutation (table : rstr) (batch : Batch) (row : nat) : Result Mutation :=
  cells ← mutation_cells (b_fields batch) (b_columns batch) row;
  Ok (mutation_insert table cells).

End Bind.

(** ** Names *)

Definition mutation_table (db_schema : option rstr) (table_name : rstr) : rstr :=
  match db_schema with
  | Some schema => if decide (schema = []) then table_name else schema ++ cDOT :: table_name
  | None => table_name
  end.

(** [param_set.get(..)]: the query's spelling of a parameter.  The parameters are
    distinct up to case, so the map has one entry for each. *)
Definition find_param (params : list rstr) (column : rstr) : option rstr :=
  List.find (fun p => bool_decide (to_ascii_lowercase p = to_ascii_lowercase column)) params.

Fixpoint resolve_by_name (params columns : list rstr) (bound : list rstr) : Result (list rstr) :=
  match columns with
  | [] => Ok []
  | column :: columns =>
      match find_param params column with
      | None => Err (invalid_argument [Lit "cannot bind column "; Dbg column;
          Lit ": adbc.statement.bind_by_name is true, so every bound column must be named after one of the query's parameters, which are ";
          DbgL params; Lit "; rename the column or set adbc.statement.bind_by_name to false to bind positionally"])
      | Some param =>
          if decide (to_ascii_lowercase param ∈ bound) then
            Err (invalid_argument [Lit "cannot bind column "; Dbg column;
              Lit ": it names the same query parameter "; Dbg param;
              Lit " as an earlier column (parameter names are case-insensitive); bind one column per parameter"])
          else
            rest ← resolve_by_name params columns (to_ascii_lowercase param :: bound);
            Ok (param :: rest)
      end
  end.

Definition resolve_parameter_names (sql : rstr) (batch : Batch) (bind_by_name : bool) : Result (list rstr) :=
  let column_names := map f_name (b_fields batch) in
  let params := named_parameters sql in
  if bind_by_name then resolve_by_name params column_names []
  else if decide (length params <> length column_names) then
    Err (invalid_argument [Lit "parameter count mismatch: query references ";
      DispZ (Z.of_nat (length params)); Lit " parameter(s) "; DbgL params; Lit " but ";
      DispZ (Z.of_nat (length column_names)); Lit " column(s) were bound"])
  else Ok params.

(** ** Column types *)

Fixpoint spanner_column_type (dt : DataType) : Result rstr :=
  match dt with
  | DInt8 | DInt16 | DInt32 | DInt64 | DUInt8 | DUInt16 | DUInt32 => Ok (str "INT64")
  | DFloat16 | DFloat32 => Ok (str "FLOAT32")
  | DFloat64 => Ok (str "FLOAT64")
  | DBoolean => Ok (str "BOOL")
  | DUtf8 | DLargeUtf8 | DUtf8View => Ok (str "STRING(MAX)")
  | DBinary | DLargeBinary | DBinaryView | DFixedSizeBinary _ => Ok (str "BYTES(MAX)")
  | DDate32 | DDate64 => Ok (str "DATE")
  | DTimestamp _ _ => Ok (str "TIMESTAMP")
  | DDecimal128 _ _ => Ok (str "NUMERIC")
  | DList (mkField _ item _ _) | DLargeList (mkField _ item _ _) =>
      t ← spanner_column_type item; Ok (str "ARRAY<" ++ t ++ str ">")
  | DDictionary _ value => spanner_column_type value
  | _ => Err (invalid_argument [Lit "cannot create a Spanner column for this Arrow type; cast it to a type with a Spanner equivalent before ingesting"])
  end.

(** [spanner_field_type], by recursion on the field's type. *)
Fixpoint spanner_field_type (field : Field) : Result rstr :=
  if is_json_field field then Ok (str "JSON")
  else match field with
       | mkField _ (DList item) _ _ | mkField _ (DLargeList item) _ _ =>
           t ← spanner_field_type item; Ok (str "ARRAY<" ++ t ++ str ">")
       | mkField _ other _ _ => spanner_column_type other
       end.

Definition column_sql (field : Field) : Result rstr :=
  column_type ← res_map_err
    (fun e => annotate e (fun m => [Lit "ingest column "; Dbg (f_name field); Lit ": "] ++ m))
    (spanner_field_type field);
  name ← quote_ident (f_name field);
  Ok (name ++ cSPACE :: column_type).

Definition create_table_sql (table : rstr) (db_schema : option rstr) (schema : list Field)
    (if_not_exists : bool) : Result rstr :=
  columns ← try_map column_sql schema;
  target ← qualified_table db_schema table;
  Ok (str "CREATE TABLE " ++ (if if_not_exists then str "IF NOT EXISTS " else []) ++ target ++
      str " (" ++ join (str ", ") columns ++ str ")").

Close Scope Z_scope.
