(* ===== verification/DecodeFacts.v ===== *)
(** * Properties of decoding

    Columns are decoded as their cells are, one by one; what is built has the type
    of the schema; timestamps and decimals keep their value. *)

From Stdlib Require Import SpecFloat.
From S2P Require Import Prelude RustStr Utf8 RustNum ErrorModel Options Config Stream Arrow Decode Calendar.

(** ** Types *)

Lemma dt_eqb_refl dt : dt_eqb dt dt = true.
Proof.
  induction dt using DataType_deep_ind.
  - destruct dt; try done; cbn; by apply bool_decide_eq_true_2.
  - destruct f. cbn in *. rewrite IHdt, andb_true_r. by apply bool_decide_eq_true_2.
  - destruct f. cbn in *. rewrite IHdt, andb_true_r. by apply bool_decide_eq_true_2.
  - cbn. induction H as [|f fs Hf _ IH]; [done|]. destruct f as [n d b m]. cbn in Hf.
    cbn [field_eqb]. by rewrite Hf, IH, bool_decide_eq_true_2.
  - cbn. by rewrite IHdt1, IHdt2.
  - cbn. induction H as [|[i f] fs Hf _ IH]; [done|]. destruct f as [n d b m]. cbn in Hf.
    cbn [field_eqb]. by rewrite Hf, IH, !bool_decide_eq_true_2.
Qed.

(** The types a result's schema is made of. *)
Fixpoint result_type (dt : DataType) : bool :=
  match dt with
  | DBoolean | DInt64 | DFloat64 | DFloat32 | DDate32 | DBinary | DUtf8
  | DTimestamp UNanosecond _ | DTimestamp UMicrosecond _ => true
  | DDecimal128 p s => bool_decide (p = NUMERIC_PRECISION /\ s = NUMERIC_SCALE)
  | DList f => result_field f
  | DStruct fs => forallb result_field fs
  | _ => false
  end
with result_field (f : Field) : bool := match f with mkField _ dt _ _ => result_type dt end.

Lemma result_field_type f : result_field f = result_type (f_type f).
Proof. by destruct f. Qed.

Section TyInd.
Variable P : Ty -> Prop.
Hypothesis H : forall code element fields,
  from_option P True element ->
  from_option (Forall (fun nt => from_option P True (snd nt))) True fields ->
  P (mkTy code element fields).

(** Induction on Spanner types through options and lists of fields. *)
Fixpoint Ty_deep_ind (t : Ty) : P t :=
  match t with
  | mkTy code element fields =>
      H code element fields
        (match element return from_option P True element with Some t => Ty_deep_ind t | None => I end)
        (match fields return from_option (Forall (fun nt => from_option P True (snd nt))) True fields with
         | Some fs =>
             (fix go fs : Forall (fun nt => from_option P True (snd nt)) fs :=
                match fs with
                | [] => Forall_nil_2 _
                | nt :: fs =>
                    Forall_cons_2 (fun nt => from_option P True (snd nt)) nt fs
                      (match snd nt as o return from_option P True o with
                       | Some t => Ty_deep_ind t | None => I end) (go fs)
                end) fs
         | None => I
         end)
  end.

End TyInd.

Lemma tag_field_type name code nullable dt : f_type (tag_field name code nullable dt) = dt.
Proof. unfold tag_field. by case_decide. Qed.

Lemma arrow_type_result p ty depth dt : arrow_type p ty depth = Ok dt -> result_type dt = true.
Proof.
  revert depth dt. induction ty as [code element fields IHe IHf] using Ty_deep_ind. intros depth dt H.
  cbn [arrow_type] in H. unfold mbind at 1, Result_mbind at 1 in H.
  destruct (check_depth depth); [|done]. destruct code; try (simplify_eq/=; done).
  - destruct p; by simplify_eq/=.
  - destruct element as [t|]; [|by simplify_eq/=].
    assert (forall dt', arrow_type p t (S depth) = Ok dt' -> result_type dt' = true) as IH
      by (intros dt'; by apply (IHe (S depth))).
    destruct (ty_code t) eqn:Ec; try (by simplify_eq/=); inv_bind H; injection H as <-;
      cbn [result_type]; rewrite result_field_type, tag_field_type; by apply IH.
  - destruct fields as [fs|]; [|by simplify_eq/=]. inv_bind H. injection H as <-. cbn [result_type].
    cbn in IHf. revert a0 E. induction IHf as [|[n t] fs Hn _ IH]; intros a0 E; [by simplify_eq/=|].
    inv_bind E. injection E as <-. cbn [forallb]. rewrite (IH _ eq_refl), andb_true_r, result_field_type.
    destruct t as [t|]; inv_bind E0; injection E0 as <-; rewrite tag_field_type; [|done]. cbn in Hn. by eapply Hn.
Qed.

Lemma schema_fields_result p names types fs :
  schema_fields p names types = Ok fs -> Forall (fun f => result_type (f_type f) = true) fs.
Proof.
  revert types fs. induction names as [|n names IH]; intros types fs H; cbn in H; [simplify_eq; constructor|].
  inv_bind H. simplify_eq. constructor; [|by eapply IH].
  destruct types as [|ty types]; [by simplify_eq|]. unfold res_map_err, arrow_field, arrow_field_at in E.
  destruct (arrow_type p ty 0) eqn:Ea; cbn in E; simplify_eq. rewrite tag_field_type. by eapply arrow_type_result.
Qed.

Lemma build_schema_result p md row fs :
  build_schema p md row = Ok fs -> Forall (fun f => result_type (f_type f) = true) fs.
Proof.
  unfold build_schema. destruct md as [[[|n names] types]|]; [| apply schema_fields_result |];
    intros [= <-]; apply Forall_map, Forall_true; done.
Qed.

(** ** Cell by cell *)

Section Facts.
Context {CH : Chrono} {CO : Codec}.

(** How a present value of a scalar type is decoded. *)
Definition decode_leaf (dt : DataType) (v : Value) : Result Cell :=
  match dt with
  | DBoolean => ok_or (CBool <$> try_as_bool v) (decode_error "BOOL" v)
  | DInt64 => ok_or (CInt <$> parse_int64 v) (decode_error "INT64" v)
  | DFloat64 => ok_or (CFloat <$> parse_f64_value v) (decode_error "FLOAT64" v)
  | DFloat32 => ok_or ((fun f => CFloat (f64_as_f32 f)) <$> parse_f64_value v) (decode_error "FLOAT32" v)
  | DDate32 => ok_or (s ← try_as_string v; CInt <$> parse_date_days s) (decode_error "DATE" v)
  | DTimestamp UNanosecond _ => append_nanos v
  | DTimestamp UMicrosecond _ =>
      ok_or (s ← try_as_string v; CInt <$> parse_timestamp_micros s) (decode_error "TIMESTAMP" v)
  | DDecimal128 _ _ => ok_or (s ← try_as_string v; CInt <$> parse_numeric_i128 s) (decode_error "NUMERIC" v)
  | DBinary => append_bytes v
  | _ => append_text v
  end.

(** The reference: one wire value of a column of type [dt], whatever its depth. *)
Fixpoint decode_cell (dt : DataType) (v : option Value) {struct dt} : Result Cell :=
  match present v with
  | None => Ok CNull
  | Some v =>
      match dt with
      | DList f =>
          match v with
          | VList l => cells ← try_map (fun v => decode_field f (Some v)) l; Ok (CList cells)
          | v => Err (decode_error "ARRAY" v)
          end
      | DStruct fs =>
          match v with
          | VList l =>
              cells ← (fix go fs i : Result (list Cell) :=
                         match fs with
                         | [] => Ok []
                         | f :: fs => c ← decode_field f (l !! i); cs ← go fs (S i); Ok (c :: cs)
                         end) fs 0;
              Ok (CStruct cells)
          | v => Err (decode_error "STRUCT" v)
          end
      | dt => decode_leaf dt v
      end
  end
with decode_field (f : Field) (v : option Value) {struct f} : Result Cell :=
  match f with mkField _ dt _ _ => decode_cell dt v end.

Lemma decode_field_type f v : decode_field f v = decode_cell (f_type f) v.
Proof. by destruct f. Qed.

(** A leaf column is the map of its cells' decoder. *)
Lemma build_array_leaf dt vs :
  result_type dt = true -> is_leaf dt = true ->
  build_array dt vs = (cells ← try_map (decode_cell dt) vs; Ok (mkArray dt cells)).
Proof.
  intros Hr Hl. destruct dt; try done; try (destruct unit; try done).
  all: cbn [build_array]; unfold build_primitive, build_with; unfold mbind, Result_mbind.
  all: match goal with |- match try_map ?f ?l with _ => _ end = match try_map ?g _ with _ => _ end =>
         rewrite (try_map_ext f g) by (intros [[]|]; done) end; try done.
  destruct (try_map _ vs); [|done]. apply bool_decide_eq_true in Hr as [-> ->]. done.
Qed.

(** *** Lists *)

(** The elements a value of a list column contributes to the child array. *)
Definition elements (v : option Value) : list (option Value) :=
  match present v with Some (VList l) => map Some l | _ => [] end.

Definition is_list (v : option Value) : bool :=
  match present v with Some (VList _) => true | _ => false end.

(** NULL or a wire list. *)
Definition listy (v : option Value) : Prop :=
  match present v with None | Some (VList _) => True | _ => False end.

(** The offsets after the first. *)
Fixpoint running (start : nat) (lens : list nat) : list Z :=
  match lens with [] => [] | n :: lens => Z.of_nat (start + n) :: running (start + n) lens end.

Definition offset_error : Error := err [Lit "ARRAY result exceeds the i32 offset range"] Internal.

(** A type with a struct without fields somewhere inside: Arrow cannot build it. *)
Fixpoint fieldless (dt : DataType) : bool :=
  match dt with
  | DList f => fieldless_field f
  | DStruct fs => bool_decide (fs = []) || existsb fieldless_field fs
  | _ => false
  end
with fieldless_field (f : Field) : bool := match f with mkField _ dt _ _ => fieldless dt end.

Lemma fieldless_field_type f : fieldless_field f = fieldless (f_type f).
Proof. by destruct f. Qed.

(** Why values that decode cannot be built: a list too long for its offsets, or
    ([b]) a struct without fields. *)
Definition refused {A} (b : bool) (r : Result A) : Prop :=
  r = Err offset_error \/ b = true /\ r = Err fieldless_error.

Lemma list_loop_Ok values children offsets validity r :
  list_loop values children offsets validity = Ok r ->
  Forall listy values /\
  r = (children ++ concat (map elements values),
       offsets ++ running (length children) (map (fun v => length (elements v)) values),
       validity ++ map is_list values).
Proof.
  revert children offsets validity. induction values as [|v values IH]; intros ch off val H; cbn in H.
  { simplify_eq. cbn. split; [constructor|]. by rewrite !app_nil_r. }
  inv_bind H. destruct a as [ch' valid]. inv_bind H. unfold i32_offset in E0. case_decide; [|done].
  injection E0 as <-. apply IH in H as [Hl ->]. cbn [map concat running].
  unfold elements at 1 3, is_list at 2, listy.
  assert (ch' = ch ++ elements v /\ valid = is_list v /\ listy v) as (-> & -> & Hv).
  { unfold elements, is_list, listy. destruct (present v) as [[]|]; simplify_eq; rewrite ?app_nil_r; done. }
  fold (elements v) (is_list v) (listy v). rewrite length_app, <- !app_assoc. by split; [constructor|].
Qed.

Lemma list_loop_total values children offsets validity :
  Forall listy values ->
  (exists r, list_loop values children offsets validity = Ok r) \/
  list_loop values children offsets validity = Err offset_error.
Proof.
  intros H. revert children offsets validity.
  induction H as [|v values Hv _ IH]; intros ch off val; [left; by eexists|]. cbn.
  unfold listy in Hv. unfold i32_offset.
  destruct (present v) as [[]|]; try done; unfold mbind, Result_mbind; case_decide; (apply IH || by right).
Qed.

Lemma list_cells_spec (chunks : list (list Cell)) (validity : list bool) (pre : list Cell) :
  length validity = length chunks ->
  list_cells (Z.of_nat (length pre) :: running (length pre) (map length chunks)) validity (pre ++ concat chunks) =
  zip_with (fun (valid : bool) chunk => if valid then CList chunk else CNull) validity chunks.
Proof.
  revert validity pre. induction chunks as [|c chunks IH]; intros [|b validity] pre Hl; try done.
  cbn [map running list_cells zip_with concat].
  replace (Z.to_nat (Z.of_nat (length pre + length c) - Z.of_nat (length pre))) with (length c) by lia.
  rewrite Nat2Z.id, drop_app_length, take_app_length. f_equal.
  cbn in Hl. specialize (IH validity (pre ++ c)). rewrite length_app, <- app_assoc in IH. apply IH. lia.
Qed.

(** One list value decodes to its elements' cells. *)
Definition list_cell (valid : bool) (chunk : list Cell) : Cell := if valid then CList chunk else CNull.

Lemma decode_list_value f v c :
  decode_cell (DList f) v = Ok c <->
  listy v /\ exists chunk, try_map (decode_cell (f_type f)) (elements v) = Ok chunk /\ c = list_cell (is_list v) chunk.
Proof.
  cbn [decode_cell]. unfold listy, elements, is_list.
  destruct (present v) as [w|]; [|split; [intros [= <-]; split; [done|]; by exists [] | by intros (_ & ? & [= <-] & ->)]].
  destruct w; try (split; [done | by intros [[] _]]).
  rewrite try_map_map, (try_map_ext (fun v => decode_field f (Some v)) (fun v => decode_cell (f_type f) (Some v)))
    by (intros; apply decode_field_type).
  unfold mbind, Result_mbind. destruct (try_map _ l) as [cells|].
  - split; [intros [= <-]; split; [done|]; by exists cells | by intros (_ & ? & [= <-] & ->)].
  - split; [done | by intros (_ & ? & ? & _)].
Qed.

(** A list column is built as its values decode. *)
Lemma build_list_cells f :
  (forall vs a, build_array (f_type f) vs = Ok a ->
     a_type a = f_type f /\ try_map (decode_cell (f_type f)) vs = Ok (a_cells a)) ->
  forall vs a, build_array (DList f) vs = Ok a ->
    a_type a = DList f /\ try_map (decode_cell (DList f)) vs = Ok (a_cells a).
Proof.
  intros IH vs a H. cbn [build_array] in H. inv_bind H. destruct a0 as [[ch off] val].
  apply list_loop_Ok in E as [Hl [= -> -> ->]]. cbn [app length] in H.
  assert (build_array (f_type f) (concat (map elements vs)) ≫= (fun child =>
    if dt_eqb (a_type child) (f_type f) then
      Ok (mkArray (DList f) (list_cells (0%Z :: running 0 (map (fun v => length (elements v)) vs))
            (map is_list vs) (a_cells child)))
    else Err (arrow_err "list child type")) = Ok a) as H' by (by destruct f).
  clear H. inv_bind H'. destruct (IH _ _ E) as [Ht Hc]. rewrite Ht, dt_eqb_refl in H'.
  injection H' as <-. cbn [a_type a_cells]. split; [done|].
  apply try_map_concat in Hc as (chunks & Hcells & Hch). rewrite Hcells.
  assert (map (fun v => length (elements v)) vs = map length chunks) as ->.
  { clear -Hch. revert chunks Hch. induction vs as [|v vs IH]; intros chunks H; cbn in H.
    - by apply Forall2_nil_inv_l in H as ->.
    - apply Forall2_cons_inv_l in H as (c & cs & Hc & Hcs & ->). cbn.
      by rewrite (IH _ Hcs), (try_map_length _ _ _ Hc). }
  pose proof (Forall2_length _ _ _ Hch) as Hlen. rewrite length_map in Hlen.
  pose proof (list_cells_spec chunks (map is_list vs) []) as Hspec. cbn [length app] in Hspec.
  match goal with |- _ = Ok ?x => change x with
    (list_cells (Z.of_nat 0 :: running 0 (map length chunks)) (map is_list vs) (concat chunks)) end.
  rewrite Hspec by (rewrite length_map; lia).
  apply try_map_Ok_Forall2. clear -Hl Hch.
  revert chunks Hch. induction Hl as [|v vs Hv _ IH]; intros chunks H; cbn in H.
  - by apply Forall2_nil_inv_l in H as ->.
  - apply Forall2_cons_inv_l in H as (c & cs & Hc & Hcs & ->). cbn. constructor; [|by apply IH].
    apply decode_list_value. split; [done|]. by exists c.
Qed.

Lemma build_list_total f :
  (forall vs cells, try_map (decode_cell (f_type f)) vs = Ok cells ->
     build_array (f_type f) vs = Ok (mkArray (f_type f) cells) \/
     refused (fieldless (f_type f)) (build_array (f_type f) vs)) ->
  forall vs cells, try_map (decode_cell (DList f)) vs = Ok cells ->
    (exists a, build_array (DList f) vs = Ok a) \/ refused (fieldless (DList f)) (build_array (DList f) vs).
Proof.
  intros IH vs cells H. apply try_map_Ok_Forall2 in H.
  assert (Forall listy vs) as Hl.
  { clear -H. induction H; constructor; [|done]. by apply decode_list_value in H as []. }
  assert (exists cs, try_map (decode_cell (f_type f)) (concat (map elements vs)) = Ok cs) as [cs Hcs].
  { assert (exists chunks, Forall2 (fun g c => try_map (decode_cell (f_type f)) g = Ok c) (map elements vs) chunks)
      as [chunks Hch].
    { clear -H. induction H as [|v c vs cells Hv _ [chunks IH]]; [by exists []|].
      apply decode_list_value in Hv as (_ & chunk & Hc & _). exists (chunk :: chunks). by constructor. }
    exists (concat chunks). apply try_map_concat. by exists chunks. }
  cbn [build_array]. destruct (list_loop_total vs [] [0%Z] [] Hl) as [[[[ch off] val] Hr]|Hr]; rewrite Hr; [|by right; left].
  apply list_loop_Ok in Hr as [_ [= -> -> ->]]. cbn [app].
  destruct (IH _ _ Hcs) as [Hb|[Hb|[Hf Hb]]]; destruct f as [n d b m]; cbn [f_type] in *; unfold mbind, Result_mbind;
    rewrite Hb; [|by right; left|by right; right]. cbn [a_type]. rewrite dt_eqb_refl. left. by eexists.
Qed.

(** *** Structs *)

Definition slot (i : nat) (v : option Value) : option Value :=
  match present v with Some (VList l) => l !! i | _ => None end.

Lemma struct_loop_Ok n vs validity r :
  struct_loop n vs validity = Ok r ->
  Forall listy vs /\
  r = (map (fun i => map (slot i) vs) (seq 0 n), validity ++ map is_list vs).
Proof.
  revert validity r. induction vs as [|v vs IH]; intros val r H; cbn [struct_loop] in H.
  { injection H as <-. cbn. rewrite app_nil_r. split; [constructor|]. f_equal.
    generalize 0 as i. induction n as [|n IHn]; intros i; [done|]. cbn. by rewrite <- IHn. }
  inv_bind H. destruct a as [slots valid]. inv_bind H. destruct a as [ch val']. injection H as <-.
  apply IH in E0 as [Hl [= -> ->]].
  assert (slots = map (fun i => slot i v) (seq 0 n) /\ valid = is_list v /\ listy v) as (-> & -> & Hv).
  { unfold slot, is_list, listy. destruct (present v) as [[]|]; simplify_eq; split_and!; try done.
    generalize 0 as i. clear. induction n as [|n IHn]; intros i; [done|]. cbn. by rewrite <- IHn. }
  split; [by constructor|]. rewrite <- app_assoc. f_equal.
  generalize (seq 0 n) as l. clear. induction l as [|i l IH]; [done|]. cbn. by rewrite IH.
Qed.

Lemma struct_loop_total n vs validity : Forall listy vs -> exists r, struct_loop n vs validity = Ok r.
Proof.
  intros H. revert validity. induction H as [|v vs Hv _ IH]; intros val; [by eexists|]. cbn [struct_loop].
  unfold listy in Hv. destruct (present v) as [[]|]; try done; unfold mbind, Result_mbind;
    (destruct (IH (val ++ [true])) as [[??] ->] || idtac);
    try (by eexists); destruct (IH (val ++ [false])) as [[??] ->]; by eexists.
Qed.

(** The fields of one struct value. *)
Fixpoint decode_struct (fs : list Field) (l : list Value) (i : nat) : Result (list Cell) :=
  match fs with
  | [] => Ok []
  | f :: fs => c ← decode_cell (f_type f) (l !! i); cs ← decode_struct fs l (S i); Ok (c :: cs)
  end.

Lemma decode_struct_value fs v c :
  decode_cell (DStruct fs) v = Ok c <->
  listy v /\
  match present v with
  | Some (VList l) => exists cells, decode_struct fs l 0 = Ok cells /\ c = CStruct cells
  | _ => c = CNull
  end.
Proof.
  cbn [decode_cell]. unfold listy.
  destruct (present v) as [w|]; [|split; [by intros [= <-] | by intros [_ ->]]].
  destruct w as [| | | |l|]; try (split; [done | by intros [[] _]]).
  assert (forall i, (fix go fs i : Result (list Cell) :=
    match fs with
    | [] => Ok []
    | f :: fs => c ← decode_field f (l !! i); cs ← go fs (S i); Ok (c :: cs)
    end) fs i = decode_struct fs l i) as ->.
  { induction fs as [|f fs IH]; intros i; [done|]. cbn [decode_struct]. by rewrite IH, decode_field_type. }
  unfold mbind, Result_mbind. destruct (decode_struct fs l 0) as [cells|].
  - split; [intros [= <-]; split; [done|]; by exists cells | by intros (_ & ? & [= <-] & ->)].
  - split; [done | by intros (_ & ? & ? & _)].
Qed.

(** The child arrays of a struct column. *)
Fixpoint build_children (fs : list Field) (children : list (list (option Value))) : Result (list Array) :=
  match fs, children with
  | f :: fs, vals :: children =>
      a ← build_array (f_type f) vals; as_ ← build_children fs children; Ok (a :: as_)
  | _, _ => Ok []
  end.

Lemma build_struct_unfold fs vs :
  build_array (DStruct fs) vs =
  ('(children, validity) ← struct_loop (length fs) vs [];
   arrays ← build_children fs children;
   if decide (arrays = []) then Err fieldless_error
   else if decide (Forall2 (fun f a => dt_eqb (a_type a) (f_type f) = true) fs arrays) then
     Ok (mkArray (DStruct fs) (struct_cells validity (map a_cells arrays)))
   else Err (arrow_err "struct child types")).
Proof.
  cbn [build_array]. unfold mbind, Result_mbind.
  destruct (struct_loop (length fs) vs []) as [[children validity]|]; [|done].
  match goal with |- match ?go fs children with _ => _ end = _ =>
    assert (forall fs children, go fs children = build_children fs children) as -> end; [|done].
  clear. induction fs as [|[n d b m] fs IH]; intros [|vals children]; try done. cbn. by rewrite IH.
Qed.

(** What the child arrays hold, row by row. *)
Lemma build_children_cells vs fs i arrays :
  Forall (fun f => forall vs a, build_array (f_type f) vs = Ok a ->
     a_type a = f_type f /\ try_map (decode_cell (f_type f)) vs = Ok (a_cells a)) fs ->
  build_children fs (map (fun k => map (slot k) vs) (seq i (length fs))) = Ok arrays ->
  Forall2 (fun f a => dt_eqb (a_type a) (f_type f) = true) fs arrays /\
  forall r v l, vs !! r = Some v -> present v = Some (VList l) ->
    decode_struct fs l i = Ok (map (fun child => default CNull (child !! r)) (map a_cells arrays)).
Proof.
  intros IHs. revert i arrays. induction IHs as [|f fs IHf _ IH]; intros i arrays H; cbn in H.
  { simplify_eq. by split. }
  inv_bind H. injection H as <-. destruct (IHf _ _ E) as [Ht Hc]. destruct (IH _ _ E0) as [Hts Hcs].
  split. { constructor; [|done]. rewrite Ht. apply dt_eqb_refl. }
  intros r v l Hr Hv. cbn [decode_struct map]. rewrite (Hcs r v l Hr Hv).
  apply try_map_Ok_Forall2 in Hc. apply Forall2_fmap_l in Hc.
  destruct (Forall2_lookup_l _ _ _ _ _ Hc Hr) as (c & Hlc & Hd). unfold compose, slot in Hd. rewrite Hv in Hd.
  rewrite Hd, Hlc. done.
Qed.

Lemma struct_cells_lookup validity children r b :
  validity !! r = Some b ->
  struct_cells validity children !! r =
  Some (if b : bool then CStruct (map (fun child => default CNull (child !! r)) children) else CNull).
Proof. intros H. unfold struct_cells. by rewrite list_lookup_imap, H. Qed.

Lemma build_struct_cells fs :
  Forall (fun f => forall vs a, build_array (f_type f) vs = Ok a ->
     a_type a = f_type f /\ try_map (decode_cell (f_type f)) vs = Ok (a_cells a)) fs ->
  forall vs a, build_array (DStruct fs) vs = Ok a ->
    a_type a = DStruct fs /\ try_map (decode_cell (DStruct fs)) vs = Ok (a_cells a).
Proof.
  intros IH vs a H. rewrite build_struct_unfold in H. inv_bind H. destruct a0 as [children validity].
  apply struct_loop_Ok in E as [Hl [= -> ->]]. inv_bind H.
  destruct (build_children_cells vs fs 0 a0 IH E) as [Hts Hcs]. destruct (decide (a0 = [])); [done|].
  rewrite decide_True in H by done.
  injection H as <-. cbn [a_type a_cells app]. split; [done|].
  apply try_map_Ok_Forall2, Forall2_same_length_lookup. split.
  { unfold struct_cells. by rewrite length_imap, length_map. }
  intros r v c Hr Hc. rewrite (struct_cells_lookup _ _ r (is_list v)) in Hc by by rewrite list_lookup_fmap, Hr.
  injection Hc as <-. apply decode_struct_value. rewrite Forall_lookup in Hl. split; [by eapply Hl|].
  specialize (Hl r v Hr). unfold listy in Hl. unfold is_list. destruct (present v) as [[]|] eqn:Ev; try done.
  eexists. split; [by eapply Hcs|done].
Qed.

Lemma decode_cell_None dt : decode_cell dt None = Ok CNull.
Proof. by destruct dt. Qed.

Lemma build_children_total vs fs i cells :
  Forall (fun f => forall vs cells, try_map (decode_cell (f_type f)) vs = Ok cells ->
     build_array (f_type f) vs = Ok (mkArray (f_type f) cells) \/
     refused (fieldless (f_type f)) (build_array (f_type f) vs)) fs ->
  Forall2 (fun v c => match present v with
                      | Some (VList l) => decode_struct fs l i = Ok c
                      | _ => True end) vs cells ->
  (exists arrays, build_children fs (map (fun k => map (slot k) vs) (seq i (length fs))) = Ok arrays) \/
  refused (existsb fieldless_field fs) (build_children fs (map (fun k => map (slot k) vs) (seq i (length fs)))).
Proof.
  intros IHs. revert i cells. induction IHs as [|f fs IHf _ IH]; intros i cells H; cbn; [left; by eexists|].
  assert (exists cs, try_map (decode_cell (f_type f)) (map (slot i) vs) = Ok cs) as [cs Hcs].
  { clear -H. induction H as [|v c vs cells Hv _ [cs IH]]; [by exists []|]. cbn [map].
    assert (exists c, decode_cell (f_type f) (slot i v) = Ok c) as [c' Hc'].
    { unfold slot. destruct (present v) as [[]|]; try (by eexists; apply decode_cell_None).
      cbn [decode_struct] in Hv. inv_bind Hv. by eexists. }
    exists (c' :: cs). cbn. by rewrite Hc', IH. }
  rewrite fieldless_field_type.
  destruct (IHf _ _ Hcs) as [->|[->|[-> ->]]]; [|by right; left|by right; right].
  destruct (IH (S i) (map tail cells)) as [[arrays ->]|[->|[-> ->]]];
    [|left; by eexists|by right; left|right; right; by rewrite orb_true_r].
  clear -H. induction H as [|v c vs cells Hv _ IH]; cbn; constructor; [|done].
  destruct (present v) as [[]|]; try done. cbn [decode_struct] in Hv. inv_bind Hv. by injection Hv as <-.
Qed.

Lemma build_struct_total fs :
  Forall (fun f => forall vs a, build_array (f_type f) vs = Ok a ->
     a_type a = f_type f /\ try_map (decode_cell (f_type f)) vs = Ok (a_cells a)) fs ->
  Forall (fun f => forall vs cells, try_map (decode_cell (f_type f)) vs = Ok cells ->
     build_array (f_type f) vs = Ok (mkArray (f_type f) cells) \/
     refused (fieldless (f_type f)) (build_array (f_type f) vs)) fs ->
  forall vs cells, try_map (decode_cell (DStruct fs)) vs = Ok cells ->
    (exists a, build_array (DStruct fs) vs = Ok a) \/ refused (fieldless (DStruct fs)) (build_array (DStruct fs) vs).
Proof.
  intros IHc IHs vs cells H. apply try_map_Ok_Forall2 in H.
  assert (Forall listy vs) as Hl.
  { clear -H. induction H; constructor; [|done]. by apply decode_struct_value in H as []. }
  rewrite build_struct_unfold. destruct (struct_loop_total (length fs) vs [] Hl) as [[children validity] Hr].
  rewrite Hr. apply struct_loop_Ok in Hr as [_ [= -> ->]].
  unfold mbind, Result_mbind. cbn beta iota.
  destruct (build_children_total vs fs 0 (map (fun c => match c with CStruct l => l | _ => [] end) cells) IHs)
    as [[arrays Ha]|Ha].
  - apply Forall2_fmap_r. eapply Forall2_impl; [exact H|]. intros v c Hv%decode_struct_value.
    destruct Hv as [_ Hv]. destruct (present v) as [[]|]; try done. by destruct Hv as (cs & Hcs & ->).
  - rewrite Ha. destruct (build_children_cells vs fs 0 arrays IHc Ha) as [Hts _]. destruct (decide (arrays = [])) as [->|].
    + apply Forall2_nil_inv_r in Hts as ->. by right; right.
    + left. rewrite decide_True by done. by eexists.
  - destruct Ha as [->|[Hf ->]]; right; [by left|right]. split; [|done]. cbn [fieldless]. by rewrite Hf, orb_true_r.
Qed.

(** *** Any column of a result *)

Lemma build_array_decodes dt :
  result_type dt = true ->
  (forall vs a, build_array dt vs = Ok a -> a_type a = dt /\ try_map (decode_cell dt) vs = Ok (a_cells a)) /\
  (forall vs cells, try_map (decode_cell dt) vs = Ok cells ->
     build_array dt vs = Ok (mkArray dt cells) \/ refused (fieldless dt) (build_array dt vs)).
Proof.
  assert (forall dt, (forall vs a, build_array dt vs = Ok a ->
     a_type a = dt /\ try_map (decode_cell dt) vs = Ok (a_cells a)) ->
    (forall vs cells, try_map (decode_cell dt) vs = Ok cells ->
     (exists a, build_array dt vs = Ok a) \/ refused (fieldless dt) (build_array dt vs)) ->
    forall vs cells, try_map (decode_cell dt) vs = Ok cells ->
     build_array dt vs = Ok (mkArray dt cells) \/ refused (fieldless dt) (build_array dt vs)) as Hjoin.
  { intros d H1 H2 vs cells Hc. destruct (H2 vs cells Hc) as [[[t cs] Ha]|]; [|by right].
    destruct (H1 _ _ Ha) as [Ht Hcs]. cbn in *. left. rewrite Ha. congruence. }
  induction dt using DataType_deep_ind; intros Hr; try done.
  - split; intros vs x; rewrite build_array_leaf by done; unfold mbind, Result_mbind.
    + destruct (try_map _ vs); [|done]. by intros [= <-].
    + intros ->. by left.
  - cbn [result_type] in Hr. rewrite result_field_type in Hr. destruct (IHdt Hr) as [IH1 IH2].
    split; [by apply build_list_cells|]. apply Hjoin; [by apply build_list_cells|]. by apply build_list_total.
  - cbn [result_type] in Hr.
    assert (Forall (fun f => forall vs a, build_array (f_type f) vs = Ok a ->
      a_type a = f_type f /\ try_map (decode_cell (f_type f)) vs = Ok (a_cells a)) fs /\
     Forall (fun f => forall vs cells, try_map (decode_cell (f_type f)) vs = Ok cells ->
      build_array (f_type f) vs = Ok (mkArray (f_type f) cells) \/
      refused (fieldless (f_type f)) (build_array (f_type f) vs)) fs) as [IH1 IH2].
    { induction H as [|f fs Hf _ IH]; [by split; constructor|]. cbn in Hr. apply andb_true_iff in Hr as [Hr1 Hr2].
      rewrite result_field_type in Hr1. destruct (Hf Hr1), (IH Hr2). by split; constructor. }
    split; [by apply build_struct_cells|]. apply Hjoin; [by apply build_struct_cells|]. by apply build_struct_total.
Qed.

(** A column with a struct without fields is never built, whatever its values. *)
Lemma fieldless_never_built dt : fieldless dt = true -> forall vs, ~ is_Ok (build_array dt vs).
Proof.
  induction dt using DataType_deep_ind; try done; intros Hf vs [a Ha].
  - by destruct dt.
  - change (fieldless_field f = true) in Hf. rewrite fieldless_field_type in Hf. destruct f as [n d b m].
    cbn [f_type build_array] in *. inv_bind Ha. destruct a0 as [[ch off] val]. inv_bind Ha. by apply (IHdt Hf ch); eexists.
  - rewrite build_struct_unfold in Ha. inv_bind Ha. destruct a0 as [ch val]. apply struct_loop_Ok in E as [_ [= -> ->]].
    inv_bind Ha. destruct (decide (a0 = [])) as [|Hne]; [done|]. clear Ha. cbn [fieldless] in Hf.
    apply orb_true_iff in Hf as [->%bool_decide_eq_true|Hf]; [by injection E as <-|].
    revert E. generalize 0 as i. revert a0 Hne. induction H as [|f fs Hf' _ IH]; intros arrays _ i E; [done|].
    cbn [existsb length seq map build_children] in *. inv_bind E. inv_bind E.
    apply orb_true_iff in Hf as [Hf|Hf]; [rewrite fieldless_field_type in Hf; by eapply Hf'; [done|eexists]|].
    destruct fs; [done|]. eapply (IH Hf a1); [|exact E1]. cbn in E1. inv_bind E1. inv_bind E1. by injection E1 as <-.
Qed.

(** ** Typing *)

Lemma parse_i64_range s z : parse_i64 s = Some z -> is_i64 z = true.
Proof.
  unfold parse_i64. intros H.
  destruct (match s with [] => None | c :: r => _ end) as [n|]; [|done]. cbn in H. by destruct (is_i64 n) eqn:E; simplify_eq.
Qed.

Lemma digit_at_range b i d : digit_at b i = Some d -> (0 <= d <= 9)%Z.
Proof. unfold digit_at. case_decide; [|done]. intros [= <-]. lia. Qed.

Ltac inv_some H :=
  repeat match type of H with
  | (?o ≫= _) = Some _ =>
      let E := fresh "E" in destruct o eqn:E; [cbn [mbind option_bind] in H | discriminate H]
  end.

Lemma parse_date_days_range (CL : ChronoLaws CH) s n :
  parse_date_days s = Some n -> (first_day - 719163 <= n <= last_day - 719163)%Z.
Proof.
  unfold parse_date_days. case_decide; [done|]. intros Hp. inv_some Hp.
  injection Hp as <-.
  repeat match goal with E : digit_at _ _ = Some _ |- _ => apply digit_at_range in E end.
  match goal with E : from_ymd_opt _ _ _ = Some _ |- _ => apply ymd_range in E; lia end.
Qed.

Lemma timestamp_nanos_range dt n : timestamp_nanos_opt dt = Some n -> is_i64 n = true.
Proof. unfold timestamp_nanos_opt. destruct (is_i64 _) eqn:E; [|done]. by intros [= <-]. Qed.

Lemma parse_timestamp_micros_range s n : parse_timestamp_micros s = Some n -> is_i64 n = true.
Proof.
  unfold parse_timestamp_micros. intros H. inv_some H. unfold checked_i64 in H.
  destruct (is_i64 _) eqn:Ei in H; [|done]. by injection H as <-.
Qed.

Lemma int_digits_nonneg acc b n : (0 <= acc)%Z -> int_digits acc b = Some n -> (0 <= n)%Z.
Proof.
  revert acc. induction b as [|d b IH]; intros acc Ha; cbn; [congruence|].
  case_decide; [|done]. unfold checked_i128. case_decide; [|done]. cbn. case_decide; [|done]. cbn.
  apply IH. lia.
Qed.

Lemma scan_digits_nonneg acc b n : (0 <= acc)%Z -> scan_digits acc b = Some n -> (0 <= n)%Z.
Proof.
  revert acc. induction b as [|d b IH]; intros acc Ha; cbn; [congruence|].
  case_decide; [|done]. apply IH. lia.
Qed.

Lemma parse_numeric_range s n : parse_numeric_i128 s = Some n -> (- i128_max <= n <= i128_max)%Z.
Proof.
  unfold parse_numeric_i128. destruct (match as_bytes s with [] => _ | _ => _ end) as [neg bytes].
  intros H. inv_some H. destruct p as [ip fp]. case_decide; [done|]. inv_some H. injection H as <-.
  apply int_digits_nonneg in E0; [|lia]. apply scan_digits_nonneg in E1; [|lia].
  unfold checked_i128 in E2, E3. repeat case_decide; simplify_eq.
  assert (0 <= 10 ^ (NUMERIC_SCALE - Z.of_nat (length fp)))%Z by (apply Z.pow_nonneg; lia).
  unfold i128_max in *. destruct neg; nia.
Qed.

Lemma decode_leaf_ok (CL : ChronoLaws CH) dt v c :
  result_type dt = true -> is_leaf dt = true -> decode_leaf dt v = Ok c -> cell_ok dt c = true.
Proof.
  intros Hr Hl. destruct dt; try done; unfold decode_leaf.
  - unfold ok_or. destruct (try_as_bool v); [|done]. by intros [= <-].
  - unfold ok_or. destruct (parse_int64 v) eqn:E; [|done]. intros [= <-]. cbn. unfold parse_int64 in E. inv_some E.
    by apply parse_i64_range in E.
  - unfold ok_or. destruct (parse_f64_value v); [|done]. by intros [= <-].
  - unfold ok_or. destruct (parse_f64_value v); [|done]. by intros [= <-].
  - unfold append_text. destruct (try_as_string v); by intros [= <-].
  - unfold append_bytes. intros H. inv_bind H. by injection H as <-.
  - unfold ok_or. destruct (try_as_string v) as [s|]; [|done]. cbn.
    destruct (parse_date_days s) eqn:E; [|done]. intros [= <-]. apply parse_date_days_range in E; [|done].
    cbn. apply bool_decide_eq_true. unfold first_day, last_day in E. lia.
  - destruct unit; try done.
    + unfold ok_or. destruct (try_as_string v) as [s|]; [|done]. cbn.
      destruct (parse_timestamp_micros s) eqn:E; [|done]. intros [= <-].
      by apply parse_timestamp_micros_range in E.
    + unfold append_nanos. intros H. inv_bind H. destruct (parse_timestamp_nanos a) eqn:En.
      * injection H as <-. unfold parse_timestamp_nanos in En. inv_some En. by apply timestamp_nanos_range in En.
      * by destruct (rfc3339_ok a).
  - unfold ok_or. destruct (try_as_string v) as [s|]; [|done]. cbn.
    destruct (parse_numeric_i128 s) eqn:E; [|done]. intros [= <-]. apply parse_numeric_range in E.
    cbn. apply bool_decide_eq_true. unfold i128_max in E. lia.
Qed.

Lemma decode_cell_ok (CL : ChronoLaws CH) dt v c :
  result_type dt = true -> decode_cell dt v = Ok c -> cell_ok dt c = true.
Proof.
  revert v c. induction dt using DataType_deep_ind; intros v c Hr Hc; try done.
  - destruct (present v) as [w|] eqn:Ev.
    + assert (decode_cell dt v = decode_leaf dt w) as E by (destruct dt; try done; cbn [decode_cell]; by rewrite Ev).
      rewrite E in Hc. by eapply decode_leaf_ok.
    + assert (decode_cell dt v = Ok CNull) as E by (destruct dt; try done; cbn [decode_cell]; by rewrite Ev).
      rewrite E in Hc. injection Hc as <-. by destruct dt.
  - apply decode_list_value in Hc as (_ & chunk & Hch & ->). unfold list_cell. destruct (is_list v); [|done].
    cbn [result_type] in Hr. rewrite result_field_type in Hr. cbn [cell_ok].
    apply try_map_Ok_Forall2 in Hch. apply forallb_forall. intros c Hin.
    apply list_elem_of_In, list_elem_of_lookup in Hin as [i Hi].
    destruct (Forall2_lookup_r _ _ _ _ _ Hch Hi) as (x & _ & Hx). destruct f. by eapply IHdt.
  - apply decode_struct_value in Hc as [Hl Hc]. destruct (present v) as [[]|]; subst; try done.
    destruct Hc as (cells & Hd & ->). cbn [cell_ok result_type] in *. revert cells Hd. generalize 0 as i.
    induction H as [|f fs Hf _ IH]; intros i cells Hd; cbn [decode_struct] in Hd; [by simplify_eq|].
    inv_bind Hd. injection Hd as <-. cbn in Hr. apply andb_true_iff in Hr as [Hr1 Hr2].
    rewrite result_field_type in Hr1. rewrite (IH Hr2 _ _ E0), andb_true_r. destruct f. by eapply Hf.
Qed.

(** ** Batches *)

(** Column [i] of the rows, cell by cell. *)
Definition column_decodes (dt : DataType) (i : nat) (rows : list Row) (cells : list Cell) : Prop :=
  Forall2 (fun (row : Row) c => decode_cell dt (row !! i) = Ok c) rows cells.

Lemma build_column_Ok f i rows a :
  result_type (f_type f) = true -> build_column f (map (fun row : Row => row !! i) rows) = Ok a ->
  a_type a = f_type f /\ column_decodes (f_type f) i rows (a_cells a).
Proof.
  intros Hr. unfold build_column, res_map_err. destruct (build_array _ _) eqn:E; [|done]. intros [= <-].
  destruct (proj1 (build_array_decodes _ Hr) _ _ E) as [Ht Hc]. split; [done|].
  by apply try_map_Ok_Forall2, Forall2_fmap_l in Hc.
Qed.

Lemma build_columns_Ok schema i rows arrays :
  Forall (fun f => result_type (f_type f) = true) schema -> build_columns schema i rows = Ok arrays ->
  length arrays = length schema /\
  forall k f a, schema !! k = Some f -> arrays !! k = Some a ->
    a_type a = f_type f /\ column_decodes (f_type f) (i + k) rows (a_cells a).
Proof.
  intros Hs. revert i arrays. induction Hs as [|f fs Hf _ IH]; intros i arrays H; cbn in H; [by simplify_eq|].
  inv_bind H. injection H as <-. destruct (IH _ _ E0) as [Hlen Hk]. cbn. split; [lia|].
  intros [|k] g b Hg Hb; cbn in Hg, Hb.
  - simplify_eq. rewrite Nat.add_0_r. by apply build_column_Ok.
  - replace (i + S k) with (S i + k) by lia. by apply Hk.
Qed.

(** The error of a column whose values decode, named after the column. *)
Definition unbuildable {A} (schema : list Field) (r : Result A) : Prop :=
  exists name, r = Err (name_column name offset_error) \/
    Exists (fun f => fieldless (f_type f) = true) schema /\ r = Err (name_column name fieldless_error).

Lemma build_columns_total schema i rows :
  Forall (fun f => result_type (f_type f) = true) schema ->
  (forall k f, schema !! k = Some f -> exists cells, column_decodes (f_type f) (i + k) rows cells) ->
  (exists arrays, build_columns schema i rows = Ok arrays) \/
  unbuildable schema (build_columns schema i rows).
Proof.
  intros Hs. revert i. induction Hs as [|f fs Hf _ IH]; intros i H; cbn; [left; by eexists|].
  destruct (H 0 f eq_refl) as [cells Hc]. rewrite Nat.add_0_r in Hc.
  assert (try_map (decode_cell (f_type f)) (map (fun row : Row => row !! i) rows) = Ok cells) as Ht
    by by apply try_map_Ok_Forall2, Forall2_fmap_l.
  unfold build_column. destruct (proj2 (build_array_decodes _ Hf) _ _ Ht) as [->|[->|[Hfl ->]]]; cbn;
    [|right; eexists; by left|right; eexists; right; split; [by left|done]].
  destruct (IH (S i)) as [[arrays ->]|[name [->|[Hfl ->]]]]; cbn;
    [|left; by eexists|right; eexists; by left|right; eexists; right; split; [by right|done]].
  intros k g Hg. destruct (H (S k) g Hg) as [cs Hcs]. exists cs. by rewrite Nat.add_succ_r in Hcs.
Qed.

Lemma columns_typed schema arrays :
  length arrays = length schema ->
  (forall k f a, schema !! k = Some f -> arrays !! k = Some a -> a_type a = f_type f) ->
  Forall2 (fun f a => dt_eqb (a_type a) (f_type f) = true) schema arrays.
Proof.
  intros Hl H. apply Forall2_same_length_lookup. split; [done|]. intros k f a Hf Ha.
  rewrite (H k f a Hf Ha). apply dt_eqb_refl.
Qed.

(** A batch that is built: its schema, a row per wire row, and in every column the
    cells of that column. *)
Lemma build_batch_Ok schema rows b :
  Forall (fun f => result_type (f_type f) = true) schema -> build_batch schema rows = Ok b ->
  b_fields b = schema /\ b_rows b = length rows /\ length (b_columns b) = length schema /\
  forall i f a, schema !! i = Some f -> b_columns b !! i = Some a ->
    a_type a = f_type f /\ column_decodes (f_type f) i rows (a_cells a).
Proof.
  intros Hs H. unfold build_batch in H. inv_bind H. destruct (build_columns_Ok _ _ _ _ Hs E) as [Hlen Hk].
  destruct (decide _); [|done]. injection H as <-. done.
Qed.

(** A batch is built when every cell decodes, unless a list offset overflows or a
    struct has no fields. *)
Lemma build_batch_total schema rows :
  Forall (fun f => result_type (f_type f) = true) schema -> schema <> [] ->
  (forall i f, schema !! i = Some f -> exists cells, column_decodes (f_type f) i rows cells) ->
  is_Ok (build_batch schema rows) \/ unbuildable schema (build_batch schema rows).
Proof.
  intros Hs Hne H. unfold build_batch.
  destruct (build_columns_total schema 0 rows Hs) as [[arrays Ha]|[name Ha]]; [intros k f Hf; by apply H| |].
  - left. rewrite Ha. destruct (build_columns_Ok _ _ _ _ Hs Ha) as [Hlen Hk].
    unfold mbind, Result_mbind. rewrite decide_True; [by eexists|].
    split; [done|]. apply columns_typed; [done|]. intros k f a Hf Hka. by destruct (Hk k f a Hf Hka).
  - right. exists name. destruct Ha as [->|[Hf ->]]; [by left|by right].
Qed.

(** A chunk is decoded column by column as its cells would be one by one.  For
    any schema the driver derives from a result, a batch that is built holds in
    column [i] of row [r] exactly the cell that wire value [i] of row [r] decodes
    to on its own ([decode_cell]), at any nesting of arrays and structs, and it is
    built whenever every value decodes: the flattening of lists into one child
    array with offsets loses, shifts and truncates nothing, the exceptions being
    more list elements than an [i32] offset can count and a struct type without
    fields, which are errors. *)
Theorem decode_columnwise_exact (p : TimestampPrecision) md first_row schema (rows : list Row) :
  build_schema p md first_row = Ok schema -> schema <> [] ->
  (forall b, build_batch schema rows = Ok b ->
     forall i f a, schema !! i = Some f -> b_columns b !! i = Some a ->
       column_decodes (f_type f) i rows (a_cells a)) /\
  ((forall i f, schema !! i = Some f -> exists cells, column_decodes (f_type f) i rows cells) ->
     is_Ok (build_batch schema rows) \/ unbuildable schema (build_batch schema rows)).
Proof.
  intros Hs%build_schema_result Hne. split; [|by apply build_batch_total].
  intros b (_ & _ & _ & Hk)%build_batch_Ok; [|done]. intros i f a Hf Ha. by apply (Hk i f a).
Qed.

(** C18: what is decoded has the type the schema announces.  A batch built for a
    schema derived from a result has that schema, a row per wire row, and columns
    of the fields' types and the rows' length in which every cell is a value of
    its type, at every depth: integers and timestamps within 64 bits, dates within
    32, decimals within 128, a struct with one cell per field. *)
Theorem decoded_batch_typed {CL : ChronoLaws CH} (p : TimestampPrecision) md first_row schema
    (rows : list Row) (b : Batch) :
  build_schema p md first_row = Ok schema -> build_batch schema rows = Ok b ->
  b_fields b = schema /\ b_rows b = length rows /\ batch_ok b.
Proof.
  intros Hs%build_schema_result (Hf & Hr & Hlen & Hk)%build_batch_Ok; [|done]. split_and!; [done..|].
  unfold batch_ok. rewrite Hf, Hr. apply Forall2_same_length_lookup. split; [done|].
  intros i f arr Hi Ha. destruct (Hk i f arr Hi Ha) as [Ht Hc]. split_and!; [done| |].
  - symmetry. by apply Forall2_length in Hc.
  - unfold array_ok. rewrite Ht. apply Forall_forall. intros c Hin%list_elem_of_lookup. destruct Hin as [r Hr'].
    destruct (Forall2_lookup_r _ _ _ _ _ Hc Hr') as (row & _ & Hrow).
    rewrite Forall_lookup in Hs. eapply decode_cell_ok; [done|by eapply Hs|exact Hrow].
Qed.

(** ** Timestamps *)

Lemma scan_digits_bound acc b n :
  (0 <= acc)%Z -> scan_digits acc b = Some n -> (0 <= n < (acc + 1) * 10 ^ Z.of_nat (length b))%Z.
Proof.
  revert acc. induction b as [|d b IH]; intros acc Ha; cbn [scan_digits length]; [intros [= <-]; lia|].
  case_decide; [|done]. intros Hn%IH; [|lia]. rewrite Nat2Z.inj_succ, Z.pow_succ_r by lia. nia.
Qed.

Lemma scan_fraction_range b n : scan_fraction b = Some n -> (0 <= n < 1000000000)%Z.
Proof.
  unfold scan_fraction. case_decide; [intros [= <-]; lia|]. case_decide; [|done].
  set (frac := take _ _). case_decide as Hf; [done|]. intros Hn. inv_some Hn. injection Hn as <-.
  apply scan_digits_bound in E; [|lia].
  assert (length frac <= 9) by (apply Decidable.not_or in Hf as [_ Hf]; apply Decidable.not_or in Hf as [_ Hf]; lia).
  assert (10 ^ Z.of_nat (length frac) * 10 ^ (9 - Z.of_nat (length frac)) = 1000000000)%Z as Hp.
  { rewrite <- Z.pow_add_r by lia. by replace (Z.of_nat (length frac) + (9 - Z.of_nat (length frac)))%Z with 9%Z by lia. }
  assert (0 < 10 ^ (9 - Z.of_nat (length frac)))%Z by (apply Z.pow_pos_nonneg; lia). nia.
Qed.

Lemma two_digits_range b i n : two_digits b i = Some n -> (0 <= n <= 99)%Z.
Proof.
  unfold two_digits. intros H. inv_some H. injection H as <-.
  apply digit_at_range in E, E0. lia.
Qed.

Lemma scan_timestamp_range (CL : ChronoLaws CH) s dt :
  scan_timestamp_utc s = Some dt ->
  (0 <= timestamp_subsec_nanos dt < 1000000000)%Z /\
  ((first_day - 719163) * 86400 <= timestamp dt < (last_day + 1 - 719163) * 86400)%Z.
Proof.
  unfold scan_timestamp_utc. case_decide; [done|]. intros Hs. inv_some Hs.
  apply hms_instant in Hs as (? & ? & ? & -> & ->); [|by eapply scan_fraction_range].
  apply two_digits_range in E, E0. apply ymd_range in E7; [|lia].
  apply scan_fraction_range in E6. split; [done|]. lia.
Qed.

(** Reading a timestamp keeps its value or fails, never wraps.  For every text
    the scanner accepts, the microsecond mode returns the instant rounded down to
    a microsecond, for the whole range of years 0 to 9999; the nanosecond mode
    returns the exact instant if and only if an [i64] of nanoseconds can hold it.
    A text the scanner rejects is rejected by both. *)
Theorem timestamp_modes_exact {CL : ChronoLaws CH} (s : rstr) :
  match scan_timestamp_utc s with
  | Some dt =>
      let nanos := (timestamp dt * 1000000000 + timestamp_subsec_nanos dt)%Z in
      parse_timestamp_micros s = Some (nanos / 1000)%Z /\
      (forall n, parse_timestamp_nanos s = Some n <-> n = nanos /\ (i64_min <= nanos <= i64_max)%Z)
  | None => parse_timestamp_micros s = None /\ parse_timestamp_nanos s = None
  end.
Proof.
  unfold parse_timestamp_micros, parse_timestamp_nanos.
  destruct (scan_timestamp_utc s) as [dt|] eqn:E; [|done]. cbn [mbind option_bind].
  destruct (scan_timestamp_range CL s dt E) as [Hn Ht]. unfold first_day, last_day in Ht.
  assert (0 <= timestamp_subsec_nanos dt / 1000 < 1000000)%Z
    by (split; [apply Z.div_pos; lia | apply Z.div_lt_upper_bound; lia]).
  split.
  - unfold checked_i64. assert (is_i64 (timestamp dt * 1000000) = true) as ->.
    { apply bool_decide_eq_true. unfold i64_min, i64_max. lia. }
    cbn [mbind option_bind].
    assert (is_i64 (timestamp dt * 1000000 + timestamp_subsec_nanos dt / 1000) = true) as ->.
    { apply bool_decide_eq_true. unfold i64_min, i64_max. lia. }
    f_equal. replace (timestamp dt * 1000000000 + timestamp_subsec_nanos dt)%Z
      with (timestamp_subsec_nanos dt + (timestamp dt * 1000000) * 1000)%Z by lia.
    rewrite Z.div_add by lia. lia.
  - intros n. unfold timestamp_nanos_opt, is_i64. case_bool_decide.
    + split; [by intros [= <-]|by intros [-> _]].
    + split; [done|]. by intros [_ ?].
Qed.

End Facts.

(** ** Concrete results *)

(** A codec that keeps bytes as they are. *)
Definition example_codec : Codec := {| base64_decode s := Some s; json_display _ := [] |}.

(** A result with an array of integers, and two rows of it, the second with a null
    element and one with a null array. *)
Definition example_metadata : option (list rstr * list Ty) :=
  Some ([str "id"; str "tags"; str "at"],
        [mkTy TcInt64 None None; mkTy TcArray (Some (mkTy TcInt64 None None)) None; mkTy TcTimestamp None None]).

Definition example_schema : list Field :=
  [mkField (str "id") DInt64 true [];
   mkField (str "tags") (DList (mkField LIST_ITEM DInt64 true [])) true [];
   mkField (str "at") (DTimestamp UNanosecond (Some TIMESTAMP_TZ)) true []].

Definition example_rows : list Row :=
  [[VString (str "1"); VList [VString (str "7"); VNull]; VString (str "1970-01-01T00:00:01.5Z")];
   [VString (str "2"); VNull; VNull]].

Definition example_batch : Batch :=
  mkBatch example_schema
    [mkArray DInt64 [CInt 1; CInt 2];
     mkArray (DList (mkField LIST_ITEM DInt64 true [])) [CList [CInt 7; CNull]; CNull];
     mkArray (DTimestamp UNanosecond (Some TIMESTAMP_TZ)) [CInt 1500000000; CNull]] 2.

Lemma decode_columnwise_exact_witness :
  build_batch (CH := Gregorian) (CO := example_codec) example_schema example_rows = Ok example_batch /\
  column_decodes (CH := Gregorian) (CO := example_codec) (DList (mkField LIST_ITEM DInt64 true [])) 1 example_rows
    [CList [CInt 7; CNull]; CNull].
Proof.
  split; [vm_compute; reflexivity|].
  apply (proj1 (decode_columnwise_exact (CH := Gregorian) (CO := example_codec) NanosecondsErrorOnOverflow
    example_metadata None example_schema example_rows eq_refl ltac:(discriminate)) example_batch
    ltac:(vm_compute; reflexivity) 1 (mkField (str "tags") (DList (mkField LIST_ITEM DInt64 true [])) true [])
    (mkArray (DList (mkField LIST_ITEM DInt64 true [])) [CList [CInt 7; CNull]; CNull])); reflexivity.
Defined.

Lemma decoded_batch_typed_witness : batch_ok example_batch.
Proof.
  apply (decoded_batch_typed (CH := Gregorian) (CO := example_codec) (CL := Gregorian_laws) NanosecondsErrorOnOverflow
    example_metadata None example_schema example_rows example_batch); vm_compute; reflexivity.
Defined.

(** An instant after 2262 reads in microseconds only. *)
Lemma timestamp_modes_exact_witness :
  parse_timestamp_micros (CH := Gregorian) (str "2300-01-01T00:00:00Z") = Some 10413792000000000%Z /\
  parse_timestamp_nanos (CH := Gregorian) (str "2300-01-01T00:00:00Z") = None.
Proof.
  split; [|vm_compute; reflexivity].
  exact (proj1 (timestamp_modes_exact (CH := Gregorian) (CL := Gregorian_laws) (str "2300-01-01T00:00:00Z"))).
Defined.
