(* ===== verification/BindFacts.v ===== *)
(** * Properties of binding

    What is bound reads back: the text forms of decimals, dates and timestamps are
    the ones the decoders accept, and every representable cell binds to a value
    that decodes to it. *)

From Stdlib Require Import SpecFloat.
From S2P Require Import Prelude RustStr Utf8 RustNum ErrorModel Options Config Sql Stream Client Arrow Decode DecodeFacts Calendar Bind.

Open Scope Z_scope.

(** ** Digits *)

Definition all_digits (s : rstr) : Prop := Forall (fun c => 48 <= c < 58)%N s.

Lemma is_digit_range c : is_ascii_digit c = true <-> (48 <= c < 58)%N.
Proof. unfold is_ascii_digit. rewrite bool_decide_eq_true. lia. Qed.

Lemma show_N_all_digits n : all_digits (show_N n).
Proof. eapply Forall_impl; [apply show_N_digits|]. intros c. apply is_digit_range. Qed.

Lemma scan_digits_val acc s : scan_digits acc s = digits_val acc s.
Proof.
  revert acc. induction s as [|c s IH]; intros acc; [done|]. cbn [scan_digits digits_val]. unfold digit_val.
  destruct (is_ascii_digit c) eqn:E.
  - apply is_digit_range in E. rewrite decide_True by done. cbn. apply IH.
  - rewrite decide_False; [done|]. intros H%is_digit_range. congruence.
Qed.

Lemma digits_val_mono s acc n : 0 <= acc -> digits_val acc s = Some n -> acc <= n.
Proof.
  intros Ha. rewrite <- scan_digits_val. revert acc Ha. induction s as [|c s IH]; intros acc Ha; cbn; [intros [= <-]; lia|].
  case_decide; [|done]. intros Hn%IH; lia.
Qed.

(** With room for the result, no digit overflows. *)
Lemma int_digits_val s acc n :
  0 <= acc -> digits_val acc s = Some n -> n <= i128_max -> int_digits acc s = Some n.
Proof.
  rewrite <- scan_digits_val. revert acc. induction s as [|c s IH]; intros acc Ha; cbn; [done|].
  case_decide; [|done]. intros Hs Hn.
  assert (acc * 10 + (Z.of_N c - 48) <= n) by (apply (digits_val_mono s); [lia|by rewrite <- scan_digits_val]).
  unfold checked_i128. rewrite decide_True by (unfold i128_max in *; lia). cbn.
  rewrite decide_True by (unfold i128_max in *; lia). cbn. apply IH; [lia|done|done].
Qed.

Lemma show_digits_length f n k :
  (n < 10 ^ Z.to_N k)%N -> 1 <= k -> Z.of_nat (length (show_digits f n)) <= k.
Proof.
  revert n k. induction f as [|f IH]; intros n k Hn Hk; cbn [show_digits]; [cbn; lia|].
  case_decide as Hd; [cbn; lia|]. rewrite length_app. cbn [length].
  assert (2 <= k).
  { destruct (decide (k = 1)) as [->|]; [|lia]. cbn in Hn. lia. }
  assert (n / 10 < 10 ^ Z.to_N (k - 1))%N.
  { apply N.Div0.div_lt_upper_bound. rewrite <- N.pow_succ_r'. by replace (N.succ (Z.to_N (k - 1))) with (Z.to_N k) by lia. }
  specialize (IH (n / 10)%N (k - 1)). lia.
Qed.

Lemma show_N_length n (w : nat) : 0 <= n < 10 ^ Z.of_nat w -> (1 <= w)%nat -> (length (show_N (Z.to_N n)) <= w)%nat.
Proof.
  intros Hn Hw. enough (Z.of_nat (length (show_N (Z.to_N n))) <= Z.of_nat w) by lia.
  apply show_digits_length; [|lia].
  apply N2Z.inj_lt. rewrite N2Z.inj_pow, !Z2N.id by lia. change (Z.of_N 10) with 10. lia.
Qed.

Lemma digits_val_zeros k s : digits_val 0 (replicate k cZERO ++ s) = digits_val 0 s.
Proof. induction k as [|k IH]; [done|]. exact IH. Qed.

(** A padded number: its width, its digits, its value. *)
Lemma pad_spec w n :
  0 <= n < 10 ^ Z.of_nat w -> (1 <= w)%nat ->
  length (pad w n) = w /\ all_digits (pad w n) /\ scan_digits 0 (pad w n) = Some n.
Proof.
  intros Hn Hw. unfold pad. pose proof (show_N_length n w Hn Hw). split_and!.
  - rewrite length_app, length_replicate. lia.
  - apply Forall_app. split; [|apply show_N_all_digits]. apply Forall_replicate. lia.
  - rewrite scan_digits_val, digits_val_zeros, show_N_val. by rewrite Z2N.id by lia.
Qed.

(** ** Decimals *)

Lemma digits_ascii s : all_digits s -> Forall (fun c => c < 0x80)%N s.
Proof. intros H. eapply Forall_impl; [exact H|]. cbn. lia. Qed.

Lemma digits_no s c : all_digits s -> (c < 48 \/ 58 <= c)%N -> c ∉ s.
Proof. intros H Hc Hin. unfold all_digits in H. rewrite Forall_forall in H. specialize (H c Hin). cbn in H. lia. Qed.

Lemma position_app c a b : c ∉ a -> position c (a ++ c :: b) = Some (length a).
Proof.
  induction a as [|d a IH]; cbn; intros H; [by rewrite decide_True|].
  rewrite decide_False by set_solver. by rewrite IH by set_solver.
Qed.

Lemma position_None c a : c ∉ a -> position c a = None.
Proof. induction a as [|d a IH]; cbn; intros H; [done|]. rewrite decide_False by set_solver. by rewrite IH by set_solver. Qed.

(** The scanner on a sign, an integer part and a fraction. *)
Lemma parse_numeric_text (neg : bool) ip fp q r :
  all_digits ip -> ip <> [] -> all_digits fp -> (1 <= length fp <= 9)%nat ->
  scan_digits 0 ip = Some q -> scan_digits 0 fp = Some r ->
  let u := q * 1000000000 + r * 10 ^ (9 - Z.of_nat (length fp)) in
  u <= i128_max ->
  parse_numeric_i128 ((if neg then [cDASH] else []) ++ ip ++ cDOT :: fp) = Some (if neg then - u else u).
Proof.
  intros Hip Hne Hfp Hlen Hq Hr u Hu.
  assert (0 <= q) by by eapply scan_digits_nonneg; [|exact Hq].
  assert (0 <= r) by by eapply scan_digits_nonneg; [|exact Hr].
  assert (0 < 10 ^ (9 - Z.of_nat (length fp))) by (apply Z.pow_pos_nonneg; lia).
  unfold parse_numeric_i128. rewrite as_bytes_ascii.
  2: { apply Forall_app; split; [by destruct neg; repeat constructor|]. apply Forall_app.
       split; [by apply digits_ascii|]. constructor; [done|by apply digits_ascii]. }
  assert (match (if neg then [cDASH] else []) ++ ip ++ cDOT :: fp with
    | [] => (false, [])
    | d :: rest => if decide (d = cDASH) then (true, rest) else (false, (if neg then [cDASH] else []) ++ ip ++ cDOT :: fp)
    end = (neg, ip ++ cDOT :: fp)) as ->.
  { destruct neg; cbn; [done|]. destruct ip as [|c ip]; [done|]. cbn. rewrite decide_False; [done|].
    intros ->. by apply Forall_cons in Hip as [[Hc _] _]. }
  rewrite position_app by (apply digits_no; [done|by left]).
  rewrite decide_True by (rewrite length_app; cbn; lia). rewrite take_app_length. cbn [mbind option_bind].
  replace (length ip + 1)%nat with (length (ip ++ [cDOT])) by (rewrite length_app; done).
  change (ip ++ cDOT :: fp) with (ip ++ [cDOT] ++ fp). rewrite app_assoc, drop_app_length.
  rewrite decide_False by (intros [?|?]; [done|unfold NUMERIC_SCALE in *; lia]).
  rewrite (int_digits_val ip 0 q); [|lia|by rewrite <- scan_digits_val|nia]. cbn [mbind option_bind]. rewrite Hr.
  cbn [mbind option_bind]. unfold checked_i128, NUMERIC_SCALE. rewrite decide_True by (unfold i128_max in *; nia).
  cbn [mbind option_bind]. rewrite decide_True by (unfold i128_max in *; nia). done.
Qed.

Lemma parse_numeric_int (neg : bool) ip q :
  all_digits ip -> ip <> [] -> scan_digits 0 ip = Some q -> q * 1000000000 <= i128_max ->
  parse_numeric_i128 ((if neg then [cDASH] else []) ++ ip) = Some (if neg then - (q * 1000000000) else q * 1000000000).
Proof.
  intros Hip Hne Hq Hu. assert (0 <= q) by by eapply scan_digits_nonneg; [|exact Hq].
  unfold parse_numeric_i128. rewrite as_bytes_ascii.
  2: { apply Forall_app; split; [by destruct neg; repeat constructor|by apply digits_ascii]. }
  assert (match (if neg then [cDASH] else []) ++ ip with
    | [] => (false, [])
    | d :: rest => if decide (d = cDASH) then (true, rest) else (false, (if neg then [cDASH] else []) ++ ip)
    end = (neg, ip)) as ->.
  { destruct neg; cbn; [done|]. destruct ip as [|c ip]; [done|]. cbn. rewrite decide_False; [done|].
    intros ->. by apply Forall_cons in Hip as [[Hc _] _]. }
  rewrite position_None by (apply digits_no; [done|by left]). cbn [mbind option_bind].
  rewrite decide_False by (intros [?|?]; [done|unfold NUMERIC_SCALE in *; cbn in *; lia]).
  rewrite (int_digits_val ip 0 q); [|lia|by rewrite <- scan_digits_val|nia]. cbn [mbind option_bind scan_digits length].
  unfold checked_i128, NUMERIC_SCALE. rewrite decide_True by (unfold i128_max in *; nia).
  cbn [mbind option_bind]. rewrite Z.mul_0_l, Z.add_0_r. rewrite decide_True by (unfold i128_max in *; nia). done.
Qed.

(** A decimal at scale at most nine reads back at scale nine. *)
Lemma numeric_round_trip z s :
  0 <= s <= 9 -> Z.abs z * 10 ^ (9 - s) <= i128_max ->
  parse_numeric_i128 (numeric_string z s) = Some (z * 10 ^ (9 - s)).
Proof.
  intros Hs Hz. unfold numeric_string. case_decide as H0.
  - subst s. change (10 ^ (9 - 0)) with 1000000000 in *. unfold show_Z.
    assert (show_N (Z.to_N (Z.abs z)) <> []) by apply show_N_nonnil.
    assert (scan_digits 0 (show_N (Z.to_N (Z.abs z))) = Some (Z.abs z)) as Hv
      by (rewrite scan_digits_val, show_N_val, Z2N.id by lia; done).
    case_decide.
    + pose proof (parse_numeric_int true _ _ (show_N_all_digits (Z.to_N (Z.abs z))) H Hv Hz) as Hp.
      cbn [app] in Hp. replace (Z.to_N (- z)) with (Z.to_N (Z.abs z)) by lia. rewrite Hp. f_equal. lia.
    + pose proof (parse_numeric_int false _ _ (show_N_all_digits (Z.to_N (Z.abs z))) H Hv Hz) as Hp.
      cbn [app] in Hp. replace (Z.to_N z) with (Z.to_N (Z.abs z)) by lia. rewrite Hp. f_equal. lia.
  - set (m := Z.abs z). set (p := 10 ^ s). assert (0 < p) by (apply Z.pow_pos_nonneg; lia).
    pose proof (Z.mod_pos_bound m p ltac:(lia)) as Hm. pose proof (Z.div_mod m p ltac:(lia)) as Hdm.
    assert (0 <= m / p) by (apply Z.div_pos; lia).
    destruct (pad_spec (Z.to_nat s) (m mod p)) as (Hl & Hd & Hv); [rewrite Z2Nat.id by lia; done|lia|].
    assert (p * 10 ^ (9 - s) = 1000000000) as Hp9
      by (unfold p; rewrite <- Z.pow_add_r by lia; by replace (s + (9 - s)) with 9 by lia).
    assert ((m / p) * 1000000000 + m mod p * 10 ^ (9 - s) = m * 10 ^ (9 - s)) as Hu.
    { rewrite <- Hp9. rewrite Hdm at 3. lia. }
    pose proof (parse_numeric_text (bool_decide (z < 0)) (show_N (Z.to_N (m / p))) (pad (Z.to_nat s) (m mod p))
      (m / p) (m mod p)) as Ht.
    rewrite Hl, Z2Nat.id in Ht by lia. cbn zeta in Ht. rewrite Hu in Ht.
    assert ((if decide (z < 0) then [cDASH] else []) = (if bool_decide (z < 0) then [cDASH] else [])) as ->
      by (case_bool_decide; case_decide; done).
    rewrite Ht; [| apply show_N_all_digits | apply show_N_nonnil | done | lia
                 | by rewrite scan_digits_val, show_N_val, Z2N.id by lia | done | done].
    f_equal. unfold m. case_bool_decide; lia.
Qed.

(** ** Dates and timestamps *)

Lemma digit_at_ok b i c : b !! i = Some c -> (48 <= c < 58)%N -> digit_at b i = Some (Z.of_N c - 48).
Proof.
  intros H Hc. unfold digit_at, byte_at. rewrite (nth_lookup_Some _ _ _ _ H). by rewrite decide_True.
Qed.

(** Read the digits of a text whose characters are known. *)
Ltac read_digits :=
  repeat match goal with |- context [digit_at ?b ?i] =>
    erewrite (digit_at_ok b i); [|reflexivity|eassumption] end.

(** A two-digit field. *)
Lemma pad2 n : 0 <= n < 100 ->
  exists a b, pad 2 n = [a; b] /\ (48 <= a < 58)%N /\ (48 <= b < 58)%N /\
    (Z.of_N a - 48) * 10 + (Z.of_N b - 48) = n.
Proof.
  intros Hn. destruct (pad_spec 2 n) as (Hl & Hd & Hv); [done|lia|].
  destruct (pad 2 n) as [|a [|b [|]]]; try done.
  apply Forall_cons in Hd as [Ha Hd]. apply Forall_cons in Hd as [Hb _]. exists a, b.
  cbn [scan_digits] in Hv. rewrite !decide_True in Hv by done. injection Hv as Hv. split_and!; try done; lia.
Qed.

Lemma pad4 n : 0 <= n < 10000 ->
  exists a b c d, pad 4 n = [a; b; c; d] /\ (48 <= a < 58)%N /\ (48 <= b < 58)%N /\ (48 <= c < 58)%N /\
    (48 <= d < 58)%N /\
    (Z.of_N a - 48) * 1000 + (Z.of_N b - 48) * 100 + (Z.of_N c - 48) * 10 + (Z.of_N d - 48) = n.
Proof.
  intros Hn. destruct (pad_spec 4 n) as (Hl & Hd & Hv); [done|lia|].
  destruct (pad 4 n) as [|a [|b [|c [|d [|]]]]]; try done.
  apply Forall_cons in Hd as [Ha Hd]. apply Forall_cons in Hd as [Hb Hd].
  apply Forall_cons in Hd as [Hc Hd]. apply Forall_cons in Hd as [Hdd _]. exists a, b, c, d.
  cbn [scan_digits] in Hv. rewrite !decide_True in Hv by done. injection Hv as Hv. split_and!; try done; lia.
Qed.

Section Texts.
Context {CH : Chrono} {CL : ChronoLaws CH}.

Lemma parse_ymd_text y m d date :
  0 <= y <= 9999 -> 1 <= m <= 12 -> 1 <= d <= 31 -> from_ymd_opt y m d = Some date ->
  parse_date_days (ymd_text y m d) = Some (num_days_from_ce date - 719163).
Proof.
  intros Hy Hm Hd Hf. unfold ymd_text.
  destruct (pad4 y) as (y1 & y2 & y3 & y4 & -> & ? & ? & ? & ? & Hy'); [lia|].
  destruct (pad2 m) as (m1 & m2 & -> & ? & ? & Hm'); [lia|].
  destruct (pad2 d) as (d1 & d2 & -> & ? & ? & Hd'); [lia|]. cbn [app].
  unfold parse_date_days. rewrite as_bytes_ascii by (repeat constructor; cbn; lia).
  rewrite decide_False by (cbn; lia || (intros [?|[?|?]]; done)).
  read_digits. cbn [mbind option_bind].
  rewrite Hm', Hd', Hy', Hf. done.
Qed.

Lemma date_round_trip name days :
  first_day <= days + 719163 <= last_day ->
  exists s, date_string name days = Ok s /\ parse_date_days s = Some days.
Proof.
  intros Hr. unfold date_string. destruct (epoch_total days Hr) as [date Hd]. rewrite Hd. cbn.
  pose proof (epoch_days days date Hd) as Hn.
  destruct (format_ymd_text date) as (y & m & d & ? & ? & ? & Hf & ->); [by rewrite Hn|].
  eexists. split; [done|]. rewrite (parse_ymd_text y m d date) by done. f_equal. lia.
Qed.

(** The scanner on the fixed part and any fraction. *)
Lemma scan_fraction_text pre f nanos :
  length pre = 19%nat -> 0 <= nanos < 1000000000 ->
  match f with
  | Secs => nanos = 0
  | Millis => nanos mod 1000000 = 0
  | Micros => nanos mod 1000 = 0
  | Nanos => True
  end ->
  scan_fraction (pre ++ fraction_text f nanos ++ [90%N]) = Some nanos.
Proof.
  intros Hl Hn Hf.
  assert (forall w x k, (1 <= w <= 9)%nat -> 0 <= x < 10 ^ Z.of_nat w -> nanos = x * k ->
    k = 10 ^ (9 - Z.of_nat w) -> scan_fraction (pre ++ (cDOT :: pad w x) ++ [90%N]) = Some nanos) as Hdot.
  { intros w x k Hw Hx Hnx Hk. destruct (pad_spec w x Hx) as (Hpl & _ & Hv); [lia|].
    unfold scan_fraction, byte_at.
    assert (length (pre ++ (cDOT :: pad w x) ++ [90%N]) = (21 + w)%nat) as Hlen
      by (rewrite !length_app; cbn; rewrite Hl, Hpl; lia).
    rewrite Hlen, app_nth2, Hl by lia. replace (19 - 19)%nat with 0%nat by lia. cbn [nth app].
    rewrite decide_False by (intros [? _]; done). rewrite decide_True by (split; [done|lia]).
    replace (pre ++ cDOT :: pad w x ++ [90%N]) with ((pre ++ [cDOT]) ++ pad w x ++ [90%N]) by (by rewrite <- app_assoc).
    assert (length (pre ++ [cDOT]) = 20%nat) as H20 by (rewrite length_app, Hl; done).
    assert (drop 20 ((pre ++ [cDOT]) ++ pad w x ++ [90%N]) = pad w x ++ [90%N]) as ->
      by (rewrite <- H20; apply drop_app_length).
    replace (21 + w - 1 - 20)%nat with (length (pad w x)) by lia. rewrite take_app_length.
    rewrite (app_assoc (pre ++ [cDOT])), app_nth2 by (rewrite length_app; lia).
    replace (21 + w - 1 - length ((pre ++ [cDOT]) ++ pad w x))%nat with 0%nat by (rewrite length_app; lia).
    cbn [nth]. rewrite Hpl. rewrite decide_False.
    - rewrite Hv. cbn [mbind option_bind]. by rewrite <- Hk, Hnx.
    - intros [?|[Hnil|?]]; [done| |lia]. rewrite Hnil in Hpl. cbn in Hpl. lia. }
  destruct f; cbn [fraction_text].
  - subst nanos. unfold scan_fraction, byte_at. rewrite decide_True; [done|].
    cbn [app]. rewrite app_nth2 by lia. rewrite length_app, Hl. done.
  - apply (Hdot 3%nat (nanos / 1000000) 1000000); [lia| |pose proof (Z.div_mod nanos 1000000 ltac:(lia)); lia|done].
    split; [apply Z.div_pos; lia|]. apply Z.div_lt_upper_bound; cbn; lia.
  - apply (Hdot 6%nat (nanos / 1000) 1000); [lia| |pose proof (Z.div_mod nanos 1000 ltac:(lia)); lia|done].
    split; [apply Z.div_pos; lia|]. apply Z.div_lt_upper_bound; cbn; lia.
  - apply (Hdot 9%nat nanos 1); [lia| |lia|done]. cbn. lia.
Qed.

Lemma digits_char_ascii c : (48 <= c < 58)%N -> (c < 0x80)%N.
Proof. lia. Qed.

Lemma scan_rfc3339_text y m d h mi s date frac nanos dt :
  0 <= y <= 9999 -> 1 <= m <= 12 -> 1 <= d <= 31 -> 0 <= h < 24 -> 0 <= mi < 60 -> 0 <= s < 60 ->
  Forall (fun c => c < 0x80)%N frac ->
  (forall pre, length pre = 19%nat -> scan_fraction (pre ++ frac ++ [90%N]) = Some nanos) ->
  from_ymd_opt y m d = Some date -> and_hms_nano_opt date h mi s nanos = Some dt ->
  scan_timestamp_utc (ymd_text y m d ++ 84%N :: hms_text h mi s ++ frac ++ [90%N]) = Some dt.
Proof.
  intros Hy Hm Hd Hh Hmi Hs Hasc Hfrac Hf Hdt. unfold ymd_text, hms_text.
  destruct (pad4 y) as (y1 & y2 & y3 & y4 & -> & ? & ? & ? & ? & Hy'); [lia|].
  destruct (pad2 m) as (m1 & m2 & -> & ? & ? & Hm'); [lia|].
  destruct (pad2 d) as (d1 & d2 & -> & ? & ? & Hd'); [lia|].
  destruct (pad2 h) as (h1 & h2 & -> & ? & ? & Hh'); [lia|].
  destruct (pad2 mi) as (i1 & i2 & -> & ? & ? & Hmi'); [lia|].
  destruct (pad2 s) as (s1 & s2 & -> & ? & ? & Hs'); [lia|].
  set (pre := [y1; y2; y3; y4; cDASH; m1; m2; cDASH; d1; d2; 84%N; h1; h2; cCOLON; i1; i2; cCOLON; s1; s2]).
  change (([y1; y2; y3; y4] ++ cDASH :: [m1; m2] ++ cDASH :: [d1; d2]) ++
    84%N :: ([h1; h2] ++ cCOLON :: [i1; i2] ++ cCOLON :: [s1; s2]) ++ frac ++ [90%N]) with (pre ++ frac ++ [90%N]).
  specialize (Hfrac pre eq_refl). unfold scan_timestamp_utc. rewrite as_bytes_ascii.
  2: { apply Forall_app; split; [|apply Forall_app; split; [done|by repeat constructor]].
       repeat (apply Forall_cons; split; [by auto using digits_char_ascii|]). constructor. }
  rewrite decide_False.
  2: { rewrite !length_app. cbn. intros [?|?]; [lia|]. naive_solver. }
  rewrite Hfrac. generalize (frac ++ [90%N]) as tl. intros tl. subst pre. unfold two_digits. cbn [app Nat.add].
  read_digits. cbn [mbind option_bind]. rewrite Hm', Hd', Hh', Hmi', Hs'.
  replace (((Z.of_N y1 - 48) * 10 + (Z.of_N y2 - 48)) * 100 + ((Z.of_N y3 - 48) * 10 + (Z.of_N y4 - 48))) with y by lia.
  by rewrite Hf.
Qed.

Lemma fraction_ascii f n : 0 <= n < 1000000000 -> Forall (fun c => c < 0x80)%N (fraction_text f n).
Proof.
  intros Hn. assert (forall w x, Forall (fun c => c < 0x80)%N (cDOT :: pad w x)) as H.
  { intros w x. constructor; [done|]. unfold pad. apply Forall_app. split.
    - by apply Forall_replicate.
    - apply digits_ascii, show_N_all_digits. }
  destruct f; cbn [fraction_text]; [constructor|apply H..].
Qed.

(** The text of an instant scans back to its seconds and nanoseconds. *)
Lemma rfc3339_round_trip dt f :
  0 <= timestamp_subsec_nanos dt < 1000000000 ->
  match f with
  | Secs => timestamp_subsec_nanos dt = 0
  | Millis => timestamp_subsec_nanos dt mod 1000000 = 0
  | Micros => timestamp_subsec_nanos dt mod 1000 = 0
  | Nanos => True
  end ->
  (first_day - 719163) * 86400 <= timestamp dt < (last_day + 1 - 719163) * 86400 ->
  exists dt', scan_timestamp_utc (to_rfc3339_opts dt f) = Some dt' /\
    timestamp dt' = timestamp dt /\ timestamp_subsec_nanos dt' = timestamp_subsec_nanos dt.
Proof.
  intros Hn Hf Ht. destruct (rfc3339_text dt f Hn Ht) as (y & m & d & h & mi & s & date & ? & ? & ? & ? & ? & ? & Hy & Hts & Hall & ->).
  destruct (Hall _ Hn) as [dt' Hdt']. exists dt'. split.
  - eapply scan_rfc3339_text; try done; [by apply fraction_ascii|]. intros pre Hpre. by apply scan_fraction_text.
  - destruct (hms_instant _ _ _ _ _ _ Hdt' Hn) as (_ & _ & _ & Ht' & Hn'). by rewrite Ht', Hn', Hts.
Qed.

Definition unit_nanos (u : TimeUnit) : Z :=
  match u with USecond => 1000000000 | UMillisecond => 1000000 | UMicrosecond => 1000 | UNanosecond => 1 end.

Lemma timestamp_round_trip name u z :
  is_i64 (z * unit_nanos u) = true ->
  exists s, timestamp_string name u z = Ok s /\ parse_timestamp_nanos s = Some (z * unit_nanos u).
Proof.
  intros Hz. pose proof Hz as Hr. apply bool_decide_eq_true in Hr. unfold i64_min, i64_max in Hr.
  assert (exists secs nanos f, 0 <= nanos < 1000000000 /\ secs * 1000000000 + nanos = z * unit_nanos u /\
    timestamp_string name u z = (ts ← ok_or (from_timestamp secs nanos)
      (invalid_argument [Lit "cannot bind TIMESTAMP parameter "; Dbg name; Lit ": "; DispZ z;
                         Lit " ("; unit_name u; Lit ") is out of range"]); Ok (to_rfc3339_opts ts f)) /\
    match f with Secs => nanos = 0 | Millis => nanos mod 1000000 = 0 | Micros => nanos mod 1000 = 0 | Nanos => True end)
    as (secs & nanos & f & Hn & Hsum & -> & Hf).
  { destruct u; cbn [timestamp_string unit_nanos] in *.
    - exists z, 0, Secs. split_and!; [lia..|done|done].
    - exists (z / 1000), (z mod 1000 * 1000000), Millis.
      pose proof (Z.div_mod z 1000 ltac:(lia)). pose proof (Z.mod_pos_bound z 1000 ltac:(lia)).
      split_and!; [lia..|done|]. apply Z.mod_mul. lia.
    - exists (z / 1000000), (z mod 1000000 * 1000), Micros.
      pose proof (Z.div_mod z 1000000 ltac:(lia)). pose proof (Z.mod_pos_bound z 1000000 ltac:(lia)).
      split_and!; [lia..|done|]. apply Z.mod_mul. lia.
    - exists (z / 1000000000), (z mod 1000000000), Nanos.
      pose proof (Z.div_mod z 1000000000 ltac:(lia)). pose proof (Z.mod_pos_bound z 1000000000 ltac:(lia)).
      split_and!; [lia..|done|done]. }
  assert ((first_day - 719163) * 86400 <= secs < (last_day + 1 - 719163) * 86400) as Hs
    by (unfold first_day, last_day; lia).
  destruct (from_timestamp_total secs nanos Hs Hn) as [dt Hdt]. rewrite Hdt. cbn.
  destruct (from_timestamp_instant _ _ _ Hdt Hn) as [Ht Hsub]. eexists. split; [done|].
  destruct (rfc3339_round_trip dt f) as (dt' & Hscan & Ht' & Hn'); [by rewrite Hsub|by rewrite Hsub|by rewrite Ht|].
  unfold parse_timestamp_nanos. rewrite Hscan. cbn. unfold timestamp_nanos_opt.
  rewrite Ht', Hn', Ht, Hsub, Hsum, Hz. done.
Qed.

End Texts.

(** ** What is bound reads back *)

(** What the client documents of its encodings: integers travel as decimal text,
    finite floats as numbers, the others by name, bytes as base64. *)
Class WireLaws `{W : Wire} (CO : Codec) : Prop := {
  i64_text z : value_of_i64 z = VString (show_Z z);
  f64_number x : f64_is_finite x = true -> value_of_f64 x = VNumber x;
  f64_nan : value_of_f64 S754_nan = VString (str "NaN");
  f64_infinity neg :
    value_of_f64 (S754_infinity neg) = VString (if neg : bool then str "-Infinity" else str "Infinity");
  bytes_text b : exists s, value_of_bytes b = VString s /\ base64_decode s = Some b;
}.

(** The result type of a column created for an Arrow type. *)
Fixpoint read_type (dt : DataType) : DataType :=
  match dt with
  | DInt8 | DInt16 | DInt32 | DInt64 | DUInt8 | DUInt16 | DUInt32 => DInt64
  | DFloat64 => DFloat64
  | DBoolean => DBoolean
  | DUtf8 | DLargeUtf8 | DUtf8View => DUtf8
  | DBinary | DLargeBinary | DBinaryView | DFixedSizeBinary _ => DBinary
  | DDate32 | DDate64 => DDate32
  | DTimestamp _ _ => DTimestamp UNanosecond (Some TIMESTAMP_TZ)
  | DDecimal128 _ _ => DDecimal128 NUMERIC_PRECISION NUMERIC_SCALE
  | DList (mkField n d b m) | DLargeList (mkField n d b m) => DList (mkField LIST_ITEM (read_type d) true m)
  | DDictionary _ v => read_type v
  | dt => dt
  end.

(** The scalar cells Spanner and the nanosecond mode can represent. *)
Definition scalar_storable (dt : DataType) (c : Cell) : Prop :=
  match dt, c with
  | DUInt64, _ | DFloat16, _ | DFloat32, _ | DList _, _ | DLargeList _, _ | DStruct _, _ | DDictionary _ _, _
  | DUnion _, _ | DOther _, _ => False
  | DDecimal128 _ s, CNull => 0 <= s <= 9
  | _, CNull => True
  | DDate32, CInt z => first_day <= z + 719163 <= last_day
  | DDate64, CInt z => first_day <= z / 86400000 + 719163 <= last_day
  | DTimestamp u _, CInt z => is_i64 (z * unit_nanos u) = true
  | DDecimal128 _ s, CInt z => 0 <= s <= 9 /\ Z.abs z * 10 ^ (9 - s) <= i128_max
  | (DInt8 | DInt16 | DInt32 | DInt64 | DUInt8 | DUInt16 | DUInt32), CInt z => is_i64 z = true
  | DFloat64, CFloat x => True
  | DBoolean, CBool _ => True
  | (DUtf8 | DLargeUtf8 | DUtf8View), CStr _ => True
  | (DBinary | DLargeBinary | DBinaryView | DFixedSizeBinary _), CBytes _ => True
  | _, _ => False
  end.

Definition scalar_read (dt : DataType) (c : Cell) : Cell :=
  match dt, c with
  | DDate64, CInt z => CInt (z / 86400000)
  | DTimestamp u _, CInt z => CInt (z * unit_nanos u)
  | DDecimal128 _ s, CInt z => CInt (z * 10 ^ (9 - s))
  | _, c => c
  end.


Section RoundTrip.
Context {CH : Chrono} {CL : ChronoLaws CH} {CO : Codec} `{W : Wire} {WL : WireLaws CO}.

Lemma present_string s : present (Some (VString s)) = Some (VString s).
Proof. done. Qed.

(** Bind one cell of a scalar type. *)
Definition bind_scalar (dt : DataType) (name : rstr) (c : Cell) : Result Value :=
  match scalar_binder dt with Some bind => bind name c | None => Err ill_typed end.

Lemma null_reads dt : decode_cell dt (Some VNull) = Ok CNull.
Proof. by destruct dt. Qed.

Lemma int_reads z : is_i64 z = true ->
  exists v, Ok (value_of_i64 z) = Ok v /\ decode_cell DInt64 (Some v) = Ok (CInt z).
Proof.
  intros Hz. eexists. split; [done|]. rewrite i64_text. cbn [decode_cell present decode_leaf].
  unfold parse_int64. cbn [try_as_string mbind option_bind]. by rewrite parse_show_i64.
Qed.

Lemma float_reads x : exists v, Ok (value_of_f64 x) = Ok v /\ decode_cell DFloat64 (Some v) = Ok (CFloat x).
Proof.
  eexists. split; [done|]. destruct x as [neg|neg| |neg m e].
  - by rewrite f64_number.
  - rewrite f64_infinity. by destruct neg.
  - by rewrite f64_nan.
  - by rewrite f64_number.
Qed.

Lemma bytes_reads b : exists v, Ok (value_of_bytes b) = Ok v /\ decode_cell DBinary (Some v) = Ok (CBytes b).
Proof.
  eexists. split; [done|]. destruct (bytes_text b) as (s & -> & Hd). cbn. unfold append_bytes. cbn. by rewrite Hd.
Qed.

(** One scalar: the binder succeeds, and the decoder gives the cell back. *)
Lemma scalar_round_trip dt name c :
  scalar_storable dt c ->
  exists v, bind_scalar dt name c = Ok v /\ decode_cell (read_type dt) (Some v) = Ok (scalar_read dt c).
Proof.
  intros Hc. unfold bind_scalar. destruct dt; cbn [scalar_binder]; destruct c; try done;
    cbn [primitive_int primitive_float text_cell bytes_cell try_scalar_value int_cell read_type scalar_read];
    try (exists VNull; split; [done|apply null_reads]); try (by apply int_reads);
    try apply float_reads; try apply bytes_reads; try (by eexists).
  - cbn in Hc. destruct (date_round_trip name z Hc) as (s & Hd & Hp). rewrite Hd. eexists. split; [done|].
    cbn. by rewrite Hp.
  - cbn in Hc. unfold date64_days. rewrite decide_True by (unfold first_day, last_day in Hc; lia).
    destruct (date_round_trip name _ Hc) as (s & Hd & Hp). cbn. rewrite Hd. eexists. split; [done|].
    cbn. by rewrite Hp.
  - cbn in Hc. destruct (timestamp_round_trip name unit z Hc) as (s & Hd & Hp). rewrite Hd. eexists.
    split; [done|]. cbn. unfold append_nanos. cbn. by rewrite Hp.
  - cbn in Hc. unfold numeric_scale. rewrite decide_True by lia. exists VNull. by split.
  - cbn in Hc. destruct Hc as [Hs Hc]. unfold numeric_scale. rewrite decide_True by lia. eexists. split; [done|].
    cbn. by rewrite numeric_round_trip.
Qed.

Lemma bind_scalar_binder dt name c v :
  bind_scalar dt name c = Ok v -> exists bind, scalar_binder dt = Some bind.
Proof. unfold bind_scalar. destruct (scalar_binder dt); [by eexists|done]. Qed.

Lemma scalar_cell_value name field dt c :
  is_leaf dt = true ->
  cell_value name field dt c =
  (bind ← ok_or (scalar_binder dt) (unsupported_type "cannot bind parameter " name ": unsupported Arrow type");
   value ← bind name c; Ok (value, scalar_type field)).
Proof. by destruct dt. Qed.

Lemma list_round_trip name item cells :
  scalar_storable (f_type item) CNull -> Forall (scalar_storable (f_type item)) cells ->
  exists vs t, list_cell_value name item (Some cells) = Ok (VList vs, t) /\
    try_map (fun v => decode_cell (read_type (f_type item)) (Some v)) vs = Ok (map (scalar_read (f_type item)) cells).
Proof.
  intros H0 H. destruct (scalar_round_trip _ name _ H0) as (v0 & Hb & _).
  destruct (bind_scalar_binder _ _ _ _ Hb) as [bind Hbind]. unfold list_cell_value. rewrite Hbind.
  assert (exists vs, try_map (bind name) cells = Ok vs /\
    try_map (fun v => decode_cell (read_type (f_type item)) (Some v)) vs = Ok (map (scalar_read (f_type item)) cells))
    as (vs & Hvs & Hd).
  { induction H as [|c cells Hc _ (vs & IH1 & IH2)]; [by exists []|].
    destruct (scalar_round_trip _ name _ Hc) as (v & Hv & Hd). unfold bind_scalar in Hv. rewrite Hbind in Hv.
    exists (v :: vs). cbn [try_map map]. rewrite Hv, IH1, Hd, IH2. by split. }
  cbn. rewrite Hvs. cbn. by do 2 eexists.
Qed.

Lemma null_list_value name item :
  scalar_storable (f_type item) CNull -> exists t, list_cell_value name item None = Ok (VNull, t).
Proof.
  intros H0. destruct (scalar_round_trip _ name _ H0) as (v0 & Hb & _).
  destruct (bind_scalar_binder _ _ _ _ Hb) as [bind Hbind]. unfold list_cell_value. rewrite Hbind. by eexists.
Qed.

(** A cell of any bindable type, and how it reads. *)
Fixpoint storable (dt : DataType) (c : Cell) : Prop :=
  match dt with
  | DList item | DLargeList item =>
      scalar_storable (f_type item) CNull /\
      match c with CNull => True | CList l => Forall (scalar_storable (f_type item)) l | _ => False end
  | DDictionary _ value =>
      match c with
      | CNull => match value with
                 | DList item | DLargeList item => scalar_storable (f_type item) CNull
                 | _ => scalar_storable value CNull
                 end
      | CDict c => storable value c
      | _ => False
      end
  | dt => scalar_storable dt c
  end.

Fixpoint read_cell (dt : DataType) (c : Cell) : Cell :=
  match dt, c with
  | (DList item | DLargeList item), CList l => CList (map (scalar_read (f_type item)) l)
  | DDictionary _ value, CDict c => read_cell value c
  | dt, c => scalar_read dt c
  end.

(** One cell, bound and read. *)
Lemma cell_round_trip (name : rstr) (field : Field) (dt : DataType) (c : Cell) :
  storable dt c ->
  exists v t, cell_value name field dt c = Ok (v, t) /\
    decode_cell (read_type dt) (Some v) = Ok (read_cell dt c).
Proof.
  assert (forall dt c, is_leaf dt = true -> scalar_storable dt c -> exists v t, cell_value name field dt c = Ok (v, t) /\
    decode_cell (read_type dt) (Some v) = Ok (scalar_read dt c)) as Hleaf.
  { intros d x Hl (v & Hb & Hd)%(scalar_round_trip _ name). rewrite scalar_cell_value by done.
    unfold bind_scalar in Hb. destruct (scalar_binder d); [|done]. cbn. rewrite Hb. cbn. by do 2 eexists. }
  assert (forall item c, scalar_storable (f_type item) CNull /\
      match c with CNull => True | CList l => Forall (scalar_storable (f_type item)) l | _ => False end ->
    exists v t, cell_value name field (DList item) c = Ok (v, t) /\ cell_value name field (DLargeList item) c = Ok (v, t) /\
      decode_cell (read_type (DList item)) (Some v) = Ok (read_cell (DList item) c)) as Hlist.
  { intros item x [H0 Hx]. destruct x; try done; cbn [cell_value read_cell].
    - destruct (null_list_value name item H0) as [t ->]. exists VNull, t. split_and!; [done..|]. apply null_reads.
    - destruct (list_round_trip name item l H0 Hx) as (vs & t & -> & Hd). exists (VList vs), t. split_and!; [done..|].
      destruct item as [n d b m]. cbn [read_type decode_cell present]. cbn [f_type] in Hd.
      rewrite (try_map_ext _ (fun v => decode_cell (read_type d) (Some v))) by done. by rewrite Hd. }
  revert c. induction dt using DataType_deep_ind; intros c Hc.
  - replace (read_cell dt c) with (scalar_read dt c) by by destruct dt. apply Hleaf; [done|]. by destruct dt.
  - destruct (Hlist f c Hc) as (v & t & H1 & _ & H2). by exists v, t.
  - destruct (Hlist f c Hc) as (v & t & _ & H1 & H2). exists v, t. split; [done|]. by destruct f, c.
  - done.
  - destruct c; try done; cbn [cell_value read_cell read_type storable] in *; [|by apply IHdt2].
    exists VNull. unfold null_dictionary_value.
    assert (decode_cell (read_type dt2) (Some VNull) = Ok (scalar_read (DDictionary dt1 dt2) CNull)) as Hn
      by apply null_reads.
    destruct dt2; try done; try (destruct (null_list_value name item Hc) as [t ->]; by exists t);
      cbn; try (eexists; split; [done|exact Hn]).
  - done.
Qed.

(** C19: what is bound reads back.  Every cell Spanner can represent, of every
    scalar type but the unsigned 64-bit integers and the 16- and 32-bit floats, of
    lists of them and of dictionaries of either (not lists of dictionaries), binds
    without an error as a parameter and as an ingest value, and the value sent, read
    back as a column of the type the field reads as ([read_type]; [IngestExact] shows
    it is that of the column created for it), decodes to the same cell: nulls stay nulls at both levels, integers widen, dates in
    milliseconds become days, timestamps become the same instant in nanoseconds
    and decimals the same number at scale nine. *)
Theorem bind_read_round_trip (name : rstr) (field : Field) (dt : DataType) (c : Cell) :
  storable dt c ->
  exists v t, cell_value name field dt c = Ok (v, t) /\
    decode_cell (read_type dt) (Some v) = Ok (read_cell dt c).
Proof. apply cell_round_trip. Qed.

End RoundTrip.

(** ** A concrete client *)

Definition example_wire : Wire (SC := example_client) := {|
  value_of_i64 z := VString (show_Z z);
  value_of_f64 x :=
    match x with
    | S754_nan => VString (str "NaN")
    | S754_infinity true => VString (str "-Infinity")
    | S754_infinity false => VString (str "Infinity")
    | x => VNumber x
    end;
  value_of_bytes b := VString b;
  json_ty := (str "JSON" : SpType (SpannerClient := example_client));
  array_ty t := (str "ARRAY<" ++ t ++ str ">" : rstr);
  param_of v t := (match v with VString s => s | _ => [] end : rstr);
  mutation_insert table cells := (table : rstr) |}.

#[export] Instance example_wire_laws : WireLaws (W := example_wire) example_codec.
Proof.
  split.
  - done.
  - by intros [].
  - done.
  - by intros [].
  - intros b. by exists b.
Qed.

Lemma bind_read_round_trip_witness :
  exists v t,
    cell_value (CH := Gregorian) (W := example_wire) (str "p") (Field_new (str "p") DNull true)
      (DList (Field_new (str "item") (DDecimal128 10 2) true)) (CList [CInt (-150); CNull]) = Ok (v, t) /\
    decode_cell (CH := Gregorian) (CO := example_codec) (DList (mkField LIST_ITEM (DDecimal128 38 9) true [])) (Some v) =
      Ok (CList [CInt (-1500000000); CNull]).
Proof.
  apply (bind_read_round_trip (CH := Gregorian) (CL := Gregorian_laws) (CO := example_codec) (W := example_wire)
    (WL := example_wire_laws) (str "p") (Field_new (str "p") DNull true)
    (DList (Field_new (str "item") (DDecimal128 10 2) true)) (CList [CInt (-150); CNull])).
  cbn. split; [lia|]. constructor; [|constructor; [cbn; lia|constructor]].
  split; [lia|]. vm_compute. discriminate.
Defined.

Close Scope Z_scope.
