(* ===== verification/DdlFacts.v ===== *)
(** * Properties of bound names and of the ingest's [CREATE TABLE]

    The statement an ingest creates its table with is one DDL statement whatever
    the names in it; the types it accepts are those whose cells can be bound; and
    the parameters bound columns go to. *)

From S2P Require Import Prelude RustStr RustNum ErrorModel Options Config Sql SqlLex SqlFacts Stream Client Arrow Decode Calendar Bind DecodeFacts BindFacts.

(** The words and characters the driver writes around the caller's names. *)
Definition DDL_WORDS : list rstr :=
  [str "CREATE"; str "TABLE"; str "IF"; str "NOT"; str "EXISTS"; str "INT64"; str "FLOAT32"; str "FLOAT64";
   str "BOOL"; str "STRING"; str "BYTES"; str "MAX"; str "DATE"; str "TIMESTAMP"; str "NUMERIC"; str "JSON";
   str "ARRAY"].

Definition DDL_CHARS : rstr := str " ().,<>".

(** Nothing but the driver's own words, its punctuation and quoted names. *)
Definition ddl_lexeme (x : Lexeme) : Prop :=
  match x with
  | Word w => w ∈ DDL_WORDS
  | Other c => c ∈ DDL_CHARS
  | Quoted _ => True
  | Comment _ => False
  end.

#[export] Instance ddl_lexeme_dec x : Decision (ddl_lexeme x).
Proof. destruct x; apply _. Defined.

(** A text that lexes on its own whatever follows, into such lexemes. *)
Definition ddl_text (t : rstr) : Prop := closed t /\ Forall ddl_lexeme (lexemes t).

Lemma ddl_app a b : ddl_text a -> ddl_text b -> ddl_text (a ++ b).
Proof.
  intros [Ha Fa] [Hb Fb]. split; [by apply closed_app|]. rewrite Ha. by apply Forall_app.
Qed.

(** A fixed text that ends in punctuation. *)
Definition ends_closed (t : rstr) : bool :=
  match last (lexemes t) with
  | Some (Other c) => bool_decide (separator c) && bool_decide (Forall ddl_lexeme (lexemes t))
  | _ => false
  end.

Lemma ends_closed_ddl t : ends_closed t = true -> ddl_text t.
Proof.
  unfold ends_closed. destruct (last (lexemes t)) as [x|] eqn:E; [|done]. destruct x as [| | |c]; try done.
  intros [Hs%bool_decide_eq_true Hf%bool_decide_eq_true]%andb_true_iff. split; [|done].
  apply last_Some in E as [ls E]. eapply closed_last; [exact E|]. intros s. by apply separator_scan.
Qed.

(** A type's text, once the punctuation after it is there. *)
Definition type_text (t : rstr) : Prop := forall c, c ∈ [cCOMMA; 41%N; 62%N] -> ddl_text (t ++ [c]).

Lemma type_text_fixed t :
  ends_closed (t ++ [cCOMMA]) && ends_closed (t ++ [41%N]) && ends_closed (t ++ [62%N]) = true -> type_text t.
Proof.
  intros [[H1 H2]%andb_true_iff H3]%andb_true_iff c Hc.
  repeat (apply elem_of_cons in Hc as [->|Hc]; [by apply ends_closed_ddl|]). by apply elem_of_nil in Hc.
Qed.

Lemma type_text_array t : type_text t -> type_text (str "ARRAY<" ++ t ++ str ">").
Proof.
  intros Ht c Hc. replace ((str "ARRAY<" ++ t ++ str ">") ++ [c]) with (str "ARRAY<" ++ (t ++ [62%N]) ++ [c])
    by (rewrite <- !app_assoc; done).
  apply ddl_app; [by apply ends_closed_ddl; vm_compute|]. apply ddl_app; [apply Ht; set_solver|].
  apply ends_closed_ddl. repeat (apply elem_of_cons in Hc as [->|Hc]; [vm_compute; reflexivity|]).
  by apply elem_of_nil in Hc.
Qed.

Lemma spanner_column_type_text dt t : spanner_column_type dt = Ok t -> type_text t.
Proof.
  revert t. induction dt using DataType_deep_ind; intros t Ht.
  - destruct dt; try done; cbn in Ht; injection Ht as <-; apply type_text_fixed; vm_compute; reflexivity.
  - destruct f as [n d b m]. cbn in Ht. inv_bind Ht. injection Ht as <-. by apply type_text_array, IHdt.
  - destruct f as [n d b m]. cbn in Ht. inv_bind Ht. injection Ht as <-. by apply type_text_array, IHdt.
  - done.
  - by apply IHdt2.
  - done.
Qed.

Lemma spanner_field_type_text f t : spanner_field_type f = Ok t -> type_text t.
Proof.
  destruct f as [n dt b m]. revert n b m t. induction dt using DataType_deep_ind; intros n b m t Ht;
    cbn [spanner_field_type] in Ht; (destruct (is_json_field _); [injection Ht as <-; apply type_text_fixed; vm_compute; reflexivity|]).
  - apply (spanner_column_type_text dt). by destruct dt.
  - destruct f as [n' d b' m']. inv_bind Ht. injection Ht as <-. cbn [f_type] in IHdt. by eapply type_text_array, IHdt.
  - destruct f as [n' d b' m']. inv_bind Ht. injection Ht as <-. cbn [f_type] in IHdt. by eapply type_text_array, IHdt.
  - done.
  - by eapply (spanner_column_type_text (DDictionary dt1 dt2)).
  - done.
Qed.

Lemma quoted_ddl ident q : quote_ident ident = Ok q -> ddl_text q.
Proof. intros [H1 H2]%quote_ident_closed. split; [done|]. rewrite H1. by constructor. Qed.

Lemma column_sql_text f t : column_sql f = Ok t -> type_text t.
Proof.
  unfold column_sql, res_map_err. intros H. inv_bind H. destruct (spanner_field_type f) eqn:Et; simplify_eq.
  intros c Hc. replace ((a0 ++ cSPACE :: a) ++ [c]) with (a0 ++ [cSPACE] ++ (a ++ [c])) by (by rewrite <- app_assoc).
  apply ddl_app; [by eapply quoted_ddl|]. apply ddl_app; [apply ends_closed_ddl; vm_compute; reflexivity|].
  by eapply spanner_field_type_text.
Qed.

Lemma columns_text cols : Forall type_text cols -> ddl_text (join (str ", ") cols ++ str ")").
Proof.
  induction 1 as [|t cols Ht Hcols IH]; [apply ends_closed_ddl; vm_compute; reflexivity|].
  destruct cols as [|u cols]; [apply Ht; set_solver|].
  change (join (str ", ") (t :: u :: cols)) with (t ++ str ", " ++ join (str ", ") (u :: cols)).
  replace ((t ++ str ", " ++ join (str ", ") (u :: cols)) ++ str ")") with
    ((t ++ [cCOMMA]) ++ [cSPACE] ++ (join (str ", ") (u :: cols) ++ str ")")) by (by rewrite <- !app_assoc).
  apply ddl_app; [apply Ht; set_solver|]. apply ddl_app; [apply ends_closed_ddl; vm_compute; reflexivity|done].
Qed.

Lemma qualified_ddl db_schema table q : qualified_table db_schema table = Ok q -> ddl_text q.
Proof.
  intros (Hc & _ & H)%qualified_table_closed. split; [done|]. eapply Forall_impl; [exact H|].
  intros x [->|[t ->]]; [|done]. cbn. repeat constructor.
Qed.

(** C20: the [CREATE TABLE] of an ingest is one DDL statement and nothing else.
    Whatever the table, schema and column names, the text the driver builds, when
    it builds one, is a single statement for its own splitter, is classified as
    DDL, and lexes into the driver's own keywords and punctuation and quoted
    names: no name can end its quotes, open a comment or add a statement. *)
Theorem create_table_one_statement (table : rstr) (db_schema : option rstr) (schema : list Field) (ine : bool) (sql : rstr) :
  create_table_sql table db_schema schema ine = Ok sql ->
  split_statements sql = [sql] /\ is_ddl sql = true /\ is_dml sql = false /\ Forall ddl_lexeme (lexemes sql).
Proof.
  unfold create_table_sql. intros H. inv_bind H. apply Ok_inj in H. subst sql.
  set (body := (if ine then str "IF NOT EXISTS " else []) ++ a0 ++ str " (" ++ join (str ", ") a ++ str ")").
  assert (ddl_text body) as Hbody.
  { apply ddl_app.
    { destruct ine; [apply ends_closed_ddl; vm_compute; reflexivity|split; [apply closed_nil|constructor]]. }
    apply ddl_app; [by eapply qualified_ddl|]. apply ddl_app; [apply ends_closed_ddl; vm_compute; reflexivity|].
    apply columns_text. apply try_map_Ok_Forall2 in E. eapply Forall2_Forall_r; [exact E|].
    apply Forall_true. intros f t. apply column_sql_text. }
  assert (ddl_text (str "CREATE TABLE ")) as Hpre by (apply ends_closed_ddl; vm_compute; reflexivity).
  pose proof (ddl_app _ _ Hpre Hbody) as [_ Hall]. destruct Hpre as [Hc _].
  assert (lexemes (str "CREATE TABLE " ++ body) =
    [Word (str "CREATE"); Other cSPACE; Word (str "TABLE"); Other cSPACE] ++ lexemes body) as Hlex
    by (rewrite Hc; reflexivity).
  assert (first_keyword (str "CREATE TABLE " ++ body) = Some (str "CREATE")) as Hk.
  { unfold first_keyword, significant_lexemes. by rewrite Hlex. }
  assert (trim (str "CREATE TABLE " ++ body) = str "CREATE TABLE " ++ body) as Htrim.
  { apply clean_trim. split; intros (c & Hh & Hw).
    - injection Hh as <-. by vm_compute in Hw.
    - unfold body in Hh. rewrite !app_assoc in Hh. change (str ")") with [41%N] in Hh. rewrite last_snoc in Hh.
      injection Hh as <-. by vm_compute in Hw. }
  assert (Other cSEMI ∉ lexemes (str "CREATE TABLE " ++ body)) as Hsemi.
  { rewrite Forall_forall in Hall. intros Hin%Hall. cbn in Hin. revert Hin. by apply (bool_decide_eq_false_1 _). }
  set (sql := str "CREATE TABLE " ++ body) in *. clearbody sql.
  split; [|split; [|split]].
  - rewrite (split_no_semi _ Hsemi). rewrite Htrim, Hlex. done.
  - unfold is_ddl, keyword_in. by rewrite Hk.
  - unfold is_dml, keyword_in. by rewrite Hk.
  - done.
Qed.

Lemma create_table_one_statement_witness :
  exists sql,
    create_table_sql (str "t; DROP TABLE u") None
      [Field_new (str "a -- b") DInt64 true; Field_new (str "c") (DList (Field_new (str "item") DUtf8 true)) true] true = Ok sql /\
    split_statements sql = [sql] /\ is_ddl sql = true /\ is_dml sql = false /\ Forall ddl_lexeme (lexemes sql).
Proof.
  eexists. split; [vm_compute; reflexivity|].
  apply (create_table_one_statement (str "t; DROP TABLE u") None
    [Field_new (str "a -- b") DInt64 true; Field_new (str "c") (DList (Field_new (str "item") DUtf8 true)) true] true).
  vm_compute. reflexivity.
Defined.

(** ** Created columns and bound rows *)

Section Rows.
Context {CH : Chrono} `{W : Wire}.

(** A list of dictionary-encoded values passes the table creation and fails on
    every row.  A [List] column whose elements are dictionary-encoded has a column
    type whenever the dictionary's values have one, so an ingest in a creating
    mode builds its [CREATE TABLE]; but no cell of such a column, not even a null
    one, can be bound: each is refused as an unsupported element type, while the
    same dictionary outside a list binds as its values. *)
Theorem list_of_dictionary_created_not_bound (name n : rstr) (item_name : rstr) (key value : DataType)
    (nullable inull : bool) (t : rstr) :
  spanner_column_type value = Ok t ->
  let item := mkField item_name (DDictionary key value) inull [] in
  let field := mkField n (DList item) nullable [] in
  spanner_field_type field = Ok (str "ARRAY<" ++ t ++ str ">") /\
  (forall c, cell_ok (DList item) c = true ->
     cell_value name field (DList item) c =
       Err (unsupported_type "cannot bind ARRAY parameter " name ": unsupported element type")) /\
  (forall c, cell_value name item (DDictionary key value) (CDict c) = cell_value name item value c).
Proof.
  intros Ht item field. split; [|split].
  - unfold field, item. assert (forall n dt b, is_json_field (mkField n dt b []) = false) as Hj
      by (intros; unfold is_json_field; cbn; by rewrite andb_false_r).
    cbn [spanner_field_type]. rewrite !Hj. cbn [spanner_column_type]. by rewrite Ht.
  - intros [] Hc; done.
  - done.
Qed.

End Rows.

(** ** Parameter names *)

Lemma find_param_Some params column p :
  find_param params column = Some p -> p ∈ params /\ to_ascii_lowercase p = to_ascii_lowercase column.
Proof.
  intros [Hin H]%find_some. split; [by apply list_elem_of_In|]. by apply bool_decide_eq_true in H.
Qed.

Lemma resolve_by_name_Ok params columns bound names :
  resolve_by_name params columns bound = Ok names ->
  Forall2 (fun p c => p ∈ params /\ to_ascii_lowercase p = to_ascii_lowercase c) names columns /\
  NoDup (map to_ascii_lowercase names) /\
  Forall (fun p => to_ascii_lowercase p ∉ bound) names.
Proof.
  revert bound names. induction columns as [|c columns IH]; intros bound names H; cbn in H.
  - injection H as <-. split_and!; constructor.
  - destruct (find_param params c) as [p|] eqn:Ep; [|done]. case_decide; [done|]. inv_bind H. injection H as <-.
    apply find_param_Some in Ep. destruct (IH _ _ E) as (IH1 & IH2 & IH3). split_and!.
    + by constructor.
    + cbn. constructor; [|done]. rewrite list_elem_of_fmap. intros (q & Hq & Hin).
      rewrite Forall_forall in IH3. apply (IH3 q Hin). rewrite Hq. left.
    + constructor; [done|]. eapply Forall_impl; [exact IH3|]. cbn. intros x Hx Hb. apply Hx. by right.
Qed.

(** The bound names, when there are some, and why there are none. *)
Lemma resolve_by_name_Err params columns bound e :
  resolve_by_name params columns bound = Err e ->
  status e = InvalidArguments /\
  ((exists c, c ∈ columns /\ find_param params c = None) \/
   (exists c p, c ∈ columns /\ find_param params c = Some p /\
      (to_ascii_lowercase c ∈ bound \/ ~ NoDup (map to_ascii_lowercase columns)))).
Proof.
  revert bound. induction columns as [|c columns IH]; intros bound H; cbn in H; [done|].
  destruct (find_param params c) as [p|] eqn:Ep.
  2: { injection H as <-. split; [done|]. left. exists c. split; [left|done]. }
  pose proof (find_param_Some _ _ _ Ep) as [_ Hpc]. rewrite Hpc in H. case_decide as Hd.
  { injection H as <-. split; [done|]. right. exists c, p. split; [left|]. split; [done|]. by left. }
  destruct (resolve_by_name params columns _) eqn:Er; cbn in H; simplify_eq.
  destruct (IH _ Er) as [He Hwhy]. split; [done|]. destruct Hwhy as [(d & Hd' & Hn)|(d & q & Hd' & Hq & Hb)].
  - left. exists d. split; [by right|done].
  - right. exists d, q. split; [by right|]. split; [done|]. destruct Hb as [Hb|Hb].
    + apply elem_of_cons in Hb as [Hb|Hb]; [|by left]. right. cbn. rewrite NoDup_cons. intros [Hnin _]. apply Hnin.
      rewrite <- Hb. by apply list_elem_of_fmap_2.
    + right. cbn. rewrite NoDup_cons. intros [_ ?]. done.
Qed.

(** Each bound column goes to one parameter of the query.  When the pairing
    succeeds there is one name per column, every name is a parameter the query
    really has, spelled as the query spells it, and no two columns go to the same
    parameter; by name, each is its column's name up to case, and by position they
    are all the query's parameters in order.  When it fails, the error is an
    invalid argument, and for the stated reason: a column that names no parameter,
    two columns that name the same one, or a count that differs. *)
Theorem parameters_paired (sql : rstr) (batch : Batch) (by_name : bool) :
  let columns := map f_name (b_fields batch) in
  let params := named_parameters sql in
  match resolve_parameter_names sql batch by_name with
  | Ok names =>
      length names = length columns /\ Forall (fun p => p ∈ params) names /\
      NoDup (map to_ascii_lowercase names) /\
      (if by_name then Forall2 (fun p c => to_ascii_lowercase p = to_ascii_lowercase c) names columns
       else names = params)
  | Err e =>
      status e = InvalidArguments /\
      (if by_name then (exists c, c ∈ columns /\ find_param params c = None) \/
                       ~ NoDup (map to_ascii_lowercase columns)
       else length params <> length columns)
  end.
Proof.
  cbn zeta. unfold resolve_parameter_names. set (columns := map f_name _). set (params := named_parameters sql).
  destruct by_name.
  - destruct (resolve_by_name params columns []) as [names|e] eqn:E.
    + destruct (resolve_by_name_Ok _ _ _ _ E) as (H2 & Hd & _). split_and!.
      * by eapply Forall2_length.
      * eapply Forall2_Forall_l; [exact H2|]. apply Forall_true. by intros c p [].
      * done.
      * eapply Forall2_impl; [exact H2|]. by intros p c [].
    + destruct (resolve_by_name_Err _ _ _ _ E) as [Hs [H|(c & p & Hc & Hp & [Hb|Hb])]]; (split; [done|]).
      * by left.
      * by apply elem_of_nil in Hb.
      * by right.
  - case_decide as Hl; [by split|]. destruct (named_parameters_distinct sql) as [Hd _]. split_and!.
    + lia.
    + apply Forall_forall. done.
    + done.
    + done.
Qed.

Lemma list_of_dictionary_created_not_bound_witness :
  let item := mkField (str "item") (DDictionary DInt32 DUtf8) true [] in
  let field := mkField (str "tags") (DList item) true [] in
  spanner_field_type field = Ok (str "ARRAY<STRING(MAX)>") /\
  cell_value (CH := Gregorian) (W := example_wire) (str "tags") field (DList item) CNull =
    Err (unsupported_type "cannot bind ARRAY parameter " (str "tags") ": unsupported element type").
Proof.
  destruct (list_of_dictionary_created_not_bound (CH := Gregorian) (W := example_wire) (str "tags") (str "tags")
    (str "item") DInt32 DUtf8 true true (str "STRING(MAX)") eq_refl) as (H1 & H2 & _).
  split; [exact H1|exact (H2 CNull eq_refl)].
Defined.
