(* ===== verification/Nested.v ===== *)
(** * [src/nested.rs]: nested metadata results

    The helpers that [get_objects], [get_statistics] and [get_info] assemble their
    results with: finding the parts of a result schema, regrouping a flattened
    child array into lists by their lengths, and dense unions.  Arrow's validating
    constructors are modelled by what they check: a child per field, of its type,
    of one length, and without nulls where the field has none. *)

From S2P Require Import Prelude RustStr RustNum ErrorModel Config Stream Arrow Decode DecodeFacts.

Definition nested_arrow_err (what : String.string) : Error :=
  err [Lit "failed to build metadata result batch: "; Lit what] Internal.

Definition shape_err (expected : list frag) : Error :=
  err (Lit "unexpected ADBC result schema shape: expected " :: expected) Internal.

Definition field (fields : list Field) (name : String.string) : Result Field :=
  ok_or (List.find (fun f => bool_decide (f_name f = str name)) fields)
    (shape_err [Lit "field `"; Lit name; Lit "`"]).

Definition list_item (list_field : Field) : Result Field :=
  match f_type list_field with
  | DList item => Ok item
  | _ => Err (shape_err [Lit "`"; Disp (f_name list_field); Lit "` to be a list"])
  end.

Definition struct_fields (struct_field : Field) : Result (list Field) :=
  match f_type struct_field with
  | DStruct fs => Ok fs
  | _ => Err (shape_err [Lit "`"; Disp (f_name struct_field); Lit "` to be a struct"])
  end.

(** ** Arrow's constructors *)

Definition is_null (c : Cell) : bool := match c with CNull => true | _ => false end.

Definition no_nulls (cells : list Cell) : bool := forallb (fun c => negb (is_null c)) cells.

(** A child of type, length and nullability as its field says. *)
Definition column_fits (n : nat) (f : Field) (a : Array) : bool :=
  dt_eqb (a_type a) (f_type f) && bool_decide (length (a_cells a) = n) && (f_nullable f || no_nulls (a_cells a)).

Fixpoint columns_fit (n : nat) (fields : list Field) (arrays : list Array) : bool :=
  match fields, arrays with
  | [], [] => true
  | f :: fields, a :: arrays => column_fits n f a && columns_fit n fields arrays
  | _, _ => false
  end.

(** The length of the first column; there is one. *)
Definition common_length (arrays : list Array) : nat :=
  match arrays with a :: _ => length (a_cells a) | [] => 0 end.

Definition StructArray_try_new (fields : list Field) (arrays : list Array) : Result Array :=
  let n := common_length arrays in
  if decide (arrays <> []) then
    if columns_fit n fields arrays then
      Ok (mkArray (DStruct fields) (struct_cells (replicate n true) (map a_cells arrays)))
    else Err (nested_arrow_err "struct columns")
  else Err (nested_arrow_err "struct without columns").

Definition ListArray_try_new (item : Field) (offsets : list Z) (child : Array) (nulls : option (list bool)) :
    Result Array :=
  let n := length offsets - 1 in
  let validity := default (replicate n true) nulls in
  if decide (length validity = n /\ (List.last offsets 0 <= Z.of_nat (length (a_cells child)))%Z) then
    if dt_eqb (a_type child) (f_type item) && (f_nullable item || no_nulls (a_cells child)) then
      Ok (mkArray (DList item) (list_cells offsets validity (a_cells child)))
    else Err (nested_arrow_err "list child")
  else Err (nested_arrow_err "list offsets").

Definition RecordBatch_try_new (schema : list Field) (columns : list Array) : Result Batch :=
  let n := common_length columns in
  if decide (columns <> []) then
    if columns_fit n schema columns then Ok (mkBatch schema columns n)
    else Err (nested_arrow_err "batch columns")
  else Err (nested_arrow_err "batch without columns").

Definition new_null_array (dt : DataType) (n : nat) : Array := mkArray dt (replicate n CNull).
Definition new_empty_array (dt : DataType) : Array := mkArray dt [].

(** [StringArray::from_iter_values] and the like. *)
Definition utf8_array (l : list rstr) : Array := mkArray DUtf8 (map CStr l).
Definition opt_utf8_array (l : list (option rstr)) : Array :=
  mkArray DUtf8 (map (from_option CStr CNull) l).

(** ** Lists *)

Definition list_offset_error : Error :=
  err [Lit "metadata result list exceeds the i32 offset range"] Internal.

(** [i32::try_from(len)] and [checked_add]. *)
Fixpoint list_offsets (lengths : list nat) (acc : Z) : Result (list Z) :=
  match lengths with
  | [] => Ok []
  | len :: lengths =>
      if decide (Z.of_nat len <= 2 ^ 31 - 1 /\ acc + Z.of_nat len <= 2 ^ 31 - 1)%Z then
        rest ← list_offsets lengths (acc + Z.of_nat len); Ok ((acc + Z.of_nat len)%Z :: rest)
      else Err list_offset_error
  end.

Definition list_of_nullable (item : Field) (lengths : list nat) (child : Array) (nulls : option (list bool)) :
    Result Array :=
  offsets ← list_offsets lengths 0;
  ListArray_try_new item (0%Z :: offsets) child nulls.

Definition list_of (item : Field) (lengths : list nat) (child : Array) : Result Array :=
  list_of_nullable item lengths child None.

(** ** Dense unions *)

Definition union_children (fields : list (Z * Field)) (populated : list (Z * Array)) : list (Z * Array) :=
  map (fun '(id, f) =>
         (id, match List.find (fun '(pid, _) => bool_decide (pid = id)) populated with
              | Some (_, arr) => arr
              | None => new_empty_array (f_type f)
              end)) fields.

Definition branch (children : list (Z * Array)) (id : Z) : option Array :=
  snd <$> List.find (fun '(cid, _) => bool_decide (cid = id)) children.

(** [UnionArray::try_new]: every type id is a branch's, every offset within it,
    every child of its field's type and nullability. *)
Definition UnionArray_try_new (fields : list (Z * Field)) (type_ids offsets : list Z)
    (children : list (Z * Array)) : Result Array :=
  if forallb (fun '((_, f), (_, a)) => dt_eqb (a_type a) (f_type f)) (zip fields children) &&
     bool_decide (length type_ids = length offsets) &&
     forallb (fun '(id, off) => match branch children id with
                                | Some a => bool_decide (0 <= off < Z.of_nat (length (a_cells a)))%Z
                                | None => false
                                end) (zip type_ids offsets)
  then
    Ok (mkArray (DUnion fields)
          (zip_with (fun id off => CUnion id (default CNull (branch children id ≫= fun a => a_cells a !! Z.to_nat off)))
             type_ids offsets))
  else Err (nested_arrow_err "union children").

Definition dense_union (fields : list (Z * Field)) (populated : list (Z * Array)) (type_ids offsets : list Z) :
    Result Array :=
  UnionArray_try_new fields type_ids offsets (union_children fields populated).

(** ** Facts *)

Lemma columns_fit_Forall2 n fields arrays :
  columns_fit n fields arrays = true <-> Forall2 (fun f a => column_fits n f a = true) fields arrays.
Proof.
  revert arrays. induction fields as [|f fields IH]; intros [|a arrays]; cbn.
  - split; [constructor|done].
  - split; [done|]. intros H. inversion H.
  - split; [done|]. intros H. inversion H.
  - rewrite andb_true_iff, IH. split; [intros []; by constructor|]. intros H. by inversion H.
Qed.

(** A column computed from the rows, and what its field wants of it. *)
Definition column_of {X} (xs : list X) (tg : DataType * (X -> Cell)) : Array := mkArray (fst tg) (map (snd tg) xs).

Definition column_spec {X} (xs : list X) (f : Field) (tg : DataType * (X -> Cell)) : Prop :=
  fst tg = f_type f /\ (f_nullable f = true \/ forall x, x ∈ xs -> snd tg x <> CNull).

Lemma no_nulls_map {X} (g : X -> Cell) xs : (forall x, x ∈ xs -> g x <> CNull) -> no_nulls (map g xs) = true.
Proof.
  intros H. unfold no_nulls. apply forallb_forall. intros c (x & <- & Hx)%in_map_iff.
  apply list_elem_of_In in Hx. specialize (H x Hx). by destruct (g x).
Qed.

Lemma column_of_fits {X} (xs : list X) f tg : column_spec xs f tg -> column_fits (length xs) f (column_of xs tg) = true.
Proof.
  intros [Ht Hn]. unfold column_fits, column_of. cbn. rewrite Ht, dt_eqb_refl, length_map, bool_decide_eq_true_2 by done.
  cbn. destruct Hn as [->|Hn]; [done|]. rewrite no_nulls_map by done. by destruct (f_nullable f).
Qed.

Lemma columns_of_fit {X} (xs : list X) fields cols :
  Forall2 (column_spec xs) fields cols -> columns_fit (length xs) fields (map (column_of xs) cols) = true.
Proof.
  intros H. apply columns_fit_Forall2, Forall2_fmap_r. eapply Forall2_impl; [exact H|]. intros f tg. apply column_of_fits.
Qed.

Lemma common_length_columns {X} (xs : list X) cols :
  cols <> [] -> common_length (map (column_of xs) cols) = length xs.
Proof. destruct cols; [done|]. intros _. cbn. by rewrite length_map. Qed.

(** A struct array built from columns over the same rows has a struct per row. *)
Lemma struct_rows {X} (fields : list Field) (xs : list X) (cols : list (DataType * (X -> Cell))) :
  cols <> [] -> Forall2 (column_spec xs) fields cols ->
  StructArray_try_new fields (map (column_of xs) cols) =
  Ok (mkArray (DStruct fields) (map (fun x => CStruct (map (fun tg => snd tg x) cols)) xs)).
Proof.
  intros Hne H. unfold StructArray_try_new. rewrite common_length_columns by done.
  rewrite decide_True by (by destruct cols). rewrite columns_of_fit by done. do 2 f_equal.
  apply list_eq. intros i. unfold struct_cells. rewrite list_lookup_imap, !list_lookup_fmap.
  destruct (xs !! i) as [x|] eqn:Hx.
  - rewrite lookup_replicate_2 by (by eapply lookup_lt_Some). cbn. do 2 f_equal.
    rewrite map_map, map_map. apply map_ext. intros tg. cbn. by rewrite list_lookup_fmap, Hx.
  - apply lookup_ge_None in Hx. by rewrite lookup_ge_None_2 by (by rewrite length_replicate).
Qed.

Lemma batch_rows {X} (fields : list Field) (xs : list X) (cols : list (DataType * (X -> Cell))) :
  cols <> [] -> Forall2 (column_spec xs) fields cols ->
  RecordBatch_try_new fields (map (column_of xs) cols) = Ok (mkBatch fields (map (column_of xs) cols) (length xs)).
Proof.
  intros Hne H. unfold RecordBatch_try_new. rewrite common_length_columns by done.
  rewrite decide_True by (by destruct cols). by rewrite columns_of_fit.
Qed.

Definition i32_max : Z := (2 ^ 31 - 1)%Z.

Lemma list_offsets_fit lengths acc :
  (Z.of_nat (acc + list_sum lengths) <= i32_max)%Z -> list_offsets lengths (Z.of_nat acc) = Ok (running acc lengths).
Proof.
  revert acc. induction lengths as [|n lengths IH]; intros acc H; [done|]. cbn [list_offsets running].
  change (list_sum (n :: lengths)) with (n + list_sum lengths) in H. unfold i32_max in *.
  rewrite decide_True by lia. rewrite <- Nat2Z.inj_add, IH by lia. done.
Qed.

Lemma running_last acc lengths : List.last (Z.of_nat acc :: running acc lengths) 0%Z = Z.of_nat (acc + list_sum lengths).
Proof.
  revert acc. induction lengths as [|n lengths IH]; intros acc; cbn [running]; [cbn; f_equal; lia|].
  change (List.last (Z.of_nat acc :: Z.of_nat (acc + n) :: running (acc + n) lengths) 0%Z)
    with (List.last (Z.of_nat (acc + n) :: running (acc + n) lengths) 0%Z). rewrite IH. f_equal. change (list_sum (n :: lengths)) with (n + list_sum lengths). lia.
Qed.

Lemma running_length acc lengths : length (running acc lengths) = length lengths.
Proof. revert acc. induction lengths; intros; cbn; [done|]. by rewrite IHlengths. Qed.

Lemma sum_lengths {A} (chunks : list (list A)) : list_sum (map length chunks) = length (concat chunks).
Proof.
  induction chunks as [|c chunks IH]; [done|]. cbn [map concat]. rewrite length_app, <- IH. done.
Qed.

(** Regrouping a flattened child by the lengths of its parts gives the parts back,
    as long as an offset can count the elements. *)
Lemma list_of_nullable_exact item (chunks : list (list Cell)) (nulls : option (list bool)) :
  (Z.of_nat (length (concat chunks)) <= i32_max)%Z ->
  (forall v, nulls = Some v -> length v = length chunks) ->
  (f_nullable item = true \/ no_nulls (concat chunks) = true) ->
  list_of_nullable item (map length chunks) (mkArray (f_type item) (concat chunks)) nulls =
  Ok (mkArray (DList item) (zip_with list_cell (default (replicate (length chunks) true) nulls) chunks)).
Proof.
  intros Hfit Hv Hn. unfold list_of_nullable.
  pose proof (list_offsets_fit (map length chunks) 0) as Ho. change (Z.of_nat 0) with 0%Z in Ho.
  rewrite Ho by (cbn [Nat.add]; by rewrite sum_lengths). clear Ho.
  unfold mbind, Result_mbind, ListArray_try_new. cbn [a_cells a_type].
  assert (length (0%Z :: running 0 (map length chunks)) - 1 = length chunks) as ->
    by (cbn; rewrite running_length, length_map; lia).
  assert (length (default (replicate (length chunks) true) nulls) = length chunks) as Hlen
    by (destruct nulls; cbn; [by apply Hv|apply length_replicate]).
  rewrite decide_True.
  2: { split; [done|]. pose proof (running_last 0 (map length chunks)) as Hl.
       change (Z.of_nat 0) with 0%Z in Hl. rewrite Hl. rewrite sum_lengths. lia. }
  rewrite dt_eqb_refl. replace (f_nullable item || no_nulls (concat chunks)) with true
    by (destruct Hn as [-> | ->]; by rewrite ?orb_true_r). cbn [andb]. do 2 f_equal.
  pose proof (list_cells_spec chunks (default (replicate (length chunks) true) nulls) []) as Hs.
  cbn [length app] in Hs. change (Z.of_nat 0) with 0%Z in Hs. by rewrite Hs.
Qed.

Lemma list_of_exact item (chunks : list (list Cell)) :
  (Z.of_nat (length (concat chunks)) <= i32_max)%Z ->
  (f_nullable item = true \/ no_nulls (concat chunks) = true) ->
  list_of item (map length chunks) (mkArray (f_type item) (concat chunks)) =
  Ok (mkArray (DList item) (map CList chunks)).
Proof.
  intros Hfit Hn. unfold list_of. rewrite list_of_nullable_exact by done. do 2 f_equal.
  cbn. clear. induction chunks as [|c chunks IH]; cbn; [done|]. by rewrite IH.
Qed.

(** ** Lists over objects *)

(** The cells of a flattened child, regrouped by its parents. *)
Lemma list_of_children {X Y} item (parents : list X) (children : X -> list Y) (cell : Y -> Cell) :
  (Z.of_nat (length (concat (map children parents))) <= i32_max)%Z -> f_nullable item = true ->
  list_of item (map (fun p => length (children p)) parents)
    (mkArray (f_type item) (map cell (concat (map children parents)))) =
  Ok (mkArray (DList item) (map (fun p => CList (map cell (children p))) parents)).
Proof.
  intros Hfit Hn.
  assert (map (fun p => length (children p)) parents = map length (map (fun p => map cell (children p)) parents)) as ->
    by (rewrite map_map; apply map_ext; intros; by rewrite length_map).
  assert (map cell (concat (map children parents)) = concat (map (fun p => map cell (children p)) parents)) as Hc
    by (by rewrite concat_map, map_map).
  rewrite Hc, list_of_exact; [by rewrite map_map| |by left]. rewrite <- Hc, length_map. done.
Qed.

Lemma list_of_nullable_children {X Y} item (parents : list X) (children : X -> list Y) (cell : Y -> Cell)
    (valid : X -> bool) :
  (Z.of_nat (length (concat (map children parents))) <= i32_max)%Z -> f_nullable item = true ->
  list_of_nullable item (map (fun p => length (children p)) parents)
    (mkArray (f_type item) (map cell (concat (map children parents)))) (Some (map valid parents)) =
  Ok (mkArray (DList item)
        (map (fun p => if valid p then CList (map cell (children p)) else CNull) parents)).
Proof.
  intros Hfit Hn.
  assert (map (fun p => length (children p)) parents = map length (map (fun p => map cell (children p)) parents)) as ->
    by (rewrite map_map; apply map_ext; intros; by rewrite length_map).
  assert (map cell (concat (map children parents)) = concat (map (fun p => map cell (children p)) parents)) as Hc
    by (by rewrite concat_map, map_map).
  rewrite Hc, list_of_nullable_exact; [|by rewrite <- Hc, length_map| |by left].
  - do 2 f_equal. change (default _ (Some ?v)) with v. clear. induction parents as [|p ps IH]; cbn; [done|]. by rewrite IH.
  - intros v [= <-]. by rewrite !length_map.
Qed.
