(* ===== verification/Objects.v ===== *)
(** * [src/objects.rs]: the [get_objects] tree

    The [INFORMATION_SCHEMA] queries with their pushed-down filters, the grouping
    of their rows into maps, the assembly of the schema/table/column tree with the
    filters applied again, and the nested Arrow result.  The fetch itself is in
    the connection's metadata handlers.

    The result schema is a constant of [adbc_core], a parameter of [build]. *)

From stdpp Require Import gmap.
From S2P Require Import Prelude RustStr RustNum ErrorModel Config Stream Metadata Arrow Decode DecodeFacts Nested.

(** ** Data *)

Record Column := mkColumn { col_name : rstr; col_ordinal : Z; col_nullable : bool; col_type_name : rstr }.
Record Usage := mkUsage { us_db_schema : rstr; us_table : rstr; us_column : rstr }.
Record Constraint := mkConstraint {
  con_name : option rstr;
  con_type : rstr;
  con_columns : list rstr;
  con_usages : list Usage;
}.
Record Table := mkTable {
  tb_name : rstr;
  tb_type : rstr;
  tb_columns : list Column;
  tb_constraints : list Constraint;
}.
Record DbSchema := mkDbSchema { ds_name : rstr; ds_tables : list Table }.

(** [adbc_core::options::ObjectDepth]. *)
Inductive ObjectDepth := DepthAll | DepthCatalogs | DepthSchemas | DepthTables | DepthColumns.

#[export] Instance ObjectDepth_eq_dec : EqDecision ObjectDepth.
Proof. solve_decision. Defined.

Definition populate_tables (depth : ObjectDepth) : bool :=
  match depth with DepthAll | DepthTables | DepthColumns => true | _ => false end.
Definition populate_columns (depth : ObjectDepth) : bool :=
  match depth with DepthAll | DepthColumns => true | _ => false end.

Record ObjectFilters := mkObjectFilters {
  of_db_schema : option rstr;
  of_table_name : option rstr;
  of_table_type : option (list rstr);
  of_column_name : option rstr;
}.

Record ObjectBatches := mkObjectBatches {
  ob_schemata : Batch;
  ob_tables : option Batch;
  ob_columns : option Batch;
  ob_constraints : option Batch;
  ob_key_columns : option Batch;
  ob_referential : option Batch;
}.

(** ** Queries *)

Definition HIDE_HIDDEN_COLUMNS : rstr := str "NOT CAST(IS_HIDDEN AS BOOL)".

Definition HIDE_HIDDEN_COLUMN_CONSTRAINTS : rstr :=
  str "NOT EXISTS ( SELECT 1 FROM INFORMATION_SCHEMA.CONSTRAINT_COLUMN_USAGE AS u JOIN INFORMATION_SCHEMA.COLUMNS AS c ON c.TABLE_SCHEMA = u.TABLE_SCHEMA AND c.TABLE_NAME = u.TABLE_NAME AND c.COLUMN_NAME = u.COLUMN_NAME WHERE u.CONSTRAINT_SCHEMA = tc.CONSTRAINT_SCHEMA AND u.CONSTRAINT_NAME = tc.CONSTRAINT_NAME AND CAST(c.IS_HIDDEN AS BOOL))".

(** [pattern.replace('\\', "\\\\")]. *)
Definition sql_like_pattern (pattern : rstr) : rstr :=
  flat_map (fun c => if decide (c = cBSLASH) then [cBSLASH; cBSLASH] else [c]) pattern.

Definition param_name (n : nat) : rstr := str "p" ++ show_N (N.of_nat n).

Fixpoint filters_loop (filters : list (rstr * option rstr)) (sql : rstr) (predicates : nat)
    (params : list (rstr * rstr)) : rstr * list (rstr * rstr) :=
  match filters with
  | [] => (sql, params)
  | (_, None) :: filters => filters_loop filters sql predicates params
  | (column, Some pattern) :: filters =>
      let name := param_name (length params) in
      let keyword := if decide (predicates = 0) then str "WHERE" else str "AND" in
      filters_loop filters (sql ++ cSPACE :: keyword ++ cSPACE :: column ++ str " LIKE @" ++ name) (S predicates)
        (params ++ [(name, sql_like_pattern pattern)])
  end.

Definition filtered_sql (base : rstr) (base_predicate : option rstr) (filters : list (rstr * option rstr))
    (order_by : option rstr) : rstr * list (rstr * rstr) :=
  let '(sql, predicates) := match base_predicate with
    | Some predicate => (base ++ str " WHERE " ++ predicate, 1)
    | None => (base, 0)
    end in
  let '(sql, params) := filters_loop filters sql predicates [] in
  (match order_by with Some o => sql ++ str " ORDER BY " ++ o | None => sql end, params).

(** ** Reading the batches ([str_col] of [src/metadata.rs]) *)

Definition str_col (batch : Batch) (index : nat) : Result Array :=
  match b_columns batch !! index with
  | None => Err (err [Lit "INFORMATION_SCHEMA batch has "; DispZ (Z.of_nat (length (b_columns batch)));
                      Lit " column(s); column "; DispZ (Z.of_nat index); Lit " is out of range"] Internal)
  | Some a =>
      match a_type a with
      | DUtf8 => Ok a
      | _ => Err (err [Lit "INFORMATION_SCHEMA column "; DispZ (Z.of_nat index); Lit " is not a string"] Internal)
      end
  end.

(** [StringArray::value] and [Int64Array::value]: a null slot holds the empty text
    and zero. *)
Definition str_value (a : Array) (r : nat) : rstr := match a_cells a !! r with Some (CStr s) => s | _ => [] end.
Definition int_value (a : Array) (r : nat) : Z := match a_cells a !! r with Some (CInt z) => z | _ => 0%Z end.
Definition null_at (a : Array) (r : nat) : bool := match a_cells a !! r with Some CNull => true | _ => false end.

(** [as i32]. *)
Definition wrap_i32 (z : Z) : Z := ((z + 2 ^ 31) `mod` 2 ^ 32 - 2 ^ 31)%Z.

(** ** Grouping *)

Record TableRow := mkTableRow { tr_name : rstr; tr_type : rstr }.
Record ColumnRow := mkColumnRow { cr_name : rstr; cr_ordinal : Z; cr_nullable : bool; cr_type_name : rstr }.
Record ConstraintRow := mkConstraintRow { cn_name : rstr; cn_type : rstr }.
Record KeyColumnRow := mkKeyColumnRow {
  kc_column : rstr;
  kc_table_schema : rstr;
  kc_table : rstr;
  kc_ordinal : rstr;
  kc_position : option rstr;
}.

(** [map.entry(k).or_default().push(v)]. *)
Definition push {K V} `{Countable K} (m : gmap K (list V)) (k : K) (v : V) : gmap K (list V) :=
  <[k := default [] (m !! k) ++ [v]]> m.

Definition group_rows {K V} `{Countable K} (rows : list (K * V)) : gmap K (list V) :=
  foldl (fun m kv => push m (fst kv) (snd kv)) ∅ rows.

(** [map.get(k).into_iter().flatten()]. *)
Definition get_group {K V} `{Countable K} (m : gmap K (list V)) (k : K) : list V := default [] (m !! k).

Definition table_rows (batch : Batch) : Result (list (rstr * TableRow)) :=
  ts ← str_col batch 0; tn ← str_col batch 1; tt ← str_col batch 2;
  Ok (map (fun r => (str_value ts r, mkTableRow (str_value tn r) (str_value tt r))) (seq 0 (b_rows batch))).

Definition group_tables (batch : Batch) : Result (gmap rstr (list TableRow)) := group_rows <$> table_rows batch.

Definition column_rows (batch : Batch) : Result (list ((rstr * rstr) * ColumnRow)) :=
  ts ← str_col batch 0; tn ← str_col batch 1; cn ← str_col batch 2; nul ← str_col batch 4; typ ← str_col batch 5;
  match b_columns batch !! 3 with
  | Some (mkArray DInt64 _ as ordinal) =>
      Ok (map (fun r => ((str_value ts r, str_value tn r),
                         mkColumnRow (str_value cn r) (wrap_i32 (int_value ordinal r))
                           (eq_ignore_ascii_case (str_value nul r) (str "YES")) (str_value typ r)))
            (seq 0 (b_rows batch)))
  | _ => Err (err [Lit "ORDINAL_POSITION is not an integer"] Internal)
  end.

Definition group_columns (batch : Batch) : Result (gmap (rstr * rstr) (list ColumnRow)) :=
  group_rows <$> column_rows batch.

Definition constraint_rows (batch : Batch) : Result (list ((rstr * rstr) * ConstraintRow)) :=
  ts ← str_col batch 0; tn ← str_col batch 1; cn ← str_col batch 2; ct ← str_col batch 3;
  Ok (map (fun r => ((str_value ts r, str_value tn r), mkConstraintRow (str_value cn r) (str_value ct r)))
        (seq 0 (b_rows batch))).

Definition group_constraints (batch : Batch) : Result (gmap (rstr * rstr) (list ConstraintRow)) :=
  group_rows <$> constraint_rows batch.

Definition key_column_rows (batch : Batch) : Result (list ((rstr * rstr) * KeyColumnRow)) :=
  kcs ← str_col batch 0; kcn ← str_col batch 1; kts ← str_col batch 2; ktn ← str_col batch 3;
  kcol ← str_col batch 4; kord ← str_col batch 5; kpos ← str_col batch 6;
  Ok (map (fun r => ((str_value kcs r, str_value kcn r),
                     mkKeyColumnRow (str_value kcol r) (str_value kts r) (str_value ktn r) (str_value kord r)
                       (if null_at kpos r then None else Some (str_value kpos r))))
        (seq 0 (b_rows batch))).

Definition group_key_columns (batch : Batch) : Result (gmap (rstr * rstr) (list KeyColumnRow)) :=
  group_rows <$> key_column_rows batch.

Definition referential_rows (batch : Batch) : Result (list ((rstr * rstr) * (rstr * rstr))) :=
  rcs ← str_col batch 0; rcn ← str_col batch 1; rus ← str_col batch 2; run ← str_col batch 3;
  Ok (map (fun r => ((str_value rcs r, str_value rcn r), (str_value rus r, str_value run r)))
        (seq 0 (b_rows batch))).

(** [entry(..).or_insert_with(..)] keeps the first row of a key. *)
Definition group_first {K V} `{Countable K} (rows : list (K * V)) : gmap K V :=
  foldl (fun m kv => match m !! fst kv with Some _ => m | None => <[fst kv := snd kv]> m end) ∅ rows.

Definition group_referential (batch : Batch) : Result (gmap (rstr * rstr) (rstr * rstr)) :=
  group_first <$> referential_rows batch.

(** [batch.map(group).transpose()?.unwrap_or_default()]. *)
Definition group_opt {T} (default : T) (batch : option Batch) (group : Batch -> Result T) : Result T :=
  match batch with Some b => group b | None => Ok default end.

(** ** Assembly *)

(** [filter.is_some_and(|m| !m.matches(name))] skips the row. *)
Definition passes (filter : option rstr) (name : rstr) : bool :=
  match filter with Some p => matches p name | None => true end.

Definition column_of_row (column : ColumnRow) : Column :=
  mkColumn (cr_name column) (cr_ordinal column) (cr_nullable column) (cr_type_name column).

Definition collect_columns (columns_by_table : gmap (rstr * rstr) (list ColumnRow)) (schema table : rstr)
    (flt : option rstr) : list Column :=
  map column_of_row (List.filter (fun c => passes flt (cr_name c)) (get_group columns_by_table (schema, table))).

(** [sort_by_key], which is stable. *)
Fixpoint insert_by_key {A} (key : A -> Z) (x : A) (l : list A) : list A :=
  match l with
  | [] => [x]
  | y :: l => if decide (key x <= key y)%Z then x :: y :: l else y :: insert_by_key key x l
  end.

Definition sort_by_key {A} (key : A -> Z) (l : list A) : list A := foldr (insert_by_key key) [] l.

(** [filter_map]. *)
Definition filter_map {A B} (f : A -> option B) (l : list A) : list B := omap f l.

Definition index_by_ordinal (rows : list KeyColumnRow) : gmap Z KeyColumnRow :=
  foldl (fun m k => match parse_i64 (kc_ordinal k) with Some o => <[o := k]> m | None => m end) ∅ rows.

Definition usage_of (k : KeyColumnRow) : Usage := mkUsage (kc_table_schema k) (kc_table k) (kc_column k).

Definition fk_key (k : KeyColumnRow) : option (Z * Z) :=
  o ← parse_i64 (kc_ordinal k); p ← kc_position k; q ← parse_i64 p; Some (o, q).

Definition foreign_key_usages (key_columns : gmap (rstr * rstr) (list KeyColumnRow))
    (referential : gmap (rstr * rstr) (rstr * rstr)) (schema fk_name : rstr) : list Usage :=
  match referential !! (schema, fk_name) with
  | None => []
  | Some unique =>
      let referenced := index_by_ordinal (get_group key_columns unique) in
      let fk_columns := sort_by_key fst (filter_map fk_key (get_group key_columns (schema, fk_name))) in
      filter_map (fun op => usage_of <$> referenced !! snd op) fk_columns
  end.

Definition FOREIGN_KEY : rstr := str "FOREIGN KEY".

Definition constraint_of_row (key_columns : gmap (rstr * rstr) (list KeyColumnRow))
    (referential : gmap (rstr * rstr) (rstr * rstr)) (schema : rstr) (c : ConstraintRow) : Constraint :=
  mkConstraint (Some (cn_name c)) (cn_type c) (map kc_column (get_group key_columns (schema, cn_name c)))
    (if decide (cn_type c = FOREIGN_KEY) then foreign_key_usages key_columns referential schema (cn_name c) else []).

Definition collect_constraints (constraints_by_table : gmap (rstr * rstr) (list ConstraintRow))
    (key_columns : gmap (rstr * rstr) (list KeyColumnRow)) (referential : gmap (rstr * rstr) (rstr * rstr))
    (schema table : rstr) : list Constraint :=
  map (constraint_of_row key_columns referential schema) (get_group constraints_by_table (schema, table)).

Definition table_kept (filters : ObjectFilters) (t : TableRow) : bool :=
  passes (of_table_name filters) (tr_name t) &&
  match of_table_type filters with Some types => bool_decide (tr_type t ∈ types) | None => true end.

Definition assemble_objects (batches : ObjectBatches) (filters : ObjectFilters) : Result (list DbSchema) :=
  schema_names ← str_col (ob_schemata batches) 0;
  tables_by_schema ← group_opt ∅ (ob_tables batches) group_tables;
  columns_by_table ← group_opt ∅ (ob_columns batches) group_columns;
  constraints_by_table ← group_opt ∅ (ob_constraints batches) group_constraints;
  key_columns ← group_opt ∅ (ob_key_columns batches) group_key_columns;
  referential ← group_opt ∅ (ob_referential batches) group_referential;
  Ok (map (fun schema =>
             mkDbSchema schema
               (map (fun t => mkTable (tr_name t) (tr_type t)
                       (collect_columns columns_by_table schema (tr_name t) (of_column_name filters))
                       (collect_constraints constraints_by_table key_columns referential schema (tr_name t)))
                  (List.filter (table_kept filters) (get_group tables_by_schema schema))))
        (List.filter (passes (of_db_schema filters))
           (map (str_value schema_names) (seq 0 (b_rows (ob_schemata batches)))))).

(** ** The nested result *)

(** A child of a metadata struct: the arm of the [match] on the field's name, or a
    null array. *)
Definition arm (n : nat) (arms : list (String.string * Array)) (f : Field) : Array :=
  match List.find (fun '(name, _) => bool_decide (str name = f_name f)) arms with
  | Some (_, a) => a
  | None => new_null_array (f_type f) n
  end.

Definition yes_no (b : bool) : rstr := if b then str "YES" else str "NO".

Definition build_column_struct (column_fields : list Field) (columns : list Column) : Result Array :=
  StructArray_try_new column_fields
    (map (arm (length columns)
       [("column_name"%string, utf8_array (map col_name columns));
        ("ordinal_position"%string, mkArray DInt32 (map (fun c => CInt (col_ordinal c)) columns));
        ("xdbc_type_name"%string, utf8_array (map col_type_name columns));
        ("xdbc_is_nullable"%string, utf8_array (map (fun c => yes_no (col_nullable c)) columns))]) column_fields).

Definition build_usage_struct (usage_fields : list Field) (catalog : rstr) (usages : list Usage) : Result Array :=
  StructArray_try_new usage_fields
    (map (arm (length usages)
       [("fk_catalog"%string, utf8_array (map (fun _ => catalog) usages));
        ("fk_db_schema"%string, utf8_array (map us_db_schema usages));
        ("fk_table"%string, utf8_array (map us_table usages));
        ("fk_column_name"%string, utf8_array (map us_column usages))]) usage_fields).

Definition is_foreign_key (c : Constraint) : bool := bool_decide (con_type c = FOREIGN_KEY).

Definition build_constraint_struct (constraint_fields : list Field) (catalog : rstr) (constraints : list Constraint) :
    Result Array :=
  names_field ← field constraint_fields "constraint_column_names";
  name_item ← list_item names_field;
  constraint_column_names ← list_of name_item (map (fun c => length (con_columns c)) constraints)
                              (utf8_array (concat (map con_columns constraints)));
  usage_field ← field constraint_fields "constraint_column_usage";
  usage_item ← list_item usage_field;
  usage_fields ← struct_fields usage_item;
  usage_struct ← build_usage_struct usage_fields catalog (concat (map con_usages constraints));
  constraint_column_usage ← list_of_nullable usage_item (map (fun c => length (con_usages c)) constraints)
                              usage_struct (Some (map is_foreign_key constraints));
  StructArray_try_new constraint_fields
    (map (arm (length constraints)
       [("constraint_name"%string, opt_utf8_array (map con_name constraints));
        ("constraint_type"%string, utf8_array (map con_type constraints));
        ("constraint_column_names"%string, constraint_column_names);
        ("constraint_column_usage"%string, constraint_column_usage)]) constraint_fields).

(** The table level: columns and constraints flattened across the tables. *)
Definition build_tables (depth : ObjectDepth) (catalog : rstr) (tables_field : Field) (schemas : list DbSchema) :
    Result Array :=
  let tables := concat (map ds_tables schemas) in
  table_item ← list_item tables_field;
  table_fields ← struct_fields table_item;
  cols_field ← field table_fields "table_columns";
  table_columns ←
    (if populate_columns depth then
       col_item ← list_item cols_field;
       column_fields ← struct_fields col_item;
       column_struct ← build_column_struct column_fields (concat (map tb_columns tables));
       list_of col_item (map (fun t => length (tb_columns t)) tables) column_struct
     else Ok (new_null_array (f_type cols_field) (length tables)));
  cons_field ← field table_fields "table_constraints";
  table_constraints ←
    (if populate_columns depth then
       cons_item ← list_item cons_field;
       constraint_fields ← struct_fields cons_item;
       constraint_struct ← build_constraint_struct constraint_fields catalog (concat (map tb_constraints tables));
       list_of cons_item (map (fun t => length (tb_constraints t)) tables) constraint_struct
     else Ok (new_null_array (f_type cons_field) (length tables)));
  table_struct ← StructArray_try_new table_fields
    [utf8_array (map tb_name tables); utf8_array (map tb_type tables); table_columns; table_constraints];
  list_of table_item (map (fun s => length (ds_tables s)) schemas) table_struct.

Definition build_schemas (depth : ObjectDepth) (catalog : rstr) (db_schema_item : Field)
    (db_schema_fields : list Field) (schemas : list DbSchema) : Result Array :=
  tables_field ← field db_schema_fields "db_schema_tables";
  db_schema_tables ←
    (if populate_tables depth then build_tables depth catalog tables_field schemas
     else Ok (new_null_array (f_type tables_field) (length schemas)));
  db_schema_struct ← StructArray_try_new db_schema_fields [utf8_array (map ds_name schemas); db_schema_tables];
  list_of db_schema_item [length schemas] db_schema_struct.

Definition build (GET_OBJECTS_SCHEMA : list Field) (depth : ObjectDepth) (catalog : rstr) (schemas : list DbSchema) :
    Result Batch :=
  db_schemas_field ← field GET_OBJECTS_SCHEMA "catalog_db_schemas";
  db_schema_item ← list_item db_schemas_field;
  db_schema_fields ← struct_fields db_schema_item;
  catalog_db_schemas ←
    (if decide (depth = DepthCatalogs) then Ok (new_null_array (f_type db_schemas_field) 1)
     else build_schemas depth catalog db_schema_item db_schema_fields schemas);
  RecordBatch_try_new GET_OBJECTS_SCHEMA [utf8_array [catalog]; catalog_db_schemas].
