(* ===== verification/ObjectsFacts.v ===== *)
(** * Properties of the [get_objects] tree

    The assembly by lookup maps is the nested scan it replaces; pushing the filters
    into the queries does not change the result, and never puts a pattern into the
    SQL text; the nested Arrow result holds the tree, level by level. *)

From stdpp Require Import gmap.
From S2P Require Import Prelude RustStr RustNum ErrorModel Config Stream Metadata Arrow Decode DecodeFacts Nested Objects.

(** ** Grouping is filtering *)

Section Groups.
Context {K V : Type} `{Countable K}.

Definition of_key (k : K) (rows : list (K * V)) : list V :=
  map snd (List.filter (fun kv => bool_decide (fst kv = k)) rows).

Lemma of_key_app k a b : of_key k (a ++ b) = of_key k a ++ of_key k b.
Proof. unfold of_key. by rewrite List.filter_app, map_app. Qed.

Lemma get_group_push (m : gmap K (list V)) k v k' :
  get_group (push m k v) k' = get_group m k' ++ (if decide (k = k') then [v] else []).
Proof.
  unfold get_group, push. case_decide as E.
  - subst. by rewrite lookup_insert_eq.
  - rewrite lookup_insert_ne by done. by rewrite app_nil_r.
Qed.

Lemma get_group_foldl rows (m : gmap K (list V)) k :
  get_group (foldl (fun m kv => push m (fst kv) (snd kv)) m rows) k = get_group m k ++ of_key k rows.
Proof.
  revert m. induction rows as [|[k' v] rows IH]; intros m; cbn [foldl]; [by rewrite app_nil_r|].
  rewrite IH. cbn [fst snd]. rewrite get_group_push, <- app_assoc. f_equal. unfold of_key. cbn [List.filter fst].
  destruct (decide (k' = k)) as [->|Hk].
  - rewrite bool_decide_eq_true_2 by done. done.
  - rewrite bool_decide_eq_false_2 by done. done.
Qed.

(** A group holds its key's rows, in row order. *)
Lemma get_group_rows rows k : get_group (group_rows rows : gmap K (list V)) k = of_key k rows.
Proof. unfold group_rows. rewrite get_group_foldl. done. Qed.

(** The map of first rows. *)
Lemma group_first_lookup rows k :
  (group_first rows : gmap K V) !! k = head (of_key k rows).
Proof.
  unfold group_first.
  assert (forall m : gmap K V,
    foldl (fun m kv => match m !! fst kv with Some _ => m | None => <[fst kv := snd kv]> m end) m rows !! k =
    match m !! k with Some v => Some v | None => head (of_key k rows) end) as Hm.
  { induction rows as [|[k' v] rows IH]; intros m; cbn [foldl]; [by destruct (m !! k)|]. rewrite IH. cbn [fst snd].
    unfold of_key. cbn [List.filter fst]. destruct (decide (k' = k)) as [->|Hk].
    - rewrite bool_decide_eq_true_2 by done. destruct (m !! k) eqn:E; [by rewrite E|]. by rewrite lookup_insert_eq.
    - rewrite bool_decide_eq_false_2 by done. destruct (m !! k') eqn:E; [done|]. by rewrite lookup_insert_ne. }
  rewrite Hm. done.
Qed.

Lemma of_key_empty k : get_group (∅ : gmap K (list V)) k = [].
Proof. unfold get_group. by rewrite lookup_empty. Qed.

(** Removing rows of other keys, or rows a later filter drops, changes nothing. *)
Lemma of_key_filter (keep : K * V -> bool) (p : V -> bool) k rows :
  (forall v, p v = true -> keep (k, v) = true) ->
  List.filter p (of_key k (List.filter keep rows)) = List.filter p (of_key k rows).
Proof.
  intros Hk. unfold of_key. induction rows as [|[k' v] rows IH]; cbn [List.filter]; [done|].
  destruct (keep (k', v)) eqn:Ek; cbn [List.filter fst]; case_bool_decide as E; subst; cbn [map snd List.filter];
    rewrite ?IH; try done.
  destruct (p v) eqn:Ep; [|done]. by rewrite (Hk v Ep) in Ek.
Qed.

End Groups.

(** The rows the batches hold. *)
Record ObjectRows := mkObjectRows {
  r_schemata : list rstr;
  r_tables : list (rstr * TableRow);
  r_columns : list ((rstr * rstr) * ColumnRow);
  r_constraints : list ((rstr * rstr) * ConstraintRow);
  r_keys : list ((rstr * rstr) * KeyColumnRow);
  r_refs : list ((rstr * rstr) * (rstr * rstr));
}.

Definition rows_of_batches (b : ObjectBatches) : Result ObjectRows :=
  names ← str_col (ob_schemata b) 0;
  tables ← group_opt [] (ob_tables b) table_rows;
  columns ← group_opt [] (ob_columns b) column_rows;
  constraints ← group_opt [] (ob_constraints b) constraint_rows;
  keys ← group_opt [] (ob_key_columns b) key_column_rows;
  refs ← group_opt [] (ob_referential b) referential_rows;
  Ok (mkObjectRows (map (str_value names) (seq 0 (b_rows (ob_schemata b)))) tables columns constraints keys refs).

(** ** The reference: scan every list for every object *)

(** The referenced columns of a foreign key: its own columns, by ordinal, each
    with the column of the referenced constraint at its position. *)
Definition referenced_at (rows : list KeyColumnRow) (position : Z) : option KeyColumnRow :=
  List.find (fun k => bool_decide (parse_i64 (kc_ordinal k) = Some position)) (rev rows).

Definition scan_usages (rows : ObjectRows) (schema fk_name : rstr) : list Usage :=
  match head (of_key (schema, fk_name) (r_refs rows)) with
  | None => []
  | Some unique =>
      filter_map (fun op => usage_of <$> referenced_at (of_key unique (r_keys rows)) (snd op))
        (sort_by_key fst (filter_map fk_key (of_key (schema, fk_name) (r_keys rows))))
  end.

Definition scan_constraints (rows : ObjectRows) (schema table : rstr) : list Constraint :=
  map (fun c => mkConstraint (Some (cn_name c)) (cn_type c) (map kc_column (of_key (schema, cn_name c) (r_keys rows)))
                  (if decide (cn_type c = FOREIGN_KEY) then scan_usages rows schema (cn_name c) else []))
    (of_key (schema, table) (r_constraints rows)).

Definition scan_table (rows : ObjectRows) (filters : ObjectFilters) (schema : rstr) (t : TableRow) : Table :=
  mkTable (tr_name t) (tr_type t)
    (map column_of_row (List.filter (fun c => passes (of_column_name filters) (cr_name c))
                          (of_key (schema, tr_name t) (r_columns rows))))
    (scan_constraints rows schema (tr_name t)).

Definition scan_objects (rows : ObjectRows) (filters : ObjectFilters) : list DbSchema :=
  map (fun schema => mkDbSchema schema
         (map (scan_table rows filters schema) (List.filter (table_kept filters) (of_key schema (r_tables rows)))))
    (List.filter (passes (of_db_schema filters)) (r_schemata rows)).

Lemma find_app_l {A} (f : A -> bool) l k :
  List.find f (l ++ k) = match List.find f l with Some x => Some x | None => List.find f k end.
Proof. induction l as [|x l IH]; cbn; [done|]. by destruct (f x). Qed.

Lemma filter_map_cons {A B} (f : A -> option B) x l :
  filter_map f (x :: l) = match f x with Some y => y :: filter_map f l | None => filter_map f l end.
Proof. done. Qed.

Lemma sort_by_key_cons {A} (key : A -> Z) x l : sort_by_key key (x :: l) = insert_by_key key x (sort_by_key key l).
Proof. done. Qed.

Lemma filter_map_ext {A B} (f g : A -> option B) l : (forall x, f x = g x) -> filter_map f l = filter_map g l.
Proof.
  intros Hfg. unfold filter_map. induction l as [|x l IH]; [done|]. cbn. rewrite Hfg. by destruct (g x); rewrite IH.
Qed.

Lemma index_by_ordinal_lookup rows p : index_by_ordinal rows !! p = referenced_at rows p.
Proof.
  unfold index_by_ordinal, referenced_at.
  assert (forall m : gmap Z KeyColumnRow,
    foldl (fun m k => match parse_i64 (kc_ordinal k) with Some o => <[o := k]> m | None => m end) m rows !! p =
    match List.find (fun k => bool_decide (parse_i64 (kc_ordinal k) = Some p)) (rev rows) with
    | Some k => Some k | None => m !! p end) as Hm.
  { induction rows as [|k rows IH]; intros m; cbn [foldl rev]; [done|]. rewrite IH, find_app_l. cbn [List.find].
    destruct (List.find _ (rev rows)); [done|]. case_bool_decide as E.
    - rewrite E. by rewrite lookup_insert_eq.
    - destruct (parse_i64 (kc_ordinal k)) as [o|]; [|done]. by rewrite lookup_insert_ne by congruence. }
  rewrite Hm. by destruct (List.find _ _).
Qed.

Lemma foreign_key_usages_scan rows schema fk :
  foreign_key_usages (group_rows (r_keys rows)) (group_first (r_refs rows)) schema fk = scan_usages rows schema fk.
Proof.
  unfold foreign_key_usages, scan_usages. rewrite group_first_lookup. destruct (head _) as [unique|]; [|done].
  rewrite !get_group_rows. apply filter_map_ext. intros [o p]. cbn. by rewrite index_by_ordinal_lookup.
Qed.

Lemma group_opt_rows {K V} `{Countable K} (batch : option Batch) (f : Batch -> Result (list (K * V))) :
  group_opt (∅ : gmap K (list V)) batch (fun b => group_rows <$> f b) = group_rows <$> group_opt [] batch f.
Proof. by destruct batch. Qed.

Lemma group_opt_first (batch : option Batch) :
  group_opt ∅ batch group_referential = group_first <$> group_opt [] batch referential_rows.
Proof. by destruct batch. Qed.

Lemma assemble_scan (batches : ObjectBatches) (filters : ObjectFilters) :
  assemble_objects batches filters = (fun rows => scan_objects rows filters) <$> rows_of_batches batches.
Proof.
  unfold assemble_objects, rows_of_batches, group_tables, group_columns, group_constraints, group_key_columns.
  rewrite !group_opt_rows, group_opt_first.
  destruct (str_col _ 0) as [names|]; [|done]. cbn -[str].
  destruct (group_opt [] _ table_rows) as [tables|]; [|done]. cbn -[str].
  destruct (group_opt [] _ column_rows) as [columns|]; [|done]. cbn -[str].
  destruct (group_opt [] _ constraint_rows) as [constraints|]; [|done]. cbn -[str].
  destruct (group_opt [] _ key_column_rows) as [keys|]; [|done]. cbn -[str].
  destruct (group_opt [] _ referential_rows) as [refs|]; [|done]. cbn -[str].
  f_equal. unfold scan_objects. cbn [r_schemata r_tables]. apply map_ext. intros schema. f_equal.
  rewrite get_group_rows. apply map_ext. intros t. unfold scan_table, scan_constraints. f_equal.
  - unfold collect_columns. by rewrite get_group_rows.
  - unfold collect_constraints. rewrite get_group_rows. apply map_ext. intros c. unfold constraint_of_row.
    rewrite get_group_rows. f_equal. case_decide; [|done].
    apply (foreign_key_usages_scan (mkObjectRows [] tables columns constraints keys refs)).
Qed.

(** The assembled tree is the one the rows describe.  For any batches and
    filters, grouping the rows into maps once and looking every object up gives
    exactly the tree of a nested scan of all the rows: a schema per matching
    [SCHEMATA] row, in it the tables of that schema that match, each with its own
    columns and constraints in row order, key columns in key order, and each
    foreign key's referenced columns found by ordinal; and it fails exactly when a
    batch is malformed. *)
Theorem assemble_is_scan (batches : ObjectBatches) (filters : ObjectFilters) :
  assemble_objects batches filters = (fun rows => scan_objects rows filters) <$> rows_of_batches batches.
Proof. apply assemble_scan. Qed.

(** ** Push-down *)

(** GoogleSQL's [LIKE], as documented: a backslash makes the next character a
    literal. *)
Inductive sql_like : rstr -> rstr -> Prop :=
  | sql_like_end : sql_like [] []
  | sql_like_wild p run v : sql_like p v -> sql_like (likeWild :: p) (run ++ v)
  | sql_like_one p c v : sql_like p v -> sql_like (likeOne :: p) (c :: v)
  | sql_like_escape p c v : sql_like p v -> sql_like (cBSLASH :: c :: p) (c :: v)
  | sql_like_char p c v :
      c <> likeWild -> c <> likeOne -> c <> cBSLASH -> sql_like p v -> sql_like (c :: p) (c :: v).

Lemma sql_like_pattern_cons c p :
  sql_like_pattern (c :: p) = (if decide (c = cBSLASH) then [cBSLASH; cBSLASH] else [c]) ++ sql_like_pattern p.
Proof. done. Qed.

Lemma like_sql_like p v : like p v -> sql_like (sql_like_pattern p) v.
Proof.
  induction 1; [constructor|..]; rewrite sql_like_pattern_cons.
  - rewrite decide_False by done. by apply sql_like_wild.
  - rewrite decide_False by done. by apply sql_like_one.
  - case_decide as Hb; [subst; by apply sql_like_escape|by apply sql_like_char].
Qed.

Lemma sql_like_like p v : sql_like (sql_like_pattern p) v -> like p v.
Proof.
  revert v. induction p as [|c p IH]; intros v H; [inversion H; constructor|].
  rewrite sql_like_pattern_cons in H. case_decide as Hb.
  - subst. inversion H; subst; try done. apply like_char; [done..|]. by apply IH.
  - inversion H; subst; try done; [apply like_wild|apply like_one|apply like_char]; auto.
Qed.

(** Doubling the backslashes makes the server's [LIKE] the ADBC one. *)
Lemma sql_like_pattern_exact p v : sql_like (sql_like_pattern p) v <-> matches p v = true.
Proof. rewrite matches_like. split; [apply sql_like_like|apply like_sql_like]. Qed.

(** What the server keeps of a row for one pushed-down filter: the value of the
    bound parameter, matched by its own [LIKE]. *)
Definition server_keeps (filter : option rstr) (name : rstr) : Prop :=
  match filter with Some p => sql_like (sql_like_pattern p) name | None => True end.

Lemma server_keeps_passes filter name : passes filter name = true -> server_keeps filter name.
Proof. destruct filter as [p|]; [|done]. cbn. by rewrite sql_like_pattern_exact. Qed.

Section PushDown.
Variables (filters : ObjectFilters) (keep_schema keep_table keep_column : rstr -> bool).
Hypothesis Hschema : forall s, keep_schema s = true <-> server_keeps (of_db_schema filters) s.
Hypothesis Htable : forall t, keep_table t = true <-> server_keeps (of_table_name filters) t.
Hypothesis Hcolumn : forall c, keep_column c = true <-> server_keeps (of_column_name filters) c.

(** The rows the filtered queries return: schemata by schema, tables and
    constraints by schema and table, columns by all three; the key columns and
    references are not filtered. *)
Definition pushed_down (rows : ObjectRows) : ObjectRows :=
  mkObjectRows
    (List.filter keep_schema (r_schemata rows))
    (List.filter (fun kv => keep_schema (fst kv) && keep_table (tr_name (snd kv))) (r_tables rows))
    (List.filter (fun kv => keep_schema (fst (fst kv)) && keep_table (snd (fst kv)) && keep_column (cr_name (snd kv)))
       (r_columns rows))
    (List.filter (fun kv => keep_schema (fst (fst kv)) && keep_table (snd (fst kv))) (r_constraints rows))
    (r_keys rows) (r_refs rows).

Lemma filter_filter_sub {A} (p keep : A -> bool) (l : list A) :
  (forall x, p x = true -> keep x = true) -> List.filter p (List.filter keep l) = List.filter p l.
Proof.
  intros Hp. induction l as [|x l IH]; cbn; [done|]. destruct (keep x) eqn:Ek; cbn; rewrite ?IH; [done|].
  destruct (p x) eqn:Ep; [|done]. by rewrite (Hp x Ep) in Ek.
Qed.

Lemma map_filter_ext {A B} (p : A -> bool) (f g : A -> B) l :
  (forall x, p x = true -> f x = g x) -> map f (List.filter p l) = map g (List.filter p l).
Proof.
  intros H. induction l as [|x l IH]; cbn; [done|]. destruct (p x) eqn:E; cbn; [by rewrite H, IH|done].
Qed.

Lemma scan_pushed_down rows : scan_objects (pushed_down rows) filters = scan_objects rows filters.
Proof.
  assert (forall s, passes (of_db_schema filters) s = true -> keep_schema s = true) as Hs
    by (intros s Hp; by apply Hschema, server_keeps_passes).
  assert (forall t, passes (of_table_name filters) t = true -> keep_table t = true) as Ht
    by (intros t Hp; by apply Htable, server_keeps_passes).
  assert (forall c, passes (of_column_name filters) c = true -> keep_column c = true) as Hc
    by (intros c Hp; by apply Hcolumn, server_keeps_passes).
  unfold scan_objects. cbn [pushed_down r_schemata r_tables]. rewrite filter_filter_sub by done.
  apply map_filter_ext. intros schema Hsch. f_equal.
  rewrite of_key_filter.
  2: { intros t [Hn _]%andb_true_iff. cbn. by rewrite (Hs _ Hsch), (Ht _ Hn). }
  apply map_filter_ext. intros t [Hn _]%andb_true_iff. unfold scan_table, scan_constraints. cbn [pushed_down r_columns r_constraints].
  rewrite of_key_filter.
  2: { intros c Hp. cbn. by rewrite (Hs _ Hsch), (Ht _ Hn), (Hc _ Hp). }
  f_equal. pose proof (of_key_filter (fun kv => keep_schema (fst (fst kv)) && keep_table (snd (fst kv)))
    (fun _ => true) (schema, tr_name t) (r_constraints rows)) as Hcons.
  assert (forall A (l : list A), List.filter (fun _ => true) l = l) as Hall
    by (intros A l; induction l; cbn; by f_equal).
  rewrite !Hall in Hcons. rewrite Hcons; [done|]. intros v _. cbn. by rewrite (Hs _ Hsch), (Ht _ Hn).
Qed.

(** Pushing the filters into the queries does not change [get_objects].  When
    the server returns, of the rows there are, those its own [LIKE] keeps for the
    bound parameters (schemas by the schema filter, tables and constraints by
    schema and table, columns by all three, references unfiltered), the tree is
    the one assembled from all the rows: nothing a filter accepts is lost, foreign
    keys into filtered-out tables still resolve, and backslashes in a pattern
    stay literal. *)
Theorem push_down_transparent (all fetched : ObjectBatches) (rows : ObjectRows) :
  rows_of_batches all = Ok rows -> rows_of_batches fetched = Ok (pushed_down rows) ->
  assemble_objects fetched filters = assemble_objects all filters.
Proof. intros Ha Hf. rewrite !assemble_scan, Ha, Hf. exact (f_equal Ok (scan_pushed_down rows)). Qed.

End PushDown.

(** ** The text of the queries *)

Definition given_patterns (filters : list (rstr * option rstr)) : list rstr := omap snd filters.

Lemma filters_loop_params filters sql n params :
  snd (filters_loop filters sql n params) =
  params ++ imap (fun i p => (param_name (length params + i), sql_like_pattern p)) (given_patterns filters).
Proof.
  revert sql n params. induction filters as [|[c [p|]] filters IH]; intros sql n params; cbn -[str].
  - by rewrite app_nil_r.
  - rewrite IH, <- app_assoc, length_app. cbn -[str]. rewrite Nat.add_0_r. do 2 f_equal.
    apply imap_ext. intros i q _. cbn. do 2 f_equal. lia.
  - apply IH.
Qed.

(** Only which filters are present shapes the text. *)
Lemma filters_loop_text filters filters' sql n params params' :
  length params = length params' ->
  map fst filters = map fst filters' -> map (fun f => bool_decide (is_Some (snd f))) filters =
                                        map (fun f => bool_decide (is_Some (snd f))) filters' ->
  fst (filters_loop filters sql n params) = fst (filters_loop filters' sql n params').
Proof.
  revert filters' sql n params params'. induction filters as [|[c p] filters IH]; intros [|[c' p'] filters'] sql n params params' Hl Hc Hp;
    try done. cbn [map fst snd] in Hc, Hp. injection Hc as <- Hc. injection Hp as Hb Hp.
  destruct p as [p|], p' as [p'|]; cbn [filters_loop]; try done.
  - rewrite Hl. apply IH; [by rewrite !length_app, Hl|done..].
  - by apply IH.
Qed.

#[export] Instance param_name_inj : Inj (=) (=) param_name.
Proof.
  intros n m H. unfold param_name in H. apply app_inv_head in H.
  apply (f_equal (digits_val 0)) in H. rewrite !show_N_val in H. injection H as H. lia.
Qed.

(** C21: no pattern ever reaches the text of a query.  The SQL of a filtered
    [INFORMATION_SCHEMA] query depends on which filters are present and on nothing
    in them; the patterns travel, with their backslashes doubled and nothing else
    changed, as the values of parameters of pairwise distinct names, one for each
    filter in order. *)
Theorem filters_bound_not_spliced (base : rstr) (pred order : option rstr) (filters filters' : list (rstr * option rstr)) :
  map fst filters = map fst filters' ->
  map (fun f => bool_decide (is_Some (snd f))) filters = map (fun f => bool_decide (is_Some (snd f))) filters' ->
  fst (filtered_sql base pred filters order) = fst (filtered_sql base pred filters' order) /\
  map snd (snd (filtered_sql base pred filters order)) = map sql_like_pattern (given_patterns filters) /\
  map fst (snd (filtered_sql base pred filters order)) = map fst (snd (filtered_sql base pred filters' order)) /\
  NoDup (map fst (snd (filtered_sql base pred filters order))).
Proof.
  intros Hc Hp.
  assert (forall fs, snd (filtered_sql base pred fs order) =
    imap (fun i p => (param_name i, sql_like_pattern p)) (given_patterns fs)) as Hparams.
  { intros fs. unfold filtered_sql. destruct pred as [pr|].
    - pose proof (filters_loop_params fs (base ++ str " WHERE " ++ pr) 1 []) as Hl.
      destruct (filters_loop fs _ 1 []). exact Hl.
    - pose proof (filters_loop_params fs base 0 []) as Hl. destruct (filters_loop fs _ 0 []). exact Hl. }
  assert (forall fs, map fst (snd (filtered_sql base pred fs order)) = map param_name (seq 0 (length (given_patterns fs)))) as Hnames.
  { intros fs. rewrite Hparams. apply list_eq. intros i. rewrite !list_lookup_fmap, list_lookup_imap.
    destruct (given_patterns fs !! i) as [p|] eqn:E; cbn.
    - rewrite lookup_seq_lt by (by eapply lookup_lt_Some). done.
    - rewrite lookup_seq_ge by (by apply lookup_ge_None). done. }
  assert (length (given_patterns filters) = length (given_patterns filters')) as Hlen.
  { clear -Hp. unfold given_patterns. revert filters' Hp. induction filters as [|[c p] fs IH]; intros [|[c' p'] fs'] Hp; try done.
    cbn in Hp. injection Hp as Hb Hp. specialize (IH _ Hp). destruct p, p'; cbn; try done. by f_equal. }
  split_and!.
  - unfold filtered_sql. destruct pred as [pr|].
    + pose proof (filters_loop_text filters filters' (base ++ str " WHERE " ++ pr) 1 [] [] eq_refl Hc Hp) as Ht.
      destruct (filters_loop filters _ 1 []), (filters_loop filters' _ 1 []). cbn [fst] in Ht. by rewrite Ht.
    + pose proof (filters_loop_text filters filters' base 0 [] [] eq_refl Hc Hp) as Ht.
      destruct (filters_loop filters _ 0 []), (filters_loop filters' _ 0 []). cbn [fst] in Ht. by rewrite Ht.
  - rewrite Hparams. apply list_eq. intros i. rewrite !list_lookup_fmap, list_lookup_imap. by destruct (given_patterns filters !! i).
  - by rewrite !Hnames, Hlen.
  - rewrite Hnames. apply (NoDup_fmap_2 param_name _ (NoDup_seq 0 _)).
Qed.

(** ** Foreign keys *)

Lemma insert_by_key_head {A} (key : A -> Z) x l :
  (forall y, y ∈ l -> (key x <= key y)%Z) -> insert_by_key key x l = x :: l.
Proof. destruct l as [|y l]; [done|]. intros H. cbn. rewrite decide_True; [done|]. apply H. left. Qed.

(** Ordinals as the query orders them: first, second, ... *)
Definition in_key_order (rows : list KeyColumnRow) : Prop :=
  forall i k, rows !! i = Some k -> parse_i64 (kc_ordinal k) = Some (Z.of_nat (S i)).

Lemma referenced_at_nth rows i u :
  in_key_order rows -> rows !! i = Some u -> referenced_at rows (Z.of_nat (S i)) = Some u.
Proof.
  intros Ho Hu. unfold referenced_at.
  destruct (List.find _ (rev rows)) as [k|] eqn:E.
  - apply find_some in E as [Hin Hk]. apply bool_decide_eq_true in Hk. apply in_rev, list_elem_of_In in Hin.
    apply list_elem_of_lookup in Hin as [j Hj]. rewrite (Ho j k Hj) in Hk. injection Hk as Hij.
    assert (i = j) as -> by lia. congruence.
  - exfalso. apply (find_none _ _) with (x := u) in E.
    + apply bool_decide_eq_false in E. by apply E, Ho.
    + apply in_rev. rewrite rev_involutive. apply list_elem_of_In. by eapply list_elem_of_lookup_2.
Qed.

(** The position of a key column in the referenced constraint. *)
Definition at_position (k : KeyColumnRow) (q : nat) : Prop :=
  exists p, kc_position k = Some p /\ parse_i64 p = Some (Z.of_nat (S q)).

Lemma fk_pairs (ks : list KeyColumnRow) (qs : list nat) (o : nat) :
  (forall i k, ks !! i = Some k -> parse_i64 (kc_ordinal k) = Some (Z.of_nat (S (o + i)))) ->
  Forall2 at_position ks qs ->
  sort_by_key fst (filter_map fk_key ks) = imap (fun i q => (Z.of_nat (S (o + i)), Z.of_nat (S q))) qs.
Proof.
  intros Ho H. revert o Ho. induction H as [|k q ks qs (p & Hp & Hq) _ IH]; intros o Ho; [done|].
  rewrite filter_map_cons. unfold fk_key at 1. rewrite (Ho 0 k eq_refl), Hp. cbn [mbind option_bind].
  rewrite Hq. cbn [mbind option_bind]. rewrite sort_by_key_cons. specialize (IH (S o)). rewrite IH.
  2: { intros i k' Hk'. rewrite (Ho (S i) k' Hk'). do 2 f_equal. lia. }
  rewrite insert_by_key_head.
  - cbn [imap]. f_equal. apply imap_ext. intros i q' _. cbn. do 2 f_equal. lia.
  - intros y Hy. apply elem_of_lookup_imap in Hy as (i & q' & -> & _). cbn. lia.
Qed.

(** The referenced columns of a foreign key line up with its own.  When the
    rows of the key and of the constraint it references carry their ordinals in
    order, as the query orders them, and every column of the key has a position in
    the referenced constraint, then the constraint reported has as many usages as
    columns, and its [i]-th usage is the schema, table and column of the
    referenced constraint's row at the [i]-th column's position. *)
Theorem foreign_key_aligned (keys : gmap (rstr * rstr) (list KeyColumnRow)) (refs : gmap (rstr * rstr) (rstr * rstr))
    (schema name : rstr) (unique : rstr * rstr) (qs : list nat) :
  refs !! (schema, name) = Some unique ->
  in_key_order (get_group keys (schema, name)) -> in_key_order (get_group keys unique) ->
  Forall2 at_position (get_group keys (schema, name)) qs ->
  Forall (fun q => q < length (get_group keys unique)) qs ->
  let c := constraint_of_row keys refs schema (mkConstraintRow name FOREIGN_KEY) in
  Forall2 (fun col k => col = kc_column k) (con_columns c) (get_group keys (schema, name)) /\
  Forall2 (fun u q => exists k, get_group keys unique !! q = Some k /\ u = usage_of k) (con_usages c) qs.
Proof.
  intros Href Hord Huni Hpos Hlt. cbn zeta. unfold constraint_of_row. cbn [con_columns con_usages cn_name cn_type].
  split.
  - apply Forall2_fmap_l. by apply Forall_Forall2_diag, Forall_true.
  - rewrite decide_True by done. unfold foreign_key_usages. rewrite Href.
    rewrite (fk_pairs _ qs 0) by done. cbn [Nat.add].
    assert (forall o, Forall2 (fun u q => exists k, get_group keys unique !! q = Some k /\ u = usage_of k)
      (filter_map (fun op => usage_of <$> index_by_ordinal (get_group keys unique) !! snd op)
         (imap (fun i q => (Z.of_nat (S (o + i)), Z.of_nat (S q))) qs)) qs) as Hall; [|apply (Hall 0)].
    clear Hpos. induction Hlt as [|q qs Hq _ IH]; intros o; [constructor|].
    cbn [imap]. rewrite filter_map_cons. cbn [snd]. rewrite index_by_ordinal_lookup.
    destruct (lookup_lt_is_Some_2 _ _ Hq) as [k Hk]. rewrite (referenced_at_nth _ _ _ Huni Hk). cbn [fmap option_fmap option_map].
    constructor; [by exists k|]. specialize (IH (S o)).
    erewrite imap_ext; [exact IH|]. intros i q' _. cbn. do 2 f_equal. lia.
Qed.

(** ** Concrete metadata *)

Definition strings_batch (columns : list (list rstr)) : Batch :=
  mkBatch [] (map (fun l => mkArray DUtf8 (map CStr l)) columns) (match columns with l :: _ => length l | [] => 0 end).

Definition example_filters : ObjectFilters :=
  mkObjectFilters (Some (str "a\%")) (Some (str "_1")) (Some [str "BASE TABLE"]) None.

Definition example_batches_all : ObjectBatches :=
  mkObjectBatches (strings_batch [[str "a\x"; str "ax"; []]])
    (Some (strings_batch [[str "a\x"; str "a\x"; str "ax"]; [str "t1"; str "t22"; str "t1"];
                          [str "BASE TABLE"; str "BASE TABLE"; str "VIEW"]])) None None None None.

Definition example_batches_fetched : ObjectBatches :=
  mkObjectBatches (strings_batch [[str "a\x"]])
    (Some (strings_batch [[str "a\x"]; [str "t1"]; [str "BASE TABLE"]])) None None None None.

Lemma push_down_transparent_witness :
  assemble_objects example_batches_fetched example_filters = assemble_objects example_batches_all example_filters /\
  assemble_objects example_batches_all example_filters =
    Ok [mkDbSchema (str "a\x") [mkTable (str "t1") (str "BASE TABLE") [] []]].
Proof.
  split; [|vm_compute; reflexivity].
  apply (push_down_transparent example_filters (matches (str "a\%")) (matches (str "_1")) (fun _ => true)
    (fun s => iff_sym (sql_like_pattern_exact (str "a\%") s)) (fun s => iff_sym (sql_like_pattern_exact (str "_1") s))
    (fun s => conj (fun _ => I) (fun _ => eq_refl)) example_batches_all example_batches_fetched
    (mkObjectRows [str "a\x"; str "ax"; []]
       [(str "a\x", mkTableRow (str "t1") (str "BASE TABLE")); (str "a\x", mkTableRow (str "t22") (str "BASE TABLE"));
        (str "ax", mkTableRow (str "t1") (str "VIEW"))] [] [] [] [])); vm_compute; reflexivity.
Defined.

Lemma filters_bound_not_spliced_witness :
  fst (filtered_sql (str "SELECT 1") None [(str "A", Some (str "x' OR '1'='1"))] None) =
  fst (filtered_sql (str "SELECT 1") None [(str "A", Some (str "%"))] None).
Proof.
  apply (filters_bound_not_spliced (str "SELECT 1") None None [(str "A", Some (str "x' OR '1'='1"))]
    [(str "A", Some (str "%"))]); reflexivity.
Defined.

(** A key whose two columns reference the second and the first column of another. *)
Definition example_fk_rows : list KeyColumnRow :=
  [mkKeyColumnRow (str "x") [] (str "child") (str "1") (Some (str "2"));
   mkKeyColumnRow (str "y") [] (str "child") (str "2") (Some (str "1"))].
Definition example_pk_rows : list KeyColumnRow :=
  [mkKeyColumnRow (str "a") [] (str "parent") (str "1") None; mkKeyColumnRow (str "b") [] (str "parent") (str "2") None].

Definition example_keys : gmap (rstr * rstr) (list KeyColumnRow) :=
  <[([], str "FK") := example_fk_rows]> (<[([], str "PK") := example_pk_rows]> ∅).

Definition example_refs : gmap (rstr * rstr) (rstr * rstr) := <[([], str "FK") := ([], str "PK")]> ∅.

Lemma example_fk_group : get_group example_keys ([], str "FK") = example_fk_rows.
Proof. unfold get_group, example_keys. by rewrite lookup_insert_eq. Qed.

Lemma example_pk_group : get_group example_keys ([], str "PK") = example_pk_rows.
Proof. unfold get_group, example_keys. rewrite lookup_insert_ne by done. by rewrite lookup_insert_eq. Qed.

Lemma example_in_order :
  in_key_order (get_group example_keys ([], str "FK")) /\ in_key_order (get_group example_keys ([], str "PK")).
Proof.
  rewrite example_fk_group, example_pk_group.
  split; intros [|[|i]] k Hk; try done; apply Some_inj in Hk; subst k; vm_compute; reflexivity.
Qed.

Lemma foreign_key_aligned_witness :
  Forall2 (fun u q => exists k, get_group example_keys ([], str "PK") !! q = Some k /\ u = usage_of k)
    (con_usages (constraint_of_row example_keys example_refs [] (mkConstraintRow (str "FK") FOREIGN_KEY))) [1; 0].
Proof.
  apply (foreign_key_aligned example_keys example_refs [] (str "FK") ([], str "PK") [1; 0]).
  - apply lookup_insert_eq.
  - apply example_in_order.
  - apply example_in_order.
  - rewrite example_fk_group. constructor; [exists (str "2"); split; [reflexivity|vm_compute; reflexivity]|].
    constructor; [exists (str "1"); split; [reflexivity|vm_compute; reflexivity]|constructor].
  - rewrite example_pk_group. constructor; [cbn; lia|]. constructor; [cbn; lia|constructor].
Defined.
