(* ===== verification/ObjectsTree.v ===== *)
(** * The nested Arrow result of [get_objects]

    [build] flattens the tree level by level and regroups it with offsets; this
    file gives the tree's direct rendering as a cell, and shows that what is built
    is that rendering.  The shape of the result schema is the one the ADBC
    specification documents, a hypothesis of the results. *)

From stdpp Require Import gmap.
From S2P Require Import Prelude RustStr RustNum ErrorModel Config Stream Metadata Arrow Decode DecodeFacts Nested Objects.

(** ** The documented schema *)

Definition fld (name : String.string) (dt : DataType) (nullable : bool) : Field := Field_new (str name) dt nullable.
Definition item_of (dt : DataType) : Field := fld "item" dt true.

Definition usage_schema : list Field :=
  [fld "fk_catalog" DUtf8 true; fld "fk_db_schema" DUtf8 true; fld "fk_table" DUtf8 false;
   fld "fk_column_name" DUtf8 false].

Definition constraint_schema : list Field :=
  [fld "constraint_name" DUtf8 true; fld "constraint_type" DUtf8 false;
   fld "constraint_column_names" (DList (item_of DUtf8)) false;
   fld "constraint_column_usage" (DList (item_of (DStruct usage_schema))) true].

Definition column_schema : list Field :=
  [fld "column_name" DUtf8 false; fld "ordinal_position" DInt32 true; fld "remarks" DUtf8 true;
   fld "xdbc_data_type" DInt16 true; fld "xdbc_type_name" DUtf8 true; fld "xdbc_column_size" DInt32 true;
   fld "xdbc_decimal_digits" DInt16 true; fld "xdbc_num_prec_radix" DInt16 true; fld "xdbc_nullable" DInt16 true;
   fld "xdbc_column_def" DUtf8 true; fld "xdbc_sql_data_type" DInt16 true; fld "xdbc_datetime_sub" DInt16 true;
   fld "xdbc_char_octet_length" DInt32 true; fld "xdbc_is_nullable" DUtf8 true; fld "xdbc_scope_catalog" DUtf8 true;
   fld "xdbc_scope_schema" DUtf8 true; fld "xdbc_scope_table" DUtf8 true; fld "xdbc_is_autoincrement" DBoolean true;
   fld "xdbc_is_generatedcolumn" DBoolean true].

Definition table_schema : list Field :=
  [fld "table_name" DUtf8 false; fld "table_type" DUtf8 false;
   fld "table_columns" (DList (item_of (DStruct column_schema))) true;
   fld "table_constraints" (DList (item_of (DStruct constraint_schema))) true].

Definition db_schema_schema : list Field :=
  [fld "db_schema_name" DUtf8 true; fld "db_schema_tables" (DList (item_of (DStruct table_schema))) true].

Definition adbc_objects_schema : list Field :=
  [fld "catalog_name" DUtf8 true; fld "catalog_db_schemas" (DList (item_of (DStruct db_schema_schema))) true].

(** ** The tree as a cell *)

Definition column_cell (c : Column) : Cell :=
  CStruct ([CStr (col_name c); CInt (col_ordinal c); CNull; CNull; CStr (col_type_name c)] ++ replicate 8 CNull ++
           [CStr (yes_no (col_nullable c))] ++ replicate 5 CNull).

Definition usage_cell (catalog : rstr) (u : Usage) : Cell :=
  CStruct [CStr catalog; CStr (us_db_schema u); CStr (us_table u); CStr (us_column u)].

Definition constraint_cell (catalog : rstr) (c : Constraint) : Cell :=
  CStruct [from_option CStr CNull (con_name c); CStr (con_type c); CList (map CStr (con_columns c));
           if is_foreign_key c then CList (map (usage_cell catalog) (con_usages c)) else CNull].

(** Below the requested depth a list is null; at or above it, it is there even
    when it is empty. *)
Definition table_cell (depth : ObjectDepth) (catalog : rstr) (t : Table) : Cell :=
  CStruct [CStr (tb_name t); CStr (tb_type t);
           if populate_columns depth then CList (map column_cell (tb_columns t)) else CNull;
           if populate_columns depth then CList (map (constraint_cell catalog) (tb_constraints t)) else CNull].

Definition schema_cell (depth : ObjectDepth) (catalog : rstr) (s : DbSchema) : Cell :=
  CStruct [CStr (ds_name s);
           if populate_tables depth then CList (map (table_cell depth catalog) (ds_tables s)) else CNull].

Definition catalog_row (depth : ObjectDepth) (catalog : rstr) (schemas : list DbSchema) : Cell :=
  if decide (depth = DepthCatalogs) then CNull else CList (map (schema_cell depth catalog) schemas).

Definition all_tables (schemas : list DbSchema) : list Table := concat (map ds_tables schemas).
Definition all_constraints (schemas : list DbSchema) : list Constraint := concat (map tb_constraints (all_tables schemas)).

(** Every flattened level is within an [i32]. *)
Definition levels_fit (schemas : list DbSchema) : Prop :=
  (Z.of_nat (length schemas) <= i32_max)%Z /\
  (Z.of_nat (length (all_tables schemas)) <= i32_max)%Z /\
  (Z.of_nat (length (concat (map tb_columns (all_tables schemas)))) <= i32_max)%Z /\
  (Z.of_nat (length (all_constraints schemas)) <= i32_max)%Z /\
  (Z.of_nat (length (concat (map con_columns (all_constraints schemas)))) <= i32_max)%Z /\
  (Z.of_nat (length (concat (map con_usages (all_constraints schemas)))) <= i32_max)%Z.

(** ** Structs by field name *)

Section Arms.
Context {X : Type}.

(** The arms of a struct as columns, and what each field gets. *)
Definition resolve (arms : list (String.string * (DataType * (X -> Cell)))) (f : Field) : DataType * (X -> Cell) :=
  match List.find (fun '(name, _) => bool_decide (str name = f_name f)) arms with
  | Some (_, tg) => tg
  | None => (f_type f, fun _ => CNull)
  end.

Lemma arm_resolve (xs : list X) arms f :
  arm (length xs) (map (fun '(name, tg) => (name, column_of xs tg)) arms) f = column_of xs (resolve arms f).
Proof.
  unfold arm, resolve. induction arms as [|[name tg] arms IH]; cbn -[str].
  - unfold column_of, new_null_array. cbn. f_equal. induction xs; cbn; by f_equal.
  - by case_bool_decide.
Qed.

Lemma struct_by_arms (xs : list X) arms fields arrays :
  map (fun '(name, tg) => (name, column_of xs tg)) arms = arrays -> fields <> [] ->
  Forall2 (column_spec xs) fields (map (resolve arms) fields) ->
  StructArray_try_new fields (map (arm (length xs) arrays) fields) =
  Ok (mkArray (DStruct fields) (map (fun x => CStruct (map (fun f => snd (resolve arms f) x) fields)) xs)).
Proof.
  intros <- Hne H.
  assert (map (arm (length xs) (map (fun '(name, tg) => (name, column_of xs tg)) arms)) fields =
          map (column_of xs) (map (resolve arms) fields)) as ->
    by (rewrite map_map; apply map_ext; intros; apply arm_resolve).
  rewrite struct_rows; [|by destruct fields|done]. do 2 f_equal. apply map_ext. intros x. by rewrite map_map.
Qed.

End Arms.

Lemma utf8_column {X} (xs : list X) (g : X -> rstr) : utf8_array (map g xs) = column_of xs (DUtf8, fun x => CStr (g x)).
Proof. unfold utf8_array, column_of. cbn. by rewrite map_map. Qed.

(** Solve the typing of concrete fields and their arms. *)
Ltac solve_columns :=
  repeat match goal with
  | |- Forall2 _ _ _ => constructor
  | |- column_spec _ _ _ => split; [reflexivity|first [by left | by right]]
  end.

(** ** The levels *)

Lemma column_struct_cells columns :
  build_column_struct column_schema columns = Ok (mkArray (DStruct column_schema) (map column_cell columns)).
Proof.
  unfold build_column_struct.
  rewrite (struct_by_arms columns
    [("column_name"%string, (DUtf8, fun c => CStr (col_name c)));
     ("ordinal_position"%string, (DInt32, fun c => CInt (col_ordinal c)));
     ("xdbc_type_name"%string, (DUtf8, fun c => CStr (col_type_name c)));
     ("xdbc_is_nullable"%string, (DUtf8, fun c => CStr (yes_no (col_nullable c))))]).
  - reflexivity.
  - cbn [map]. by rewrite !utf8_column.
  - done.
  - solve_columns.
Qed.

Lemma usage_struct_cells catalog usages :
  build_usage_struct usage_schema catalog usages = Ok (mkArray (DStruct usage_schema) (map (usage_cell catalog) usages)).
Proof.
  unfold build_usage_struct.
  rewrite (struct_by_arms usages
    [("fk_catalog"%string, (DUtf8, fun _ => CStr catalog));
     ("fk_db_schema"%string, (DUtf8, fun u => CStr (us_db_schema u)));
     ("fk_table"%string, (DUtf8, fun u => CStr (us_table u)));
     ("fk_column_name"%string, (DUtf8, fun u => CStr (us_column u)))]).
  - reflexivity.
  - cbn [map]. by rewrite !utf8_column.
  - done.
  - solve_columns.
Qed.

Lemma constraint_struct_cells catalog constraints :
  (Z.of_nat (length (concat (map con_columns constraints))) <= i32_max)%Z ->
  (Z.of_nat (length (concat (map con_usages constraints))) <= i32_max)%Z ->
  build_constraint_struct constraint_schema catalog constraints =
  Ok (mkArray (DStruct constraint_schema) (map (constraint_cell catalog) constraints)).
Proof.
  intros Hc Hu. unfold build_constraint_struct.
  change (field constraint_schema "constraint_column_names")
    with (Ok (fld "constraint_column_names" (DList (item_of DUtf8)) false) : Result Field).
  change (field constraint_schema "constraint_column_usage")
    with (Ok (fld "constraint_column_usage" (DList (item_of (DStruct usage_schema))) true) : Result Field).
  pose proof (list_of_children (item_of DUtf8) constraints con_columns CStr Hc eq_refl) as Hnames.
  pose proof (list_of_nullable_children (item_of (DStruct usage_schema)) constraints con_usages (usage_cell catalog)
    is_foreign_key Hu eq_refl) as Husages.
  cbn [mbind Result_mbind list_item f_type fld Field_new item_of] in *.
  change (mkArray DUtf8 (map CStr ?l)) with (utf8_array l) in Hnames. rewrite Hnames. cbn [mbind Result_mbind]. change (struct_fields (item_of (DStruct usage_schema))) with (Ok usage_schema : Result (list Field)).
  cbn [mbind Result_mbind]. rewrite usage_struct_cells. cbn [mbind Result_mbind].
  rewrite Husages. cbn [mbind Result_mbind].
  rewrite (struct_by_arms constraints
    [("constraint_name"%string, (DUtf8, fun c => from_option CStr CNull (con_name c)));
     ("constraint_type"%string, (DUtf8, fun c => CStr (con_type c)));
     ("constraint_column_names"%string, (DList (item_of DUtf8), fun c => CList (map CStr (con_columns c))));
     ("constraint_column_usage"%string, (DList (item_of (DStruct usage_schema)),
        fun c => if is_foreign_key c then CList (map (usage_cell catalog) (con_usages c)) else CNull))]).
  - reflexivity.
  - cbn [map]. rewrite !utf8_column. unfold opt_utf8_array. rewrite map_map. done.
  - done.
  - solve_columns.
Qed.

Lemma table_array_cells depth catalog schemas :
  levels_fit schemas ->
  build_tables depth catalog (fld "db_schema_tables" (DList (item_of (DStruct table_schema))) true) schemas =
  Ok (mkArray (DList (item_of (DStruct table_schema)))
        (map (fun s => CList (map (table_cell depth catalog) (ds_tables s))) schemas)).
Proof.
  intros (_ & Ht & Hc & Hk & Hkc & Hku). unfold build_tables. fold (all_tables schemas).
  cbn [list_item f_type fld Field_new mbind Result_mbind].
  change (struct_fields (item_of (DStruct table_schema))) with (Ok table_schema : Result (list Field)).
  cbn [mbind Result_mbind].
  change (field table_schema "table_columns")
    with (Ok (fld "table_columns" (DList (item_of (DStruct column_schema))) true) : Result Field).
  change (field table_schema "table_constraints")
    with (Ok (fld "table_constraints" (DList (item_of (DStruct constraint_schema))) true) : Result Field).
  cbn [mbind Result_mbind list_item f_type fld Field_new].
  change (struct_fields (item_of (DStruct column_schema))) with (Ok column_schema : Result (list Field)).
  change (struct_fields (item_of (DStruct constraint_schema))) with (Ok constraint_schema : Result (list Field)).
  assert (forall (dt : DataType) (n : nat) (g : Table -> Cell), n = length (all_tables schemas) ->
    (forall t, g t = CNull) -> new_null_array dt n = column_of (all_tables schemas) (dt, g)) as Hnull.
  { intros dt n g -> Hg. unfold new_null_array, column_of. cbn. f_equal. clear -Hg.
    induction (all_tables schemas) as [|t ts IH]; cbn; [done|]. by rewrite Hg, IH. }
  set (cons := if populate_columns depth then _ else _).
  assert (cons = Ok (column_of (all_tables schemas) (DList (item_of (DStruct constraint_schema)),
    fun t => if populate_columns depth then CList (map (constraint_cell catalog) (tb_constraints t)) else CNull))) as ->.
  { unfold cons. destruct (populate_columns depth).
    - cbn [mbind Result_mbind]. fold (all_constraints schemas). rewrite constraint_struct_cells by done.
      cbn [mbind Result_mbind].
      by apply (list_of_children (item_of (DStruct constraint_schema)) (all_tables schemas) tb_constraints (constraint_cell catalog)).
    - f_equal. by apply Hnull. }
  set (cols := if populate_columns depth then _ else _).
  assert (cols = Ok (column_of (all_tables schemas) (DList (item_of (DStruct column_schema)),
    fun t => if populate_columns depth then CList (map column_cell (tb_columns t)) else CNull))) as ->.
  { unfold cols. destruct (populate_columns depth).
    - cbn [mbind Result_mbind]. rewrite column_struct_cells. cbn [mbind Result_mbind].
      by apply (list_of_children (item_of (DStruct column_schema)) (all_tables schemas) tb_columns column_cell).
    - f_equal. by apply Hnull. }
  cbn [mbind Result_mbind]. rewrite !utf8_column.
  match goal with |- context [StructArray_try_new _ [column_of _ ?a; column_of _ ?b; column_of _ ?c; column_of _ ?d]] =>
    pose proof (struct_rows table_schema (all_tables schemas) [a; b; c; d]) as Hs end.
  cbn [map snd] in Hs. rewrite Hs; [|done|solve_columns].
  cbn [mbind Result_mbind].
  by apply (list_of_children (item_of (DStruct table_schema)) schemas ds_tables (table_cell depth catalog)).
Qed.

Lemma schema_array_cells depth catalog schemas :
  levels_fit schemas ->
  build_schemas depth catalog (item_of (DStruct db_schema_schema)) db_schema_schema schemas =
  Ok (mkArray (DList (item_of (DStruct db_schema_schema))) [CList (map (schema_cell depth catalog) schemas)]).
Proof.
  intros H. unfold build_schemas.
  change (field db_schema_schema "db_schema_tables")
    with (Ok (fld "db_schema_tables" (DList (item_of (DStruct table_schema))) true) : Result Field).
  cbn [mbind Result_mbind].
  set (tables := if populate_tables depth then _ else _).
  assert (tables = Ok (column_of schemas (DList (item_of (DStruct table_schema)),
    fun s => if populate_tables depth then CList (map (table_cell depth catalog) (ds_tables s)) else CNull))) as ->.
  { unfold tables. destruct (populate_tables depth); [by apply table_array_cells|].
    f_equal. unfold new_null_array, column_of. cbn. f_equal. clear. induction schemas; cbn; by f_equal. }
  cbn [mbind Result_mbind]. rewrite utf8_column.
  match goal with |- context [StructArray_try_new _ [column_of _ ?a; column_of _ ?b]] =>
    pose proof (struct_rows db_schema_schema schemas [a; b]) as Hs end.
  cbn [map snd] in Hs. rewrite Hs; [|done|solve_columns]. cbn [mbind Result_mbind].
  pose proof (list_of_children (item_of (DStruct db_schema_schema)) [schemas] id (schema_cell depth catalog)) as Hl.
  cbn [map concat id] in Hl. rewrite app_nil_r in Hl. destruct H as (Hn & _). apply Hl; [exact Hn|done].
Qed.

Lemma build_exact (depth : ObjectDepth) (catalog : rstr) (schemas : list DbSchema) :
  levels_fit schemas ->
  build adbc_objects_schema depth catalog schemas =
  Ok (mkBatch adbc_objects_schema
        [mkArray DUtf8 [CStr catalog];
         mkArray (DList (item_of (DStruct db_schema_schema))) [catalog_row depth catalog schemas]] 1).
Proof.
  intros H. unfold build.
  change (field adbc_objects_schema "catalog_db_schemas")
    with (Ok (fld "catalog_db_schemas" (DList (item_of (DStruct db_schema_schema))) true) : Result Field).
  cbn [mbind Result_mbind list_item f_type fld Field_new].
  change (struct_fields (item_of (DStruct db_schema_schema))) with (Ok db_schema_schema : Result (list Field)).
  cbn [mbind Result_mbind].
  set (lists := if decide (depth = DepthCatalogs) then _ else _).
  assert (lists = Ok (mkArray (DList (item_of (DStruct db_schema_schema))) [catalog_row depth catalog schemas])) as ->.
  { unfold lists, catalog_row. case_decide; [done|]. by apply schema_array_cells. }
  cbn [mbind Result_mbind].
  pose proof (batch_rows adbc_objects_schema [tt]
    [(DUtf8, fun _ => CStr catalog); (DList (item_of (DStruct db_schema_schema)), fun _ => catalog_row depth catalog schemas)]) as Hb.
  apply Hb; [done|solve_columns].
Qed.

(** The nested result is the tree.  With the result schema of the ADBC
    specification, and every level small enough for [i32] offsets, [build] makes
    one row, of the catalog's name and the tree rendered directly as a cell: every
    schema with its own tables, every table with its own columns and constraints,
    in order; lists below the requested depth null and the others present even
    when empty; the referenced columns a list for foreign keys, under the
    connection's catalog, and null for every other constraint. *)
Theorem build_objects_exact (GET_OBJECTS_SCHEMA : list Field) (depth : ObjectDepth) (catalog : rstr)
    (schemas : list DbSchema) :
  GET_OBJECTS_SCHEMA = adbc_objects_schema -> levels_fit schemas ->
  build GET_OBJECTS_SCHEMA depth catalog schemas =
  Ok (mkBatch adbc_objects_schema
        [mkArray DUtf8 [CStr catalog];
         mkArray (DList (item_of (DStruct db_schema_schema))) [catalog_row depth catalog schemas]] 1).
Proof. intros ->. apply build_exact. Qed.

(** A database with an empty schema and a table with a primary key. *)
Definition example_tree : list DbSchema :=
  [mkDbSchema [] [mkTable (str "t") (str "BASE TABLE") [mkColumn (str "id") 1 false (str "INT64")]
                    [mkConstraint (Some (str "PK_t")) (str "PRIMARY KEY") [str "id"] []]];
   mkDbSchema (str "s") []].

Lemma build_objects_exact_witness :
  build adbc_objects_schema DepthTables (str "db") example_tree =
  Ok (mkBatch adbc_objects_schema
        [mkArray DUtf8 [CStr (str "db")];
         mkArray (DList (item_of (DStruct db_schema_schema)))
           [CList [CStruct [CStr []; CList [CStruct [CStr (str "t"); CStr (str "BASE TABLE"); CNull; CNull]]];
                   CStruct [CStr (str "s"); CList []]]]] 1).
Proof.
  apply (build_objects_exact adbc_objects_schema DepthTables (str "db") example_tree eq_refl).
  unfold levels_fit. vm_compute. repeat split; discriminate.
Defined.
