(* ===== verification/Statistics.v ===== *)
(** * [src/statistics.rs]: exact table statistics

    The aggregate query of a table with the plan that says what each of its
    columns counts, reading the counts back, regrouping them by schema, and the
    nested Arrow result.  The queries themselves are run by the connection's
    metadata handlers. *)

From stdpp Require Import gmap.
From S2P Require Import Prelude RustStr RustNum ErrorModel Config Sql Stream Metadata Arrow Decode DecodeFacts Nested Objects.

(** The keys of [adbc_core::constants]. *)
Class StatisticKeys := {
  ADBC_STATISTIC_ROW_COUNT_KEY : Z;
  ADBC_STATISTIC_NULL_COUNT_KEY : Z;
  ADBC_STATISTIC_DISTINCT_COUNT_KEY : Z;
}.

(** Their values in adbc.h. *)
Definition adbc_keys : StatisticKeys :=
  {| ADBC_STATISTIC_ROW_COUNT_KEY := 6; ADBC_STATISTIC_NULL_COUNT_KEY := 5; ADBC_STATISTIC_DISTINCT_COUNT_KEY := 1 |}.

Definition INT64_BRANCH : Z := 0.
Definition STATISTICS_SCAN_CONCURRENCY : nat := 8.

Record Statistic := mkStatistic { st_table : rstr; st_column : option rstr; st_key : Z; st_value : Z }.
Record SchemaStatistics := mkSchemaStatistics { ss_db_schema : rstr; ss_statistics : list Statistic }.

Definition is_groupable (spanner_type : rstr) : bool :=
  let t := trim_start spanner_type in
  negb (starts_with (str "ARRAY") t || starts_with (str "STRUCT") t || starts_with (str "PROTO") t
        || bool_decide (t = str "JSON") || bool_decide (t = str "TOKENLIST") || bool_decide (t = str "INTERVAL")).

Section Statistics.
Context {SK : StatisticKeys}.

(** The expressions after the row count, and the plan, column by column. *)
Fixpoint table_exprs (columns : list (rstr * bool)) : Result (list rstr * list (rstr * Z)) :=
  match columns with
  | [] => Ok ([], [])
  | (name, groupable) :: columns =>
      quoted ← quote_ident name;
      '(exprs, plan) ← table_exprs columns;
      let nulls := str "COUNTIF(" ++ quoted ++ str " IS NULL)" in
      if groupable : bool then
        Ok (nulls :: (str "COUNT(DISTINCT " ++ quoted ++ str ")") :: exprs,
            (name, ADBC_STATISTIC_NULL_COUNT_KEY) :: (name, ADBC_STATISTIC_DISTINCT_COUNT_KEY) :: plan)
      else Ok (nulls :: exprs, (name, ADBC_STATISTIC_NULL_COUNT_KEY) :: plan)
  end.

Definition build_table_query (schema table : rstr) (columns : list (rstr * bool)) : Result (rstr * list (rstr * Z)) :=
  '(exprs, plan) ← table_exprs columns;
  target ← qualified_table (Some schema) table;
  Ok (str "SELECT " ++ join (str ", ") (str "COUNT(*)" :: exprs) ++ str " FROM " ++ target, plan).

(** One count of the aggregate row.  [RecordBatch::column] panics on a column that
    is not there: [None]. *)
Definition count_value (batch : Batch) (index : nat) : option (Result Z) :=
  a ← b_columns batch !! index;
  Some (match a with
        | mkArray DInt64 [_] => Ok (int_value a 0)
        | _ => Err (err [Lit "statistic aggregate is not a single integer"] Internal)
        end).

Fixpoint plan_values (batch : Batch) (table : rstr) (plan : list (rstr * Z)) (index : nat) :
    option (Result (list Statistic)) :=
  match plan with
  | [] => Some (Ok [])
  | (column, key) :: plan =>
      v ← count_value batch index;
      match v with
      | Err e => Some (Err e)
      | Ok v =>
          rest ← plan_values batch table plan (S index);
          Some (rest ← rest; Ok (mkStatistic table (Some column) key v :: rest))
      end
  end.

Definition parse_table_statistics (batch : Batch) (table : rstr) (plan : list (rstr * Z)) :
    option (Result (list Statistic)) :=
  v ← count_value batch 0;
  match v with
  | Err e => Some (Err e)
  | Ok v =>
      rest ← plan_values batch table plan 1;
      Some (rest ← rest; Ok (mkStatistic table None ADBC_STATISTIC_ROW_COUNT_KEY v :: rest))
  end.

(** ** Planning the scans *)

Record PreparedTable := mkPreparedTable {
  pt_schema : rstr;
  pt_table : rstr;
  pt_sql : rstr;
  pt_plan : list (rstr * Z);
}.

(** The columns of every table, [columns_by_table]. *)
Definition statistics_columns (batch : Batch) : Result (list ((rstr * rstr) * (rstr * bool))) :=
  cts ← str_col batch 0; ctn ← str_col batch 1; ccn ← str_col batch 2; ctype ← str_col batch 3;
  Ok (map (fun r => ((str_value cts r, str_value ctn r), (str_value ccn r, is_groupable (str_value ctype r))))
        (seq 0 (b_rows batch))).

(** The tables in batch order; a table's columns are removed from the map. *)
Fixpoint prepare_loop (db_schema table_name : option rstr) (tables : list (rstr * rstr))
    (columns_by_table : gmap (rstr * rstr) (list (rstr * bool))) : Result (list PreparedTable) :=
  match tables with
  | [] => Ok []
  | (schema, table) :: tables =>
      if passes db_schema schema && passes table_name table then
        '(sql, plan) ← build_table_query schema table (get_group columns_by_table (schema, table));
        rest ← prepare_loop db_schema table_name tables (delete (schema, table) columns_by_table);
        Ok (mkPreparedTable schema table sql plan :: rest)
      else prepare_loop db_schema table_name tables columns_by_table
  end.

Definition prepare_tables (table_batch column_batch : Batch) (db_schema table_name : option rstr) :
    Result (list PreparedTable) :=
  ts ← str_col table_batch 0; tn ← str_col table_batch 1;
  columns ← statistics_columns column_batch;
  prepare_loop db_schema table_name
    (map (fun r => (str_value ts r, str_value tn r)) (seq 0 (b_rows table_batch))) (group_rows columns).

(** ** Regrouping *)

Definition extend (s : SchemaStatistics) (stats : list Statistic) : SchemaStatistics :=
  mkSchemaStatistics (ss_db_schema s) (ss_statistics s ++ stats).

(** [schemas] in first-seen order and the index of each schema's slot. *)
Definition regroup_step (acc : list SchemaStatistics * gmap rstr nat) (item : rstr * list Statistic) :
    list SchemaStatistics * gmap rstr nat :=
  let '(schemas, index) := acc in
  let '(schema, stats) := item in
  match index !! schema with
  | Some idx => (alter (fun s => extend s stats) idx schemas, index)
  | None => (schemas ++ [mkSchemaStatistics schema stats], <[schema := length schemas]> index)
  end.

Definition regroup (items : list (rstr * list Statistic)) : list SchemaStatistics :=
  fst (foldl regroup_step ([], ∅) items).

(** The counts of the scans, parsed and regrouped. *)
Fixpoint parse_all (prepared : list PreparedTable) (batches : list Batch) :
    option (Result (list (rstr * list Statistic))) :=
  match prepared, batches with
  | p :: prepared, b :: batches =>
      stats ← parse_table_statistics b (pt_table p) (pt_plan p);
      match stats with
      | Err e => Some (Err e)
      | Ok stats =>
          rest ← parse_all prepared batches;
          Some (rest ← rest; Ok ((pt_schema p, stats) :: rest))
      end
  | _, _ => Some (Ok [])
  end.

Definition statistics_of (prepared : list PreparedTable) (batches : list Batch) :
    option (Result (list SchemaStatistics)) :=
  (fun items : Result (list (rstr * list Statistic)) => regroup <$> items) <$> parse_all prepared batches.

End Statistics.

(** ** The nested result *)

Definition build_statistic_struct (stat_fields : list Field) (stats : list Statistic) : Result Array :=
  let n := length stats in
  value_field ← field stat_fields "statistic_value";
  union_fields ← match f_type value_field with
                 | DUnion fields => Ok fields
                 | _ => Err (shape_err [Lit "`statistic_value` to be a union"])
                 end;
  statistic_value ← dense_union union_fields [(INT64_BRANCH, mkArray DInt64 (map (fun s => CInt (st_value s)) stats))]
    (replicate n INT64_BRANCH) (map Z.of_nat (seq 0 n));
  StructArray_try_new stat_fields
    (map (arm n
       [("table_name"%string, utf8_array (map st_table stats));
        ("column_name"%string, opt_utf8_array (map st_column stats));
        ("statistic_key"%string, mkArray DInt16 (map (fun s => CInt (st_key s)) stats));
        ("statistic_value"%string, statistic_value);
        ("statistic_is_approximate"%string, mkArray DBoolean (replicate n (CBool false)))]) stat_fields).

Definition build_statistics (catalog : rstr) (schemas : list SchemaStatistics) (out_schema : list Field) : Result Batch :=
  db_schemas_field ← field out_schema "catalog_db_schemas";
  db_schema_item ← list_item db_schemas_field;
  db_schema_fields ← struct_fields db_schema_item;
  stats_field ← field db_schema_fields "db_schema_statistics";
  stat_item ← list_item stats_field;
  stat_fields ← struct_fields stat_item;
  stat_struct ← build_statistic_struct stat_fields (concat (map ss_statistics schemas));
  db_schema_statistics ← list_of stat_item (map (fun s => length (ss_statistics s)) schemas) stat_struct;
  db_schema_struct ← StructArray_try_new db_schema_fields
    [utf8_array (map ss_db_schema schemas); db_schema_statistics];
  catalog_db_schemas ← list_of db_schema_item [length schemas] db_schema_struct;
  RecordBatch_try_new out_schema [utf8_array [catalog]; catalog_db_schemas].

(** ** [src/info.rs] *)

(** The info codes the driver knows, and any other. *)
Inductive InfoCode :=
  | VendorName | VendorVersion | VendorArrowVersion | VendorSql | VendorSubstrait
  | VendorSubstraitMinVersion | VendorSubstraitMaxVersion
  | DriverName | DriverVersion | DriverArrowVersion | DriverAdbcVersion
  | OtherCode (n : Z).

#[export] Instance InfoCode_eq_dec : EqDecision InfoCode.
Proof. solve_decision. Defined.

Definition VENDOR_NAME : rstr := str "Google Cloud Spanner".
Definition DRIVER_NAME : rstr := str "spanner-adbc".

(** The versions fixed when the driver is built, and [u32::from(InfoCode)] of
    [adbc_core]. *)
Class InfoConstants := {
  DRIVER_VERSION : rstr;
  ARROW_VERSION : rstr;
  code_number : InfoCode -> Z;
}.

Section Info.
Context {IC : InfoConstants}.

Definition STRING_VALUE : Z := 0.
Definition BOOL_VALUE : Z := 1.
Definition INT64_VALUE : Z := 2.
Definition ADBC_VERSION_1_1_0 : Z := 1001000.

Definition REPORTED : list InfoCode :=
  [VendorName; VendorVersion; VendorArrowVersion; VendorSql; VendorSubstrait; VendorSubstraitMinVersion;
   VendorSubstraitMaxVersion; DriverName; DriverVersion; DriverArrowVersion; DriverAdbcVersion].

Inductive InfoValue := IvStr (s : rstr) | IvBool (b : bool) | IvInt (i : Z) | IvNull.

Definition value_for (code : InfoCode) : InfoValue :=
  match code with
  | VendorName => IvStr VENDOR_NAME
  | VendorSql => IvBool true
  | VendorSubstrait => IvBool false
  | DriverName => IvStr DRIVER_NAME
  | DriverVersion => IvStr DRIVER_VERSION
  | DriverArrowVersion => IvStr ARROW_VERSION
  | DriverAdbcVersion => IvInt ADBC_VERSION_1_1_0
  | _ => IvNull
  end.

(** A [HashSet] of requested codes is a list without repetitions, in any order. *)
Definition info_codes (codes : option (list InfoCode)) : list InfoCode :=
  match codes with
  | Some set => sort_by_key code_number (List.filter (fun c => bool_decide (c ∈ REPORTED)) set)
  | None => REPORTED
  end.

Record InfoColumns := mkInfoColumns {
  ic_type_ids : list Z;
  ic_offsets : list Z;
  ic_strings : list Cell;
  ic_bools : list Cell;
  ic_ints : list Cell;
}.

Definition info_step (acc : InfoColumns) (code : InfoCode) : InfoColumns :=
  let 'mkInfoColumns ids offs ss bs zs := acc in
  match value_for code with
  | IvStr s => mkInfoColumns (ids ++ [STRING_VALUE]) (offs ++ [Z.of_nat (length ss)]) (ss ++ [CStr s]) bs zs
  | IvNull => mkInfoColumns (ids ++ [STRING_VALUE]) (offs ++ [Z.of_nat (length ss)]) (ss ++ [CNull]) bs zs
  | IvBool b => mkInfoColumns (ids ++ [BOOL_VALUE]) (offs ++ [Z.of_nat (length bs)]) ss (bs ++ [CBool b]) zs
  | IvInt i => mkInfoColumns (ids ++ [INT64_VALUE]) (offs ++ [Z.of_nat (length zs)]) ss bs (zs ++ [CInt i])
  end.

Definition info_columns (codes : list InfoCode) : InfoColumns := foldl info_step (mkInfoColumns [] [] [] [] []) codes.

Definition build_info (GET_INFO_SCHEMA : list Field) (codes : option (list InfoCode)) : Result Batch :=
  let codes := info_codes codes in
  let cols := info_columns codes in
  union_fields ← match f_type <$> GET_INFO_SCHEMA !! 1 with
                 | Some (DUnion fields) => Ok fields
                 | _ => Err (shape_err [Lit "`info_value` to be a union"])
                 end;
  info_value ← dense_union union_fields
    [(STRING_VALUE, mkArray DUtf8 (ic_strings cols)); (BOOL_VALUE, mkArray DBoolean (ic_bools cols));
     (INT64_VALUE, mkArray DInt64 (ic_ints cols))] (ic_type_ids cols) (ic_offsets cols);
  RecordBatch_try_new GET_INFO_SCHEMA [mkArray DUInt32 (map (fun c => CInt (code_number c)) codes); info_value].

End Info.
