(* ===== verification/StatisticsFacts.v ===== *)
(** * Properties of statistics and driver information

    Every reported count is the count of its own expression of the query; the
    regrouping keeps every statistic under its schema; the nested results hold
    what was computed. *)

From Stdlib Require Import Sorted.
From stdpp Require Import gmap.
From S2P Require Import Prelude RustStr RustNum ErrorModel Config Sql SqlFacts Stream Metadata Arrow Decode DecodeFacts Nested Objects ObjectsFacts ObjectsTree Statistics.

(** ** Counts *)

Section Counts.
Context {SK : StatisticKeys}.

Definition quoted (name : rstr) : rstr := [cBTICK] ++ name ++ [cBTICK].
Definition null_expr (name : rstr) : rstr := str "COUNTIF(" ++ quoted name ++ str " IS NULL)".
Definition distinct_expr (name : rstr) : rstr := str "COUNT(DISTINCT " ++ quoted name ++ str ")".

Definition exprs_of (columns : list (rstr * bool)) : list rstr :=
  flat_map (fun '(name, groupable) => null_expr name :: if groupable : bool then [distinct_expr name] else []) columns.

Definition plan_of (columns : list (rstr * bool)) : list (rstr * Z) :=
  flat_map (fun '(name, groupable) =>
              (name, ADBC_STATISTIC_NULL_COUNT_KEY) ::
              if groupable : bool then [(name, ADBC_STATISTIC_DISTINCT_COUNT_KEY)] else []) columns.

(** The statistics of a table's columns, when [count] is what an expression
    evaluates to. *)
Definition stats_of (count : rstr -> Z) (table : rstr) (columns : list (rstr * bool)) : list Statistic :=
  flat_map (fun '(name, groupable) =>
              mkStatistic table (Some name) ADBC_STATISTIC_NULL_COUNT_KEY (count (null_expr name)) ::
              if groupable : bool then
                [mkStatistic table (Some name) ADBC_STATISTIC_DISTINCT_COUNT_KEY (count (distinct_expr name))]
              else []) columns.

(** The row an aggregate query returns for its expressions. *)
Definition counts_batch (count : rstr -> Z) (exprs : list rstr) : Batch :=
  mkBatch (map (fun _ => Field_new [] DInt64 true) exprs) (map (fun e => mkArray DInt64 [CInt (count e)]) exprs) 1.

Lemma quote_ident_text name q : quote_ident name = Ok q -> q = quoted name.
Proof.
  unfold quote_ident. destruct name as [|c name]; [done|]. destruct (List.find _ _); [done|]. intros H.
  by apply Ok_inj in H as <-.
Qed.

Lemma table_exprs_Ok columns exprs plan :
  table_exprs columns = Ok (exprs, plan) -> exprs = exprs_of columns /\ plan = plan_of columns.
Proof.
  revert exprs plan. induction columns as [|[name g] columns IH]; intros exprs plan H; cbn -[str] in H.
  - by simplify_eq.
  - destruct (quote_ident name) as [q|] eqn:Eq; [|done]. apply quote_ident_text in Eq as ->.
    cbn -[str] in H. destruct (table_exprs columns) as [[es ps]|] eqn:Et; [|done].
    destruct (IH _ _ eq_refl) as [-> ->]. cbn -[str] in H.
    destruct g; apply Ok_inj, pair_equal_spec in H as [<- <-]; done.
Qed.

Lemma plan_values_spec count table columns (pre exprs : list rstr) index :
  exprs = exprs_of columns -> index = length pre ->
  plan_values (counts_batch count (pre ++ exprs)) table (plan_of columns) index =
  Some (Ok (stats_of count table columns)).
Proof.
  intros -> ->. revert pre. induction columns as [|[name g] columns IH]; intros pre; [done|].
  assert (forall pre e rest, count_value (counts_batch count (pre ++ e :: rest)) (length pre) = Some (Ok (count e))) as Hcv.
  { intros p e rest. unfold count_value, counts_batch. cbn [b_columns]. rewrite map_app.
    rewrite lookup_app_r by (by rewrite length_map). rewrite length_map, Nat.sub_diag. done. }
  cbn [exprs_of plan_of stats_of flat_map]. fold (exprs_of columns) (plan_of columns) (stats_of count table columns).
  cbn [plan_values app]. rewrite Hcv. cbn [mbind option_bind].
  destruct g; cbn [app plan_values].
  - change (S (length pre)) with (1 + length pre).
    replace (pre ++ null_expr name :: distinct_expr name :: exprs_of columns)
      with ((pre ++ [null_expr name]) ++ distinct_expr name :: exprs_of columns) by (by rewrite <- app_assoc).
    replace (1 + length pre) with (length (pre ++ [null_expr name])) by (rewrite length_app; cbn; lia).
    rewrite Hcv. cbn [mbind option_bind].
    replace ((pre ++ [null_expr name]) ++ distinct_expr name :: exprs_of columns)
      with ((pre ++ [null_expr name; distinct_expr name]) ++ exprs_of columns) by (by rewrite <- !app_assoc).
    replace (S (length (pre ++ [null_expr name]))) with (length (pre ++ [null_expr name; distinct_expr name]))
      by (rewrite !length_app; cbn; lia).
    by rewrite IH.
  - replace (pre ++ null_expr name :: exprs_of columns)
      with ((pre ++ [null_expr name]) ++ exprs_of columns) by (by rewrite <- app_assoc).
    replace (S (length pre)) with (length (pre ++ [null_expr name])) by (rewrite length_app; cbn; lia).
    by rewrite IH.
Qed.

(** Every statistic is the count of its own column.  The query of a table
    counts its rows, then, column by column, the nulls and, for the types that
    can be grouped, the distinct values, over the column's quoted name; and
    reading the one row it returns, whatever the counts, gives the row count and
    for each column exactly the values of its own expressions, under their keys:
    skipping the distinct count of some columns shifts no other. *)
Theorem statistics_aligned (schema table : rstr) (columns : list (rstr * bool)) (sql : rstr) (plan : list (rstr * Z))
    (count : rstr -> Z) :
  build_table_query schema table columns = Ok (sql, plan) ->
  exists target, qualified_table (Some schema) table = Ok target /\
    sql = str "SELECT " ++ join (str ", ") (str "COUNT(*)" :: exprs_of columns) ++ str " FROM " ++ target /\
    parse_table_statistics (counts_batch count (str "COUNT(*)" :: exprs_of columns)) table plan =
    Some (Ok (mkStatistic table None ADBC_STATISTIC_ROW_COUNT_KEY (count (str "COUNT(*)")) ::
              stats_of count table columns)).
Proof.
  unfold build_table_query. intros H. inv_bind H. destruct a as [exprs p]. inv_bind H.
  apply Ok_inj in H. apply pair_equal_spec in H as [Hsql ->].
  destruct (table_exprs_Ok _ _ _ E) as [-> ->]. exists a. split; [done|]. split; [done|].
  unfold parse_table_statistics.
  change (count_value _ 0) with (Some (Ok (count (str "COUNT(*)")) : Result Z)). cbn [mbind option_bind].
  change (str "COUNT(*)" :: exprs_of columns) with ([str "COUNT(*)"] ++ exprs_of columns).
  by rewrite (plan_values_spec count table columns [str "COUNT(*)"] (exprs_of columns) 1).
Qed.

End Counts.

(** ** Regrouping *)

(** The schemas in the order they are first seen. *)
Definition first_seen (l : list rstr) : list rstr := foldl (fun acc k => if decide (k ∈ acc) then acc else acc ++ [k]) [] l.

Lemma first_seen_snoc l k :
  first_seen (l ++ [k]) = if decide (k ∈ first_seen l) then first_seen l else first_seen l ++ [k].
Proof. unfold first_seen. by rewrite foldl_app. Qed.

Lemma first_seen_NoDup l : NoDup (first_seen l).
Proof.
  induction l as [|k l IH] using rev_ind; [constructor|]. rewrite first_seen_snoc. case_decide; [done|].
  apply NoDup_app. split_and!; [done| |apply NoDup_singleton]. intros x Hx Hk. apply list_elem_of_singleton in Hk as ->. done.
Qed.

Lemma elem_of_first_seen l k : k ∈ first_seen l <-> k ∈ l.
Proof.
  induction l as [|x l IH] using rev_ind; [done|]. rewrite first_seen_snoc. case_decide; set_solver.
Qed.

Definition gathered (items : list (rstr * list Statistic)) (s : rstr) : SchemaStatistics :=
  mkSchemaStatistics s (concat (of_key s items)).

Lemma gathered_snoc items k stats s :
  gathered (items ++ [(k, stats)]) s = if decide (k = s) then extend (gathered items s) stats else gathered items s.
Proof.
  unfold gathered, extend. rewrite of_key_app. unfold of_key at 2. cbn [List.filter fst]. case_decide as Hk.
  - rewrite bool_decide_eq_true_2 by done. cbn [map snd ss_db_schema ss_statistics]. rewrite concat_app. cbn [concat]. by rewrite app_nil_r.
  - rewrite bool_decide_eq_false_2 by done. cbn. by rewrite app_nil_r.
Qed.

Lemma regroup_inv items :
  let r := foldl regroup_step ([], ∅) items in
  fst r = map (gathered items) (first_seen (map fst items)) /\
  (forall s i, snd r !! s = Some i <-> first_seen (map fst items) !! i = Some s).
Proof.
  induction items as [|[k stats] items IH] using rev_ind; cbn zeta.
  - split; [done|]. intros s i. cbn. rewrite lookup_empty. by split.
  - rewrite foldl_app, map_app. cbn [foldl map fst]. rewrite first_seen_snoc.
    destruct (foldl regroup_step ([], ∅) items) as [schemas index]. cbn [fst snd] in IH. destruct IH as [Hs Hi].
    cbn [regroup_step]. destruct (index !! k) as [idx|] eqn:Ek.
    + pose proof (proj1 (Hi k idx) Ek) as Hk. rewrite decide_True by (by eapply list_elem_of_lookup_2). cbn [fst snd].
      split; [|done]. subst schemas. apply list_eq. intros j.
      destruct (decide (idx = j)) as [<-|Hne].
      * rewrite list_lookup_alter_eq, !list_lookup_fmap, Hk. cbn. by rewrite gathered_snoc, decide_True.
      * rewrite list_lookup_alter_ne, !list_lookup_fmap by done.
        destruct (first_seen (map fst items) !! j) as [s|] eqn:Ej; [|done]. cbn. rewrite gathered_snoc, decide_False; [done|].
        intros ->. apply Hne. by eapply NoDup_lookup; [apply first_seen_NoDup|..].
    + rewrite decide_False.
      2: { intros [i Hin]%list_elem_of_lookup. apply Hi in Hin. congruence. }
      cbn [fst snd]. subst schemas. rewrite length_map. split.
      * rewrite map_app. cbn [map]. f_equal.
        -- apply map_ext_in. intros s Hin. rewrite gathered_snoc, decide_False; [done|]. intros ->.
           apply list_elem_of_In, list_elem_of_lookup in Hin as [i Hin]. apply Hi in Hin. congruence.
        -- f_equal. rewrite gathered_snoc, decide_True by done. unfold extend, gathered. cbn. f_equal.
           assert (of_key k items = []) as ->; [|done]. unfold of_key.
           assert (List.filter (fun kv => bool_decide (kv.1 = k)) items = []) as ->; [|done].
           assert (k ∉ map fst items) as Hn.
           { rewrite <- elem_of_first_seen. intros [i Hin]%list_elem_of_lookup. apply Hi in Hin. congruence. }
           clear -Hn. induction items as [|[x v] items IH]; [done|]. cbn in *. rewrite bool_decide_eq_false_2 by set_solver.
           apply IH. set_solver.
      * intros s i. destruct (decide (s = k)) as [->|Hne].
        -- rewrite lookup_insert_eq. split.
           ++ intros [= <-]. by rewrite lookup_app_r, Nat.sub_diag by done.
           ++ intros Hin. apply lookup_app_Some in Hin as [Hin|[Hge Hin]]; [apply Hi in Hin; congruence|].
              destruct (i - length _) eqn:Ed; [|done]. f_equal. lia.
        -- rewrite lookup_insert_ne by done. rewrite Hi. split; [intros; by apply lookup_app_l_Some|].
           intros Hin. apply lookup_app_Some in Hin as [Hin|[Hge Hin]]; [done|].
           destruct (i - length _) as [|n]; [by simplify_eq/=|by destruct n].
Qed.

(** Regrouping loses and mixes nothing.  The schemas come in the order their
    tables were scanned, each once, with all the statistics of its tables, in scan
    order, and no others: the result is the same as collecting, for every schema,
    the statistics listed under it. *)
Theorem regroup_exact (items : list (rstr * list Statistic)) :
  regroup items = map (gathered items) (first_seen (map fst items)) /\
  NoDup (first_seen (map fst items)) /\ (forall s, s ∈ first_seen (map fst items) <-> s ∈ map fst items).
Proof.
  split; [apply regroup_inv|]. split; [apply first_seen_NoDup|]. intros s. apply elem_of_first_seen.
Qed.

(** ** The nested result *)

(** The value union and the result schema the ADBC specification documents. *)
Definition statistic_union : list (Z * Field) :=
  [(0%Z, fld "int64" DInt64 true); (1%Z, fld "uint64" DUInt64 true); (2%Z, fld "float64" DFloat64 true);
   (3%Z, fld "binary" DBinary true)].

Definition statistic_schema : list Field :=
  [fld "table_name" DUtf8 false; fld "column_name" DUtf8 true; fld "statistic_key" DInt16 false;
   fld "statistic_value" (DUnion statistic_union) false; fld "statistic_is_approximate" DBoolean false].

Definition statistics_db_schema : list Field :=
  [fld "db_schema_name" DUtf8 true; fld "db_schema_statistics" (DList (item_of (DStruct statistic_schema))) false].

Definition adbc_statistics_schema : list Field :=
  [fld "catalog_name" DUtf8 true; fld "catalog_db_schemas" (DList (item_of (DStruct statistics_db_schema))) false].

(** A statistic: exact, its value in the int64 branch. *)
Definition statistic_cell (s : Statistic) : Cell :=
  CStruct [CStr (st_table s); from_option CStr CNull (st_column s); CInt (st_key s);
           CUnion INT64_BRANCH (CInt (st_value s)); CBool false].

Definition schema_statistics_cell (s : SchemaStatistics) : Cell :=
  CStruct [CStr (ss_db_schema s); CList (map statistic_cell (ss_statistics s))].

Lemma statistic_values stats :
  dense_union statistic_union [(INT64_BRANCH, mkArray DInt64 (map (fun s => CInt (st_value s)) stats))]
    (replicate (length stats) INT64_BRANCH) (map Z.of_nat (seq 0 (length stats))) =
  Ok (column_of stats (DUnion statistic_union, fun s => CUnion INT64_BRANCH (CInt (st_value s)))).
Proof.
  unfold dense_union, UnionArray_try_new.
  set (children := union_children _ _).
  assert (branch children INT64_BRANCH = Some (mkArray DInt64 (map (fun s => CInt (st_value s)) stats))) as Hb by done.
  assert (forallb (fun '((_, f), (_, a)) => dt_eqb (a_type a) (f_type f)) (zip statistic_union children) = true) as ->
    by done.
  rewrite length_replicate, length_map, length_seq, bool_decide_eq_true_2 by done. cbn [andb].
  assert (forallb (fun '(id, off) => match branch children id with
      | Some a => bool_decide (0 <= off < Z.of_nat (length (a_cells a)))%Z | None => false end)
    (zip (replicate (length stats) INT64_BRANCH) (map Z.of_nat (seq 0 (length stats)))) = true) as ->.
  { apply forallb_forall. intros [id off] Hin. pose proof (in_combine_l _ _ _ _ Hin) as Hid. pose proof (in_combine_r _ _ _ _ Hin) as Hoff.
    apply repeat_spec in Hid || (apply list_elem_of_In, elem_of_replicate in Hid as [Hid _]). subst id.
    rewrite Hb. cbn [a_cells]. rewrite length_map. apply in_map_iff in Hoff as (n & <- & Hn%in_seq).
    apply bool_decide_eq_true. lia. }
  unfold column_of. cbn [fst snd]. do 2 f_equal. apply list_eq. intros i.
  rewrite lookup_zip_with, !list_lookup_fmap. destruct (stats !! i) as [s|] eqn:Es.
  - pose proof (lookup_lt_Some _ _ _ Es). rewrite lookup_replicate_2 by done. cbn [mbind option_bind].
    rewrite lookup_seq_lt by done. cbn [fmap option_fmap option_map mbind option_bind].
    rewrite Hb. cbn [mbind option_bind a_cells]. by rewrite Nat.add_0_l, Nat2Z.id, list_lookup_fmap, Es.
  - apply lookup_ge_None in Es. by rewrite (lookup_ge_None_2 (replicate _ _)) by (rewrite length_replicate; lia).
Qed.

Lemma statistic_struct_cells stats :
  build_statistic_struct statistic_schema stats = Ok (mkArray (DStruct statistic_schema) (map statistic_cell stats)).
Proof.
  unfold build_statistic_struct.
  change (field statistic_schema "statistic_value") with (Ok (fld "statistic_value" (DUnion statistic_union) false) : Result Field).
  cbn [mbind Result_mbind f_type fld Field_new]. rewrite statistic_values. cbn [mbind Result_mbind].
  rewrite (struct_by_arms stats
    [("table_name"%string, (DUtf8, fun s => CStr (st_table s)));
     ("column_name"%string, (DUtf8, fun s => from_option CStr CNull (st_column s)));
     ("statistic_key"%string, (DInt16, fun s => CInt (st_key s)));
     ("statistic_value"%string, (DUnion statistic_union, fun s => CUnion INT64_BRANCH (CInt (st_value s))));
     ("statistic_is_approximate"%string, (DBoolean, fun _ => CBool false))]).
  - reflexivity.
  - cbn [map]. rewrite !utf8_column. unfold opt_utf8_array, column_of. cbn [fst snd]. rewrite map_map. do 5 f_equal.
    clear. f_equal. f_equal. induction stats; cbn; [done|]. by f_equal.
  - done.
  - solve_columns.
Qed.

(** C22: the nested statistics are the statistics.  With the result schema of the
    ADBC specification, and few enough statistics for [i32] offsets, the batch is
    one row of the catalog and its schemas in order, each with its own statistics
    in order; every value is in the [int64] branch of the union and every row says
    that it is exact. *)
Theorem build_statistics_exact (out_schema : list Field) (catalog : rstr) (schemas : list SchemaStatistics) :
  out_schema = adbc_statistics_schema -> (Z.of_nat (length schemas) <= i32_max)%Z ->
  (Z.of_nat (length (concat (map ss_statistics schemas))) <= i32_max)%Z ->
  build_statistics catalog schemas out_schema =
  Ok (mkBatch adbc_statistics_schema
        [mkArray DUtf8 [CStr catalog];
         mkArray (DList (item_of (DStruct statistics_db_schema))) [CList (map schema_statistics_cell schemas)]] 1).
Proof.
  intros -> Hn Hs. unfold build_statistics.
  change (field adbc_statistics_schema "catalog_db_schemas")
    with (Ok (fld "catalog_db_schemas" (DList (item_of (DStruct statistics_db_schema))) false) : Result Field).
  cbn [mbind Result_mbind list_item f_type fld Field_new].
  change (struct_fields (item_of (DStruct statistics_db_schema))) with (Ok statistics_db_schema : Result (list Field)).
  cbn [mbind Result_mbind].
  change (field statistics_db_schema "db_schema_statistics")
    with (Ok (fld "db_schema_statistics" (DList (item_of (DStruct statistic_schema))) false) : Result Field).
  cbn [mbind Result_mbind list_item f_type fld Field_new].
  change (struct_fields (item_of (DStruct statistic_schema))) with (Ok statistic_schema : Result (list Field)).
  cbn [mbind Result_mbind]. rewrite statistic_struct_cells. cbn [mbind Result_mbind].
  pose proof (list_of_children (item_of (DStruct statistic_schema)) schemas ss_statistics statistic_cell Hs eq_refl) as Hl.
  change (f_type (item_of (DStruct statistic_schema))) with (DStruct statistic_schema) in Hl. rewrite Hl. cbn [mbind Result_mbind]. rewrite utf8_column.
  pose proof (struct_rows statistics_db_schema schemas
    [(DUtf8, fun s => CStr (ss_db_schema s));
     (DList (item_of (DStruct statistic_schema)), fun s => CList (map statistic_cell (ss_statistics s)))]) as Hst.
  cbn [map snd] in Hst. change (mkArray (DList ?t) (map ?g schemas)) with (column_of schemas (DList t, g)).
  rewrite Hst; [|done|solve_columns]. cbn [mbind Result_mbind].
  pose proof (list_of_children (item_of (DStruct statistics_db_schema)) [schemas] id schema_statistics_cell) as Ht.
  cbn [map concat id] in Ht. rewrite app_nil_r in Ht.
  change (f_type (item_of (DStruct statistics_db_schema))) with (DStruct statistics_db_schema) in Ht.
  change (list_of _ [length schemas] _) with (list_of (item_of (DStruct statistics_db_schema)) [length schemas]
    (mkArray (DStruct statistics_db_schema) (map schema_statistics_cell schemas))).
  rewrite Ht by done. cbn [mbind Result_mbind].
  pose proof (batch_rows adbc_statistics_schema [tt]
    [(DUtf8, fun _ => CStr catalog);
     (DList (item_of (DStruct statistics_db_schema)), fun _ => CList (map schema_statistics_cell schemas))]) as Hb.
  apply Hb; [done|solve_columns].
Qed.

(** ** Driver information *)

Section InfoFacts.
Context {IC : InfoConstants}.

(** The schema the ADBC specification documents. *)
Definition info_union : list (Z * Field) :=
  [(0%Z, fld "string_value" DUtf8 true); (1%Z, fld "bool_value" DBoolean true); (2%Z, fld "int64_value" DInt64 true);
   (3%Z, fld "int32_bitmask" DInt32 true); (4%Z, fld "string_list" (DList (item_of DUtf8)) true);
   (5%Z, fld "int32_to_int32_list_map" (DOther (str "Map")) true)].

Definition adbc_info_schema : list Field :=
  [fld "info_name" DUInt32 false; fld "info_value" (DUnion info_union) true].

Definition info_cell (code : InfoCode) : Cell :=
  match value_for code with
  | IvStr s => CUnion STRING_VALUE (CStr s)
  | IvNull => CUnion STRING_VALUE CNull
  | IvBool b => CUnion BOOL_VALUE (CBool b)
  | IvInt i => CUnion INT64_VALUE (CInt i)
  end.

(** The slot a type id and an offset select in the three branches. *)
Definition info_slot (ss bs zs : list Cell) (id off : Z) : option Cell :=
  if decide (id = STRING_VALUE) then ss !! Z.to_nat off
  else if decide (id = BOOL_VALUE) then bs !! Z.to_nat off
  else if decide (id = INT64_VALUE) then zs !! Z.to_nat off else None.

Definition slot_of (code : InfoCode) (ss bs zs : list Cell) (io : Z * Z) : Prop :=
  (0 <= snd io)%Z /\ exists c, info_slot ss bs zs (fst io) (snd io) = Some c /\ info_cell code = CUnion (fst io) c.

Lemma slot_of_grows code ss bs zs ss' bs' zs' io :
  slot_of code ss bs zs io -> slot_of code (ss ++ ss') (bs ++ bs') (zs ++ zs') io.
Proof.
  intros (H0 & c & Hc & He). split; [done|]. exists c. split; [|done]. unfold info_slot in *.
  repeat case_decide; try done; by apply lookup_app_l_Some.
Qed.

(** Every row so far selects its value, whatever is appended later. *)
Lemma info_columns_slots codes :
  let r := info_columns codes in
  length (ic_type_ids r) = length codes /\ length (ic_offsets r) = length codes /\
  Forall2 (fun code io => slot_of code (ic_strings r) (ic_bools r) (ic_ints r) io) codes
    (zip (ic_type_ids r) (ic_offsets r)).
Proof.
  induction codes as [|code codes IH] using rev_ind; cbn zeta; [by repeat constructor|].
  unfold info_columns in *. rewrite foldl_app. cbn [foldl].
  destruct (foldl info_step _ codes) as [ids offs ss bs zs]. cbn [ic_type_ids ic_offsets ic_strings ic_bools ic_ints] in IH.
  destruct IH as (Hi & Ho & Hs).
  assert (exists id off ss' bs' zs', info_step (mkInfoColumns ids offs ss bs zs) code =
      mkInfoColumns (ids ++ [id]) (offs ++ [off]) (ss ++ ss') (bs ++ bs') (zs ++ zs') /\
      slot_of code (ss ++ ss') (bs ++ bs') (zs ++ zs') (id, off)) as (id & off & ss' & bs' & zs' & -> & Hslot).
  { unfold info_step, slot_of, info_cell.
    destruct (value_for code) as [s|b|i|].
    - exists STRING_VALUE, (Z.of_nat (length ss)), [CStr s], [], []. rewrite !app_nil_r. split; [done|]. split; [cbn; lia|].
      exists (CStr s). split; [|done]. unfold info_slot. cbn [fst snd]. rewrite decide_True, Nat2Z.id by done.
      by rewrite lookup_app_r, Nat.sub_diag.
    - exists BOOL_VALUE, (Z.of_nat (length bs)), [], [CBool b], []. rewrite !app_nil_r. split; [done|]. split; [cbn; lia|].
      exists (CBool b). split; [|done]. unfold info_slot. cbn [fst snd]. rewrite decide_False, decide_True, Nat2Z.id by done.
      by rewrite lookup_app_r, Nat.sub_diag.
    - exists INT64_VALUE, (Z.of_nat (length zs)), [], [], [CInt i]. rewrite !app_nil_r. split; [done|]. split; [cbn; lia|].
      exists (CInt i). split; [|done]. unfold info_slot. cbn [fst snd].
      rewrite decide_False, decide_False, decide_True, Nat2Z.id by done. by rewrite lookup_app_r, Nat.sub_diag.
    - exists STRING_VALUE, (Z.of_nat (length ss)), [CNull], [], []. rewrite !app_nil_r. split; [done|]. split; [cbn; lia|].
      exists CNull. split; [|done]. unfold info_slot. cbn [fst snd]. rewrite decide_True, Nat2Z.id by done.
      by rewrite lookup_app_r, Nat.sub_diag. }
  cbn [ic_type_ids ic_offsets ic_strings ic_bools ic_ints]. rewrite !length_app. cbn [length].
  split_and!; [lia|lia|]. rewrite zip_with_app by lia. apply Forall2_app; [|constructor; [exact Hslot|constructor]].
  eapply Forall2_impl; [exact Hs|]. intros c io. apply slot_of_grows.
Qed.

Lemma info_union_values codes :
  let r := info_columns codes in
  dense_union info_union
    [(STRING_VALUE, mkArray DUtf8 (ic_strings r)); (BOOL_VALUE, mkArray DBoolean (ic_bools r));
     (INT64_VALUE, mkArray DInt64 (ic_ints r))] (ic_type_ids r) (ic_offsets r) =
  Ok (mkArray (DUnion info_union) (map info_cell codes)).
Proof.
  cbn zeta. destruct (info_columns_slots codes) as (Hi & Ho & Hs). destruct (info_columns codes) as [ids offs ss bs zs].
  cbn [ic_type_ids ic_offsets ic_strings ic_bools ic_ints] in *. unfold dense_union, UnionArray_try_new.
  set (children := union_children _ _).
  assert (forall id off c, info_slot ss bs zs id off = Some c ->
    exists a, branch children id = Some a /\ a_cells a !! Z.to_nat off = Some c) as Hb.
  { intros id off c. unfold info_slot. repeat case_decide; subst; try done; intros Hc; by eexists. }
  assert (forallb (fun '((_, f), (_, a)) => dt_eqb (a_type a) (f_type f)) (zip info_union children) = true) as -> by done.
  rewrite bool_decide_eq_true_2 by lia. cbn [andb].
  assert (forallb (fun '(id, off) => match branch children id with
      | Some a => bool_decide (0 <= off < Z.of_nat (length (a_cells a)))%Z | None => false end) (zip ids offs) = true) as ->.
  { apply forallb_forall. intros [id off] Hin. apply list_elem_of_In in Hin.
    apply list_elem_of_lookup in Hin as [i Hin].
    destruct (Forall2_lookup_r _ _ _ _ _ Hs Hin) as (code & _ & H0 & c & Hc & _). cbn [fst snd] in *.
    destruct (Hb _ _ _ Hc) as (a & -> & Ha). apply lookup_lt_Some in Ha. apply bool_decide_eq_true. lia. }
  do 2 f_equal. clear Hi Ho. revert offs Hs. revert codes.
  induction ids as [|id ids IH]; intros codes offs Hs; [by apply Forall2_nil_inv_r in Hs as ->|].
  destruct offs as [|off offs]; [by apply Forall2_nil_inv_r in Hs as ->|].
  cbn [zip_with] in *. apply Forall2_cons_inv_r in Hs as (code & codes' & (H0 & c & Hc & He) & Hs & ->).
  cbn [map]. rewrite <- (IH codes' offs Hs). f_equal. rewrite He. cbn [fst snd] in *.
  destruct (Hb _ _ _ Hc) as (a & Hba & Ha). rewrite Hba. cbn. by rewrite Ha.
Qed.

Lemma insert_by_key_perm {A} (key : A -> Z) x l : insert_by_key key x l ≡ₚ x :: l.
Proof. induction l as [|y l IH]; cbn; [done|]. case_decide; [done|]. rewrite IH. apply perm_swap. Qed.

Lemma sort_by_key_perm {A} (key : A -> Z) l : sort_by_key key l ≡ₚ l.
Proof. induction l as [|x l IH]; [done|]. rewrite sort_by_key_cons, insert_by_key_perm. by rewrite IH. Qed.

Lemma sort_by_key_sorted {A} (key : A -> Z) l : StronglySorted (fun a b => (key a <= key b)%Z) (sort_by_key key l).
Proof.
  induction l as [|x l IH]; [constructor|]. rewrite sort_by_key_cons. induction IH as [|y l' Hs IH' Hy]; cbn; [by repeat constructor|].
  case_decide.
  - constructor; [by constructor|]. constructor; [done|]. eapply Forall_impl; [exact Hy|]. cbn. lia.
  - constructor; [done|]. rewrite insert_by_key_perm. constructor; [lia|done].
Qed.

(** [get_info] answers exactly the known codes.  With the result schema of the
    ADBC specification, the batch has one row per requested code the driver
    knows, each once, in code order, and none for the others; all the known codes
    when none are requested; and every row's union selects that code's own value,
    null for the codes without a stable one. *)
Theorem build_info_exact (GET_INFO_SCHEMA : list Field) (codes : option (list InfoCode)) :
  GET_INFO_SCHEMA = adbc_info_schema ->
  build_info GET_INFO_SCHEMA codes =
    Ok (mkBatch adbc_info_schema
          [mkArray DUInt32 (map (fun c => CInt (code_number c)) (info_codes codes));
           mkArray (DUnion info_union) (map info_cell (info_codes codes))] (length (info_codes codes))) /\
  match codes with
  | None => info_codes codes = REPORTED
  | Some set =>
      (forall c, c ∈ info_codes codes <-> c ∈ set /\ c ∈ REPORTED) /\ (NoDup set -> NoDup (info_codes codes)) /\
      StronglySorted (fun a b => (code_number a <= code_number b)%Z) (info_codes codes)
  end.
Proof.
  intros ->. split.
  - unfold build_info. change (f_type <$> adbc_info_schema !! 1) with (Some (DUnion info_union)).
    cbn [mbind Result_mbind]. rewrite info_union_values. cbn [mbind Result_mbind].
    pose proof (batch_rows adbc_info_schema (info_codes codes)
      [(DUInt32, fun c => CInt (code_number c)); (DUnion info_union, info_cell)]) as Hb.
    apply Hb; [done|solve_columns].
  - destruct codes as [set|]; [|done]. unfold info_codes. split_and!.
    + intros c. rewrite sort_by_key_perm, list_elem_of_In, filter_In, bool_decide_eq_true, <- list_elem_of_In. done.
    + intros Hn. rewrite sort_by_key_perm. apply NoDup_ListNoDup, List.NoDup_filter. by apply NoDup_ListNoDup.
    + apply sort_by_key_sorted.
Qed.

End InfoFacts.

(** ** Concrete statistics *)

Lemma statistics_aligned_witness :
  parse_table_statistics (SK := adbc_keys)
    (counts_batch (fun e => Z.of_nat (length e)) [str "COUNT(*)"; null_expr (str "j"); null_expr (str "n"); distinct_expr (str "n")])
    (str "t") [(str "j", 5%Z); (str "n", 5%Z); (str "n", 1%Z)] =
  Some (Ok [mkStatistic (str "t") None 6 8; mkStatistic (str "t") (Some (str "j")) 5 20;
            mkStatistic (str "t") (Some (str "n")) 5 20; mkStatistic (str "t") (Some (str "n")) 1 19]).
Proof.
  destruct (statistics_aligned (SK := adbc_keys) [] (str "t") [(str "j", false); (str "n", true)]
    (str "SELECT COUNT(*), COUNTIF(`j` IS NULL), COUNTIF(`n` IS NULL), COUNT(DISTINCT `n`) FROM `t`")
    [(str "j", 5%Z); (str "n", 5%Z); (str "n", 1%Z)] (fun e => Z.of_nat (length e)) ltac:(vm_compute; reflexivity))
    as (target & _ & _ & H).
  exact H.
Defined.

Definition example_statistics : list SchemaStatistics :=
  [mkSchemaStatistics [] [mkStatistic (str "t") None 6 3; mkStatistic (str "t") (Some (str "n")) 5 1]].

Lemma build_statistics_exact_witness :
  build_statistics (str "db") example_statistics adbc_statistics_schema =
  Ok (mkBatch adbc_statistics_schema
        [mkArray DUtf8 [CStr (str "db")];
         mkArray (DList (item_of (DStruct statistics_db_schema)))
           [CList (map schema_statistics_cell example_statistics)]] 1).
Proof.
  apply (build_statistics_exact adbc_statistics_schema (str "db") example_statistics eq_refl);
    vm_compute; discriminate.
Defined.

(** Constants for a concrete request; adbc.h numbers the vendor codes from 0 and
    the driver codes from 100. *)
Definition example_info : InfoConstants := {|
  DRIVER_VERSION := str "0.1.0"; ARROW_VERSION := str "v58.0.0";
  code_number c := match c with
    | VendorName => 0 | VendorVersion => 1 | VendorArrowVersion => 2 | VendorSql => 3 | VendorSubstrait => 4
    | VendorSubstraitMinVersion => 5 | VendorSubstraitMaxVersion => 6
    | DriverName => 100 | DriverVersion => 101 | DriverArrowVersion => 102 | DriverAdbcVersion => 103
    | OtherCode n => n
    end%Z |}.

Lemma build_info_exact_witness :
  build_info (IC := example_info) adbc_info_schema (Some [DriverName; OtherCode 7; VendorSql; VendorVersion]) =
    Ok (mkBatch adbc_info_schema
          [mkArray DUInt32 [CInt 1; CInt 3; CInt 100];
           mkArray (DUnion info_union) [CUnion 0 CNull; CUnion 1 (CBool true); CUnion 0 (CStr (str "spanner-adbc"))]] 3).
Proof.
  apply (proj1 (build_info_exact (IC := example_info) adbc_info_schema
    (Some [DriverName; OtherCode 7; VendorSql; VendorVersion]) eq_refl)).
Defined.
