(* ===== verification/Bridge.v ===== *)
(** * The Arrow implementation of the statement's interfaces

    The statement and ingest handlers are proved against the interfaces [Batches]
    and [Formats]; here binding and result conversion implement them.  What the
    client's opaque types show of themselves (a result's columns, a type's
    structure) and the size of a batch in memory are the interface [ArrowHost]. *)

From S2P Require Import Arrow Decode Bind Partitions.
From S2P Require Import Prelude RustStr RustNum ErrorModel Options Config Runtime Stream Txn Client StatementState Ingest Statement.

Class ArrowHost `{SC : SpannerClient} := {
  (** [ResultSetMetadata::column_names] and [column_types] *)
  md_columns : Metadata -> list rstr * list Arrow.Ty;
  type_view : SpType -> Arrow.Ty;
  (** [RecordBatch::get_array_memory_size] *)
  memory_size : Arrow.Batch -> Z;
}.

Section Bridge.
Context {SC : SpannerClient} {AH : ArrowHost (SC := SC)} {CH : Decode.Chrono} {CO : Decode.Codec}.
Context {W : Bind.Wire (SC := SC)} {SD : Partitions.Serde (SC := SC)}.

Definition arrow_batches : Batches (SC := SC) := {|
  RecordBatch := Arrow.Batch;
  Schema := list Arrow.Field;
  num_rows := Arrow.b_rows;
  num_columns b := Z.of_nat (length (Arrow.b_columns b));
  get_array_memory_size := memory_size;
  schema := Arrow.b_fields;
  resolve_parameter_names := Bind.resolve_parameter_names;
  bind_params := Bind.bind_params;
  insert_mutation := Bind.insert_mutation;
  create_table_sql := Bind.create_table_sql;
  mutation_table := Bind.mutation_table |}.

Definition arrow_formats : Formats (B := arrow_batches) := {|
  Field := Arrow.Field;
  Schema_new fields := (fields : Schema (Batches := arrow_batches));
  null_field name := Arrow.Field_new name Arrow.DNull true;
  arrow_field name ty nullable precision := Arrow.arrow_field precision name (type_view ty) nullable;
  build_schema md row precision := Arrow.build_schema precision (md_columns <$> md) row;
  build_batch s rows := Decode.build_batch s rows;
  encode_partition := Partitions.encode_partition |}.

End Bridge.
