(* ===== verification/Introspect.v ===== *)
(** * The connection's metadata handlers ([src/connection.rs], [src/objects.rs],
    [src/statistics.rs], [src/metadata.rs])

    [get_objects], [get_statistics], [get_table_schema], [get_table_types],
    [get_statistic_names], [get_info], [read_partition] and [new_statement], from
    their guards to the remote calls they make and the batches they return.

    The queries that the driver joins, or runs a few at a time, on one read-only
    transaction are made here one after the other, in the order it lists them: they
    are reads of one snapshot, whose results it takes in that order. *)

From stdpp Require Import gmap.
From S2P Require Import Arrow Decode Bind Partitions Nested Objects Statistics Bridge.
From S2P Require Import Prelude RustStr RustNum ErrorModel Options DirectedRead Staleness Config Runtime Sql.
From S2P Require Import Stream Txn Client Metadata Connection StatementState Ingest Statement.

Section Introspect.
Context {SC : SpannerClient} {AH : Bridge.ArrowHost (SC := SC)} {CH : Decode.Chrono} {CO : Decode.Codec}.
Context {W : Bind.Wire (SC := SC)} {SD : Partitions.Serde (SC := SC)}.
Context {SK : Statistics.StatisticKeys} {IC : Statistics.InfoConstants} (env : Env).

#[local] Existing Instance Bridge.arrow_batches.
#[local] Existing Instance Bridge.arrow_formats.

(** The batch, and the schema, of a drained result. *)
Definition result_batch (precision : TimestampPrecision) (rs : ResultSet) : Result RecordBatch :=
  snd <$> result_set_to_batch rs precision.
Definition result_schema (precision : TimestampPrecision) (rs : ResultSet) : Result Schema :=
  fst <$> result_set_to_batch rs precision.

(** [query_txn]: one metadata statement on the shared transaction, materialised at
    the default precision. *)
Definition query_txn (slot : positive) (timeout : option Z) (t : RoTxn) (statement : SpannerSql) : M Arrow.Batch :=
  perform_then env slot timeout OPTION_RPC_TIMEOUT_QUERY (ExecuteQuery (inr t) statement)
    (and_then (result_batch NanosecondsErrorOnOverflow)).

Definition query_txn_opt (slot : positive) (timeout : option Z) (t : RoTxn) (statement : option SpannerSql) :
    M (option Arrow.Batch) :=
  match statement with
  | Some st => b ← query_txn slot timeout t st; mret (Some b)
  | None => mret None
  end.

(** [read_staleness.multi_use_timestamp_bound()]. *)
Definition metadata_bound (config : SharedConfig) : Result (option TimestampBound) :=
  multi_use_timestamp_bound try_exact_staleness try_max_staleness try_read_timestamp try_min_read_timestamp
    (read_staleness config).

(** [filtered_query]. *)
Definition filtered_query (config : SharedConfig) (base : rstr) (base_predicate : option rstr)
    (filters : list (rstr * option rstr)) (order_by : option rstr) : SpannerSql :=
  let '(q, params) := Objects.filtered_sql base base_predicate filters order_by in
  foldl (fun b '(name, value) => add_param b name (string_param value)) (metadata_sql_builder config q) params.

(** The six statements of [collect_objects], those its depth asks for. *)
Definition objects_statements (config : SharedConfig) (depth : Objects.ObjectDepth) (f : Objects.ObjectFilters) :
    SpannerSql * (option SpannerSql * option SpannerSql * option SpannerSql * option SpannerSql * option SpannerSql) :=
  let when (b : bool) (st : SpannerSql) := if b then Some st else None in
  let tables := Objects.populate_tables depth in
  let columns := Objects.populate_columns depth in
  (filtered_query config (str "SELECT SCHEMA_NAME FROM INFORMATION_SCHEMA.SCHEMATA") None
     [(str "SCHEMA_NAME", Objects.of_db_schema f)] None,
   (when tables (filtered_query config
      (str "SELECT TABLE_SCHEMA, TABLE_NAME, TABLE_TYPE FROM INFORMATION_SCHEMA.TABLES") None
      [(str "TABLE_SCHEMA", Objects.of_db_schema f); (str "TABLE_NAME", Objects.of_table_name f)] None),
    when columns (filtered_query config
      (str "SELECT TABLE_SCHEMA, TABLE_NAME, COLUMN_NAME, ORDINAL_POSITION, IS_NULLABLE, SPANNER_TYPE FROM INFORMATION_SCHEMA.COLUMNS")
      (Some Objects.HIDE_HIDDEN_COLUMNS)
      [(str "TABLE_SCHEMA", Objects.of_db_schema f); (str "TABLE_NAME", Objects.of_table_name f);
       (str "COLUMN_NAME", Objects.of_column_name f)] (Some (str "TABLE_SCHEMA, TABLE_NAME, ORDINAL_POSITION"))),
    when columns (filtered_query config
      (str "SELECT TABLE_SCHEMA, TABLE_NAME, CONSTRAINT_NAME, CONSTRAINT_TYPE FROM INFORMATION_SCHEMA.TABLE_CONSTRAINTS AS tc")
      (Some Objects.HIDE_HIDDEN_COLUMN_CONSTRAINTS)
      [(str "TABLE_SCHEMA", Objects.of_db_schema f); (str "TABLE_NAME", Objects.of_table_name f)] None),
    when columns (metadata_sql_builder config
      (str "SELECT CONSTRAINT_SCHEMA, CONSTRAINT_NAME, TABLE_SCHEMA, TABLE_NAME, COLUMN_NAME, CAST(ORDINAL_POSITION AS STRING), CAST(POSITION_IN_UNIQUE_CONSTRAINT AS STRING) FROM INFORMATION_SCHEMA.KEY_COLUMN_USAGE ORDER BY CONSTRAINT_SCHEMA, CONSTRAINT_NAME, ORDINAL_POSITION")),
    when columns (metadata_sql_builder config
      (str "SELECT CONSTRAINT_SCHEMA, CONSTRAINT_NAME, UNIQUE_CONSTRAINT_SCHEMA, UNIQUE_CONSTRAINT_NAME FROM INFORMATION_SCHEMA.REFERENTIAL_CONSTRAINTS")))).

Definition collect_objects (slot : positive) (config : SharedConfig) (depth : Objects.ObjectDepth)
    (filters : Objects.ObjectFilters) : M (list Objects.DbSchema) :=
  if decide (depth = Objects.DepthCatalogs) then mret []
  else
    let timeout := query_timeout (timeouts config) in
    let '(schemata_stmt, (tables_stmt, columns_stmt, constraints_stmt, key_columns_stmt, referential_stmt)) :=
      objects_statements config depth filters in
    b ← lift (metadata_bound config);
    t ← perform env slot timeout OPTION_RPC_TIMEOUT_QUERY (BuildReadOnly b);
    schemata ← query_txn slot timeout t schemata_stmt;
    tables ← query_txn_opt slot timeout t tables_stmt;
    columns ← query_txn_opt slot timeout t columns_stmt;
    constraints ← query_txn_opt slot timeout t constraints_stmt;
    key_columns ← query_txn_opt slot timeout t key_columns_stmt;
    referential ← query_txn_opt slot timeout t referential_stmt;
    lift (Objects.assemble_objects
            (Objects.mkObjectBatches schemata tables columns constraints key_columns referential) filters).

(** A catalog pattern that does not match the connection's one catalog. *)
Definition catalog_excluded (self : Connection) (pattern : option rstr) : bool :=
  match pattern with Some c => negb (like_match c (catalog self)) | None => false end.

(** The batches of the reader returned. *)
Definition get_objects (GET_OBJECTS_SCHEMA : list Arrow.Field) (self : Connection) (depth : Objects.ObjectDepth)
    (catalog_pattern : option rstr) (filters : Objects.ObjectFilters) : M (list Arrow.Batch) :=
  _ ← begin_operation (c_slot self);
  if catalog_excluded self catalog_pattern then mret []
  else
    schemas ← collect_objects (c_slot self) (c_config self) depth filters;
    batch ← lift (Objects.build GET_OBJECTS_SCHEMA depth (catalog self) schemas);
    mret [batch].

(** ** Statistics *)

Fixpoint scan_tables (slot : positive) (config : SharedConfig) (t : RoTxn) (prepared : list Statistics.PreparedTable) :
    M (list Arrow.Batch) :=
  match prepared with
  | [] => mret []
  | p :: prepared =>
      b ← query_txn slot (query_timeout (timeouts config)) t (metadata_sql_builder config (Statistics.pt_sql p));
      bs ← scan_tables slot config t prepared;
      mret (b :: bs)
  end.

(** The scans are waited for as one operation, even when there are none. *)
Definition check_cancelled (slot : positive) : M unit := fun w =>
  Some (w, if slot_cancelled (w_slots w) slot then Err cancelled_err else Ok tt).

(** [None] is a panic. *)
Definition or_panic {A} (o : option (Result A)) : M A := fun w =>
  match o with Some r => Some (w, r) | None => None end.

Definition collect_statistics (slot : positive) (config : SharedConfig) (db_schema table_name : option rstr) :
    M (list Statistics.SchemaStatistics) :=
  let timeout := query_timeout (timeouts config) in
  b ← lift (metadata_bound config);
  t ← perform env slot None [] (BuildReadOnly b);
  tables ← query_txn slot timeout t (metadata_sql_builder config
    (str "SELECT TABLE_SCHEMA, TABLE_NAME FROM INFORMATION_SCHEMA.TABLES WHERE TABLE_TYPE = 'BASE TABLE'"));
  columns ← query_txn slot timeout t (metadata_sql_builder config
    (str "SELECT TABLE_SCHEMA, TABLE_NAME, COLUMN_NAME, SPANNER_TYPE FROM INFORMATION_SCHEMA.COLUMNS WHERE NOT CAST(IS_HIDDEN AS BOOL) ORDER BY TABLE_SCHEMA, TABLE_NAME, ORDINAL_POSITION"));
  prepared ← lift (Statistics.prepare_tables tables columns db_schema table_name);
  _ ← check_cancelled slot;
  batches ← scan_tables slot config t prepared;
  or_panic (Statistics.statistics_of prepared batches).

(** [approximate] is ignored. *)
Definition get_statistics (GET_STATISTICS_SCHEMA : list Arrow.Field) (self : Connection)
    (catalog_pattern db_schema table_name : option rstr) (approximate : bool) : M (list Arrow.Batch) :=
  _ ← begin_operation (c_slot self);
  if catalog_excluded self catalog_pattern then mret []
  else
    schemas ← collect_statistics (c_slot self) (c_config self) db_schema table_name;
    batch ← lift (Statistics.build_statistics (catalog self) schemas GET_STATISTICS_SCHEMA);
    mret [batch].

(** ** The other metadata *)

Definition get_table_schema (self : Connection) (catalog_name db_schema : option rstr) (table_name : rstr) :
    M (list Arrow.Field) :=
  _ ← begin_operation (c_slot self);
  _ ← lift (check_lookup_catalog catalog_name (catalog self));
  table ← lift (qualified_table db_schema table_name);
  b ← lift (timestamp_bound try_exact_staleness try_max_staleness try_read_timestamp
         try_min_read_timestamp (read_staleness (c_config self)));
  let statement := metadata_sql_builder (c_config self) (str "SELECT * FROM " ++ table ++ str " LIMIT 0") in
  result ← catch (perform_then env (c_slot self) (query_timeout (timeouts (c_config self))) OPTION_RPC_TIMEOUT_QUERY
    (ExecuteQuery (inl b) statement)
    (and_then (result_schema (timestamp_precision (c_config self)))));
  match result with
  | Ok s => mret s
  | Err error =>
      probe ← catch (table_exists env (c_slot self) (query_timeout (timeouts (c_config self)))
                       (default [] db_schema) table_name);
      throw (match probe with
             | Ok false => err [Lit "table "; Dbg table_name; Lit " not found"] NotFound
             | _ => error
             end)
  end.

Definition get_table_types : Result (list Arrow.Batch) :=
  let s := [Arrow.Field_new (str "table_type") Arrow.DUtf8 false] in
  Ok [Arrow.mkBatch s [Arrow.mkArray Arrow.DUtf8 [Arrow.CStr (str "BASE TABLE"); Arrow.CStr (str "VIEW")]] 2].

Definition get_statistic_names : Result (list Arrow.Batch) := Ok [].

Definition get_info (GET_INFO_SCHEMA : list Arrow.Field) (codes : option (list Statistics.InfoCode)) :
    Result (list Arrow.Batch) :=
  batch ← Statistics.build_info GET_INFO_SCHEMA codes; Ok [batch].

Definition read_partition (self : Connection) (descriptor : rstr) : M Reader :=
  _ ← begin_operation (c_slot self);
  p ← lift (Partitions.decode_partition descriptor);
  perform_then env (c_slot self) (query_timeout (timeouts (c_config self))) OPTION_RPC_TIMEOUT_QUERY
    (ExecutePartition p)
    (and_then (fun rs => stream_query rs DEFAULT_ROWS_PER_BATCH (timestamp_precision (c_config self))
                           (fetch_timeout (timeouts (c_config self))))).

(** [new_statement]: the statement shares the transaction, which is in the world,
    and the configuration is inherited; [slot] is its own cancel slot. *)
Definition new_statement (self : Connection) (slot : positive) (w : World) : World * Statement :=
  let '(h, config) := inherit (w_cells w) (c_config self) in
  (mkWorld (slot_step (w_slots w) (NewSlot slot)) h (w_txn w) (w_trace w),
   Statement_new (c_database self) config slot).

End Introspect.
