(* ===== verification/IntrospectFacts.v ===== *)
(** * Properties of the metadata handlers

    Introspection reads one snapshot, writes nothing and does not touch the
    transaction; a missing table is told apart from any other failure. *)

From stdpp Require Import gmap.
From S2P Require Import Arrow Decode Calendar Bind DecodeFacts BindFacts Partitions Nested Objects ObjectsFacts ObjectsTree Statistics StatisticsFacts Bridge.
From S2P Require Import Prelude RustStr RustNum ErrorModel Options DirectedRead Staleness Config Runtime Sql.
From S2P Require Import Stream Txn Client Wp Metadata Connection TxnSystem StatementState Ingest Statement IngestFacts StatementFacts Introspect.

Section Facts.
Context {SC : SpannerClient} {AH : ArrowHost (SC := SC)} {CH : Chrono} {CO : Codec}.
Context {W : Wire (SC := SC)} {SD : Serde (SC := SC)}.
Context {SK : StatisticKeys} (env : Env).

#[local] Existing Instance arrow_batches.
#[local] Existing Instance arrow_formats.

(** A metadata statement: the connection's priority, retry bounds and replicas, no
    tag, and not a plan. *)
Definition metadata_statement (config : SharedConfig) (st : SpannerSql) : Prop :=
  let b := metadata_sql_builder config [] in
  sb_priority st = sb_priority b /\ sb_request_tag st = None /\ sb_retry st = sb_retry b /\
  sb_backoff st = sb_backoff b /\ sb_directed_read st = sb_directed_read b /\ sb_plan st = false.

(** A read on the snapshot [t]. *)
Definition on_snapshot (config : SharedConfig) (t : RoTxn) (ev : Event) : Prop :=
  exists st rep, ev = Ev (ExecuteQuery (inr t) st) rep /\ metadata_statement config st.

(** No call at all; or one snapshot begun at the connection's read bound, pinned
    for several uses, and then only reads on the snapshot that was begun. *)
Definition snapshot_reads (config : SharedConfig) (evs : list Event) : Prop :=
  evs = [] \/
  exists b rep rest, evs = Ev (BuildReadOnly b) rep :: rest /\ metadata_bound config = Ok b /\
    (rest = [] \/ exists t, r_outcome rep = inl t /\ Forall (on_snapshot config t) rest).

Definition metadata_run (config : SharedConfig) (w w' : World) : Prop :=
  w_txn w' = w_txn w /\ exists evs, w_trace w' = w_trace w ++ evs /\ snapshot_reads config evs.

Lemma metadata_sql_builder_statement config q : metadata_statement config (metadata_sql_builder config q).
Proof.
  unfold metadata_statement, metadata_sql_builder, retry_apply_to_statement, directed_read_apply_to_statement,
    apply_priority_to_statement, builder. repeat case_match; cbn; split_and!; done.
Qed.

Lemma filtered_query_statement config base pred filters order :
  metadata_statement config (filtered_query config base pred filters order).
Proof.
  unfold filtered_query. destruct (filtered_sql _ _ _ _) as [q params].
  generalize (metadata_sql_builder_statement config q). generalize (metadata_sql_builder config q).
  induction params as [|[name value] params IH]; intros b Hb; [done|]. cbn [foldl]. apply IH. exact Hb.
Qed.

(** Events of a kind, and the transaction untouched. *)
Definition keeps (P : Event -> Prop) (w w' : World) : Prop := traces P w w' /\ w_txn w' = w_txn w.

#[local] Instance keeps_frame P : Frame (keeps P).
Proof.
  split.
  - split; [intros w; split; [reflexivity|done]|].
    intros w1 w2 w3 [H1 E1] [H2 E2]. split; [by etrans|congruence].
  - intros w w' E1 E2. split; [by apply frame_same|done].
Qed.

Lemma runs_query_txn config slot timeout t st :
  metadata_statement config st -> runs (keeps (on_snapshot config t)) (query_txn env slot timeout t st).
Proof.
  intros Hst. unfold query_txn. apply runs_perform_then; [apply _|]. intros w w' rep Ht Htr. split; [|done].
  exists [Ev (ExecuteQuery (inr t) st) rep]. split; [done|]. constructor; [|done]. by exists st, rep.
Qed.

Lemma runs_query_txn_opt config slot timeout t st :
  (forall s, st = Some s -> metadata_statement config s) ->
  runs (keeps (on_snapshot config t)) (query_txn_opt env slot timeout t st).
Proof.
  intros Hst. destruct st as [s|]; cbn [query_txn_opt]; [|apply runs_ret, _].
  apply runs_bind; [apply _|by apply runs_query_txn, Hst|]. intros b. apply runs_ret, _.
Qed.

(** A handler that begins a snapshot and then reads it. *)
Lemma runs_snapshot {A} config slot limit opt (k : RoTxn -> M A) :
  (forall t, runs (keeps (on_snapshot config t)) (k t)) ->
  runs (metadata_run config)
    (b ← lift (metadata_bound config); t ← perform env slot limit opt (BuildReadOnly b); k t).
Proof.
  intros Hk w. apply wlp_bind. unfold lift, wlp at 1.
  destruct (metadata_bound config) as [b|e] eqn:Eb; [|split; [done|]; exists []; rewrite app_nil_r; split; [done|by left]].
  apply wlp_bind, wp_wlp, wp_perform_then.
  - intros _. split; [done|]. exists []. rewrite app_nil_r. split; [done|by left].
  - intros _ w1 _ [Ht Htr] _. set (rep := env (w_trace w) _ (BuildReadOnly b)) in *.
    assert (metadata_run config w w1) as Hone.
    { split; [done|]. exists [Ev (BuildReadOnly b) rep]. split; [done|]. right. exists b, rep, []. split_and!; [done..|by left]. }
    destruct (call_result limit opt outcome rep) as [t|e] eqn:Ec; [|exact Hone].
    assert (r_outcome rep = inl t) as Hr.
    { unfold call_result, with_timeout, outcome in Ec. repeat case_match; by simplify_eq. }
    eapply wlp_mono; [apply Hk|]. intros w2 r [(evs & Hevs & Hall) Ht2]. split; [congruence|].
    exists (Ev (BuildReadOnly b) rep :: evs). split; [by rewrite Hevs, Htr, <- app_assoc|].
    right. exists b, rep, evs. split_and!; [done..|]. right. by exists t.
Qed.

Lemma metadata_run_refl config w : metadata_run config w w.
Proof. split; [done|]. exists []. rewrite app_nil_r. split; [done|by left]. Qed.

(** Nothing is read before or after the snapshot. *)
Lemma runs_quiet_bind {A B} config (m : M A) (f : A -> M B) :
  runs (metadata_run config) m -> (forall a, runs (fun w w' => w_txn w' = w_txn w /\ w_trace w' = w_trace w) (f a)) ->
  runs (metadata_run config) (m ≫= f).
Proof.
  intros Hm Hf w. apply wlp_bind. eapply wlp_mono; [apply Hm|]. intros w1 [a|e] H1; [|done].
  eapply wlp_mono; [apply Hf|]. intros w2 r [Ht Htr]. destruct H1 as [Ht1 (evs & Hevs & Hs)].
  split; [congruence|]. exists evs. split; [congruence|done].
Qed.

Lemma runs_begin {A} config slot (m : M A) :
  runs (metadata_run config) m -> runs (metadata_run config) (_ ← begin_operation slot; m).
Proof. intros Hm w. apply wlp_bind. cbn. exact (Hm (mkWorld _ (w_cells w) (w_txn w) (w_trace w))). Qed.

Lemma runs_collect_objects slot config depth filters :
  runs (metadata_run config) (collect_objects env slot config depth filters).
Proof.
  unfold collect_objects. case_decide; [intros w; apply metadata_run_refl|].
  destruct (objects_statements config depth filters) as [st0 [[[[st1 st2] st3] st4] st5]] eqn:Est.
  assert (metadata_statement config st0 /\ (forall s, st1 = Some s -> metadata_statement config s) /\
    (forall s, st2 = Some s -> metadata_statement config s) /\ (forall s, st3 = Some s -> metadata_statement config s) /\
    (forall s, st4 = Some s -> metadata_statement config s) /\ (forall s, st5 = Some s -> metadata_statement config s))
    as (H0 & H1 & H2 & H3 & H4 & H5).
  { unfold objects_statements in Est. simplify_eq. split_and!; [apply filtered_query_statement|..];
      intros s; case_match; intros [= <-]; apply filtered_query_statement || apply metadata_sql_builder_statement. }
  apply runs_snapshot. intros t.
  apply runs_bind; [apply _|by apply runs_query_txn|intros ?].
  do 5 (apply runs_bind; [apply _|by apply runs_query_txn_opt|intros ?]).
  apply runs_lift, _.
Qed.

Lemma runs_scan_tables slot config t prepared :
  runs (keeps (on_snapshot config t)) (scan_tables env slot config t prepared).
Proof.
  induction prepared as [|p prepared IH]; cbn [scan_tables]; [apply runs_ret, _|].
  apply runs_bind; [apply _|apply runs_query_txn, metadata_sql_builder_statement|intros ?].
  apply runs_bind; [apply _|exact IH|intros ?]. apply runs_ret, _.
Qed.

Lemma runs_collect_statistics slot config db_schema table_name :
  runs (metadata_run config) (collect_statistics env slot config db_schema table_name).
Proof.
  unfold collect_statistics. apply runs_snapshot. intros t.
  do 2 (apply runs_bind; [apply _|apply runs_query_txn, metadata_sql_builder_statement|intros ?]).
  apply runs_bind; [apply _|apply runs_lift, _|intros prepared].
  apply runs_bind; [apply _|apply runs_pure, _|intros _].
  apply runs_bind; [apply _|apply runs_scan_tables|intros batches].
  unfold or_panic. destruct (statistics_of _ _); [apply runs_pure, _|apply runs_stuck].
Qed.

(** A handler that never panics. *)
Definition total {A} (m : M A) : Prop := forall w, is_Some (m w).

Lemma total_bind {A B} (m : M A) (f : A -> M B) : total m -> (forall a, total (f a)) -> total (m ≫= f).
Proof.
  intros Hm Hf w. unfold mbind, M_bind. destruct (Hm w) as [[w' [a|e]] ->]; [apply Hf|by eexists].
Qed.

Lemma total_lift {A} (r : Result A) : total (lift r).
Proof. intros w. by eexists. Qed.

Lemma total_ret {A} (a : A) : total (mret a).
Proof. intros w. by eexists. Qed.

Lemma total_perform_then {A B} slot limit opt (c : Call A) (f : A + SpannerError -> Result B) :
  total (perform_then env slot limit opt c f).
Proof. intros w. unfold perform_then. repeat case_match; by eexists. Qed.

Lemma total_query_txn_opt slot timeout t st : total (query_txn_opt env slot timeout t st).
Proof. destruct st; [|apply total_ret]. apply total_bind; [apply total_perform_then|intros; apply total_ret]. Qed.

Lemma total_get_objects schema self depth catalog_pattern filters :
  total (get_objects env schema self depth catalog_pattern filters).
Proof.
  unfold get_objects. apply total_bind; [intros w; by eexists|intros _].
  destruct (catalog_excluded _ _); [apply total_ret|]. apply total_bind.
  - unfold collect_objects. case_decide; [apply total_ret|]. destruct (objects_statements _ _ _) as [st0 [[[[st1 st2] st3] st4] st5]].
    apply total_bind; [apply total_lift|intros b]. apply total_bind; [apply total_perform_then|intros t].
    apply total_bind; [apply total_perform_then|intros ?].
    do 5 (apply total_bind; [apply total_query_txn_opt|intros ?]). apply total_lift.
  - intros schemas. apply total_bind; [apply total_lift|intros; apply total_ret].
Qed.

(** C24: introspection reads one snapshot.  [get_objects] and [get_statistics], at
    any depth and with any filters, leave the connection's transaction as it is
    and either call nothing, or begin one read-only transaction at the connection's
    read bound pinned for several uses and then make only queries on that
    transaction, untagged, with the connection's priority, retry bounds and
    replicas.  At catalog depth, or for a catalog pattern that is not this
    database's, they call nothing at all.  [get_objects] always returns; [get_statistics] does
    unless an aggregate row lacks one of the columns its query selects. *)
Theorem introspection_one_snapshot (schema : list Arrow.Field) (self : Connection) (depth : ObjectDepth)
    (catalog_pattern db_schema table_name : option rstr) (filters : ObjectFilters) (approximate : bool) (w : World) :
  wp (get_objects env schema self depth catalog_pattern filters)
    (fun w' r => metadata_run (c_config self) w w' /\
       (depth = DepthCatalogs \/ catalog_excluded self catalog_pattern = true -> w_trace w' = w_trace w)) w /\
  wlp (get_statistics env schema self catalog_pattern db_schema table_name approximate)
    (fun w' r => metadata_run (c_config self) w w' /\
       (catalog_excluded self catalog_pattern = true -> w_trace w' = w_trace w)) w.
Proof.
  assert (forall A (r : Result A) (B : Type) (f : A -> B) , runs (fun w w' => w_txn w' = w_txn w /\ w_trace w' = w_trace w)
    (a ← lift r; mret (f a))) as Htail by (intros A [a|e] B f v; by split).
  split.
  - assert (runs (metadata_run (c_config self)) (get_objects env schema self depth catalog_pattern filters)) as Hr.
    { unfold get_objects. apply runs_begin. destruct (catalog_excluded _ _); [intros v; apply metadata_run_refl|].
      apply runs_quiet_bind; [apply runs_collect_objects|]. intros a. apply Htail. }
    specialize (Hr w). destruct (total_get_objects schema self depth catalog_pattern filters w) as [[w' r] Eg].
    unfold wlp, wp in *. rewrite Eg in *.
    split; [done|]. intros Hnone. unfold get_objects, mbind, M_bind, begin_operation in Eg.
    destruct (catalog_excluded self catalog_pattern); [by injection Eg as <- _|].
    destruct Hnone as [->|]; [|done]. unfold collect_objects in Eg. rewrite decide_True in Eg by done.
    cbn [mret M_ret] in Eg. unfold lift in Eg. destruct (build _ _ _ _) in Eg; by injection Eg as <- _.
  - assert (runs (metadata_run (c_config self))
      (get_statistics env schema self catalog_pattern db_schema table_name approximate)) as Hr.
    { unfold get_statistics. apply runs_begin. destruct (catalog_excluded _ _); [intros v; apply metadata_run_refl|].
      apply runs_quiet_bind; [apply runs_collect_statistics|]. intros a. apply Htail. }
    specialize (Hr w). unfold wlp in *. destruct (get_statistics _ _ _ _ _ _ _ w) as [[w' r]|] eqn:Eg; [|done].
    split; [done|]. intros Hnone. unfold get_statistics, mbind, M_bind, begin_operation in Eg. rewrite Hnone in Eg.
    by injection Eg as <- _.
Qed.

End Facts.
