(* ===== verification/FfiGuard.v ===== *)
(** * [src/ffi/guard.rs]: crossing the C boundary

    Panic containment and the conversions every entry point uses.  A C string
    argument is [None] for the null pointer and otherwise the bytes before its
    terminator; a byte array is [None] or the bytes of the caller's allocation.
    A caller's output buffer is its current contents: an access outside it is
    undefined behaviour, which makes the definition return [None]. *)

From S2P Require Import Prelude RustStr Utf8 RustNum ErrorModel.

Open Scope nat_scope.

(** ** Panics *)

(** The payload of a panic: the two shapes [panic!] produces, or another. *)
Inductive Payload :=
  | PayloadStr (s : rstr)
  | PayloadString (s : rstr)
  | PayloadOther.

(** How a call of driver code ends. *)
Inductive Exit (A : Type) :=
  | Returned (a : A)
  | Panicked (cause : Payload).

Arguments Returned {_} _.
Arguments Panicked {_} _.

Definition panic_message (cause : Payload) : rstr :=
  match cause with
  | PayloadStr s | PayloadString s => s
  | PayloadOther => str "unknown panic payload"
  end.

Definition caught_panic (cause : Payload) : Error :=
  err [Lit "Uncaught panic in the Spanner driver: "; Disp (panic_message cause)] Internal.

(** [catch]: the outer result is the containment, the inner one the call's. *)
Definition catch {A} (e : Exit (Result A)) : Result (Result A) :=
  match e with
  | Returned r => Ok r
  | Panicked cause => Err (caught_panic cause)
  end.

(** [catch(..).unwrap_or_else(Err)]. *)
Definition contained {A} (e : Exit (Result A)) : Result A :=
  match catch e with Ok r => r | Err failure => Err failure end.

(** ** Messages as C strings *)

(** [{:?}] of a [str] needs Unicode's tables of printable characters, so the
    escaping is an argument. *)
Section Rendering.
Variable escape_debug : rstr -> rstr.

Definition lit_bytes (s : String.string) : list byte :=
  map Ascii.N_of_ascii (String.list_ascii_of_string s).

Definition debug_bytes (s : rstr) : list byte := cDQ :: as_bytes (escape_debug s) ++ [cDQ].

Definition frag_bytes (f : frag) : list byte :=
  match f with
  | Lit s => lit_bytes s
  | Quo s => cDQ :: lit_bytes s ++ [cDQ]
  | Disp s => as_bytes s
  | Dbg s => debug_bytes s
  | DbgL l => lit_bytes "[" ++ join (lit_bytes ", ") (map debug_bytes l) ++ lit_bytes "]"
  | DispZ n => as_bytes (show_Z n)
  end.

(** The UTF-8 of a message. *)
Definition message_bytes (m : Message) : list byte := concat (map frag_bytes m).

End Rendering.

(** [sanitized_cstring]: the bytes of the C string. *)
Definition sanitized_cstring (text : list byte) : list byte :=
  map (fun b => if decide (b = 0%N) then cQUESTION else b) text.

(** ** Arguments *)

Definition missing_argument (name : rstr) : Error :=
  invalid_argument [Disp name; Lit " must not be null"].

(** [core::str::from_utf8]'s report of the first invalid sequence: where it
    starts, and its length unless the input ends inside it. *)
Fixpoint utf8_error (i : Z) (bs : list byte) : option (Z * option Z) :=
  let within (lo hi : N) (b : byte) := bool_decide (lo <= b <= hi)%N in
  match bs with
  | [] => None
  | b0 :: r0 =>
      if bool_decide (b0 < 0x80)%N then utf8_error (i + 1) r0
      else if within 0xC2%N 0xDF%N b0 then
        match r0 with
        | [] => Some (i, None)
        | b1 :: r1 => if is_cont b1 then utf8_error (i + 2) r1 else Some (i, Some 1%Z)
        end
      else if within 0xE0%N 0xEF%N b0 then
        let second := if decide (b0 = 0xE0)%N then within 0xA0%N 0xBF%N
                      else if decide (b0 = 0xED)%N then within 0x80%N 0x9F%N else is_cont in
        match r0 with
        | [] => Some (i, None)
        | b1 :: r1 =>
            if negb (second b1) then Some (i, Some 1%Z)
            else match r1 with
            | [] => Some (i, None)
            | b2 :: r2 => if is_cont b2 then utf8_error (i + 3) r2 else Some (i, Some 2%Z)
            end
        end
      else if within 0xF0%N 0xF4%N b0 then
        let second := if decide (b0 = 0xF0)%N then within 0x90%N 0xBF%N
                      else if decide (b0 = 0xF4)%N then within 0x80%N 0x8F%N else is_cont in
        match r0 with
        | [] => Some (i, None)
        | b1 :: r1 =>
            if negb (second b1) then Some (i, Some 1%Z)
            else match r1 with
            | [] => Some (i, None)
            | b2 :: r2 =>
                if negb (is_cont b2) then Some (i, Some 2%Z)
                else match r2 with
                | [] => Some (i, None)
                | b3 :: r3 => if is_cont b3 then utf8_error (i + 4) r3 else Some (i, Some 3%Z)
                end
            end
        end
      else Some (i, Some 1%Z)
  end.

(** [Display] for [Utf8Error]. *)
Definition show_utf8_error (e : Z * option Z) : Message :=
  match e with
  | (i, Some n) => [Lit "invalid utf-8 sequence of "; DispZ n; Lit " bytes from index "; DispZ i]
  | (i, None) => [Lit "incomplete utf-8 byte sequence from index "; DispZ i]
  end.

Definition to_str (bs : list byte) : rstr + (Z * option Z) :=
  match from_utf8 bs with
  | Some s => inl s
  | None => inr (default (0, None)%Z (utf8_error 0 bs))
  end.

Definition required_str (ptr : option (list byte)) (name : rstr) : Result rstr :=
  match ptr with
  | None => Err (missing_argument name)
  | Some bs =>
      match to_str bs with
      | inl s => Ok s
      | inr e => Err (invalid_argument ([Disp name; Lit " must be valid UTF-8: "] ++ show_utf8_error e))
      end
  end.

Definition optional_str (ptr : option (list byte)) (name : rstr) : Result (option rstr) :=
  match ptr with
  | None => Ok None
  | Some _ => Some <$> required_str ptr name
  end.

(** A NULL-terminated array is the strings before the terminator. *)
Definition optional_str_list (ptr : option (list (list byte))) (name : rstr) :
    Result (option (list rstr)) :=
  match ptr with
  | None => Ok None
  | Some entries => Some <$> try_map (fun entry => required_str (Some entry) name) entries
  end.

(** [from_raw_parts] of an allocation that may be longer than [len]. *)
Definition byte_slice (ptr : option (list byte)) (len : nat) (name : rstr) :
    option (Result (list byte)) :=
  match ptr with
  | None =>
      Some (if decide (len = 0) then Ok []
            else Err (invalid_argument
                   [Disp name; Lit " must not be null for a length of "; DispZ (Z.of_nat len)]))
  | Some memory => if decide (len <= length memory) then Some (Ok (take len memory)) else None
  end.

(** ** Outputs *)

(** The bytes [bs] copied to the start of [buf]; outside it is undefined. *)
Definition copy_to (buf bs : list byte) : option (list byte) :=
  if decide (length bs <= length buf) then Some (bs ++ drop (length bs) buf) else None.

(** The caller's view of a GetOption call: its buffer (or null) and its length
    variable (or null). *)
Record GetBuffer := mkGetBuffer { gb_value : option (list byte); gb_length : option nat }.

Definition available_space (b : GetBuffer) : Result nat :=
  match gb_length b with
  | None => Err (missing_argument (str "length"))
  | Some available =>
      match gb_value b with
      | None =>
          if decide (0 < available) then
            Err (invalid_argument
              [Lit "value must not be null for a buffer length of "; DispZ (Z.of_nat available);
               Lit "; pass a length of 0 to ask only for the size required"])
          else Ok available
      | Some _ => Ok available
      end
  end.

(** [bytes.iter().position(|&byte| byte == 0)]. *)
Definition nul_position (bs : list byte) : option nat := fst <$> list_find (fun b => b = 0%N) bs.

Definition write_string (value : rstr) (b : GetBuffer) : option (GetBuffer * Result unit) :=
  match available_space b with
  | Err e => Some (b, Err e)
  | Ok available =>
      let bytes := as_bytes value in
      match nul_position bytes with
      | Some position =>
          Some (b, Err (err [Lit "option value contains an interior NUL at byte "; DispZ (Z.of_nat position)]
                            Internal))
      | None =>
          let required := length bytes + 1 in
          buf ← (if decide (required <= available) then
                   dst ← gb_value b;
                   Some <$> copy_to dst (bytes ++ [0%N])
                 else Some (gb_value b));
          Some (mkGetBuffer buf (Some required), Ok tt)
      end
  end.

Definition write_bytes (value : list byte) (b : GetBuffer) : option (GetBuffer * Result unit) :=
  match available_space b with
  | Err e => Some (b, Err e)
  | Ok available =>
      buf ← match gb_value b with
            | Some dst => if decide (length value <= available) then Some <$> copy_to dst value
                          else Some (Some dst)
            | None => Some None
            end;
      Some (mkGetBuffer buf (Some (length value)), Ok tt)
  end.

(** An out parameter: null, or the value it points at. *)
Definition required_output {A} (dst : option A) (name : rstr) : Result unit :=
  match dst with None => Err (missing_argument name) | Some _ => Ok tt end.

Definition write_out {A} (dst : option A) (value : A) (name : rstr) : option A * Result unit :=
  match required_output dst name with
  | Err e => (dst, Err e)
  | Ok _ => (Some value, Ok tt)
  end.

(** ** Properties *)

(** The report exists exactly for what is not UTF-8, so [to_str] never falls back
    on its default. *)
Lemma utf8_error_complete bs i : utf8_error i bs = None <-> is_Some (from_utf8 bs).
Proof.
  revert i. induction bs as [bs IH] using (induction_ltof1 _ (@length byte)). intros i.
  assert (Hrec : forall r j, length r < length bs -> utf8_error j r = None <-> is_Some (from_utf8 r))
    by (intros r j Hr; apply IH, Hr).
  clear IH. destruct bs as [|b0 r0]; [by split|]. cbn [utf8_error from_utf8].
  unfold is_cont, is_scalar in *.
  repeat (first [rewrite fmap_is_Some | case_bool_decide | case_decide | case_match];
          try (exfalso; lia); try (subst; rewrite Hrec by (cbn; lia); done)).
  all: try (split; [discriminate | intros [? ?]; discriminate]).
Qed.

(** A panic never reaches the caller: the outcome is a result, and a contained
    panic is an [Internal] error that carries the panic's own words. *)
Lemma contained_spec {A} (e : Exit (Result A)) :
  match e with
  | Returned r => contained e = r
  | Panicked cause =>
      contained e = Err (caught_panic cause) /\ status (caught_panic cause) = Internal /\
      Disp (panic_message cause) ∈ message (caught_panic cause)
  end.
Proof. destruct e; [done|]. split; [done|]. split; [done|]. cbn. set_solver. Qed.

Lemma sanitized_cstring_no_nul text : 0%N ∉ sanitized_cstring text.
Proof.
  intros (b & E & _)%list_elem_of_fmap_1. case_decide; [|congruence]. vm_compute in E. discriminate.
Qed.

Lemma sanitized_cstring_id text : 0%N ∉ text -> sanitized_cstring text = text.
Proof.
  induction text as [|b text IH]; intros H; [done|]. unfold sanitized_cstring in *. cbn [map].
  rewrite decide_False by set_solver. f_equal. set_solver.
Qed.

Lemma sanitized_cstring_length text : length (sanitized_cstring text) = length text.
Proof. apply length_map. Qed.

(** The C string a caller reads from a buffer. *)
Definition c_string (buf : list byte) : option (list byte) :=
  n ← nul_position buf; Some (take n buf).

(** The caller's side of the protocol: a buffer holds what its length says. *)
Definition buffer_ok (b : GetBuffer) : Prop :=
  forall dst len, gb_value b = Some dst -> gb_length b = Some len -> len <= length dst.

Lemma nul_position_None bs : nul_position bs = None <-> 0%N ∉ bs.
Proof.
  unfold nul_position. rewrite fmap_None, list_find_None, Forall_forall.
  split; [intros H Hin; by apply (H 0%N) | intros H x Hx ->; done].
Qed.

Lemma nul_position_app bs rest : 0%N ∉ bs -> nul_position (bs ++ 0%N :: rest) = Some (length bs).
Proof.
  induction bs as [|b bs IH]; intros H; [done|]. unfold nul_position in *. cbn [app list_find length].
  rewrite decide_False by set_solver. specialize (IH ltac:(set_solver)).
  destruct (list_find _ _) as [[n x]|]; [|done]. cbn in *. by simplify_eq.
Qed.

Lemma c_string_app bs rest : 0%N ∉ bs -> c_string (bs ++ 0%N :: rest) = Some bs.
Proof.
  intros H. unfold c_string. rewrite nul_position_app by done. cbn. by rewrite take_app_length.
Qed.

Lemma copy_to_fits buf bs :
  length bs <= length buf -> copy_to buf bs = Some (bs ++ drop (length bs) buf).
Proof. intros H. unfold copy_to. by rewrite decide_True. Qed.

(** What a GetOption call leaves behind when it is refused. *)
Lemma available_space_spec b :
  match available_space b with
  | Ok available => gb_length b = Some available /\ (gb_value b = None -> available = 0)
  | Err e => status e = InvalidArguments
  end.
Proof.
  unfold available_space. destruct (gb_length b) as [n|]; [|done]. destruct (gb_value b); [done|].
  case_decide; [done|]. split; [done|]. lia.
Qed.

(** C29: the GetOption protocol for strings.  When the caller's buffer really
    holds the bytes it declares, the call never writes outside it.  An accepted
    call always reports the size the value and its terminator need; if that fits
    the declared room the buffer then starts with the value as a C string and
    every byte after the terminator is as it was, otherwise the buffer is
    untouched.  A refused call changes neither the buffer nor the length.  So a
    size probe followed by a call with a buffer of the reported size reads back
    exactly the value. *)
Theorem write_string_protocol value b :
  buffer_ok b ->
  exists b' r, write_string value b = Some (b', r) /\
    match r with
    | Err e => b' = b /\ (status e = InvalidArguments \/ status e = Internal /\ 0%N ∈ as_bytes value)
    | Ok _ =>
        0%N ∉ as_bytes value /\ gb_length b' = Some (length (as_bytes value) + 1) /\
        (forall available, gb_length b = Some available ->
          (length (as_bytes value) + 1 <= available ->
             exists dst, gb_value b = Some dst /\
               gb_value b' = Some (as_bytes value ++ 0%N :: drop (length (as_bytes value) + 1) dst)) /\
          (available < length (as_bytes value) + 1 -> gb_value b' = gb_value b))
    end /\
    (0%N ∉ as_bytes value ->
       exists n, write_string value (mkGetBuffer None (Some 0)) = Some (mkGetBuffer None (Some n), Ok tt) /\
       forall dst, length dst = n ->
         exists dst', write_string value (mkGetBuffer (Some dst) (Some n)) =
                      Some (mkGetBuffer (Some dst') (Some n), Ok tt) /\
                      c_string dst' = Some (as_bytes value)).
Proof.
  intros Hb.
  assert (Hfit : forall dst available, gb_value b = Some dst -> gb_length b = Some available ->
    length (as_bytes value) + 1 <= available ->
    copy_to dst (as_bytes value ++ [0%N]) =
    Some (as_bytes value ++ 0%N :: drop (length (as_bytes value) + 1) dst)).
  { intros dst available Hd Hl Hr. specialize (Hb _ _ Hd Hl).
    rewrite copy_to_fits by (rewrite length_app; cbn; lia).
    rewrite length_app, <- app_assoc. done. }
  assert (Htwo : 0%N ∉ as_bytes value ->
       exists n, write_string value (mkGetBuffer None (Some 0)) = Some (mkGetBuffer None (Some n), Ok tt) /\
       forall dst, length dst = n ->
         exists dst', write_string value (mkGetBuffer (Some dst) (Some n)) =
                      Some (mkGetBuffer (Some dst') (Some n), Ok tt) /\
                      c_string dst' = Some (as_bytes value)).
  { intros Hn. exists (length (as_bytes value) + 1). unfold write_string. cbn [available_space gb_length gb_value].
    rewrite decide_False by lia. rewrite (proj2 (nul_position_None _) Hn). split; [by rewrite decide_False by lia|].
    intros dst Hd. rewrite decide_True by lia. cbn [mbind option_bind].
    rewrite copy_to_fits by (rewrite length_app; cbn; lia). cbn [fmap option_fmap option_map mbind option_bind].
    eexists. split; [done|]. rewrite <- app_assoc. by apply c_string_app. }
  unfold write_string in *. pose proof (available_space_spec b) as Hs.
  destruct (available_space b) as [available|e]; [|by eauto 10].
  destruct Hs as [Hl Hnull]. destruct (nul_position (as_bytes value)) as [p|] eqn:Hp.
  { eexists _, _. split; [done|]. split; [|done]. split; [done|]. right. split; [done|].
    apply dec_stable. intros Hn%nul_position_None. congruence. }
  apply nul_position_None in Hp. case_decide as Hr.
  - destruct (gb_value b) as [dst|] eqn:Hv; [|specialize (Hnull eq_refl); lia].
    cbn [mbind option_bind]. rewrite (Hfit dst available) by done. cbn.
    eexists _, _. split; [done|]. split; [|done]. split; [done|]. split; [done|].
    intros a Ha. rewrite Hl in Ha. injection Ha as <-. split; [eauto | lia].
  - cbn. eexists _, _. split; [done|]. split; [|done]. split; [done|]. split; [done|].
    intros a Ha. rewrite Hl in Ha. injection Ha as <-. split; [lia | done].
Qed.

Lemma write_string_protocol_witness :
  exists b' r, write_string (str "on") (mkGetBuffer (Some [120; 120; 120; 120]%N) (Some 4)) = Some (b', r) /\
    b' = mkGetBuffer (Some [111; 110; 0; 120]%N) (Some 3) /\ r = Ok tt.
Proof.
  destruct (write_string_protocol (str "on") (mkGetBuffer (Some [120; 120; 120; 120]%N) (Some 4)))
    as (b' & r & E & _).
  - intros dst len [= <-] [= <-]. cbn. lia.
  - vm_compute in E. apply Some_inj, pair_equal_spec in E as [<- <-]. eexists _, _.
    split; [vm_compute; reflexivity | done].
Defined.

(** The same for bytes, which have no terminator. *)
Lemma write_bytes_protocol value b :
  buffer_ok b ->
  exists b' r, write_bytes value b = Some (b', r) /\
    match r with
    | Err e => b' = b /\ status e = InvalidArguments
    | Ok _ =>
        gb_length b' = Some (length value) /\
        forall available, gb_length b = Some available ->
          (forall dst, gb_value b = Some dst -> length value <= available ->
             gb_value b' = Some (value ++ drop (length value) dst)) /\
          (available < length value \/ gb_value b = None -> gb_value b' = gb_value b)
    end.
Proof.
  intros Hb. unfold write_bytes. pose proof (available_space_spec b) as Hs.
  destruct (available_space b) as [available|e]; [|by exists b, (Err e)].
  destruct Hs as [Hl Hnull]. destruct (gb_value b) as [dst|] eqn:Hv; [case_decide as Hd|].
  - rewrite copy_to_fits by (specialize (Hb _ _ Hv Hl); lia). cbn.
    eexists _, _. split; [done|]. split; [done|]. intros a Ha. rewrite Hl in Ha. injection Ha as <-.
    split; [by intros ? [= <-]|]. intros [?|?]; [lia | done].
  - cbn. eexists _, _. split; [done|]. split; [done|]. intros a Ha. rewrite Hl in Ha. injection Ha as <-.
    split; [by intros ? [= <-]|]. done.
  - cbn. eexists _, _. split; [done|]. split; [done|]. intros a Ha. split; [by intros ? [=] | done].
Qed.

(** Optional text is read exactly when it is UTF-8, whatever the argument. *)
Lemma required_str_spec ptr name :
  match ptr with
  | None => required_str ptr name = Err (missing_argument name)
  | Some bs => (forall s, from_utf8 bs = Some s -> required_str ptr name = Ok s) /\
               (from_utf8 bs = None -> exists e, utf8_error 0 bs = Some e /\ exists m,
                  required_str ptr name = Err m /\ status m = InvalidArguments)
  end.
Proof.
  destruct ptr as [bs|]; [|done]. unfold required_str, to_str. split.
  - by intros s ->.
  - intros E. rewrite E. destruct (utf8_error 0 bs) as [e|] eqn:Ee; [eauto|].
    apply utf8_error_complete in Ee as [s Hs]. congruence.
Qed.
