(* ===== verification/FfiError.v ===== *)
(** * [src/ffi/error.rs]: writing an error into the caller's [AdbcError]

    The caller allocates the struct, at the size of the ADBC revision it was
    built for: a 1.0.0 allocation has no tail, and touching the tail of one is
    undefined behaviour ([None]), as is freeing a block that is not allocated.
    The driver's own allocations are the blocks of a [Heap].  A release callback
    left in the struct by another library is a [ForeignRelease]: it may rewrite
    every field the allocation has. *)

From S2P Require Import Prelude RustStr Utf8 RustNum ErrorModel FfiGuard.

Open Scope Z_scope.

(** ** Memory *)

Abbreviation addr := positive (only parsing).

(** What the driver allocates for an error: a C string, or the details box. *)
Inductive Block :=
  | BText (bytes : list byte)
  | BDetails (details : list (list byte * list byte)).

Abbreviation Heap := (gmap positive Block) (only parsing).

Definition alloc (h : Heap) (b : Block) : Heap * addr :=
  let a := fresh (dom h) in (<[a := b]> h, a).

Definition free_text (h : Heap) (a : addr) : option Heap :=
  match h !! a with Some (BText _) => Some (delete a h) | _ => None end.

Definition free_details (h : Heap) (a : addr) : option Heap :=
  match h !! a with Some (BDetails _) => Some (delete a h) | _ => None end.

(** ** The structs of [src/ffi/abi.rs] *)

Definition ADBC_ERROR_VENDOR_CODE_PRIVATE_DATA : Z := - 2 ^ 31.

Inductive ReleaseFn :=
  | ReleaseError
  | ReleaseErrorV100
  | ForeignRelease (f : positive).

Record AdbcErrorV100 := mkErrorV100 {
  ae_message : option addr;
  ae_vendor_code : Z;
  ae_sqlstate : list Z;
  ae_release : option ReleaseFn;
}.

(** The two fields ADBC 1.1.0 added. *)
Record ErrorTail := mkErrorTail {
  ae_private_data : option addr;
  ae_private_driver : option positive;
}.

(** The caller's allocation: the tail exists only at the 1.1.0 size. *)
Record AdbcError := mkAdbcError { ae_prefix : AdbcErrorV100; ae_tail : option ErrorTail }.

(** A detail handed to the caller; null pointers are [None]. *)
Record AdbcErrorDetail := mkErrorDetail {
  d_key : option (list byte);
  d_value : option (list byte);
  d_value_length : Z;
}.

(** The callbacks of other libraries. *)
Class Foreign := {
  foreign_prefix : positive -> AdbcErrorV100 -> AdbcErrorV100;
  foreign_tail : positive -> ErrorTail -> ErrorTail;
}.

Definition VENDOR_CODE_DETAIL_KEY : rstr := str "adbc.spanner.vendor_code".

Section ExportError.
Context {FO : Foreign}.
Variable escape_debug : rstr -> rstr.

(** ** Release callbacks *)

Definition free_opt (free : Heap -> addr -> option Heap) (h : Heap) (p : option addr) : option Heap :=
  match p with Some a => free h a | None => Some h end.

Definition release_error (error : AdbcError) (h : Heap) : option (AdbcError * Heap) :=
  let p := ae_prefix error in
  h ← free_opt free_text h (ae_message p);
  tail ← ae_tail error;
  h ← free_opt free_details h (ae_private_data tail);
  Some (mkAdbcError (mkErrorV100 None (ae_vendor_code p) (ae_sqlstate p) None)
                    (Some (mkErrorTail None (ae_private_driver tail))), h).

Definition release_error_v100 (error : AdbcError) (h : Heap) : option (AdbcError * Heap) :=
  let p := ae_prefix error in
  h ← free_opt free_text h (ae_message p);
  Some (mkAdbcError (mkErrorV100 None (ae_vendor_code p) (ae_sqlstate p) None) (ae_tail error), h).

Definition call_release (f : ReleaseFn) (error : AdbcError) (h : Heap) : option (AdbcError * Heap) :=
  match f with
  | ReleaseError => release_error error h
  | ReleaseErrorV100 => release_error_v100 error h
  | ForeignRelease f =>
      Some (mkAdbcError (foreign_prefix f (ae_prefix error)) (foreign_tail f <$> ae_tail error), h)
  end.

(** [if let Some(release) = out.release { release(out) }]. *)
Definition release_if_set (error : AdbcError) (h : Heap) : option (AdbcError * Heap) :=
  match ae_release (ae_prefix error) with
  | Some f => call_release f error h
  | None => Some (error, h)
  end.

(** ** Exporting *)

(** [adbc_core::error::Error] has no SQLSTATE in this driver: the five zeros of
    [with_message_and_status]. *)
Definition sqlstate : list Z := [0; 0; 0; 0; 0].

(** The details box of a 1.1.0 error. *)
Definition exported_details (error : Error) : list (list byte * list byte) :=
  map (fun '(key, value) => (sanitized_cstring (as_bytes key), value)) (default [] (details error)) ++
  (if decide (vendor_code error = 0) then []
   else [(sanitized_cstring (as_bytes VENDOR_CODE_DETAIL_KEY), as_bytes (show_Z (vendor_code error)))]).

Definition exported_message (error : Error) : list byte :=
  sanitized_cstring (message_bytes escape_debug (message error)).

(** The branch for a caller that advertised the 1.1.0 layout; writing the whole
    struct needs an allocation that has the tail. *)
Definition write_v110 (out : AdbcError) (private_driver : option positive) (error : Error) (h : Heap) :
    option (AdbcError * Heap) :=
  _ ← ae_tail out;
  let '(h, m) := alloc h (BText (exported_message error)) in
  let '(h, d) := alloc h (BDetails (exported_details error)) in
  Some (mkAdbcError
          (mkErrorV100 (Some m) ADBC_ERROR_VENDOR_CODE_PRIVATE_DATA sqlstate (Some ReleaseError))
          (Some (mkErrorTail (Some d) private_driver)), h).

(** The branch that writes only the 1.0.0 prefix. *)
Definition write_v100 (out : AdbcError) (error : Error) (h : Heap) : AdbcError * Heap :=
  let '(h, m) := alloc h (BText (exported_message error)) in
  (mkAdbcError
     (mkErrorV100 (Some m)
        (if decide (vendor_code error = ADBC_ERROR_VENDOR_CODE_PRIVATE_DATA) then 0 else vendor_code error)
        sqlstate (Some ReleaseErrorV100))
     (ae_tail out), h).

Definition export_error (out : option AdbcError) (error : Error) (h : Heap) :
    option (option AdbcError * Heap) :=
  match out with
  | None => Some (None, h)
  | Some out =>
      let is_v110 := bool_decide (ae_vendor_code (ae_prefix out) = ADBC_ERROR_VENDOR_CODE_PRIVATE_DATA) in
      private_driver ← (if is_v110 then tail ← ae_tail out; Some (ae_private_driver tail) else Some None);
      '(out, h) ← release_if_set out h;
      '(out, h) ← (if is_v110 : bool then write_v110 out private_driver error h
                   else Some (write_v100 out error h));
      Some (Some out, h)
  end.

(** ** Reading the details back *)

(** [details]: [Some None] is a struct without a details box. *)
Definition details_of (error : option AdbcError) (h : Heap) :
    option (option (list (list byte * list byte))) :=
  match error with
  | None => Some None
  | Some error =>
      if decide (ae_vendor_code (ae_prefix error) = ADBC_ERROR_VENDOR_CODE_PRIVATE_DATA) then
        tail ← ae_tail error;
        match ae_private_data tail with
        | None => Some None
        | Some a => match h !! a with Some (BDetails l) => Some (Some l) | _ => None end
        end
      else Some None
  end.

Definition c_int_max : Z := 2 ^ 31 - 1.

Definition error_get_detail_count (error : option AdbcError) (h : Heap) : option Z :=
  d ← details_of error h;
  Some match d with
       | None => 0
       | Some l => let n := Z.of_nat (length l) in if decide (n <= c_int_max) then n else c_int_max
       end.

Definition empty_detail : AdbcErrorDetail := mkErrorDetail None None 0.

Definition error_get_detail (error : option AdbcError) (index : Z) (h : Heap) : option AdbcErrorDetail :=
  d ← details_of error h;
  Some match d with
       | None => empty_detail
       | Some l =>
           if decide (index < 0) then empty_detail
           else match l !! Z.to_nat index with
                | None => empty_detail
                | Some (key, value) => mkErrorDetail (Some key) (Some value) (Z.of_nat (length value))
                end
       end.

(** ** Ownership *)

(** The sentinel is the only record of the allocation's size: it must not lie. *)
Definition truthful (e : AdbcError) : Prop :=
  ae_vendor_code (ae_prefix e) = ADBC_ERROR_VENDOR_CODE_PRIVATE_DATA -> is_Some (ae_tail e).

(** The blocks the struct owns on top of [base]. *)
Inductive owns (base : Heap) : AdbcError -> Heap -> Prop :=
  | owns_none e :
      (forall f, ae_release (ae_prefix e) = Some f -> exists id, f = ForeignRelease id) ->
      owns base e base
  | owns_v110 m d text l s driver :
      base !! m = None -> base !! d = None -> m <> d ->
      owns base
        (mkAdbcError (mkErrorV100 (Some m) ADBC_ERROR_VENDOR_CODE_PRIVATE_DATA s (Some ReleaseError))
                     (Some (mkErrorTail (Some d) driver)))
        (<[d := BDetails l]> (<[m := BText text]> base))
  | owns_v100 m text v s tail :
      base !! m = None -> v <> ADBC_ERROR_VENDOR_CODE_PRIVATE_DATA ->
      owns base (mkAdbcError (mkErrorV100 (Some m) v s (Some ReleaseErrorV100)) tail)
        (<[m := BText text]> base).

(** The caller's use of one struct: failing calls export into it, and between
    calls it releases what it holds. *)
Inductive ErrorOp :=
  | Export (e : Error)
  | Release.

Definition error_step (s : AdbcError * Heap) (op : ErrorOp) : option (AdbcError * Heap) :=
  match op with
  | Export e =>
      '(out, h) ← export_error (Some s.1) e s.2;
      match out with Some out => Some (out, h) | None => None end
  | Release => release_if_set s.1 s.2
  end.

Fixpoint error_run (s : AdbcError * Heap) (ops : list ErrorOp) : option (AdbcError * Heap) :=
  match ops with
  | [] => Some s
  | op :: ops => s ← error_step s op; error_run s ops
  end.

(** ** Properties *)

(** A release callback clears the [release] field, as the header requires, and
    does not claim a larger allocation than there is. *)
Class ForeignLaws : Prop := {
  foreign_clears : forall f p, ae_release (foreign_prefix f p) = None;
  foreign_honest : forall f p,
    ae_vendor_code (foreign_prefix f p) = ADBC_ERROR_VENDOR_CODE_PRIVATE_DATA ->
    ae_vendor_code p = ADBC_ERROR_VENDOR_CODE_PRIVATE_DATA;
}.

Lemma alloc_spec h b h' a : alloc h b = (h', a) -> h !! a = None /\ h' = <[a := b]> h.
Proof. intros [= <- <-]. split; [|done]. apply not_elem_of_dom, is_fresh. Qed.

(** Whatever the struct owns is freed, exactly, and the size is what it was. *)
Lemma release_if_set_spec {FL : ForeignLaws} base e h :
  truthful e -> owns base e h ->
  exists e', release_if_set e h = Some (e', base) /\ truthful e' /\
    ae_release (ae_prefix e') = None /\ (is_Some (ae_tail e') <-> is_Some (ae_tail e)).
Proof.
  intros Ht Ho. unfold release_if_set. destruct Ho as [e Hf|m d text l s driver Hm Hd Hne|m text v s tail Hm Hv].
  - destruct (ae_release (ae_prefix e)) as [f|] eqn:E; [|by exists e].
    destruct (Hf f eq_refl) as [id ->]. cbn [call_release]. eexists. split; [done|].
    cbn [ae_prefix ae_tail]. split; [|split; [apply foreign_clears | by rewrite fmap_is_Some]].
    intros Hs. cbn [ae_tail]. rewrite fmap_is_Some. by apply Ht, (foreign_honest id).
  - cbn [ae_prefix ae_release call_release]. unfold release_error. cbn [ae_prefix ae_message ae_tail ae_private_data free_opt].
    unfold free_text. rewrite lookup_insert_ne, lookup_insert_eq by done. cbn [mbind option_bind].
    rewrite delete_insert_ne, delete_insert_id by done. cbn [mbind option_bind free_opt ae_private_data].
    unfold free_details. rewrite lookup_insert_eq. cbn [mbind option_bind].
    rewrite delete_insert_id by done. eexists. split; [done|]. split; [by intros _; eexists|]. by split.
  - cbn [ae_prefix ae_release call_release]. unfold release_error_v100. cbn [ae_prefix ae_message ae_tail free_opt].
    unfold free_text. rewrite lookup_insert_eq. cbn [mbind option_bind].
    rewrite delete_insert_id by done. eexists. split; [done|]. split; [intros H; by apply Hv in H|]. by split.
Qed.

(** The two layouts an export writes. *)
Lemma write_v110_spec out driver error h :
  is_Some (ae_tail out) ->
  exists e' h' m d,
    write_v110 out driver error h = Some (e', h') /\ owns h e' h' /\ truthful e' /\ is_Some (ae_tail e') /\
    e' = mkAdbcError
           (mkErrorV100 (Some m) ADBC_ERROR_VENDOR_CODE_PRIVATE_DATA sqlstate (Some ReleaseError))
           (Some (mkErrorTail (Some d) driver)) /\
    h' !! m = Some (BText (exported_message error)) /\ h' !! d = Some (BDetails (exported_details error)).
Proof.
  intros [tail Et]. unfold write_v110. rewrite Et. cbn [mbind option_bind].
  destruct (alloc h _) as [h1 m] eqn:E1. destruct (alloc h1 _) as [h2 d] eqn:E2.
  apply alloc_spec in E1 as [Hm ->]. apply alloc_spec in E2 as [Hd ->].
  rewrite lookup_insert_None in Hd. destruct Hd as [Hd Hne].
  eexists _, _, m, d. split; [done|]. split; [by constructor|]. split; [by intros _; eexists|].
  split; [by eexists|]. split; [done|].
  rewrite lookup_insert_ne, lookup_insert_eq by done. by rewrite lookup_insert_eq.
Qed.

Lemma write_v100_spec out error h :
  exists e' h' m v,
    write_v100 out error h = (e', h') /\ owns h e' h' /\ truthful e' /\ ae_tail e' = ae_tail out /\
    e' = mkAdbcError (mkErrorV100 (Some m) v sqlstate (Some ReleaseErrorV100)) (ae_tail out) /\
    v <> ADBC_ERROR_VENDOR_CODE_PRIVATE_DATA /\
    (vendor_code error <> ADBC_ERROR_VENDOR_CODE_PRIVATE_DATA -> v = vendor_code error) /\
    h' !! m = Some (BText (exported_message error)).
Proof.
  unfold write_v100. destruct (alloc h _) as [h1 m] eqn:E1. apply alloc_spec in E1 as [Hm ->].
  assert (Hv : (if decide (vendor_code error = ADBC_ERROR_VENDOR_CODE_PRIVATE_DATA) then 0 else vendor_code error)
               <> ADBC_ERROR_VENDOR_CODE_PRIVATE_DATA) by (case_decide; [discriminate | done]).
  eexists _, _, m, _. split; [done|]. split; [by constructor|]. split; [intros H; by apply Hv in H|].
  split; [done|]. split; [done|]. split; [done|]. split; [intros H; by rewrite decide_False|].
  by rewrite lookup_insert_eq.
Qed.

(** Exporting into a struct this discipline maintains. *)
Lemma export_error_spec {FL : ForeignLaws} base e h error :
  truthful e -> owns base e h ->
  exists e' h' m,
    export_error (Some e) error h = Some (Some e', h') /\ truthful e' /\ owns base e' h' /\
    (is_Some (ae_tail e') <-> is_Some (ae_tail e)) /\
    ae_message (ae_prefix e') = Some m /\ h' !! m = Some (BText (exported_message error)) /\
    (ae_vendor_code (ae_prefix e') = ADBC_ERROR_VENDOR_CODE_PRIVATE_DATA <->
       ae_vendor_code (ae_prefix e) = ADBC_ERROR_VENDOR_CODE_PRIVATE_DATA) /\
    (ae_vendor_code (ae_prefix e) = ADBC_ERROR_VENDOR_CODE_PRIVATE_DATA ->
       details_of (Some e') h' = Some (Some (exported_details error)) /\
       (ae_private_driver <$> ae_tail e') = (ae_private_driver <$> ae_tail e)).
Proof.
  intros Ht Ho. destruct (release_if_set_spec base e h Ht Ho) as (r & Er & _ & _ & Hsize).
  unfold export_error. case_bool_decide as Hs.
  - destruct (Ht Hs) as [tail Etail]. rewrite Etail. cbn [mbind option_bind]. rewrite Er. cbn [mbind option_bind].
    destruct (write_v110_spec r (ae_private_driver tail) error base) as (e' & h' & m & d & E & Hown & Ht' & Htl & -> & Hm & Hd).
    { apply Hsize. by rewrite Etail. }
    rewrite E. cbn [mbind option_bind].
    eexists _, _, m. do 2 (split; [done|]). split; [done|]. split; [split; by eexists|].
    split; [done|]. split; [done|]. split; [done|]. intros _. split; [|done].
    unfold details_of. cbn [ae_prefix ae_vendor_code]. rewrite decide_True by done.
    cbn [mbind option_bind ae_tail ae_private_data]. by rewrite Hd.
  - cbn [mbind option_bind]. rewrite Er. cbn [mbind option_bind].
    destruct (write_v100_spec r error base) as (e' & h' & m & v & E & Hown & Ht' & Htl & -> & Hv & _ & Hm).
    rewrite E. eexists _, _, m. do 2 (split; [done|]). split; [done|]. split; [done|].
    split; [done|]. split; [done|]. split; [done|]. done.
Qed.

Lemma error_run_owned {FL : ForeignLaws} base ops : forall e h,
  truthful e -> owns base e h ->
  exists e' h', error_run (e, h) ops = Some (e', h') /\ truthful e' /\ owns base e' h' /\
    (is_Some (ae_tail e') <-> is_Some (ae_tail e)).
Proof.
  induction ops as [|[error|] ops IH]; intros e h Ht Ho; cbn [error_run error_step fst snd].
  - by exists e, h.
  - destruct (export_error_spec base e h error Ht Ho) as (e' & h' & m & E & Ht' & Ho' & Hs & _).
    rewrite E. cbn [mbind option_bind]. destruct (IH e' h' Ht' Ho') as (e2 & h2 & E2 & ? & ? & ?).
    exists e2, h2. split; [done|]. do 2 (split; [done|]). by etrans.
  - destruct (release_if_set_spec base e h Ht Ho) as (e' & E & Ht' & Hn & Hs).
    rewrite E. cbn [mbind option_bind].
    destruct (IH e' base Ht') as (e2 & h2 & E2 & ? & ? & ?); [constructor; rewrite Hn; discriminate|].
    exists e2, h2. split; [done|]. do 2 (split; [done|]). by etrans.
Qed.

(** C30: error export is memory safe and leaks nothing.  Take any struct whose
    sentinel does not claim more than was allocated, and any sequence of failing
    calls that export into it and of releases.  No step touches the tail of a
    1.0.0 allocation, frees a block twice or frees another's block; the driver's
    heap always is what it was plus exactly the blocks the struct points at, so
    one more release brings it back to what it was; and the sentinel never comes
    to claim a tail that is not there. *)
Theorem error_export_memory_safe {FL : ForeignLaws} base ops e h :
  truthful e -> owns base e h ->
  exists e' h', error_run (e, h) ops = Some (e', h') /\ truthful e' /\ owns base e' h' /\
    (is_Some (ae_tail e') <-> is_Some (ae_tail e)) /\
    exists e2, error_step (e', h') Release = Some (e2, base) /\ error_step (e2, base) Release = Some (e2, base).
Proof.
  intros Ht Ho. destruct (error_run_owned base ops e h Ht Ho) as (e' & h' & E & Ht' & Ho' & Hs).
  exists e', h'. do 4 (split; [done|]).
  destruct (release_if_set_spec base e' h' Ht' Ho') as (e2 & E2 & _ & Hn & _).
  exists e2. split; [done|]. cbn [error_step fst snd]. unfold release_if_set. by rewrite Hn.
Qed.

(** C31: what a caller reads of an exported error.  The message is the driver's
    message with NULs made visible.  A 1.1.0 caller finds the error's own details
    first, in order, then the gRPC code that the sentinel displaced: under its own
    key, present exactly when there is a code, as text that parses back to it; and
    every other index is empty.  Its [private_driver] survives.  A 1.0.0 caller
    gets no details, and nothing past its allocation is read. *)
Theorem exported_error_readable {FL : ForeignLaws} base e h error :
  truthful e -> owns base e h -> is_i64 (vendor_code error) = true ->
  exists e' h' m,
    export_error (Some e) error h = Some (Some e', h') /\
    ae_message (ae_prefix e') = Some m /\ h' !! m = Some (BText (exported_message error)) /\
    0%N ∉ exported_message error /\
    if decide (ae_vendor_code (ae_prefix e) = ADBC_ERROR_VENDOR_CODE_PRIVATE_DATA) then
      let own := default [] (details error) in
      ae_private_driver <$> ae_tail e' = ae_private_driver <$> ae_tail e /\
      (forall i, error_get_detail (Some e') i h' = Some
         (if decide (0 <= i < Z.of_nat (length own)) then
            match own !! Z.to_nat i with
            | Some (key, value) =>
                mkErrorDetail (Some (sanitized_cstring (as_bytes key))) (Some value) (Z.of_nat (length value))
            | None => empty_detail
            end
          else if decide (i = Z.of_nat (length own) /\ vendor_code error <> 0) then
            let code := show_Z (vendor_code error) in
            mkErrorDetail (Some (as_bytes VENDOR_CODE_DETAIL_KEY)) (Some (as_bytes code))
              (Z.of_nat (length (as_bytes code)))
          else empty_detail)) /\
      parse_i64 (show_Z (vendor_code error)) = Some (vendor_code error)
    else error_get_detail_count (Some e') h' = Some 0 /\
         forall i, error_get_detail (Some e') i h' = Some empty_detail.
Proof.
  intros Ht Ho Hi. destruct (export_error_spec base e h error Ht Ho)
    as (e' & h' & m & E & _ & _ & _ & Hm & Htext & Hsent & Hdet).
  exists e', h', m. do 3 (split; [done|]). split; [apply sanitized_cstring_no_nul|].
  case_decide as Hs.
  - destruct (Hdet Hs) as [Hd Hdrv]. split; [done|]. split; [|by apply parse_show_i64].
    intros i. unfold error_get_detail. rewrite Hd. cbn [mbind option_bind]. f_equal.
    unfold exported_details. case_decide as Hneg; [by rewrite !decide_False by lia|].
    destruct (decide (0 <= i < Z.of_nat (length (default [] (details error))))) as [Hlt|Hlt].
    + rewrite lookup_app_l by (rewrite length_map; lia). rewrite list_lookup_fmap.
      by destruct (default [] (details error) !! Z.to_nat i) as [[k v]|].
    + rewrite lookup_app_r by (rewrite length_map; lia). rewrite length_map.
      case_decide as Hv; [by rewrite decide_False by tauto|].
      destruct (decide (i = Z.of_nat (length (default [] (details error))))) as [->|Hne].
      * rewrite decide_True by done. by rewrite Nat2Z.id, Nat.sub_diag.
      * rewrite decide_False by tauto. rewrite lookup_ge_None_2; [done|]. cbn. lia.
  - assert (Hd : details_of (Some e') h' = Some None).
    { unfold details_of. rewrite decide_False; [done|]. by rewrite Hsent. }
    unfold error_get_detail_count, error_get_detail. rewrite Hd. by split.
Qed.

End ExportError.

(** A library whose release callback clears the whole struct, as the C++
    framework's does. *)
Definition memset_foreign : Foreign := {|
  foreign_prefix _ _ := mkErrorV100 None 0 sqlstate None;
  foreign_tail _ _ := mkErrorTail None None;
|}.

Lemma memset_laws : ForeignLaws (FO := memset_foreign).
Proof. split; [done | discriminate]. Qed.

(** A 1.0.0 caller that reuses one struct for an error whose code is the sentinel. *)
Definition error_example : AdbcError := mkAdbcError (mkErrorV100 None 0 sqlstate (Some (ForeignRelease 1))) None.

Lemma error_export_memory_safe_witness :
  exists e' h', error_run (FO := memset_foreign) (fun s => s) (error_example, ∅)
      [Export (mkError [Lit "a"] Internal ADBC_ERROR_VENDOR_CODE_PRIVATE_DATA None);
       Export (mkError [Lit "b"] NotFound 5 None)] = Some (e', h') /\
    ~ is_Some (ae_tail e') /\ owns ∅ e' h'.
Proof.
  destruct (error_export_memory_safe (FO := memset_foreign) (fun s => s) (FL := memset_laws) ∅
      [Export (mkError [Lit "a"] Internal ADBC_ERROR_VENDOR_CODE_PRIVATE_DATA None);
       Export (mkError [Lit "b"] NotFound 5 None)] error_example ∅) as (e' & h' & E & _ & Ho & Hs & _).
  - discriminate.
  - constructor. intros f [= <-]. by eexists.
  - exists e', h'. split; [exact E|]. split; [|exact Ho]. rewrite Hs. intros [? ?]. discriminate.
Defined.

Lemma exported_error_readable_witness :
  exists e' h' m,
    export_error (FO := memset_foreign) (fun s => s)
      (Some (mkAdbcError (mkErrorV100 None ADBC_ERROR_VENDOR_CODE_PRIVATE_DATA sqlstate None)
                         (Some (mkErrorTail None (Some 7%positive)))))
      (mkError [Lit "gone"] NotFound 5 (Some [(str "google.rpc.help", [65%N])])) ∅ = Some (Some e', h') /\
    h' !! m = Some (BText (lit_bytes "gone")) /\
    error_get_detail (Some e') 1 h' =
      Some (mkErrorDetail (Some (lit_bytes "adbc.spanner.vendor_code")) (Some (lit_bytes "5")) 1).
Proof.
  destruct (exported_error_readable (FO := memset_foreign) (fun s => s) (FL := memset_laws) ∅
      (mkAdbcError (mkErrorV100 None ADBC_ERROR_VENDOR_CODE_PRIVATE_DATA sqlstate None)
                   (Some (mkErrorTail None (Some 7%positive)))) ∅
      (mkError [Lit "gone"] NotFound 5 (Some [(str "google.rpc.help", [65%N])])))
    as (e' & h' & m & E & Hm & Htext & _ & Hd).
  - intros _. by eexists.
  - constructor. discriminate.
  - done.
  - exists e', h', m. split; [exact E|]. split; [rewrite Htext; vm_compute; reflexivity|].
    destruct Hd as (_ & Hd & _). rewrite Hd. vm_compute. reflexivity.
Defined.
