(* ===== verification/FfiHandle.v ===== *)
(** * [src/ffi/handle.rs]: what lives behind [private_data]

    The option buffer and the staged construction of an object, the poison flag,
    the state mutex, the cancel handle and the mutex it is kept in, as one call
    sees them ([dispatch], [cancel], [release]) and under every interleaving of the
    caller's threads ([handle_step]).  The driver call an entry point makes is a function of the
    object's state and of the rest of the world; a call that panics leaves its
    torn state behind. *)

From S2P Require Import Prelude RustStr ErrorModel Options FfiGuard FfiError.

Open Scope nat_scope.

(** ** Options before [Init] *)

Section Staging.
Context {K : Type} `{EqDecision K} {St : Type}.

(** [OptionBuffer], with its entries in order. *)
Definition OptionBuffer : Type := list (K * OptionValue).

(** [OptionBuffer::set]: the first entry of the key is overwritten in place. *)
Fixpoint buffer_set (entries : list (K * OptionValue)) (key : K) (value : OptionValue) :
    list (K * OptionValue) :=
  match entries with
  | [] => [(key, value)]
  | (existing, old) :: entries =>
      if decide (existing = key) then (existing, value) :: entries
      else (existing, old) :: buffer_set entries key value
  end.

Inductive Staged :=
  | Pending (options : OptionBuffer)
  | Ready (state : St).

Definition staged_default : Staged := Pending [].

Definition uninitialized (kind : rstr) : Error :=
  err [Disp kind; Lit " is uninitialized or already released"] InvalidState.

Definition poisoned_err (kind : rstr) : Error :=
  err [Disp kind; Lit " is unusable after an earlier panic in the driver"] Internal.

Definition ready (self : Staged) (kind : rstr) : Result St :=
  match self with
  | Ready state => Ok state
  | Pending _ => Err (uninitialized kind)
  end.

Definition pending (self : Staged) (kind : rstr) : Result OptionBuffer :=
  match self with
  | Pending options => Ok options
  | Ready _ => Err (err [Disp kind; Lit " is already initialized"] InvalidState)
  end.

End Staging.

Arguments OptionBuffer : clear implicits.
Arguments Staged : clear implicits.

(** ** One call *)

Section Calls.
Context {FO : Foreign} (escape_debug : rstr -> rstr).
Context {St Cancel W : Type}.

(** [Exported]; [None] behind a slot is the null pointer. *)
Record Exported := mkExported {
  ex_poisoned : bool;
  ex_cancel : option Cancel;
  ex_state : St;
}.

Abbreviation Slot := (option Exported) (only parsing).

(** [Exported::into_private_data] and [into_private_data_with_cancel]. *)
Definition into_private_data_with_cancel (state : St) (cancel : option Cancel) : Slot :=
  Some (mkExported false cancel state).

Definition into_private_data (state : St) : Slot := into_private_data_with_cancel state None.

(** What a call of driver code does to the object and the world. *)
Definition Body : Type := St -> W -> St * W * Exit (Result unit).

(** [lock_state] once the lock is held. *)
Definition lock_state (slot : Slot) (kind : rstr) : Result Exported :=
  match slot with
  | None => Err (uninitialized kind)
  | Some exported => if ex_poisoned exported then Err (poisoned_err kind) else Ok exported
  end.

(** [dispatch], up to [finish]. *)
Definition dispatch (slot : Slot) (kind : rstr) (f : Body) (w : W) : Slot * W * Result unit :=
  match lock_state slot kind with
  | Err e => (slot, w, Err e)
  | Ok exported =>
      let '(state, w, exit) := f (ex_state exported) w in
      match catch exit with
      | Ok r => (Some (mkExported (ex_poisoned exported) (ex_cancel exported) state), w, r)
      | Err panicked => (Some (mkExported true (ex_cancel exported) state), w, Err panicked)
      end
  end.

(** [cancel]: neither the state mutex nor the poison flag is consulted.  The cancel
    mutex, which orders cancels among themselves, is in [handle_step]. *)
Definition cancel (slot : Slot) (kind : rstr) (try_cancel : Cancel -> W -> W * Exit (Result unit)) (w : W) :
    W * Result unit :=
  match slot with
  | None => (w, Err (uninitialized kind))
  | Some exported =>
      match ex_cancel exported with
      | Some handle => let '(w, exit) := try_cancel handle w in (w, contained exit)
      | None => (w, Err (uninitialized kind))
      end
  end.

Definition install_cancel_handle (slot : Slot) (handle : Cancel) : Slot :=
  match slot with
  | Some exported => Some (mkExported (ex_poisoned exported) (Some handle) (ex_state exported))
  | None => None
  end.

(** [release]: dropping the last reference runs the state's destructor. *)
Definition release (slot : Slot) (kind : rstr) (drop_state : Exported -> W -> W * Exit (Result unit)) (w : W) :
    Slot * W * Result unit :=
  match slot with
  | None => (None, w, Err (uninitialized kind))
  | Some exported => let '(w, exit) := drop_state exported w in (None, w, contained exit)
  end.

(** [finish]: the status code, [None] being [ADBC_STATUS_OK], and the exported error. *)
Definition finish (result : Result unit) (error : option AdbcError) (h : gmap positive Block) :
    option (option Status * option AdbcError * gmap positive Block) :=
  match result with
  | Ok _ => Some (None, error, h)
  | Err failure => '(error, h) ← export_error escape_debug error failure h; Some (Some (status failure), error, h)
  end.

(** ** Every interleaving *)

(** One exported object, the caller's slot, and what its threads are doing.
    [object] is [None] once the object is freed.

    A cancel reads the slot ([reading]), takes a reference of its own
    ([cancelling]), takes the cancel mutex ([cancel_lock]), runs [try_cancel] with
    the mutex held, gives the mutex back ([fired]) and drops its reference.  Every
    other entry point borrows the handle's reference, waits for the state mutex
    ([waiting]) and runs the driver with it held ([running]); an [Init] that
    installs the cancel handle takes the cancel mutex meanwhile. *)
Record HandleState := mkHandle {
  slot_set : bool;
  object : option Exported;
  refs : nat;
  drops : nat;
  reading : gset positive;
  cancelling : gset positive;
  fired : gset positive;
  cancel_lock : option positive;
  waiting : gset positive;
  running : option positive;
}.

Definition handle_new (state : St) (c : option Cancel) : HandleState :=
  mkHandle true (Some (mkExported false c state)) 1 0 ∅ ∅ ∅ None ∅ None.

Definition with_slot (b : bool) (s : HandleState) : HandleState :=
  mkHandle b (object s) (refs s) (drops s) (reading s) (cancelling s) (fired s) (cancel_lock s) (waiting s) (running s).

Definition with_exported (o : Exported) (s : HandleState) : HandleState :=
  mkHandle (slot_set s) (Some o) (refs s) (drops s) (reading s) (cancelling s) (fired s) (cancel_lock s) (waiting s) (running s).

Definition with_refs (n : nat) (s : HandleState) : HandleState :=
  mkHandle (slot_set s) (object s) n (drops s) (reading s) (cancelling s) (fired s) (cancel_lock s) (waiting s) (running s).

Definition with_reading (X : gset positive) (s : HandleState) : HandleState :=
  mkHandle (slot_set s) (object s) (refs s) (drops s) X (cancelling s) (fired s) (cancel_lock s) (waiting s) (running s).

Definition with_cancelling (X Y : gset positive) (s : HandleState) : HandleState :=
  mkHandle (slot_set s) (object s) (refs s) (drops s) (reading s) X Y (cancel_lock s) (waiting s) (running s).

Definition with_cancel_lock (l : option positive) (s : HandleState) : HandleState :=
  mkHandle (slot_set s) (object s) (refs s) (drops s) (reading s) (cancelling s) (fired s) l (waiting s) (running s).

Definition with_calls (X : gset positive) (r : option positive) (s : HandleState) : HandleState :=
  mkHandle (slot_set s) (object s) (refs s) (drops s) (reading s) (cancelling s) (fired s) (cancel_lock s) X r.

Inductive Action :=
  | CancelRead (t : positive)
  | CancelStrong (t : positive)
  | CancelLock (t : positive)
  | CancelFire (t : positive)
  | CancelDrop (t : positive)
  | EnterCall (t : positive)
  | LockState (t : positive)
  | CallReturns (t : positive) (state : St)
  | CallPanics (t : positive) (torn : St)
  | InstallLock (t : positive)
  | InstallStore (t : positive) (c : Cancel)
  | ReleaseHandle.

(** The result of an action: not possible now (the thread is elsewhere, or
    waits), memory that is gone is touched, or a next state. *)
Inductive Step :=
  | Disabled
  | UseAfterFree
  | Next (s : HandleState).

Definition idle (s : HandleState) (t : positive) : bool :=
  bool_decide (t ∉ reading s /\ t ∉ cancelling s /\ t ∉ waiting s /\ running s <> Some t).

(** Dropping one reference; the last one frees the object. *)
Definition drop_ref (s : HandleState) : HandleState :=
  match refs s with
  | 1 => mkHandle (slot_set s) None 0 (S (drops s)) (reading s) (cancelling s) (fired s) (cancel_lock s) (waiting s) (running s)
  | n => with_refs (pred n) s
  end.

Definition with_object (s : HandleState) (f : Exported -> Step) : Step :=
  match object s with Some o => f o | None => UseAfterFree end.

(** [CancelFire] is the end of the critical section: [try_cancel] has returned
    or panicked and the guard is gone.  The value [InstallStore] overwrites is
    [None] ([connection_init] installs once), so dropping it runs no code. *)
Definition handle_step (s : HandleState) (a : Action) : Step :=
  match a with
  | CancelRead t =>
      if idle s t && slot_set s then Next (with_reading ({[t]} ∪ reading s) s) else Disabled
  | CancelStrong t =>
      if decide (t ∈ reading s) then with_object s (fun _ =>
        Next (with_refs (S (refs s)) (with_reading (reading s ∖ {[t]}) (with_cancelling ({[t]} ∪ cancelling s) (fired s) s))))
      else Disabled
  | CancelLock t =>
      if decide (t ∈ cancelling s /\ t ∉ fired s /\ cancel_lock s = None) then with_object s (fun _ =>
        Next (with_cancel_lock (Some t) s))
      else Disabled
  | CancelFire t =>
      if decide (t ∈ cancelling s /\ cancel_lock s = Some t) then with_object s (fun _ =>
        Next (with_cancel_lock None (with_cancelling (cancelling s) ({[t]} ∪ fired s) s)))
      else Disabled
  | CancelDrop t =>
      if decide (t ∈ fired s) then with_object s (fun _ =>
        Next (drop_ref (with_cancelling (cancelling s ∖ {[t]}) (fired s ∖ {[t]}) s)))
      else Disabled
  | EnterCall t =>
      if idle s t && slot_set s then Next (with_calls ({[t]} ∪ waiting s) (running s) s) else Disabled
  | LockState t =>
      if decide (t ∈ waiting s /\ running s = None) then with_object s (fun o =>
        Next (with_calls (waiting s ∖ {[t]}) (if ex_poisoned o then None else Some t) s))
      else Disabled
  | CallReturns t state =>
      if decide (running s = Some t /\ cancel_lock s <> Some t) then with_object s (fun o =>
        Next (with_calls (waiting s) None (with_exported (mkExported (ex_poisoned o) (ex_cancel o) state) s)))
      else Disabled
  | CallPanics t torn =>
      if decide (running s = Some t /\ cancel_lock s <> Some t) then with_object s (fun o =>
        Next (with_calls (waiting s) None (with_exported (mkExported true (ex_cancel o) torn) s)))
      else Disabled
  | InstallLock t =>
      if decide (running s = Some t /\ cancel_lock s = None) then with_object s (fun _ =>
        Next (with_cancel_lock (Some t) s))
      else Disabled
  | InstallStore t c =>
      if decide (running s = Some t /\ cancel_lock s = Some t) then with_object s (fun o =>
        Next (with_cancel_lock None (with_exported (mkExported (ex_poisoned o) (Some c) (ex_state o)) s)))
      else Disabled
  | ReleaseHandle =>
      if slot_set s then with_object s (fun _ => Next (drop_ref (with_slot false s))) else Disabled
  end.

Fixpoint handle_run (s : HandleState) (acts : list Action) : Step :=
  match acts with
  | [] => Next s
  | a :: acts => match handle_step s a with Next s => handle_run s acts | stop => stop end
  end.

(** What the caller owes a release: no call on the object in flight, and no
    cancel between reading the slot and taking its reference. *)
Definition host_ok (s : HandleState) (a : Action) : Prop :=
  a = ReleaseHandle -> reading s = ∅ /\ waiting s = ∅ /\ running s = None.

Inductive reachable (s0 : HandleState) : HandleState -> Prop :=
  | reach_here : reachable s0 s0
  | reach_step s a s' : reachable s0 s -> host_ok s a -> handle_step s a = Next s' -> reachable s0 s'.

(** What a cancel has to wait for: other cancels, and a store that is under way.
    Nothing here takes or gives back the state mutex. *)
Definition cancel_side (a : Action) : Prop :=
  match a with CancelLock _ | CancelFire _ | CancelDrop _ | InstallStore _ _ => True | _ => False end.

(** ** Properties *)

(** Where a thread can be: at most one place, and the cancel mutex is with a
    cancel that has not fired or with the call that is storing the handle. *)
Definition thread_ok (s : HandleState) (t : positive) : Prop :=
  (t ∈ fired s -> t ∈ cancelling s) /\
  (cancel_lock s = Some t -> (t ∈ cancelling s /\ t ∉ fired s) \/ running s = Some t) /\
  (t ∈ reading s -> t ∉ cancelling s /\ t ∉ waiting s) /\
  (t ∈ cancelling s -> t ∉ waiting s) /\
  (running s = Some t -> t ∉ reading s /\ t ∉ cancelling s).

Record handle_inv (s : HandleState) : Prop := mkHandleInv {
  hi_refs : refs s = (if slot_set s then 1 else 0) + size (cancelling s);
  hi_freed : object s = None <-> refs s = 0;
  hi_drops : drops s = (if object s then 0 else 1);
  hi_quiet : slot_set s = false -> reading s = ∅ /\ waiting s = ∅ /\ running s = None;
  hi_poison : forall o, object s = Some o -> ex_poisoned o = true -> running s = None;
  hi_threads : forall t, thread_ok s t;
}.

Lemma handle_new_inv state c : handle_inv (handle_new state c).
Proof. by constructor. Qed.

(** Under the invariant nothing that is reached for is gone. *)
Lemma handle_inv_alive s :
  handle_inv s -> slot_set s = true \/ cancelling s <> ∅ -> exists o, object s = Some o.
Proof.
  intros Hi H. destruct (object s) as [o|] eqn:E; [by exists o|].
  apply (hi_freed s Hi) in E. rewrite (hi_refs s Hi) in E.
  destruct H as [H|H]; [rewrite H in E; lia|]. exfalso. apply H. apply leibniz_equiv, size_empty_inv. lia.
Qed.

Lemma handle_inv_slot s :
  handle_inv s -> reading s <> ∅ \/ waiting s <> ∅ \/ running s <> None -> slot_set s = true.
Proof. intros Hi H. destruct (slot_set s) eqn:E; [done|]. destruct (hi_quiet s Hi E) as (? & ? & ?). tauto. Qed.

Lemma handle_inv_running s t :
  handle_inv s -> running s = Some t -> slot_set s = true /\ exists o, object s = Some o.
Proof.
  intros Hi H. assert (slot_set s = true) as Es by (apply (handle_inv_slot s Hi); rewrite H; auto).
  split; [done|]. apply (handle_inv_alive s Hi). by left.
Qed.


(** Dropping a reference that was counted keeps the invariant; the last one
    frees the object. *)
Lemma drop_ref_inv s :
  refs s = S ((if slot_set s then 1 else 0) + size (cancelling s)) ->
  is_Some (object s) -> drops s = 0 ->
  (forall n o d, n = (if slot_set s then 1 else 0) + size (cancelling s) -> (o = None <-> n = 0) ->
     d = (if o then 0 else 1) -> (o = object s \/ o = None) ->
     handle_inv (mkHandle (slot_set s) o n d (reading s) (cancelling s) (fired s) (cancel_lock s) (waiting s) (running s))) ->
  handle_inv (drop_ref s).
Proof.
  intros Hr [o Ho] Hd H. unfold drop_ref, with_refs. rewrite Hr. cbn [pred].
  destruct ((if slot_set s then 1 else 0) + size (cancelling s)) as [|n] eqn:En.
  - apply H; [done|done|by rewrite Hd|by right].
  - apply H; [done| |by rewrite Hd, Ho|by left]. rewrite Ho. split; discriminate.
Qed.

Lemma size_insert_new (X : gset positive) t : t ∉ X -> size ({[t]} ∪ X) = S (size X).
Proof. intros H. rewrite size_union by set_solver. by rewrite size_singleton. Qed.

Lemma size_remove (X : gset positive) t : t ∈ X -> size X = S (size (X ∖ {[t]})).
Proof.
  intros H. rewrite <- (size_insert_new (X ∖ {[t]}) t) by set_solver. f_equal.
  apply leibniz_equiv. intros x. destruct (decide (x = t)); set_solver.
Qed.

Definition step_keeps (s : HandleState) (a : Action) : Prop :=
  match handle_step s a with Disabled => True | UseAfterFree => False | Next s' => handle_inv s' end.

(** A thread's place after a step: nothing changed for the others. *)
Local Ltac place t :=
  intros t0; unfold thread_ok, idle in *; cbn in *;
  repeat match goal with H : forall t : positive, _ |- _ => specialize (H t0) end;
  destruct (decide (t0 = t)) as [->|]; set_unfold; naive_solver.

Lemma cancel_read_keeps s t : handle_inv s -> step_keeps s (CancelRead t).
Proof.
  intros Hi. unfold step_keeps, handle_step. destruct (idle s t) eqn:Ei; [|done]. destruct (slot_set s) eqn:Es; [|done].
  cbn [andb]. apply bool_decide_eq_true in Ei. destruct Hi as [H1 H2 H3 H4 H5 H6].
  constructor; cbn; try done; [by rewrite Es|]. place t.
Qed.

Lemma cancel_strong_keeps s t : handle_inv s -> step_keeps s (CancelStrong t).
Proof.
  intros Hi. unfold step_keeps, handle_step. destruct (decide (t ∈ reading s)) as [Ht|]; [|done].
  assert (slot_set s = true) as Es by (apply handle_inv_slot; set_solver).
  destruct (handle_inv_alive s Hi) as [o Eo]; [by left|]. unfold with_object. rewrite Eo.
  assert (t ∉ cancelling s) by (destruct (hi_threads s Hi t) as (_ & _ & H & _); tauto). destruct Hi as [H1 H2 H3 H4 H5 H6].
  constructor; cbn; try done; [| |by rewrite Es|].
  - rewrite size_insert_new by done. lia.
  - rewrite Eo. split; discriminate.
  - place t.
Qed.

Lemma cancel_lock_keeps s t : handle_inv s -> step_keeps s (CancelLock t).
Proof.
  intros Hi. unfold step_keeps, handle_step. case_decide as Ht; [|done]. destruct Ht as (Ht & Hf & Hl).
  destruct (handle_inv_alive s Hi) as [o Eo]; [right; set_solver|]. unfold with_object. rewrite Eo.
  destruct Hi as [H1 H2 H3 H4 H5 H6]. constructor; cbn; try done. place t.
Qed.

Lemma cancel_fire_keeps s t : handle_inv s -> step_keeps s (CancelFire t).
Proof.
  intros Hi. unfold step_keeps, handle_step. case_decide as Ht; [|done]. destruct Ht as (Ht & Hl).
  destruct (handle_inv_alive s Hi) as [o Eo]; [right; set_solver|]. unfold with_object. rewrite Eo.
  destruct Hi as [H1 H2 H3 H4 H5 H6]. constructor; cbn; try done. place t.
Qed.

Lemma cancel_drop_keeps s t : handle_inv s -> step_keeps s (CancelDrop t).
Proof.
  intros Hi. unfold step_keeps, handle_step. case_decide as Hf; [|done].
  assert (t ∈ cancelling s) as Ht by (destruct (hi_threads s Hi t) as (H & _); tauto).
  destruct (handle_inv_alive s Hi) as [o Eo]; [right; set_solver|]. unfold with_object. rewrite Eo.
  destruct Hi as [H1 H2 H3 H4 H5 H6]. apply drop_ref_inv; cbn; [|by eexists| |].
  - rewrite H1, (size_remove _ t Ht). lia.
  - by rewrite H3, Eo.
  - intros n o' d -> Hz -> Ho. constructor; cbn; try done; [|place t].
    destruct Ho as [-> | ->]; [done|discriminate].
Qed.

Lemma enter_call_keeps s t : handle_inv s -> step_keeps s (EnterCall t).
Proof.
  intros Hi. unfold step_keeps, handle_step. destruct (idle s t) eqn:Ei; [|done]. destruct (slot_set s) eqn:Es; [|done].
  cbn [andb]. apply bool_decide_eq_true in Ei. destruct Hi as [H1 H2 H3 H4 H5 H6].
  constructor; cbn; try done; [by rewrite Es|]. place t.
Qed.

Lemma lock_state_keeps s t : handle_inv s -> step_keeps s (LockState t).
Proof.
  intros Hi. unfold step_keeps, handle_step. case_decide as Ht; [|done]. destruct Ht as (Ht & Hn).
  assert (slot_set s = true) as Es by (apply handle_inv_slot; set_solver).
  destruct (handle_inv_alive s Hi) as [o Eo]; [by left|]. unfold with_object. rewrite Eo.
  destruct Hi as [H1 H2 H3 H4 H5 H6]. constructor; cbn; try done; [by rewrite Es| |].
  - intros o' E Hp. rewrite Eo in E. injection E as <-. by rewrite Hp.
  - destruct (ex_poisoned o); place t.
Qed.

(** The steps of the running call that rewrite what the object holds. *)
Lemma running_keeps s t o o' l r :
  handle_inv s -> running s = Some t -> object s = Some o ->
  (r = None /\ l = cancel_lock s /\ l <> Some t \/ r = running s /\ l = None /\ ex_poisoned o' = ex_poisoned o) ->
  handle_inv (with_cancel_lock l (with_calls (waiting s) r (with_exported o' s))).
Proof.
  intros Hi Ht Eo Hc. destruct (handle_inv_running s t Hi Ht) as [Es _].
  destruct Hi as [H1 H2 H3 H4 H5 H6]. constructor; cbn; try done.
  - rewrite <- H2, Eo. split; discriminate.
  - by rewrite H3, Eo.
  - by rewrite Es.
  - intros ? [= <-] Hp. destruct Hc as [(-> & _) | (-> & _ & E)]; [done|]. apply (H5 o); [done|congruence].
  - destruct Hc as [(-> & -> & ?) | (-> & -> & _)]; place t.
Qed.

Lemma install_lock_keeps s t : handle_inv s -> step_keeps s (InstallLock t).
Proof.
  intros Hi. unfold step_keeps, handle_step. case_decide as Ht; [|done]. destruct Ht as (Ht & Hl).
  destruct (handle_inv_running s t Hi Ht) as [Es [o Eo]]. unfold with_object. rewrite Eo.
  destruct Hi as [H1 H2 H3 H4 H5 H6]. constructor; cbn; try done. place t.
Qed.

Lemma release_keeps s : handle_inv s -> host_ok s ReleaseHandle -> step_keeps s ReleaseHandle.
Proof.
  intros Hi Hh. unfold step_keeps, handle_step. destruct (slot_set s) eqn:Es; [|done]. destruct (Hh eq_refl) as (E1 & E2 & E3).
  destruct (handle_inv_alive s Hi) as [o Eo]; [by left|]. unfold with_object. rewrite Eo.
  destruct Hi as [H1 H2 H3 H4 H5 H6]. apply drop_ref_inv; cbn; [by rewrite H1, Es|by eexists| |].
  - by rewrite H3, Eo.
  - intros n o' d -> Hz -> Ho. by constructor.
Qed.

Lemma handle_step_inv s a : handle_inv s -> host_ok s a -> step_keeps s a.
Proof.
  intros Hi Hh.
  destruct a; auto using cancel_read_keeps, cancel_strong_keeps, cancel_lock_keeps, cancel_fire_keeps,
    cancel_drop_keeps, enter_call_keeps, lock_state_keeps, install_lock_keeps, release_keeps.
  all: unfold step_keeps, handle_step; case_decide as Ht; [|done]; destruct Ht as (Ht & Hl);
    destruct (handle_inv_running s t Hi Ht) as [_ [o Eo]]; unfold with_object; rewrite Eo.
  - apply (running_keeps s t o _ (cancel_lock s) None); auto.
  - apply (running_keeps s t o _ (cancel_lock s) None); auto.
  - eapply (running_keeps s t o _ None (running s)); auto.
Qed.

Lemma reachable_inv state c s : reachable (handle_new state c) s -> handle_inv s.
Proof.
  induction 1 as [|s a s' _ IH Hh E]; [apply handle_new_inv|].
  pose proof (handle_step_inv s a IH Hh) as H. unfold step_keeps in H. by rewrite E in H.
Qed.

Lemma poisoned_step s a s' o :
  handle_inv s -> object s = Some o -> ex_poisoned o = true -> handle_step s a = Next s' ->
  running s' = None /\ (object s' = Some o \/ object s' = None).
Proof.
  intros Hi Eo Hpo. pose proof (hi_poison s Hi o Eo Hpo) as Hrun.
  assert (Hdrop : forall s0, object s0 = Some o -> running s0 = None ->
    running (drop_ref s0) = None /\ (object (drop_ref s0) = Some o \/ object (drop_ref s0) = None)).
  { intros s0 E0 E1. unfold drop_ref. destruct (refs s0) as [|[|n]]; cbn; auto. }
  destruct a; unfold handle_step, with_object; rewrite ?Eo, ?Hrun; repeat case_decide; destruct_and?;
    repeat case_match; intros E; simplify_eq/=; rewrite ?Hpo; auto.
Qed.

(** The cancel of thread [t] is over within [n] steps, each of them a cancel's
    or a store of the handle that is under way: whichever call runs keeps
    running. *)
Definition cancel_finishes (n : nat) (s : HandleState) (t : positive) : Prop :=
  exists acts s', length acts <= n /\ Forall cancel_side acts /\ handle_run s acts = Next s' /\
    cancelling s' = cancelling s ∖ {[t]} /\ running s' = running s.

Lemma finishes_step n s a s1 t :
  cancel_side a -> handle_step s a = Next s1 -> cancelling s1 = cancelling s -> running s1 = running s ->
  cancel_finishes n s1 t -> cancel_finishes (S n) s t.
Proof.
  intros Ha E Ec Er (acts & s' & Hn & Hall & Hrun & Ec' & Er'). exists (a :: acts), s'. cbn. rewrite E.
  split; [lia|]. split; [by constructor|]. split; [done|]. by rewrite Ec', Er', Ec, Er.
Qed.

Lemma finishes_weaken n m s t : n <= m -> cancel_finishes n s t -> cancel_finishes m s t.
Proof. intros ? (acts & s' & ? & ?). exists acts, s'. split; [lia|done]. Qed.

Lemma fired_finishes s t : handle_inv s -> t ∈ fired s -> cancel_finishes 1 s t.
Proof.
  intros Hi Hf. assert (t ∈ cancelling s) as Ht by (destruct (hi_threads s Hi t) as (H & _); tauto).
  destruct (handle_inv_alive s Hi) as [o Eo]; [right; set_solver|].
  exists [CancelDrop t]. eexists. split; [cbn; lia|]. split; [repeat constructor|]. split.
  { cbn. rewrite decide_True by done. unfold with_object. by rewrite Eo. }
  unfold drop_ref. by repeat case_match.
Qed.

Lemma firing_finishes s t : handle_inv s -> t ∈ cancelling s -> cancel_lock s = Some t -> cancel_finishes 2 s t.
Proof.
  intros Hi Ht Hl. destruct (handle_inv_alive s Hi) as [o Eo]; [right; set_solver|].
  pose proof (cancel_fire_keeps s t Hi) as Hk. unfold step_keeps in Hk.
  assert (handle_step s (CancelFire t) = Next (with_cancel_lock None (with_cancelling (cancelling s) ({[t]} ∪ fired s) s))) as E
    by (cbn; rewrite decide_True by done; unfold with_object; by rewrite Eo).
  rewrite E in Hk. eapply (finishes_step 1 s (CancelFire t)); [exact I|exact E|done|done|]. apply fired_finishes; [done|]. cbn. set_solver.
Qed.

Lemma unlocked_finishes s t :
  handle_inv s -> t ∈ cancelling s -> cancel_lock s = None -> cancel_finishes 3 s t.
Proof.
  intros Hi Ht Hl. destruct (decide (t ∈ fired s)) as [Hf|Hf].
  { apply (finishes_weaken 1); [lia|]. by apply fired_finishes. }
  destruct (handle_inv_alive s Hi) as [o Eo]; [right; set_solver|].
  pose proof (cancel_lock_keeps s t Hi) as Hk. unfold step_keeps in Hk.
  assert (handle_step s (CancelLock t) = Next (with_cancel_lock (Some t) s)) as E
    by (cbn; rewrite decide_True by done; unfold with_object; by rewrite Eo).
  rewrite E in Hk. eapply (finishes_step 2 s (CancelLock t)); [exact I|exact E|done|done|]. by apply firing_finishes.
Qed.

(** Whoever has the cancel mutex can give it back, without the state mutex. *)
Lemma cancel_lock_released s t' (handle : Cancel) :
  handle_inv s -> cancel_lock s = Some t' ->
  exists a s', (a = CancelFire t' \/ a = InstallStore t' handle) /\ handle_step s a = Next s' /\
    cancel_lock s' = None /\ cancelling s' = cancelling s /\ running s' = running s.
Proof.
  intros Hi Hl. destruct (hi_threads s Hi t') as (_ & H & _). destruct (H Hl) as [[Ht _]|Ht].
  - destruct (handle_inv_alive s Hi) as [o Eo]; [right; set_solver|].
    exists (CancelFire t'). cbn. rewrite decide_True by done. unfold with_object. rewrite Eo. eauto 10.
  - destruct (handle_inv_running s t' Hi Ht) as [_ [o Eo]].
    exists (InstallStore t' handle). cbn. rewrite decide_True by done. unfold with_object. rewrite Eo. eauto 10.
Qed.

Lemma cancel_always_finishes s t (handle : Cancel) :
  handle_inv s -> t ∈ cancelling s -> cancel_finishes 4 s t.
Proof.
  intros Hi Ht. destruct (cancel_lock s) as [t'|] eqn:Hl.
  - destruct (cancel_lock_released s t' handle Hi Hl) as (a & s' & Ha & E & El & Ec & Er).
    pose proof (handle_step_inv s a Hi ltac:(destruct Ha as [-> | ->]; intros [=])) as Hk.
    unfold step_keeps in Hk. rewrite E in Hk.
    eapply (finishes_step 3 s a); [by destruct Ha as [-> | ->]|exact E|done|done|].
    apply unlocked_finishes; [done|by rewrite Ec|done].
  - apply (finishes_weaken 3); [lia|]. by apply unlocked_finishes.
Qed.

(** C32: an exported object lives exactly as long as it is reachable.  Take any
    interleaving of the caller's threads (calls, cancels and one release, the
    release excluding the calls in flight and the cancels that have only read the
    slot).  No step touches freed memory; the object is there exactly while the
    slot holds it or a cancel has its own reference, the count says how many hold
    it, and it is freed at most once.

    A cancel never waits for the state mutex.  It may wait for the cancel mutex:
    whoever has that is another cancel in its [try_cancel] or the call storing the
    handle, and each can give it back at once; so a cancel ends within four steps
    of cancels and such a store, and a call that runs meanwhile keeps running.

    Once a call has panicked no later call runs on the object: nobody holds its
    state mutex again, and what it contains stays as it is until it is freed.  (A
    cancel still fires, and freeing the object still runs its destructor.) *)
Theorem exported_object_lifetime state c s :
  reachable (handle_new state c) s ->
  (forall a, host_ok s a -> handle_step s a <> UseAfterFree) /\
  refs s = (if slot_set s then 1 else 0) + size (cancelling s) /\
  (object s = None <-> slot_set s = false /\ cancelling s = ∅) /\
  drops s = (if object s then 0 else 1) /\
  (forall t, t ∈ reading s -> exists s', handle_step s (CancelStrong t) = Next s' /\ t ∈ cancelling s') /\
  (forall t handle, cancel_lock s = Some t ->
     exists a s', (a = CancelFire t \/ a = InstallStore t handle) /\ handle_step s a = Next s' /\
       cancel_lock s' = None /\ cancelling s' = cancelling s /\ running s' = running s) /\
  (forall t (handle : Cancel), t ∈ cancelling s ->
     exists acts s', length acts <= 4 /\ Forall cancel_side acts /\ handle_run s acts = Next s' /\
       cancelling s' = cancelling s ∖ {[t]} /\ running s' = running s) /\
  (forall o, object s = Some o -> ex_poisoned o = true ->
     running s = None /\
     forall a s', handle_step s a = Next s' -> running s' = None /\ (object s' = Some o \/ object s' = None)).
Proof.
  intros Hi%reachable_inv. pose proof (handle_inv_alive s Hi) as Halive.
  split. { intros a Hh E. pose proof (handle_step_inv s a Hi Hh) as H. unfold step_keeps in H. by rewrite E in H. }
  split; [apply (hi_refs s Hi)|]. split; [|split; [apply (hi_drops s Hi)|]].
  { rewrite (hi_freed s Hi), (hi_refs s Hi). split.
    - intros H0. destruct (slot_set s); [lia|]. split; [done|]. apply leibniz_equiv, size_empty_inv. lia.
    - intros [-> ->]. by rewrite size_empty. }
  split; [|split; [|split]].
  - intros t Ht. destruct Halive as [o Eo]; [left; apply handle_inv_slot; set_solver|].
    unfold handle_step, with_object. rewrite Eo. rewrite decide_True by done.
    eexists. split; [done|]. cbn. set_solver.
  - intros t handle. by apply cancel_lock_released.
  - intros t handle. by apply cancel_always_finishes.
  - intros o Eo Hpo. split; [by apply (hi_poison s Hi o)|]. intros a s' E. by eapply poisoned_step.
Qed.

(** One call sees the same discipline.  Every outcome is a result: a panic is
    an [Internal] error, and poisons that object for good, so that its state is
    what the panic left and no later call runs driver code on it.  A call that
    returns leaves the flag alone, and a null or poisoned handle is refused
    without running anything.  A second release is refused. *)
Lemma dispatch_contained slot kind (f : Body) w :
  match slot with
  | None => dispatch slot kind f w = (None, w, Err (uninitialized kind))
  | Some o =>
      if ex_poisoned o then dispatch slot kind f w = (Some o, w, Err (poisoned_err kind))
      else let '(state, w', exit) := f (ex_state o) w in
           exists p, dispatch slot kind f w = (Some (mkExported p (ex_cancel o) state), w', contained exit) /\
                     (p = true <-> exists cause, exit = Panicked cause)
  end.
Proof.
  destruct slot as [o|]; [|done]. unfold dispatch, lock_state. destruct (ex_poisoned o) eqn:Ep; [done|].
  destruct (f (ex_state o) w) as [[state w'] [r|cause]]; cbn.
  - exists false. rewrite ?Ep. split; [done|]. split; [done|]. intros [? ?]. discriminate.
  - exists true. split; [done|]. split; [by eauto|done].
Qed.

End Calls.

(** Without the exclusion a release owes, a cancel that has read the slot but not
    taken its reference touches freed memory. *)
Lemma release_window_is_real :
  let s0 := handle_new (Cancel := unit) tt (Some tt) in
  exists s1 s2, handle_step s0 (CancelRead 1) = Next s1 /\ handle_step s1 ReleaseHandle = Next s2 /\
    handle_step s2 (CancelStrong 1) = UseAfterFree.
Proof. do 2 eexists. split; [reflexivity|]. split; [reflexivity|]. reflexivity. Qed.

(** A schedule without a release asks nothing of the host. *)
Lemma run_reachable {St Cancel} (s0 s : HandleState (St := St) (Cancel := Cancel)) acts s' :
  reachable s0 s -> Forall (fun a => a <> ReleaseHandle) acts -> handle_run s acts = Next s' -> reachable s0 s'.
Proof.
  intros Hs Hall. revert s Hs. induction Hall as [|a acts Ha _ IH]; intros s Hs; cbn; [by intros [= <-]|].
  destruct (handle_step s a) as [| |s1] eqn:E; [done|done|]. apply IH. by apply (reach_step s0 s a s1).
Qed.

(** While thread 2 runs a call, thread 1 is inside [try_cancel] and thread 3 waits
    for it: thread 3's cancel still ends, with the call running on.  A cancel that
    overlaps a release keeps the object, poisoned or not, until it is done. *)
Lemma exported_object_lifetime_witness :
  let s0 := handle_new (St := nat) (Cancel := unit) 0 (Some tt) in
  (exists s acts s', reachable s0 s /\ running s = Some 2%positive /\ cancel_lock s = Some 1%positive /\
     handle_step s (CancelLock 3) = Disabled /\ Forall cancel_side acts /\ handle_run s acts = Next s' /\
     cancelling s' = cancelling s ∖ {[3%positive]} /\ running s' = Some 2%positive) /\
  (exists s o, reachable s0 s /\ slot_set s = false /\ refs s = 1 /\
     object s = Some o /\ ex_poisoned o = true /\ ex_state o = 7 /\ running s = None).
Proof.
  intros s0. split.
  - assert (exists s, reachable s0 s /\ running s = Some 2%positive /\ cancel_lock s = Some 1%positive /\
      handle_step s (CancelLock 3) = Disabled /\ 3%positive ∈ cancelling s) as (s & Hs & H1 & H2 & H3 & Ht).
    { eexists. split.
      - apply (run_reachable s0 s0 [EnterCall 2; LockState 2; CancelRead 1; CancelStrong 1; CancelRead 3; CancelStrong 3; CancelLock 1]);
          [constructor|by repeat constructor|reflexivity].
      - split; [reflexivity|]. split; [reflexivity|]. split; [reflexivity|]. cbn. set_solver. }
    pose proof (exported_object_lifetime 0 (Some tt) s Hs) as (_ & _ & _ & _ & _ & _ & Hc & _).
    destruct (Hc 3%positive tt Ht) as (acts & s' & _ & Hall & Hrun & Hcan & Hr).
    exists s, acts, s'. rewrite <- H1. done.
  - assert (exists s1, reachable s0 s1 /\ reading s1 = ∅ /\ waiting s1 = ∅ /\ running s1 = None /\ exists s o,
      handle_step s1 ReleaseHandle = Next s /\ slot_set s = false /\ refs s = 1 /\
      object s = Some o /\ ex_poisoned o = true /\ ex_state o = 7) as (s1 & Hs1 & E1 & E2 & E3 & s & o & Hs & H1 & H2 & H3 & H4 & H5).
    { eexists. split.
      - apply (run_reachable s0 s0 [EnterCall 2; CancelRead 1; CancelStrong 1; LockState 2; CallPanics 2 7]);
          [constructor|by repeat constructor|reflexivity].
      - split; [apply leibniz_equiv; cbn; set_solver|]. split; [apply leibniz_equiv; cbn; set_solver|].
        split; [done|]. by do 2 eexists. }
    assert (reachable s0 s) as Hr by (apply (reach_step s0 s1 ReleaseHandle s); [done|by intros _|done]).
    pose proof (exported_object_lifetime 0 (Some tt) s Hr) as (_ & _ & _ & _ & _ & _ & _ & Hp).
    exists s, o. by destruct (Hp o H3 H4).
Defined.
