(* ===== verification/FfiOptions.v ===== *)
(** * [src/ffi/options.rs], [src/ffi/database.rs]: handle prologues and options

    The entry points a database, a connection and a statement share, written once
    over two interfaces, as in the source: [Optionable] is what the driver's own
    objects promise, [OptionTarget] how an entry point reaches one through its
    handle (a staged object buffers before [Init]).  Each definition is the body
    of the [extern] function up to [finish].  A handle argument is the slot it
    holds, a null handle struct being distinguished where the source does. *)

From S2P Require Import Prelude RustStr Utf8 RustNum ErrorModel Options Config Runtime Txn Client Connection Driver DriverFacts StatementState FfiGuard FfiError FfiHandle.

Open Scope nat_scope.

Lemma Forall_filter_keep {A} (P Q : A -> Prop) `{forall a, Decision (Q a)} l :
  Forall P l -> Forall P (filter Q l).
Proof. rewrite !Forall_forall. intros Hl a [_ Ha]%list_elem_of_filter. auto. Qed.

(** ** Interfaces *)

(** [adbc_core::Optionable]: [key_from] and [key_as_ref] are the conversions of
    its key type. *)
Class Optionable (St K W : Type) := {
  key_from : rstr -> K;
  key_as_ref : K -> rstr;
  o_set_option : St -> K -> OptionValue -> W -> St * W * Exit (Result unit);
  o_get_option_string : St -> K -> W -> Result rstr;
}.

(** The typed getters of [impl_typed_option_getters]. *)
Section TypedGetters.
Context `{OP : Optionable St K W}.

Definition get_option_bytes (self : St) (key : K) (w : W) : Result (list byte) :=
  s ← o_get_option_string self key w; Ok (as_bytes s).

Definition get_option_int (self : St) (key : K) (w : W) : Result Z :=
  int_from_stored_string (o_get_option_string self key w) (str "option " ++ key_as_ref key).

Definition get_option_double (self : St) (key : K) (w : W) : Result f64 :=
  double_from_stored_string (o_get_option_string self key w) (str "option " ++ key_as_ref key).

End TypedGetters.

(** The trait [OptionTarget]: [Opt] is the live object of a handle's state. *)
Class OptionTarget (St K Opt W : Type) := {
  t_set : St -> K -> OptionValue -> W -> St * W * Exit (Result unit);
  t_options : St -> rstr -> K -> Result Opt;
}.

Section StagedTarget.
Context `{OP : Optionable St K W} `{EqDecision K}.

Definition staged_set (self : Staged K St) (key : K) (value : OptionValue) (w : W) :
    Staged K St * W * Exit (Result unit) :=
  match self with
  | Pending options => (Pending (buffer_set options key value), w, Returned (Ok tt))
  | Ready state => let '(state, w, exit) := o_set_option state key value w in (Ready state, w, exit)
  end.

Definition staged_options (self : Staged K St) (kind : rstr) (key : K) : Result St :=
  match self with
  | Ready state => Ok state
  | Pending _ =>
      Err (not_found [Lit "Spanner "; Disp kind; Lit " option "; Disp (key_as_ref key);
                      Lit " cannot be read before the "; Disp kind;
                      Lit " is initialized; initialize it first"])
  end.

#[export] Instance staged_target : OptionTarget (Staged K St) K St W :=
  {| t_set := staged_set; t_options := staged_options |}.

End StagedTarget.

(** ** Entry points *)

Section EntryPoints.
Context {St K Opt Cancel W : Type} `{TG : OptionTarget St K Opt W} `{OP : Optionable Opt K W}.
Variable KIND : rstr.

Abbreviation Slot := (option (Exported (St := St) (Cancel := Cancel))) (only parsing).

Definition already_populated : Error :=
  invalid_state [Disp KIND;
    Lit " already holds a driver object; release it before creating another, and pass a zero-initialized struct to a first one"].

(** [checked]: a null handle struct is a bad argument. *)
Definition checked (handle : option Slot) : Result Slot :=
  match handle with Some slot => Ok slot | None => Err (missing_argument KIND) end.

Definition new_handle (default_state : St) (handle : option Slot) : option Slot * Result unit :=
  match checked handle with
  | Err failure => (handle, Err failure)
  | Ok (Some _) => (handle, Err already_populated)
  | Ok None => (Some (into_private_data default_state), Ok tt)
  end.

Definition release_handle (drop_state : Exported -> W -> W * Exit (Result unit)) (handle : option Slot) (w : W) :
    option Slot * W * Result unit :=
  match checked handle with
  | Err failure => (handle, w, Err failure)
  | Ok slot => let '(slot, w, r) := release slot KIND drop_state w in (Some slot, w, r)
  end.

(** [slot_of]: a null handle struct reads as a null slot. *)
Definition slot_of (handle : option Slot) : Slot :=
  match handle with Some slot => slot | None => None end.

Definition parse_key (key : option (list byte)) : Result K :=
  key ← required_str key (str "key"); Ok (key_from key).

(** [set_option] with a converted value. *)
Definition set_option (slot : Slot) (key : option (list byte)) (value : OptionValue) (w : W) :
    Slot * W * Result unit :=
  dispatch slot KIND (fun state w =>
    match parse_key key with
    | Err e => (state, w, Returned (Err e))
    | Ok key => t_set state key value w
    end) w.

Definition set_option_string (slot : Slot) (key value : option (list byte)) (w : W) : Slot * W * Result unit :=
  match required_str value (str "value") with
  | Err failure => (slot, w, Err failure)
  | Ok value => set_option slot key (OString value) w
  end.

Definition set_option_bytes (slot : Slot) (key value : option (list byte)) (len : nat) (w : W) :
    option (Slot * W * Result unit) :=
  value ← byte_slice value len (str "value");
  Some match value with
       | Err failure => (slot, w, Err failure)
       | Ok value => set_option slot key (OBytes value) w
       end.

Definition set_option_int (slot : Slot) (key : option (list byte)) (value : Z) (w : W) :=
  set_option slot key (OInt value) w.

Definition set_option_double (slot : Slot) (key : option (list byte)) (value : f64) (w : W) :=
  set_option slot key (ODouble value) w.

(** A getter's outputs are the caller's memory [O]; [None] is undefined behaviour. *)
Definition getter {A O} (get : Opt -> K -> W -> Result A) (write : A -> O -> option (O * Result unit))
    (slot : Slot) (key : option (list byte)) (out : O) (w : W) : Slot * (W * option O) * Result unit :=
  dispatch (W := W * option O) slot KIND (fun state wo =>
    match (key ← parse_key key; live ← t_options state KIND key; get live key wo.1) with
    | Err e => (state, wo, Returned (Err e))
    | Ok found =>
        match write found out with
        | Some (out, r) => (state, (wo.1, Some out), Returned r)
        | None => (state, (wo.1, None), Returned (Ok tt))
        end
    end) (w, Some out).

Definition get_option_string (slot : Slot) (key : option (list byte)) (b : GetBuffer) (w : W) :=
  getter o_get_option_string write_string slot key b w.

Definition ffi_get_option_bytes (slot : Slot) (key : option (list byte)) (b : GetBuffer) (w : W) :=
  getter get_option_bytes write_bytes slot key b w.

Definition ffi_get_option_int (slot : Slot) (key : option (list byte)) (value : option Z) (w : W) :=
  getter get_option_int (fun found out => Some (write_out out found (str "value"))) slot key value w.

Definition ffi_get_option_double (slot : Slot) (key : option (list byte)) (value : option f64) (w : W) :=
  getter get_option_double (fun found out => Some (write_out out found (str "value"))) slot key value w.

End EntryPoints.

(** ** Databases *)

(** [OptionDatabase] as a key: its [From<&str>] belongs to [adbc_core]. *)
Class DatabaseKeys := { od_from : rstr -> OptionDatabase }.

#[export] Instance OptionDatabase_eq_dec : EqDecision OptionDatabase.
Proof. solve_decision. Defined.

#[export] Instance OptionConnection_eq_dec : EqDecision OptionConnection.
Proof. solve_decision. Defined.

Section Database.
Context {DK : DatabaseKeys} `{OU : Outside} {W : Type}.

#[export] Instance database_optionable : Optionable SpannerDatabase OptionDatabase W := {|
  key_from := od_from;
  key_as_ref := od_name;
  o_set_option self key value w := let '(self, r) := db_set_option self key value in (self, w, Returned r);
  o_get_option_string self key w := db_get_option_string (db_config self) key;
|}.

Definition DATABASE_KIND : rstr := str "database".

(** [shared_driver]: the process-wide driver, if one was built, and what building
    one now answers. *)
Definition shared_driver (driver : option unit) (try_new : Result unit) : option unit * Result unit :=
  match driver with
  | Some d => (driver, Ok d)
  | None => match try_new with Ok d => (Some d, Ok d) | Err e => (None, Err e) end
  end.

(** [database_init] of the dispatched state.  [lock_poisoned] says whether a call
    panicked while it held the shared driver. *)
Definition database_init (driver : option unit) (try_new : Result unit) (lock_poisoned : bool)
    (state : Staged OptionDatabase SpannerDatabase) :
    Staged OptionDatabase SpannerDatabase * option unit * Result unit :=
  match pending state DATABASE_KIND with
  | Err e => (state, driver, Err e)
  | Ok options =>
      match shared_driver driver try_new with
      | (driver, Err e) => (state, driver, Err e)
      | (driver, Ok _) =>
          if lock_poisoned then
            (state, driver,
             Err (err [Lit "the shared Spanner driver is unusable after an earlier panic"] Internal))
          else match new_database_with_opts options with
               | Err e => (state, driver, Err e)
               | Ok database => (Ready database, driver, Ok tt)
               end
      end
  end.

(** ** What a host sees of options set before [Init]

    A host's sets on a handle before [Init], the buffer they leave, and the same
    sets made one by one on a live database, where a refused one changes nothing. *)

Abbreviation Sets := (list (OptionDatabase * OptionValue)) (only parsing).

Definition host_sets (w : W) (sets : Sets) : Staged OptionDatabase SpannerDatabase :=
  foldl (fun st '(key, value) => (staged_set st key value w).1.1) staged_default sets.

Definition buffer_sets (b sets : Sets) : Sets :=
  foldl (fun b '(key, value) => buffer_set b key value) b sets.

Definition live (c : DbConfig) (sets : Sets) : DbConfig :=
  foldl (fun c '(key, value) => (set_config c key value).1) c sets.

(** A value a database takes for a key, whatever its configuration. *)
Definition accepted (s : OptionDatabase * OptionValue) : Prop :=
  (set_config DbConfig_new s.1 s.2).2 = Ok tt.

#[export] Instance accepted_dec s : Decision (accepted s).
Proof. unfold accepted. destruct (set_config _ _ _).2 as [[]|e]; [left | right]; done. Defined.

Lemma accepted_any c s : (set_config c s.1 s.2).2 = (set_config DbConfig_new s.1 s.2).2.
Proof. destruct (set_config_uniform s.1 s.2) as [[e H]|(f & _ & H)]; by rewrite !H. Qed.

Lemma host_sets_buffer w sets : host_sets w sets = Pending (buffer_sets [] sets).
Proof.
  assert (H : forall b, foldl (fun st '(key, value) => (staged_set st key value w).1.1) (Pending b) sets =
                      Pending (buffer_sets b sets)) by
    (induction sets as [|[k v] sets IH]; intros b; [done | apply IH]).
  apply H.
Qed.

(** Replaying a buffer on a new database. *)
Lemma db_set_options_spec sets : forall c,
  if decide (Forall accepted sets) then
    db_set_options (mkDatabase c None) sets = Ok (mkDatabase (live c sets) None)
  else exists k v e, (k, v) ∈ sets /\ (set_config DbConfig_new k v).2 = Err e /\
       db_set_options (mkDatabase c None) sets = Err e.
Proof.
  induction sets as [|[k v] sets IH]; intros c; [by rewrite decide_True by constructor|].
  cbn [db_set_options live foldl]. unfold db_set_option. cbn [db_config].
  pose proof (accepted_any c (k, v)) as Ha. cbn [fst snd] in Ha.
  destruct (set_config c k v) as [c' r] eqn:E. cbn [snd] in Ha. cbn [fst]. subst r.
  destruct (set_config DbConfig_new k v).2 as [[]|e] eqn:E1.
  - specialize (IH c'). destruct (decide (Forall accepted ((k, v) :: sets))) as [Hf|Hf].
    + rewrite decide_True in IH; [exact IH|]. by inversion Hf.
    + rewrite decide_False in IH by (intros H; apply Hf; by constructor).
      destruct IH as (k' & v' & e & ? & ? & ?). exists k', v', e. split; [by right|]. done.
  - rewrite decide_False.
    + exists k, v, e. split; [by left|]. done.
    + intros H. inversion H as [|? ? Ha]. unfold accepted in Ha. cbn in Ha. congruence.
Qed.

(** Options other than the URI each write their own field. *)
Lemma set_other_commute c n1 v1 n2 v2 :
  n1 <> n2 ->
  (set_other (set_other c n1 v1).1 n2 v2).1 = (set_other (set_other c n2 v2).1 n1 v1).1.
Proof.
  intros Hn. unfold set_other, assign.
  repeat match goal with |- context [decide (n1 = ?k)] => destruct (decide (n1 = k)) as [->|] end;
  repeat match goal with |- context [decide (n2 = ?k)] => destruct (decide (n2 = k)) as [->|] end;
  try congruence; repeat case_match; reflexivity.
Qed.

Lemma set_other_overwrite c n v1 v2 :
  (set_other c n v2).2 = Ok tt -> (set_other (set_other c n v1).1 n v2).1 = (set_other c n v2).1.
Proof.
  unfold set_other, assign.
  repeat match goal with |- context [decide (n = ?k)] => destruct (decide (n = k)) as [->|] end;
  repeat case_match; cbn; try discriminate; reflexivity.
Qed.

Lemma set_config_commute c k1 v1 k2 v2 :
  k1 <> OdUri -> k2 <> OdUri -> k1 <> k2 ->
  (set_config (set_config c k1 v1).1 k2 v2).1 = (set_config (set_config c k2 v2).1 k1 v1).1.
Proof.
  intros H1 H2 Hn. destruct k1, k2; try done; cbn [set_config]. apply set_other_commute. congruence.
Qed.

Lemma set_config_overwrite c k v1 v2 :
  k <> OdUri -> accepted (k, v2) -> (set_config (set_config c k v1).1 k v2).1 = (set_config c k v2).1.
Proof.
  intros H1 H2. unfold accepted in H2. rewrite <- (accepted_any c) in H2. cbn [fst snd] in H2.
  destruct k; try done; cbn [set_config] in *. by apply set_other_overwrite.
Qed.

Definition no_uri (sets : Sets) : Prop := Forall (fun s => s.1 <> OdUri) sets.

Lemma live_app c l1 l2 : live c (l1 ++ l2) = live (live c l1) l2.
Proof. apply foldl_app. Qed.

(** A set moves past sets of other keys. *)
Lemma live_past c k v l :
  k <> OdUri -> no_uri l -> Forall (fun s => s.1 <> k) l ->
  live (set_config c k v).1 l = (set_config (live c l) k v).1.
Proof.
  intros Hk Hl Hn. revert c. induction l as [|[k' v'] l IH]; intros c; [done|].
  inversion Hl; inversion Hn; subst. cbn [live foldl fst] in *.
  rewrite set_config_commute by done. by apply IH.
Qed.

(** What an accepted set leaves does not depend on earlier sets of its key. *)
Lemma live_erase l k v : forall c,
  k <> OdUri -> no_uri l -> accepted (k, v) ->
  (set_config (live c l) k v).1 =
  (set_config (live c (filter (fun s => s.1 <> k) l)) k v).1.
Proof.
  induction l as [|[k' v'] l IH]; intros c Hk Hl Ha; [done|]. inversion Hl as [|? ? Hk' Hl']; subst.
  cbn [live foldl]. change (foldl _ ?c ?l) with (live c l). rewrite IH by done.
  destruct (decide (k' = k)) as [->|Hne].
  - rewrite filter_cons_False by (cbn; tauto). rewrite live_past; [by apply set_config_overwrite|done| |].
    + by apply Forall_filter_keep.
    + apply Forall_forall. intros s Hs%list_elem_of_filter. apply Hs.
  - by rewrite filter_cons_True.
Qed.

Lemma live_perm c l1 l2 : NoDup l1.*1 -> no_uri l1 -> l1 ≡ₚ l2 -> live c l1 = live c l2.
Proof.
  intros Hd Hn Hp. revert c. induction Hp as [|[k v] l l' Hp IH|[k1 v1] [k2 v2] l|l1 l2 l3 H1 IH1 H2 IH2];
    intros c; [done| | |].
  - cbn [live foldl]. inversion Hd; inversion Hn; subst. by apply IH.
  - cbn [live foldl]. inversion Hd as [|? ? H1 _]; inversion Hn as [|? ? ? Hn2]; inversion Hn2; subst.
    rewrite set_config_commute; [done|done|done|]. cbn in *. set_solver.
  - rewrite IH1 by done. apply IH2; [by rewrite <- H1 | unfold no_uri; by rewrite <- H1].
Qed.

(** ** The buffer *)

Lemma buffer_set_perm (b : Sets) k v :
  NoDup b.*1 -> buffer_set b k v ≡ₚ (k, v) :: filter (fun s => s.1 <> k) b.
Proof.
  induction b as [|[k' v'] b IH]; intros Hd; [done|]. inversion Hd as [|? ? Hk Hd']; subst. cbn [buffer_set].
  case_decide as E.
  - subst k'. rewrite filter_cons_False by (cbn; tauto). f_equiv.
    assert (Hf : Forall (fun s => s.1 <> k) b).
    { apply Forall_forall. intros s Hs <-. apply Hk. by apply list_elem_of_fmap_2. }
    clear - Hf. induction Hf as [|s b Hs Hf IH]; [done|]. rewrite filter_cons_True by done. by f_equiv.
  - rewrite filter_cons_True by done. rewrite IH by done. apply perm_swap.
Qed.

Lemma buffer_set_keys (b : Sets) k v : NoDup b.*1 -> NoDup (buffer_set b k v).*1.
Proof.
  intros Hd. rewrite (buffer_set_perm b k v Hd). cbn. constructor.
  - rewrite list_elem_of_fmap. intros (s & -> & Hs%list_elem_of_filter). by apply Hs.
  - clear - Hd. induction b as [|s b IH]; [constructor|]. inversion Hd as [|? ? Hs Hd']; subst.
    destruct (decide (s.1 <> k)); [rewrite filter_cons_True by done | rewrite filter_cons_False by done; auto].
    cbn. constructor; [|by apply IH]. intros (x & Ex & Hx%list_elem_of_filter)%list_elem_of_fmap.
    apply Hs. rewrite Ex. by apply list_elem_of_fmap_2, Hx.
Qed.

Lemma buffer_sets_keys sets : forall b : Sets, NoDup b.*1 -> NoDup (buffer_sets b sets).*1.
Proof. induction sets as [|[k v] sets IH]; intros b Hb; [done|]. apply IH, buffer_set_keys, Hb. Qed.

Lemma buffer_sets_snoc (b : Sets) sets k v : buffer_sets b (sets ++ [(k, v)]) = buffer_set (buffer_sets b sets) k v.
Proof. unfold buffer_sets. by rewrite foldl_app. Qed.

(** Dropping a key commutes with buffering. *)
Lemma buffer_set_filter (b : Sets) k k' v :
  filter (fun s => s.1 <> k) (buffer_set b k' v) =
  if decide (k' = k) then filter (fun s => s.1 <> k) b else buffer_set (filter (fun s => s.1 <> k) b) k' v.
Proof.
  induction b as [|[k0 v0] b IH]; cbn [buffer_set].
  - destruct (decide (k' = k)) as [->|]; [by rewrite filter_cons_False by (cbn; tauto) | by rewrite filter_cons_True].
  - destruct (decide (k0 = k')) as [->|Hne].
    + destruct (decide (k' = k)) as [->|]; [by rewrite !filter_cons_False by (cbn; tauto)|].
      rewrite !filter_cons_True by done. cbn [buffer_set]. by rewrite decide_True.
    + destruct (decide (k0 = k)) as [->|].
      * rewrite !filter_cons_False by (cbn; tauto). exact IH.
      * rewrite !filter_cons_True by done. rewrite IH. destruct (decide (k' = k)); [done|].
        cbn [buffer_set]. by rewrite decide_False.
Qed.

Lemma buffer_sets_filter k sets : forall b : Sets,
  filter (fun s => s.1 <> k) (buffer_sets b sets) =
  buffer_sets (filter (fun s => s.1 <> k) b) (filter (fun s => s.1 <> k) sets).
Proof.
  induction sets as [|[k' v] sets IH]; intros b; [done|]. cbn [buffer_sets foldl].
  change (foldl _ (buffer_set b k' v) sets) with (buffer_sets (buffer_set b k' v) sets).
  rewrite IH, buffer_set_filter. destruct (decide (k' = k)) as [->|].
  - by rewrite filter_cons_False by (cbn; tauto).
  - by rewrite filter_cons_True.
Qed.

Lemma buffer_sets_no_uri sets : no_uri sets -> no_uri (buffer_sets [] sets).
Proof.
  induction sets as [|[k v] sets IH] using rev_ind; intros H; [done|].
  apply Forall_app in H as [Hs Hk]. rewrite buffer_sets_snoc. unfold no_uri.
  rewrite buffer_set_perm by (apply buffer_sets_keys; constructor).
  apply Forall_cons. split; [by inversion Hk|]. apply Forall_filter_keep, IH, Hs.
Qed.

(** The buffer keeps, for each key, the value it was last given. *)
Lemma buffer_sets_last sets k v :
  (k, v) ∈ buffer_sets [] sets -> exists pre post, sets = pre ++ (k, v) :: post /\ k ∉ post.*1.
Proof.
  induction sets as [|[k' v'] sets IH] using rev_ind; [set_solver|].
  rewrite buffer_sets_snoc, buffer_set_perm by (apply buffer_sets_keys; constructor).
  intros [[= -> ->]|[Hne Hin]%list_elem_of_filter]%elem_of_cons.
  - exists sets, []. split; [done|]. set_solver.
  - destruct (IH Hin) as (pre & post & -> & Hp). exists pre, (post ++ [(k', v')]).
    rewrite <- app_assoc. split; [done|]. rewrite fmap_app. cbn in *. set_solver.
Qed.

Lemma buffer_sets_fresh sets : forall b : Sets, NoDup (b ++ sets).*1 -> buffer_sets b sets = b ++ sets.
Proof.
  assert (Hset : forall (b : Sets) k v, k ∉ b.*1 -> buffer_set b k v = b ++ [(k, v)]).
  { induction b as [|[k0 v0] b IH]; intros k v H; [done|]. cbn in *.
    rewrite decide_False by set_solver. by rewrite IH by set_solver. }
  induction sets as [|[k v] sets IH]; intros b H; [by rewrite app_nil_r|]. cbn [buffer_sets foldl].
  change (foldl _ (buffer_set b k v) sets) with (buffer_sets (buffer_set b k v) sets).
  rewrite Hset, IH; [by rewrite <- app_assoc|by rewrite <- app_assoc|].
  rewrite fmap_app in H. apply NoDup_app in H as (_ & H & _). cbn in H. set_solver.
Qed.

Lemma buffer_live c n : forall sets,
  length sets <= n -> no_uri sets -> Forall accepted (buffer_sets [] sets) ->
  live c (buffer_sets [] sets) = live c sets.
Proof.
  induction n as [|n IH]; intros sets Hlen Hu Ha; [by destruct sets; [|cbn in Hlen; lia]|].
  destruct sets as [|[k v] sets _] using rev_ind; [done|].
  rewrite length_app in Hlen. cbn in Hlen. apply Forall_app in Hu as [Hu Hk].
  assert (k <> OdUri) as Hk' by (by inversion Hk).
  rewrite buffer_sets_snoc in *.
  pose proof (buffer_set_perm (buffer_sets [] sets) k v (buffer_sets_keys sets [] (NoDup_nil_2))) as Hp.
  rewrite Hp in Ha. inversion Ha as [|? ? Hav Haf]; subst.
  rewrite (live_perm c _ (filter (fun s => s.1 <> k) (buffer_sets [] sets) ++ [(k, v)])).
  - rewrite !live_app. cbn [live foldl]. change (foldl _ c ?l) with (live c l).
    rewrite (live_erase sets) by done. do 2 f_equal. rewrite buffer_sets_filter in *. rewrite filter_nil in *.
    apply IH; [|by apply Forall_filter_keep|done].
    pose proof (length_filter (fun s : OptionDatabase * OptionValue => s.1 <> k) sets). lia.
  - apply buffer_set_keys, buffer_sets_keys. constructor.
  - unfold no_uri. rewrite Hp. constructor; [done|]. by apply Forall_filter_keep, buffer_sets_no_uri.
  - rewrite Hp. by rewrite Permutation_app_comm.
Qed.

(** C33: buffering options before [Init] means what setting them on a live database
    would.  Whatever a host sets on a database handle before [Init], in any order
    and with any values: when none of them is the URI, or none is set twice,
    [Init] either leaves the handle ready with exactly the configuration the same
    sets, one by one, leave on a live database (which ignores the sets it
    refuses), or it fails, with the error a live database gives for a value that
    is the last one set for its key; the handle then still holds every option and
    a corrected value lets it be initialized.  [Init] on a ready handle is
    refused and leaves it alone. *)
Theorem buffered_init_is_live (w : W) sets driver :
  no_uri sets \/ NoDup sets.*1 ->
  exists driver' st r,
    database_init driver (Ok tt) false (host_sets w sets) = (st, driver', r) /\
    match r with
    | Ok _ => st = Ready (mkDatabase (live DbConfig_new sets) None) /\
              exists e, database_init driver (Ok tt) false st = (st, driver, Err e) /\ status e = InvalidState
    | Err e =>
        st = host_sets w sets /\
        exists pre k v post, sets = pre ++ (k, v) :: post /\ k ∉ post.*1 /\
          forall c, (set_config c k v).2 = Err e
    end.
Proof.
  intros Hs. rewrite host_sets_buffer. unfold database_init at 1. cbn [pending].
  assert (shared_driver driver (Ok tt) = (Some tt, Ok tt)) as -> by (by destruct driver as [[]|]).
  assert (Hlive : Forall accepted (buffer_sets [] sets) ->
                  live DbConfig_new (buffer_sets [] sets) = live DbConfig_new sets).
  { intros Ha. destruct Hs as [Hu|Hd]; [by apply (buffer_live _ (length sets))|].
    by rewrite buffer_sets_fresh. }
  unfold new_database_with_opts, SpannerDatabase_new.
  pose proof (db_set_options_spec (buffer_sets [] sets) DbConfig_new) as H.
  destruct (decide (Forall accepted (buffer_sets [] sets))) as [Ha|Ha].
  - rewrite H. eexists _, _, _. split; [done|]. cbn. rewrite Hlive by done. split; [done|]. by eexists.
  - destruct H as (k & v & e & Hin & He & ->). eexists _, _, _. split; [done|]. cbn. split; [done|].
    destruct (buffer_sets_last sets k v Hin) as (pre & post & -> & Hp). exists pre, k, v, post.
    split; [done|]. split; [done|]. intros c. pose proof (accepted_any c (k, v)) as Hc. cbn in Hc. congruence.
Qed.

(** Every sequence of sets assigns fields. *)
Lemma live_overwrites sets : overwrites (fun c => live c sets).
Proof.
  induction sets as [|[k v] sets IH]; [apply overwrites_id|]. cbn [live foldl].
  apply (overwrites_compose (fun c => (set_config c k v).1) (fun c => live c sets)); [|done].
  destruct (set_config_uniform k v) as [[e H]|(f & Hf & H)].
  - assert (overwrites (fun c : DbConfig => c)) as [] by apply overwrites_id.
    split; [left|..]; try left; intros c; by rewrite H.
  - destruct Hf. split; unfold overwrites_field in *; setoid_rewrite H; done.
Qed.

(** An assignment that a later one covers makes no difference to it, whatever is
    assigned in between. *)
Lemma covered_assignment f1 f g c :
  overwrites f1 -> overwrites f -> overwrites g -> (forall c, g (f1 c) = g c) -> g (f (f1 c)) = g (f c).
Proof.
  intros H1 Hf Hg Hc.
  assert (forall A (get : DbConfig -> A), overwrites_field f get -> overwrites_field g get ->
    get (g (f (f1 c))) = get (g (f c))) as H.
  { intros A get [Kf|Kf] [Kg|Kg]; try apply Kg; rewrite !Kg; [|apply Kf].
    rewrite !Kf, <- (Kg (f1 c)), Hc. apply Kg. }
  destruct Hf, Hg. apply DbConfig_ext; by apply H.
Qed.

Lemma live_single c k v : (set_config c k v).1 = live c [(k, v)].
Proof. done. Qed.

(** A live database forgets a set that is made again later. *)
Lemma live_repeated c k v1 v2 mid :
  k <> OdUri -> accepted (k, v2) -> live c ((k, v1) :: mid ++ [(k, v2)]) = live c (mid ++ [(k, v2)]).
Proof.
  intros Hk Ha. change ((k, v1) :: mid ++ [(k, v2)]) with ([(k, v1)] ++ (mid ++ [(k, v2)])). rewrite !live_app.
  apply (covered_assignment (fun c => live c [(k, v1)]) (fun c => live c mid) (fun c => live c [(k, v2)]));
    try apply live_overwrites.
  intros c0. rewrite <- !live_single. by apply set_config_overwrite.
Qed.

(** Only the endpoint option and the URI touch the endpoint. *)
Lemma live_endpoint c sets :
  OdUri ∉ sets.*1 -> OdOther OPTION_ENDPOINT ∉ sets.*1 -> db_endpoint (live c sets) = db_endpoint c.
Proof.
  revert c. induction sets as [|[k v] sets IH]; intros c H1 H2; [done|]. cbn [live foldl].
  change (foldl _ ?c ?l) with (live c l). rewrite IH by set_solver.
  destruct k as [| | |name]; cbn [set_config fst]; try done; [set_solver|].
  assert (name <> OPTION_ENDPOINT) as Hn by (intros ->; set_solver).
  unfold set_other, assign. rewrite decide_False by done. by repeat case_match.
Qed.

Lemma buffer_sets_app (b l1 l2 : Sets) : buffer_sets b (l1 ++ l2) = buffer_sets (buffer_sets b l1) l2.
Proof. apply foldl_app. Qed.

(** A buffer overwrites a repeated key where it stands. *)
Lemma buffer_sets_repeated (pre mid post : Sets) k v1 v2 :
  NoDup (k :: (pre ++ mid ++ post).*1) ->
  buffer_sets [] (pre ++ (k, v1) :: mid ++ (k, v2) :: post) = pre ++ (k, v2) :: mid ++ post.
Proof.
  intros Hd. assert (Hset : forall b r : Sets, k ∉ b.*1 -> buffer_set (b ++ (k, v1) :: r) k v2 = b ++ (k, v2) :: r).
  { induction b as [|[k0 v0] b IH]; intros r H; cbn; [by rewrite decide_True|].
    rewrite decide_False by set_solver. by rewrite IH by set_solver. }
  assert (Hp : forall v r, NoDup (pre ++ (k, v) :: r).*1 <-> NoDup (k :: (pre ++ r).*1)).
  { intros v r. by rewrite <- !(Permutation_middle pre r (k, v)). }
  change (pre ++ (k, v1) :: mid ++ (k, v2) :: post) with (pre ++ ((k, v1) :: mid) ++ (k, v2) :: post).
  rewrite app_assoc, buffer_sets_app, (buffer_sets_fresh (pre ++ (k, v1) :: mid) []); cbn [app].
  - cbn [buffer_sets foldl]. change (foldl _ ?b ?l) with (buffer_sets b l).
    rewrite Hset, buffer_sets_fresh by (rewrite <- ?app_assoc; cbn; first [by apply Hp|
      apply NoDup_cons in Hd as [Hd _]; rewrite fmap_app in Hd; set_solver]).
    by rewrite <- app_assoc.
  - apply Hp. rewrite app_assoc, fmap_app, app_comm_cons in Hd. by apply NoDup_app in Hd as [Hd _].
Qed.

(** C34: [Init] applies a repeated option where it was first set, a live database
    where it was last set.  Take any sets that a database accepts, one key being
    set twice.  A live database ends as though only the second of its sets had
    been made; [Init] ends as though the second value had been given at the place
    of the first.  So an endpoint set, then a URI that carries one, then the
    endpoint set again: a live database keeps the last endpoint, and a handle
    initialized after the same sets uses the URI's. *)
Theorem repeated_option_loses_to_uri (w : W) k v1 v2 pre mid post driver :
  k <> OdUri -> NoDup (k :: (pre ++ mid ++ post).*1) -> Forall accepted (pre ++ (k, v2) :: mid ++ post) ->
  let sets := pre ++ (k, v1) :: mid ++ (k, v2) :: post in
  let early := live DbConfig_new (pre ++ (k, v2) :: mid ++ post) in
  live DbConfig_new sets = live DbConfig_new (pre ++ mid ++ (k, v2) :: post) /\
  database_init driver (Ok tt) false (host_sets w sets) = (Ready (mkDatabase early None), Some tt, Ok tt) /\
  (forall b e, k = OdOther OPTION_ENDPOINT -> v2 = OString b -> OdUri ∉ post.*1 ->
     db_endpoint (live DbConfig_new mid) = Some e ->
     db_endpoint (live DbConfig_new sets) = Some b /\ db_endpoint early = Some e).
Proof.
  intros Hk Hd Ha sets early. pose proof Ha as [_ [Hv _]%Forall_cons]%Forall_app.
  assert (Hlive : live DbConfig_new sets = live DbConfig_new (pre ++ mid ++ (k, v2) :: post)).
  { assert (sets = pre ++ ((k, v1) :: mid ++ [(k, v2)]) ++ post) as -> by (unfold sets; cbn; by rewrite <- app_assoc).
    assert (pre ++ mid ++ (k, v2) :: post = pre ++ (mid ++ [(k, v2)]) ++ post) as -> by (by rewrite <- app_assoc).
    by rewrite !(live_app _ pre), !(live_app _ _ post), live_repeated. }
  split; [done|]. split.
  - rewrite host_sets_buffer. unfold sets. rewrite buffer_sets_repeated by done. unfold database_init. cbn [pending].
    assert (shared_driver driver (Ok tt) = (Some tt, Ok tt)) as -> by (by destruct driver as [[]|]).
    unfold new_database_with_opts, SpannerDatabase_new.
    pose proof (db_set_options_spec (pre ++ (k, v2) :: mid ++ post) DbConfig_new) as H.
    rewrite decide_True in H by done. by rewrite H.
  - intros b e -> -> Hu He. apply NoDup_cons in Hd as [Hd _]. rewrite !fmap_app in Hd. split.
    + rewrite Hlive, !live_app. cbn [live foldl]. rewrite live_endpoint by set_solver. done.
    + unfold early. rewrite live_app. cbn [live foldl]. change (foldl _ ?c ?l) with (live c l).
      rewrite live_app, live_endpoint by set_solver.
      destruct (ow_endpoint _ (live_overwrites mid)) as [H|H]; [by rewrite H in He|]. by rewrite (H _ DbConfig_new).
Qed.

End Database.
Definition example_keys : DatabaseKeys := {| od_from := OdOther |}.

(** Two endpoints and a bad switch, corrected before [Init]. *)
Lemma buffered_init_is_live_witness :
  let sets := [(OdOther OPTION_ENDPOINT, OString (str "first:1"));
               (OdOther OPTION_EMULATOR, OString (str "maybe"));
               (OdOther OPTION_ENDPOINT, OString (str "last:3"));
               (OdOther OPTION_EMULATOR, OString (str "true"))] in
  exists driver c, database_init None (Ok tt) false
      (host_sets (DK := example_keys) (OU := example_outside) tt sets) = (Ready (mkDatabase c None), driver, Ok tt) /\
    db_endpoint c = Some (str "last:3") /\ db_emulator c = true.
Proof.
  intros sets.
  destruct (buffered_init_is_live (DK := example_keys) (OU := example_outside) tt sets None)
    as (driver & st & r & E & H); [left; repeat constructor; discriminate|].
  destruct r as [[]|e].
  - destruct H as [-> _]. exists driver, (live DbConfig_new sets). split; [exact E|]. by vm_compute.
  - exfalso. rewrite host_sets_buffer in E. vm_compute in E. discriminate.
Defined.

(** An endpoint, a URI with another, an unrelated option and the endpoint again. *)
Lemma repeated_option_loses_to_uri_witness :
  let endpoint v := (OdOther OPTION_ENDPOINT, OString (str v)) in
  let sets := [(OdOther OPTION_KEYFILE, OString (str "key.json")); endpoint "first:1";
               (OdUri, OString (str "spanner://uri:2/projects/p/instances/i/databases/d"));
               endpoint "last:3"; (OdOther OPTION_EMULATOR, OString (str "true"))] in
  db_endpoint (live DbConfig_new sets) = Some (str "last:3") /\
  exists c, database_init None (Ok tt) false (host_sets (DK := example_keys) (OU := example_outside) tt sets) =
              (Ready (mkDatabase c None), Some tt, Ok tt) /\
            db_endpoint c = Some (str "uri:2").
Proof.
  intros endpoint sets.
  destruct (repeated_option_loses_to_uri (DK := example_keys) (OU := example_outside) tt
              (OdOther OPTION_ENDPOINT) (OString (str "first:1")) (OString (str "last:3"))
              [(OdOther OPTION_KEYFILE, OString (str "key.json"))]
              [(OdUri, OString (str "spanner://uri:2/projects/p/instances/i/databases/d"))]
              [(OdOther OPTION_EMULATOR, OString (str "true"))] None) as (_ & Hinit & He).
  - discriminate.
  - by apply (bool_decide_unpack _).
  - by apply (bool_decide_unpack _).
  - destruct (He (str "last:3") (str "uri:2") eq_refl eq_refl) as [Hl Hi]; [|by vm_compute|].
    + by apply (bool_decide_unpack _).
    + split; [exact Hl|]. eexists. split; [exact Hinit|exact Hi].
Defined.
