(* ===== verification/FfiStream.v ===== *)
(** * [src/ffi/stream.rs]: exporting a reader as an Arrow C stream

    The callbacks of an exported stream, their panic containment, the errno each
    failure is reported with, and [error_from_array_stream], which hands out the
    structured error in storage the stream owns.  The reader is the driver's own
    object behind the interface [StreamReader]; Arrow's exporters and the chain of
    an [ArrowError] belong to the arrow crates.  The messages a stream keeps for
    [get_last_error] are plain values: their allocation follows Rust's ownership
    and is not part of the [Heap], which holds the exported error's blocks. *)

From S2P Require Import Prelude RustStr Utf8 RustNum ErrorModel FfiGuard FfiError.

Open Scope nat_scope.

(** The errno values of [libc]; their numbers depend on the platform. *)
Inductive Errno :=
  | Success
  | EACCES | ECANCELED | EEXIST | EINVAL | EIO | ENOENT | ENOMEM | ENOSYS | ENOTSUP | ETIMEDOUT.

#[export] Instance Errno_eq_dec : EqDecision Errno.
Proof. solve_decision. Defined.

(** The variants of [ArrowError] the source names. *)
Inductive ArrowKind :=
  | ArrowNotYetImplemented
  | ArrowMemoryError
  | ArrowIoError
  | ArrowOther.

(** An Arrow error: its variant, its display text, and for each error of its
    [chain], outermost first, the driver error it is, if it is one. *)
Record ArrowError := mkArrowError {
  ar_kind : ArrowKind;
  ar_display : rstr;
  ar_chain : list (option Error);
}.

(** [RecordBatchReader] with Arrow's exporters; a call may panic, leaving a torn
    reader. *)
Class StreamReader := {
  Reader : Type;
  FfiSchema : Type;
  FfiArray : Type;
  reader_schema : Reader -> Exit (FfiSchema + ArrowError);
  reader_next : Reader -> Reader * Exit (option (FfiArray + ArrowError));
  empty_array : FfiArray;
}.

Definition adbc_status_to_errno (st : Status) : Errno :=
  match st with
  | Unknown => EIO
  | NotImplemented => ENOTSUP
  | NotFound => ENOENT
  | AlreadyExists => EEXIST
  | InvalidArguments | InvalidState => EINVAL
  | InvalidData | Integrity | Internal | IO => EIO
  | Cancelled => ECANCELED
  | Timeout => ETIMEDOUT
  | Unauthenticated | Unauthorized => EACCES
  end.

Definition STREAM_MAGIC : Z := 0x5350414e5354524d.

Record LastError := mkLastError { le_message : list byte; le_error : Error }.

Section Stream.
Context {FO : Foreign} {SR : StreamReader}.
Variable escape_debug : rstr -> rstr.

Record PrivateData := mkPrivateData {
  pd_reader : Reader;
  pd_private_driver : option positive;
  pd_last_error : option LastError;
  pd_exported_error : option AdbcError;
  pd_panicked : bool;
}.

(** What [private_data] points at: this driver's data behind its magic, or some
    other library's, of which only the first word means anything here. *)
Inductive Private :=
  | OurPrivate (magic : Z) (data : PrivateData)
  | ForeignPrivate (first_word : Z).

(** The stream struct, as far as it is looked at: whether its release callback is
    this module's [release], and its private data. *)
Record ArrowStream := mkArrowStream {
  as_release : option bool;
  as_private : option Private;
}.

Definition export_reader (reader : Reader) (private_driver : option positive) : ArrowStream :=
  mkArrowStream (Some true)
    (Some (OurPrivate STREAM_MAGIC (mkPrivateData reader private_driver None None false))).

(** ** Recording a failure *)

Definition set_error (p : PrivateData) (message : list byte) (error : Error) : PrivateData :=
  mkPrivateData (pd_reader p) (pd_private_driver p)
    (Some (mkLastError (sanitized_cstring message) error)) (pd_exported_error p) (pd_panicked p).

Definition fail (p : PrivateData) (message : Message) : PrivateData * Errno :=
  (set_error p (message_bytes escape_debug message) (err message InvalidArguments), EINVAL).

(** The errno and the status of an Arrow variant the driver did not raise. *)
Definition arrow_table (kind : ArrowKind) : Errno * Status :=
  match kind with
  | ArrowNotYetImplemented => (ENOSYS, NotImplemented)
  | ArrowMemoryError => (ENOMEM, Internal)
  | ArrowIoError => (EIO, IO)
  | ArrowOther => (EINVAL, Unknown)
  end.

(** [chain(error).find_map(downcast)]. *)
Definition embedded_error (error : ArrowError) : option Error := head (omap (fun e => e) (ar_chain error)).

(** The structured error of an Arrow error, and its errno. *)
Definition structured (error : ArrowError) : Error :=
  match embedded_error error with
  | Some e => e
  | None => err [Disp (ar_display error)] (arrow_table (ar_kind error)).2
  end.

Definition errno_of (error : ArrowError) : Errno :=
  match embedded_error error with
  | Some e => adbc_status_to_errno (status e)
  | None => (arrow_table (ar_kind error)).1
  end.

Definition arrow_error (p : PrivateData) (error : ArrowError) : PrivateData * Errno :=
  (set_error p (as_bytes (ar_display error)) (structured error), errno_of error).

(** ** Callbacks

    [private_data]: reading another library's data as ours is undefined. *)
Definition private_data (stream : ArrowStream) : option (option PrivateData) :=
  match as_private stream with
  | None => Some None
  | Some (OurPrivate _ p) => Some (Some p)
  | Some (ForeignPrivate _) => None
  end.

Definition with_private (stream : ArrowStream) (p : PrivateData) : ArrowStream :=
  match as_private stream with
  | Some (OurPrivate magic _) => mkArrowStream (as_release stream) (Some (OurPrivate magic p))
  | _ => stream
  end.

Definition panic_error (cause : Payload) : Error :=
  err [Lit "Uncaught panic in the Spanner Arrow stream: "; Disp (panic_message cause)] Internal.

Definition set_panicked (p : PrivateData) : PrivateData :=
  mkPrivateData (pd_reader p) (pd_private_driver p) (pd_last_error p) (pd_exported_error p) true.

(** A callback's output pointer holds an [A]; a panic leaves it as it is. *)
Definition catch_callback {A} (stream : ArrowStream)
    (callback : PrivateData -> option A -> PrivateData * option A * Exit Errno) (out : option A) :
    option (ArrowStream * option A * Errno) :=
  private ← private_data stream;
  match private with
  | None => Some (stream, out, EINVAL)
  | Some p =>
      if pd_panicked p then Some (stream, out, EINVAL)
      else
        let '(p, out', exit) := callback p out in
        Some match exit with
             | Returned code => (with_private stream p, out', code)
             | Panicked cause =>
                 let error := panic_error cause in
                 (with_private stream
                    (set_error (set_panicked p) (message_bytes escape_debug (message error)) error),
                  out, EINVAL)
             end
  end.

Definition get_schema (stream : ArrowStream) (out : option FfiSchema) :
    option (ArrowStream * option FfiSchema * Errno) :=
  catch_callback stream (fun p out =>
    match out with
    | None => let '(p, code) := fail p [Lit "Arrow C Stream schema output must not be null"] in
              (p, out, Returned code)
    | Some _ =>
        match reader_schema (pd_reader p) with
        | Panicked cause => (p, out, Panicked cause)
        | Returned (inl schema) => (p, Some schema, Returned Success)
        | Returned (inr error) => let '(p, code) := arrow_error p error in (p, out, Returned code)
        end
    end) out.

Definition clear_error (p : PrivateData) : PrivateData :=
  mkPrivateData (pd_reader p) (pd_private_driver p) None (pd_exported_error p) (pd_panicked p).

Definition with_reader (p : PrivateData) (r : Reader) : PrivateData :=
  mkPrivateData r (pd_private_driver p) (pd_last_error p) (pd_exported_error p) (pd_panicked p).

Definition get_next (stream : ArrowStream) (out : option FfiArray) :
    option (ArrowStream * option FfiArray * Errno) :=
  catch_callback stream (fun p out =>
    let p := clear_error p in
    match out with
    | None => let '(p, code) := fail p [Lit "Arrow C Stream array output must not be null"] in
              (p, out, Returned code)
    | Some _ =>
        let '(reader, exit) := reader_next (pd_reader p) in
        let p := with_reader p reader in
        match exit with
        | Panicked cause => (p, out, Panicked cause)
        | Returned None => (p, Some empty_array, Returned Success)
        | Returned (Some (inl array)) => (p, Some array, Returned Success)
        | Returned (Some (inr error)) => let '(p, code) := arrow_error p error in (p, out, Returned code)
        end
    end) out.

Definition get_last_error (stream : ArrowStream) : option (option (list byte)) :=
  private ← private_data stream;
  Some (p ← private; e ← pd_last_error p; Some (le_message e)).

(** ** The structured error *)

Definition fresh_error (private_driver : option positive) : AdbcError :=
  mkAdbcError (mkErrorV100 None ADBC_ERROR_VENDOR_CODE_PRIVATE_DATA sqlstate None)
    (Some (mkErrorTail None private_driver)).

Definition set_sentinel (e : AdbcError) : AdbcError :=
  let p := ae_prefix e in
  mkAdbcError (mkErrorV100 (ae_message p) ADBC_ERROR_VENDOR_CODE_PRIVATE_DATA (ae_sqlstate p) (ae_release p))
    (ae_tail e).

Definition with_exported (p : PrivateData) (e : AdbcError) : PrivateData :=
  mkPrivateData (pd_reader p) (pd_private_driver p) (pd_last_error p) (Some e) (pd_panicked p).

(** The answer is the exported error and the status written, [None] being
    [ADBC_STATUS_OK]; no answer is the null pointer. *)
Definition error_from_array_stream (stream : ArrowStream) (h : gmap positive Block) :
    option (ArrowStream * gmap positive Block * option (AdbcError * option Status)) :=
  match as_private stream with
  | None => Some (stream, h, None)
  | Some private =>
      if decide (as_release stream = Some true) then
        match private with
        | ForeignPrivate word =>
            if decide (word = STREAM_MAGIC) then None else Some (stream, h, None)
        | OurPrivate magic p =>
            if decide (magic = STREAM_MAGIC) then
              let exported := default (fresh_error (pd_private_driver p)) (pd_exported_error p) in
              match pd_last_error p with
              | None =>
                  '(exported, h) ← release_if_set exported h;
                  Some (with_private stream (with_exported p exported), h, Some (exported, None))
              | Some last =>
                  '(exported, h) ← export_error escape_debug (Some (set_sentinel exported)) (le_error last) h;
                  exported ← exported;
                  Some (with_private stream (with_exported p exported), h,
                        Some (exported, Some (status (le_error last))))
              end
            else Some (stream, h, None)
        end
      else Some (stream, h, None)
  end.

(** [PrivateData::drop]. *)
Definition drop_private (p : PrivateData) (h : gmap positive Block) : option (gmap positive Block) :=
  match pd_exported_error p with
  | Some exported => '(_, h) ← release_if_set exported h; Some h
  | None => Some h
  end.

Definition release_stream (stream : ArrowStream) (h : gmap positive Block) :
    option (ArrowStream * gmap positive Block) :=
  private ← private_data stream;
  h ← match private with Some p => drop_private p h | None => Some h end;
  Some (mkArrowStream None None, h).

(** ** A consumer *)

Inductive StreamOp :=
  | GetSchema (out : option FfiSchema)
  | GetNext (out : option FfiArray)
  | GetLastError
  | ErrorFromStream
  | ReleaseStream.

Definition stream_op (s : ArrowStream * gmap positive Block) (op : StreamOp) :
    option (ArrowStream * gmap positive Block) :=
  let '(stream, h) := s in
  match op with
  | GetSchema out => '(stream, _, _) ← get_schema stream out; Some (stream, h)
  | GetNext out => '(stream, _, _) ← get_next stream out; Some (stream, h)
  | GetLastError => _ ← get_last_error stream; Some (stream, h)
  | ErrorFromStream => '(stream, h, _) ← error_from_array_stream stream h; Some (stream, h)
  | ReleaseStream => release_stream stream h
  end.

Fixpoint stream_ops (s : ArrowStream * gmap positive Block) (ops : list StreamOp) :
    option (ArrowStream * gmap positive Block) :=
  match ops with
  | [] => Some s
  | op :: ops => s ← stream_op s op; stream_ops s ops
  end.

(** ** Properties *)

(** A stream of this driver that has not been released. *)
Definition live_stream (p : PrivateData) : ArrowStream :=
  mkArrowStream (Some true) (Some (OurPrivate STREAM_MAGIC p)).

Definition released_stream : ArrowStream := mkArrowStream None None.

(** The storage a stream hands out: a 1.1.0 struct with this driver's callback,
    or none. *)
Definition exported_ok (base : gmap positive Block) (e : AdbcError) (h : gmap positive Block) : Prop :=
  ae_vendor_code (ae_prefix e) = ADBC_ERROR_VENDOR_CODE_PRIVATE_DATA /\ is_Some (ae_tail e) /\
  owns base e h /\ (forall f, ae_release (ae_prefix e) <> Some (ForeignRelease f)).

Definition storage_ok (base : gmap positive Block) (p : PrivateData) (h : gmap positive Block) : Prop :=
  match pd_exported_error p with
  | None => h = base
  | Some e => exported_ok base e h
  end.

Definition stream_inv (base : gmap positive Block) (s : ArrowStream * gmap positive Block) : Prop :=
  s = (released_stream, base) \/ exists p, s.1 = live_stream p /\ storage_ok base p s.2.

Lemma set_sentinel_id e : ae_vendor_code (ae_prefix e) = ADBC_ERROR_VENDOR_CODE_PRIVATE_DATA -> set_sentinel e = e.
Proof. destruct e as [[m v st r] t]. cbn. by intros ->. Qed.

Lemma own_release_vendor e h e' h' :
  (forall f, ae_release (ae_prefix e) <> Some (ForeignRelease f)) ->
  release_if_set e h = Some (e', h') ->
  ae_vendor_code (ae_prefix e') = ae_vendor_code (ae_prefix e).
Proof.
  intros Hf. unfold release_if_set. destruct (ae_release (ae_prefix e)) as [[| |f]|]; [..|congruence].
  - cbn [call_release]. unfold release_error. intros H.
    apply bind_Some in H as (h1 & _ & H). apply bind_Some in H as (t & _ & H).
    apply bind_Some in H as (h2 & _ & H). by simplify_eq.
  - cbn [call_release]. unfold release_error_v100. intros H.
    apply bind_Some in H as (h1 & _ & H). by simplify_eq.
  - by destruct (Hf f).
Qed.

Lemma export_error_own_release out error h e' h' :
  export_error escape_debug (Some out) error h = Some (Some e', h') ->
  forall f, ae_release (ae_prefix e') <> Some (ForeignRelease f).
Proof.
  unfold export_error. intros H. apply bind_Some in H as (d & _ & H).
  apply bind_Some in H as ([r h1] & _ & H). apply bind_Some in H as ([r2 h2] & E & H).
  simplify_eq. case_bool_decide.
  - unfold write_v110 in E. apply bind_Some in E as (t & _ & E). destruct (alloc h1 _) as [ha m].
    destruct (alloc ha _) as [hb dd]. by simplify_eq.
  - unfold write_v100 in E. destruct (alloc h1 _) as [ha m]. by simplify_eq.
Qed.

Section Laws.
Context {FL : ForeignLaws}.

Lemma fresh_error_ok base driver : exported_ok base (fresh_error driver) base.
Proof. split; [done|]. split; [by eexists|]. split; [by constructor|done]. Qed.

Lemma exported_storage base p h :
  storage_ok base p h -> exported_ok base (default (fresh_error (pd_private_driver p)) (pd_exported_error p)) h.
Proof. unfold storage_ok. destruct (pd_exported_error p); [done|]. intros ->. apply fresh_error_ok. Qed.

Lemma exported_truthful base e h : exported_ok base e h -> truthful e.
Proof. intros (_ & H & _) _. exact H. Qed.

(** The answer of [error_from_array_stream] on a live stream: the pending error,
    readable, or none. *)
Lemma error_from_live base p h :
  storage_ok base p h ->
  exists e h', error_from_array_stream (live_stream p) h =
      Some (live_stream (with_exported p e), h',
            Some (e, match pd_last_error p with Some l => Some (status (le_error l)) | None => None end)) /\
    exported_ok base e h' /\
    match pd_last_error p with
    | None => ae_release (ae_prefix e) = None
    | Some l => exists m, ae_message (ae_prefix e) = Some m /\
        h' !! m = Some (BText (exported_message escape_debug (le_error l))) /\
        details_of (Some e) h' = Some (Some (exported_details (le_error l)))
    end.
Proof.
  intros Hok%exported_storage. unfold error_from_array_stream. cbn [as_private live_stream as_release].
  rewrite !decide_True by done. set (e0 := default _ _) in *.
  pose proof Hok as (Hv & Ht & Ho & Hf). pose proof (exported_truthful _ _ _ Hok) as Htr.
  destruct (pd_last_error p) as [l|].
  - rewrite set_sentinel_id by done.
    destruct (export_error_spec escape_debug base e0 h (le_error l) Htr Ho)
      as (e' & h' & m & E & Ht' & Ho' & Hs & Hm & Htext & Hv' & Hd).
    rewrite E. cbn [mbind option_bind]. eexists e', h'. split; [done|]. split.
    + split; [by apply Hv'|]. split; [by apply Hs|]. split; [done|].
      by eapply export_error_own_release.
    + exists m. split; [done|]. split; [done|]. by apply Hd.
  - destruct (release_if_set_spec base e0 h Htr Ho) as (e' & E & Ht' & Hn & Hs).
    rewrite E. cbn [mbind option_bind]. eexists e', base. split; [done|]. split; [|done].
    split; [by rewrite (own_release_vendor _ _ _ _ Hf E)|]. split; [by apply Hs|].
    split; [constructor; by rewrite Hn | by rewrite Hn].
Qed.

(** A callback keeps the storage and the release callback. *)
Lemma catch_callback_live {A} base p h (callback : PrivateData -> option A -> PrivateData * option A * Exit Errno)
    (out : option A) :
  storage_ok base p h ->
  (forall out, pd_exported_error (callback p out).1.1 = pd_exported_error p) ->
  exists p' out' code, catch_callback (live_stream p) callback out = Some (live_stream p', out', code) /\
    storage_ok base p' h.
Proof.
  intros Hok Hc. unfold catch_callback. cbn [private_data live_stream as_private mbind option_bind].
  destruct (pd_panicked p); [by eexists p, _, _|]. specialize (Hc out).
  destruct (callback p out) as [[p' out'] [code|cause]]; cbn [fst] in Hc.
  - eexists p', _, _. split; [done|]. unfold storage_ok in *. by rewrite Hc.
  - eexists _, _, _. split; [done|]. unfold storage_ok in *. cbn. by rewrite Hc.
Qed.

Lemma stream_op_inv base s op : stream_inv base s -> exists s', stream_op s op = Some s' /\ stream_inv base s'.
Proof.
  intros [->|(p & Es & Hok)].
  { exists (released_stream, base). split; [|by left]. by destruct op. }
  destruct s as [st h]. cbn in Es, Hok. subst st. destruct op as [out|out| | |]; cbn [stream_op].
  - unfold get_schema. match goal with |- context [catch_callback _ ?cb ?o] =>
      destruct (catch_callback_live base p h cb o Hok) as (p' & out' & code & E & Hok') end.
    { intros [x|]; [|done]. by destruct (reader_schema (pd_reader p)) as [[?|?]|?]. }
    rewrite E. cbn. eexists. split; [done|]. right. by eexists.
  - unfold get_next. match goal with |- context [catch_callback _ ?cb ?o] =>
      destruct (catch_callback_live base p h cb o Hok) as (p' & out' & code & E & Hok') end.
    { intros [x|]; [|done]. cbn. by destruct (reader_next (pd_reader p)) as [r [[[?|?]|]|?]]. }
    rewrite E. cbn. eexists. split; [done|]. right. by eexists.
  - cbn. eexists. split; [done|]. right. by eexists.
  - destruct (error_from_live base p h Hok) as (e & h' & E & He & _). rewrite E. cbn [mbind option_bind].
    eexists. split; [done|]. right. by eexists.
  - unfold release_stream. cbn [private_data live_stream as_private mbind option_bind].
    unfold drop_private, storage_ok in *. destruct (pd_exported_error p) as [e|].
    + destruct (release_if_set_spec base e h (exported_truthful _ _ _ Hok) (proj1 (proj2 (proj2 Hok))))
        as (e' & E & _).
      rewrite E. cbn. eexists. split; [done|]. by left.
    + cbn. eexists. split; [done|]. left. by rewrite Hok.
Qed.

Lemma stream_ops_inv base ops : forall s,
  stream_inv base s -> exists s', stream_ops s ops = Some s' /\ stream_inv base s'.
Proof.
  induction ops as [|op ops IH]; intros s Hs; [by exists s|].
  destruct (stream_op_inv base s op Hs) as (s' & E & Hs'). cbn. rewrite E. cbn. by apply IH.
Qed.

Lemma export_reader_inv base reader driver : stream_inv base (export_reader reader driver, base).
Proof. right. by eexists. Qed.

(** C35: an exported stream is memory safe for its whole life, as far as the blocks of
    the errors it exports go.  Take any sequence
    of callbacks, of requests for the structured error, and of releases, with
    null or non-null outputs, whatever the reader does, panics included.  No step
    is undefined; a release at any point gives back exactly the blocks the
    stream's errors allocated, leaves the struct released, and everything that is
    still called on it afterwards is answered without touching memory, with
    [EINVAL] or null. *)
Theorem stream_lifetime_safe base reader driver ops :
  exists s, stream_ops (export_reader reader driver, base) ops = Some s /\
    stream_op s ReleaseStream = Some (released_stream, base) /\
    forall out, get_next released_stream out = Some (released_stream, out, EINVAL) /\
      get_last_error released_stream = Some None /\
      error_from_array_stream released_stream base = Some (released_stream, base, None) /\
      stream_op (released_stream, base) ReleaseStream = Some (released_stream, base).
Proof.
  destruct (stream_ops_inv base ops _ (export_reader_inv base reader driver)) as (s & E & Hs).
  exists s. split; [done|]. split; [|done].
  destruct (stream_op_inv base s ReleaseStream Hs) as (s' & Er & Hs'). rewrite Er. f_equal.
  destruct Hs' as [->|(p & E1 & _)]; [done|]. destruct s as [st h]. cbn [stream_op] in Er.
  unfold release_stream in Er. apply bind_Some in Er as (? & _ & Er). apply bind_Some in Er as (? & _ & Er).
  simplify_eq.
Qed.

(** Calls between a failed read and the next one that do not fail themselves. *)
Definition quiet (r : Reader) (op : StreamOp) : Prop :=
  match op with
  | GetSchema (Some _) => exists schema, reader_schema r = Returned (inl schema)
  | GetLastError | ErrorFromStream => True
  | _ => False
  end.

Lemma quiet_op base p h op :
  storage_ok base p h -> quiet (pd_reader p) op ->
  exists p' h', stream_op (live_stream p, h) op = Some (live_stream p', h') /\ storage_ok base p' h' /\
    pd_last_error p' = pd_last_error p /\ pd_reader p' = pd_reader p /\ pd_panicked p' = pd_panicked p.
Proof.
  intros Hok Hq. destruct op as [[o|]|o| | |]; try done; cbn [stream_op].
  - destruct Hq as [schema Es]. unfold get_schema, catch_callback.
    cbn [private_data live_stream as_private mbind option_bind].
    destruct (pd_panicked p) eqn:Ep; [by eexists p, h|]. rewrite Es. cbn. by eexists p, h.
  - by eexists p, h.
  - destruct (error_from_live base p h Hok) as (e & h' & E & He & _). rewrite E. cbn [mbind option_bind].
    by eexists _, _.
Qed.

Lemma quiet_ops base ops : forall p h,
  storage_ok base p h -> Forall (quiet (pd_reader p)) ops ->
  exists p' h', stream_ops (live_stream p, h) ops = Some (live_stream p', h') /\ storage_ok base p' h' /\
    pd_last_error p' = pd_last_error p /\ pd_reader p' = pd_reader p /\ pd_panicked p' = pd_panicked p.
Proof.
  induction ops as [|op ops IH]; intros p h Hok Hq; [by exists p, h|]. inversion Hq as [|? ? H1 H2]; subst.
  destruct (quiet_op base p h op Hok H1) as (p1 & h1 & E & Hok1 & El & Er & Ep).
  cbn [stream_ops]. rewrite E. cbn [mbind option_bind]. rewrite <- Er in H2. destruct (IH p1 h1 Hok1 H2) as (p2 & h2 & E2 & Hok2 & ? & ? & ?).
  exists p2, h2. split; [done|]. split; [done|]. split; [congruence|]. split; congruence.
Qed.

(** No status of a failure is reported as success. *)
Lemma errno_of_failure error : errno_of error <> Success.
Proof. unfold errno_of. destruct (embedded_error error) as [e|]; [by destruct (status e)|by destruct (ar_kind error)]. Qed.

(** C36: a failed read reaches the caller whole.  When the reader fails with an
    error that wraps a driver error, [get_next] returns that error's errno, never
    success, and leaves the output alone; afterwards, however often a schema that
    is delivered, the message or the error is asked for (a failing [get_schema]
    would replace it), the stream reports the driver's own error: its status, its
    message, and every detail.  A read that succeeds or
    ends the stream clears the failure.  When the reader panics, the caller gets
    [EINVAL] and an [Internal] error with the panic's words, and the reader is
    never called again. *)
Theorem stream_error_reaches_caller base p h o ops :
  storage_ok base p h -> pd_panicked p = false ->
  Forall (quiet (reader_next (pd_reader p)).1) ops ->
  exists p' out code,
    get_next (live_stream p) (Some o) = Some (live_stream p', out, code) /\
    pd_reader p' = (reader_next (pd_reader p)).1 /\
    exists p2 h2 e h3, stream_ops (live_stream p', h) ops = Some (live_stream p2, h2) /\
      match (reader_next (pd_reader p)).2 with
      | Returned None => code = Success /\ out = Some empty_array /\
          error_from_array_stream (live_stream p2) h2 = Some (live_stream (with_exported p2 e), h3, Some (e, None))
      | Returned (Some (inl array)) => code = Success /\ out = Some array /\
          error_from_array_stream (live_stream p2) h2 = Some (live_stream (with_exported p2 e), h3, Some (e, None))
      | Returned (Some (inr error)) =>
          let failure := default (err [Disp (ar_display error)] (arrow_table (ar_kind error)).2) (embedded_error error) in
          code <> Success /\ out = Some o /\
          (forall d, embedded_error error = Some d -> code = adbc_status_to_errno (status d)) /\
          error_from_array_stream (live_stream p2) h2 =
            Some (live_stream (with_exported p2 e), h3, Some (e, Some (status failure))) /\
          (exists m, ae_message (ae_prefix e) = Some m /\ h3 !! m = Some (BText (exported_message escape_debug failure))) /\
          details_of (Some e) h3 = Some (Some (exported_details failure))
      | Panicked cause =>
          code = EINVAL /\ out = Some o /\
          error_from_array_stream (live_stream p2) h2 =
            Some (live_stream (with_exported p2 e), h3, Some (e, Some Internal)) /\
          (exists m, ae_message (ae_prefix e) = Some m /\
             h3 !! m = Some (BText (exported_message escape_debug (panic_error cause)))) /\
          forall any, get_next (live_stream p2) any = Some (live_stream p2, any, EINVAL)
      end.
Proof.
  intros Hok Hp Hq. unfold get_next, catch_callback.
  cbn [private_data live_stream as_private mbind option_bind]. rewrite Hp.
  cbn [clear_error pd_reader with_reader]. destruct (reader_next (pd_reader p)) as [r exit] eqn:En. cbn [fst snd] in *.
  assert (Hfin : forall p1, pd_exported_error p1 = pd_exported_error p -> pd_reader p1 = r ->
    exists p2 h2 e h3, stream_ops (live_stream p1, h) ops = Some (live_stream p2, h2) /\
      pd_panicked p2 = pd_panicked p1 /\
      error_from_array_stream (live_stream p2) h2 =
        Some (live_stream (with_exported p2 e), h3,
              Some (e, match pd_last_error p1 with Some l => Some (status (le_error l)) | None => None end)) /\
      match pd_last_error p1 with
      | None => True
      | Some l => (exists m, ae_message (ae_prefix e) = Some m /\
          h3 !! m = Some (BText (exported_message escape_debug (le_error l)))) /\
          details_of (Some e) h3 = Some (Some (exported_details (le_error l)))
      end).
  { intros p1 He Hr. destruct (quiet_ops base ops p1 h) as (p2 & h2 & E & Hok2 & El & _ & Epk);
      [by unfold storage_ok in *; rewrite He | by rewrite Hr |].
    destruct (error_from_live base p2 h2 Hok2) as (e & h3 & E3 & _ & Hl). rewrite El in *.
    exists p2, h2, e, h3. split; [done|]. split; [done|]. split; [done|].
    destruct (pd_last_error p1); [|done]. destruct Hl as (m & ? & ? & ?). split; [by exists m|done]. }
  destruct exit as [[[array|error]|]|cause]; cbn [catch_callback with_private as_private live_stream as_release].
  - eexists _, _, _. split; [done|]. split; [done|].
    edestruct Hfin as (p2 & h2 & e & h3 & E & _ & E3 & _); [| |exists p2, h2, e, h3; by split]; done.
  - eexists _, _, _. split; [done|]. split; [done|].
    edestruct Hfin as (p2 & h2 & e & h3 & E & _ & E3 & Hl); [| |exists p2, h2, e, h3; split; [exact E|]]; [done..|].
    cbn [pd_last_error arrow_error set_error le_error fst] in *. unfold structured in *.
    split; [apply errno_of_failure|]. split; [done|].
    split; [intros d Hd; unfold errno_of; by rewrite Hd|].
    by destruct (embedded_error error); cbn [default]; destruct Hl.
  - eexists _, _, _. split; [done|]. split; [done|].
    edestruct Hfin as (p2 & h2 & e & h3 & E & _ & E3 & _); [| |exists p2, h2, e, h3; by split]; done.
  - eexists _, _, _. split; [done|]. split; [done|].
    edestruct Hfin as (p2 & h2 & e & h3 & E & Epk & E3 & Hl); [| |exists p2, h2, e, h3; split; [exact E|]]; [done..|].
    cbn [pd_last_error set_error le_error] in *. destruct Hl as [Hm _].
    split; [done|]. split; [done|]. split; [done|]. split; [done|].
    intros any. cbn [private_data live_stream as_private mbind option_bind]. by rewrite Epk.
Qed.

End Laws.
End Stream.

(** ** Witnesses *)

(** A reader that plays a script. *)
Definition script_reader : StreamReader := {|
  Reader := list (Exit (option (nat + ArrowError)));
  FfiSchema := unit; FfiArray := nat;
  reader_schema _ := Returned (inl tt);
  reader_next r := match r with [] => ([], Returned None) | x :: r => (r, x) end;
  empty_array := 0;
|}.

(** A chunk, a cancelled chunk, then a panic. *)
Definition cancelled_error : ArrowError :=
  mkArrowError ArrowOther (str "External error") [None; Some (err [Lit "cancelled"] Cancelled)].

Definition script : Reader (StreamReader := script_reader) :=
  [Returned (Some (inl 7)); Returned (Some (inr cancelled_error)); Panicked (PayloadStr (str "kaboom"))].

Lemma stream_lifetime_safe_witness :
  exists s, stream_ops (FO := memset_foreign) (SR := script_reader) (fun s => s)
      (export_reader (SR := script_reader) script None, ∅)
      [GetNext (SR := script_reader) (Some 0); GetNext (SR := script_reader) (Some 0);
       ErrorFromStream; GetNext (SR := script_reader) (Some 0); GetNext (SR := script_reader) None;
       ErrorFromStream] = Some s /\
    stream_op (FO := memset_foreign) (fun s => s) s ReleaseStream = Some (released_stream, ∅).
Proof.
  destruct (stream_lifetime_safe (FO := memset_foreign) (SR := script_reader) (fun s => s) (FL := memset_laws) ∅
      script None
      [GetNext (SR := script_reader) (Some 0); GetNext (SR := script_reader) (Some 0);
       ErrorFromStream; GetNext (SR := script_reader) (Some 0); GetNext (SR := script_reader) None;
       ErrorFromStream]) as (s & E & Er & _).
  exists s. split; [exact E | exact Er].
Defined.

Lemma stream_error_reaches_caller_witness :
  let p := mkPrivateData (SR := script_reader) (tail script) None None None false in
  exists p' p2 h2 e h3,
    get_next (SR := script_reader) (fun s => s) (live_stream p) (Some 0) = Some (live_stream p', Some 0, ECANCELED) /\
    stream_ops (FO := memset_foreign) (fun s => s) (live_stream p', ∅) [GetLastError; ErrorFromStream] =
      Some (live_stream p2, h2) /\
    error_from_array_stream (FO := memset_foreign) (fun s => s) (live_stream p2) h2 =
      Some (live_stream (with_exported p2 e), h3, Some (e, Some Cancelled)).
Proof.
  intros p.
  destruct (stream_error_reaches_caller (FO := memset_foreign) (SR := script_reader) (fun s => s)
      (FL := memset_laws) ∅ p ∅ 0 [GetLastError; ErrorFromStream])
    as (p' & out & code & E & _ & p2 & h2 & e & h3 & E2 & H); [done|done|repeat constructor|].
  destruct H as (_ & -> & Hc & E3 & _). specialize (Hc _ eq_refl). subst code.
  exists p', p2, h2, e, h3. split; [exact E|]. split; [exact E2 | exact E3].
Defined.
