(* ===== verification/FfiImport.v ===== *)
(** * [src/ffi/import.rs]: bound Arrow C streams

    The reader over a stream another library produces.  The producer's callbacks
    and arrow-rs's importers and validators are the interface [Producer]: what a
    callback returns is arbitrary, a code and possibly an array that is already
    released, and importing may be refused.  [bound_items] is what
    [Statement::bind_stream] collects from the reader. *)

From S2P Require Import Prelude RustStr Utf8 RustNum ErrorModel FfiGuard.

Open Scope nat_scope.

(** [String::from_utf8_lossy]: each invalid sequence becomes U+FFFD. *)
Fixpoint lossy_chunks (fuel : nat) (bs : list byte) : rstr :=
  match fuel with
  | O => []
  | S f =>
      match utf8_error 0 bs with
      | None => default [] (from_utf8 bs)
      | Some (i, len) =>
          let valid := default [] (from_utf8 (take (Z.to_nat i) bs)) in
          match len with
          | Some n => valid ++ 0xFFFD%N :: lossy_chunks f (drop (Z.to_nat (i + n)) bs)
          | None => valid ++ [0xFFFD%N]
          end
      end
  end.

Definition to_string_lossy (bs : list byte) : rstr := lossy_chunks (S (length bs)) bs.

(** An invalid sequence is at least one byte long. *)
Lemma utf8_error_progress bs i j len :
  utf8_error i bs = Some (j, len) -> (i <= j)%Z /\ bs <> [] /\ match len with Some n => (1 <= n)%Z | None => True end.
Proof.
  revert i. induction bs as [bs IH] using (induction_ltof1 _ (@length byte)). intros i H.
  assert (Hrec : forall r k, length r < length bs -> utf8_error k r = Some (j, len) ->
    (k <= j)%Z /\ match len with Some n => (1 <= n)%Z | None => True end)
    by (intros r k Hr Hk; destruct (IH r Hr k Hk) as (? & _ & ?); done).
  clear IH. destruct bs as [|b0 r0]; [done|]. cbn [utf8_error] in H.
  repeat (case_match; simplify_eq; try (split_and!; done || lia)).
  all: edestruct Hrec as [? ?]; [|exact H|split_and!; done || lia]; cbn; lia.
Qed.

(** The number of bytes bounds the sequences, so the fuel is enough. *)
Lemma lossy_chunks_enough fuel bs : length bs < fuel -> lossy_chunks fuel bs = to_string_lossy bs.
Proof.
  unfold to_string_lossy. enough (forall f g bs, length bs < f -> length bs < g -> lossy_chunks f bs = lossy_chunks g bs)
    as H by (intros Hf; apply H; lia).
  clear. induction f as [|f IH]; intros [|g] bs Hf Hg; try lia. cbn [lossy_chunks].
  destruct (utf8_error 0 bs) as [[i [n|]]|] eqn:E; [|done..].
  apply utf8_error_progress in E as (Hi & Hne & Hn). f_equal. f_equal.
  assert (length (drop (Z.to_nat (i + n)) bs) < length bs) by (rewrite length_drop; destruct bs; [done|cbn; lia]).
  apply IH; lia.
Qed.

Class Producer := {
  (** The producer's stream; [p_released] says its release callback is null. *)
  CStream : Type;
  p_released : CStream -> bool;
  p_has_get_schema : CStream -> bool;
  p_has_get_next : CStream -> bool;
  p_has_get_last_error : CStream -> bool;
  (** A callback's code and what it wrote, [None] being a released struct. *)
  CSchema : Type;
  CArray : Type;
  p_get_schema : CStream -> CStream * Z * option CSchema;
  p_get_next : CStream -> CStream * Z * option CArray;
  p_get_last_error : CStream -> CStream * option (list byte);
  (** [arrow_schema::Schema] and [arrow_data::ArrayData] *)
  ImportedSchema : Type;
  ArrayData : Type;
  ImportedBatch : Type;
  schema_try_from : CSchema -> ImportedSchema + rstr;
  field_names : ImportedSchema -> list rstr;
  num_children : CArray -> nat;
  from_ffi_and_data_type : CArray -> ImportedSchema -> ArrayData + rstr;
  child_data : ArrayData -> list ArrayData;
  validate_data : ArrayData -> option rstr;
  validate_full : ArrayData -> option rstr;
  null_count : ArrayData -> nat;
  try_new_batch : ImportedSchema -> ArrayData -> ImportedBatch + rstr;
}.

Section Importing.
Context {PR : Producer}.

(** [validate_imported]: the refusal's message, if any. *)
Definition validate_imported (data : ArrayData) (fields : list rstr) : option Message :=
  match validate_data data with
  | Some failure => Some [Lit "the top-level struct is invalid: "; Disp failure]
  | None =>
      head (omap (fun '(name, column) =>
        failure ← validate_full column;
        Some [Lit "column "; Dbg name; Lit " is invalid: "; Disp failure])
        (zip fields (child_data data)))
  end.

Record BoundStreamReader := mkBoundStream {
  bs_stream : CStream;
  bs_schema : ImportedSchema;
  bs_finished : bool;
}.

(** The text of a failed callback; asking for it is a call of the producer. *)
Definition stream_error (stream : CStream) (callback : String.string) (code : Z) : CStream * Message :=
  let '(stream, message) := p_get_last_error stream in
  let detail := match message with
                | None => Lit "producer supplied no error description"
                | Some bytes => Disp (to_string_lossy bytes)
                end in
  (stream, [Lit "bound Arrow C stream "; Lit callback; Lit " failed with error code "; DispZ code; Lit ": "; detail]).

(** [from_raw]: the stream handed back is what the caller still owns, [None] once
    it has been moved into the reader. *)
Definition from_raw (stream : option CStream) : option CStream * Result BoundStreamReader :=
  match stream with
  | None => (None, Err (invalid_argument [Lit "stream must not be null"]))
  | Some s =>
      if p_released s then (stream, Err (invalid_argument [Lit "stream has already been released"]))
      else if negb (p_has_get_schema s) then
        (stream, Err (invalid_argument [Lit "stream is missing its get_schema callback"]))
      else if negb (p_has_get_next s) then
        (stream, Err (invalid_argument [Lit "stream is missing its get_next callback"]))
      else if negb (p_has_get_last_error s) then
        (stream, Err (invalid_argument [Lit "stream is missing its get_last_error callback"]))
      else
        let '(s, code, schema) := p_get_schema s in
        (None,
         if decide (code = 0%Z) then
           match schema with
           | None => Err (invalid_argument [Lit "bound stream get_schema returned a released schema"])
           | Some schema =>
               match schema_try_from schema with
               | inr failure =>
                   Err (invalid_argument [Lit "bound stream returned an invalid schema: "; Disp failure])
               | inl schema => Ok (mkBoundStream s schema false)
               end
           end
         else Err (invalid_argument (stream_error s "get_schema" code).2))
  end.

(** The failure of one [next]: an [ArrowError]'s text. *)
Definition CDataInterface (m : Message) : Message := Lit "C Data interface error: " :: m.

Definition import_array (schema : ImportedSchema) (array : CArray) : ImportedBatch + Message :=
  match from_ffi_and_data_type array schema with
  | inr failure => inr [Disp failure]
  | inl data =>
      match validate_imported data (field_names schema) with
      | Some failure => inr (CDataInterface (Lit "bound stream returned an invalid Arrow array: " :: failure))
      | None =>
          if decide (null_count data <> 0) then
            inr (CDataInterface
              [Lit "bound stream must not contain top-level null rows; put null values in the individual columns instead"])
          else match try_new_batch schema data with
               | inl batch => inl batch
               | inr failure => inr [Disp failure]
               end
      end
  end.

(** [Iterator::next]. *)
Definition bound_next (self : BoundStreamReader) : BoundStreamReader * option (ImportedBatch + Message) :=
  if bs_finished self then (self, None)
  else
    let '(stream, code, array) := p_get_next (bs_stream self) in
    if decide (code = 0%Z) then
      match array with
      | None => (mkBoundStream stream (bs_schema self) true, None)
      | Some array =>
          if decide (num_children array = length (field_names (bs_schema self))) then
            let result := import_array (bs_schema self) array in
            (mkBoundStream stream (bs_schema self) (if result then false else true), Some result)
          else
            (mkBoundStream stream (bs_schema self) true,
             Some (inr (CDataInterface
               [Lit "bound stream returned "; DispZ (Z.of_nat (num_children array)); Lit " columns, but its schema declares ";
                DispZ (Z.of_nat (length (field_names (bs_schema self))))])))
      end
    else
      let '(stream, m) := stream_error stream "get_next" code in
      (mkBoundStream stream (bs_schema self) true, Some (inr (CDataInterface m))).

(** What a consumer collects with at most [fuel] calls, stopping at the end or at
    the first failure. *)
Fixpoint bound_items (fuel : nat) (self : BoundStreamReader) : BoundStreamReader * list (ImportedBatch + Message) :=
  match fuel with
  | O => (self, [])
  | S f =>
      match bound_next self with
      | (self, None) => (self, [])
      | (self, Some (inr m)) => (self, [inr m])
      | (self, Some (inl b)) => let '(self, items) := bound_items f self in (self, inl b :: items)
      end
  end.

(** ** Properties *)

(** What makes a batch safe to read: the array it was built from passed every
    check, one column per declared field. *)
Definition validated (schema : ImportedSchema) (b : ImportedBatch) : Prop :=
  exists array data,
    num_children array = length (field_names schema) /\
    from_ffi_and_data_type array schema = inl data /\ validate_data data = None /\ null_count data = 0 /\
    (forall name column, (name, column) ∈ zip (field_names schema) (child_data data) -> validate_full column = None) /\
    try_new_batch schema data = inl b.

Lemma validate_imported_None data fields :
  validate_imported data fields = None ->
  validate_data data = None /\
  forall name column, (name, column) ∈ zip fields (child_data data) -> validate_full column = None.
Proof.
  unfold validate_imported. destruct (validate_data data); [done|]. intros H. split; [done|].
  induction (zip fields (child_data data)) as [|[n c] l IH]; [set_solver|].
  intros name column [[= -> ->]|Hin]%elem_of_cons; cbn in H.
  - by destruct (validate_full c).
  - destruct (validate_full c); [done|]. by eapply IH.
Qed.

Lemma import_array_valid schema array b :
  num_children array = length (field_names schema) -> import_array schema array = inl b -> validated schema b.
Proof.
  intros Hn. unfold import_array. destruct (from_ffi_and_data_type array schema) as [data|] eqn:Ei; [|done].
  destruct (validate_imported data _) as [|] eqn:Ev; [done|]. apply validate_imported_None in Ev as [Hd Hc].
  case_decide as Hz; [done|]. destruct (try_new_batch schema data) as [b'|] eqn:Eb; [|done]. intros [= ->].
  exists array, data. split; [done|]. split; [done|]. split; [done|]. split; [lia|]. by split.
Qed.

Lemma bound_next_spec self self' r :
  bound_next self = (self', r) ->
  bs_schema self' = bs_schema self /\
  match r with
  | Some (inl b) => validated (bs_schema self) b /\ bs_finished self = false /\ bs_finished self' = false
  | Some (inr _) => bs_finished self = false /\ bs_finished self' = true
  | None => bs_finished self' = true
  end.
Proof.
  unfold bound_next. destruct (bs_finished self) eqn:Ef; [intros [= <- <-]; done|].
  destruct (p_get_next (bs_stream self)) as [[stream code] array]. case_decide.
  - destruct array as [array|]; [|by intros [= <- <-]]. case_decide as Hn; [|by intros [= <- <-]].
    destruct (import_array (bs_schema self) array) as [b|m] eqn:Ei; intros [= <- <-]; [|done].
    split; [done|]. split; [by eapply import_array_valid|done].
  - destruct (stream_error stream "get_next" code) as [stream' m]. by intros [= <- <-].
Qed.

(** C37: bound streams deliver only checked data, and end once.  Whatever the
    producer's callbacks return, every batch the reader yields comes from an
    array with one column per declared field that passed Arrow's layout check,
    every column of which passed the full check, and which has no top-level null
    row; a failure is the last thing it yields, at most one; and once it has
    ended or failed, every later call answers [None] without calling the producer
    again. *)
Theorem bound_stream_checked fuel self self' items :
  bound_items fuel self = (self', items) ->
  bs_schema self' = bs_schema self /\
  (forall b, inl b ∈ items -> validated (bs_schema self) b) /\
  (forall pre m post, items = pre ++ inr m :: post -> post = [] /\ bs_finished self' = true) /\
  (length items < fuel \/ (exists pre m, items = pre ++ [inr m]) -> bs_finished self' = true) /\
  (bs_finished self' = true -> bound_next self' = (self', None)).
Proof.
  intros H. assert (Hfused : bs_finished self' = true -> bound_next self' = (self', None))
    by (intros Hf; unfold bound_next; by rewrite Hf).
  revert self self' items H Hfused.
  induction fuel as [|fuel IH]; intros self self' items H Hfused; cbn [bound_items] in H.
  { simplify_eq. split; [done|]. split; [set_solver|]. split; [intros [|]; discriminate|].
    split; [|done]. intros [Hl|([|] & m & E)]; [cbn in Hl; lia|discriminate..]. }
  destruct (bound_next self) as [s1 [[b|m]|]] eqn:E; apply bound_next_spec in E as [Es E].
  - destruct (bound_items fuel s1) as [s2 items2] eqn:E2. injection H as <- <-.
    destruct (IH _ _ _ E2 Hfused) as (Es2 & Hv & Hm & Hf & _). rewrite Es in *. destruct E as (Hb & _ & _).
    split; [congruence|]. split.
    { intros b' Hin. apply elem_of_cons in Hin as [Eb|Hin]; [by injection Eb as ->|]. by apply Hv. }
    split. { intros [|i pre] m post Ei; [discriminate|]. injection Ei as _ Ei. by eapply Hm. }
    split; [|done]. intros [Hl|(pre & m & Ei)]; apply Hf; [left; cbn in Hl; lia|right].
    destruct pre as [|i pre]; [discriminate|]. injection Ei as _ Ei. by exists pre, m.
  - injection H as <- <-. destruct E as [_ Ef]. split; [done|]. split; [set_solver|].
    split; [|done]. intros [|i [|]] m' post Ei; [|discriminate..]. by injection Ei as _ <-.
  - injection H as <- <-. split; [done|]. split; [set_solver|]. split; [intros [|]; discriminate|]. done.
Qed.

End Importing.

(** A producer that delivers one array, then fails without a description. *)
Definition example_producer : Producer := {|
  CStream := nat; p_released _ := false; p_has_get_schema _ := true; p_has_get_next _ := true;
  p_has_get_last_error _ := true;
  CSchema := unit; CArray := nat;
  p_get_schema s := (s, 0%Z, Some tt);
  p_get_next s := if decide (s = 0) then (1, 0%Z, Some 7) else (s, 5%Z, None);
  p_get_last_error s := (s, None);
  ImportedSchema := unit; ArrayData := nat; ImportedBatch := nat;
  schema_try_from _ := inl tt; field_names _ := [str "a"]; num_children _ := 1;
  from_ffi_and_data_type a _ := inl a; child_data a := [a]; validate_data _ := None; validate_full _ := None;
  null_count _ := 0; try_new_batch _ a := inl a;
|}.

Lemma bound_stream_checked_witness :
  let r := bound_items (PR := example_producer) 5 (mkBoundStream (PR := example_producer) 0 tt false) in
  (exists m, r.2 = [inl 7; inr m]) /\ bs_finished r.1 = true /\ bound_next r.1 = (r.1, None).
Proof.
  intros r.
  destruct (bound_stream_checked (PR := example_producer) 5 (mkBoundStream (PR := example_producer) 0 tt false) r.1 r.2)
    as (_ & _ & _ & Hf & Hn); [by vm_compute|].
  assert (bs_finished r.1 = true) as Ef by (apply Hf; left; vm_compute; lia).
  split; [eexists; vm_compute; reflexivity|]. split; [exact Ef | by apply Hn].
Defined.
