(* ===== verification/FfiEntry.v ===== *)
(** * [src/ffi/connection.rs], [src/ffi/statement.rs]: the entry points

    Each entry point is the closure it dispatches on the state behind its handle,
    in the monad [EM]: it may change that state, the driver's world, and the
    caller's output memory, and it ends in a result or a panic.  An output
    parameter is [None] when it is null and otherwise what it points at.  A
    reader handed to the caller is the driver's reader with the [private_driver]
    its stream carries; [FfiStream] says how the stream behaves. *)

From S2P Require Import Arrow Decode Bind Partitions Objects Statistics Bridge.
From S2P Require Import Prelude RustStr Utf8 RustNum ErrorModel Options Config Runtime Stream Txn Client StatementState Ingest Statement Connection Driver Introspect.
From S2P Require Import FfiGuard FfiError FfiHandle FfiOptions FfiImport.

Open Scope nat_scope.

(** ** The monad of entry points *)

Definition EM (St W A : Type) : Type := St -> W -> St * W * Exit (Result A).

#[export] Instance EM_ret {St W} : MRet (EM St W) := fun A a s w => (s, w, Returned (Ok a)).
#[export] Instance EM_bind {St W} : MBind (EM St W) := fun A B f m s w =>
  match m s w with
  | (s, w, Returned (Ok a)) => f a s w
  | (s, w, Returned (Err e)) => (s, w, Returned (Err e))
  | (s, w, Panicked cause) => (s, w, Panicked cause)
  end.

(** What a panic leaves of the driver's world, and its payload. *)
Class Unwind (W : Type) := {
  unwound : W -> W;
  payload : W -> Payload;
}.

Section Primitives.
Context {St W O : Type}.

Definition liftE {A} (r : Result A) : EM St (W * O) A := fun s w => (s, w, Returned r).

(** The output parameter, when it is the only one. *)
Definition required_out {X} (name : String.string) : EM St (W * option X) unit := fun s w =>
  (s, w, Returned (required_output w.2 (str name))).

Definition put_out {X} (value : X) (name : String.string) : EM St (W * option X) unit := fun s w =>
  let '(o, r) := write_out w.2 value (str name) in (s, (w.1, o), Returned r).

End Primitives.

Section RunWorld.
Context {SC : SpannerClient} {UW : Unwind World} {O : Type}.

(** A method of the driver that takes [&self], and one that takes [&mut self]. *)
Definition run_M {St A} (m : M A) : EM St (World * O) A := fun s w =>
  match m w.1 with
  | Some (w', r) => (s, (w', w.2), Returned r)
  | None => (s, (unwound w.1, w.2), Panicked (payload w.1))
  end.

End RunWorld.

(** ** Connections *)

(** What the entry points use of [adbc_core] and of arrow's C export. *)
Class ConnectionAbi := {
  oc_from : rstr -> OptionConnection;
  oc_as_ref : OptionConnection -> rstr;
  info_code_from : Z -> InfoCode;
  depth_try_from : Z -> option ObjectDepth;
  (** the failure of [FFI_ArrowSchema::try_from], if it fails *)
  schema_export_error : list Arrow.Field -> option rstr;
}.

Section ConnectionEntries.
Context {SC : SpannerClient} {AH : Bridge.ArrowHost (SC := SC)} {CH : Decode.Chrono} {CO : Decode.Codec}.
Context {WI : Bind.Wire (SC := SC)} {SD : Partitions.Serde (SC := SC)}.
Context {SK : Statistics.StatisticKeys} {IC : Statistics.InfoConstants} {OU : Outside}.
Context {CA : ConnectionAbi} {UW : Unwind World} (env : Env).

Definition CONNECTION_KIND : rstr := str "connection".

Definition ConnectionHandle : Type := Staged OptionConnection Connection.

(** [state.ready(KIND)?]: these methods leave the connection itself as it is. *)
Definition connection_ready {W} : EM ConnectionHandle W Connection := fun s w =>
  (s, w, Returned (ready s CONNECTION_KIND)).

(** The typed state of [connection_init]: the database's slot beside the world.
    [slot] is the connection's new cancel slot. *)
Definition connection_init {Cancel} (m : Moment) (slot : positive)
    (database : option (Exported (St := Staged OptionDatabase SpannerDatabase) (Cancel := Cancel)))
    (state : ConnectionHandle) (w : World) :
    ConnectionHandle * option (Exported (St := Staged OptionDatabase SpannerDatabase) (Cancel := Cancel)) *
    World * Exit (Result (option positive)) :=
  match pending state CONNECTION_KIND with
  | Err e => (state, database, w, Returned (Err e))
  | Ok options =>
      match lock_state database DATABASE_KIND with
      | Err e => (state, database, w, Returned (Err e))
      | Ok locked =>
          match ready (ex_state locked) DATABASE_KIND with
          | Err e => (state, database, w, Returned (Err e))
          | Ok db =>
              let unlock db' := Some (mkExported (ex_poisoned locked) (ex_cancel locked) (Ready db')) in
              match new_connection_with_opts env m db w slot options with
              | Some (db', w', Ok conn) => (Ready conn, unlock db', w', Returned (Ok (Some (c_slot conn))))
              | Some (db', w', Err e) => (state, unlock db', w', Returned (Err e))
              | None => (state, unlock (connect_shared m db).1, unwound w, Panicked (payload w))
              end
          end
      end
  end.

Definition connection_commit : EM ConnectionHandle (World * unit) unit :=
  self ← connection_ready; run_M (commit env self).

Definition connection_rollback : EM ConnectionHandle (World * unit) unit :=
  self ← connection_ready; run_M (rollback self).

(** A reader with the driver vtable its connection carries. *)
Record ExportedReader (R : Type) := mkExportedReader { er_reader : R; er_private_driver : option positive }.

Section Streams.
Context {R : Type}.
Variable private_driver : option positive.

Definition export_stream {St W} (reader : R) : EM St (W * option (ExportedReader R)) unit :=
  put_out (mkExportedReader R reader private_driver) "out".

End Streams.

Variable private_driver : option positive.

Abbreviation Entry R := (EM ConnectionHandle (World * option (ExportedReader R)) unit) (only parsing).

(** The schemas of the standard's result sets, which [adbc_core] defines. *)
Variables GET_INFO_SCHEMA GET_OBJECTS_SCHEMA GET_STATISTICS_SCHEMA : list Arrow.Field.

Definition connection_get_info (info_codes : option (list Z)) : Entry (list Arrow.Batch) :=
  _ ← required_out "out";
  let codes := (fun l => remove_dups (map info_code_from l)) <$> info_codes in
  self ← connection_ready;
  reader ← liftE (get_info GET_INFO_SCHEMA codes);
  export_stream private_driver reader.

Definition object_depth (depth : Z) : Result ObjectDepth :=
  ok_or (depth_try_from depth) (invalid_argument
    [Lit "AdbcConnectionGetObjects depth "; DispZ depth;
     Lit " is not a valid ADBC object depth; use 0 (all, including columns), 1 (catalogs), 2 (db_schemas), or 3 (tables)"]).

Definition connection_get_objects (depth : Z) (catalog db_schema table_name : option (list byte))
    (table_type : option (list (list byte))) (column_name : option (list byte)) : Entry (list Arrow.Batch) :=
  _ ← required_out "out";
  depth ← liftE (object_depth depth);
  catalog ← liftE (optional_str catalog (str "catalog"));
  db_schema ← liftE (optional_str db_schema (str "db_schema"));
  table_name ← liftE (optional_str table_name (str "table_name"));
  table_type ← liftE (optional_str_list table_type (str "table_type"));
  column_name ← liftE (optional_str column_name (str "column_name"));
  self ← connection_ready;
  reader ← run_M (get_objects env GET_OBJECTS_SCHEMA self depth catalog
                    (mkObjectFilters db_schema table_name table_type column_name));
  export_stream private_driver reader.

Definition connection_get_table_schema (catalog db_schema table_name : option (list byte)) :
    EM ConnectionHandle (World * option (list Arrow.Field)) unit :=
  _ ← required_out "schema";
  catalog ← liftE (optional_str catalog (str "catalog"));
  db_schema ← liftE (optional_str db_schema (str "db_schema"));
  table_name ← liftE (required_str table_name (str "table_name"));
  self ← connection_ready;
  found ← run_M (get_table_schema env self catalog db_schema table_name);
  exported ← liftE (match schema_export_error found with
                    | Some failure => Err (err [Lit "failed to export the table schema over the C data interface: ";
                                                Disp failure] Internal)
                    | None => Ok found
                    end);
  put_out exported "schema".

Definition connection_get_table_types : Entry (list Arrow.Batch) :=
  _ ← required_out "out";
  self ← connection_ready;
  reader ← liftE get_table_types;
  export_stream private_driver reader.

Definition connection_get_statistics (catalog db_schema table_name : option (list byte)) (approximate : Z) :
    Entry (list Arrow.Batch) :=
  _ ← required_out "out";
  catalog ← liftE (optional_str catalog (str "catalog"));
  db_schema ← liftE (optional_str db_schema (str "db_schema"));
  table_name ← liftE (optional_str table_name (str "table_name"));
  self ← connection_ready;
  reader ← run_M (get_statistics env GET_STATISTICS_SCHEMA self catalog db_schema table_name
                    (negb (bool_decide (approximate = 0%Z))));
  export_stream private_driver reader.

Definition connection_get_statistic_names : Entry (list Arrow.Batch) :=
  _ ← required_out "out";
  self ← connection_ready;
  reader ← liftE get_statistic_names;
  export_stream private_driver reader.

(** The allocation is at least [len] bytes long, or reading it is undefined. *)
Definition connection_read_partition (serialized : option (list byte)) (len : nat) :
    option (Entry (Reader (B := arrow_batches))) :=
  partition ← byte_slice serialized len (str "serialized_partition");
  Some (
    _ ← required_out "out";
    partition ← liftE partition;
    self ← connection_ready;
    reader ← run_M (read_partition env self partition);
    export_stream private_driver reader).

(** [AdbcStatementNew]: the statement is built from the connection it belongs to,
    and its cancel slot is the one it was given.  [None] is a null handle struct. *)
Definition statement_new {CancelC : Type}
    (connection : option (Exported (St := ConnectionHandle) (Cancel := CancelC)))
    (statement : option (option (Exported (St := Statement (B := arrow_batches)) (Cancel := positive))))
    (slot : positive) (w : World) :
    option (option (Exported (St := Statement (B := arrow_batches)) (Cancel := positive))) * World * Result unit :=
  match statement with
  | None => (statement, w, Err (invalid_argument [Lit "statement must not be null"]))
  | Some (Some _) => (statement, w, Err (already_populated (str "statement")))
  | Some None =>
      match (locked ← lock_state connection CONNECTION_KIND; ready (ex_state locked) CONNECTION_KIND) with
      | Err e => (statement, w, Err e)
      | Ok conn =>
          let '(w, state) := new_statement conn slot w in
          (Some (into_private_data_with_cancel state (Some slot)), w, Ok tt)
      end
  end.

End ConnectionEntries.

(** ** Statements *)

(** Arrow's import of a bound batch, in terms of the types the statement uses. *)
Class BindAbi `{B : Batches} {PR : Producer} := {
  from_ffi : CArray -> CSchema -> ArrayData + rstr;
  (** the field names of a struct array, or the text of another data type *)
  struct_fields : ArrayData -> list rstr + rstr;
  batch_from : ArrayData -> RecordBatch;
  as_batch : ImportedBatch -> RecordBatch;
  as_schema : ImportedSchema -> Schema;
  arrow_text : Message -> rstr;
  result_schema_error : Schema -> option rstr;
}.

Section StatementEntries.
Context `{F : Formats} {PR : Producer} {BA : BindAbi} {UW : Unwind World}.
Context (torn : Statement -> Statement) (env : Env).

(** A statement's entry point also has a statement to tear. *)
Definition run_SM {A O} (m : Statement -> World -> option (World * Statement * Result A)) :
    EM Statement (World * O) A := fun s w =>
  match m s w.1 with
  | Some (w', s', r) => (s', (w', w.2), Returned r)
  | None => (torn s, (unwound w.1, w.2), Panicked (payload w.1))
  end.

Definition set_statement {O} (s' : Statement) : EM Statement (World * O) unit := fun _ w =>
  (s', w, Returned (Ok tt)).

Definition the_statement {W} : EM Statement W Statement := fun s w => (s, w, Returned (Ok s)).

Definition statement_set_sql_query (query : option (list byte)) : EM Statement (World * unit) unit :=
  query ← liftE (required_str query (str "query"));
  self ← the_statement;
  set_statement (set_sql_query self query).

Definition statement_set_substrait_plan (plan : option (list byte)) (len : nat) :
    option (EM Statement (World * unit) unit) :=
  plan ← byte_slice plan len (str "plan");
  Some (_ ← liftE plan; liftE set_substrait_plan).

Definition statement_prepare : EM Statement (World * unit) unit :=
  self ← the_statement; liftE (prepare self).

(** The two C structs a bind is given: null, released ([Some None]) or live.
    Moving one leaves the caller's copy released. *)
Abbreviation BindArgs := (option (option CArray) * option (option CSchema))%type (only parsing).

Definition get_args : EM Statement (World * BindArgs) BindArgs := fun s w => (s, w, Returned (Ok w.2)).

Definition move_args : EM Statement (World * BindArgs) unit := fun s w =>
  (s, (w.1, (Some None, Some None)), Returned (Ok tt)).

Definition imported_batch (values : CArray) (schema : CSchema) : Result RecordBatch :=
  match from_ffi values schema with
  | inr failure => Err (invalid_argument [Lit "bind values are not a valid Arrow array: "; Disp failure])
  | inl data =>
      match struct_fields data with
      | inr ty => Err (invalid_argument [Lit "bind values must be a struct array, not "; Disp ty])
      | inl fields =>
          match validate_imported data fields with
          | Some failure => Err (invalid_argument (Lit "bind values are not a valid Arrow array: " :: failure))
          | None =>
              if decide (null_count data <> 0) then
                Err (invalid_argument
                  [Lit "bind values must not contain top-level null rows; put null values in the individual columns instead"])
              else Ok (batch_from data)
          end
      end
  end.

Definition statement_bind : EM Statement (World * BindArgs) unit :=
  args ← get_args;
  values ← liftE (match args.1 with
                  | None => Err (invalid_argument [Lit "values must not be null"])
                  | Some None => Err (invalid_argument [Lit "values has already been released"])
                  | Some (Some values) => Ok values
                  end);
  schema ← liftE (match args.2 with
                  | None => Err (invalid_argument [Lit "schema must not be null"])
                  | Some None => Err (invalid_argument [Lit "schema has already been released"])
                  | Some (Some schema) => Ok schema
                  end);
  _ ← move_args;
  batch ← liftE (imported_batch values schema);
  self ← the_statement;
  set_statement (bind self batch).

(** The stream is read to its end before the call returns; [fuel] bounds the
    batches a producer may deliver. *)
Definition statement_bind_stream (fuel : nat) : EM Statement (World * option CStream) unit := fun s w =>
  let '(kept, reader) := from_raw w.2 in
  match reader with
  | Err e => (s, (w.1, kept), Returned (Err e))
  | Ok reader =>
      let items := (bound_items fuel reader).2 in
      let '(s', r) := bind_stream s (as_schema (bs_schema reader))
        (map (fun i => match i with inl b => inl (as_batch b) | inr m => inr (arrow_text m) end) items) in
      (s', (w.1, kept), Returned r)
  end.

(** The outputs of an execution: the stream and the count, either may be null. *)
Abbreviation ExecuteOut := (option (ExportedReader Reader) * option Z)%type (only parsing).

Definition write_rows_affected {X W} (value : Z) : EM Statement (W * (X * option Z)) unit := fun s w =>
  (s, (w.1, (w.2.1, (fun _ => value) <$> w.2.2)), Returned (Ok tt)).

Definition write_stream (private_driver : option positive) (reader : Reader) :
    EM Statement (World * ExecuteOut) unit := fun s w =>
  (s, (w.1, ((fun _ => mkExportedReader Reader reader private_driver) <$> w.2.1, w.2.2)), Returned (Ok tt)).

Definition out_is_null : EM Statement (World * ExecuteOut) bool := fun s w =>
  (s, w, Returned (Ok (match w.2.1 with None => true | Some _ => false end))).

Definition statement_execute_query (private_driver : option positive) (fuel : nat) :
    EM Statement (World * ExecuteOut) unit :=
  is_null ← out_is_null;
  if is_null : bool then
    affected ← run_SM (execute_update env fuel);
    write_rows_affected (default (-1)%Z affected)
  else
    reader ← run_SM (execute env);
    _ ← write_stream private_driver reader;
    write_rows_affected (-1)%Z.

Definition export_schema (found : Schema) : Result Schema :=
  match result_schema_error found with
  | Some failure =>
      Err (err [Lit "failed to export the result schema over the C data interface: "; Disp failure] Internal)
  | None => Ok found
  end.

Definition statement_execute_schema : EM Statement (World * option Schema) unit :=
  _ ← required_out "schema";
  found ← run_SM (execute_schema env);
  exported ← liftE (export_schema found);
  put_out exported "schema".

Definition statement_get_parameter_schema : EM Statement (World * option Schema) unit :=
  _ ← required_out "schema";
  self ← the_statement;
  found ← run_M (get_parameter_schema env self);
  exported ← liftE (export_schema found);
  put_out exported "schema".

(** ** Partitions handed to the caller

    Two parallel arrays over payloads that the box behind [ap_private] owns. *)
Record AdbcPartitions := mkPartitions {
  ap_num_partitions : nat;
  ap_partitions : option (list (list byte));
  ap_lengths : option (list nat);
  ap_private : option (list (list byte));
  ap_release : bool;
}.

Definition export_partitions (payloads : list (list byte)) : AdbcPartitions :=
  let n := length payloads in
  let '(ps, ls) := if decide (n = 0) then (None, None) else (Some payloads, Some (map length payloads)) in
  mkPartitions n ps ls (Some payloads) true.

Definition release_partitions (p : AdbcPartitions) : AdbcPartitions := mkPartitions 0 None None None false.

(** The three outputs, in the order of the arguments. *)
Abbreviation PartitionOut := (option Schema * option AdbcPartitions * option Z)%type (only parsing).

Definition required_partition_outputs : EM Statement (World * PartitionOut) unit := fun s w =>
  (s, w, Returned (_ ← required_output w.2.1.1 (str "schema"); required_output w.2.1.2 (str "partitions"))).

Definition write_partitions (s' : Schema) (p : AdbcPartitions) : EM Statement (World * PartitionOut) unit :=
  fun s w => (s, (w.1, ((fun _ => s') <$> w.2.1.1, (fun _ => p) <$> w.2.1.2, w.2.2)), Returned (Ok tt)).

Definition statement_execute_partitions : EM Statement (World * PartitionOut) unit :=
  _ ← required_partition_outputs;
  result ← run_SM (execute_partitions env);
  exported ← liftE (export_schema (pr_schema result));
  _ ← write_partitions exported (export_partitions (partitions result));
  write_rows_affected (rows_affected result).

End StatementEntries.
