(* ===== verification/FfiEntryFacts.v ===== *)
(** * Theorems on the C entry points

    When an entry point writes to the caller's memory: never before it can
    succeed, and never when it fails; and what [AdbcConnectionInit] does to the
    two handles it is given.  [output_contract] is the shared statement, proved
    compositionally over the entry-point monad. *)

From S2P Require Import Arrow Decode Bind Partitions Objects Statistics Bridge.
From S2P Require Import Prelude RustStr Utf8 RustNum ErrorModel Options Config Runtime Stream Txn Client StatementState Ingest Statement Connection Driver DriverFacts Introspect.
From S2P Require Import FfiGuard FfiError FfiHandle FfiOptions FfiImport FfiEntry.

Open Scope nat_scope.

Create HintDb ffi discriminated.

Section Contract.
Context {St W O A : Type}.

(** An output that is required and null stops the call before any work: the
    state and the world are as they were.  Whatever else goes wrong, a panic
    included, the caller's outputs are untouched. *)
Definition output_contract (missing : O -> Prop) (m : EM St (W * O) A) : Prop :=
  forall s w o s' w' o' exit, m s (w, o) = (s', (w', o'), exit) ->
    (missing o -> s' = s /\ w' = w /\ exists e, exit = Returned (Err e) /\ status e = InvalidArguments) /\
    ((forall a, exit <> Returned (Ok a)) -> o' = o).

(** A step that leaves the outputs alone. *)
Definition keeps_out (m : EM St (W * O) A) : Prop := forall s w, (m s w).1.2.2 = w.2.

(** A step that writes outputs only when it succeeds. *)
Definition writes_last (m : EM St (W * O) A) : Prop :=
  forall s w, (forall a, (m s w).2 <> Returned (Ok a)) -> (m s w).1.2.2 = w.2.

Lemma keeps_writes m : keeps_out m -> writes_last m.
Proof. intros H s w _. apply H. Qed.

End Contract.

Section Rules.
Context {St W O : Type}.

Lemma writes_last_bind {A B} (m : EM St (W * O) A) (f : A -> EM St (W * O) B) :
  keeps_out m -> (forall a, writes_last (f a)) -> writes_last (m ≫= f).
Proof.
  intros Hm Hf s w. unfold mbind, EM_bind. pose proof (Hm s w) as H.
  destruct (m s w) as [[s1 w1] [[a|e]|c]]; cbn in *; [|by intros _..].
  intros Hn. rewrite <- H. by apply Hf.
Qed.

Lemma keeps_liftE {A} (r : Result A) : keeps_out (St := St) (W := W) (O := O) (liftE r).
Proof. done. Qed.

Lemma contract_of_writes {A} (m : EM St (W * O) A) : writes_last m -> output_contract (fun _ => False) m.
Proof. intros Hm s w o s' w' o' exit E. split; [done|]. intros Hn. pose proof (Hm s (w, o)) as H. rewrite E in H. by apply H. Qed.

Lemma contract_of_guard {A} (missing : O -> Prop) (guard : EM St (W * O) unit) (f : unit -> EM St (W * O) A) :
  (forall s w, (guard s w).1 = (s, w) /\
     (missing w.2 -> exists e, (guard s w).2 = Returned (Err e) /\ status e = InvalidArguments)) ->
  (forall u, writes_last (f u)) -> output_contract missing (guard ≫= f).
Proof.
  intros Hg Hf s w o s' w' o' exit E. destruct (Hg s (w, o)) as [H1 H2].
  unfold mbind, EM_bind in E. destruct (guard s (w, o)) as [[s1 w1] x] eqn:Eg. cbn in H1. injection H1 as -> ->.
  split.
  - intros Hm. destruct (H2 Hm) as (e & Ex & Hst). cbn in Ex. subst x. injection E as <- <- <- <-.
    split; [done|]. split; [done|]. by exists e.
  - destruct x as [[u|e]|c]; [|by simplify_eq..]. intros Hn. pose proof (Hf u s (w, o)) as Hw. rewrite E in Hw. by apply Hw.
Qed.

End Rules.

Lemma keeps_run_M {SC : SpannerClient} {UW : Unwind World} {St O A} (m : M A) :
  keeps_out (St := St) (O := O) (run_M m).
Proof. intros s [w o]. unfold run_M. cbn. by destruct (m w) as [[w' r]|]. Qed.

Lemma keeps_ready {SC : SpannerClient} {W O} : keeps_out (W := W) (O := O) connection_ready.
Proof. done. Qed.

Lemma writes_put_out {St W X} (v : X) name : writes_last (St := St) (W := W) (put_out v name).
Proof.
  intros s [w o] Hn. unfold put_out in *. unfold write_out in *. cbn in *.
  destruct o; cbn in *; [by destruct (Hn tt) | done].
Qed.

Lemma required_guard {St W X} name (s : St) (w : W * option X) :
  (required_out name s w).1 = (s, w) /\
  (w.2 = None -> exists e, (required_out name s w).2 = Returned (Err e) /\ status e = InvalidArguments).
Proof. split; [done|]. unfold required_out. intros ->. by eexists. Qed.

Lemma writes_export_stream {St W R} d (r : R) : writes_last (St := St) (W := W) (export_stream d r).
Proof. apply writes_put_out. Qed.

#[export] Hint Resolve writes_export_stream writes_last_bind keeps_liftE keeps_run_M keeps_ready keeps_writes writes_put_out : ffi.

Section Connections.
Context {SC : SpannerClient} {AH : Bridge.ArrowHost (SC := SC)} {CH : Decode.Chrono} {CO : Decode.Codec}.
Context {WI : Bind.Wire (SC := SC)} {SD : Partitions.Serde (SC := SC)}.
Context {SK : Statistics.StatisticKeys} {IC : Statistics.InfoConstants} {OU : Outside}.
Context {CA : ConnectionAbi} {UW : Unwind World} (env : Env).

Ltac solve_entry :=
  apply contract_of_guard; [intros; apply required_guard|];
  intros []; repeat (apply writes_last_bind; [eauto with ffi|intros]); auto with ffi.

(** A connection's entry points respect the caller's outputs.  [GetInfo],
    [GetObjects], [GetTableSchema], [GetTableTypes], [GetStatistics],
    [GetStatisticNames] and [ReadPartition], with any arguments and any server:
    a null output is refused as a bad argument before anything is done, no call
    is made and no state changes; and a call that fails or panics leaves the
    output exactly as it was. *)
Theorem connection_outputs_respected driver info objects statistics codes depth catalog db_schema table types
    column approximate :
  let missing {X} (o : option X) := o = None in
  output_contract missing (connection_get_info driver info codes) /\
  output_contract missing (connection_get_objects env driver objects depth catalog db_schema table types column) /\
  output_contract missing (connection_get_table_schema env catalog db_schema table) /\
  output_contract missing (connection_get_table_types driver) /\
  output_contract missing (connection_get_statistics env driver statistics catalog db_schema table approximate) /\
  output_contract missing (connection_get_statistic_names driver) /\
  forall serialized len, match connection_read_partition env driver serialized len with
                         | Some entry => output_contract missing entry
                         | None => True
                         end.
Proof.
  cbv zeta. split; [solve_entry|]. split; [solve_entry|]. split; [solve_entry|]. split; [solve_entry|].
  split; [solve_entry|]. split; [solve_entry|].
  intros serialized len. destruct (connection_read_partition env driver serialized len) as [entry|] eqn:H; [|done].
  apply bind_Some in H as (p & _ & [= <-]). solve_entry.
Qed.

(** The options of a connection keep its cancel slot. *)
Lemma set_option_slot conn key value w w' conn' r :
  Connection.set_option env conn key value w = Some (w', conn', r) -> c_slot conn' = c_slot conn.
Proof.
  unfold Connection.set_option. destruct key as [| | | | |k]; intros H.
  - destruct (bool_option value _) as [b|e]; [|by simplify_eq].
    apply bind_Some in H as ([w1 r1] & _ & H). by simplify_eq.
  - destruct (bool_option value _) as [b|e]; [|by simplify_eq].
    apply bind_Some in H as ([w1 r1] & _ & H). by simplify_eq.
  - by simplify_eq.
  - by simplify_eq.
  - destruct (assign _ _ _) as [c r1]. by simplify_eq.
  - case_decide; [destruct (upd _ _) as [c r1]; by simplify_eq|].
    destruct (set_shared_option _ _ _ _) as [c r1]. by simplify_eq.
Qed.

Lemma conn_set_options_slot opts : forall conn w w' conn',
  conn_set_options env conn opts w = Some (w', Ok conn') -> c_slot conn' = c_slot conn.
Proof.
  induction opts as [|[k v] opts IH]; intros conn w w' conn' H; cbn [conn_set_options] in H; [by simplify_eq|].
  apply bind_Some in H as ([[w1 conn1] r1] & E & H). apply set_option_slot in E.
  destruct r1; [|by simplify_eq]. apply IH in H. congruence.
Qed.

Lemma connect_shared_config m db : db_config (connect_shared m db).1 = db_config db.
Proof. unfold connect_shared. destruct (connected db); [done|]. by destruct (connect m (db_config db)). Qed.

Lemma new_connection_spec m db w slot db' w' r :
  new_connection m db w slot = (db', w', r) ->
  db' = (connect_shared m db).1 /\ forall conn, r = Ok conn -> c_slot conn = slot.
Proof.
  unfold new_connection. destruct (connect_shared m db) as [db1 [stack|e]]; cbn [fst].
  - destruct (Connection_new w slot stack) as [w1 conn] eqn:E. intros [= <- <- <-]. split; [done|].
    intros ? [= <-]. unfold Connection_new in E. destruct (SharedConfig_default (w_cells w)). by simplify_eq.
  - intros [= <- <- <-]. done.
Qed.

Abbreviation DatabaseHandle Cancel := (Exported (St := Staged OptionDatabase SpannerDatabase) (Cancel := Cancel)) (only parsing).

(** What a call that borrows a database may do to it: fill its client cache. *)
Definition only_connected {Cancel} (m : Moment) (d d' : DatabaseHandle Cancel) : Prop :=
  ex_poisoned d' = ex_poisoned d /\ ex_cancel d' = ex_cancel d /\
  (d' = d \/ exists db, ex_state d = Ready db /\ ex_state d' = Ready (connect_shared m db).1 /\
             db_config (connect_shared m db).1 = db_config db).

Lemma only_connected_refl {Cancel} m (d : DatabaseHandle Cancel) : only_connected m d d.
Proof. split; [done|]. split; [done|]. by left. Qed.

(** [AdbcConnectionInit] is all or nothing.  It succeeds only on a pending
    handle and an initialized, unpoisoned database, and then publishes the
    connection together with the cancel handle of its own slot.  Whatever it
    fails on, a missing database, a connection error, a rejected option or a
    panic, the handle keeps every buffered option, so that [Init] can be tried
    again; and in every case the database keeps its options, its poison flag and
    its cancel handle: at most its client cache is filled. *)
Theorem connection_init_all_or_nothing {Cancel} m slot (database : option (DatabaseHandle Cancel)) state w :
  let '(state', database', w', exit) := connection_init env m slot database state w in
  match exit with
  | Returned (Ok cancel) =>
      exists options conn d db, state = Pending options /\ database = Some d /\ ex_poisoned d = false /\
        ex_state d = Ready db /\ state' = Ready conn /\ cancel = Some slot /\ c_slot conn = slot
  | Returned (Err _) | Panicked _ => state' = state
  end /\
  option_Forall2 (only_connected m) database database'.
Proof.
  destruct (connection_init env m slot database state w) as [[[state' database'] w'] exit] eqn:E. revert E.
  assert (Hsame : forall d : option (DatabaseHandle Cancel), option_Forall2 (only_connected m) d d)
    by (intros [d|]; constructor; apply only_connected_refl).
  unfold connection_init. destruct (pending state _) as [options|e] eqn:Ep;
    [|intros [= <- <- <- <-]; split; [done | apply Hsame]].
  destruct (lock_state database _) as [locked|e] eqn:El; [|intros [= <- <- <- <-]; split; [done | apply Hsame]].
  destruct (ready (ex_state locked) _) as [db|e] eqn:Er; [|intros [= <- <- <- <-]; split; [done | apply Hsame]].
  assert (database = Some locked /\ ex_poisoned locked = false) as [-> Hpo].
  { unfold lock_state in El. destruct database as [d|]; [|done]. destruct (ex_poisoned d) eqn:E; [done|].
    by injection El as ->. }
  assert (ex_state locked = Ready db) as Est by (destruct (ex_state locked); [done|]; cbn in Er; congruence).
  assert (state = Pending options) as -> by (destruct state; [cbn in Ep; congruence | done]).
  assert (Hdb : forall db', db' = (connect_shared m db).1 -> option_Forall2 (only_connected m) (Some locked)
    (Some (mkExported (ex_poisoned locked) (ex_cancel locked) (Ready (K := OptionDatabase) db')))).
  { intros db' ->. constructor. split; [done|]. split; [done|]. right. exists db. split; [done|]. split; [done|].
    apply connect_shared_config. }
  unfold new_connection_with_opts. destruct (new_connection m db w slot) as [[db1 w1] r1] eqn:En.
  apply new_connection_spec in En as [Edb Hslot]. destruct r1 as [conn|e].
  - destruct (conn_set_options env conn options w1) as [[w2 [conn2|e]]|] eqn:Ec; cbn [mbind option_bind];
      intros [= <- <- <- <-]; (split; [|by apply Hdb]); [|done..].
    exists options, conn2, locked, db. apply conn_set_options_slot in Ec.
    rewrite Ec, (Hslot conn eq_refl). done.
  - cbn [mbind option_bind]. intros [= <- <- <- <-]. split; [done | by apply Hdb].
Qed.

End Connections.

Section Statements.
Context `{F : Formats} {PR : Producer} {BA : BindAbi} {UW : Unwind World}.
Context (torn : Statement -> Statement) (env : Env).

Lemma keeps_run_SM {A O} (m : Statement -> World -> option (World * Statement * Result A)) :
  keeps_out (O := O) (run_SM torn m).
Proof. intros s [w o]. unfold run_SM. cbn. by destruct (m s w) as [[[w' s'] r]|]. Qed.

Lemma keeps_the_statement {W O} : keeps_out (W := W) (O := O) the_statement.
Proof. done. Qed.

#[local] Hint Resolve keeps_run_SM keeps_the_statement : ffi.

Ltac solve_entry :=
  apply contract_of_guard; [intros; apply required_guard|];
  intros []; repeat (apply writes_last_bind; [eauto with ffi|intros]); auto with ffi.

(** What an entry point makes of the driver's answer: with outputs [o], it runs
    [run] on the statement, hands on its error or its panic with the outputs as
    they were, and delivers its result as [put] says. *)
Definition collects {R O} (tear : Statement -> Statement)
    (run : Statement -> World -> option (World * Statement * Result R)) (put : R -> Result O)
    (o : O) (m : EM Statement (World * O) unit) : Prop :=
  forall s w, m s (w, o) =
    match run s w with
    | None => (tear s, (unwound w, o), Panicked (payload w))
    | Some (w', s', Err e) => (s', (w', o), Returned (Err e))
    | Some (w', s', Ok r) =>
        match put r with
        | Ok o' => (s', (w', o'), Returned (Ok tt))
        | Err e => (s', (w', o), Returned (Err e))
        end
    end.

(** [get_parameter_schema] leaves the statement alone, even when it panics. *)
Definition parameter_schema_run (s : Statement) (w : World) : option (World * Statement * Result Schema) :=
  '(w, r) ← get_parameter_schema env s w; Some (w, s, r).

(** C38: a statement's entry points respect the caller's outputs, and a success
    fills every output the caller passed.  [ExecuteSchema], [GetParameterSchema]
    and [ExecutePartitions] refuse a null output before anything is executed, so
    that nothing is run whose result cannot be collected; in all four a call that
    fails or panics leaves every output as it was.  With its outputs given, each is
    exactly the driver's method: its error and its panic are handed on, and its
    result becomes the schema, the partitions and the row count the method
    reported.  [ExecuteQuery] takes a null stream as the wish to run an update: it
    runs one and reports its count, -1 when there is none; with a stream it hands
    out the reader and reports -1. *)
Theorem statement_outputs_respected driver fuel :
  (output_contract (fun o => o = None) (statement_execute_schema torn env) /\
   output_contract (fun o => o = None) (statement_get_parameter_schema env) /\
   output_contract (fun o => o.1.1 = None \/ o.1.2 = None) (statement_execute_partitions torn env) /\
   output_contract (fun _ => False) (statement_execute_query torn env driver fuel)) /\
  (forall o, collects torn (execute_schema env)
     (fun found => schema ← export_schema found; Ok (Some schema)) (Some o) (statement_execute_schema torn env)) /\
  (forall o, collects (fun s => s) parameter_schema_run
     (fun found => schema ← export_schema found; Ok (Some schema)) (Some o) (statement_get_parameter_schema env)) /\
  (forall o1 o2 rows, collects torn (execute_partitions env)
     (fun r => schema ← export_schema (pr_schema r);
               Ok (Some schema, Some (export_partitions (partitions r)), (fun _ => rows_affected r) <$> rows))
     (Some o1, Some o2, rows) (statement_execute_partitions torn env)) /\
  (forall rows, collects torn (execute_update env fuel)
     (fun affected => Ok (None, (fun _ => default (-1)%Z affected) <$> rows))
     (None, rows) (statement_execute_query torn env driver fuel)) /\
  (forall o rows, collects torn (execute env)
     (fun reader => Ok (Some (mkExportedReader Reader reader driver), (fun _ => (-1)%Z) <$> rows))
     (Some o, rows) (statement_execute_query torn env driver fuel)).
Proof.
  split.
  - split; [solve_entry|]. split; [solve_entry|]. split.
    + apply contract_of_guard.
      * intros s [w [[o1 o2] o3]]. split; [done|]. unfold required_partition_outputs. cbn.
        destruct o1; cbn; [|by eexists]. destruct o2; cbn; [|by eexists]. by intros [?|?].
      * intros []. apply writes_last_bind; [eauto with ffi|]. intros r.
        apply writes_last_bind; [eauto with ffi|]. intros x s [w o] Hn. cbn in *. by destruct (Hn tt).
    + apply contract_of_writes. unfold statement_execute_query. apply writes_last_bind; [done|].
      intros []; (apply writes_last_bind; [eauto with ffi|]); intros x s [w o] Hn; by destruct (Hn tt).
  - split; [|split; [|split; [|split]]]; intros; intros s w.
    + unfold statement_execute_schema, mbind, EM_bind, run_SM, liftE. cbn [fst snd required_out required_output].
      destruct (execute_schema env s w) as [[[w' s'] [found|e]]|]; cbn; [|done..]. by destruct (export_schema found).
    + unfold statement_get_parameter_schema, parameter_schema_run, mbind, EM_bind, run_M, liftE. cbn.
      destruct (get_parameter_schema env s w) as [[w' [found|e]]|]; cbn; [|done..]. by destruct (export_schema found).
    + unfold statement_execute_partitions, mbind, EM_bind, run_SM, liftE. cbn -[execute_partitions].
      destruct (execute_partitions env s w) as [[[w' s'] [r|e]]|]; cbn; [|done..]. by destruct (export_schema (pr_schema r)).
    + unfold statement_execute_query, mbind, EM_bind, out_is_null, run_SM. cbn [fst snd].
      by destruct (execute_update env fuel s w) as [[[w' s'] [affected|e]]|].
    + unfold statement_execute_query, mbind, EM_bind, out_is_null, run_SM. cbn [fst snd].
      by destruct (execute env s w) as [[[w' s'] [reader|e]]|].
Qed.

(** The arrays handed out are the payloads, and a release leaves nothing to read. *)
Lemma export_partitions_readable (payloads : list (list byte)) p :
  p = export_partitions payloads ->
  ap_num_partitions p = length payloads /\ ap_private p = Some payloads /\ ap_release p = true /\
  (payloads = [] -> ap_partitions p = None /\ ap_lengths p = None) /\
  (payloads <> [] -> ap_partitions p = Some payloads /\ ap_lengths p = Some (map length payloads)) /\
  release_partitions (release_partitions p) = release_partitions p.
Proof. intros ->. by destruct payloads. Qed.

End Statements.
