(* ===== verification/FfiDriver.v ===== *)
(** * [src/ffi/mod.rs], [src/ffi/abi.rs]: the driver's vtable

    The C struct [AdbcDriver] is a sequence of pointer-sized words, one per field,
    in the header's order; a caller's allocation is the words it has, and writing
    past them is undefined behaviour ([None]). *)

From S2P Require Import Prelude RustStr ErrorModel FfiGuard FfiError FfiHandle.

Open Scope nat_scope.

Definition ADBC_VERSION_1_0_0 : Z := 1000000.
Definition ABI_VERSION_1_1_0 : Z := 1001000.

Inductive AbiObject := ADatabase | AConnection | AStatement.

(** The [extern] functions of the driver; the generic ones are instantiated per
    object. *)
Inductive EntryPoint :=
  | NewHandle (o : AbiObject)
  | ReleaseHandle (o : AbiObject)
  | SetOptionString (o : AbiObject)
  | SetOptionBytes (o : AbiObject)
  | SetOptionInt (o : AbiObject)
  | SetOptionDouble (o : AbiObject)
  | GetOptionString (o : AbiObject)
  | GetOptionBytes (o : AbiObject)
  | GetOptionInt (o : AbiObject)
  | GetOptionDouble (o : AbiObject)
  | FnReleaseDriver | FnDatabaseInit | FnConnectionCommit | FnConnectionGetInfo | FnConnectionGetObjects
  | FnConnectionGetTableSchema | FnConnectionGetTableTypes | FnConnectionInit | FnConnectionReadPartition | FnConnectionRollback
  | FnStatementBind | FnStatementBindStream | FnStatementExecuteQuery | FnStatementExecutePartitions | FnStatementGetParameterSchema
  | FnStatementNew | FnStatementPrepare | FnStatementSetSqlQuery | FnStatementSetSubstraitPlan | FnErrorGetDetailCount
  | FnErrorGetDetail | FnErrorFromArrayStream | FnConnectionCancel | FnConnectionGetStatistics | FnConnectionGetStatisticNames
  | FnStatementCancel | FnStatementExecuteSchema.

(** A word of the struct: a data pointer, null here, or a callback. *)
Inductive Word :=
  | NullWord
  | OtherWord (bits : Z)
  | FnWord (f : EntryPoint).

(** The fields of [AdbcDriver], in order. *)
Definition AdbcDriver : list String.string :=
  ["private_data"; "private_manager"; "release"; "DatabaseInit";
   "DatabaseNew"; "DatabaseSetOption"; "DatabaseRelease"; "ConnectionCommit";
   "ConnectionGetInfo"; "ConnectionGetObjects"; "ConnectionGetTableSchema"; "ConnectionGetTableTypes";
   "ConnectionInit"; "ConnectionNew"; "ConnectionSetOption"; "ConnectionReadPartition";
   "ConnectionRelease"; "ConnectionRollback"; "StatementBind"; "StatementBindStream";
   "StatementExecuteQuery"; "StatementExecutePartitions"; "StatementGetParameterSchema"; "StatementNew";
   "StatementPrepare"; "StatementRelease"; "StatementSetOption"; "StatementSetSqlQuery";
   "StatementSetSubstraitPlan"; "ErrorGetDetailCount"; "ErrorGetDetail"; "ErrorFromArrayStream";
   "DatabaseGetOption"; "DatabaseGetOptionBytes"; "DatabaseGetOptionDouble"; "DatabaseGetOptionInt";
   "DatabaseSetOptionBytes"; "DatabaseSetOptionDouble"; "DatabaseSetOptionInt"; "ConnectionCancel";
   "ConnectionGetOption"; "ConnectionGetOptionBytes"; "ConnectionGetOptionDouble"; "ConnectionGetOptionInt";
   "ConnectionGetStatistics"; "ConnectionGetStatisticNames"; "ConnectionSetOptionBytes"; "ConnectionSetOptionDouble";
   "ConnectionSetOptionInt"; "StatementCancel"; "StatementExecuteSchema"; "StatementGetOption";
   "StatementGetOptionBytes"; "StatementGetOptionDouble"; "StatementGetOptionInt"; "StatementSetOptionBytes";
   "StatementSetOptionDouble"; "StatementSetOptionInt"]%string.

(** The value [vtable] gives each field. *)
Definition vtable_entry (field : String.string) : Word :=
  if decide (field = "release"%string) then FnWord FnReleaseDriver else
  if decide (field = "DatabaseInit"%string) then FnWord FnDatabaseInit else
  if decide (field = "DatabaseNew"%string) then FnWord (NewHandle ADatabase) else
  if decide (field = "DatabaseSetOption"%string) then FnWord (SetOptionString ADatabase) else
  if decide (field = "DatabaseRelease"%string) then FnWord (ReleaseHandle ADatabase) else
  if decide (field = "ConnectionCommit"%string) then FnWord FnConnectionCommit else
  if decide (field = "ConnectionGetInfo"%string) then FnWord FnConnectionGetInfo else
  if decide (field = "ConnectionGetObjects"%string) then FnWord FnConnectionGetObjects else
  if decide (field = "ConnectionGetTableSchema"%string) then FnWord FnConnectionGetTableSchema else
  if decide (field = "ConnectionGetTableTypes"%string) then FnWord FnConnectionGetTableTypes else
  if decide (field = "ConnectionInit"%string) then FnWord FnConnectionInit else
  if decide (field = "ConnectionNew"%string) then FnWord (NewHandle AConnection) else
  if decide (field = "ConnectionSetOption"%string) then FnWord (SetOptionString AConnection) else
  if decide (field = "ConnectionReadPartition"%string) then FnWord FnConnectionReadPartition else
  if decide (field = "ConnectionRelease"%string) then FnWord (ReleaseHandle AConnection) else
  if decide (field = "ConnectionRollback"%string) then FnWord FnConnectionRollback else
  if decide (field = "StatementBind"%string) then FnWord FnStatementBind else
  if decide (field = "StatementBindStream"%string) then FnWord FnStatementBindStream else
  if decide (field = "StatementExecuteQuery"%string) then FnWord FnStatementExecuteQuery else
  if decide (field = "StatementExecutePartitions"%string) then FnWord FnStatementExecutePartitions else
  if decide (field = "StatementGetParameterSchema"%string) then FnWord FnStatementGetParameterSchema else
  if decide (field = "StatementNew"%string) then FnWord FnStatementNew else
  if decide (field = "StatementPrepare"%string) then FnWord FnStatementPrepare else
  if decide (field = "StatementRelease"%string) then FnWord (ReleaseHandle AStatement) else
  if decide (field = "StatementSetOption"%string) then FnWord (SetOptionString AStatement) else
  if decide (field = "StatementSetSqlQuery"%string) then FnWord FnStatementSetSqlQuery else
  if decide (field = "StatementSetSubstraitPlan"%string) then FnWord FnStatementSetSubstraitPlan else
  if decide (field = "ErrorGetDetailCount"%string) then FnWord FnErrorGetDetailCount else
  if decide (field = "ErrorGetDetail"%string) then FnWord FnErrorGetDetail else
  if decide (field = "ErrorFromArrayStream"%string) then FnWord FnErrorFromArrayStream else
  if decide (field = "DatabaseGetOption"%string) then FnWord (GetOptionString ADatabase) else
  if decide (field = "DatabaseGetOptionBytes"%string) then FnWord (GetOptionBytes ADatabase) else
  if decide (field = "DatabaseGetOptionDouble"%string) then FnWord (GetOptionDouble ADatabase) else
  if decide (field = "DatabaseGetOptionInt"%string) then FnWord (GetOptionInt ADatabase) else
  if decide (field = "DatabaseSetOptionBytes"%string) then FnWord (SetOptionBytes ADatabase) else
  if decide (field = "DatabaseSetOptionDouble"%string) then FnWord (SetOptionDouble ADatabase) else
  if decide (field = "DatabaseSetOptionInt"%string) then FnWord (SetOptionInt ADatabase) else
  if decide (field = "ConnectionCancel"%string) then FnWord FnConnectionCancel else
  if decide (field = "ConnectionGetOption"%string) then FnWord (GetOptionString AConnection) else
  if decide (field = "ConnectionGetOptionBytes"%string) then FnWord (GetOptionBytes AConnection) else
  if decide (field = "ConnectionGetOptionDouble"%string) then FnWord (GetOptionDouble AConnection) else
  if decide (field = "ConnectionGetOptionInt"%string) then FnWord (GetOptionInt AConnection) else
  if decide (field = "ConnectionGetStatistics"%string) then FnWord FnConnectionGetStatistics else
  if decide (field = "ConnectionGetStatisticNames"%string) then FnWord FnConnectionGetStatisticNames else
  if decide (field = "ConnectionSetOptionBytes"%string) then FnWord (SetOptionBytes AConnection) else
  if decide (field = "ConnectionSetOptionDouble"%string) then FnWord (SetOptionDouble AConnection) else
  if decide (field = "ConnectionSetOptionInt"%string) then FnWord (SetOptionInt AConnection) else
  if decide (field = "StatementCancel"%string) then FnWord FnStatementCancel else
  if decide (field = "StatementExecuteSchema"%string) then FnWord FnStatementExecuteSchema else
  if decide (field = "StatementGetOption"%string) then FnWord (GetOptionString AStatement) else
  if decide (field = "StatementGetOptionBytes"%string) then FnWord (GetOptionBytes AStatement) else
  if decide (field = "StatementGetOptionDouble"%string) then FnWord (GetOptionDouble AStatement) else
  if decide (field = "StatementGetOptionInt"%string) then FnWord (GetOptionInt AStatement) else
  if decide (field = "StatementSetOptionBytes"%string) then FnWord (SetOptionBytes AStatement) else
  if decide (field = "StatementSetOptionDouble"%string) then FnWord (SetOptionDouble AStatement) else
  if decide (field = "StatementSetOptionInt"%string) then FnWord (SetOptionInt AStatement) else
  NullWord.

Definition vtable : list Word := map vtable_entry AdbcDriver.

(** [offset_of!(AdbcDriver, ErrorGetDetailCount)], in words. *)
Definition words_before (field : String.string) : nat :=
  default 0 (fst <$> list_find (fun f => f = field) AdbcDriver).

Definition ADBC_DRIVER_1_0_0_WORDS : nat := words_before "ErrorGetDetailCount".

(** Copying [words] to the start of an allocation. *)
Definition write_words (memory words : list Word) : option (list Word) :=
  if decide (length words <= length memory) then Some (words ++ drop (length words) memory) else None.

Definition init (version : Z) (driver : option (list Word)) : option (option (list Word) * Result unit) :=
  match driver with
  | None => Some (None, Err (invalid_argument [Lit "driver must not be null"]))
  | Some memory =>
      if decide (version = ABI_VERSION_1_1_0) then
        memory ← write_words memory vtable; Some (Some memory, Ok tt)
      else if decide (version = ADBC_VERSION_1_0_0) then
        memory ← write_words memory (take ADBC_DRIVER_1_0_0_WORDS vtable); Some (Some memory, Ok tt)
      else Some (Some memory, Err (err
             [Lit "unsupported ADBC version "; DispZ version; Lit "; this driver implements ";
              DispZ ADBC_VERSION_1_0_0; Lit " and "; DispZ ABI_VERSION_1_1_0] NotImplemented))
  end.

(** [release_driver]: the release callback is taken out of the struct. *)
Definition release_driver (driver : option (list Word)) : option (option (list Word) * Result unit) :=
  match driver with
  | None => Some (None, Ok tt)
  | Some memory =>
      let i := words_before "release" in
      match memory !! i with
      | None => None
      | Some NullWord => Some (driver, Err (err [Lit "driver is already released"] InvalidState))
      | Some _ => Some (Some (<[i := NullWord]> memory), Ok tt)
      end
  end.

(** ** Properties *)

(** The words a caller of a revision allocates: the sizes of the C header, 232 and
    464 bytes, in 8-byte words. *)
Definition allocated (version : Z) : option nat :=
  if decide (version = ADBC_VERSION_1_0_0) then Some 29
  else if decide (version = ABI_VERSION_1_1_0) then Some 58 else None.

Lemma vtable_length : length vtable = 58.
Proof. by vm_compute. Qed.

Lemma vtable_prefix : length (take ADBC_DRIVER_1_0_0_WORDS vtable) = 29.
Proof. by vm_compute. Qed.

Lemma write_words_fits memory words :
  length words <= length memory -> write_words memory words = Some (words ++ drop (length words) memory).
Proof. intros H. unfold write_words. by rewrite decide_True. Qed.

(** Loading the driver writes exactly what the caller allocated.  For an
    allocation of the size the header gives the requested revision, or a larger
    one, every field of that revision is filled from the table, and nothing after
    it is touched; a revision the driver does not know is refused as not
    implemented, which tells the caller to retry lower, and a null struct as a bad
    argument, in both cases without writing.  Every field but the two data
    pointers has an entry point.  The struct can then be released once: a second
    release is refused. *)
Theorem init_respects_revision version (memory : list Word) :
  (forall n, allocated version = Some n -> n <= length memory) ->
  match allocated version with
  | Some n =>
      exists memory', init version (Some memory) = Some (Some memory', Ok tt) /\
        length memory' = length memory /\
        (forall i, i < n -> memory' !! i = vtable !! i) /\ (forall i, n <= i -> memory' !! i = memory !! i) /\
        (forall i field, i < n -> AdbcDriver !! i = Some field ->
           field <> "private_data"%string -> field <> "private_manager"%string ->
           exists f, memory' !! i = Some (FnWord f)) /\
        exists released, release_driver (Some memory') = Some (Some released, Ok tt) /\
          exists e, release_driver (Some released) = Some (Some released, Err e) /\ status e = InvalidState
  | None => exists e, init version (Some memory) = Some (Some memory, Err e) /\ status e = NotImplemented
  end /\
  exists e, init version None = Some (None, Err e) /\ status e = InvalidArguments.
Proof.
  intros Hlen. split; [|by eexists].
  assert (Hall : forall n, n <= 58 -> 29 <= n -> n <= length memory ->
    exists memory', write_words memory (take n vtable) = Some memory' /\ length memory' = length memory /\
      (forall i, i < n -> memory' !! i = vtable !! i) /\ (forall i, n <= i -> memory' !! i = memory !! i)).
  { intros n Hn _ Hm. exists (take n vtable ++ drop n memory).
    assert (length (take n vtable) = n) as Hl by (rewrite length_take, vtable_length; lia).
    rewrite write_words_fits by lia. rewrite Hl. split; [done|].
    split; [rewrite length_app, length_drop, Hl; lia|]. split; intros i Hi.
    - rewrite lookup_app_l by lia. by rewrite lookup_take_lt.
    - rewrite lookup_app_r by lia. rewrite Hl, lookup_drop. f_equal. lia. }
  assert (Hent : forall i field, i < 58 -> AdbcDriver !! i = Some field ->
    field <> "private_data"%string -> field <> "private_manager"%string ->
    exists f, vtable !! i = Some (FnWord f)).
  { intros i field Hi Ef H1 H2. unfold vtable. rewrite list_lookup_fmap, Ef. cbn [fmap option_fmap option_map].
    assert (Hc : forallb (fun f => bool_decide (f = "private_data"%string) || bool_decide (f = "private_manager"%string)
                   || match vtable_entry f with FnWord _ => true | _ => false end) AdbcDriver = true) by (by vm_compute).
    rewrite forallb_forall in Hc. specialize (Hc field (proj1 (list_elem_of_In _ _) (list_elem_of_lookup_2 _ _ _ Ef))).
    rewrite !bool_decide_false in Hc by done. destruct (vtable_entry field); [done..|by eexists]. }
  assert (Hrel : forall memory' n, 29 <= n -> (forall i, i < n -> memory' !! i = vtable !! i) ->
    exists released, release_driver (Some memory') = Some (Some released, Ok tt) /\
      exists e, release_driver (Some released) = Some (Some released, Err e) /\ status e = InvalidState).
  { intros memory' n Hn Hv. unfold release_driver.
    assert (words_before "release" = 2) as -> by (by vm_compute). rewrite Hv by lia.
    assert (vtable !! 2 = Some (FnWord FnReleaseDriver)) as E by (by vm_compute). rewrite E.
    eexists. split; [done|]. rewrite list_lookup_insert_eq by (apply lookup_lt_is_Some; rewrite Hv, E by lia; by eexists).
    by eexists. }
  unfold allocated in *. unfold init. destruct (decide (version = ADBC_VERSION_1_0_0)) as [->|Hv].
  - rewrite decide_False by done. specialize (Hlen 29 eq_refl).
    destruct (Hall 29 ltac:(lia) ltac:(lia) Hlen) as (m & E & Hl & H1 & H2).
    assert (ADBC_DRIVER_1_0_0_WORDS = 29) as -> by (by vm_compute).
    rewrite E. cbn [mbind option_bind]. exists m. split; [done|]. split; [done|]. split; [done|]. split; [done|].
    split; [|by apply (Hrel m 29)]. intros i field Hi Ef Hd Hm. rewrite H1 by done. apply (Hent i field); [lia|done..].
  - destruct (decide (version = ABI_VERSION_1_1_0)) as [->|Hv'].
    + specialize (Hlen 58 eq_refl). destruct (Hall 58 ltac:(lia) ltac:(lia) Hlen) as (m & E & Hl & H1 & H2).
      rewrite take_ge in E by (rewrite vtable_length; lia).
      rewrite E. cbn [mbind option_bind]. exists m. split; [done|]. split; [done|]. split; [done|]. split; [done|].
      split; [|apply (Hrel m 58); [lia|done]]. intros i field Hi Ef Hd Hm. rewrite H1 by done. by apply (Hent i field).
    + by eexists.
Qed.

Lemma init_respects_revision_witness :
  exists memory', init ADBC_VERSION_1_0_0 (Some (replicate 30 (OtherWord 7))) = Some (Some memory', Ok tt) /\
    memory' !! 29 = Some (OtherWord 7) /\ memory' !! 3 = Some (FnWord FnDatabaseInit).
Proof.
  destruct (init_respects_revision ADBC_VERSION_1_0_0 (replicate 30 (OtherWord 7))) as ((m & E & _ & H1 & H2 & _) & _).
  - intros n Hn. assert (n = 29) as -> by (vm_compute in Hn; congruence). rewrite length_replicate. lia.
  - exists m. split; [exact E|]. split; [rewrite H2 by lia; reflexivity | rewrite H1 by lia; reflexivity].
Defined.
