(* ===== verification/ObjectsExact.v ===== *)
(** * [get_objects], from the rows of [INFORMATION_SCHEMA] to the batch returned

    The composition of the metadata handler, the pushed-down queries, the
    assembly of the tree and its nested rendering: against a server that answers
    the handler's own statements, the one batch returned is the direct rendering of
    the database's metadata under the caller's filters. *)

From stdpp Require Import gmap.
From S2P Require Import Arrow Decode Calendar Bind DecodeFacts BindFacts Partitions Nested Objects ObjectsFacts ObjectsTree Statistics Bridge.
From S2P Require Import Prelude RustStr RustNum ErrorModel Options Staleness Config Runtime Sql.
From S2P Require Import Stream Txn Client Wp Metadata Connection TxnSystem StatementState Ingest Statement Introspect.

(** ** The levels a depth asks for *)

(** The rows of the tables a depth queries. *)
Definition rows_at (depth : ObjectDepth) (rows : ObjectRows) : ObjectRows :=
  mkObjectRows (r_schemata rows)
    (if populate_tables depth then r_tables rows else [])
    (if populate_columns depth then r_columns rows else [])
    (if populate_columns depth then r_constraints rows else [])
    (if populate_columns depth then r_keys rows else [])
    (if populate_columns depth then r_refs rows else []).

Lemma columns_imply_tables depth : populate_columns depth = true -> populate_tables depth = true.
Proof. by destruct depth. Qed.

(** The rows a depth leaves out do not show at that depth. *)
Lemma catalog_row_at depth catalog rows filters :
  catalog_row depth catalog (scan_objects (rows_at depth rows) filters) =
  catalog_row depth catalog (scan_objects rows filters).
Proof.
  unfold catalog_row. case_decide; [done|]. f_equal. unfold scan_objects. cbn [r_schemata r_tables rows_at].
  rewrite !map_map. apply map_ext. intros schema. unfold schema_cell. cbn [ds_name ds_tables].
  destruct (populate_tables depth) eqn:Et; [|done]. do 4 f_equal. rewrite !map_map. apply map_ext. intros t.
  unfold table_cell, scan_table. cbn [tb_name tb_type tb_columns tb_constraints].
  destruct (populate_columns depth) eqn:Ec; [|done]. cbn [rows_at r_columns]. rewrite !Ec.
  do 5 f_equal. unfold rows_at. by rewrite Ec, Et.
Qed.

Section Exact.
Context {SC : SpannerClient} {AH : ArrowHost (SC := SC)} {CH : Chrono} {CO : Codec}.
Context {W : Wire (SC := SC)} {SD : Serde (SC := SC)}.
Context {SK : StatisticKeys} (env : Env).

#[local] Existing Instance arrow_batches.
#[local] Existing Instance arrow_formats.

(** ** The server *)

(** On the snapshot [t] the server answers [st] with a result that materialises as
    [b], in time and without a cancel. *)
Definition answers (t : RoTxn) (st : SpannerSql) (b : Arrow.Batch) : Prop :=
  forall history, exists rs,
    env history ResultSet (ExecuteQuery (inr t) st) = mkReply (inl rs) false false /\
    result_batch NanosecondsErrorOnOverflow rs = Ok b.

(** The same of a statement the depth may leave out. *)
Definition answers_opt (t : RoTxn) (st : option SpannerSql) (b : option Arrow.Batch) : Prop :=
  match st, b with
  | Some st, Some b => answers t st b
  | None, None => True
  | _, _ => False
  end.

(** The server holds the metadata [rows] at the snapshot [t]: it answers each of the
    statements of a [get_objects] with the rows of that table its own [LIKE] keeps
    for the parameters bound to it. *)
Definition serves (config : SharedConfig) (t : RoTxn) (depth : ObjectDepth) (filters : ObjectFilters)
    (rows : ObjectRows) : Prop :=
  exists fetched keep_schema keep_table keep_column,
    (forall s, keep_schema s = true <-> server_keeps (of_db_schema filters) s) /\
    (forall s, keep_table s = true <-> server_keeps (of_table_name filters) s) /\
    (forall s, keep_column s = true <-> server_keeps (of_column_name filters) s) /\
    rows_of_batches fetched = Ok (pushed_down keep_schema keep_table keep_column (rows_at depth rows)) /\
    let '(schemata, (tables, columns, constraints, key_columns, referential)) :=
      objects_statements config depth filters in
    answers t schemata (ob_schemata fetched) /\ answers_opt t tables (ob_tables fetched) /\
    answers_opt t columns (ob_columns fetched) /\ answers_opt t constraints (ob_constraints fetched) /\
    answers_opt t key_columns (ob_key_columns fetched) /\ answers_opt t referential (ob_referential fetched).

(** ** The run *)

(** With an unlatched signal, [m] returns [a] and leaves the signal alone. *)
Definition returns {A} (slot : positive) (m : M A) (a : A) : Prop :=
  forall w, slot_cancelled (w_slots w) slot = false ->
  exists w', m w = Some (w', Ok a) /\ slot_cancelled (w_slots w') slot = false.

Lemma returns_ret {A} slot (a : A) : returns slot (mret a) a.
Proof. intros w H. by exists w. Qed.

Lemma returns_lift {A} slot (a : A) : returns slot (lift (Ok a)) a.
Proof. intros w H. by exists w. Qed.

Lemma returns_bind {A B} slot (m : M A) (f : A -> M B) a b :
  returns slot m a -> returns slot (f a) b -> returns slot (m ≫= f) b.
Proof.
  intros Hm Hf w Hw. destruct (Hm w Hw) as (w1 & E & Hw1). destruct (Hf w1 Hw1) as (w2 & E2 & Hw2).
  exists w2. split; [|done]. unfold mbind, M_bind. by rewrite E.
Qed.

Lemma returns_perform_then {A B} slot limit opt (c : Call A) (f : A + SpannerError -> Result B) a b :
  (forall history, env history A c = mkReply (inl a) false false) -> f (inl a) = Ok b ->
  returns slot (perform_then env slot limit opt c f) b.
Proof.
  intros He Hf w Hw. unfold perform_then. rewrite Hw, He. unfold with_timeout. cbn [r_cancelled r_expired r_outcome].
  rewrite Hf. destruct limit; (eexists; split; [reflexivity|exact Hw]).
Qed.

Lemma returns_query slot timeout t st b : answers t st b -> returns slot (query_txn env slot timeout t st) b.
Proof.
  intros Ha w Hw. destruct (Ha (w_trace w)) as (rs & He & Hb). unfold query_txn, perform_then. rewrite Hw, He.
  unfold with_timeout, and_then. cbn [r_cancelled r_expired r_outcome outcome mbind Result_mbind]. rewrite Hb.
  destruct timeout; (eexists; split; [reflexivity|exact Hw]).
Qed.

Lemma returns_query_opt slot timeout t st b :
  answers_opt t st b -> returns slot (query_txn_opt env slot timeout t st) b.
Proof.
  destruct st as [st|], b as [b|]; cbn [answers_opt]; try done; intros Ha.
  - eapply returns_bind; [by apply returns_query|apply returns_ret].
  - apply returns_ret.
Qed.

Lemma collect_objects_exact slot config depth filters rows bound t :
  depth <> DepthCatalogs -> metadata_bound config = Ok bound ->
  (forall history, env history RoTxn (BuildReadOnly bound) = mkReply (inl t) false false) ->
  serves config t depth filters rows ->
  returns slot (collect_objects env slot config depth filters) (scan_objects (rows_at depth rows) filters).
Proof.
  intros Hd Hb Ht (fetched & ks & kt & kc & Hs & Htb & Hc & Hrows & Hst).
  unfold collect_objects. rewrite decide_False by done.
  destruct (objects_statements config depth filters) as [st0 [[[[st1 st2] st3] st4] st5]].
  destruct Hst as (H0 & H1 & H2 & H3 & H4 & H5).
  eapply returns_bind; [rewrite Hb; apply returns_lift|].
  eapply returns_bind; [eapply returns_perform_then; [exact Ht|reflexivity]|].
  eapply returns_bind; [by apply returns_query|].
  do 5 (eapply returns_bind; [by eapply returns_query_opt|]).
  assert (mkObjectBatches (ob_schemata fetched) (ob_tables fetched) (ob_columns fetched) (ob_constraints fetched)
    (ob_key_columns fetched) (ob_referential fetched) = fetched) as -> by (by destruct fetched).
  rewrite assemble_scan, Hrows. cbn [fmap Result_fmap]. rewrite scan_pushed_down by done. apply returns_lift.
Qed.

Lemma begin_operation_uncancelled w slot :
  slot_cancelled (w_slots (mkWorld (slot_step (w_slots w) (BeginOperation slot)) (w_cells w) (w_txn w) (w_trace w)))
    slot = false.
Proof.
  unfold slot_cancelled, slot_step, signal_new, is_latched. cbn. rewrite lookup_insert_eq. by rewrite lookup_insert_eq.
Qed.

(** C23: what [get_objects] returns is the database's metadata.  Against a server
    that holds the rows [rows] of [INFORMATION_SCHEMA] at the snapshot it gives, and
    answers each statement it is sent with the rows its own [LIKE] keeps for the
    bound patterns, [get_objects] returns one batch: the connection's catalog, and
    the tree of all of [rows] under the ADBC filters, rendered directly, down to the
    depth asked for.  Nothing is lost to the pushed-down filters, to the grouping
    into maps or to the flattening into offsets; foreign keys resolve into
    filtered-out tables too.  At catalog depth no row is needed.  The server
    is one whose rows the driver's readers read, so the text of a query and the order
    of its columns are outside this statement. *)
Theorem get_objects_exact (self : Connection) (depth : ObjectDepth) (catalog_pattern : option rstr)
    (filters : ObjectFilters) (rows : ObjectRows) (bound : option TimestampBound) (t : RoTxn) (w : World) :
  catalog_excluded self catalog_pattern = false ->
  (depth <> DepthCatalogs ->
     metadata_bound (c_config self) = Ok bound /\
     (forall history, env history RoTxn (BuildReadOnly bound) = mkReply (inl t) false false) /\
     serves (c_config self) t depth filters rows /\ levels_fit (scan_objects (rows_at depth rows) filters)) ->
  exists w', get_objects env adbc_objects_schema self depth catalog_pattern filters w =
    Some (w', Ok [Arrow.mkBatch adbc_objects_schema
      [mkArray DUtf8 [CStr (catalog self)];
       mkArray (DList (item_of (DStruct db_schema_schema)))
         [catalog_row depth (catalog self) (scan_objects rows filters)]] 1]).
Proof.
  intros Hcat Hserve.
  assert (exists schemas, returns (c_slot self) (collect_objects env (c_slot self) (c_config self) depth filters) schemas /\
    build adbc_objects_schema depth (catalog self) schemas = Ok (Arrow.mkBatch adbc_objects_schema
      [mkArray DUtf8 [CStr (catalog self)];
       mkArray (DList (item_of (DStruct db_schema_schema)))
         [catalog_row depth (catalog self) (scan_objects rows filters)]] 1)) as (schemas & Hcollect & Hbuild).
  { destruct (decide (depth = DepthCatalogs)) as [->|Hd].
    - exists []. split; [unfold collect_objects; rewrite decide_True by done; apply returns_ret|].
      apply (build_exact DepthCatalogs (catalog self) []). unfold levels_fit. by vm_compute.
    - destruct (Hserve Hd) as (Hb & Ht & Hs & Hfit).
      exists (scan_objects (rows_at depth rows) filters). split; [by eapply collect_objects_exact|].
      rewrite build_exact by done. by rewrite catalog_row_at. }
  destruct (Hcollect _ (begin_operation_uncancelled w (c_slot self))) as (w2 & E & _).
  exists w2. unfold get_objects. rewrite Hcat. unfold mbind, M_bind. cbn [begin_operation]. unfold begin_operation.
  rewrite E. unfold lift. by rewrite Hbuild.
Qed.

End Exact.

(** ** A server with two tables *)

(** Results without metadata, whose columns are strings. *)
Definition example_host : ArrowHost (SC := example_client) := {|
  md_columns _ := ([], []);
  type_view _ := mkTy TcString None None;
  memory_size _ := 0%Z |}.

Definition string_rows (rows : list (list rstr)) : ResultSet (SC := example_client) :=
  mkResultSet (SC := example_client) None (map (fun r => inl (map VString r)) rows).

(** It is asked for the schemas, and for the tables whose name is like [s%]. *)
Definition metadata_env : Env (SC := example_client) := fun _ A c =>
  let ok {X} (x : X) : Reply (SC := example_client) X := mkReply (SC := example_client) (inl x) false false in
  match c in Call A return Reply (SC := example_client) A with
  | ExecuteQuery _ st =>
      ok (if starts_with (str "SELECT SCHEMA_NAME") (sb_sql (SC := example_client) st) then string_rows [[[]]]
          else string_rows [[[]; str "singers"; str "BASE TABLE"]])
  | BuildReadOnly _ => ok (7 : RoTxn (SpannerClient := example_client))
  | _ => mkReply (SC := example_client) (inr (mkSpannerError None (str "unreachable"))) false false
  end.

Definition two_tables : ObjectRows :=
  mkObjectRows [[]]
    [([], mkTableRow (str "singers") (str "BASE TABLE")); ([], mkTableRow (str "albums") (str "BASE TABLE"))]
    [] [] [] [].

Definition starting_with_s : ObjectFilters := mkObjectFilters None (Some (str "s%")) None None.

Definition materialised (rows : list (list rstr)) : Arrow.Batch :=
  match result_batch (AH := example_host) (CH := Gregorian) (CO := example_codec) (W := example_wire)
          (SD := example_serde) NanosecondsErrorOnOverflow (string_rows rows) with
  | Ok b => b
  | Err _ => Arrow.mkBatch [] [] 0
  end.

Lemma get_objects_exact_witness :
  exists w', get_objects (AH := example_host) (CH := Gregorian) (CO := example_codec) (W := example_wire)
      (SD := example_serde) metadata_env adbc_objects_schema TxnSystem.example_connection DepthTables (Some (str "%"))
      starting_with_s (TxnSystem.example_world TxnState_new) =
    Some (w', Ok [Arrow.mkBatch adbc_objects_schema
      [mkArray DUtf8 [CStr (str "d")];
       mkArray (DList (item_of (DStruct db_schema_schema)))
         [CList [CStruct [CStr []; CList [CStruct [CStr (str "singers"); CStr (str "BASE TABLE"); CNull; CNull]]]]]] 1]).
Proof.
  apply (get_objects_exact (AH := example_host) (CH := Gregorian) (CO := example_codec) (W := example_wire)
    (SD := example_serde) metadata_env TxnSystem.example_connection DepthTables (Some (str "%")) starting_with_s
    two_tables None 7 (TxnSystem.example_world TxnState_new)); [vm_compute; reflexivity|].
  intros _. split; [vm_compute; reflexivity|]. split; [reflexivity|]. split.
  - exists (mkObjectBatches (materialised [[[]]]) (Some (materialised [[[]; str "singers"; str "BASE TABLE"]])) None None None None),
      (fun _ => true), (matches (str "s%")), (fun _ => true).
    split; [split; intros; [exact I|reflexivity]|]. split; [intros t; exact (iff_sym (sql_like_pattern_exact (str "s%") t))|].
    split; [split; intros; [exact I|reflexivity]|]. split; [vm_compute; reflexivity|].
    cbn -[str starts_with]. repeat split.
    all: intros history; eexists; split; [reflexivity|vm_compute; reflexivity].
  - unfold levels_fit. vm_compute. repeat split; discriminate.
Defined.
