(* ===== verification/QueryExact.v ===== *)
(** * A query, from the rows the server streams to the batches the caller reads

    The composition of the handlers, the chunked reader ([QueryRead]) and the
    decoding of a chunk ([DecodeFacts]): what a caller that reads a query's stream to
    its end has been given. *)

From S2P Require Import Arrow Decode Calendar Bind DecodeFacts BindFacts Partitions Statistics Bridge ObjectsExact.
From S2P Require Import Prelude RustStr RustNum ErrorModel Options Staleness Config Runtime Sql.
From S2P Require Import Stream Txn Client Wp Metadata TxnSystem StatementState Ingest Statement StatementFacts QueryRead.

(** ** The Arrow data *)

(** Column [i] of a batch. *)
Definition column_cells (i : nat) (b : Arrow.Batch) : list Cell :=
  match b_columns b !! i with Some a => a_cells a | None => [] end.

Section Exact.
Context {SC : SpannerClient} {AH : ArrowHost (SC := SC)} {CH : Chrono} {CO : Codec}.
Context {W : Wire (SC := SC)} {SD : Serde (SC := SC)} (env : Env).

#[local] Existing Instance arrow_batches.
#[local] Existing Instance arrow_formats.

(** The schema a result set announces. *)
Definition result_schema (precision : TimestampPrecision) (rs : ResultSet) : Result (list Arrow.Field) :=
  Arrow.build_schema precision (md_columns <$> rs_metadata rs) (head (rows_of (rs_items rs))).

(** [batches] are [rows], all of them: in non-empty batches of at most [size] rows
    under one schema, each column of which is, over all the batches, the column of
    the wire rows decoded cell by cell. *)
Record delivers (size : Z) (rows : list Row) (s : list Arrow.Field) (batches : list Arrow.Batch) : Prop := mkDelivers {
  delivers_batches : Forall (fun b => b_fields b = s /\ (1 <= Z.of_nat (Arrow.b_rows b) <= size)%Z) batches;
  delivers_rows : sum_list_with Arrow.b_rows batches = length rows;
  delivers_cells : forall i f, s !! i = Some f ->
    column_decodes (f_type f) i rows (concat (map (column_cells i) batches));
}.

(** The chunks of a schema converted one by one. *)
Lemma chunks_converted s chunks batches :
  Forall (fun f => result_type (f_type f) = true) s ->
  Forall2 (fun c b => Decode.build_batch s c = Ok b) chunks batches ->
  Forall2 (fun c b => b_fields b = s /\ Arrow.b_rows b = length c) chunks batches /\
  forall i f, s !! i = Some f ->
    column_decodes (f_type f) i (concat chunks) (concat (map (column_cells i) batches)).
Proof.
  intros Hs H. induction H as [|c b chunks batches Hb _ [IH1 IH2]]; [split; [constructor|intros; constructor]|].
  destruct (build_batch_Ok _ _ _ Hs Hb) as (Hf & Hr & Hlen & Hk). split; [by constructor|].
  intros i f Hi. cbn [concat map]. apply Forall2_app; [|by apply IH2]. unfold column_cells.
  destruct (b_columns b !! i) as [a|] eqn:Ea; [by apply (Hk i f a)|].
  apply lookup_ge_None in Ea. apply lookup_lt_Some in Hi. lia.
Qed.

Lemma converted_delivers size rows s batches :
  Forall (fun f => result_type (f_type f) = true) s -> converted size rows s batches -> delivers size rows s batches.
Proof.
  intros Ht (chunks & Hc & Hcap & Hb). destruct (chunks_converted _ _ _ Ht Hb) as [Hrows Hcells]. split.
  - clear -Hcap Hrows. induction Hrows as [|c b chunks batches [Hf Hr] _ IH]; [constructor|].
    apply Forall_cons in Hcap as [[Hne Hl] Hcap]. constructor; [|by apply IH]. split; [done|].
    rewrite Hr. destruct c; [done|]. cbn in Hl |- *. lia.
  - rewrite <- Hc. clear -Hrows. induction Hrows as [|c b chunks batches [_ Hr] _ IH]; [done|].
    cbn. by rewrite length_app, IH, Hr.
  - intros i f Hi. rewrite <- Hc. by apply Hcells.
Qed.

(** A chunk of rows that decode converts, or has too many list elements, or a
    column of structs without fields. *)
Lemma unconvertible_chunk precision rs s e :
  result_schema precision rs = Ok s -> s <> [] ->
  (forall i f, s !! i = Some f -> exists cells, column_decodes (f_type f) i (rows_of (rs_items rs)) cells) ->
  unconvertible (rs_items rs) s e -> unbuildable s (Err e : Result Arrow.Batch).
Proof.
  intros Hs%build_schema_result Hne Hcells (before & chunk & after & Hr & _ & Hb).
  destruct (build_batch_total s chunk Hs Hne) as [[b Hok]|[name Herr]].
  - intros i f Hi. destruct (Hcells i f Hi) as [cells Hc]. rewrite Hr in Hc.
    apply Forall2_app_inv_l in Hc as (c1 & c2 & _ & Hc & _). apply Forall2_app_inv_l in Hc as (c3 & c4 & Hc & _).
    by exists c3.
  - cbn in Hb. by rewrite Hok in Hb.
  - exists name. cbn in Hb. destruct Herr as [Herr|[Hf Herr]]; rewrite Herr in Hb; injection Hb as ->; [by left|by right].
Qed.

(** C12: what the caller of a query reads is the result set, all of it, or an error.
    Run a query and read its stream to the end, in any environment, with any
    deadlines and cancels: it returns, and if it returns batches then the server
    answered the one [ExecuteQuery] with a result set that was never cut short by
    an error, and the batches deliver it exactly ([delivers]).  An error is never an
    artefact of the driver: if the server's result set is complete, arrives in time,
    and every wire value decodes to the type its column announces, the read
    succeeds, but for a chunk with more list elements than an offset can count and a
    column with a struct type that has no fields, which Arrow cannot build. *)
Theorem query_results_exact (self : Statement) (fuel : nat) (manual_txn : option RoTxn) (b : option TimestampBound)
    (statement : SpannerSql) (w : World) :
  let rep := query_reply env manual_txn b statement w in
  let precision := timestamp_precision (st_config self) in
  (0 < rows_per_batch self)%Z ->
  (forall rs, r_outcome rep = inl rs -> length (rs_items rs) < fuel) ->
  exists w' r, query_all env self fuel manual_txn b statement w = Some (w', r) /\
    (forall s batches, r = Ok (s, batches) ->
       exists rs, r_outcome rep = inl rs /\ first_error (rs_items rs) = None /\ result_schema precision rs = Ok s /\
         delivers (rows_per_batch self) (rows_of (rs_items rs)) s batches) /\
    (forall rs s,
       slot_cancelled (w_slots w) (st_slot self) = false -> pulls_prompt env ->
       rep = mkReply (inl rs) false false -> first_error (rs_items rs) = None ->
       result_schema precision rs = Ok s -> s <> [] ->
       (forall i f, s !! i = Some f -> exists cells, column_decodes (f_type f) i (rows_of (rs_items rs)) cells) ->
       is_Ok r \/ unbuildable s r).
Proof.
  intros rep precision Hbs Hfuel.
  pose proof (query_all_spec env self fuel manual_txn b statement w Hbs Hfuel) as H.
  apply wp_elim in H as (w' & r & E & H). exists w', r. split; [done|]. split.
  - intros s batches ->. destruct H as (rs & Hrs & Hs & He & Hc). exists rs. split_and!; [done..|].
    apply converted_delivers; [exact (build_schema_result _ _ _ _ Hs)|done].
  - intros rs s Hw Hp Hrep He Hs Hne Hcells. destruct r as [[s' batches]|e]; [left; by eexists|right].
    specialize (H rs s Hw Hp Hrep He Hs). apply unconvertible_chunk with (precision := precision) in H as (name & [[= ->]|[Hf [= ->]]]); eauto.
    + exists name. by left.
    + exists name. by right.
Qed.

(** C13: a query executed for many bound rows delivers every row of every result,
    in order.  Bind two or more rows to a query, execute it and read the stream to
    its end, in any environment: enough fuel exists, and if batches are returned
    then the only queries made were one statement per bound row, in the rows'
    order, all in one read-only transaction; each was answered by a result set that
    no error cut short, the empty ones included; the schema is the first answer's,
    and the batches deliver the rows of all the answers, one after the other,
    exactly. *)
Theorem bound_query_results_exact (self : Statement) (q : rstr) (gs : list (list rstr * RecordBatch)) (w : World) :
  let precision := timestamp_precision (st_config self) in
  (0 < rows_per_batch self)%Z -> bound_groups self q = Ok gs -> 1 < sum_list_with (fun g => num_rows g.2) gs ->
  (exists n, forall fuel, n <= fuel -> is_Some (bound_query_all env self q fuel w)) /\
  forall fuel w' s batches, bound_query_all env self q fuel w = Some (w', Ok (s, batches)) ->
  exists t first answers evs,
    w_trace w' = w_trace w ++ evs /\
    bound_statements self q gs = map (fun a => Ok a.1) (first :: answers) /\
    queries evs = map (fun a => (inr t, a.1, inl a.2)) (first :: answers) /\
    Forall (fun a => first_error (rs_items a.2) = None) (first :: answers) /\
    result_schema precision first.2 = Ok s /\
    delivers (rows_per_batch self) (rows_answered (first :: answers)) s batches.
Proof.
  intros precision Hbs Hgs Hrows. split; [by eapply bound_query_returns|]. intros fuel w' s batches E.
  pose proof (bound_query_adds env self q gs fuel Hbs Hgs Hrows w) as H. unfold wlp in H. rewrite E in H.
  destruct H as (evs & Hev & t & answers & Hst & Hq & Hc & Hb & Hs). destruct answers as [|first answers].
  - exfalso. assert (length (bound_statements self q gs) = 0) as Hl by (by rewrite <- Hst).
    rewrite <- pending_bound_statements, <- statements_left_pending in Hl. unfold statements_left in Hl. cbn in Hl.
    destruct gs as [|[names b] gs]; cbn in *; [lia|]. rewrite drop_0 in Hl. lia.
  - exists t, first, answers, evs. split; [done|]. split; [by symmetry|]. do 2 (split; [done|]). specialize (Hs _ eq_refl).
    split; [done|]. apply converted_delivers; [exact (build_schema_result _ _ _ _ Hs)|done].
Qed.

End Exact.

(** ** Three rows in batches of two *)

(** The server sends three rows, and answers every pull. *)
Definition three_rows : ResultSet (SC := example_client) :=
  string_rows [[str "1"; str "a"]; [str "2"; []]; [str "3"; str "c"]].

Definition query_env : Env (SC := example_client) := fun _ A c =>
  match c in Call A return Reply (SC := example_client) A with
  | ExecuteQuery _ _ => mkReply (SC := example_client) (inl three_rows) false false
  | NextChunk => mkReply (SC := example_client) (inl tt) false false
  | BuildReadOnly _ => mkReply (SC := example_client) (inl (7 : RoTxn (SpannerClient := example_client))) false false
  | _ => mkReply (SC := example_client) (inr (mkSpannerError None (str "no answer"))) false false
  end.

Definition query_statement : Statement (B := arrow_batches (AH := example_host) (W := example_wire)) :=
  let s := Statement_new (str "projects/p/instances/i/databases/d") (SharedConfig_default (mkCells ∅ ∅)).2 2 in
  with_flags s false false 2 false.

Definition three_rows_fields : list Arrow.Field :=
  match result_schema (AH := example_host) NanosecondsErrorOnOverflow three_rows with Ok s => s | Err _ => [] end.

Lemma query_results_exact_witness :
  exists w' batches,
    query_all (F := arrow_formats (AH := example_host) (CH := Gregorian) (CO := example_codec) (W := example_wire)
        (SD := example_serde)) query_env query_statement 4 None None (builder (SC := example_client) (str "SELECT 1"))
      (TxnSystem.example_world TxnState_new) = Some (w', Ok (three_rows_fields, batches)) /\
    map Arrow.b_rows batches = [2; 1] /\
    column_decodes (CH := Gregorian) (CO := example_codec) DUtf8 1 (rows_of (rs_items three_rows))
      (concat (map (column_cells 1) batches)) /\
    concat (map (column_cells 1) batches) = [CStr (str "a"); CStr []; CStr (str "c")].
Proof.
  destruct (query_results_exact (AH := example_host) (CH := Gregorian) (CO := example_codec) (W := example_wire)
    (SD := example_serde) query_env query_statement 4 None None (builder (SC := example_client) (str "SELECT 1"))
    (TxnSystem.example_world TxnState_new)) as (w' & r & E & Hok & _).
  - by vm_compute.
  - intros rs H. cbn in H. injection H as <-. vm_compute. lia.
  - assert (exists batches, r = Ok (three_rows_fields, batches) /\ map Arrow.b_rows batches = [2; 1] /\
      concat (map (column_cells 1) batches) = [CStr (str "a"); CStr []; CStr (str "c")]) as (batches & -> & Hb & Hc).
    { clear Hok. apply (f_equal (fun o => snd <$> o)) in E. cbn [fmap option_fmap option_map snd] in E.
      vm_compute in E. injection E as <-. eexists. split; [vm_compute; reflexivity|]. split; reflexivity. }
    exists w', batches. split; [exact E|]. split; [exact Hb|]. split; [|exact Hc].
    destruct (Hok _ _ eq_refl) as (rs & Hrs & _ & _ & Hd). cbn in Hrs. injection Hrs as <-.
    apply (delivers_cells _ _ _ _ Hd 1 (Arrow.Field_new (str "col1") DUtf8 true)). vm_compute. reflexivity.
Defined.

(** The same query for two bound rows: six rows, in batches of two and one. *)
Definition bound_batch : Arrow.Batch :=
  Arrow.mkBatch [Arrow.Field_new (str "a") DUtf8 true] [mkArray DUtf8 [CStr (str "x"); CStr (str "y")]] 2.

Definition bound_statement : Statement (B := arrow_batches (AH := example_host) (W := example_wire)) :=
  with_bound query_statement [bound_batch : RecordBatch (Batches := arrow_batches (AH := example_host) (W := example_wire))] None.

Definition run_bound (fuel : nat) :=
  bound_query_all (F := arrow_formats (AH := example_host) (CH := Gregorian) (CO := example_codec) (W := example_wire)
    (SD := example_serde)) query_env bound_statement (str "SELECT @a") fuel (TxnSystem.example_world TxnState_new).

Lemma bound_query_results_exact_witness :
  exists w' s batches first answers,
    run_bound 9 = Some (w', Ok (s, batches)) /\ map Arrow.b_rows batches = [2; 1; 2; 1] /\ length answers = 1 /\
    delivers (CH := Gregorian) (CO := example_codec) 2 (rows_answered (SC := example_client) (first :: answers)) s batches.
Proof.
  assert (exists gs, bound_groups bound_statement (str "SELECT @a") = Ok gs /\ length gs = 1 /\
    sum_list_with (fun g => Arrow.b_rows g.2) gs = 2) as (gs & Hgs & Hl & Hrows)
    by (eexists; split; [vm_compute; reflexivity|split; reflexivity]).
  destruct (bound_query_results_exact (AH := example_host) (CH := Gregorian) (CO := example_codec) (W := example_wire)
    (SD := example_serde) query_env bound_statement (str "SELECT @a") gs (TxnSystem.example_world TxnState_new))
    as [_ H]; [by vm_compute|exact Hgs|cbn; rewrite Hrows; lia|].
  assert (exists w' s batches, run_bound 9 = Some (w', Ok (s, batches)) /\ map Arrow.b_rows batches = [2; 1; 2; 1])
    as (w' & s & batches & E & Hb) by (do 3 eexists; split; [vm_compute; reflexivity|reflexivity]).
  destruct (H 9 w' s batches E) as (t & first & answers & evs & _ & Hst & _ & _ & _ & Hd).
  exists w', s, batches, first, answers. split; [exact E|]. split; [exact Hb|]. split; [|exact Hd].
  apply (f_equal length) in Hst. rewrite length_map in Hst. unfold bound_statements in Hst.
  destruct gs as [|g [|]]; try discriminate Hl. cbn in Hrows. cbn in Hst. rewrite app_nil_r in Hst.
  rewrite length_map, length_seq in Hst. lia.
Defined.
