(* ===== verification/IngestExact.v ===== *)
(** * Bulk ingest, from the bound Arrow data to the data a query reads back

    The composition of the ingest handler ([IngestFacts]), the encoding of cells as
    mutation values ([BindFacts]), the column types of the table it creates
    ([spanner_field_type]) and the reading of a query ([QueryRead], [DecodeFacts]):
    what was ingested is what a later query of the table returns. *)

From S2P Require Import Prelude RustStr RustNum ErrorModel Options Staleness Config Runtime Sql Stream Txn Client Wp Metadata.
From S2P Require Import TxnSystem StatementState Ingest Statement IngestFacts StatementFacts QueryRead.
From S2P Require Import Arrow Decode Calendar Bind DecodeFacts BindFacts Partitions Statistics Bridge ObjectsExact QueryExact.

(** ** Column types *)

(** The DDL text of the columns whose values have a result type; a result type does
    not carry the length of a string. *)
Fixpoint column_text (ty : Ty) : option rstr :=
  let 'mkTy code element _ := ty in
  match code with
  | TcBool => Some (str "BOOL")
  | TcInt64 => Some (str "INT64")
  | TcFloat64 => Some (str "FLOAT64")
  | TcFloat32 => Some (str "FLOAT32")
  | TcTimestamp => Some (str "TIMESTAMP")
  | TcDate => Some (str "DATE")
  | TcString => Some (str "STRING(MAX)")
  | TcBytes => Some (str "BYTES(MAX)")
  | TcNumeric => Some (str "NUMERIC")
  | TcJson => Some (str "JSON")
  | TcArray => match element with
               | Some element => t ← column_text element; Some (str "ARRAY<" ++ t ++ str ">")
               | None => None
               end
  | _ => None
  end.

(** A result type of the column an ingest creates for a field. *)
Definition declared (f : Field) (ty : Ty) : Prop :=
  exists t, spanner_field_type f = Ok t /\ column_text ty = Some t.

Lemma array_text_inj t u : str "ARRAY<" ++ t ++ str ">" = str "ARRAY<" ++ u ++ str ">" -> t = u.
Proof. intros H%app_inv_head. by apply app_inv_tail in H. Qed.

(** A type reads as another when every wire value decodes to the same cell. *)
Definition reads_as `{CH : Chrono} `{CO : Codec} (dt dt' : DataType) : Prop :=
  forall v, decode_cell dt v = decode_cell dt' v.

Section Types.
Context {CH : Chrono} {CO : Codec}.

Abbreviation arrow_type := (Arrow.arrow_type NanosecondsErrorOnOverflow) (only parsing).

(** No struct is created, so none is without fields. *)
Lemma column_text_fields ty : forall t depth dt,
  column_text ty = Some t -> arrow_type ty depth = Ok dt -> fieldless dt = false.
Proof.
  induction ty as [code element fields IH _] using Ty_deep_ind. intros t depth dt Ht Ha.
  cbn [Arrow.arrow_type] in Ha. inv_bind Ha. destruct code; try discriminate Ht; try (by injection Ha as <-).
  cbn [column_text] in Ht. destruct element as [e|]; [|done]. destruct (column_text e) as [u|] eqn:Eu; [|done].
  assert (dt = DUtf8 \/ exists d, arrow_type e (S depth) = Ok d /\ dt = DList (tag_field LIST_ITEM (ty_code e) true d))
    as [->|(d & Hd & ->)]; [|done|].
  { destruct (arrow_type e (S depth)) as [d|]; [|by destruct (ty_code e); simplify_eq/=; left].
    destruct (ty_code e); simplify_eq/=; first [by left | right; by exists d]. }
  unfold tag_field. cbn [fieldless]. rewrite fieldless_field_type. case_decide; cbn [f_type]; by eapply IH.
Qed.

Lemma scalar_column_type dt t ty depth :
  scalar_storable dt CNull -> spanner_column_type dt = Ok t -> column_text ty = Some t ->
  depth <= MAX_TYPE_NESTING_DEPTH -> arrow_type ty depth = Ok (read_type dt) /\ ty_code ty <> TcArray /\ ty_code ty <> TcUnspecified.
Proof.
  intros Hs Ht Hty Hd. destruct ty as [code element fields].
  assert (check_depth depth = Ok tt) as Hc by (unfold check_depth; by rewrite decide_False by lia).
  destruct dt; try done; cbn in Ht; injection Ht as <-;
    destruct code; cbn in Hty; try discriminate Hty; cbn [Arrow.arrow_type]; rewrite Hc; try done;
    destruct element as [e|]; try discriminate Hty; destruct (column_text e); discriminate Hty.
Qed.

(** JSON columns hold text. *)
Lemma json_field_reads f ty depth :
  is_json_field f = true -> storable (f_type f) CNull -> column_text ty = Some (str "JSON") ->
  depth <= MAX_TYPE_NESTING_DEPTH -> arrow_type ty depth = Ok (read_type (f_type f)) /\ ty_code ty <> TcArray /\ ty_code ty <> TcUnspecified.
Proof.
  intros Hj Hs Hty Hd. assert (read_type (f_type f) = DUtf8) as ->.
  { unfold is_json_field in Hj. apply andb_true_iff in Hj as [Hj _]. destruct (f_type f); try done.
    cbn [read_type]. match goal with |- read_type ?d = _ => by destruct d end. }
  destruct ty as [code element fields].
  assert (check_depth depth = Ok tt) as Hc by (unfold check_depth; by rewrite decide_False by lia).
  destruct code; cbn in Hty; try discriminate Hty; cbn [Arrow.arrow_type]; rewrite Hc; try done.
  destruct element as [e|]; try discriminate Hty; destruct (column_text e); discriminate Hty.
Qed.

(** What a scalar or JSON column reads as, at any depth. *)
Lemma item_reads f t ty depth :
  scalar_storable (f_type f) CNull -> spanner_field_type f = Ok t -> column_text ty = Some t ->
  depth <= MAX_TYPE_NESTING_DEPTH ->
  arrow_type ty depth = Ok (read_type (f_type f)) /\ ty_code ty <> TcArray /\ ty_code ty <> TcUnspecified.
Proof.
  intros Hs Ht Hty Hd. destruct (is_json_field f) eqn:Hj.
  - apply json_field_reads; try done; [by destruct (f_type f)|]. destruct f. cbn [spanner_field_type] in Ht.
    rewrite Hj in Ht. by injection Ht as <-.
  - destruct f as [n dt b m]. cbn [spanner_field_type] in Ht. rewrite Hj in Ht. cbn [f_type] in *.
    apply (scalar_column_type dt t); [done| |done..]. by destruct dt.
Qed.

Lemma column_item_reads dt t ty :
  scalar_storable dt CNull -> spanner_column_type dt = Ok t -> column_text ty = Some t ->
  arrow_type ty 1 = Ok (read_type dt) /\ ty_code ty <> TcArray /\ ty_code ty <> TcUnspecified.
Proof. intros H1 H2 H3. apply (scalar_column_type dt t); try done. unfold MAX_TYPE_NESTING_DEPTH. lia. Qed.

(** An array column, from what its element reads as. *)
Lemma array_column_reads ty n d b m t :
  column_text ty = Some (str "ARRAY<" ++ t ++ str ">") ->
  (forall e, column_text e = Some t ->
     arrow_type e 1 = Ok (read_type d) /\ ty_code e <> TcArray /\ ty_code e <> TcUnspecified) ->
  exists dt', arrow_type ty 0 = Ok dt' /\ reads_as dt' (DList (mkField n (read_type d) b m)).
Proof.
  destruct ty as [code element fields]. intros Hty He. destruct code; try discriminate Hty.
  cbn [column_text] in Hty. destruct element as [e|]; [|done]. destruct (column_text e) as [u|] eqn:Eu; [|done].
  cbn [mbind option_bind] in Hty. injection Hty as Hu. apply app_inv_tail in Hu. subst u.
  destruct (He e Eu) as (Ha & Hn1 & Hn2). exists (DList (tag_field LIST_ITEM (ty_code e) true (read_type d))).
  split; [|intros v; unfold tag_field; by case_decide]. cbn [Arrow.arrow_type]. rewrite Ha. by destruct (ty_code e).
Qed.

(** A column created for a field, read in nanosecond mode. *)
Lemma declared_reads f ty :
  storable (f_type f) CNull -> declared f ty ->
  exists dt', arrow_type ty 0 = Ok dt' /\ reads_as dt' (read_type (f_type f)).
Proof.
  intros Hs (t & Ht & Hty). destruct (is_json_field f) eqn:Hj.
  - exists (read_type (f_type f)). split; [|done]. apply json_field_reads; try done; [|unfold MAX_TYPE_NESTING_DEPTH; lia].
    destruct f. cbn [spanner_field_type] in Ht. rewrite Hj in Ht. by injection Ht as <-.
  - assert (forall dt, scalar_storable dt CNull -> spanner_column_type dt = Ok t ->
      exists dt', arrow_type ty 0 = Ok dt' /\ reads_as dt' (read_type dt)) as Hscalar.
    { intros dt H1 H2. exists (read_type dt). split; [|done]. apply (scalar_column_type dt t); try done.
      unfold MAX_TYPE_NESTING_DEPTH. lia. }
    assert (forall item u, scalar_storable (f_type item) CNull -> spanner_field_type item = Ok u -> t = str "ARRAY<" ++ u ++ str ">" ->
      exists dt', arrow_type ty 0 = Ok dt' /\ reads_as dt' (read_type (DList item))) as Hlist.
    { intros item u H1 H2 ->. destruct item as [n d b m]. cbn [read_type]. eapply array_column_reads; [exact Hty|].
      intros e He. apply (item_reads (mkField n d b m) u); try done. unfold MAX_TYPE_NESTING_DEPTH. lia. }
    assert (forall item u, scalar_storable (f_type item) CNull -> spanner_column_type (f_type item) = Ok u ->
      t = str "ARRAY<" ++ u ++ str ">" -> exists dt', arrow_type ty 0 = Ok dt' /\ reads_as dt' (read_type (DList item))) as Hclist.
    { intros item u H1 H2 ->. destruct item as [n d b m]. cbn [read_type]. eapply array_column_reads; [exact Hty|].
      intros e He. by apply (column_item_reads d u). }
    destruct f as [n dt b m]. cbn [spanner_field_type f_type] in *. rewrite Hj in Ht.
    destruct dt as [ | | | | | | | | | | | | | | | | | | | | | | | |item|item| |key value| |]; try (by apply Hscalar).
    + destruct Hs as [Hs _]. inv_bind Ht. injection Ht as Ht. by eapply Hlist.
    + destruct Hs as [Hs _]. inv_bind Ht. injection Ht as Ht. destruct (Hlist item a Hs E (eq_sym Ht)) as (dt' & H1 & H2).
      exists dt'. split; [done|]. by destruct item.
    + cbn [storable] in Hs. cbn [spanner_column_type read_type] in *. destruct value as [ | | | | | | | | | | | | | | | | | | | | | | | |inner|inner| | | |]; try (by apply Hscalar); try done.
      * destruct inner as [n' d b' m']. cbn [spanner_column_type f_type] in *. inv_bind Ht. injection Ht as Ht.
        by apply (Hclist (mkField n' d b' m') a).
      * destruct inner as [n' d b' m']. cbn [spanner_column_type f_type] in *. inv_bind Ht. injection Ht as Ht.
        by apply (Hclist (mkField n' d b' m') a).
Qed.

End Types.

(** ** Rows *)

(** The rows of a batch, and those of several. *)
Definition batch_cells (b : Batch) : list (list Cell) :=
  map (fun j => map (fun a => cell_at a j) (b_columns b)) (seq 0 (Arrow.b_rows b)).

Definition data_rows (bs : list Batch) : list (list Cell) := concat (map batch_cells bs).

(** A row of an ingest, as it reads back. *)
Definition read_row (schema : list Field) (row : list Cell) : list Cell :=
  zip_with (fun f c => read_cell (f_type f) c) schema row.

(** Bound data an ingest can store: columns of their fields' types, all of the rows'
    length, of cells Spanner can represent. *)
Definition batch_storable (schema : list Field) (b : Batch) : Prop :=
  b_fields b = schema /\
  Forall2 (fun f a => a_type a = f_type f /\ length (a_cells a) = Arrow.b_rows b /\
                      Forall (storable (f_type f)) (a_cells a)) schema (b_columns b).

Lemma batch_cells_lookup b j row :
  batch_cells b !! j = Some row <-> j < Arrow.b_rows b /\ row = map (fun a => cell_at a j) (b_columns b).
Proof.
  unfold batch_cells. rewrite list_lookup_fmap, fmap_Some. split.
  - intros (k & [-> Hk]%lookup_seq & ->). done.
  - intros [Hj ->]. exists j. split; [|done]. by apply lookup_seq.
Qed.

Section Rows.
Context {CH : Chrono} {CO : Codec}.

(** A wire row decodes to cells, position by position. *)
Definition row_decodes (schema : list Field) (row : Row) (cells : list Cell) : Prop :=
  length cells = length schema /\
  forall i f c, schema !! i = Some f -> cells !! i = Some c -> decode_cell (f_type f) (row !! i) = Ok c.

Lemma row_decodes_unique schema row c1 c2 : row_decodes schema row c1 -> row_decodes schema row c2 -> c1 = c2.
Proof.
  intros [L1 H1] [L2 H2]. apply list_eq_same_length with (n := length schema); [done|done|].
  intros i x y Hi Hx Hy. destruct (lookup_lt_is_Some_2 schema i) as [f Hf]; [done|].
  specialize (H1 i f x Hf Hx). rewrite (H2 i f y Hf Hy) in H1. by injection H1.
Qed.

(** The rows of a built batch are the wire rows, decoded. *)
Lemma built_rows_decode schema rows b :
  Forall (fun f => result_type (f_type f) = true) schema -> Decode.build_batch schema rows = Ok b ->
  Forall2 (row_decodes schema) rows (batch_cells b).
Proof.
  intros Hs Hb. destruct (build_batch_Ok _ _ _ Hs Hb) as (_ & Hr & Hlen & Hk). apply Forall2_same_length_lookup. split.
  { unfold batch_cells. by rewrite length_map, length_seq. }
  intros j row cells Hrow [Hj ->]%batch_cells_lookup. split; [by rewrite length_map|].
  intros i f c Hf Hc. rewrite list_lookup_fmap in Hc. apply fmap_Some in Hc as (a & Ha & ->).
  destruct (Hk i f a Hf Ha) as [_ Hd]. destruct (Forall2_lookup_l _ _ _ _ _ Hd Hrow) as (c & Hc & Hdec).
  unfold cell_at. by rewrite Hc.
Qed.

Lemma chunks_rows_decode schema chunks batches :
  Forall (fun f => result_type (f_type f) = true) schema ->
  Forall2 (fun c b => Decode.build_batch schema c = Ok b) chunks batches ->
  Forall2 (row_decodes schema) (concat chunks) (data_rows batches).
Proof.
  intros Hs H. unfold data_rows. induction H as [|c b chunks batches Hb _ IH]; [constructor|].
  cbn [concat map]. apply Forall2_app; [by apply built_rows_decode|done].
Qed.

End Rows.

Section Stored.
Context {SC : SpannerClient} {CH : Chrono} {CL : ChronoLaws CH} {CO : Codec} {W : Wire (SC := SC)} {WL : WireLaws (W := W) CO}.

(** The named values an insert mutation carries for a row. *)
Definition stores (schema : list Field) (row : list Cell) (stored : list (rstr * Value)) : Prop :=
  map fst stored = map f_name schema /\ length row = length schema /\
  forall i f c, schema !! i = Some f -> row !! i = Some c ->
    exists name v, stored !! i = Some (name, v) /\ decode_cell (read_type (f_type f)) (Some v) = Ok (read_cell (f_type f) c).

Lemma mutation_cells_store fields columns j stored :
  Forall2 (fun f a => a_type a = f_type f /\ storable (f_type f) (cell_at a j)) fields columns ->
  mutation_cells fields columns j = Ok stored -> stores fields (map (fun a => cell_at a j) columns) stored.
Proof.
  intros H. revert stored. induction H as [|f a fields columns [Ht Hs] _ IH]; intros stored Hm.
  { cbn in Hm. injection Hm as <-. by split_and!. }
  cbn [mutation_cells] in Hm. rewrite Ht in Hm.
  destruct (cell_round_trip (f_name f) f (f_type f) (cell_at a j) Hs) as (v & t & Hv & Hd).
  rewrite Hv in Hm. cbn [mbind Result_mbind] in Hm. inv_bind Hm. injection Hm as <-.
  destruct (IH _ eq_refl) as (Hn & Hl & Hk). split; [cbn; by rewrite Hn|]. split; [cbn; by rewrite Hl|].
  intros [|i] g c Hg Hc; cbn in Hg, Hc |- *; [|by apply Hk]. simplify_eq. by exists (f_name g), v.
Qed.

Lemma stored_row_reads schema s row stored cells :
  stores schema row stored -> Forall2 (fun f g => reads_as (f_type g) (read_type (f_type f))) schema s ->
  row_decodes s (map snd stored) cells <-> cells = read_row schema row.
Proof.
  intros (Hn & Hl & Hk) Hs. pose proof (Forall2_length _ _ _ Hs) as Hls.
  assert (row_decodes s (map snd stored) (read_row schema row)) as Hread.
  { split; [unfold read_row; rewrite length_zip_with; lia|].
    intros i g c Hg Hc. destruct (Forall2_lookup_r _ _ _ _ _ Hs Hg) as (f & Hf & Hr).
    unfold read_row in Hc. apply lookup_zip_with_Some in Hc as (f' & x & -> & Hf' & Hx). rewrite Hf in Hf'. injection Hf' as <-.
    destruct (Hk i f x Hf Hx) as (name & v & Hv & Hd).
    assert (map snd stored !! i = Some v) as Hsnd by (by rewrite list_lookup_fmap, Hv).
    rewrite (Hr (map snd stored !! i)). by rewrite Hsnd. }
  split; [intros H; by eapply row_decodes_unique|by intros ->].
Qed.

End Stored.

(** ** The ingest *)

Section Exact.
Context {SC : SpannerClient} {AH : ArrowHost (SC := SC)} {CH : Chrono} {CL : ChronoLaws CH} {CO : Codec}.
Context {W : Wire (SC := SC)} {WL : WireLaws (W := W) CO} {SD : Serde (SC := SC)}.

#[local] Existing Instance arrow_batches.
#[local] Existing Instance arrow_formats.

Lemma data_rows_flat (bs : list Batch) :
  data_rows bs = map (fun br => map (fun a => cell_at a br.2) (b_columns br.1)) (flat_rows bs).
Proof.
  unfold data_rows, flat_rows. induction bs as [|b bs IH]; [done|]. cbn [map concat]. rewrite map_app, IH. f_equal.
  unfold batch_cells, batch_rows. by rewrite map_map.
Qed.

Lemma flat_rows_storable schema (bs : list Batch) :
  Forall (batch_storable schema) bs ->
  Forall (fun br => batch_storable schema br.1 /\ br.2 < Arrow.b_rows br.1) (flat_rows bs).
Proof.
  intros H. unfold flat_rows. apply Forall_concat, Forall_map. eapply Forall_impl; [exact H|]. intros b Hb.
  unfold batch_rows. apply Forall_map, Forall_forall. intros j Hj%elem_of_seq. cbn in *. split; [done|lia].
Qed.

(** The named values the driver encodes a row as. *)
Definition row_values (br : RecordBatch * nat) : Result (list (rstr * Value)) :=
  mutation_cells (b_fields br.1) (b_columns br.1) br.2.

(** The mutations of rows carry the rows. *)
Lemma mutations_store schema target (l : list (RecordBatch * nat)) ms :
  Forall (fun br => batch_storable schema br.1 /\ br.2 < Arrow.b_rows br.1) l ->
  try_map (row_mutation target) l = Ok ms ->
  exists stored, try_map row_values l = Ok stored /\ ms = map (mutation_insert target) stored /\
    Forall2 (stores schema) (map (fun br => map (fun a => cell_at a br.2) (b_columns br.1)) l) stored.
Proof.
  intros Hl. revert ms. induction Hl as [|[b j] l [[Hf Hc] Hj] _ IH]; intros ms Hm.
  { injection Hm as <-. by exists []. }
  cbn [try_map fst snd] in *.
  change (row_mutation target _) with (cells ← row_values (b, j); Ok (mutation_insert target cells)) in Hm.
  assert (row_values (b, j) = mutation_cells schema (b_columns b) j) as Erow by (unfold row_values; cbn; by rewrite Hf).
  rewrite Erow in Hm |- *. destruct (mutation_cells _ _ _) as [st|e] eqn:Est; [|done].
  cbn [mbind Result_mbind] in Hm. destruct (try_map (row_mutation (B := arrow_batches) target) l) as [rest|e]; [|done]. injection Hm as <-.
  destruct (IH _ eq_refl) as (stored & Hval & -> & Hst). exists (st :: stored). split; [cbn [mbind Result_mbind]; by rewrite Hval|].
  split; [done|]. constructor; [|done].
  apply mutation_cells_store; [|done]. eapply Forall2_impl; [exact Hc|]. intros f a (Ht & Hlen & Hcells). split; [done|].
  unfold cell_at. destruct (lookup_lt_is_Some_2 (a_cells a) j) as [c Hcj]; [lia|].
  cbn [snd]. rewrite Hcj. by eapply Forall_lookup_1.
Qed.

(** A query of the table returned the stored rows, in some order, as columns of the
    types the table was created with. *)
Record returns_table (schema : list Field) (stored : list (list (rstr * Value))) (rs : ResultSet) : Prop := {
  rt_complete : first_error (rs_items rs) = None;
  rt_rows : rows_of (rs_items rs) ≡ₚ map (map snd) stored;
  rt_columns : exists md tys, rs_metadata rs = Some md /\ md_columns md = (map f_name schema, tys) /\
    Forall2 declared schema tys;
}.

Lemma declared_schema schema tys :
  Forall (fun f => storable (f_type f) CNull) schema -> Forall2 declared schema tys ->
  exists s, Arrow.schema_fields NanosecondsErrorOnOverflow (map f_name schema) tys = Ok s /\
    Forall2 (fun f g => reads_as (f_type g) (read_type (f_type f))) schema s /\
    Forall (fun g => fieldless (f_type g) = false) s.
Proof.
  intros Hs H. induction H as [|f ty schema tys Hd _ IH]; [by exists []|]. apply Forall_cons in Hs as [Hf Hs].
  destruct (IH Hs) as (s & Es & Hr & Hl). destruct (declared_reads f ty Hf Hd) as (dt & Ha & Hread).
  assert (fieldless dt = false) as Hdt by (destruct Hd as (t & _ & Ht); by eapply column_text_fields).
  exists (tag_field (f_name f) (ty_code ty) true dt :: s). split.
  - cbn [map schema_fields tail]. unfold Arrow.arrow_field, arrow_field_at. rewrite Ha. cbn. by rewrite Es.
  - split; constructor; try done; unfold tag_field; by case_decide.
Qed.

Lemma returned_schema schema stored rs :
  schema <> [] -> Forall (fun f => storable (f_type f) CNull) schema -> returns_table schema stored rs ->
  exists s, result_schema NanosecondsErrorOnOverflow rs = Ok s /\
    Forall2 (fun f g => reads_as (f_type g) (read_type (f_type f))) schema s /\
    Forall (fun g => fieldless (f_type g) = false) s.
Proof.
  intros Hne Hs [_ _ (md & tys & Hmd & Hcols & Hd)]. destruct (declared_schema schema tys Hs Hd) as (s & Es & Hr).
  exists s. split; [|done]. unfold result_schema. rewrite Hmd. cbn. rewrite Hcols. by destruct schema.
Qed.

(** What the rows of a complete result decode to, up to their order. *)
Lemma table_rows_read schema s (bs : list Batch) stored rows cells :
  Forall2 (stores schema) (data_rows bs) stored ->
  Forall2 (fun f g => reads_as (f_type g) (read_type (f_type f))) schema s ->
  rows ≡ₚ map (map snd) stored -> Forall2 (row_decodes s) rows cells ->
  cells ≡ₚ map (read_row schema) (data_rows bs).
Proof.
  intros Hst Hs Hp Hd. destruct (Permutation_Forall2 Hp Hd) as (cells' & -> & Hd'). clear rows Hp Hd.
  assert (cells' = map (read_row schema) (data_rows bs)) as ->; [|done].
  revert cells' Hd'. induction Hst as [|row st l stored Hrow _ IH]; intros cells' Hd; inversion Hd; subst; [done|].
  cbn [map]. f_equal; [by eapply stored_row_reads|by apply IH].
Qed.

(** Every row of the table decodes. *)
Lemma table_rows_decode schema s (bs : list Batch) stored rows :
  Forall2 (stores schema) (data_rows bs) stored ->
  Forall2 (fun f g => reads_as (f_type g) (read_type (f_type f))) schema s ->
  rows ≡ₚ map (map snd) stored ->
  forall i f, s !! i = Some f -> exists cells, column_decodes (f_type f) i rows cells.
Proof.
  intros Hst Hs Hp i f Hf. apply Forall_exists_Forall2_l. rewrite Hp. clear rows Hp. apply Forall_map.
  induction Hst as [|row st l stored Hrow _ IH]; [constructor|]. constructor; [|done].
  destruct (proj2 (stored_row_reads schema s row st _ Hrow Hs) eq_refl) as [Hl Hd].
  destruct (lookup_lt_is_Some_2 (read_row schema row) i) as [c Hc]; [rewrite Hl; by apply lookup_lt_Some in Hf|].
  exists c. by apply Hd.
Qed.

(** A query of the table, read to its end. *)
Lemma table_query_reads env (self : Statement) fuel manual_txn b st w schema (bs : list Batch) stored rs :
  (0 < rows_per_batch self)%Z -> timestamp_precision (st_config self) = NanosecondsErrorOnOverflow ->
  slot_cancelled (w_slots w) (st_slot self) = false -> pulls_prompt env ->
  query_reply env manual_txn b st w = mkReply (inl rs) false false -> length (rs_items rs) < fuel ->
  schema <> [] -> Forall (fun f => storable (f_type f) CNull) schema ->
  Forall2 (stores schema) (data_rows bs) stored -> returns_table schema stored rs ->
  exists w' r, query_all env self fuel manual_txn b st w = Some (w', r) /\
    match r with
    | Ok (s, batches) => data_rows batches ≡ₚ map (read_row schema) (data_rows bs)
    | Err e => exists name, e = name_column name offset_error
    end.
Proof.
  intros Hbs Hprec Hw Hp Hrep Hfuel Hne Hsch Hst Hrt.
  destruct (returned_schema _ _ _ Hne Hsch Hrt) as (s & Es & Hs & Hl). destruct Hrt as [He Hrows _].
  assert (forall rs0, r_outcome (query_reply env manual_txn b st w) = inl rs0 -> length (rs_items rs0) < fuel) as Hf
    by (rewrite Hrep; by intros rs0 [= <-]).
  pose proof (query_all_spec env self fuel manual_txn b st w Hbs Hf) as H. rewrite Hprec, Hrep in H.
  apply wp_elim in H as (w' & r & E & H). exists w', r. split; [done|]. destruct r as [[s' batches]|e].
  - destruct H as (rs' & [= <-] & Es' & _ & chunks & Hc & _ & Hb). unfold result_schema in Es. cbn in Es'.
    rewrite Es in Es'. injection Es' as <-. eapply table_rows_read; [exact Hst|exact Hs|exact Hrows|]. rewrite <- Hc.
    apply chunks_rows_decode; [exact (build_schema_result _ _ _ _ Es)|exact Hb].
  - specialize (H rs s Hw Hp eq_refl He Es). apply unconvertible_chunk with (precision := NanosecondsErrorOnOverflow) in H as (name & [[= ->]|[Hfl _]]).
    + by exists name.
    + exfalso. apply Exists_exists in Hfl as (g & Hg & Hfl). rewrite Forall_forall in Hl. by rewrite (Hl g Hg) in Hfl.
    + exact Es.
    + intros ->. inversion Hs; by subst.
    + by eapply table_rows_decode.
Qed.

(** What an ingest did with its mutations: outside a transaction the server
    acknowledged them, in a manual one they follow the work already buffered. *)
Definition carried (self : Statement) (w w' : World) (n : option Z) (ms : list Mutation) : Prop :=
  if autocommit (w_txn w) then
    n = Some (Z.of_nat (length ms)) /\
    exists evs, w_trace w' = w_trace w ++ evs /\
      acknowledged (update_timeout (timeouts (st_config self))) evs = ms
  else
    n = None /\ autocommit (w_txn w') = false /\
    work_of (txn (w_txn w')) = app2 (work_of (txn (w_txn w))) ([], ms).

(** An ingest that succeeds carries the mutation of every row, in order. *)
Lemma run_ingest_carries env (self : Statement) (table : rstr) w w' self' n :
  ingest_batch_write self = false -> run_ingest env self table w = Some (w', self', Ok n) ->
  exists ms, try_map (row_mutation (mutation_table (target_db_schema self) table)) (flat_rows (bound self)) = Ok ms /\
    carried self w w' n ms.
Proof.
  intros Hbw Hrun. unfold run_ingest in Hrun. destruct (is_read_only _ _); [done|].
  case_decide; [done|]. destruct (proj1 (wp_elim _ _ _) (run_bound_ingest_result env self table w)) as (w1 & r & E & Hr).
  rewrite E in Hrun. cbn in Hrun. injection Hrun as <- _ ->. unfold bound_ingest_result in Hr. unfold carried.
  destruct (autocommit (w_txn w)).
  - destruct Hr as [_ Hr]. rewrite Hbw in Hr. destruct Hr as (evs & mid & Htr & _ & Hack & Hok).
    destruct Hok as [-> [= ->]]; [by eexists|]. rewrite take_ge in Hack by done.
    eexists. split; [exact Hack|]. split; [|by exists evs]. apply try_map_length in Hack. by rewrite Hack.
  - destruct Hr as [_ (-> & Hac & ms & Hms & Hw)]. by exists ms.
Qed.

(** C14: what an ingest stored is what a query of its table returns.  Take an ingest
    that succeeds, in any environment, of any number of batches of one schema, of
    cells Spanner can represent.  It carries, in order, one mutation for each bound
    row with the values the driver encodes: outside a transaction the server has
    acknowledged them, through write-only commits, and the count is their number;
    in a manual transaction they are appended to the buffer its commit will send.
    And against a server that returns those values, in whatever order it keeps rows,
    as complete columns of the types the driver's [CREATE TABLE] declares, any query
    of them, chunked in any way, reads back exactly the bound rows, cell by cell as
    they read ([read_cell]): none is lost, repeated, mixed up or changed, by the
    chunks of the ingest, its bisections, the encoding of cells, or the batches of
    the reader.  The one failure left to that query is a chunk with more list
    elements than an offset can count. *)
Theorem ingested_data_reads_back env (self : Statement) (table : rstr) (schema : list Field) w w' self' n :
  let target := mutation_table (target_db_schema self) table in
  ingest_batch_write self = false ->
  schema <> [] -> Forall (fun f => storable (f_type f) CNull) schema ->
  Forall (batch_storable schema) (bound self) ->
  run_ingest env self table w = Some (w', self', Ok n) ->
  exists stored,
    try_map row_values (flat_rows (bound self)) = Ok stored /\
    carried self w w' n (map (mutation_insert target) stored) /\
    Forall2 (stores schema) (data_rows (bound self)) stored /\
    forall env2 (query : Statement) fuel manual_txn b st w2 rs,
      (0 < rows_per_batch query)%Z -> timestamp_precision (st_config query) = NanosecondsErrorOnOverflow ->
      slot_cancelled (w_slots w2) (st_slot query) = false -> pulls_prompt env2 ->
      query_reply env2 manual_txn b st w2 = mkReply (inl rs) false false -> length (rs_items rs) < fuel ->
      returns_table schema stored rs ->
      exists w3 r, query_all env2 query fuel manual_txn b st w2 = Some (w3, r) /\
        match r with
        | Ok (s, batches) => data_rows batches ≡ₚ map (read_row schema) (data_rows (bound self))
        | Err e => exists name, e = name_column name offset_error
        end.
Proof.
  intros target Hbw Hne Hsch Hbound Hrun. destruct (run_ingest_carries _ _ _ _ _ _ _ Hbw Hrun) as (ms & Hms & Hcar).
  destruct (mutations_store _ _ _ _ (flat_rows_storable _ _ Hbound) Hms) as (stored & Hval & -> & Hrows).
  rewrite <- data_rows_flat in Hrows. exists stored. do 3 (split; [done|]). intros. by eapply table_query_reads.
Qed.

End Exact.

(** ** Three rows, in and out *)

(** A server whose results are columns of the ingested types. *)
Definition table_host : ArrowHost (SC := example_client) := {|
  md_columns _ := ([str "n"; str "s"], [mkTy TcInt64 None None; mkTy TcString None None]);
  type_view _ := mkTy TcString None None;
  memory_size _ := 0%Z |}.

Definition table_schema : list Field :=
  [Field_new (str "n") DInt16 true; Field_new (str "s") (DDictionary DInt32 DUtf8) true].

Definition table_batches : list Batch :=
  [mkBatch table_schema
     [mkArray DInt16 [CInt 1; CInt 2]; mkArray (DDictionary DInt32 DUtf8) [CDict (CStr (str "a")); CNull]] 2;
   mkBatch table_schema [mkArray DInt16 [CInt 3]; mkArray (DDictionary DInt32 DUtf8) [CDict (CStr (str "b"))]] 1].

Definition table_statement (bs : list Batch) : Statement (B := arrow_batches (AH := table_host) (W := example_wire)) :=
  let s := Statement_new (str "projects/p/instances/i/databases/d") (SharedConfig_default (mkCells ∅ ∅)).2 2 in
  with_flags (with_bound s (bs : list (RecordBatch (Batches := arrow_batches (AH := table_host) (W := example_wire)))) None) false false 2 false.

(** The rows come back in another order than they were written. *)
Definition table_result : ResultSet (SC := example_client) :=
  mkResultSet (SC := example_client) (Some [])
    [inl [VString (str "3"); VString (str "b")]; inl [VString (str "2"); VNull]; inl [VString (str "1"); VString (str "a")]].

Definition table_env : Env (SC := example_client) := fun _ A c =>
  match c in Call A return Reply (SC := example_client) A with
  | ExecuteQuery _ _ => mkReply (SC := example_client) (inl table_result) false false
  | NextChunk => mkReply (SC := example_client) (inl tt) false false
  | _ => mkReply (SC := example_client) (inr (mkSpannerError None (str "no answer"))) false false
  end.

(** The server takes one mutation at a time, so the ingest bisects. *)
Lemma ingested_data_reads_back_witness :
  exists w3 s batches,
    query_all (F := arrow_formats (AH := table_host) (CH := Gregorian) (CO := example_codec) (W := example_wire)
        (SD := example_serde)) table_env (table_statement []) 4 None None
        (builder (SC := example_client) (str "SELECT * FROM t")) (TxnSystem.example_world TxnState_new) =
      Some (w3, Ok (s, batches)) /\
    data_rows batches = [[CInt 3; CStr (str "b")]; [CInt 2; CNull]; [CInt 1; CStr (str "a")]] /\
    data_rows batches ≡ₚ [[CInt 1; CStr (str "a")]; [CInt 2; CNull]; [CInt 3; CStr (str "b")]].
Proof.
  destruct (run_ingest (B := arrow_batches (AH := table_host) (W := example_wire)) (capped_env 1)
      (table_statement table_batches) (str "t") (TxnSystem.example_world (mkTxnState true Unset))) as [[[w' self'] n]|] eqn:Erun.
  2: { apply (f_equal (fun o => match o with Some _ => true | None => false end)) in Erun. vm_compute in Erun. discriminate. }
  assert (n = Ok (Some 3%Z)) as ->
    by (apply (f_equal (fun o => match o with Some (_, n) => n | None => Ok None end)) in Erun; vm_compute in Erun; by symmetry).
  destruct (ingested_data_reads_back (AH := table_host) (CH := Gregorian) (CL := Gregorian_laws) (CO := example_codec)
    (W := example_wire) (WL := example_wire_laws) (SD := example_serde) (capped_env 1) (table_statement table_batches)
    (str "t") table_schema (TxnSystem.example_world (mkTxnState true Unset)) w' self' (Some 3%Z))
    as (stored & Hval & _ & _ & H); [reflexivity|discriminate|repeat constructor| |exact Erun|].
  { repeat constructor; discriminate. }
  clear Erun.
  assert (stored = [[(str "n", VString (str "1")); (str "s", VString (str "a"))];
                    [(str "n", VString (str "2")); (str "s", VNull)];
                    [(str "n", VString (str "3")); (str "s", VString (str "b"))]]) as ->
    by (vm_compute in Hval; injection Hval as <-; reflexivity).
  destruct (H table_env (table_statement []) 4 None None (builder (SC := example_client) (str "SELECT * FROM t"))
    (TxnSystem.example_world TxnState_new) table_result) as (w3 & r & E & Hr).
  - by vm_compute.
  - by vm_compute.
  - by vm_compute.
  - done.
  - done.
  - cbn. lia.
  - split; [by vm_compute| |].
    + exact (reverse_Permutation (map (map snd) [[(str "n", VString (str "1")); (str "s", VString (str "a"))];
        [(str "n", VString (str "2")); (str "s", VNull)]; [(str "n", VString (str "3")); (str "s", VString (str "b"))]])).
    + exists [], [mkTy TcInt64 None None; mkTy TcString None None]. split; [reflexivity|]. split; [reflexivity|].
      repeat constructor; eexists; split; vm_compute; reflexivity.
  - assert (exists s batches, r = Ok (s, batches) /\
      data_rows batches = [[CInt 3; CStr (str "b")]; [CInt 2; CNull]; [CInt 1; CStr (str "a")]]) as (s & batches & -> & Hb).
    { apply (f_equal (fun o => snd <$> o)) in E. cbn [fmap option_fmap option_map snd] in E.
      vm_compute in E. injection E as <-. do 2 eexists. split; [vm_compute; reflexivity|vm_compute; reflexivity]. }
    exists w3, s, batches. split; [exact E|]. split; [exact Hb|exact Hr].
Defined.
