(* ===== verification/FuzzTargets.v ===== *)
(** * The fuzz targets ([fuzz/fuzz_targets], [fuzzing] of [src/lib.rs])

    The repository states what its parsers promise as the assertions of its fuzz
    targets.  Here each target with assertions is the function libFuzzer calls,
    [None] being a failed assertion or a panic, and is proved to pass on every
    input.  The renderings the value target compares against are chrono's
    ([Chrono]); the regular expressions of the LIKE target are the [regex] crate's
    ([RegexCrate]). *)

From S2P Require Import Arrow Decode Calendar Bind Partitions DecodeFacts BindFacts DdlFacts Metadata.
From S2P Require Import Prelude RustStr Utf8 RustNum ErrorModel Options Config Sql SqlLex SqlFacts Stream Client.

Open Scope nat_scope.

(** ** What the targets use of Rust *)

(** [assert!]. *)
Definition assert_that (b : bool) : option unit := if b then Some tt else None.

(** A loop whose body may panic, with the items before each one ([l[..i]]). *)
Fixpoint for_each {A} (before : list A) (l : list A) (f : list A -> A -> option unit) : option unit :=
  match l with
  | [] => Some tt
  | x :: l => _ ← f before x; for_each (before ++ [x]) l f
  end.

(** [iter().enumerate().any(..)], the items before each one again. *)
Fixpoint any_enumerated {A} (before : list A) (l : list A) (f : list A -> A -> bool) : bool :=
  match l with
  | [] => false
  | x :: l => f before x || any_enumerated (before ++ [x]) l f
  end.

(** [str::find], as a number of chars, and [str::contains]. *)
Fixpoint find_str (x s : rstr) : option nat :=
  if starts_with x s then Some 0
  else match s with [] => None | _ :: s => S <$> find_str x s end.

Definition contains (s x : rstr) : bool := bool_decide (is_Some (find_str x s)).

Definition to_ascii_uppercase_char (c : char) : char := if is_ascii_lowercase c then (c - 32)%N else c.
Definition to_ascii_uppercase (s : rstr) : rstr := map to_ascii_uppercase_char s.

(** ** The SQL splitter *)

(** The statements are searched for in the text after the previous one. *)
Fixpoint preserved (statements : list rstr) (rest : rstr) : option unit :=
  match statements with
  | [] => Some tt
  | statement :: statements =>
      _ ← assert_that (negb (bool_decide (statement = [])));
      _ ← assert_that (bool_decide (statement = trim statement));
      pos ← find_str statement rest;
      preserved statements (drop (pos + length statement) rest)
  end.

Definition sql_target (sql : rstr) : option unit := preserved (split_statements sql) sql.

(** ** The classifier *)

Definition fuzzing_first_keyword (sql : rstr) : option rstr := to_ascii_uppercase <$> first_keyword sql.

Definition keyword_prefixes : list rstr :=
  [[cSPACE; 9%N; cNL]; str "-- line comment" ++ [cNL]; str "# hash comment" ++ [cNL];
   str "/* block comment */"; str "@{USE_ADDITIONAL_PARALLELISM=TRUE} "; str "@{HINT='}'}"].

Definition keyword_target (sql : rstr) : option unit :=
  let keyword := fuzzing_first_keyword sql in
  _ ← match keyword with
      | Some kw =>
          _ ← assert_that (negb (bool_decide (kw = [])));
          _ ← assert_that (forallb is_ascii_uppercase kw);
          assert_that (contains (to_ascii_uppercase sql) kw)
      | None => Some tt
      end;
  let among (l : list rstr) := match keyword with Some k => bool_decide (k ∈ l) | None => false end in
  _ ← assert_that (Bool.eqb (is_ddl sql)
        (among [str "CREATE"; str "DROP"; str "ALTER"; str "RENAME"; str "GRANT"; str "REVOKE"; str "ANALYZE"]));
  _ ← assert_that (Bool.eqb (is_dml sql) (among [str "INSERT"; str "UPDATE"; str "DELETE"]));
  _ ← for_each [] keyword_prefixes (fun _ prefix =>
        assert_that (bool_decide (fuzzing_first_keyword (prefix ++ sql) = keyword)));
  let stripped := strip_trailing_terminators sql in
  _ ← assert_that (contains sql stripped);
  _ ← assert_that (bool_decide (strip_trailing_terminators stripped = stripped));
  assert_that (bool_decide (split_statements stripped = split_statements sql)).

(** ** Parameters and identifiers *)

Definition fuzzing_quote_ident (ident : rstr) : option rstr :=
  match quote_ident ident with Ok quoted => Some quoted | Err _ => None end.

(** The inner option is the wrapper's result. *)
Definition fuzzing_resolve_parameter_names (sql : rstr) (column_names : list rstr) (bind_by_name : bool) :
    option (option (list rstr)) :=
  let fields := map (fun name => Field_new name DInt64 true) column_names in
  let batch := mkBatch fields (map (fun _ => mkArray DInt64 []) fields) 0 in
  match resolve_parameter_names sql batch bind_by_name with
  | Ok names => Some (Some names)
  | Err e => _ ← assert_that (bool_decide (status e = InvalidArguments)); Some None
  end.

Definition quoted_alone (ident : rstr) : option unit :=
  match fuzzing_quote_ident ident with
  | None => Some tt
  | Some quoted =>
      _ ← assert_that (bool_decide (2 <= utf8_len quoted) && starts_with [cBTICK] quoted &&
                       bool_decide (is_Some (strip_suffix [cBTICK] quoted)));
      body ← slice quoted 1 (utf8_len quoted - 1);
      _ ← assert_that (negb (contains_char cBTICK body || contains_char cBSLASH body));
      _ ← assert_that (bool_decide (body = ident));
      let embedded := str "SELECT " ++ quoted ++ str " FROM t; SELECT 1" in
      assert_that (bool_decide (split_statements embedded =
                                [str "SELECT " ++ quoted ++ str " FROM t"; str "SELECT 1"]))
  end.

Definition params_target (sql : rstr) (column_names : list rstr) (bind_by_name : bool) : option unit :=
  let params := named_parameters sql in
  _ ← for_each [] params (fun before name =>
        _ ← assert_that (negb (existsb (fun p => eq_ignore_ascii_case p name) before));
        _ ← assert_that (negb (bool_decide (name = [])));
        _ ← assert_that (negb (contains_char cBTICK name || contains_char cBSLASH name));
        assert_that (contains sql name));
  let matching column := List.find (fun p => eq_ignore_ascii_case p column) params in
  let all_named := forallb (fun c => bool_decide (is_Some (matching c))) column_names in
  let all_distinct := negb (any_enumerated [] column_names (fun before c =>
        existsb (fun earlier => eq_ignore_ascii_case earlier c) before)) in
  resolved ← fuzzing_resolve_parameter_names sql column_names bind_by_name;
  _ ← match resolved, bind_by_name with
      | Some resolved, true =>
          _ ← assert_that (all_named && all_distinct);
          expected ← mapM matching column_names;
          assert_that (bool_decide (resolved = expected))
      | Some resolved, false => assert_that (bool_decide (resolved = params))
      | None, true => assert_that (negb all_named || negb all_distinct)
      | None, false => assert_that (negb (bool_decide (length params = length column_names)))
      end;
  for_each [] (column_names ++ [sql]) (fun _ => quoted_alone).

(** ** Values *)

(** chrono's [SecondsFormat::AutoSi]: as many digits, in threes, as there are. *)
Definition auto_si (nanos : Z) : SecondsFormat :=
  if decide (nanos = 0)%Z then Secs
  else if decide (nanos mod 1000000 = 0)%Z then Millis
  else if decide (nanos mod 1000 = 0)%Z then Micros
  else Nanos.

Section Values.
Context {CH : Chrono}.

(** [Datelike::year] of a date and of an instant. *)
Context (date_year : NaiveDate -> Z) (datetime_year : DateTimeUtc -> Z).

Definition four_digits (year : Z) : bool := bool_decide (1 <= year <= 9999)%Z.

Definition date_oracle (s : rstr) : option unit :=
  match parse_date_days s with
  | None => Some tt
  | Some days =>
      date ← epoch_plus_days days;
      if four_digits (date_year date) then
        let canonical := format_ymd date in
        assert_that (bool_decide (parse_date_days canonical = Some days))
      else Some tt
  end.

Definition timestamp_oracle (s : rstr) : option unit :=
  match parse_timestamp_nanos s with
  | None => Some tt
  | Some nanos =>
      dt ← from_timestamp (nanos / 1000000000) (nanos mod 1000000000);
      if four_digits (datetime_year dt) then
        let canonical := to_rfc3339_opts dt (auto_si (timestamp_subsec_nanos dt)) in
        assert_that (bool_decide (parse_timestamp_nanos canonical = Some nanos))
      else Some tt
  end.

Definition numeric_oracle (s : rstr) : option unit :=
  match parse_numeric_i128 s with
  | None => Some tt
  | Some unscaled =>
      let neg := bool_decide (unscaled < 0)%Z in
      let mag := Z.abs unscaled in
      let int := (mag / 1000000000)%Z in
      let frac := (mag mod 1000000000)%Z in
      let canonical := (if neg then [cDASH] else []) ++ show_N (Z.to_N int) ++ cDOT :: pad 9 frac in
      assert_that (bool_decide (parse_numeric_i128 canonical = Some unscaled))
  end.

Definition values_target (s : rstr) : option unit :=
  _ ← date_oracle s; _ ← timestamp_oracle s; numeric_oracle s.

End Values.

(** ** LIKE *)

(** [Regex::new] ([None] when the expression is refused or too big), [is_match] and
    [escape]. *)
Class RegexCrate := {
  Regex : Type;
  regex_new : rstr -> option Regex;
  is_match : Regex -> rstr -> bool;
  escape : rstr -> rstr;
}.

Definition like_piece `{RX : RegexCrate} (ch : char) : rstr :=
  if decide (ch = cPERCENT) then str ".*"
  else if decide (ch = cUNDERSCORE) then str "."
  else escape [ch].

Definition like_regex `{RX : RegexCrate} (pattern : rstr) : rstr :=
  str "(?s)\A" ++ flat_map like_piece pattern ++ str "\z".

Definition like_target `{RX : RegexCrate} (pattern value : rstr) : option unit :=
  let got := like_match pattern value in
  match regex_new (like_regex pattern) with
  | Some regex => assert_that (Bool.eqb got (is_match regex value))
  | None => Some tt
  end.

(** ** Partition descriptors *)

(** A literal part of the message contains [needle]. *)
Definition message_contains (e : Error) (needle : rstr) : bool :=
  existsb (fun p => match p with Lit l => contains (str l) needle | _ => false end) (message e).

(** [fuzzing::decode_partition], which is the whole target. *)
Definition partition_target `{SD : Serde} (descriptor : rstr) : option bool :=
  let expect {A} (r : Result A) : option A := match r with Ok a => Some a | Err _ => None end in
  match decode_partition descriptor with
  | Ok partition =>
      first ← expect (encode_partition partition);
      normalized ← expect (decode_partition first);
      bytes ← expect (encode_partition normalized);
      again ← expect (decode_partition bytes);
      reencoded ← expect (encode_partition again);
      _ ← assert_that (bool_decide (bytes = reencoded));
      Some true
  | Err e =>
      _ ← assert_that (bool_decide (status e = InvalidArguments));
      _ ← assert_that (message_contains e (str "invalid partition descriptor") ||
                       message_contains e (str "not supported by this driver"));
      Some false
  end.

(** ** Substrings *)

Lemma starts_with_spec p s : starts_with p s = true <-> exists r, s = p ++ r.
Proof.
  unfold starts_with. rewrite bool_decide_eq_true. split.
  - intros [r Hr]. exists r. by apply strip_prefix_Some.
  - intros [r ->]. exists r. by apply strip_prefix_Some.
Qed.

Ltac decided := apply (bool_decide_unpack _); by vm_compute.

(** The first occurrence is at or before every occurrence. *)
Lemma find_str_first x a b : exists n, find_str x (a ++ x ++ b) = Some n /\ n <= length a.
Proof.
  induction a as [|c a (n & IH & Hn)]; cbn [app].
  - exists 0. split; [|done]. destruct (x ++ b) eqn:E; cbn; rewrite <- E;
      by rewrite (proj2 (starts_with_spec _ _)) by eauto.
  - cbn [find_str]. destruct (starts_with x (c :: a ++ x ++ b)); [by exists 0; split; [|cbn; lia]|].
    rewrite IH. exists (S n). split; [done|]. cbn. lia.
Qed.

Lemma find_str_occurs x s n : find_str x s = Some n -> exists a b, s = a ++ x ++ b /\ length a = n.
Proof.
  revert n. induction s as [|c s IH]; intros n; cbn [find_str].
  - destruct (starts_with x []) eqn:E; [|done]. intros [= <-]. apply starts_with_spec in E as [r E].
    exists [], r. by split.
  - destruct (starts_with x (c :: s)) eqn:E.
    + intros [= <-]. apply starts_with_spec in E as [r E]. exists [], r. by split.
    + destruct (find_str x s) as [m|]; [|done]. intros [= <-]. destruct (IH m eq_refl) as (a & b & -> & <-).
      by exists (c :: a), b.
Qed.

Lemma contains_occurs x s : contains s x = true <-> occurs x s.
Proof.
  unfold contains, occurs. rewrite bool_decide_eq_true. split.
  - intros [n (a & b & H & _)%find_str_occurs]. eauto.
  - intros (a & b & ->). destruct (find_str_first x a b) as (n & -> & _). by eexists.
Qed.

Lemma assert_true b : b = true -> assert_that b = Some tt.
Proof. by intros ->. Qed.

(** Every assertion of a loop holds. *)
Lemma for_each_ok {A} (f : list A -> A -> option unit) l before :
  (forall pre x post, before ++ l = pre ++ x :: post -> f pre x = Some tt) -> for_each before l f = Some tt.
Proof.
  revert before. induction l as [|x l IH]; intros before H; cbn; [done|].
  rewrite (H before x l) by done. cbn. apply IH. intros pre y post Hy. apply (H _ _ post).
  by rewrite <- Hy, <- app_assoc.
Qed.

Lemma preserved_ok statements s :
  in_order statements s -> Forall (fun st => st <> [] /\ trim st = st) statements ->
  preserved statements s = Some tt.
Proof.
  revert s. induction statements as [|st sts IH]; intros s Hi Hf; cbn; [done|].
  apply Forall_cons in Hf as [[Hne Ht] Hf].
  rewrite (bool_decide_eq_false_2 (st = [])), (bool_decide_eq_true_2 (st = trim st)) by congruence. cbn.
  inversion Hi as [|x xs a b Hb]; subst. destruct (find_str_first st a b) as (n & Hn & Hl). rewrite Hn. cbn.
  apply IH; [|done]. destruct (find_str_occurs _ _ _ Hn) as (a' & b' & E & <-). rewrite E.
  rewrite app_assoc, <- length_app, drop_app_length.
  (* [b'] is at least as long as [b], so it ends with it *)
  assert (exists p, b' = p ++ b) as [p ->]; [|by apply in_order_prepend].
  apply (f_equal (fun l => drop (length a' + length st) l)) in E.
  rewrite (app_assoc a' st b'), <- length_app, drop_app_length in E. rewrite <- E.
  rewrite app_assoc, drop_app_le by (rewrite !length_app; lia). by eexists.
Qed.

Lemma upper_alphabetic k :
  Forall (fun c => is_ascii_alphabetic c = true) k -> forallb is_ascii_uppercase (to_ascii_uppercase k) = true.
Proof.
  intros H. apply forallb_forall. intros c Hc. apply in_map_iff in Hc as (d & <- & Hd).
  rewrite Forall_forall in H. apply list_elem_of_In in Hd. specialize (H d Hd).
  unfold is_ascii_alphabetic, to_ascii_uppercase_char, is_ascii_uppercase, is_ascii_lowercase in *.
  destruct (bool_decide (97 <= d <= 122)%N) eqn:E.
  - apply bool_decide_eq_true in E. apply bool_decide_eq_true. lia.
  - by rewrite orb_false_r in H.
Qed.

Lemma upper_eq_lower k w :
  Forall (fun c => is_ascii_alphabetic c = true) k -> Forall (fun c => is_ascii_uppercase c = true) w ->
  (to_ascii_uppercase k = w <-> to_ascii_lowercase k = to_ascii_lowercase w).
Proof.
  intros Hk. revert w. induction Hk as [|c k Hc Hk IH]; intros [|d w] Hw; cbn; try done.
  apply Forall_cons in Hw as [Hd Hw]. specialize (IH w Hw).
  assert (to_ascii_uppercase_char c = d <-> to_ascii_lowercase_char c = to_ascii_lowercase_char d) as Hcd.
  { unfold is_ascii_alphabetic, to_ascii_uppercase_char, to_ascii_lowercase_char, is_ascii_uppercase,
      is_ascii_lowercase in *. apply orb_true_iff in Hc. rewrite !bool_decide_eq_true in *.
    repeat match goal with |- context [bool_decide ?P] => destruct (bool_decide_reflect P) end; lia. }
  split; intros [= H1 H2]; f_equal; tauto.
Qed.

(** The classifiers, restated over the upper-cased keyword. *)
Lemma keyword_in_upper kws sql :
  Forall (Forall (fun c => is_ascii_uppercase c = true)) kws ->
  keyword_in kws sql = match fuzzing_first_keyword sql with Some k => bool_decide (k ∈ kws) | None => false end.
Proof.
  intros Hkws. unfold keyword_in, fuzzing_first_keyword. destruct (first_keyword sql) as [k|] eqn:E; [|done].
  apply first_keyword_shape in E as (_ & Hk & _). cbn [fmap option_fmap option_map].
  induction Hkws as [|w kws Hw _ IH]; cbn [existsb].
  - by rewrite bool_decide_eq_false_2 by apply not_elem_of_nil.
  - rewrite IH. pose proof (upper_eq_lower k w Hk Hw) as Hi. apply eq_true_iff_eq.
    rewrite orb_true_iff, eq_ignore_ascii_case_spec, !bool_decide_eq_true, elem_of_cons. naive_solver.
Qed.

Lemma no_close_contains body : contains body [cSTAR; cSLASH] = false -> no_close body.
Proof.
  intros H a b ->. assert (contains (a ++ [cSTAR; cSLASH] ++ b) [cSTAR; cSLASH] = true); [|congruence].
  apply contains_occurs. by exists a, b.
Qed.

Lemma transparent_prefix prefix sql :
  prefix ∈ keyword_prefixes -> first_keyword (prefix ++ sql) = first_keyword sql.
Proof.
  assert (forall c s, is_whitespace c = true -> first_keyword (c :: s) = first_keyword s) as Hws
    by (intros c s Hc; by apply (first_keyword_skip [c] s), skip_ws).
  assert (forall p hint ls s, lexemes p = ls ++ [Other cRBRACE] ->
    significant_lexemes p = Other cAT :: Other cLBRACE :: hint ++ [Other cRBRACE] -> Other cRBRACE ∉ hint ->
    first_keyword (p ++ s) = first_keyword s) as Hhint
    by (intros p hint ls s Hl Hs Hn; by eapply first_keyword_skip, skip_hint).
  unfold keyword_prefixes. rewrite !elem_of_cons. intros [->|[->|[->|[->|[->|[->|H]]]]]].
  - cbn [app]. by rewrite !Hws.
  - apply (first_keyword_skip _ _ (skip_line (str " line comment") ltac:(decided))).
  - apply (first_keyword_skip _ _ (skip_hash (str " hash comment") ltac:(decided))).
  - apply (first_keyword_skip _ _ (skip_block (str " block comment ") ltac:(by apply no_close_contains))).
  - change (str "@{USE_ADDITIONAL_PARALLELISM=TRUE} " ++ sql)
      with (str "@{USE_ADDITIONAL_PARALLELISM=TRUE}" ++ cSPACE :: sql).
    rewrite (Hhint (str "@{USE_ADDITIONAL_PARALLELISM=TRUE}")
      [Word (str "USE_ADDITIONAL_PARALLELISM"); Other cEQ; Word (str "TRUE")]
      [Other cAT; Other cLBRACE; Word (str "USE_ADDITIONAL_PARALLELISM"); Other cEQ; Word (str "TRUE")]);
      [by apply Hws|by vm_compute..|decided].
  - by apply (Hhint (str "@{HINT='}'}") [Word (str "HINT"); Other cEQ; Quoted (str "'}'")]
      [Other cAT; Other cLBRACE; Word (str "HINT"); Other cEQ; Quoted (str "'}'")]);
      [by vm_compute..|decided].
  - by apply elem_of_nil in H.
Qed.

Lemma keyword_target_ok sql : keyword_target sql = Some tt.
Proof.
  unfold keyword_target.
  assert (forall l, Forall (Forall (fun c => is_ascii_uppercase c = true)) l -> keyword_in l sql =
    match fuzzing_first_keyword sql with Some k => bool_decide (k ∈ l) | None => false end) as Hk
    by (intros; by apply keyword_in_upper).
  unfold is_ddl, is_dml, DDL_KEYWORDS, DML_KEYWORDS.
  rewrite !Hk by (apply (bool_decide_unpack _); by vm_compute). clear Hk. rewrite !eqb_reflx. cbn [assert_that mbind option_bind].
  assert (match fuzzing_first_keyword sql with
    | Some kw => _ ← assert_that (negb (bool_decide (kw = []))); _ ← assert_that (forallb is_ascii_uppercase kw);
                 assert_that (contains (to_ascii_uppercase sql) kw)
    | None => Some tt end = Some tt) as ->.
  { unfold fuzzing_first_keyword. destruct (first_keyword sql) as [k|] eqn:E; [|done]. cbn [fmap option_fmap option_map].
    apply first_keyword_shape in E as (Hne & Ha & w & t & Hw & ->).
    rewrite bool_decide_eq_false_2 by (destruct k; done). rewrite upper_alphabetic by done.
    cbn [assert_that negb mbind option_bind]. apply assert_true, contains_occurs.
    destruct (lexeme_occurs (Word (k ++ t)) sql) as (a & b & ->); [by apply elem_of_significant|].
    cbn [text]. exists (to_ascii_uppercase a), (to_ascii_uppercase (t ++ b)).
    unfold to_ascii_uppercase. by rewrite <- !map_app, <- app_assoc. }
  cbn [mbind option_bind]. rewrite for_each_ok.
  2: { intros pre x post Hx. apply assert_true, bool_decide_eq_true. unfold fuzzing_first_keyword.
       rewrite transparent_prefix; [done|]. cbn [app] in Hx. rewrite Hx. set_solver. }
  cbn [mbind option_bind].
  destruct (strip_trailing_terminators_stable sql) as (H1 & H2 & H3).
  rewrite (proj2 (contains_occurs _ _) H3), H1, H2, !bool_decide_eq_true_2 by done. done.
Qed.

(** ** Identifiers in a batch *)

(** The splitter on a run without [;] and the [;] after it. *)
Lemma split_loop_semi ls rest sts cur :
  Other cSEMI ∉ ls ->
  split_loop (ls ++ Other cSEMI :: rest) (sts, cur) = split_loop rest (push_statement sts (cur ++ texts ls)).
Proof.
  revert cur. induction ls as [|x ls IH]; intros cur H; cbn [app split_loop].
  - rewrite decide_True by done. unfold texts. cbn. by rewrite app_nil_r.
  - apply not_elem_of_cons in H as [Hx H]. rewrite decide_False by congruence. cbn [fst snd].
    by rewrite IH, texts_cons, app_assoc.
Qed.

Lemma quoted_embedded ident quoted :
  quote_ident ident = Ok quoted ->
  split_statements (str "SELECT " ++ quoted ++ str " FROM t; SELECT 1") =
    [str "SELECT " ++ quoted ++ str " FROM t"; str "SELECT 1"].
Proof.
  intros Hq. destruct (quote_ident_closed _ _ Hq) as [Hl Hc].
  assert (closed (str "SELECT ")) as Hsel.
  { eapply (closed_last _ [Word (str "SELECT")] (Other cSPACE)); [by vm_compute|].
    intros s. by apply (ws_scan cSPACE). }
  set (front := [Word (str "SELECT"); Other cSPACE; Quoted quoted] ++ lexemes (str " FROM t")).
  assert (forall s, lexemes (str "SELECT " ++ quoted ++ s) = [Word (str "SELECT"); Other cSPACE; Quoted quoted] ++ lexemes s) as Hlex.
  { intros s. rewrite Hsel, Hc, Hl. change (lexemes (str "SELECT ")) with [Word (str "SELECT"); Other cSPACE]. done. }
  assert (texts front = str "SELECT " ++ quoted ++ str " FROM t") as Htext.
  { rewrite <- texts_lexemes, Hlex. done. }
  unfold split_statements. rewrite Hlex.
  change (lexemes (str " FROM t; SELECT 1")) with (lexemes (str " FROM t") ++ Other cSEMI :: lexemes (str " SELECT 1")).
  rewrite app_assoc. fold front. rewrite split_loop_semi.
  2: { unfold front. rewrite not_elem_of_app, !not_elem_of_cons.
       split_and!; [done..|apply not_elem_of_nil|decided]. }
  cbn [app]. rewrite Htext.
  assert (push_statement [] (str "SELECT " ++ quoted ++ str " FROM t") = ([str "SELECT " ++ quoted ++ str " FROM t"], [])) as ->.
  { unfold push_statement. rewrite trim_id.
    - by rewrite Hlex.
    - intros (c & Hh & Hw). cbn in Hh. by injection Hh as <-.
    - intros (c & Hh & Hw). rewrite !last_app in Hh. cbn in Hh. by injection Hh as <-. }
  rewrite split_loop_no_semi by decided. reflexivity.
Qed.

Lemma quoted_alone_ok ident : quoted_alone ident = Some tt.
Proof.
  unfold quoted_alone, fuzzing_quote_ident. destruct (quote_ident ident) as [quoted|e] eqn:E; [|done].
  rewrite (quoted_embedded ident) by done. rewrite (bool_decide_eq_true_2 (_ = _)) by done.
  apply quote_ident_Ok in E as (_ & Hclean & ->). apply bad_ident_clean in Hclean as [Hb Hs].
  assert (utf8_len ([cBTICK] ++ ident ++ [cBTICK]) = S (utf8_len ident + 1)) as ->
    by (rewrite !utf8_len_app; done).
  rewrite bool_decide_eq_true_2 by lia. rewrite (proj2 (starts_with_spec _ _)) by eauto.
  rewrite bool_decide_eq_true_2.
  2: { exists ([cBTICK] ++ ident). apply strip_suffix_Some. by rewrite <- app_assoc. }
  cbn [andb assert_that mbind option_bind].
  assert (utf8_len [cBTICK] = 1) as H1 by done.
  pose proof (slice_middle [cBTICK] ident [cBTICK]) as Hbody. rewrite H1 in Hbody.
  replace (S (utf8_len ident + 1) - 1) with (1 + utf8_len ident) by lia. rewrite Hbody. cbn [mbind option_bind].
  unfold contains_char. rewrite (bool_decide_eq_false_2 (cBTICK ∈ ident)), (bool_decide_eq_false_2 (cBSLASH ∈ ident)) by done.
  cbn [negb orb assert_that mbind option_bind]. by rewrite bool_decide_eq_true_2 by done.
Qed.

(** ** Pairing columns and parameters *)

Lemma named_before before c :
  existsb (fun p => eq_ignore_ascii_case p c) before = true <-> to_ascii_lowercase c ∈ map to_ascii_lowercase before.
Proof.
  rewrite existsb_exists, list_elem_of_fmap. setoid_rewrite eq_ignore_ascii_case_spec.
  setoid_rewrite list_elem_of_In. naive_solver.
Qed.

Lemma any_enumerated_distinct l before :
  any_enumerated before l (fun before c => existsb (fun earlier => eq_ignore_ascii_case earlier c) before) = false <->
  NoDup (map to_ascii_lowercase l) /\
  Forall (fun c => to_ascii_lowercase c ∉ map to_ascii_lowercase before) l.
Proof.
  revert before. induction l as [|c l IH]; intros before; cbn [any_enumerated map].
  - split; [split; constructor|done].
  - rewrite orb_false_iff, IH, <- not_true_iff_false, named_before, NoDup_cons, Forall_cons, map_app.
    rewrite list_elem_of_fmap, !Forall_forall. setoid_rewrite not_elem_of_app. cbn.
    setoid_rewrite list_elem_of_singleton. split.
    + intros (Hc & Hl & Hf). split_and!; [|done|done|naive_solver]. intros (y & Hy & Hin)%list_elem_of_fmap.
      destruct (Hf y Hin) as [_ Hne]. congruence.
    + intros ((Hn & Hl) & Hc & Hf). split_and!; [done..|]. intros x Hx. split; [by apply Hf|].
      intros Hlow. apply Hn. rewrite <- Hlow. by apply list_elem_of_fmap_2.
Qed.

Lemma matching_find_param params column :
  List.find (fun p => eq_ignore_ascii_case p column) params = find_param params column.
Proof. reflexivity. Qed.

Lemma resolve_by_name_mapM params columns bound names :
  resolve_by_name params columns bound = Ok names -> mapM (find_param params) columns = Some names.
Proof.
  revert bound names. induction columns as [|c columns IH]; intros bound names H; cbn in H |- *; [by injection H as <-|].
  destruct (find_param params c) as [p|]; [|done]. case_decide; [done|]. inv_bind H. injection H as <-.
  cbn. by rewrite (IH _ _ E).
Qed.

Lemma mapM_named params columns :
  is_Some (mapM (find_param params) columns) <->
  forallb (fun c => bool_decide (is_Some (find_param params c))) columns = true.
Proof.
  rewrite forallb_forall, mapM_is_Some, Forall_forall. setoid_rewrite bool_decide_eq_true.
  by setoid_rewrite list_elem_of_In.
Qed.

(** A successful pairing by name names distinct columns. *)
Lemma by_name_distinct params columns names :
  resolve_by_name params columns [] = Ok names -> NoDup (map to_ascii_lowercase columns).
Proof.
  intros H. destruct (resolve_by_name_Ok _ _ _ _ H) as (H2 & Hd & _).
  assert (map to_ascii_lowercase names = map to_ascii_lowercase columns) as <-; [|done].
  clear H Hd. induction H2 as [|p c names columns [_ Hp] _ IH]; cbn; [done|]. by rewrite Hp, IH.
Qed.

Lemma params_target_ok sql columns by_name : params_target sql columns by_name = Some tt.
Proof.
  unfold params_target. destruct (named_parameters_distinct sql) as [Hd Hf]. set (params := named_parameters sql) in *.
  rewrite (for_each_ok _ params).
  2: { intros pre x post Hx. cbn [app] in Hx. rewrite Hx, map_app in Hd. rewrite Hx in Hf.
       apply Forall_app in Hf as [_ [(Hne & Hb & Hs & Ho) _]%Forall_cons]. cbn [map] in Hd.
       assert (existsb (fun p => eq_ignore_ascii_case p x) pre = false) as ->.
       { apply not_true_iff_false. rewrite named_before. intros Hin. apply NoDup_app in Hd as (_ & Hd & _).
         apply (Hd _ Hin). left. }
       unfold contains_char. rewrite !bool_decide_eq_false_2 by tauto. cbn. apply assert_true, contains_occurs. tauto. }
  cbn [mbind option_bind].
  change (List.find (fun p => eq_ignore_ascii_case p ?c) params) with (find_param params c).
  set (all_named := forallb _ columns). set (all_distinct := negb (any_enumerated [] columns _)).
  assert (all_distinct = true <-> NoDup (map to_ascii_lowercase columns)) as Hdist.
  { unfold all_distinct. rewrite negb_true_iff, any_enumerated_distinct.
    split; [by intros []|]. intros Hn. split; [done|]. apply Forall_true. intros c. apply not_elem_of_nil. }
  assert (all_named = true <-> is_Some (mapM (find_param params) columns)) as Hnamed by (by rewrite mapM_named).
  rewrite (for_each_ok (fun _ => quoted_alone) (columns ++ [sql])) by (intros; apply quoted_alone_ok).
  unfold fuzzing_resolve_parameter_names, resolve_parameter_names. cbn [b_fields].
  replace (map f_name (map (fun name => Field_new name DInt64 true) columns)) with columns
    by (rewrite map_map; symmetry; apply map_id).
  fold params. destruct by_name.
  - destruct (resolve_by_name params columns []) as [names|e] eqn:E.
    + pose proof (resolve_by_name_mapM _ _ _ _ E) as Hm. pose proof (by_name_distinct _ _ _ E) as Hn.
      rewrite (proj2 Hnamed), (proj2 Hdist) by (done || by rewrite Hm). cbn [mbind option_bind andb assert_that].
      change (mapM (fun c => find_param params c) columns) with (mapM (find_param params) columns).
      rewrite Hm. cbn [mbind option_bind]. by rewrite bool_decide_eq_true_2.
    + destruct (resolve_by_name_Err _ _ _ _ E) as [He Hwhy]. rewrite bool_decide_eq_true_2 by done.
      cbn [mbind option_bind assert_that]. assert (negb all_named || negb all_distinct = true) as ->; [|done].
      rewrite <- negb_andb. apply negb_true_iff, not_true_iff_false. rewrite andb_true_iff, Hnamed, Hdist.
      intros [[ps Hps] Hn]. destruct Hwhy as [(c & Hc & Hno)|(c & p & _ & _ & [Hb|Hb])]; [|by apply elem_of_nil in Hb|done].
      assert (Forall (fun c => is_Some (find_param params c)) columns) as Hall by (apply mapM_is_Some; by eexists).
      rewrite Forall_forall in Hall. destruct (Hall c Hc). congruence.
  - case_decide as Hl; cbn [status invalid_argument err].
    + rewrite (bool_decide_eq_true_2 (InvalidArguments = _)) by done. cbn [mbind option_bind assert_that].
      by rewrite bool_decide_eq_false_2.
    + cbn [mbind option_bind]. by rewrite bool_decide_eq_true_2.
Qed.

(** ** Values *)

Section ValuesFacts.
Context {CH : Chrono} {CL : ChronoLaws CH}.
Context (date_year : NaiveDate -> Z) (datetime_year : DateTimeUtc -> Z).

Open Scope Z_scope.

Lemma date_oracle_ok s : date_oracle date_year s = Some tt.
Proof.
  unfold date_oracle. destruct (parse_date_days s) as [days|] eqn:E; [|done].
  apply parse_date_days_range in E; [|done]. destruct (date_round_trip [] days) as (t & Ht & Hp); [lia|].
  unfold date_string in Ht. destruct (epoch_plus_days days) as [date|]; [|done]. cbn in Ht |- *. injection Ht as <-.
  destruct (four_digits _); [|done]. by rewrite Hp, bool_decide_eq_true_2.
Qed.

Lemma auto_si_exact nanos :
  match auto_si nanos with
  | Secs => nanos = 0
  | Millis => nanos mod 1000000 = 0
  | Micros => nanos mod 1000 = 0
  | Nanos => True
  end.
Proof. unfold auto_si. by repeat case_decide. Qed.

Lemma timestamp_oracle_ok s : timestamp_oracle datetime_year s = Some tt.
Proof.
  unfold timestamp_oracle. destruct (parse_timestamp_nanos s) as [n|] eqn:E; [|done].
  unfold parse_timestamp_nanos in E. destruct (scan_timestamp_utc s) as [dt0|]; [|done]. cbn in E. apply timestamp_nanos_range in E as Hr.
  pose proof Hr as Hr'. apply bool_decide_eq_true in Hr'. unfold i64_min, i64_max in Hr'.
  pose proof (Z.div_mod n 1000000000 ltac:(lia)) as Hdm. pose proof (Z.mod_pos_bound n 1000000000 ltac:(lia)) as Hm.
  destruct (from_timestamp_total (n / 1000000000) (n mod 1000000000)) as [dt Hdt];
    [unfold first_day, last_day; lia|done|].
  rewrite Hdt. cbn [mbind option_bind]. destruct (from_timestamp_instant _ _ _ Hdt Hm) as [Ht Hs].
  destruct (four_digits _); [|done].
  destruct (rfc3339_round_trip dt (auto_si (timestamp_subsec_nanos dt))) as (dt' & Hscan & Ht' & Hn').
  - by rewrite Hs.
  - apply auto_si_exact.
  - rewrite Ht. unfold first_day, last_day. lia.
  - unfold parse_timestamp_nanos. rewrite Hscan. cbn [mbind option_bind]. unfold timestamp_nanos_opt.
    rewrite Ht', Hn', Ht, Hs. replace (n / 1000000000 * 1000000000 + n mod 1000000000) with n by lia.
    rewrite Hr. by rewrite bool_decide_eq_true_2.
Qed.

Lemma numeric_oracle_ok s : numeric_oracle s = Some tt.
Proof.
  unfold numeric_oracle. destruct (parse_numeric_i128 s) as [u|] eqn:E; [|done].
  apply parse_numeric_range in E. set (mag := Z.abs u).
  pose proof (Z.div_mod mag 1000000000 ltac:(lia)) as Hdm. pose proof (Z.mod_pos_bound mag 1000000000 ltac:(lia)) as Hm.
  assert (0 <= mag / 1000000000) by (apply Z.div_pos; lia).
  destruct (pad_spec 9 (mag mod 1000000000)) as (Hl & Hd & Hv); [exact Hm|lia|].
  pose proof (parse_numeric_text (bool_decide (u < 0)) (show_N (Z.to_N (mag / 1000000000))) (pad 9 (mag mod 1000000000))
    (mag / 1000000000) (mag mod 1000000000)) as Hp.
  rewrite Hl in Hp. cbn zeta in Hp. change (10 ^ (9 - Z.of_nat 9)) with 1 in Hp.
  rewrite Hp; [|by apply show_N_all_digits|apply show_N_nonnil|done|lia| |done|lia].
  - apply assert_true, bool_decide_eq_true. f_equal. destruct (bool_decide (u < 0)) eqn:Hu.
    + apply bool_decide_eq_true in Hu. lia.
    + apply bool_decide_eq_false in Hu. lia.
  - by rewrite scan_digits_val, show_N_val, Z2N.id.
Qed.

End ValuesFacts.

(** ** LIKE *)

(** The pieces of the expressions the target builds, and what they stand for. *)
Inductive RegexPiece := AnyRun | AnyChar | Escaped (c : char).

Definition piece_text `{RX : RegexCrate} (p : RegexPiece) : rstr :=
  match p with AnyRun => str ".*" | AnyChar => str "." | Escaped c => escape [c] end.

Definition denotes (p : RegexPiece) (part : rstr) : Prop :=
  match p with AnyRun => True | AnyChar => length part = 1 | Escaped c => part = [c] end.

(** With [(?s)], [\A] and [\z], an expression matches the whole value or nothing:
    the value is the concatenation of what its pieces stand for. *)
Class RegexLaws `{RX : RegexCrate} : Prop := regex_anchored ps regex value :
  regex_new (str "(?s)\A" ++ flat_map piece_text ps ++ str "\z") = Some regex ->
  (is_match regex value = true <-> exists parts, Forall2 denotes ps parts /\ value = concat parts).

Definition piece_of (ch : char) : RegexPiece :=
  if decide (ch = likeWild) then AnyRun else if decide (ch = likeOne) then AnyChar else Escaped ch.

Lemma like_pieces pattern value :
  like pattern value <-> exists parts, Forall2 denotes (map piece_of pattern) parts /\ value = concat parts.
Proof.
  split.
  - induction 1 as [|p run v _ (parts & IH & ->)|p c v _ (parts & IH & ->)|p c v Hw Ho _ (parts & IH & ->)].
    + by exists [].
    + exists (run :: parts). split; [|done]. by constructor.
    + exists ([c] :: parts). split; [|done]. by constructor.
    + exists ([c] :: parts). split; [|done]. constructor; [|done]. unfold piece_of. by rewrite !decide_False.
  - revert value. induction pattern as [|c p IH]; cbn [map]; intros value (parts & H & ->).
    + inversion H. constructor.
    + inversion H as [|? part ? parts' Hd Hp]; subst. cbn [concat]. specialize (IH _ (ex_intro _ _ (conj Hp eq_refl))).
      unfold piece_of in Hd. repeat case_decide; subst; cbn in Hd.
      * by constructor.
      * destruct part as [|d [|]]; try done. by constructor.
      * subst part. by constructor.
Qed.

Lemma like_regex_pieces `{RX : RegexCrate} pattern :
  like_regex pattern = str "(?s)\A" ++ flat_map piece_text (map piece_of pattern) ++ str "\z".
Proof.
  unfold like_regex. f_equal. f_equal. induction pattern as [|c p IH]; cbn; [done|]. rewrite IH. f_equal.
  unfold like_piece, piece_of, likeWild, likeOne. by repeat case_decide.
Qed.

Lemma like_target_ok `{RL : RegexLaws} pattern value : like_target pattern value = Some tt.
Proof.
  unfold like_target. rewrite like_regex_pieces. destruct (regex_new _) as [regex|] eqn:E; [|done].
  apply assert_true, eqb_true_iff, eq_true_iff_eq. rewrite (regex_anchored _ _ value E), <- like_pieces.
  apply matches_like.
Qed.

(** ** Partition descriptors *)

(** Every rejection says one of the two things. *)
Lemma decode_partition_says `{SD : Serde} d :
  match decode_partition d with
  | Ok _ => True
  | Err e => message_contains e (str "invalid partition descriptor") = true \/
             message_contains e (str "not supported by this driver") = true
  end.
Proof.
  unfold decode_partition. destruct (from_slice d) as [v|]; cbn [mbind Result_mbind]; [|by left].
  destruct (json_get v (str "v")) as [vj|]; cbn [ok_or mbind Result_mbind]; [|by left].
  destruct (as_u64 vj) as [n|]; cbn [ok_or mbind Result_mbind]; [|by left].
  case_decide; [by right|]. destruct (json_get v (str "partition")) as [payload|]; cbn [ok_or mbind Result_mbind]; [|by left].
  destruct (partition_from_value payload); [done|by left].
Qed.

Lemma partition_target_ok `{SL : SerdeLaws} descriptor : is_Some (partition_target descriptor).
Proof.
  unfold partition_target. pose proof (decode_partition_errs descriptor) as He.
  pose proof (decode_partition_says descriptor) as Hm.
  destruct (decode_partition descriptor) as [p|e] eqn:E.
  - destruct (decode_partition_reads _ _ E) as (_ & payload & _ & _ & _ & Hp).
    destruct (read_writable _ _ Hp) as [v Hv].
    assert (encode_partition p = Ok (to_vec (envelope v))) as Henc by (unfold encode_partition; by rewrite Hv).
    pose proof (encode_decode _ _ Henc) as Hdec. repeat (rewrite ?Henc, ?Hdec; cbn [mbind option_bind]).
    rewrite bool_decide_eq_true_2 by done. by eexists.
  - cbn in He. rewrite He. cbn [assert_that mbind option_bind].
    rewrite bool_decide_eq_true_2 by done. cbn [assert_that mbind option_bind].
    assert (message_contains e (str "invalid partition descriptor") ||
            message_contains e (str "not supported by this driver") = true) as -> by (by apply orb_true_iff).
    by eexists.
Qed.

(** ** Theorems *)

(** C39: The SQL fuzz targets cannot fail.  For every text, the splitter's statements
    are non-empty, trimmed and found in order in it; the first keyword is a
    non-empty run of capitals found in the upper-cased text, decides the DDL and DML
    classification, and is the same behind whitespace, comments and statement hints;
    stripping terminators is idempotent, returns a part of the text and keeps its
    statements.  For every list of column names too, the parameters are distinct up
    to case and found in the text, the pairing succeeds exactly when it should and
    with the query's spelling, and an accepted identifier stays one token between
    backticks in a batch of two statements. *)
Theorem sql_fuzz_targets_pass (sql : rstr) (column_names : list rstr) (bind_by_name : bool) :
  sql_target sql = Some tt /\ keyword_target sql = Some tt /\
  params_target sql column_names bind_by_name = Some tt.
Proof.
  split; [|split; [apply keyword_target_ok|apply params_target_ok]].
  destruct (split_statements_preserve sql) as [Hi Hf]. by apply preserved_ok.
Qed.

(** C40: The value, LIKE and partition fuzz targets cannot fail.  Whatever the text,
    a date, a timestamp or a decimal that parses reads back from its canonical
    rendering; the LIKE matcher agrees with the regular expression of the pattern;
    and a descriptor either decodes, and then re-encodes to a fixed point, or is
    refused as an invalid argument in the promised words. *)
Theorem decoder_fuzz_targets_pass `{CH : Chrono} {CL : ChronoLaws CH} `{RL : RegexLaws} `{SL : SerdeLaws}
    (date_year : NaiveDate -> Z) (datetime_year : DateTimeUtc -> Z) (s pattern value descriptor : rstr) :
  values_target date_year datetime_year s = Some tt /\
  like_target pattern value = Some tt /\
  is_Some (partition_target descriptor).
Proof.
  split; [|split; [apply like_target_ok|apply partition_target_ok]].
  unfold values_target. by rewrite date_oracle_ok, timestamp_oracle_ok, numeric_oracle_ok.
Qed.

(** ** A regular-expression crate for the target's expressions *)

Fixpoint parse_pieces (s : rstr) : option (list RegexPiece) :=
  match s with
  | [] => Some []
  | c :: s' =>
      if decide (c = cBSLASH) then
        match s' with d :: s'' => cons (Escaped d) <$> parse_pieces s'' | [] => None end
      else if decide (c = cDOT) then
        match s' with
        | d :: s'' => if decide (d = cSTAR) then cons AnyRun <$> parse_pieces s'' else cons AnyChar <$> parse_pieces s'
        | [] => Some [AnyChar]
        end
      else None
  end.

Fixpoint match_pieces (ps : list RegexPiece) (s : rstr) : bool :=
  match ps with
  | [] => bool_decide (s = [])
  | AnyChar :: ps => match s with _ :: s => match_pieces ps s | [] => false end
  | Escaped c :: ps => match s with d :: s => bool_decide (c = d) && match_pieces ps s | [] => false end
  | AnyRun :: ps =>
      (fix run s := match_pieces ps s || match s with _ :: s => run s | [] => false end) s
  end.

Definition example_regex : RegexCrate := {|
  Regex := list RegexPiece;
  regex_new s := body ← strip_prefix (str "(?s)\A") s; body ← strip_suffix (str "\z") body; parse_pieces body;
  is_match := match_pieces;
  escape s := flat_map (fun c => [cBSLASH; c]) s |}.

Lemma parse_piece_text ps : parse_pieces (flat_map (piece_text (RX := example_regex)) ps) = Some ps.
Proof.
  induction ps as [|[| |c] ps IH]; cbn [flat_map]; [done|..].
  - change (cons AnyRun <$> parse_pieces (flat_map (piece_text (RX := example_regex)) ps) = Some (AnyRun :: ps)).
    by rewrite IH.
  - change (piece_text (RX := example_regex) AnyChar) with [cDOT]. cbn [app parse_pieces].
    rewrite decide_False, decide_True by done.
    destruct (flat_map _ ps) as [|d s] eqn:E; [by injection IH as <-|].
    rewrite decide_False; [by rewrite IH|]. destruct ps as [|[| |e] ps]; [done|..]; by injection E as <- _.
  - change (cons (Escaped c) <$> parse_pieces (flat_map (piece_text (RX := example_regex)) ps) = Some (Escaped c :: ps)).
    by rewrite IH.
Qed.

Lemma match_pieces_spec ps s :
  match_pieces ps s = true <-> exists parts, Forall2 denotes ps parts /\ s = concat parts.
Proof.
  revert s. induction ps as [|[| |c] ps IH]; intros s; cbn [match_pieces].
  - rewrite bool_decide_eq_true. split; [intros ->; by exists []|]. intros (parts & H & ->). by inversion H.
  - transitivity (exists a b, s = a ++ b /\ match_pieces ps b = true).
    + split.
      * induction s as [|d s IHs]; rewrite orb_true_iff; [intros [H|]; [by exists [], []|done]|].
        intros [H|H]; [by exists [], (d :: s)|]. destruct (IHs H) as (a & b & -> & Hb). by exists (d :: a), b.
      * intros (a & b & -> & Hb). induction a as [|d a IHa]; [destruct b; cbn; by rewrite Hb|].
        apply orb_true_iff. by right.
    + setoid_rewrite IH. split.
      * intros (a & _ & -> & parts & H & ->). exists (a :: parts). split; [by constructor|done].
      * intros (parts & H & ->). inversion H as [|? a ? parts' _ Hp]; subst. by eexists a, _; split; [|eexists].
  - destruct s as [|d s].
    + split; [done|]. intros (parts & H & E). inversion H as [|? a ? parts' Ha Hp]; subst. by destruct a.
    + rewrite IH. split.
      * intros (parts & H & ->). exists ([d] :: parts). split; [by constructor|done].
      * intros (parts & H & E). inversion H as [|? a ? parts' Ha Hp]; subst.
        destruct a as [|? [|]]; try done. injection E as -> ->. by eexists.
  - destruct s as [|d s].
    + split; [done|]. intros (parts & H & E). inversion H as [|? a ? parts' Ha Hp]; subst. cbn in Ha. by subst.
    + rewrite andb_true_iff, bool_decide_eq_true, IH. split.
      * intros (-> & parts & H & ->). exists ([d] :: parts). split; [by constructor|done].
      * intros (parts & H & E). inversion H as [|? a ? parts' Ha Hp]; subst. cbn in Ha. subst a.
        injection E as -> ->. split; [done|]. by eexists.
Qed.

#[export] Instance example_regex_laws : RegexLaws (RX := example_regex).
Proof.
  intros ps regex value H. cbn in H.
  rewrite (proj2 (strip_prefix_Some _ _ _) eq_refl) in H. cbn [mbind option_bind] in H.
  rewrite (proj2 (strip_suffix_Some _ _ _) eq_refl) in H. cbn [mbind option_bind] in H.
  rewrite parse_piece_text in H. injection H as <-. apply match_pieces_spec.
Qed.

Lemma decoder_fuzz_targets_pass_witness :
  values_target (CH := Gregorian) (fun day => (civil day).1.1) (fun dt => (civil (dt.1 / 86400 + 719163)%Z).1.1)
    (str "1999-12-31T23:59:59.25Z") = Some tt /\
  like_target (RX := example_regex) (str "a%_.z") (str "abc.z") = Some tt /\
  is_Some (partition_target (SD := example_serde) (str "p1")).
Proof.
  apply (decoder_fuzz_targets_pass (CH := Gregorian) (CL := Gregorian_laws) (RX := example_regex)
    (RL := example_regex_laws) (SD := example_serde) (SL := example_serde_laws)
    (fun day => (civil day).1.1) (fun dt => (civil (dt.1 / 86400 + 719163)%Z).1.1)).
Defined.
