(* ===== verification/FuzzOptions.v ===== *)
(** * The fuzz targets of the option parsers ([fuzz/fuzz_targets])

    The [options], [uri], [staleness] and [directed_read] targets assert nothing:
    they demand that setting and reading any option returns.  Each is the function
    libFuzzer calls, which gives back what the target discards, so that something
    can be said of it: the options a run leaves behind are as any host's would be. *)

From S2P Require Import Prelude RustStr Utf8 RustNum ErrorModel Options DirectedRead Staleness Config Runtime Txn Client.
From S2P Require Import Connection Uri Driver DriverFacts.

Inductive OptValue :=
  | Str (s : rstr)
  | Int (i : Z)
  | Double (d : f64)
  | Bytes (b : list N).

Definition option_value (value : OptValue) : OptionValue :=
  match value with Str s => OString s | Int i => OInt i | Double d => ODouble d | Bytes b => OBytes b end.

Section Targets.
Context {O : Outside} {SC : SpannerClient}.

(** The loop of [exercise_database_options], with what each step discards. *)
Fixpoint exercise_loop (database : SpannerDatabase) (ops : list (rstr * OptValue)) :
    SpannerDatabase * list (Result unit * Result rstr) :=
  match ops with
  | [] => (database, [])
  | (key, value) :: ops =>
      let '(database, set) := db_set_option database (OdOther key) (option_value value) in
      let get := db_get_option_string (db_config database) (OdOther key) in
      let '(database, rest) := exercise_loop database ops in (database, (set, get) :: rest)
  end.

Definition exercise_database_options (ops : list (rstr * OptValue)) :=
  exercise_loop SpannerDatabase_new ops.

Definition options_target (ops : list (rstr * OptValue)) (endpoint : rstr) :=
  let scheme := ensure_scheme endpoint in (scheme, exercise_database_options ops).

Definition expand_connection_uri (uri : rstr) : SpannerDatabase * Result unit * Result rstr :=
  let '(database, set) := db_set_option SpannerDatabase_new OdUri (OString uri) in
  (database, set, db_get_option_string (db_config database) OdUri).

(** The bounds are only converted when the value was accepted. *)
Definition parse_read_staleness (value : rstr) :
    option (Result (option TimestampBound) * Result (option TimestampBound)) :=
  let '(staleness, set) := set_staleness parse_from_rfc3339 RawParsed_default (OString value) in
  match set with
  | Ok _ => Some (timestamp_bound try_exact_staleness try_max_staleness try_read_timestamp try_min_read_timestamp staleness,
          multi_use_timestamp_bound try_exact_staleness try_max_staleness try_read_timestamp try_min_read_timestamp staleness)
  | Err _ => None
  end.

Definition staleness_target (value : rstr) := (parse_read_staleness value, Staleness.parse_duration value).

Definition parse_directed_read (value : rstr) : Result DirectedReadSpec := DirectedRead.parse value.

(** ** What they leave *)

Lemma exercise_loop_configured database ops :
  configured (db_config database) -> Forall (fun op => value_ok (option_value op.2)) ops ->
  configured (db_config (exercise_loop database ops).1).
Proof.
  intros H Hops. revert database H. induction Hops as [|[key value] ops Hv _ IH]; intros database H; [done|].
  cbn [exercise_loop]. destruct (db_set_option database (OdOther key) (option_value value)) as [db' set] eqn:E.
  assert (configured (db_config db')) as H'.
  { unfold db_set_option in E. destruct (set_config _ _ _) as [c r] eqn:Ec. injection E as <- _. cbn.
    replace c with (set_config (db_config database) (OdOther key) (option_value value)).1 by (by rewrite Ec).
    by constructor. }
  specialize (IH db' H'). by destruct (exercise_loop db' ops).
Qed.

(** A run of the options target keeps the invariant of configurations. *)
Theorem options_target_configured ops endpoint :
  Forall (fun op => value_ok (option_value op.2)) ops ->
  configured (db_config (options_target ops endpoint).2.1).
Proof. intros H. apply exercise_loop_configured; [constructor|done]. Qed.

(** The uri target reads back what was accepted, and nothing otherwise. *)
Theorem uri_target_reads_back uri :
  match expand_connection_uri uri with
  | (_, Ok _, get) => get = Ok uri
  | (database, Err _, get) => database = SpannerDatabase_new /\ exists e, get = Err e
  end.
Proof.
  unfold expand_connection_uri, db_set_option, SpannerDatabase_new. cbn [db_config set_config string_value].
  change (string_value OdUri (OString uri)) with (Ok uri). cbn -[set_uri_option]. unfold set_uri_option.
  destruct (connection_uri_remainder uri) as [rem|]; [|cbn; split; [done|by eexists]].
  destruct (apply_connection_uri_spec uri rem) as [[e He]|(parsed & f & _ & _ & Hf)].
  - rewrite He. cbn. split; [done|]. by eexists.
  - destruct (Hf DbConfig_new) as [-> _]. done.
Qed.

(** The staleness target converts exactly the bound it parsed; a blank value is no
    bound. *)
Theorem staleness_target_converts value :
  parse_read_staleness value =
  if decide (trim value = []) then Some (Ok None, Ok None)
  else match parse_read_bound parse_from_rfc3339 (trim value) with
       | Ok b =>
           let convert b := Some <$> to_timestamp_bound try_exact_staleness try_max_staleness try_read_timestamp
                                       try_min_read_timestamp b in
           Some (convert b, convert (pinned_for_multi_use b))
       | Err _ => None
       end.
Proof.
  unfold parse_read_staleness, set_staleness, RawParsed_set. cbn [string_option string_value].
  case_decide; [done|]. destruct (parse_read_bound _ _) as [b|e]; [|done]. cbn.
  unfold timestamp_bound, multi_use_timestamp_bound, transpose. cbn.
  by destruct (to_timestamp_bound _ _ _ _ b), (to_timestamp_bound _ _ _ _ (pinned_for_multi_use b)).
Qed.

End Targets.
