(* ===== verification/Conformance.v ===== *)
(** * The repository's unit tests, replayed

    Tables of inputs and expected results taken from the unit tests beside each
    module, evaluated on the definitions of this development. *)

From S2P Require Import Prelude RustStr RustNum ErrorModel Options DirectedRead Staleness Sql Metadata.
From S2P Require Import Decode Calendar Uri Driver.

Open Scope nat_scope.

(** Every row of a table agrees with the definition. *)
Definition agrees {A B} `{EqDecision B} (f : A -> B) (cases : list (A * B)) : bool :=
  forallb (fun '(input, expected) => bool_decide (f input = expected)) cases.

(** Every input is refused as an invalid argument. *)
Definition refused {A B} (f : A -> Result B) (inputs : list A) : bool :=
  forallb (fun input => match f input with Err e => bool_decide (status e = InvalidArguments) | Ok _ => false end)
    inputs.

(** ** [src/sql/tests.rs] *)

Definition split_cases : list (rstr * list rstr) := [
  (str "SELECT r'x\'; DELETE FROM t WHERE true; SELECT 1'",
   [str "SELECT r'x\'; DELETE FROM t WHERE true; SELECT 1'"]);
  (str "SELECT r'''a\'''; DELETE FROM t WHERE true'''",
   [str "SELECT r'''a\'''; DELETE FROM t WHERE true'''"]);
  (str "SELECT r'a\\'; DELETE FROM t WHERE stale",
   [str "SELECT r'a\\'"; str "DELETE FROM t WHERE stale"]);
  (str "   ;  ; ",
   []);
  (str "DELETE FROM t1; DELETE FROM t2; -- cleanup",
   [str "DELETE FROM t1"; str "DELETE FROM t2"]);
  (str "SELECT 1;" ++ [cNL] ++ str "  " ++ [cNL] ++ str "-- a" ++ [cNL] ++ str "SELECT 2; # b" ++ [cNL] ++ str "SELECT 3; /* c */",
   [str "SELECT 1"; str "-- a" ++ [cNL] ++ str "SELECT 2"; str "# b" ++ [cNL] ++ str "SELECT 3"]);
  (str "SELECT 1 -- done" ++ [cNL] ++ str "; SELECT 2 /* tail */",
   [str "SELECT 1 -- done"; str "SELECT 2 /* tail */"]);
  (str "-- just a comment" ++ [cNL] ++ str "/* and a block */  ; # trailing",
   []);
  (str "UPDATE t SET path = r'C:\'; DELETE FROM u WHERE stale",
   [str "UPDATE t SET path = r'C:\'; DELETE FROM u WHERE stale"]);
  (str "INSERT INTO t (b) VALUES (rb'\'); SELECT 1",
   [str "INSERT INTO t (b) VALUES (rb'\'); SELECT 1"]);
  (str "SELECT BR" ++ [cDQ] ++ str "\" ++ [cDQ] ++ str "; SELECT R'\'",
   [str "SELECT BR" ++ [cDQ] ++ str "\" ++ [cDQ] ++ str "; SELECT R'\'"]);
  (str "SELECT b'\';x'; SELECT 2",
   [str "SELECT b'\';x'"; str "SELECT 2"]);
  (str "UPDATE t SET path = r'C:\\'; DELETE FROM u WHERE stale",
   [str "UPDATE t SET path = r'C:\\'"; str "DELETE FROM u WHERE stale"]);
  (str "SELECT r ';'; SELECT xr';'",
   [str "SELECT r ';'"; str "SELECT xr';'"]);
  (str "INSERT INTO t (s) VALUES ('''don't; stop'''); DELETE FROM t",
   [str "INSERT INTO t (s) VALUES ('''don't; stop''')"; str "DELETE FROM t"]);
  (str "SELECT " ++ [cDQ; cDQ; cDQ] ++ str "a;b" ++ [cDQ; cDQ; cDQ] ++ str "; SELECT 2",
   [str "SELECT " ++ [cDQ; cDQ; cDQ] ++ str "a;b" ++ [cDQ; cDQ; cDQ]; str "SELECT 2"]);
  (str "SELECT '''a''b'''; SELECT 2",
   [str "SELECT '''a''b'''"; str "SELECT 2"]);
  (str "SELECT r'''a\'''; SELECT 2",
   [str "SELECT r'''a\'''; SELECT 2"]);
  (str "SELECT r'''a\\'''; SELECT 2",
   [str "SELECT r'''a\\'''"; str "SELECT 2"]);
  (str "SELECT ''; SELECT " ++ [cDQ; cDQ],
   [str "SELECT ''"; str "SELECT " ++ [cDQ; cDQ]]);
  (str "INSERT INTO t (s) VALUES ('a;b'); DELETE FROM t WHERE true",
   [str "INSERT INTO t (s) VALUES ('a;b')"; str "DELETE FROM t WHERE true"]);
  (str "UPDATE t SET s = 'x\';y' WHERE id = 1",
   [str "UPDATE t SET s = 'x\';y' WHERE id = 1"]);
  (str "SELECT 1 -- a; b" ++ [cNL] ++ str "; SELECT 2",
   [str "SELECT 1 -- a; b"; str "SELECT 2"]);
  (str "/* a */ /* b */",
   []);
  (str "-- a" ++ [cNL] ++ str " /* b */ # c",
   []);
  (str "SELECT 1; ()",
   [str "SELECT 1"; str "()"])].

Definition strip_cases : list (rstr * rstr) := [
  (str "SELECT 1; -- done", str "SELECT 1");
  (str "SELECT 1;", str "SELECT 1");
  (str "SELECT 1;;;", str "SELECT 1");
  (str "SELECT 1 ;  ", str "SELECT 1");
  (str "  SELECT 1  ", str "SELECT 1");
  (str "SELECT current_date;;;", str "SELECT current_date");
  (str "SELECT 1", str "SELECT 1");
  (str "SELECT ';'", str "SELECT ';'");
  (str "SELECT ';';", str "SELECT ';'");
  (str "SELECT 1; SELECT 2", str "SELECT 1; SELECT 2");
  (str "; SELECT 1", str "SELECT 1");
  (str " ; SELECT 1 ; ", str "SELECT 1");
  (str ";;SELECT 1", str "SELECT 1");
  (str "SELECT 1;" ++ [cNL] ++ str "-- tail" ++ [cNL] ++ str ";", str "SELECT 1");
  (str "SELECT 1 -- tail", str "SELECT 1 -- tail");
  ([], []);
  (str ";", str ";");
  (str ";;", str ";;");
  (str "  " ++ [cNL], str "  " ++ [cNL]);
  (str "-- only a comment", str "-- only a comment");
  (str "/* just a block */", str "/* just a block */")].

Definition parameter_cases : list (rstr * list rstr) := [
  (str "SELECT @a, @b FROM t WHERE @a > 0", [str "a"; str "b"]);
  (str "SELECT 1", []);
  (str "SELECT '@x', @y -- @z" ++ [cNL], [str "y"]);
  (str "SELECT @y /* @z */, @w", [str "y"; str "w"]);
  (str "SELECT `@col`, @p", [str "p"]);
  (str "SELECT @{JOIN_METHOD=HASH_JOIN} * FROM t WHERE id = @id", [str "id"]);
  (str "SELECT @@rows", []);
  (str "@b @a @a @b @c", [str "b"; str "a"; str "c"]);
  (str "SELECT r'\', @p", []);
  (str "SELECT rb'@x\', @p", []);
  (str "SELECT r'\\', @p", [str "p"]);
  (str "SELECT rb'@x\\', @p", [str "p"]);
  (str "SELECT '''@x''', @y", [str "y"]);
  (str "SELECT " ++ [cDQ; cDQ; cDQ] ++ str "it's @x" ++ [cDQ; cDQ; cDQ] ++ str ", @y", [str "y"]);
  (str "SELECT '', @z", [str "z"]);
  (str "SELECT xr'\' @a ', @b", [str "b"]);
  (str "SELECT @`a b` AS x", [str "a b"]);
  (str "SELECT @`a\`b`", []);
  (str "SELECT @``", []);
  (str "SELECT @`", []);
  (str "SELECT @`" ++ [952%N], []);
  (str "SELECT @`unterminated", []);
  (str "@ {JOIN_METHOD=HASH_JOIN} SELECT * FROM t WHERE id = @id", [str "id"]);
  (str "SELECT @@rows", []);
  (str "SELECT `@col`, @p", [str "p"]);
  (str "UPDATE t SET s = @v WHERE id = @V", [str "v"]);
  (str "SELECT @Name, @name, @NAME", [str "Name"]);
  (str "SELECT @b, @a, @B, @c, @A", [str "b"; str "a"; str "c"]);
  (str "SELECT @p AS a", [str "p"]);
  (str "SELECT @ p AS a", [str "p"]);
  (str "SELECT @/* c */p AS a", [str "p"]);
  (str "SELECT @`p` AS a", [str "p"]);
  (str "SELECT @" ++ [cNL] ++ str "  p AS a", [str "p"])].

Definition keyword_cases : list (rstr * option rstr) := [
  (str "select 1", Some (str "select"));
  (str "-- c" ++ [cNL] ++ str "# h" ++ [cNL] ++ str "/* b */ Update t", Some (str "Update"));
  (str "@{A=1} @{B='}'} DELETE FROM t", Some (str "DELETE"));
  (str "`select` 1", None);
  (str "'select'", None);
  (str "select_into x", Some (str "select"));
  (str "_select 1", None);
  (str "9select 1", None);
  (str "@p", None);
  (str "@ p", None);
  (str "@@seed UPDATE t", None);
  (str "@ {A=1} SELECT 1", Some (str "SELECT"));
  (str "@" ++ [cNL] ++ str "{A=1} SELECT 1", Some (str "SELECT"));
  (str "@/* c */{A=1} SELECT 1", Some (str "SELECT"));
  ([], None);
  (str "  " ++ [cNL; 9%N], None);
  (str "-- only" ++ [cNL] ++ str " /* comments */", None);
  (str "/* unterminated", None)].

Definition is_ddl_accepted : list rstr := [
  str "CREATE TABLE t (id INT64) PRIMARY KEY (id)";
  str "  drop table t";
  str "ALTER TABLE t ADD COLUMN c STRING(MAX)";
  str "RENAME TABLE a TO b";
  str "-- a comment" ++ [cNL] ++ str "CREATE INDEX idx ON t(c)";
  str "/* header */ create table t (id int64) primary key (id)"].

Definition is_ddl_refused : list rstr := [
  str "SELECT 1";
  str "INSERT INTO t (id) VALUES (1)";
  str "UPDATE t SET c = 1 WHERE id = 1";
  str "DELETE FROM t WHERE true";
  str "WITH x AS (SELECT 1) SELECT * FROM x";
  []].

Definition is_dml_accepted : list rstr := [
  str "INSERT INTO t (id) VALUES (1)";
  str "  update t SET c = 1 WHERE id = 1";
  str "DELETE FROM t WHERE true";
  str "/* c */ insert into t (id) values (1)";
  str "@{USE_ADDITIONAL_PARALLELISM=TRUE} UPDATE t SET c = 1 WHERE true";
  str "@{PDML_MAX_PARALLELISM=8} delete from t where true";
  str "/* c */ @{A=1} INSERT INTO t (id) VALUES (1)";
  str "@{A=1} -- c" ++ [cNL] ++ str " UPDATE t SET c = 1 WHERE true";
  str "@{A='}'} DELETE FROM t WHERE true"].

Definition is_dml_refused : list rstr := [
  str "SELECT 1";
  str "WITH x AS (SELECT 1) SELECT * FROM x";
  str "CREATE TABLE t (id INT64) PRIMARY KEY (id)";
  []].

Definition is_dml_returning_accepted : list rstr := [
  str "INSERT INTO t (id) VALUES (1) THEN RETURN id";
  str "insert into t (id) values (1) then return *";
  str "UPDATE t SET c = 1 WHERE id = 1 THEN" ++ [cNL] ++ str "  RETURN c";
  str "DELETE FROM t WHERE id = 1 then /* keep */ return id";
  str "DELETE FROM t WHERE id = 1 THEN -- comment" ++ [cNL] ++ str " RETURN id";
  str "UPDATE t SET x = CASE WHEN c THEN 1 ELSE 0 END WHERE true THEN RETURN x";
  str "UPDATE t SET x = CASE WHEN c THEN return ELSE 0 END WHERE true THEN RETURN x";
  str "UPDATE t SET x = CASE WHEN a THEN CASE WHEN b THEN 2 END ELSE 0 END WHERE true then return *";
  str "UPDATE t SET s = 'CASE' WHERE true THEN RETURN s";
  str "UPDATE t SET `case` = 1 WHERE true THEN RETURN `case`"].

Definition is_dml_returning_refused : list rstr := [
  str "INSERT INTO t (id) VALUES (1)";
  str "SELECT CASE WHEN a THEN b ELSE c END FROM t";
  str "INSERT INTO t (s) VALUES ('THEN RETURN')";
  str "INSERT INTO t (s) VALUES ('''THEN RETURN''')";
  str "INSERT INTO t (s) VALUES (r'THEN RETURN\\')";
  str "UPDATE t SET `then return` = 1 WHERE true";
  str "UPDATE t SET a = 1 /* THEN RETURN */ WHERE true";
  str "UPDATE t SET a = 1 WHERE true -- THEN RETURN";
  str "UPDATE t SET a = 1 WHERE true # THEN RETURN";
  str "UPDATE t SET a = thenreturn WHERE true";
  str "UPDATE t SET a = x_then WHERE return_value = 1";
  str "UPDATE t SET a = CASE WHEN b THEN 'x' ELSE returns END WHERE true";
  [];
  str "UPDATE t SET x = CASE WHEN c THEN return ELSE 0 END WHERE true";
  str "update t set x = case when c then RETURN else 0 end where true";
  str "UPDATE t SET x = CASE y WHEN 1 THEN return END WHERE true";
  str "UPDATE t SET x = CASE WHEN a THEN return WHEN b THEN return ELSE return END WHERE true";
  str "UPDATE t SET x = CASE WHEN a THEN CASE WHEN b THEN return END END WHERE true";
  str "UPDATE t SET x = CASE WHEN c THEN /* pick */ return ELSE 0 END WHERE true"].

Lemma sql_unit_tests :
  agrees split_statements split_cases && agrees strip_trailing_terminators strip_cases &&
  agrees named_parameters parameter_cases && agrees first_keyword keyword_cases &&
  forallb is_ddl is_ddl_accepted && forallb (fun s => negb (is_ddl s)) is_ddl_refused &&
  forallb is_dml is_dml_accepted && forallb (fun s => negb (is_dml s)) is_dml_refused &&
  forallb is_dml_returning is_dml_returning_accepted &&
  forallb (fun s => negb (is_dml_returning s)) is_dml_returning_refused = true.
Proof. vm_compute. reflexivity. Qed.

(** ** [src/metadata/tests.rs] *)

Definition like_accepted : list (rstr * rstr) := [
  ([], []);
  (str "%", []);
  (str "%", str "anything");
  (str "Singers", str "Singers");
  (str "Sing%", str "Singers");
  (str "%ers", str "Singers");
  (str "S_ngers", str "Singers");
  (str "%a%a%", str "banana");
  (str "%", str "%foo");
  (str "%", str "%^%?");
  (str "a%", str "a%b");
  (str "_", [233%N]);
  (str "caf_", str "caf" ++ [233%N]);
  (str "_" ++ [26412%N] ++ str "_", [26085%N; 26412%N; 35486%N]);
  (str "_", [129408%N]);
  (str "%" ++ [35486%N], [26085%N; 26412%N; 35486%N]);
  (str "%" ++ [26412%N] ++ str "%", [26085%N; 26412%N; 35486%N]);
  ([26085%N] ++ str "%" ++ [35486%N], [26085%N; 26412%N; 35486%N]);
  ([233%N] ++ str "%" ++ [233%N], [233%N] ++ str "t" ++ [233%N])].

Definition like_refused : list (rstr * rstr) := [
  (str "Singers", str "singers");
  (str "%x%", str "banana");
  ([], str "x");
  (str "__", [233%N]);
  (str "____", [26085%N; 26412%N; 35486%N]);
  (str "%x%", [26085%N; 26412%N; 35486%N]);
  ([233%N] ++ str "_" ++ [233%N], [233%N] ++ str "t" ++ [233%N] ++ str " " ++ [233%N] ++ str "t" ++ [233%N])].

Lemma like_unit_tests :
  forallb (fun '(p, v) => like_match p v) like_accepted &&
  forallb (fun '(p, v) => negb (like_match p v)) like_refused = true.
Proof. vm_compute. reflexivity. Qed.

(** ** The scanners ([src/conversion.rs]) *)

Definition date_cases : list (rstr * option Z) := [
  (str "1970-01-01", Some (0)%Z);
  (str "1970-01-02", Some (1)%Z);
  (str "1969-12-31", Some (-1)%Z);
  (str "2024-01-15", Some (19737)%Z);
  (str "not-a-date", None);
  (str "0001-01-01", Some (-719162)%Z);
  (str "9999-12-31", Some (2932896)%Z);
  (str "2024-02-29", Some (19782)%Z);
  (str "2024-03-01", Some (19783)%Z);
  (str "2024-13-01", None);
  (str "2024-02-30", None);
  (str "2024-0x-15", None);
  (str "2024/01/15", None);
  (str "2024-1-15", None);
  (str "2024-01-15 ", None)].

Definition nanos_cases : list (rstr * option Z) := [
  (str "1970-01-01T00:00:00Z", Some (0)%Z);
  (str "1970-01-01T00:00:00.000001Z", Some (1000)%Z);
  (str "2024-01-15T12:34:56.789012Z", Some (1705322096789012000)%Z);
  (str "1970-01-01T00:00:00.000000999Z", Some (999)%Z);
  (str "2024-01-15T12:34:56.789012345Z", Some (1705322096789012345)%Z);
  (str "nope", None);
  (str "3000-01-01T00:00:00Z", None);
  (str "1000-01-01T00:00:00Z", None);
  (str "2024-01-15T12:34:56+02:00", None);
  (str "2024-01-15t12:34:56Z", None);
  (str "2024-01-15T12:34:56z", None);
  (str "2024-01-15T12:34:56", None);
  (str "2024-01-15T12:34:56.Z", None);
  (str "2024-01-15T12:34:56.", None);
  (str "2024-01-15T12:34:56.1234567890Z", None);
  (str "2024-13-15T00:00:00Z", None);
  (str "2024-01-15T25:00:00Z", None)].

Definition micros_cases : list (rstr * option Z) := [
  (str "1970-01-01T00:00:00Z", Some (0)%Z);
  (str "2024-01-15T12:34:56.789012Z", Some (1705322096789012)%Z);
  (str "2024-01-15T12:34:56.789012345Z", Some (1705322096789012)%Z);
  (str "1969-12-31T23:59:59.999999999Z", Some (-1)%Z);
  (str "1970-01-01T00:00:00.000000999Z", Some (0)%Z);
  (str "0001-01-01T00:00:00Z", Some (-62135596800000000)%Z);
  (str "9999-12-31T23:59:59.999999999Z", Some (253402300799999999)%Z);
  (str "nope", None)].

Definition numeric_cases : list (rstr * option Z) := [
  (str "0", Some (0)%Z);
  (str "1", Some (1000000000)%Z);
  (str "1.5", Some (1500000000)%Z);
  (str "-2.25", Some (-2250000000)%Z);
  (str "0.000000001", Some (1)%Z);
  (str "9", Some (9000000000)%Z);
  (str "abc", None);
  ([], None);
  (str "+3", None);
  (str "0.0000000019", None);
  (str " 1", None);
  (str ".5", None);
  (str "-.5", None);
  (str "5.", None);
  (str "-5.", None);
  (str ".", None);
  (str "-.", None);
  (str "-", None)].

Lemma scanner_unit_tests :
  agrees parse_date_days date_cases && agrees parse_timestamp_nanos nanos_cases &&
  agrees parse_timestamp_micros micros_cases && agrees parse_numeric_i128 numeric_cases = true.
Proof. vm_compute. reflexivity. Qed.

(** ** [src/directed_read.rs] *)

Definition directed_read_cases : list (rstr * DirectedReadSpec) := [
  (str "include:us-east1", mkDirectedReadSpec Include [mkSelection (str "us-east1") Any] false);
  (str "include:us-east1:read_only,us-east4:read_write",
   mkDirectedReadSpec Include [mkSelection (str "us-east1") ReadOnly; mkSelection (str "us-east4") ReadWrite] false);
  (str "exclude:us-central1", mkDirectedReadSpec Exclude [mkSelection (str "us-central1") Any] false);
  (str "  include : us-east1 : read_only , us-east4 : any  ",
   mkDirectedReadSpec Include [mkSelection (str "us-east1") ReadOnly; mkSelection (str "us-east4") Any] false);
  (str "include:us-east1;auto_failover_disabled",
   mkDirectedReadSpec Include [mkSelection (str "us-east1") Any] true);
  (str "include::read_only", mkDirectedReadSpec Include [mkSelection [] ReadOnly] false);
  (str "include;auto_failover_disabled", mkDirectedReadSpec Include [] true)].

Definition directed_read_refused : list rstr := [
  str "INCLUDE:us-east1";
  str "Include:us-east1";
  str "EXCLUDE:us-central1";
  str "include:us-east1:READ_ONLY";
  str "include:us-east1:Read_Write";
  str "include::ANY";
  str "include:us-east1;AUTO_FAILOVER_DISABLED";
  str "include:us-east1;Auto_Failover_Disabled";
  [];
  str "prefer:us-east1";
  str "include";
  str "exclude";
  str "include:";
  str "include:us-east1,";
  str "include:us-east1:fast";
  str "include::";
  str "include::any";
  str "exclude:us-east1;auto_failover_disabled";
  str "include:us-east1;wat"].

#[local] Instance selection_eq_dec : EqDecision Selection.
Proof. solve_decision. Defined.
#[local] Instance directed_read_spec_eq_dec : EqDecision DirectedReadSpec.
Proof. solve_decision. Defined.

Lemma directed_read_unit_tests :
  forallb (fun '(s, spec) => match DirectedRead.parse s with Ok spec' => bool_decide (spec' = spec) | Err _ => false end)
    directed_read_cases && refused DirectedRead.parse directed_read_refused = true.
Proof. vm_compute. reflexivity. Qed.

(** ** [src/staleness/tests.rs] *)

(** A timestamp parser that accepts nothing, for the tests without timestamps. *)
Definition read_bound (s : rstr) : Result ReadBound := parse_read_bound (fun _ => inr []) s.

Definition read_bound_cases : list (rstr * ReadBound) := [
  (str "exact:10", ExactStaleness 10000000000);
  (str "exact:2.5s", ExactStaleness 2500000000);
  (str "max:500ms", MaxStaleness 500000000);
  (str "max:1m", MaxStaleness 60000000000);
  (str " exact : 1h ", ExactStaleness 3600000000000)].

Definition read_bound_refused : list rstr := [
  str "EXACT:10s"; str "Exact:10s"; str "MAX:1m"; str "10s"; str "exact:"; str "exact:abc"; str "exact:-5";
  str "soon:10s"; str "exact:1x"; str "not-a-time"; str "read:"; str "2026-07-07"; str "min:12345";
  str "exact:1e20"; str "max:1e20"; str "exact:1e19h"].

#[local] Instance date_time_eq_dec : EqDecision DateTime.
Proof. solve_decision. Defined.
#[local] Instance read_bound_eq_dec : EqDecision ReadBound.
Proof. solve_decision. Defined.

Lemma staleness_unit_tests :
  forallb (fun '(s, b) => match read_bound s with Ok b' => bool_decide (b' = b) | Err _ => false end)
    read_bound_cases && refused read_bound read_bound_refused = true.
Proof. vm_compute. reflexivity. Qed.

(** ** [src/driver/uri/tests.rs] *)

Definition test_path : rstr := str "projects/p/instances/i/databases/d".

Definition set_uri (uri : rstr) : Result DbConfig :=
  match set_config DbConfig_new OdUri (OString uri) with
  | (c, Ok _) => Ok c
  | (_, Err e) => Err e
  end.

(** The database, endpoint and emulator flag a URI leaves on a new database. *)
Definition uri_cases : list (rstr * (option rstr * option rstr * bool)) := [
  (str "spanner:///" ++ test_path, (Some test_path, None, false));
  (str "Spanner:///" ++ test_path, (Some test_path, None, false));
  (str "spanner://emu-host:9010/" ++ test_path, (Some test_path, Some (str "emu-host:9010"), false));
  (str "spanner:///" ++ test_path ++ str "?spanner.endpoint=http://localhost:9010&spanner.emulator=true",
   (Some test_path, Some (str "http://localhost:9010"), true));
  (str "spanner://authority:9010/" ++ test_path ++ str "?spanner.endpoint=http://param:9010",
   (Some test_path, Some (str "http://param:9010"), false));
  (str "spanner:///" ++ test_path ++ str "?spanner.endpoint=http%3A%2F%2Flocalhost%3A9010",
   (Some test_path, Some (str "http://localhost:9010"), false));
  (str "spanner:///" ++ test_path ++ str "?&spanner%2Eemulator=true&", (Some test_path, None, true))].

Definition uri_refused : list rstr := [
  test_path; str "spanner:" ++ test_path; str "spanner:/" ++ test_path;
  str "cloudspanner:///" ++ test_path ++ str "?spanner.emulator=true";
  str "spanner:///" ++ test_path ++ str "?spanner.databoost=1"; str "spanner:///" ++ test_path ++ str "?uri=x";
  str "spanner:///" ++ test_path ++ str "?spanner.auth.keyfile_json=%7B%22type%22%3A%22service_account%22%7D";
  str "spanner:///" ++ test_path ++ str "?spanner.auth.access_token=ya29.uri-token";
  str "spanner:///" ++ test_path ++ str "?spanner.emulator=maybe";
  str "spanner://host:9010/" ++ test_path ++ str "?spanner.auth.keyfile=%G1";
  str "spanner:///" ++ test_path ++ str "?spanner.auth.keyfile=%FF%FE";
  str "spanner:///"; str "spanner:///projects/p"; str "spanner:///projects//instances/i/databases/d";
  str "spanner:///databases/d/instances/i/projects/p"; str "spanner://" ++ test_path;
  str "spanner:///" ++ test_path ++ str "#frag"].

Lemma uri_unit_tests :
  forallb (fun '(uri, (database, endpoint, emulator)) =>
    match set_uri uri with
    | Ok c => bool_decide (db_database c = database /\ db_endpoint c = endpoint /\ db_emulator c = emulator /\
                           db_uri c = Some uri)
    | Err _ => false
    end) uri_cases && refused set_uri uri_refused = true.
Proof. vm_compute. reflexivity. Qed.
